(* ===== verification/_CoqProject ===== *)
-Q . S2P
Prelude.v
Text.v
Uri.v
Types.v
Planner.v
Response.v
Transport.v
Files.v
CurlSetup.v
Probe.v
ProbeSpec.v
Batch.v
Engine.v
Reads.v
Download.v
DownloadSpec.v
Resolver.v
Process.v
System.v
Wakeup.v
Workers.v
Lifecycle.v
Schedule.v
Progress.v
Places.v
Answers.v
Config.v
Backends.v
Crypto.v
Credentials.v
CredentialRequest.v
Loaders.v
TokenLoaders.v
CredentialCache.v
RequestBuilder.v
CredentialFlow.v
EngineReads.v
Client.v
Facade.v
