(* ===== verification/Prelude.v ===== *)
(** * karu: verification development

    karu reads ranges of remote objects.  A program makes a configuration, a
    client and locators, submits batches of ranged reads and takes their
    completions, reads synchronously, or downloads an object to a file; an
    object lives in S3, Google Cloud Storage, Azure, Source, Hugging Face,
    behind any HTTP URL or in a local file.  This library models the C++
    sources under [src/] (the POSIX branches, on a 64-bit machine) as
    executable functions and step relations, and proves what makes them
    correct.  The file names below are those of [src/src/].

    ** The parts, and where they are modelled

    A call enters through the C API ([Client]: [karu.cpp], [client.hpp]) or the
    C++ classes over it ([Facade]: [karu.hpp]); both check their arguments and
    turn errors and exceptions into a status and the thread's message ([Text]:
    [text.hpp], [error.cpp]).

    - What to read.  [Uri] ([uri.cpp]) takes a path to a backend, an object and
      a byte window.  [Config] ([config.cpp], [config_options.hpp]) holds the
      layers of options and freezes them into a snapshot.  [Types] has the data
      the runtime shares ([request.hpp], [transfer.hpp], [batch.hpp], ...).
    - Asking for it.  [Backends] makes the request of each backend with its
      signature ([backends/]: [url], [s3], [s3_signing], [gcs], [azure],
      [source], [http], [hugging_face]); [Crypto] is the digests under it
      ([crypto.cpp]).  [Credentials], [CredentialRequest], [Loaders] and
      [TokenLoaders] find the credentials of a provider in files, commands,
      endpoints and token exchanges ([credentials.cpp], [aws_profile.cpp], the
      four [_credentials.cpp]); [Process] runs a command ([process.cpp]).
      [CredentialCache] reuses, shares and invalidates them
      ([credential_cache.cpp]).  [RequestBuilder] ([request_builder.cpp]) puts
      a request together, and [CredentialFlow] joins scopes, loaders and cache.
    - The batch engine.  [Planner] ([runtime/planner.cpp]) merges reads into
      transfers; [Engine] is what a worker does with one of them and [System]
      the queues, loops, pools and batches around it ([runtime/engine.cpp]);
      [Schedule] interleaves them, and [Progress] measures the work they have
      left.  [Places] follows the bytes of a transfer through its handlers, and
      [Answers] those of the whole engine to the consumer.  [Batch]
      ([runtime/batch.cpp]) is the queue of completions.  A transfer that ends
      is in [closing] of [System]: [start_closing] counts it, and each
      [close_turn] pushes one completion or, after the last, lets go of the
      transfer and the batch, as [finish_transfer] does with the batch's mutex
      free in between; consumers and cancellations come in anywhere.
      [Wakeup] and [Workers] are the protocols that wake sleeping loops and
      workers, [Lifecycle] is the constructor and the destructor.  [Resolver] ([runtime/resolver.cpp]) looks host names up.
    - One transfer over HTTP.  [CurlSetup] sets a handle up, [Transport] is the
      callbacks that place a body's bytes ([runtime/transport.cpp]), [Response]
      judges an attempt ([runtime/http_response.cpp]).
    - Synchronous reads.  [Probe] is the retry loop of a ranged read on the
      calling thread ([transport.cpp]), [ProbeSpec] what it delivers, [Reads]
      the engine's use of it ([engine.cpp]), and [EngineReads] the two put
      together with the real request builder and handle pool.
    - Downloads.  [Files] ([platform.cpp]) reads files and publishes them;
      [Download] ([download.cpp]) keeps chunks in flight and [DownloadSpec] says
      what it leaves on the disk.

    [Prelude] has the strings, integers, records and lemmas they share.

    ** How the code is read

    - Integers are Z; [wrap64] is written where unsigned 64-bit arithmetic may
      wrap, and the ranges of the fields are invariants ([Planner],
      [Transport]).  Strings and bytes are [list ascii] ([str]); a
      [std::expected] is [expected]; an exception is a value ([exn], [raised]).
    - Memory is a function from addresses to bytes.  [store_payload],
      [write_callback], [batch_next] and the reads of a file take it and give
      it back, so that a theorem can say what was not written.
    - A mutable object is passed along as a record; [r <| f := v |>] is a field
      assignment.  Objects shared by threads are cut at their critical sections
      and atomic operations: each is one step of a relation ([step] of
      [Schedule], [honest_step] of [Answers], [poll_step] of [Wakeup], [pool_step] of [Workers],
      [resolver_step], [cache_step], [flow] of [CredentialFlow],
      [process_step] of [Client]), and a theorem about [rtc] of it holds for
      every interleaving.  Memory is sequentially consistent, which is the
      order the atomics of [engine.cpp] ask for.  A wake-up of
      [curl_multi_wakeup] stays until a poll returns; a condition variable may
      lose no notification and wake without cause.
    - What lies outside is a parameter: [Posix] and [PosixLaws] (system calls on
      files), [Platform] and [DigestContext] (OpenSSL, [strftime]), [Outside]
      (network, clock, child processes and dates of the loaders), [Startup]
      (which call fails while an engine is made), [Spawn] and [Turn] (the
      answers a child process gives), [ProbeEnv] (an exchange of
      [curl_easy_perform] for a request, as the calls it makes; [honest_world]
      asks what it does of the exchanges for the requests a run issues), [StartEnv], [DoneEnv],
      [CredentialEnv] and [FileEnv] (what a worker of the engine meets).  Their laws are what
      POSIX, libcurl and OpenSSL document; each class of laws has an instance
      that runs.
    - Components meet at interfaces: [RequestBuilding] and [ProbeRequests] are
      what the engine and the probe ask of the request builder, discharged by
      [RequestBuilder] and [EngineReads]; [RangeReader] is what [Reads] asks of
      the probe, discharged by [EngineReads]; [Downloader] with
      [DownloaderLaws] is what a download asks of the engine; that a chunk the
      engine answered holds its bytes is [single_read_delivers] of [Answers].

    ** Fuel

    Recursion that follows no data has fuel, which never decides a result.
    Scans of a text ([json_string_from], [parse_headers_from], [parse_items],
    [strip_slashes], [append_addresses], [read_stream]) have its length, and
    consume a character in each turn.  [plan_loop] has the number of requests,
    one of which ends in a turn.  [read_loop] and [read_file_loop] have the
    length still wanted, [read_at_loop] and [write_at_loop] that of the data
    plus the number of signals that can still interrupt ([signals]; a write is
    shown to come to an end in [write_at_spec]).  [probe_fuel] is the number of attempts and the
    two corrections plus one, shown to suffice in [probe_always_answers].
    [rounds] of a download is shown to end in [download_ends], [command_loop] by
    [command_loop_ends] once a deadline passes.  [resolve_impl] counts its 16
    levels of nesting down, as the source does.

    ** What the theorems show

    - Batches: nothing is lost, invented or answered twice on any schedule
      ([every_request_is_answered_once]), the workers are through with every
      transfer after finitely many turns ([every_batch_comes_to_its_end]), END
      is said when everything was handed out, though a worker may still be about
      to let go of a transfer ([end_means_everything_delivered]), a cancelled
      batch is left alone ([cancel_is_final]), the limit holds ([concurrency_is_respected]), and
      nobody sleeps beside work ([no_wakeup_is_lost], [no_worker_oversleeps]).
      An engine is made whole or not at all ([engine_comes_up_whole]).
    - Planning: every request is served by one part of one transfer, within the
      limits ([plan_serves_every_request], [plan_respects_limits]).
    - Bytes: on every schedule against honest servers, an answer holds the bytes
      of the object it was asked for ([answers_hold_the_object]).  Under it, a
      body in any chunks ends at its place ([http_body_delivered]), an attempt
      asks for what is missing, however long it waits for its host, and keeps
      only what it can demand again ([attempt_asks_for_the_rest],
      [resume_is_pinned]), a response that must not be used is not
      ([unusable_body_rejected]), retrying ends ([attempts_are_bounded]); files
      likewise ([file_read_delivers]).
    - Synchronous reads and downloads deliver the object or an error, always
      end, and leave no trace when they fail ([probe_delivers_range],
      [probe_always_answers], [engine_reads_both_ends],
      [download_publishes_the_object], [failed_download_leaves_no_trace],
      [download_ends]).
    - Requests: headers and signatures say what is sent
      ([request_headers_are_safe], [s3_signature_covers_request],
      [configured_handle_is_confined]).
    - Credentials: they are those of the object's own scope
      ([requests_use_own_credentials], [credentials_stay_in_scope],
      [scope_key_is_sound]), looked up once at a time and gone when rejected,
      but for the sibling paths of custom credentials ([one_flight_per_key],
      [invalidated_credentials_stay_out]), whole
      ([loaded_keys_are_whole]), and asked for where that is allowed
      ([container_credentials_stay_local], [discovery_is_opt_in],
      [credential_request_is_confined], [command_leaves_nothing_behind]); the
      JSON reader reads what was written ([json_string_reads_objects]).
    - Names: one lookup per host at a time, and nobody waits for ever
      ([one_lookup_per_host], [waiting_transfers_are_answered]).
    - The API: [submitted_reads_reach_the_planner], [engine_serves_its_maker].

    The examples next to them run the definitions, some on inputs where the
    code does something other than it means to.

    ** What is not modelled

    - The Windows branches of [platform.cpp] and [process.cpp], which a POSIX
      build does not compile.
    - libcurl, OpenSSL, [getaddrinfo] and the C library behind the calls the
      sources make, and the file systems under the POSIX calls.
    - The seed of the retry jitter ([retry_generator]): the jitter is any
      function within its bound.  The two lock callbacks of the curl share,
      which pick a mutex by the kind of data.
    - Destructors that only release memory, and the ownership of the move-only
      handles of [karu.hpp], which the compiler checks.
    - Exceptions of the allocator, except in the planner, the C API, the
      download and the engine's constructor.
    - The tests, the benchmarks, the Python bindings and the command line: they
      call the C API. *)

From Stdlib Require Export Ascii Sorted.
From stdpp Require Export base strings gmap numbers tactics option sorting list.
#[export] Set Default Goal Selector "!".
#[global] Open Scope Z_scope.

(** Close a decidable goal by evaluating its decision procedure. *)
Ltac by_decide := apply (bool_decide_unpack _); vm_compute; exact I.

(** ** Machine integers

    [std::uint64_t] values are integers of Z with their range written out; an
    addition or subtraction the source does not guard is wrapped with
    [wrap64].  [std::size_t] has 64 bits on the platforms the code targets. *)

Abbreviation U64_MAX := 18446744073709551615 (only parsing).
Abbreviation SIZE_MAX := 18446744073709551615 (only parsing).
Abbreviation I64_MAX := 9223372036854775807 (only parsing).
Abbreviation INT_MAX := 2147483647 (only parsing).

Definition is_u64 (n : Z) : Prop := 0 <= n <= U64_MAX.
Definition is_i64 (n : Z) : Prop := - I64_MAX - 1 <= n <= I64_MAX.

Definition wrap64 (n : Z) : Z := n mod 18446744073709551616.

Lemma wrap64_small n : is_u64 n -> wrap64 n = n.
Proof. unfold is_u64, wrap64. intros. apply Z.mod_small. lia. Qed.

Lemma wrap64_range n : is_u64 (wrap64 n).
Proof. unfold is_u64, wrap64. pose proof (Z.mod_pos_bound n 18446744073709551616). lia. Qed.

Create HintDb karu.
Create Rewrite HintDb karu.
#[global] Hint Rewrite wrap64_small using (unfold is_u64 in *; lia) : karu.
#[export] Hint Resolve wrap64_range : karu.

(** ** [std::expected]: a value or an error *)

Inductive expected (E A : Type) : Type :=
| Ok (value : A)
| Err (error : E).
Arguments Ok {E A} value.
Arguments Err {E A} error.

#[export] Instance expected_ret {E} : MRet (expected E) := fun A a => Ok a.
#[export] Instance expected_bind {E} : MBind (expected E) := fun A B f m =>
  match m with Ok a => f a | Err e => Err e end.

Definition is_ok {E A} (m : expected E A) : bool :=
  match m with Ok _ => true | Err _ => false end.

Lemma expected_bind_ok {E A B} (m : expected E A) (f : A -> expected E B) b :
  (m ≫= f) = Ok b <-> exists a, m = Ok a /\ f a = Ok b.
Proof. destruct m; cbn; naive_solver. Qed.

(** ** Functional update of one field of a record

    [r <| field := v |>].  A record declares its fields once, as an instance of
    [Eta] that rebuilds it; the setter of a field replaces the field in the
    rebuilt record, so reading any field of an updated record computes whether
    or not the record itself is known. *)

Class Eta (R : Type) := eta : R -> R.
Class Setter {R T : Type} (proj : R -> T) := update : (T -> T) -> R -> R.
Arguments update {R T} proj {_} _ _.

Ltac derive_setter :=
  lazymatch goal with
  | |- @Setter ?R ?T ?proj =>
      unfold Setter;
      let f := fresh "f" in let r := fresh "r" in
      intros f r;
      let rebuild := eval hnf in (_ : Eta R) in
      let c := eval cbv beta in (rebuild r) in
      let c' := eval pattern (proj r) in c in
      lazymatch c' with
      | ?g _ => let t := eval cbv beta in (g (f (proj r))) in exact t
      end
  end.
#[export] Hint Extern 0 (Setter _) => derive_setter : typeclass_instances.

Declare Scope record_scope.
Notation "r <| p := v |>" := (update p (fun _ => v) r)
  (at level 1, p at next level, v at level 200, left associativity,
   format "r  <| p  :=  v |>") : record_scope.
#[global] Open Scope record_scope.

(** ** Byte strings

    [std::string] and [std::string_view] are lists of characters; a position
    is a [nat] and [std::string_view::npos] is [None]. *)

Abbreviation str := (list ascii).
Notation "$ s" := (String.list_ascii_of_string s%string) (at level 1, s at level 0).
#[global] Arguments Ascii.eqb : simpl never.
Definition str_eqb (a b : str) : bool := bool_decide (a = b).

(** *** Exceptions: what a C++ call comes to when it may throw *)

Inductive exn := Bad_alloc | Std_exception (what : str) | Unknown_exception.
Inductive raised (A : Type) := Value (a : A) | Raise (e : exn).
Arguments Value {A} a.
Arguments Raise {A} e.

Fixpoint starts_with (s prefix : str) {struct prefix} : bool :=
  match prefix, s with
  | [], _ => true
  | p :: prefix, c :: s => Ascii.eqb p c && starts_with s prefix
  | _ :: _, [] => false
  end.

Definition ends_with (s suffix : str) : bool := starts_with (rev s) (rev suffix).

(** [find_if]: position of the first character that satisfies the test. *)
Fixpoint find_if (f : ascii -> bool) (s : str) : option nat :=
  match s with
  | [] => None
  | c :: s => if f c then Some O else S <$> find_if f s
  end.

Definition char_in (set : str) (c : ascii) : bool := existsb (Ascii.eqb c) set.
Definition find_char (s : str) (c : ascii) : option nat := find_if (Ascii.eqb c) s.
Definition rfind_char (s : str) (c : ascii) : option nat :=
  (fun i => (length s - 1 - i)%nat) <$> find_char (rev s) c.

(** The overloads that start at a position: [pos > size] finds nothing. *)
Definition find_if_from (f : ascii -> bool) (s : str) (pos : nat) : option nat :=
  (fun i => (pos + i)%nat) <$> find_if f (drop pos s).
Definition find_first_of (s set : str) (pos : nat) : option nat :=
  find_if_from (char_in set) s pos.
Definition find_first_not_of (s set : str) (pos : nat) : option nat :=
  find_if_from (fun c => negb (char_in set c)) s pos.

(** [find] of a nonempty string. *)
Fixpoint find_str (s pat : str) : option nat :=
  if starts_with s pat then Some O
  else match s with
       | [] => None
       | _ :: s => S <$> find_str s pat
       end.
Definition find_str_from (s pat : str) (pos : nat) : option nat :=
  (fun i => (pos + i)%nat) <$> find_str (drop pos s) pat.
Definition contains (s pat : str) : bool := bool_decide (is_Some (find_str s pat)).

(** [substr(pos, count)] with [pos <= size], which every caller guarantees. *)
Definition substr (s : str) (pos count : nat) : str := take count (drop pos s).

(** [substr(0, count)] where the count may be [npos]. *)
Definition take_to (count : option nat) (s : str) : str :=
  match count with Some n => take n s | None => s end.

Definition is_upper (c : ascii) : bool := (65 <=? nat_of_ascii c)%nat && (nat_of_ascii c <=? 90)%nat.
Definition is_lower (c : ascii) : bool := (97 <=? nat_of_ascii c)%nat && (nat_of_ascii c <=? 122)%nat.
Definition is_digit (c : ascii) : bool := (48 <=? nat_of_ascii c)%nat && (nat_of_ascii c <=? 57)%nat.
Definition is_alnum (c : ascii) : bool := is_upper c || is_lower c || is_digit c.
(** [std::isspace] in the "C" locale. *)
Definition is_space (c : ascii) : bool :=
  (nat_of_ascii c =? 32)%nat || ((9 <=? nat_of_ascii c)%nat && (nat_of_ascii c <=? 13)%nat).
(** [std::toupper] and [std::tolower] in the "C" locale. *)
Definition to_upper (c : ascii) : ascii :=
  if is_lower c then ascii_of_nat (nat_of_ascii c - 32) else c.
Definition to_lower (c : ascii) : ascii :=
  if is_upper c then ascii_of_nat (nat_of_ascii c + 32) else c.

(** Lexicographic order of [std::string::compare] on unsigned characters. *)
Fixpoint str_ltb (a b : str) : bool :=
  match a, b with
  | _, [] => false
  | [], _ :: _ => true
  | x :: a, y :: b =>
      (nat_of_ascii x <? nat_of_ascii y)%nat
      || ((nat_of_ascii x =? nat_of_ascii y)%nat && str_ltb a b)
  end.

(** ** Decimal numbers: [std::to_string] and [std::from_chars] *)

Definition digit_char (d : Z) : ascii := ascii_of_nat (48 + Z.to_nat d).
Definition digit_val (c : ascii) : Z := Z.of_nat (nat_of_ascii c) - 48.

Fixpoint digits_fuel (fuel : nat) (n : Z) (acc : str) : str :=
  match fuel with
  | O => acc
  | S fuel =>
      let acc := digit_char (n mod 10) :: acc in
      if n / 10 =? 0 then acc else digits_fuel fuel (n / 10) acc
  end.
Definition decimal (n : Z) : str := digits_fuel (S (Z.to_nat (Z.log2 n))) n [].
Definition to_string (n : Z) : str :=
  if n <? 0 then "-"%char :: decimal (- n) else decimal n.

Fixpoint scan_digits (s : str) (v : Z) : Z * str :=
  match s with
  | c :: s' => if is_digit c then scan_digits s' (v * 10 + digit_val c) else (v, s)
  | [] => (v, [])
  end.

(** [from_chars] into an integer type with range [lo, hi]: the value and the
    unread text, or [None] when [ec] is set.  A sign is read by signed types
    only; no leading space or plus sign is accepted. *)
Definition from_chars (lo hi : Z) (s : str) : option (Z * str) :=
  let '(neg, body) :=
    match s with
    | c :: t => if Ascii.eqb c "-" && (lo <? 0) then (true, t) else (false, s)
    | [] => (false, s)
    end in
  match body with
  | c :: _ =>
      if is_digit c then
        let '(v, rest) := scan_digits body 0 in
        let v := if neg then - v else v in
        if (lo <=? v) && (v <=? hi) then Some (v, rest) else None
      else None
  | [] => None
  end.

(** The usual test of the source: no error and the whole text consumed. *)
Definition from_chars_all (lo hi : Z) (s : str) : option Z :=
  match from_chars lo hi s with
  | Some (v, []) => Some v
  | _ => None
  end.

(** ** Lemmas on lists *)

Lemma Forall2_elem_of_l {A B} (P : A -> B -> Prop) l k x :
  Forall2 P l k -> x ∈ l -> exists y, y ∈ k /\ P x y.
Proof.
  induction 1 as [|a b l k Hab _ IH]; [by intros ?%not_elem_of_nil|].
  intros [->|Hx]%elem_of_cons; [exists b; split; [by left|done]|].
  destruct (IH Hx) as (y & ? & ?). exists y. split; [by right|done].
Qed.

Lemma Forall2_elem_of_r {A B} (P : A -> B -> Prop) l k y :
  Forall2 P l k -> y ∈ k -> exists x, x ∈ l /\ P x y.
Proof. intros H%Forall2_flip Hy. exact (Forall2_elem_of_l _ _ _ _ H Hy). Qed.

(** Pairwise related lists, for a relation without a direction. *)
Lemma StronglySorted_perm {A} (R : A -> A -> Prop) `{!Symmetric R} l k :
  l ≡ₚ k -> StronglySorted R l -> StronglySorted R k.
Proof.
  induction 1 as [|x l k Hp IH|x y l|l1 l2 l3 _ IH1 _ IH2]; intros Hs; [done| | |by apply IH2, IH1].
  - apply StronglySorted_inv in Hs as [Hs Hx]. constructor; [by apply IH|by rewrite <-Hp].
  - apply StronglySorted_inv in Hs as [[Hs Hx]%StronglySorted_inv [Hyx Hy]%Forall_cons_iff].
    constructor; [by constructor|]. constructor; [by symmetry|done].
Qed.

(** ** Lemmas on strings *)

Lemma str_eqb_eq a b : str_eqb a b = true <-> a = b.
Proof. unfold str_eqb. apply bool_decide_eq_true. Qed.

Lemma str_eqb_refl a : str_eqb a a = true.
Proof. by apply str_eqb_eq. Qed.

Lemma starts_with_spec s p : starts_with s p = true <-> exists r, s = p ++ r.
Proof.
  revert s. induction p as [|c p IH]; intros s; cbn.
  - split; [by exists s | by destruct s].
  - destruct s as [|d s]; cbn; [naive_solver|].
    rewrite andb_true_iff, Ascii.eqb_eq, IH. naive_solver.
Qed.

Lemma starts_with_app p r : starts_with (p ++ r) p = true.
Proof. apply starts_with_spec. by exists r. Qed.

Lemma starts_with_drop s p : starts_with s p = true -> s = p ++ drop (length p) s.
Proof. intros [r ->]%starts_with_spec. by rewrite drop_app_length. Qed.

Lemma find_if_Some f s i :
  find_if f s = Some i <->
  exists l c r, s = l ++ c :: r /\ length l = i /\ f c = true
                /\ Forall (fun x => f x = false) l.
Proof.
  revert i. induction s as [|x s IH]; intros i; cbn.
  - split; [done | intros (l & c & r & E & _); by destruct l].
  - destruct (f x) eqn:Hx.
    + split.
      * intros [= <-]. exists [], x, s. by repeat constructor.
      * intros (l & c & r & E & <- & Hc & Hl). destruct l as [|y l]; [done|].
        injection E as -> ->. inversion Hl. congruence.
    + destruct (find_if f s) as [j|] eqn:Hj; cbn.
      * split.
        -- intros [= <-]. destruct (proj1 (IH j) eq_refl) as (l & c & r & -> & <- & Hc & Hl).
           exists (x :: l), c, r. repeat split; [done..|by constructor].
        -- intros (l & c & r & E & <- & Hc & Hl). destruct l as [|y l]; [cbn in E; congruence|].
           injection E as <- ->. f_equal. cbn. f_equal.
           assert (Some j = Some (length l)) as [= ->]; [|done].
           apply IH. exists l, c, r. by inversion Hl.
      * split; [done|]. intros (l & c & r & E & <- & Hc & Hl).
        destruct l as [|y l]; [cbn in E; congruence|]. injection E as <- ->.
        assert (None = Some (length l)) as [=]. apply IH. exists l, c, r. by inversion Hl.
Qed.

Lemma find_if_None f s : find_if f s = None <-> Forall (fun x => f x = false) s.
Proof.
  induction s as [|x s IH]; cbn; [done|]. rewrite Forall_cons_iff.
  destruct (f x); [naive_solver|]. rewrite <-IH. destruct (find_if f s); naive_solver.
Qed.

Lemma find_if_app f l c r :
  Forall (fun x => f x = false) l -> f c = true -> find_if f (l ++ c :: r) = Some (length l).
Proof. intros. apply find_if_Some. by exists l, c, r. Qed.

Lemma find_char_Some s c i :
  find_char s c = Some i <-> exists l r, s = l ++ c :: r /\ length l = i /\ c ∉ l.
Proof.
  unfold find_char. rewrite find_if_Some. split.
  - intros (l & d & r & -> & <- & ->%Ascii.eqb_eq & Hl). exists l, r.
    split_and!; [done..|]. rewrite Forall_forall in Hl.
    intros Hin. specialize (Hl _ Hin). by rewrite Ascii.eqb_refl in Hl.
  - intros (l & r & -> & <- & Hl). exists l, c, r. split_and!; [done..|apply Ascii.eqb_refl|].
    apply Forall_forall. intros x Hx. apply Ascii.eqb_neq. by intros <-.
Qed.

Lemma find_char_None s c : find_char s c = None <-> c ∉ s.
Proof.
  unfold find_char. rewrite find_if_None, Forall_forall. split.
  - intros H Hin. specialize (H _ Hin). by rewrite Ascii.eqb_refl in H.
  - intros H x Hx. apply Ascii.eqb_neq. by intros <-.
Qed.

Lemma find_char_app l c r : c ∉ l -> find_char (l ++ c :: r) c = Some (length l).
Proof. intros. apply find_char_Some. by exists l, r. Qed.

(** What follows a delimiter. *)
Lemma drop_past {A} (l : list A) c r : drop (length l + 1) (l ++ c :: r) = r.
Proof. rewrite <-drop_drop, drop_app_length. cbn [drop]. apply drop_0. Qed.

Lemma elem_of_rev {A} (x : A) l : x ∈ rev l <-> x ∈ l.
Proof. by rewrite !list_elem_of_In, <-in_rev. Qed.

Lemma rfind_char_app l c r : c ∉ r -> rfind_char (l ++ c :: r) c = Some (length l).
Proof.
  intros Hr. unfold rfind_char. rewrite rev_app_distr. cbn [rev]. rewrite <-app_assoc. cbn [app].
  rewrite find_char_app by (intros Hin; by apply Hr, elem_of_rev).
  cbn. rewrite length_app, length_rev. cbn. f_equal. lia.
Qed.

Lemma rfind_char_None s c : rfind_char s c = None <-> c ∉ s.
Proof.
  unfold rfind_char. rewrite fmap_None, find_char_None. split; intros H Hin; by apply H, elem_of_rev.
Qed.

(** ** Decimal round trip *)

Lemma digit_char_val d : 0 <= d < 10 -> digit_val (digit_char d) = d.
Proof.
  intros. unfold digit_val, digit_char.
  rewrite nat_ascii_embedding by lia. lia.
Qed.

Lemma digit_char_is_digit d : 0 <= d < 10 -> is_digit (digit_char d) = true.
Proof.
  intros. unfold is_digit, digit_char.
  rewrite nat_ascii_embedding by lia.
  apply andb_true_iff. split; apply Nat.leb_le; lia.
Qed.

Definition all_digits (s : str) : bool := forallb is_digit s.

Lemma scan_digits_app s r v :
  all_digits s = true -> scan_digits (s ++ r) v = scan_digits r (fst (scan_digits s v)).
Proof.
  revert v. induction s as [|c s IH]; intros v; cbn; [done|].
  intros [Hc Hs]%andb_true_iff. rewrite Hc. by apply IH.
Qed.

Lemma digits_fuel_spec fuel n acc :
  0 <= n -> n < 2 ^ Z.of_nat fuel ->
  exists s, digits_fuel fuel n acc = s ++ acc /\ all_digits s = true /\
            fst (scan_digits s 0) = n /\ (fuel <> O -> s <> []).
Proof.
  revert n acc. induction fuel as [|fuel IH]; intros n acc Hn Hlt; cbn [digits_fuel].
  - exists []. cbn in Hlt. split_and!; [done..|cbn; lia|done].
  - pose proof (Z.mod_pos_bound n 10 ltac:(lia)) as Hm.
    assert (Hd : n = 10 * (n / 10) + n mod 10) by (apply Z.div_mod; lia).
    destruct (Z.eqb_spec (n / 10) 0) as [Hz|Hz].
    + exists [digit_char (n mod 10)]. cbn. rewrite digit_char_is_digit by done. cbn.
      rewrite digit_char_val by done. split_and!; [done..|lia|done].
    + destruct (IH (n / 10) (digit_char (n mod 10) :: acc)) as (s & Hs & Hdig & Hv & Hne).
      { apply Z.div_pos; lia. }
      { rewrite Nat2Z.inj_succ, Z.pow_succ_r in Hlt by lia. lia. }
      exists (s ++ [digit_char (n mod 10)]). split_and!.
      * rewrite Hs. by rewrite <-app_assoc.
      * unfold all_digits in *. rewrite forallb_app, Hdig. cbn. by rewrite digit_char_is_digit.
      * rewrite scan_digits_app by done. rewrite Hv. cbn. rewrite digit_char_is_digit by done.
        rewrite digit_char_val by done. cbn. lia.
      * intros _. by destruct s.
Qed.

Lemma decimal_spec n :
  0 <= n ->
  decimal n <> [] /\ all_digits (decimal n) = true /\ fst (scan_digits (decimal n) 0) = n.
Proof.
  intros Hn. unfold decimal.
  destruct (digits_fuel_spec (S (Z.to_nat (Z.log2 n))) n []) as (s & -> & Hd & Hv & Hne).
  - done.
  - rewrite Nat2Z.inj_succ, Z2Nat.id by apply Z.log2_nonneg.
    destruct (Z.eq_dec n 0) as [->|]; [done|]. apply Z.log2_spec. lia.
  - rewrite app_nil_r. naive_solver.
Qed.

(** Text that does not continue a number. *)
Definition no_digit_next (r : str) : Prop :=
  match r with [] => True | c :: _ => is_digit c = false end.

Lemma scan_digits_stop r v : no_digit_next r -> scan_digits r v = (v, r).
Proof. destruct r as [|c r]; cbn; [done|]. by intros ->. Qed.

Lemma all_digits_not_char s c : all_digits s = true -> is_digit c = false -> c ∉ s.
Proof.
  unfold all_digits. rewrite forallb_forall. intros H Hc Hin%list_elem_of_In.
  specialize (H _ Hin). congruence.
Qed.

Lemma decimal_not_char n c : 0 <= n -> is_digit c = false -> c ∉ decimal n.
Proof. intros Hn. apply all_digits_not_char. by apply decimal_spec. Qed.

(** Reading back what [to_string] prints, whatever follows it. *)
Lemma from_chars_decimal lo hi n r :
  0 <= n -> lo <= n <= hi -> no_digit_next r ->
  from_chars lo hi (decimal n ++ r) = Some (n, r).
Proof.
  intros Hn Hr Hnext. destruct (decimal_spec n Hn) as (Hne & Hd & Hv).
  destruct (decimal n) as [|c s] eqn:E; [done|]. cbn in Hd.
  apply andb_true_iff in Hd as [Hc Hs]. unfold from_chars. cbn [app].
  assert (Ascii.eqb c "-" = false) as ->.
  { apply Ascii.eqb_neq. intros ->. done. }
  cbn [andb]. rewrite Hc. change (c :: s ++ r) with ((c :: s) ++ r).
  rewrite scan_digits_app by (cbn; by rewrite Hc). rewrite Hv, scan_digits_stop by done.
  by rewrite !(proj2 (Z.leb_le _ _)) by lia.
Qed.

Lemma from_chars_all_decimal lo hi n :
  0 <= n -> lo <= n <= hi -> from_chars_all lo hi (decimal n) = Some n.
Proof.
  intros. unfold from_chars_all. rewrite <-(app_nil_r (decimal n)).
  by rewrite from_chars_decimal.
Qed.

Lemma to_string_nonneg n : 0 <= n -> to_string n = decimal n.
Proof. intros. unfold to_string. by rewrite (proj2 (Z.ltb_ge _ _)) by lia. Qed.

Lemma from_chars_range lo hi s v r : from_chars lo hi s = Some (v, r) -> lo <= v <= hi.
Proof.
  unfold from_chars. destruct (match s with [] => _ | _ => _ end) as [neg body].
  destruct body as [|c b]; [done|]. destruct (is_digit c); [|done].
  destruct (scan_digits _ _) as [w rest]. destruct (_ && _) eqn:E; [|done].
  apply andb_true_iff in E as [?%Z.leb_le ?%Z.leb_le]. intros [= <- <-]. lia.
Qed.

Lemma from_chars_all_range lo hi s v : from_chars_all lo hi s = Some v -> lo <= v <= hi.
Proof.
  unfold from_chars_all. destruct (from_chars lo hi s) as [[w [|]]|] eqn:E; try done.
  intros [= <-]. by eapply from_chars_range.
Qed.

(** ** Searching across a character that the pattern does not contain *)

Lemma starts_with_delim l c r pat :
  c ∉ pat -> starts_with (l ++ c :: r) pat = starts_with l pat.
Proof.
  revert l. induction pat as [|p pat IH]; intros l Hc.
  - by destruct l.
  - apply not_elem_of_cons in Hc as [Hne Hc]. destruct l as [|d l]; cbn.
    + apply andb_false_iff. left. apply Ascii.eqb_neq. congruence.
    + by rewrite IH.
Qed.

Lemma find_str_delim l c r pat :
  pat <> [] -> c ∉ pat ->
  find_str (l ++ c :: r) pat =
  match find_str l pat with
  | Some i => Some i
  | None => (fun k => S (length l + k)) <$> find_str r pat
  end.
Proof.
  intros Hne Hc. induction l as [|d l IH].
  - cbn [app]. assert (starts_with [] pat = false) as H0 by by destruct pat.
    cbn [find_str]. rewrite H0. cbn [length Nat.add].
    change (c :: r) with ([] ++ c :: r). rewrite starts_with_delim, H0 by done.
    cbn [app]. by destruct (find_str r pat).
  - cbn [app find_str]. change (d :: l ++ c :: r) with ((d :: l) ++ c :: r).
    rewrite starts_with_delim by done. destruct (starts_with (d :: l) pat); [done|].
    rewrite IH. destruct (find_str l pat); [done|]. by destruct (find_str r pat).
Qed.

Lemma find_str_length s pat i : find_str s pat = Some i -> (i + length pat <= length s)%nat.
Proof.
  revert i. induction s as [|c s IH]; intros i; cbn [find_str].
  - destruct (starts_with [] pat) eqn:E; [|done]. intros [= <-].
    apply starts_with_drop in E. destruct pat; [done|discriminate].
  - destruct (starts_with (c :: s) pat) eqn:E.
    + intros [= <-]. apply starts_with_drop in E. rewrite E, length_app. lia.
    + destruct (find_str s pat) as [j|] eqn:Hj; [|done]. intros [= <-].
      specialize (IH _ eq_refl). cbn. lia.
Qed.

Lemma find_if_delim f l c r :
  f c = true ->
  find_if f (l ++ c :: r) = Some (default (length l) (find_if f l)).
Proof.
  intros Hc. induction l as [|d l IH]; cbn; [by rewrite Hc|].
  destruct (f d); [done|]. rewrite IH. by destruct (find_if f l).
Qed.

Lemma find_if_lt f s i : find_if f s = Some i -> (i < length s)%nat.
Proof.
  intros (l & c & r & -> & <- & _)%find_if_Some. rewrite length_app. cbn. lia.
Qed.

Lemma find_if_app_none f l r :
  find_if f l = None -> find_if f (l ++ r) = (fun i => (length l + i)%nat) <$> find_if f r.
Proof.
  induction l as [|d l IH]; cbn; [by destruct (find_if f r)|].
  destruct (f d); [done|]. destruct (find_if f l); [done|]. intros _. rewrite IH by done.
  by destruct (find_if f r).
Qed.
