(* ===== verification/Uri.v ===== *)
(** * Uri: transport-independent URI parsing

    Models [src/src/uri.hpp] and [src/src/uri.cpp], every function.  A
    [Resolved] names the backend, the object and a byte window of it; nested
    [/vsisubfile/] wrappers and a [#bytes=] fragment only move the window.
    The recursion of [resolve_impl] counts its levels down, which is the
    source's [depth] read from the other end, so it needs no fuel. *)

From S2P Require Import Prelude.

Abbreviation TO_END := U64_MAX (only parsing).

Inductive Backend := File | Http | S3 | Gcs | Azure | HuggingFace | Source.

#[export] Instance Backend_eq_dec : EqDecision Backend.
Proof. solve_decision. Defined.

Record Resolved := mkResolved {
  backend : Backend;
  canonical_uri : str;
  target : str;      (* local path, raw HTTP URL, or HF endpoint path *)
  container : str;   (* S3/GCS bucket, Azure container, or Source account *)
  key : str;         (* exact object key *)
  azure_dfs : bool;
  window_offset : Z;
  window_length : Z;
}.
#[export] Instance Resolved_eta : Eta Resolved := fun r =>
  mkResolved (backend r) (canonical_uri r) (target r) (container r) (key r) (azure_dfs r)
    (window_offset r) (window_length r).

(** The member initializers of [Resolved]. *)
Definition Resolved_default : Resolved :=
  {| backend := File; canonical_uri := []; target := []; container := []; key := [];
     azure_dfs := false; window_offset := 0; window_length := TO_END |}.

Inductive ResolveErrorCode := Malformed | Unsupported.

Record ResolveError := { code : ResolveErrorCode; message : str }.
Definition malformed (text : str) : ResolveError := {| code := Malformed; message := text |}.

Definition VSI_SUBFILE : str := $"/vsisubfile/".
Definition BYTES_FRAGMENT : str := $"#bytes=".

Definition parse_u64 (text : str) : expected ResolveError Z :=
  if str_eqb text [] then Err (malformed $"expected a number")
  else match from_chars_all 0 U64_MAX text with
       | Some value => Ok value
       | None => Err (malformed ($"'" ++ text ++ $"' is not a byte count"))
       end.

Definition split_object (text grammar : str) : expected ResolveError (str * str) :=
  let failed := Err (malformed ($"expected " ++ grammar ++ $" in '" ++ text ++ $"'")) in
  match find_char text "/" with
  | None => failed
  | Some slash =>
      if (slash =? 0)%nat || (length text <=? slash + 1)%nat then failed
      else Ok (take slash text, drop (slash + 1) text)
  end.

(** [take_bytes_fragment]: the URI without its fragment, with the offset and
    length the fragment selects; the two out-parameters start at [(0, TO_END)]
    in the only caller. *)
Definition take_bytes_fragment (uri : str) (offset length_ : Z)
  : expected ResolveError (str * Z * Z) :=
  match rfind_char uri "#" with
  | None => Ok (uri, offset, length_)
  | Some hash =>
      let fragment := drop hash uri in
      if negb (starts_with fragment BYTES_FRAGMENT) then Ok (uri, offset, length_)
      else
        let fragment := drop (length BYTES_FRAGMENT) fragment in
        match find_char fragment "-" with
        | None => Err (malformed $"#bytes= wants FIRST-LAST")
        | Some dash =>
            first ← parse_u64 (take dash fragment);
            let last_text := drop (dash + 1) fragment in
            '(offset, length_) ←
              (if str_eqb last_text [] then Ok (first, TO_END)
               else
                 last ← parse_u64 last_text;
                 if last <? first then Err (malformed $"#bytes= ends before it starts")
                 else
                   let distance := last - first in
                   if distance =? U64_MAX then Err (malformed $"#bytes= range is too large")
                   else Ok (first, distance + 1));
            Ok (take hash uri, offset, length_)
        end
  end.

Definition HEX (d : nat) : ascii := nth d $"0123456789ABCDEF" "0"%char.

(** Characters [encode_path] copies. *)
Definition safe_path_char (c : ascii) : bool :=
  is_lower c || is_upper c || is_digit c || char_in $"-_.~/" c.

Definition encode_char (c : ascii) : str :=
  if safe_path_char c then [c]
  else ["%"%char; HEX (nat_of_ascii c / 16); HEX (nat_of_ascii c mod 16)].

Definition encode_path (path : str) : str := flat_map encode_char path.

Definition apply_window (resolved : Resolved) (offset length_ : Z)
  : expected ResolveError Resolved :=
  if U64_MAX - offset <? window_offset resolved
  then Err (malformed $"window offset overflows")
  else
    composed ←
      (if negb (window_length resolved =? TO_END) then
         if window_length resolved <? offset
         then Err (malformed $"window starts past the end of its parent")
         else Ok (Z.min length_ (window_length resolved - offset))
       else Ok length_);
    Ok (resolved <| window_offset := window_offset resolved + offset |>
                 <| window_length := composed |>).

(** The [finish] closure of [terminal]. *)
Definition finish (fragment_offset fragment_length : Z) (value : Resolved)
  : expected ResolveError Resolved :=
  if negb (fragment_offset =? 0) || negb (fragment_length =? TO_END)
  then apply_window value fragment_offset fragment_length
  else Ok value.

(** The [cloud] closure of [terminal], before [finish]. *)
Definition cloud (b : Backend) (rest grammar vsi : str) (dfs : bool)
  : expected ResolveError Resolved :=
  '(first, second) ← split_object rest grammar;
  Ok (Resolved_default <| backend := b |> <| container := first |> <| key := second |>
        <| azure_dfs := dfs |> <| canonical_uri := vsi ++ first ++ $"/" ++ second |>).

Definition source_object (rest : str) : expected ResolveError Resolved :=
  '(account, path) ← split_object rest $"source://account/product/key";
  _ ← split_object path $"source://account/product/key";
  Ok (Resolved_default <| backend := Source |> <| container := account |> <| key := path |>
        <| canonical_uri := $"/vsisource/" ++ account ++ $"/" ++ path |>).

(** The repository kind of an [hf://] reference and the text after it. *)
Definition hf_kind (rest : str) : str * str :=
  if starts_with rest $"datasets/" then ($"datasets/", drop (length $"datasets/") rest)
  else if starts_with rest $"spaces/" then ($"spaces/", drop (length $"spaces/") rest)
  else ([], rest).

Definition hugging_face_object (input : str) : expected ResolveError Resolved :=
  let '(kind, rest) := hf_kind (drop 5 input) in
  '(owner, tail_) ← split_object rest $"hf://owner/name/path";
  '(name, path) ← split_object tail_ $"hf://owner/name/path";
  '(name, revision) ←
    (match find_char name "@" with
     | Some at_ =>
         let revision := drop (at_ + 1) name in
         let name := take at_ name in
         if str_eqb name [] || str_eqb revision []
         then Err (malformed $"hf:// has an empty repository or revision")
         else Ok (name, revision)
     | None => Ok (name, $"main")
     end);
  Ok (Resolved_default <| backend := HuggingFace |>
        <| canonical_uri := $"/vsihf/" ++ drop 5 input |>
        <| target := $"/" ++ kind ++ owner ++ $"/" ++ name ++ $"/resolve/" ++
                     encode_path revision ++ $"/" ++ encode_path path |>).

Definition http_object (input : str) : expected ResolveError Resolved :=
  let authority := (default O (find_str input $"://") + 3)%nat in
  let end_ := find_first_of input $"/?#" authority in
  if (authority =? length input)%nat || bool_decide (end_ = Some authority)
  then Err (malformed $"HTTP URL has no authority")
  else Ok (Resolved_default <| backend := Http |> <| target := input |>
             <| canonical_uri := input |>).

Definition file_object (path canonical : str) : Resolved :=
  Resolved_default <| backend := File |> <| target := path |> <| canonical_uri := canonical |>.

(** The scheme dispatch of [terminal] on the URI without its fragment; each
    branch of the source hands its result to [finish]. *)
Definition terminal_object (input : str) : expected ResolveError Resolved :=
  if starts_with input $"http://" || starts_with input $"https://" then http_object input
  else if starts_with input $"s3://"
  then cloud S3 (drop 5 input) $"s3://bucket/key" $"/vsis3/" false
  else if starts_with input $"gs://"
  then cloud Gcs (drop 5 input) $"gs://bucket/key" $"/vsigs/" false
  else if starts_with input $"az://"
  then cloud Azure (drop 5 input) $"az://container/blob" $"/vsiaz/" false
  else if starts_with input $"abfs://"
  then cloud Azure (drop 7 input) $"abfs://container/blob" $"/vsiadls/" true
  else if starts_with input $"source://" then source_object (drop 9 input)
  else if starts_with input $"hf://" then hugging_face_object input
  else if starts_with input $"file://" then
    let path := drop 7 input in
    if str_eqb path [] then Err (malformed $"file:// has no path")
    else Ok (file_object path ($"file://" ++ path))
  else if contains input $"://" then Err (malformed ($"unknown scheme in '" ++ input ++ $"'"))
  else if str_eqb input [] then Err (malformed $"empty path")
  else Ok (file_object input input).

Definition terminal (uri : str) : expected ResolveError Resolved :=
  '(uri, fragment_offset, fragment_length) ← take_bytes_fragment uri 0 TO_END;
  value ← terminal_object uri;
  finish fragment_offset fragment_length value.

Definition MAX_SUBFILE_DEPTH : nat := 16.

Definition ALIASES : list (str * str) :=
  [ ($"/vsicurl/", []); ($"/vsis3/", $"s3://"); ($"/vsigs/", $"gs://"); ($"/vsiaz/", $"az://");
    ($"/vsiadls/", $"abfs://"); ($"/vsihf/", $"hf://"); ($"/vsisource/", $"source://") ].

(** The loop over the aliases and what follows it in [resolve_impl]. *)
Fixpoint resolve_alias (aliases : list (str * str)) (uri : str) : expected ResolveError Resolved :=
  match aliases with
  | (prefix, scheme) :: aliases =>
      if negb (starts_with uri prefix) then resolve_alias aliases uri
      else
        let rest := drop (length prefix) uri in
        if str_eqb rest [] then Err (malformed (prefix ++ $" has no target"))
        else if str_eqb prefix $"/vsicurl/" && negb (starts_with rest $"http://")
                && negb (starts_with rest $"https://")
        then Err (malformed $"/vsicurl/ target must be an HTTP URL")
        else terminal (scheme ++ rest)
  | [] =>
      if starts_with uri $"/vsi" then
        let end_ := find_if_from (Ascii.eqb "/") uri 4 in
        let handler := take (match end_ with None => length uri | Some e => e + 1 end)%nat uri in
        Err {| code := Unsupported;
               message := $"unsupported virtual filesystem '" ++ handler ++
                 $"'; Karu supports /vsisubfile/, /vsicurl/, /vsis3/, /vsigs/, /vsiaz/, /vsiadls/, /vsihf/ and /vsisource/ (no *_streaming aliases)" |}
      else terminal uri
  end.

(** The [OFFSET[_LENGTH]] specification of a subfile. *)
Definition subfile_spec (spec : str) : expected ResolveError (Z * Z) :=
  let underscore := find_char spec "_" in
  offset ← parse_u64 (take_to underscore spec);
  match underscore with
  | None => Ok (offset, TO_END)
  | Some u =>
      let length_text := drop (u + 1) spec in
      if starts_with length_text $"-" then
        (if is_ok (parse_u64 (drop 1 length_text)) then Ok (offset, TO_END)
         else Err (malformed $"negative subfile length is malformed"))
      else
        parsed ← parse_u64 length_text;
        Ok (offset, parsed)
  end.

(** [resolve_impl(uri, depth)] with [levels = MAX_SUBFILE_DEPTH - depth]. *)
Fixpoint resolve_impl (levels : nat) (uri : str) : expected ResolveError Resolved :=
  if str_eqb uri [] then Err (malformed $"empty URI")
  else if starts_with uri VSI_SUBFILE then
    match levels with
    | O => Err (malformed $"/vsisubfile/ nesting exceeds 16 levels")
    | S levels =>
        let rest := drop (length VSI_SUBFILE) uri in
        match find_char rest "," with
        | None => Err (malformed $"/vsisubfile/ wants OFFSET[_LENGTH],<uri>")
        | Some comma =>
            let spec := take comma rest in
            let inner := drop (comma + 1) rest in
            if str_eqb inner [] then Err (malformed $"/vsisubfile/ has no inner URI")
            else
              '(offset, length_) ← subfile_spec spec;
              child ← resolve_impl levels inner;
              apply_window child offset length_
        end
    end
  else resolve_alias ALIASES uri.

Definition resolve (uri : str) : expected ResolveError Resolved :=
  resolve_impl MAX_SUBFILE_DEPTH uri.

Example resolve_s3 :
  resolve $"/vsisubfile/10_20,s3://bucket/a/b#bytes=5-100" =
  Ok {| backend := S3; canonical_uri := $"/vsis3/bucket/a/b"; target := [];
        container := $"bucket"; key := $"a/b"; azure_dfs := false;
        window_offset := 15; window_length := 20 |}.
Proof. reflexivity. Qed.

Example resolve_hf :
  target <$> (match resolve $"hf://datasets/o/n@r v/p q" with Ok r => Some r | _ => None end)
  = Some $"/datasets/o/n/resolve/r%20v/p%20q".
Proof. reflexivity. Qed.

(** ** Percent encoding *)

Definition hex_value (c : ascii) : nat :=
  if is_digit c then nat_of_ascii c - 48 else nat_of_ascii c - 55.

(** The reader of percent-encoded text, as RFC 3986 describes it; it is the
    specification [encode_path] is checked against. *)
Fixpoint percent_decode (s : str) : str :=
  match s with
  | [] => []
  | c :: s1 =>
      match s1 with
      | h :: l :: s2 =>
          if Ascii.eqb c "%" then
            ascii_of_nat (16 * hex_value h + hex_value l) :: percent_decode s2
          else c :: percent_decode s1
      | _ => c :: percent_decode s1
      end
  end.

Definition url_path_char (c : ascii) : bool := safe_path_char c || Ascii.eqb c "%".

(** A statement about every character is checked on the 256 of them. *)
Lemma forall_ascii (P : ascii -> bool) :
  forallb P (map ascii_of_nat (List.seq 0 256)) = true -> forall c, P c = true.
Proof.
  rewrite forallb_forall. intros H c. apply H, in_map_iff.
  exists (nat_of_ascii c). split; [apply ascii_nat_embedding|].
  apply in_seq. pose proof (nat_ascii_bounded c). lia.
Qed.

Lemma percent_decode_cons c s :
  Ascii.eqb c "%" = false -> percent_decode (c :: s) = c :: percent_decode s.
Proof. intros H. cbn. destruct s as [|h [|l s2]]; [done..|]. by rewrite H. Qed.

Lemma hex_pair c :
  ascii_of_nat (16 * hex_value (HEX (nat_of_ascii c / 16))
                + hex_value (HEX (nat_of_ascii c mod 16))) = c.
Proof. apply Ascii.eqb_eq. revert c. apply forall_ascii. vm_compute. reflexivity. Qed.

Lemma encode_char_chars c : forallb url_path_char (encode_char c) = true.
Proof. revert c. apply forall_ascii. vm_compute. reflexivity. Qed.

Lemma percent_not_safe c : safe_path_char c = true -> Ascii.eqb c "%" = false.
Proof.
  assert (implb (safe_path_char c) (negb (Ascii.eqb c "%")) = true) as H.
  { revert c. apply forall_ascii. vm_compute. reflexivity. }
  intros Hs. rewrite Hs in H. by destruct (Ascii.eqb c "%").
Qed.

Lemma percent_decode_encode_char c s :
  percent_decode (encode_char c ++ s) = c :: percent_decode s.
Proof.
  unfold encode_char. destruct (safe_path_char c) eqn:Hs.
  - apply percent_decode_cons. by apply percent_not_safe.
  - cbn [app percent_decode]. rewrite Ascii.eqb_refl. f_equal. apply hex_pair.
Qed.

(** ** [split_object] *)

Lemma split_object_app a b g :
  a <> [] -> b <> [] -> "/"%char ∉ a -> split_object (a ++ "/"%char :: b) g = Ok (a, b).
Proof.
  intros Ha Hb Hs. unfold split_object. rewrite find_char_app by done.
  rewrite (proj2 (Nat.eqb_neq _ _)) by (by destruct a).
  rewrite (proj2 (Nat.leb_gt _ _)).
  2:{ rewrite length_app. destruct b; [done|cbn; lia]. }
  cbn [orb]. rewrite take_app_length. f_equal. f_equal.
  rewrite <-drop_drop, drop_app_length. done.
Qed.

Lemma split_object_inv t g a b :
  split_object t g = Ok (a, b) ->
  t = a ++ "/"%char :: b /\ a <> [] /\ b <> [] /\ "/"%char ∉ a.
Proof.
  unfold split_object. destruct (find_char t "/") as [i|] eqn:E; [|done].
  apply find_char_Some in E as (l & r & -> & <- & Hl).
  destruct (_ || _) eqn:Hc; [done|]. apply orb_false_iff in Hc as [H0 H1].
  apply Nat.eqb_neq in H0. apply Nat.leb_gt in H1.
  rewrite take_app_length, <-drop_drop, drop_app_length. cbn. rewrite drop_0.
  intros [= <- <-]. rewrite length_app in H1. cbn in H1.
  split_and!; [done|by destruct l|intros ->; cbn in *; lia|done].
Qed.

(** ** Windows *)

(** The offsets, relative to the window, of the bytes a locator shows. *)
Definition visible (r : Resolved) (i : Z) : Prop :=
  0 <= i /\ (window_length r = TO_END \/ i < window_length r).
Definition absolute (r : Resolved) (i : Z) : Z := window_offset r + i.

Definition same_object (r r' : Resolved) : Prop :=
  backend r' = backend r /\ canonical_uri r' = canonical_uri r /\ target r' = target r /\
  container r' = container r /\ key r' = key r /\ azure_dfs r' = azure_dfs r.

Definition window_ok (r : Resolved) : Prop := is_u64 (window_offset r) /\ is_u64 (window_length r).

Lemma apply_window_ok r o l r' :
  apply_window r o l = Ok r' ->
  window_offset r + o <= U64_MAX /\
  (window_length r <> TO_END -> o <= window_length r) /\
  r' = r <| window_offset := window_offset r + o |>
         <| window_length := if window_length r =? TO_END then l
                             else Z.min l (window_length r - o) |>.
Proof.
  unfold apply_window. destruct (Z.ltb_spec (U64_MAX - o) (window_offset r)); [done|].
  destruct (Z.eqb_spec (window_length r) TO_END) as [He|He]; cbn.
  - intros [= <-]. split_and!; [lia|done|done].
  - destruct (Z.ltb_spec (window_length r) o); cbn; [done|].
    intros [= <-]. split_and!; [lia|lia|done].
Qed.

Lemma apply_window_wf r o l r' :
  is_u64 o -> is_u64 l -> window_ok r -> apply_window r o l = Ok r' -> window_ok r'.
Proof.
  intros Ho Hl [H1 H2] (Hov & Hpar & ->)%apply_window_ok.
  unfold window_ok, is_u64 in *. destruct r; cbn in *.
  destruct (Z.eqb_spec window_length0 TO_END); lia.
Qed.

(** ** Numbers and fragments *)

Lemma parse_u64_range text v : parse_u64 text = Ok v -> is_u64 v.
Proof.
  unfold parse_u64. destruct (str_eqb text []); [done|].
  destruct (from_chars_all _ _ _) eqn:E; [|done]. intros [= <-].
  by apply from_chars_all_range in E.
Qed.

Lemma parse_u64_decimal n : is_u64 n -> parse_u64 (decimal n) = Ok n.
Proof.
  intros Hn. unfold parse_u64, is_u64 in *.
  destruct (str_eqb (decimal n) []) eqn:E.
  - apply str_eqb_eq in E. by destruct (proj1 (decimal_spec n ltac:(lia))).
  - by rewrite from_chars_all_decimal by lia.
Qed.

Lemma take_bytes_fragment_none uri o l :
  "#"%char ∉ uri -> take_bytes_fragment uri o l = Ok (uri, o, l).
Proof. intros H. unfold take_bytes_fragment. by rewrite (proj2 (rfind_char_None uri "#")). Qed.

Lemma take_bytes_fragment_wf uri o l uri' o' l' :
  is_u64 o -> is_u64 l ->
  take_bytes_fragment uri o l = Ok (uri', o', l') -> is_u64 o' /\ is_u64 l'.
Proof.
  intros Ho Hl. unfold take_bytes_fragment.
  destruct (rfind_char uri "#"); [|by intros [= <- <- <-]].
  destruct (negb _); [by intros [= <- <- <-]|].
  destruct (find_char _ "-"); [|done].
  rewrite expected_bind_ok. intros (first & Hf%parse_u64_range & H).
  apply expected_bind_ok in H as ([? ?] & Hr & [= <- <- <-]).
  destruct (str_eqb _ []).
  - injection Hr as <- <-. unfold is_u64 in *. lia.
  - apply expected_bind_ok in Hr as (last & Hlast%parse_u64_range & Hr).
    destruct (Z.ltb_spec last first); [done|].
    destruct (Z.eqb_spec (last - first) U64_MAX); [done|].
    injection Hr as <- <-. unfold is_u64 in *. lia.
Qed.

(** The text of a [#bytes=FIRST-LAST] fragment. *)
Definition bytes_fragment (first last : Z) : str :=
  BYTES_FRAGMENT ++ to_string first ++ "-"%char :: to_string last.

Lemma take_bytes_fragment_print uri first last o l :
  is_u64 first -> is_u64 last -> first <= last -> last - first < U64_MAX ->
  take_bytes_fragment (uri ++ bytes_fragment first last) o l = Ok (uri, first, last - first + 1).
Proof.
  intros Hf Hl Hle Hd. unfold take_bytes_fragment, bytes_fragment, is_u64 in *.
  rewrite !to_string_nonneg by lia.
  assert (H1 : rfind_char (uri ++ BYTES_FRAGMENT ++ decimal first ++ "-"%char :: decimal last) "#"
               = Some (length uri)).
  { apply (rfind_char_app uri "#" ($"bytes=" ++ decimal first ++ "-"%char :: decimal last)).
    rewrite not_elem_of_app, not_elem_of_app, not_elem_of_cons.
    split_and!; [by_decide|by apply decimal_not_char; [lia|]|done|by apply decimal_not_char; [lia|]]. }
  rewrite H1, drop_app_length. unfold BYTES_FRAGMENT at 1. rewrite starts_with_app. cbn [negb].
  rewrite drop_app_length.
  rewrite find_char_app by (apply decimal_not_char; [lia|done]).
  rewrite !take_app_length, parse_u64_decimal by done. cbn [mbind expected_bind].
  rewrite <-drop_drop, drop_app_length. cbn [drop]. rewrite drop_0.
  destruct (str_eqb (decimal last) []) eqn:E.
  { apply str_eqb_eq in E. by destruct (proj1 (decimal_spec last ltac:(lia))). }
  rewrite parse_u64_decimal by done. cbn [mbind expected_bind].
  rewrite (proj2 (Z.ltb_ge _ _)), (proj2 (Z.eqb_neq _ _)) by lia.
  done.
Qed.

Lemma subfile_spec_wf spec o l : subfile_spec spec = Ok (o, l) -> is_u64 o /\ is_u64 l.
Proof.
  unfold subfile_spec. rewrite expected_bind_ok. intros (offset & Ho%parse_u64_range & H).
  destruct (find_char spec "_"); [|injection H as <- <-; unfold is_u64 in *; lia].
  destruct (starts_with _ _).
  - destruct (is_ok _); [|done]. injection H as <- <-. unfold is_u64 in *. lia.
  - apply expected_bind_ok in H as (v & Hv%parse_u64_range & [= <- <-]). done.
Qed.

(** The text of a subfile specification. *)
Definition subfile_text (offset length_ : Z) : str :=
  to_string offset ++ "_"%char :: to_string length_.

Lemma subfile_spec_print o l : is_u64 o -> is_u64 l -> subfile_spec (subfile_text o l) = Ok (o, l).
Proof.
  intros Ho Hl. unfold subfile_spec, subfile_text, is_u64 in *. rewrite !to_string_nonneg by lia.
  rewrite find_char_app by (apply decimal_not_char; [lia|done]). cbn [take_to].
  rewrite take_app_length, parse_u64_decimal by done. cbn [mbind expected_bind].
  rewrite <-drop_drop, drop_app_length. cbn [drop]. rewrite drop_0.
  destruct (starts_with (decimal l) $"-") eqn:E.
  - apply starts_with_drop in E. exfalso. apply (decimal_not_char l "-"); [lia|done|].
    rewrite E. apply list_elem_of_here.
  - by rewrite parse_u64_decimal.
Qed.

(** ** What the scheme dispatch produces *)

Definition full_window (r : Resolved) : Resolved :=
  r <| window_offset := 0 |> <| window_length := TO_END |>.

Lemma terminal_plain u r :
  "#"%char ∉ u -> terminal_object u = Ok r -> terminal u = Ok r.
Proof.
  intros Hu Hr. unfold terminal. rewrite take_bytes_fragment_none by done.
  cbn [mbind expected_bind]. by rewrite Hr.
Qed.

Lemma cloud_inv b rest g vsi dfs r :
  cloud b rest g vsi dfs = Ok r ->
  exists c k, rest = c ++ "/"%char :: k /\ c <> [] /\ k <> [] /\ "/"%char ∉ c /\
    r = Resolved_default <| backend := b |> <| container := c |> <| key := k |>
          <| azure_dfs := dfs |> <| canonical_uri := vsi ++ rest |>.
Proof.
  unfold cloud. rewrite expected_bind_ok. intros ([c k] & Hs & [= <-]).
  apply split_object_inv in Hs as (-> & Hc & Hk & Hn). by exists c, k.
Qed.

Lemma source_object_inv rest r :
  source_object rest = Ok r ->
  rest <> [] /\ window_offset r = 0 /\ window_length r = TO_END /\
  canonical_uri r = $"/vsisource/" ++ rest.
Proof.
  unfold source_object. rewrite expected_bind_ok. intros ([a p] & Hs & H).
  apply expected_bind_ok in H as ([a' p'] & _ & [= <-]).
  apply split_object_inv in Hs as (-> & Ha & Hp & _).
  split_and!; [by destruct a|done..].
Qed.

Lemma hugging_face_object_inv input r :
  hugging_face_object input = Ok r ->
  drop 5 input <> [] /\ window_offset r = 0 /\ window_length r = TO_END /\
  canonical_uri r = $"/vsihf/" ++ drop 5 input.
Proof.
  unfold hugging_face_object. destruct (hf_kind _) as [kind rest] eqn:Hk.
  rewrite expected_bind_ok. intros ([owner tl] & Hs & H).
  apply expected_bind_ok in H as ([name path] & _ & H).
  apply expected_bind_ok in H as ([name' rev'] & _ & [= <-]).
  split_and!; [|done..]. intros Hd. rewrite Hd in Hk. cbn in Hk. injection Hk as <- <-. done.
Qed.

(** Reading the canonical text of an object gives the object again. *)
Definition reads_back (r : Resolved) : Prop :=
  window_offset r = 0 /\ window_length r = TO_END /\
  forall levels, resolve_impl levels (canonical_uri r) = Ok r.

Lemma resolve_impl_alias levels u :
  u <> [] -> starts_with u VSI_SUBFILE = false -> resolve_impl levels u = resolve_alias ALIASES u.
Proof.
  intros Hne Hs. destruct levels; cbn [resolve_impl]; rewrite Hs;
    destruct (str_eqb u []) eqn:E; try done; by apply str_eqb_eq in E.
Qed.

Lemma starts_with_shorter u p q :
  starts_with u (p ++ q) = true -> starts_with u p = true.
Proof.
  intros [r ->]%starts_with_spec. apply starts_with_spec. exists (q ++ r). by rewrite app_assoc.
Qed.

(** Text outside the [/vsi] namespace goes to [terminal] at every level. *)
Lemma resolve_impl_plain levels u :
  u <> [] -> starts_with u $"/vsi" = false -> resolve_impl levels u = terminal u.
Proof.
  intros Hne Hv.
  assert (forall p, starts_with p $"/vsi" = true -> starts_with u p = false) as H.
  { intros p Hp%starts_with_drop. destruct (starts_with u p) eqn:E; [|done].
    rewrite Hp in E. by rewrite (starts_with_shorter _ _ _ E) in Hv. }
  rewrite resolve_impl_alias; [|done|by apply H].
  cbn [resolve_alias ALIASES]. by rewrite !H by reflexivity.
Qed.

(** A cloud alias goes to [terminal] on the scheme it stands for. *)
Lemma resolve_impl_vsi levels rest :
  rest <> [] ->
  resolve_impl levels ($"/vsis3/" ++ rest) = terminal ($"s3://" ++ rest) /\
  resolve_impl levels ($"/vsigs/" ++ rest) = terminal ($"gs://" ++ rest) /\
  resolve_impl levels ($"/vsiaz/" ++ rest) = terminal ($"az://" ++ rest) /\
  resolve_impl levels ($"/vsiadls/" ++ rest) = terminal ($"abfs://" ++ rest) /\
  resolve_impl levels ($"/vsihf/" ++ rest) = terminal ($"hf://" ++ rest) /\
  resolve_impl levels ($"/vsisource/" ++ rest) = terminal ($"source://" ++ rest).
Proof. destruct rest as [|c rest]; [done|]. intros _. split_and!; by destruct levels. Qed.

Lemma reads_back_intro r u :
  window_offset r = 0 -> window_length r = TO_END -> "#"%char ∉ u ->
  terminal_object u = Ok r -> (forall levels, resolve_impl levels (canonical_uri r) = terminal u) ->
  reads_back r.
Proof.
  intros Ho Hl Hu Hr Hc. split_and!; [done..|].
  intros levels. rewrite Hc. by apply terminal_plain.
Qed.

Lemma cloud_reads_back b rest g vsi dfs scheme r :
  cloud b rest g vsi dfs = Ok r -> "#"%char ∉ rest -> "#"%char ∉ scheme ->
  (forall x, cloud b x g vsi dfs = terminal_object (scheme ++ x)) ->
  (forall x levels, x <> [] -> resolve_impl levels (vsi ++ x) = terminal (scheme ++ x)) ->
  reads_back r.
Proof.
  intros Hr Hh Hs Hobj Hres. pose proof Hr as (c & k & -> & Hc & _ & _ & ->)%cloud_inv.
  eapply (reads_back_intro _ (scheme ++ c ++ "/"%char :: k)); [done..| | |].
  - rewrite not_elem_of_app. done.
  - by rewrite <-Hobj.
  - intros levels. apply Hres. by destruct c.
Qed.

Lemma elem_of_drop_not (c : ascii) n (s : str) : c ∉ s -> c ∉ drop n s.
Proof. intros H Hin. apply H. rewrite <-(take_drop n s). apply elem_of_app. by right. Qed.

(** Every object of the dispatch reads back. *)
Lemma terminal_object_reads_back u r :
  terminal_object u = Ok r -> "#"%char ∉ u -> starts_with u $"/vsi" = false -> reads_back r.
Proof.
  intros Hr Hu Hv. pose proof Hr as Hr0.
  assert (Hd : forall n, "#"%char ∉ drop n u) by (intros; by apply elem_of_drop_not).
  unfold terminal_object in Hr.
  destruct (_ || _) eqn:Ehttp in Hr.
  { unfold http_object in Hr. destruct (_ || _) in Hr; [done|]. injection Hr as <-.
    apply (reads_back_intro _ u); try done. intros levels. cbn.
    apply resolve_impl_plain; [by intros ->|done]. }
  clear Ehttp.
  assert (Hcloud : forall b n g vsi dfs scheme,
    cloud b (drop n u) g vsi dfs = Ok r -> "#"%char ∉ scheme ->
    (forall x, cloud b x g vsi dfs = terminal_object (scheme ++ x)) ->
    (forall x levels, x <> [] -> resolve_impl levels (vsi ++ x) = terminal (scheme ++ x)) ->
    reads_back r).
  { intros. eapply cloud_reads_back; eauto. }
  destruct (starts_with u $"s3://").
  { apply (Hcloud _ _ _ _ _ $"s3://" Hr); [by_decide|reflexivity|intros; by apply resolve_impl_vsi]. }
  destruct (starts_with u $"gs://").
  { apply (Hcloud _ _ _ _ _ $"gs://" Hr); [by_decide|reflexivity|intros; by apply resolve_impl_vsi]. }
  destruct (starts_with u $"az://").
  { apply (Hcloud _ _ _ _ _ $"az://" Hr); [by_decide|reflexivity|intros; by apply resolve_impl_vsi]. }
  destruct (starts_with u $"abfs://").
  { apply (Hcloud _ _ _ _ _ $"abfs://" Hr); [by_decide|reflexivity|intros; by apply resolve_impl_vsi]. }
  clear Hcloud.
  destruct (starts_with u $"source://") eqn:Esrc.
  { apply starts_with_drop in Esrc. apply source_object_inv in Hr as (Hne & Ho & Hl & Hc).
    apply (reads_back_intro _ u); try done. intros levels. rewrite Hc.
    rewrite Esrc at 2. by apply resolve_impl_vsi. }
  destruct (starts_with u $"hf://") eqn:Ehf.
  { apply starts_with_drop in Ehf. apply hugging_face_object_inv in Hr as (Hne & Ho & Hl & Hc).
    apply (reads_back_intro _ u); try done. intros levels. rewrite Hc.
    rewrite Ehf at 2. by apply resolve_impl_vsi. }
  destruct (starts_with u $"file://") eqn:Efile.
  { apply starts_with_drop in Efile. destruct (str_eqb (drop 7 u) []); [done|].
    injection Hr as <-. apply (reads_back_intro _ u); try done. intros levels.
    cbn [canonical_uri file_object]. change (canonical_uri _) with ($"file://" ++ drop 7 u).
    change (drop 7 u) with (drop (length $"file://") u). rewrite <-Efile.
    apply resolve_impl_plain; [by intros ->|done]. }
  destruct (contains u $"://"); [done|].
  destruct (str_eqb u []) eqn:Eu; [done|]. injection Hr as <-.
  apply (reads_back_intro _ u); try done. intros levels.
  apply resolve_impl_plain; [by intros ->|done].
Qed.

Lemma terminal_reads_back u r :
  terminal u = Ok r -> "#"%char ∉ u -> starts_with u $"/vsi" = false -> reads_back r.
Proof.
  unfold terminal. intros Hr Hu Hv. rewrite take_bytes_fragment_none in Hr by done.
  cbn [mbind expected_bind] in Hr. apply expected_bind_ok in Hr as (v & Hv' & Hf).
  cbn in Hf. injection Hf as <-. by eapply terminal_object_reads_back.
Qed.

(** What an alias must satisfy for its target to read back: its scheme keeps
    the text outside the [/vsi] namespace, and only [/vsicurl/] has none. *)
Definition alias_ok (a : str * str) : Prop :=
  "#"%char ∉ a.2 /\
  ((a.2 = [] /\ a.1 = $"/vsicurl/") \/ forall x, starts_with (a.2 ++ x) $"/vsi" = false).

Lemma ALIASES_ok : Forall alias_ok ALIASES.
Proof.
  repeat (apply Forall_cons_iff; split); [split; [by_decide|]..|by constructor];
    first [by left | right; reflexivity].
Qed.

Lemma http_not_vsi x : starts_with x $"http" = true -> starts_with x $"/vsi" = false.
Proof. intros H%starts_with_drop. by rewrite H. Qed.

Lemma resolve_alias_reads_back aliases u r :
  Forall alias_ok aliases -> resolve_alias aliases u = Ok r -> "#"%char ∉ u -> reads_back r.
Proof.
  intros Ha Hr Hu. induction Ha as [|[p sch] aliases [Hh Hs] Ha IH]; cbn [resolve_alias] in Hr.
  - destruct (starts_with u $"/vsi") eqn:E; [done|]. by eapply terminal_reads_back.
  - destruct (starts_with u p); cbn [negb] in Hr; [|by apply IH].
    destruct (str_eqb _ []); [done|]. destruct (_ && _) eqn:Hcurl; [done|].
    eapply terminal_reads_back; [exact Hr| |].
    + rewrite not_elem_of_app. split; [done|by apply elem_of_drop_not].
    + cbn [fst snd] in *. destruct Hs as [[-> ->]|Hs]; [|apply Hs].
      rewrite str_eqb_refl in Hcurl. cbn [andb app] in *. apply http_not_vsi.
      apply andb_false_iff in Hcurl as [H|H%negb_false_iff].
      * apply negb_false_iff in H. by eapply (starts_with_shorter _ $"http" $"://").
      * by eapply (starts_with_shorter _ $"http" $"s://").
Qed.

Lemma resolve_impl_reads_back levels u r :
  resolve_impl levels u = Ok r -> "#"%char ∉ u -> reads_back (full_window r).
Proof.
  revert u r. induction levels as [|levels IH]; intros u r; cbn [resolve_impl];
    (destruct (str_eqb u []); [done|]); destruct (starts_with u VSI_SUBFILE).
  - done.
  - intros Hr Hu. pose proof (resolve_alias_reads_back _ _ _ ALIASES_ok Hr Hu) as H.
    destruct H as (Ho & Hl & H). destruct r; cbn in *; subst. by repeat split.
  - destruct (find_char _ ",") as [comma|]; [|done].
    destruct (str_eqb _ []); [done|].
    rewrite expected_bind_ok. intros ([o l] & _ & H) Hu.
    apply expected_bind_ok in H as (child & Hc & (_ & _ & ->)%apply_window_ok).
    apply IH in Hc; [by destruct child|]. by do 2 apply elem_of_drop_not.
  - intros Hr Hu. pose proof (resolve_alias_reads_back _ _ _ ALIASES_ok Hr Hu) as H.
    destruct H as (Ho & Hl & H). destruct r; cbn in *; subst. by repeat split.
Qed.

(** ** Properties of every resolved locator *)

(** What the objects have and a window does not change, every locator has. *)
Lemma resolve_impl_keeps (P : Resolved -> Prop) :
  (forall u r, terminal_object u = Ok r -> P r) ->
  (forall r o l r', is_u64 o -> is_u64 l -> P r -> apply_window r o l = Ok r' -> P r') ->
  forall levels u r, resolve_impl levels u = Ok r -> P r.
Proof.
  intros Hobject Hwindow.
  assert (Hterminal : forall u r, terminal u = Ok r -> P r).
  { intros u r. unfold terminal. rewrite expected_bind_ok. intros ([[u' o] l] & Hf & H).
    apply take_bytes_fragment_wf in Hf as [Ho Hl]; [|unfold is_u64; lia..].
    apply expected_bind_ok in H as (v & Hv%Hobject & H).
    unfold finish in H. destruct (_ || _); [exact (Hwindow v _ _ r Ho Hl Hv H)|by injection H as <-]. }
  assert (Halias : forall aliases u r, resolve_alias aliases u = Ok r -> P r).
  { induction aliases as [|[p sch] aliases IH]; intros u r; cbn [resolve_alias].
    - destruct (starts_with u _); [done|]. apply Hterminal.
    - destruct (negb _); [apply IH|]. destruct (str_eqb _ _); [done|].
      destruct (_ && _); [done|]. apply Hterminal. }
  induction levels as [|levels IH]; intros u r; cbn [resolve_impl];
    (destruct (str_eqb u []); [done|]); destruct (starts_with u VSI_SUBFILE); eauto; [done|].
  destruct (find_char _ ",") as [comma|]; [|done]. destruct (str_eqb _ []); [done|].
  rewrite expected_bind_ok. intros ([o l] & [Ho Hl]%subfile_spec_wf & H).
  apply expected_bind_ok in H as (child & Hc & H). eauto.
Qed.

(** The path of an object of a cloud provider starts with [/vsi]. *)
Lemma resolved_cloud_path levels u r : resolve_impl levels u = Ok r ->
  backend r ∈ [S3; Gcs; Azure; Source] -> starts_with (canonical_uri r) $"/vsi" = true.
Proof.
  revert levels u r. refine (resolve_impl_keeps _ _ _).
  - intros u r. unfold terminal_object.
    destruct (_ || _).
    { unfold http_object. destruct (_ || _); [done|]. intros [= <-] Hb. revert Hb. by_decide. }
    do 4 (destruct (starts_with u _); [by intros (? & ? & _ & _ & _ & _ & ->)%cloud_inv|]).
    destruct (starts_with u _).
    { unfold source_object. rewrite expected_bind_ok. intros ([a path] & _ & H).
      apply expected_bind_ok in H as (? & _ & [= <-]). done. }
    destruct (starts_with u $"hf://").
    { by intros (_ & _ & _ & ->)%hugging_face_object_inv. }
    destruct (starts_with u _); [destruct (str_eqb _ _); [done|]; intros [= <-] Hb; revert Hb; by_decide|].
    destruct (contains _ _); [done|]. destruct (str_eqb _ _); [done|]. intros [= <-] Hb. revert Hb. by_decide.
  - intros r o l r' _ _ Hr (_ & _ & ->)%apply_window_ok. exact Hr.
Qed.

(** ** Windows of resolved locators *)

Lemma terminal_object_window u r :
  terminal_object u = Ok r -> window_offset r = 0 /\ window_length r = TO_END.
Proof.
  unfold terminal_object, http_object.
  repeat match goal with
  | |- (if ?c then _ else _) = _ -> _ => destruct c
  | |- cloud _ _ _ _ _ = _ -> _ => intros (? & ? & _ & _ & _ & _ & ->)%cloud_inv; split; reflexivity
  | |- source_object _ = _ -> _ => intros (_ & ? & ? & _)%source_object_inv; split; assumption
  | |- hugging_face_object _ = _ -> _ => intros (_ & ? & ? & _)%hugging_face_object_inv; split; assumption
  | |- Ok _ = Ok _ -> _ => by intros [= <-]
  | |- Err _ = Ok _ -> _ => done
  end.
Qed.

Lemma resolve_impl_window_ok levels u r : resolve_impl levels u = Ok r -> window_ok r.
Proof.
  revert levels u r. apply resolve_impl_keeps.
  - intros u r [Ho Hl]%terminal_object_window. unfold window_ok, is_u64. lia.
  - eauto using apply_window_wf.
Qed.

Lemma terminal_fragment u r first last :
  is_u64 first -> is_u64 last -> first <= last -> last - first < U64_MAX ->
  terminal u = Ok r -> "#"%char ∉ u ->
  terminal (u ++ bytes_fragment first last) = apply_window r first (last - first + 1).
Proof.
  intros Hf Hl Hle Hd Hr Hu. unfold terminal in *.
  rewrite take_bytes_fragment_none in Hr by done. cbn [mbind expected_bind] in Hr.
  apply expected_bind_ok in Hr as (v & Hv & [= ->]).
  rewrite take_bytes_fragment_print by done. cbn [mbind expected_bind].
  rewrite Hv. cbn [mbind expected_bind]. unfold finish.
  destruct (Z.eqb_spec first 0) as [->|]; [|done].
  destruct (Z.eqb_spec (last - 0 + 1) TO_END) as [->|]; [|done].
  apply terminal_object_window in Hv as [Ho Hlen]. unfold apply_window.
  rewrite Ho, Hlen. destruct r; cbn in *; by subst.
Qed.

Lemma resolve_alias_fragment aliases u r first last :
  is_u64 first -> is_u64 last -> first <= last -> last - first < U64_MAX ->
  Forall (fun a => "#"%char ∉ a.1 /\ "#"%char ∉ a.2) aliases ->
  resolve_alias aliases u = Ok r -> "#"%char ∉ u ->
  resolve_alias aliases (u ++ bytes_fragment first last) = apply_window r first (last - first + 1).
Proof.
  intros Hf Hl Hle Hd Ha Hr Hu.
  assert (Hpre : forall x p, "#"%char ∉ p ->
    starts_with (x ++ bytes_fragment first last) p = starts_with x p).
  { intros x p Hp. by apply (starts_with_delim x "#"). }
  induction Ha as [|[p sch] aliases [Hp Hs] Ha IH]; cbn [resolve_alias] in *.
  - rewrite Hpre by by_decide. destruct (starts_with u $"/vsi"); [done|].
    by apply terminal_fragment.
  - rewrite Hpre by done. destruct (starts_with u p) eqn:E; cbn [negb] in *; [|by apply IH].
    apply starts_with_drop in E. set (rest := drop (length p) u) in *.
    assert (drop (length p) (u ++ bytes_fragment first last) = rest ++ bytes_fragment first last)
      as ->.
    { rewrite E, <-app_assoc. by rewrite drop_app_length. }
    assert (str_eqb (rest ++ bytes_fragment first last) [] = false) as ->.
    { apply not_true_is_false. intros H%str_eqb_eq. by destruct rest. }
    destruct (str_eqb rest []); [done|]. rewrite !Hpre by by_decide.
    destruct (_ && _); [done|]. rewrite app_assoc. apply terminal_fragment; try done.
    rewrite not_elem_of_app. split; [done|]. subst rest. by apply elem_of_drop_not.
Qed.

Lemma resolve_fragment u r first last :
  is_u64 first -> is_u64 last -> first <= last -> last - first < U64_MAX ->
  resolve u = Ok r -> "#"%char ∉ u -> starts_with u VSI_SUBFILE = false ->
  resolve (u ++ bytes_fragment first last) = apply_window r first (last - first + 1).
Proof.
  intros Hf Hl Hle Hd Hr Hu Hs. unfold resolve in *.
  assert (u <> []) as Hne by (by intros ->).
  rewrite resolve_impl_alias in Hr by done.
  rewrite resolve_impl_alias; [|by destruct u|].
  - apply resolve_alias_fragment; try done. by_decide.
  - transitivity (starts_with u VSI_SUBFILE); [|exact Hs].
    apply (starts_with_delim u "#" ($"bytes=" ++ _)). by_decide.
Qed.

Lemma resolve_subfile levels uri r offset length_ :
  is_u64 offset -> is_u64 length_ -> resolve_impl levels uri = Ok r ->
  resolve_impl (S levels) (VSI_SUBFILE ++ subfile_text offset length_ ++ ","%char :: uri)
  = apply_window r offset length_.
Proof.
  intros Ho Hlen Hr. set (s := subfile_text offset length_).
  assert (Hs : ","%char ∉ s).
  { subst s. unfold subfile_text, is_u64 in *. rewrite !to_string_nonneg by lia.
    rewrite not_elem_of_app, not_elem_of_cons.
    split_and!; [apply decimal_not_char; [lia|done]|done|apply decimal_not_char; [lia|done]]. }
  change (resolve_impl (S levels) (VSI_SUBFILE ++ s ++ ","%char :: uri)) with
    (match find_char (s ++ ","%char :: uri) "," with
     | None => Err (malformed $"/vsisubfile/ wants OFFSET[_LENGTH],<uri>")
     | Some comma =>
         if str_eqb (drop (comma + 1) (s ++ ","%char :: uri)) []
         then Err (malformed $"/vsisubfile/ has no inner URI")
         else '(o, l) ← subfile_spec (take comma (s ++ ","%char :: uri));
              child ← resolve_impl levels (drop (comma + 1) (s ++ ","%char :: uri));
              apply_window child o l
     end).
  rewrite find_char_app by done. rewrite <-drop_drop, drop_app_length, take_app_length.
  cbn [drop]. rewrite drop_0. destruct (str_eqb uri []) eqn:E.
  - apply str_eqb_eq in E as ->. by destruct levels.
  - subst s. rewrite subfile_spec_print by done. cbn [mbind expected_bind]. by rewrite Hr.
Qed.

(** ** Properties *)

(** A locator only ever carries 64-bit window coordinates, whatever the
    text it was parsed from. *)
Theorem resolve_window_ok uri r : resolve uri = Ok r -> window_ok r.
Proof. apply resolve_impl_window_ok. Qed.

Lemma resolve_window_ok_witness :
  window_ok (Resolved_default <| target := $"a" |> <| canonical_uri := $"a" |>).
Proof. apply (resolve_window_ok $"a"). reflexivity. Defined.

(** A nested window shows exactly the bytes of its parent that lie in
    [offset, offset + length), at the parent's positions, and fails exactly
    when it starts outside the parent or its position leaves 64 bits. *)
Theorem apply_window_visible r offset length_ :
  is_u64 offset -> is_u64 length_ -> window_ok r ->
  match apply_window r offset length_ with
  | Ok r' =>
      same_object r r' /\ window_ok r' /\
      forall i, 0 <= i < TO_END ->
        absolute r' i = absolute r (offset + i) /\
        (visible r' i <-> visible r (offset + i) /\ (length_ = TO_END \/ i < length_))
  | Err _ =>
      U64_MAX < window_offset r + offset \/
      (window_length r <> TO_END /\ window_length r < offset)
  end.
Proof.
  intros Ho Hl Hw. destruct (apply_window r offset length_) as [r'|e] eqn:E.
  - pose proof (apply_window_wf _ _ _ _ Ho Hl Hw E) as Hw'.
    apply apply_window_ok in E as (Hov & Hpar & ->).
    split; [by destruct r|split; [done|]]. intros i Hi. clear Hw'.
    unfold window_ok, visible, absolute, is_u64 in *. destruct r; cbn in *.
    destruct (Z.eqb_spec window_length0 TO_END); lia.
  - unfold apply_window in E.
    destruct (Z.ltb_spec (U64_MAX - offset) (window_offset r)); [left; lia|right].
    destruct (Z.eqb_spec (window_length r) TO_END); [done|]. cbn in E.
    destruct (Z.ltb_spec (window_length r) offset); [done|]. done.
Qed.

Lemma apply_window_visible_witness :
  is_ok (apply_window (Resolved_default <| window_length := 50 |>) 10 100) = true /\
  absolute (Resolved_default <| window_offset := 10 |> <| window_length := 40 |>) 5 = 15.
Proof.
  split; [reflexivity|].
  pose proof (apply_window_visible (Resolved_default <| window_length := 50 |>) 10 100) as H.
  destruct H as (_ & _ & H); [done|done|done|]. cbn in H.
  destruct (H 5) as [H1 _]; [lia|]. exact H1.
Defined.

(** Percent encoding loses nothing and prints only characters that are
    legal in the path of a URL. *)
Theorem encode_path_roundtrip path :
  percent_decode (encode_path path) = path /\ forallb url_path_char (encode_path path) = true.
Proof.
  unfold encode_path. induction path as [|c path [IH1 IH2]]; cbn [flat_map]; [done|].
  rewrite percent_decode_encode_char, IH1, forallb_app, encode_char_chars, IH2. done.
Qed.

(** The canonical URI of a locator, which configuration lookup, caches
    and merging use as the object's name, denotes that object: resolving it
    gives the same locator with the window opened to the whole object. *)
Theorem resolve_canonical uri r :
  resolve uri = Ok r -> "#"%char ∉ uri -> resolve (canonical_uri r) = Ok (full_window r).
Proof.
  intros H Hh. destruct (resolve_impl_reads_back _ _ _ H Hh) as (_ & _ & Hback).
  unfold resolve. rewrite <-(Hback MAX_SUBFILE_DEPTH). by destruct r.
Qed.

Lemma resolve_canonical_witness :
  resolve $"/vsisubfile/7_9,az://c/k" =
    Ok (Resolved_default <| backend := Azure |> <| container := $"c" |> <| key := $"k" |>
          <| canonical_uri := $"/vsiaz/c/k" |> <| window_offset := 7 |> <| window_length := 9 |>) /\
  resolve $"/vsiaz/c/k" =
    Ok (Resolved_default <| backend := Azure |> <| container := $"c" |> <| key := $"k" |>
          <| canonical_uri := $"/vsiaz/c/k" |>).
Proof.
  split; [reflexivity|].
  assert ("#"%char ∉ $"/vsisubfile/7_9,az://c/k") as Hn by by_decide.
  exact (resolve_canonical $"/vsisubfile/7_9,az://c/k"
    (Resolved_default <| backend := Azure |> <| container := $"c" |> <| key := $"k" |>
       <| canonical_uri := $"/vsiaz/c/k" |> <| window_offset := 7 |> <| window_length := 9 |>)
    eq_refl Hn).
Defined.

(** Both ways of writing a byte window are read as the window they name:
    a [#bytes=FIRST-LAST] fragment after any URI without a subfile wrapper,
    and an [/vsisubfile/OFFSET_LENGTH,] wrapper around any URI that leaves
    room for one more level. *)
Theorem window_syntax uri r first last offset length_ :
  is_u64 first -> is_u64 last -> first <= last -> last - first < U64_MAX ->
  is_u64 offset -> is_u64 length_ -> "#"%char ∉ uri ->
  (resolve uri = Ok r -> starts_with uri VSI_SUBFILE = false ->
   resolve (uri ++ bytes_fragment first last) = apply_window r first (last - first + 1)) /\
  (resolve_impl (MAX_SUBFILE_DEPTH - 1) uri = Ok r ->
   resolve (VSI_SUBFILE ++ subfile_text offset length_ ++ ","%char :: uri)
   = apply_window r offset length_).
Proof.
  intros. split; intros; [by apply resolve_fragment|].
  by apply (resolve_subfile (MAX_SUBFILE_DEPTH - 1)).
Qed.

Lemma window_syntax_witness :
  resolve ($"a" ++ bytes_fragment 2 5)
    = Ok ((file_object $"a" $"a") <| window_offset := 2 |> <| window_length := 4 |>) /\
  resolve (VSI_SUBFILE ++ subfile_text 3 8 ++ ","%char :: $"a")
    = Ok ((file_object $"a" $"a") <| window_offset := 3 |> <| window_length := 8 |>).
Proof.
  destruct (window_syntax $"a" (file_object $"a" $"a") 2 5 3 8) as [H1 H2];
    [done|done|lia|lia|done|done|by_decide|].
  split; [exact (H1 eq_refl eq_refl)|exact (H2 eq_refl)].
Defined.
