(* ===== verification/Types.v ===== *)
(** * Types: the data shared by planner, transport and engine

    Models the declarations of [src/src/request.hpp], [src/src/buffer.hpp],
    [src/src/runtime/transfer.hpp], [src/src/runtime/batch.hpp],
    [src/src/runtime/transport.hpp], the [ClientOptions] of
    [src/src/config.hpp], the status codes of [src/include/karu/karu.h] and
    [src/src/runtime/deadline.hpp].  A pointer is an address (a Z, null is 0);
    the memory it points into is an explicit argument of the code that writes
    through it.  Curl handles, header lists and resolve lists are values of
    libcurl, so only the presence of a handle is kept.  Each record
    has an [Eta] instance, so its members can be updated one at a time. *)

From S2P Require Import Prelude Text Uri.

(** ** Status codes ([karu_status]) *)

Inductive karu_status :=
| KARU_OK | KARU_END | KARU_TIMEOUT
| KARU_ERR_URI | KARU_ERR_UNSUPPORTED | KARU_ERR_INVALID | KARU_ERR_NOMEM | KARU_ERR_IO
| KARU_ERR_NETWORK | KARU_ERR_HTTP | KARU_ERR_RANGE | KARU_ERR_AUTH | KARU_ERR_CANCELLED
| KARU_ERR_CONFIG | KARU_ERR_CREDENTIALS | KARU_ERR_NOT_FOUND | KARU_ERR_PRECONDITION.

#[export] Instance karu_status_eq_dec : EqDecision karu_status.
Proof. solve_decision. Defined.

(** [karu_status_string] of [src/src/karu.cpp]. *)
Definition karu_status_string (s : karu_status) : str :=
  match s with
  | KARU_OK => $"ok" | KARU_END => $"batch drained" | KARU_TIMEOUT => $"timed out"
  | KARU_ERR_URI => $"malformed URI" | KARU_ERR_UNSUPPORTED => $"unsupported virtual filesystem"
  | KARU_ERR_INVALID => $"invalid argument" | KARU_ERR_NOMEM => $"out of memory"
  | KARU_ERR_IO => $"file error" | KARU_ERR_NETWORK => $"network error" | KARU_ERR_HTTP => $"http error"
  | KARU_ERR_RANGE => $"range past end of object" | KARU_ERR_AUTH => $"not authorized"
  | KARU_ERR_CANCELLED => $"cancelled" | KARU_ERR_CONFIG => $"invalid configuration"
  | KARU_ERR_CREDENTIALS => $"credentials unavailable" | KARU_ERR_NOT_FOUND => $"object not found"
  | KARU_ERR_PRECONDITION => $"precondition failed"
  end.

Abbreviation status_is s t := (bool_decide (s = t :> karu_status)).

(** ** Requests and configuration of one HTTP request *)

Inductive HttpVersion := Automatic | Http1_1 | Http2Tls | Http2PriorKnowledge.

#[export] Instance HttpVersion_eq_dec : EqDecision HttpVersion.
Proof. solve_decision. Defined.

Record HttpRequestOptions := mkHttpRequestOptions {
  version : HttpVersion;
  follow_redirects : bool;
  same_origin_redirects_only : bool;
  ca_bundle : str;
  system_ca_bundle : bool;
  ca_path : str;
  proxy : str;
  proxy_user_password : str;
  user_agent : str;
}.
#[export] Instance HttpRequestOptions_eta : Eta HttpRequestOptions := fun r =>
  mkHttpRequestOptions (version r) (follow_redirects r) (same_origin_redirects_only r)
    (ca_bundle r) (system_ca_bundle r) (ca_path r) (proxy r) (proxy_user_password r)
    (user_agent r).

Definition HttpRequestOptions_default : HttpRequestOptions :=
  {| version := Http1_1; follow_redirects := true; same_origin_redirects_only := false;
     ca_bundle := []; system_ca_bundle := false; ca_path := []; proxy := [];
     proxy_user_password := []; user_agent := [] |}.

Record PreparedRequest := mkPreparedRequest {
  req_url : str;
  req_headers : list (str * str);
  req_range : str;
  req_http : HttpRequestOptions;
  routing_region : str;
}.
#[export] Instance PreparedRequest_eta : Eta PreparedRequest := fun r =>
  mkPreparedRequest (req_url r) (req_headers r) (req_range r) (req_http r) (routing_region r).

Record RequestError := { err_status : karu_status; err_message : str }.

Record ProviderCredentials := mkProviderCredentials {
  access_key_id : str;
  secret_access_key : str;
  session_token : str;
  bearer_token : str;
  sas_token : str;
  account_name : str;
  cred_region : str;
  cache_prefix : str;
  expires_at : Z;
}.
#[export] Instance ProviderCredentials_eta : Eta ProviderCredentials := fun r =>
  mkProviderCredentials (access_key_id r) (secret_access_key r) (session_token r) (bearer_token r)
    (sas_token r) (account_name r) (cred_region r) (cache_prefix r) (expires_at r).

Definition ProviderCredentials_default : ProviderCredentials :=
  {| access_key_id := []; secret_access_key := []; session_token := []; bearer_token := [];
     sas_token := []; account_name := []; cred_region := []; cache_prefix := [];
     expires_at := 0 |}.

(** ** [ClientOptions], with the defaults of its member initializers *)

Record ClientOptions := mkClientOptions {
  concurrency : Z;
  io_threads : Z;
  coalesce_gap : Z;
  coalesce_limit : Z;
  coalesce_parts : Z;
  coalesce_amplification : Z;
  range_fallback_limit : Z;
  max_attempts : Z;
  request_timeout_seconds : Z;
  connect_timeout_seconds : Z;
  low_speed_time_seconds : Z;
  low_speed_limit : Z;
}.
#[export] Instance ClientOptions_eta : Eta ClientOptions := fun r =>
  mkClientOptions (concurrency r) (io_threads r) (coalesce_gap r) (coalesce_limit r)
    (coalesce_parts r) (coalesce_amplification r) (range_fallback_limit r) (max_attempts r)
    (request_timeout_seconds r) (connect_timeout_seconds r) (low_speed_time_seconds r)
    (low_speed_limit r).

Definition ClientOptions_default : ClientOptions :=
  {| concurrency := 64; io_threads := 4; coalesce_gap := 2 ^ 20; coalesce_limit := 64 * 2 ^ 20;
     coalesce_parts := 1024; coalesce_amplification := 16; range_fallback_limit := 8 * 2 ^ 20;
     max_attempts := 8; request_timeout_seconds := 120; connect_timeout_seconds := 30;
     low_speed_time_seconds := 60; low_speed_limit := 1024 |}.

(** ** [RequestDeadline]

    The clock is an argument: nanoseconds of [steady_clock]. *)

Record RequestDeadline := mkRequestDeadline {
  expires : Z;
  started : bool;
  bounded : bool;
}.
#[export] Instance RequestDeadline_eta : Eta RequestDeadline := fun r =>
  mkRequestDeadline (expires r) (started r) (bounded r).

Definition RequestDeadline_default : RequestDeadline :=
  {| expires := 0; started := false; bounded := false |}.

Abbreviation NS_PER_MS := 1000000 (only parsing).
Abbreviation NS_PER_S := 1000000000 (only parsing).

Definition deadline_start (now timeout_seconds : Z) (d : RequestDeadline) : RequestDeadline :=
  if started d then d
  else
    let d := d <| started := true |> in
    if 0 <? timeout_seconds
    then d <| expires := now + timeout_seconds * NS_PER_S |> <| bounded := true |>
    else d.

Definition expired (now : Z) (d : RequestDeadline) : bool := bounded d && (expires d <=? now).

Definition can_wait_for (now delay_ms : Z) (d : RequestDeadline) : bool :=
  negb (bounded d) || (delay_ms * NS_PER_MS <? expires d - now).

Definition curl_timeout_ms (now : Z) (d : RequestDeadline) : Z :=
  if negb (bounded d) then 0
  else
    let remaining := - ((- (expires d - now)) / NS_PER_MS) in
    Z.max 1 (Z.min remaining I64_MAX).

(** ** Transfers *)

Definition kErrorBodyCapacity : Z := 4 * 2 ^ 10.

Abbreviation Locator := Resolved (only parsing).

Record Request := mkRequest {
  locator : Locator;
  offset : Z;
  length_ : Z;
  buffer : Z;
  tag : Z;
  if_match : str;
}.
#[export] Instance Request_eta : Eta Request := fun r =>
  mkRequest (locator r) (offset r) (length_ r) (buffer r) (tag r) (if_match r).

Record Part := mkPart {
  relative_offset : Z;
  p_length : Z;
  p_buffer : Z;
  p_tag : Z;
  owned_buffer : Z;   (* the address the part must free, or 0 *)
}.
#[export] Instance Part_eta : Eta Part := fun r =>
  mkPart (relative_offset r) (p_length r) (p_buffer r) (p_tag r) (owned_buffer r).

Record Completion := mkCompletion {
  c_tag : Z;
  c_status : karu_status;
  got : Z;
  c_buffer : Z;
  c_owned_buffer : Z;
  detail : str;
}.
#[export] Instance Completion_eta : Eta Completion := fun r =>
  mkCompletion (c_tag r) (c_status r) (got r) (c_buffer r) (c_owned_buffer r) (detail r).

Definition release_buffer (c : Completion) : Z :=
  if c_owned_buffer c =? 0 then c_buffer c else c_owned_buffer c.

Record EncodingHeaders := mkEncodingHeaders {
  content : str;
  stored_encoding : str;
  transformation_warning : bool;
}.
#[export] Instance EncodingHeaders_eta : Eta EncodingHeaders := fun r =>
  mkEncodingHeaders (content r) (stored_encoding r) (transformation_warning r).

Definition EncodingHeaders_default : EncodingHeaders :=
  {| content := []; stored_encoding := []; transformation_warning := false |}.

(** [http_buffers] is [Some] from the point it is allocated; [error_body]
    holds the first [error_body_size] bytes of the array. *)
Record HttpBuffers := mkHttpBuffers { error_body : str; error : str }.
#[export] Instance HttpBuffers_eta : Eta HttpBuffers := fun r =>
  mkHttpBuffers (error_body r) (error r).
Definition HttpBuffers_default : HttpBuffers := {| error_body := []; error := [] |}.

Record Transfer := mkTransfer {
  t_batch : nat;
  t_locator : Locator;
  t_offset : Z;
  t_length : Z;
  parts : list Part;
  t_if_match : str;
  scattered : bool;
  sink : Z;
  scratch : option Z;            (* the staging area's address once it has a size *)
  scatter_cursor : nat;
  request_url : str;
  request_range : str;
  request_headers : list (str * str);
  http : option HttpRequestOptions;
  region_hint : str;
  credentials : option ProviderCredentials;
  credentials_ready : bool;
  resumed : Z;
  resume_etag : str;
  response_etag : str;
  version_changed : bool;
  received : Z;
  skip : Z;
  body_length : Z;
  consume : Z;
  satisfied : bool;
  checked_status : bool;
  http_status : Z;
  redirect_blocked : bool;
  content_range_seen : bool;
  content_range_valid : bool;
  content_range_matches : bool;
  content_range_start : Z;
  content_range_end : Z;
  content_range_total : Z;
  content_range_has_total : bool;
  t_range_fallback_limit : Z;
  range_fallback_rejected : bool;
  encoding : EncodingHeaders;
  response_region : str;
  region_retried : bool;
  credentials_retried : bool;
  attempt : Z;
  unreachable_attempts : Z;
  deadline : RequestDeadline;
  retry_after : Z;
  error_body_received : Z;
  http_buffers : option HttpBuffers;
  easy : bool;                   (* a curl handle is attached *)
}.
#[export] Instance Transfer_eta : Eta Transfer := fun r =>
  mkTransfer (t_batch r) (t_locator r) (t_offset r) (t_length r) (parts r) (t_if_match r)
    (scattered r) (sink r) (scratch r) (scatter_cursor r) (request_url r) (request_range r)
    (request_headers r) (http r) (region_hint r) (credentials r) (credentials_ready r) (resumed r)
    (resume_etag r) (response_etag r) (version_changed r) (received r) (skip r) (body_length r)
    (consume r) (satisfied r) (checked_status r) (http_status r) (redirect_blocked r)
    (content_range_seen r) (content_range_valid r) (content_range_matches r)
    (content_range_start r) (content_range_end r) (content_range_total r)
    (content_range_has_total r) (t_range_fallback_limit r) (range_fallback_rejected r)
    (encoding r) (response_region r) (region_retried r) (credentials_retried r) (attempt r)
    (unreachable_attempts r) (deadline r) (retry_after r) (error_body_received r) (http_buffers r)
    (easy r).

(** The member initializers of [Transfer]; the locator has none. *)
Definition Transfer_default (l : Locator) : Transfer :=
  {| t_batch := 0; t_locator := l; t_offset := 0; t_length := 0; parts := []; t_if_match := [];
     scattered := false; sink := 0; scratch := None; scatter_cursor := 0; request_url := [];
     request_range := []; request_headers := []; http := None; region_hint := [];
     credentials := None; credentials_ready := false; resumed := 0; resume_etag := [];
     response_etag := []; version_changed := false; received := 0; skip := 0; body_length := -1;
     consume := 0; satisfied := false; checked_status := false; http_status := 0;
     redirect_blocked := false; content_range_seen := false; content_range_valid := false;
     content_range_matches := false; content_range_start := 0; content_range_end := 0;
     content_range_total := 0; content_range_has_total := false; t_range_fallback_limit := 0;
     range_fallback_rejected := false; encoding := EncodingHeaders_default;
     response_region := []; region_retried := false; credentials_retried := false; attempt := 0;
     unreachable_attempts := 0; deadline := RequestDeadline_default; retry_after := 0;
     error_body_received := 0; http_buffers := None; easy := false |}.

(** ** Values of libcurl that the code compares *)

Inductive CURLcode :=
| CURLE_OK | CURLE_COULDNT_RESOLVE_HOST | CURLE_COULDNT_CONNECT | CURLE_PARTIAL_FILE
| CURLE_WRITE_ERROR | CURLE_OPERATION_TIMEDOUT | CURLE_SSL_CONNECT_ERROR | CURLE_GOT_NOTHING
| CURLE_SEND_ERROR | CURLE_RECV_ERROR | CURLE_HTTP2 | CURLE_HTTP2_STREAM
| CURLE_other (code : Z).

#[export] Instance CURLcode_eq_dec : EqDecision CURLcode.
Proof. solve_decision. Defined.

Abbreviation curl_ok c := (bool_decide (c = CURLE_OK)).

Record Failure := { f_status : karu_status; f_detail : str }.

(** ** Ranges of the synchronous probe *)

Record ByteRange := mkByteRange { br_first : Z; br_length : Z; suffix : bool }.
#[export] Instance ByteRange_eta : Eta ByteRange := fun r =>
  mkByteRange (br_first r) (br_length r) (suffix r).

Record RangeStats := mkRangeStats {
  received_bytes : Z; retries : Z; throttled : Z; new_connections : Z;
  st_resumed : Z; credential_refreshes : Z;
}.
#[export] Instance RangeStats_eta : Eta RangeStats := fun r =>
  mkRangeStats (received_bytes r) (retries r) (throttled r) (new_connections r) (st_resumed r)
    (credential_refreshes r).
Definition RangeStats_default : RangeStats :=
  {| received_bytes := 0; retries := 0; throttled := 0; new_connections := 0; st_resumed := 0;
     credential_refreshes := 0 |}.

Record RangeReply := mkRangeReply {
  total : Z; first : Z; r_got : Z; etag : str; suffix_ignored : bool; stats : RangeStats;
}.
#[export] Instance RangeReply_eta : Eta RangeReply := fun r =>
  mkRangeReply (total r) (first r) (r_got r) (etag r) (suffix_ignored r) (stats r).
Definition RangeReply_default : RangeReply :=
  {| total := 0; first := 0; r_got := 0; etag := []; suffix_ignored := false;
     stats := RangeStats_default |}.
