(* ===== verification/Planner.v ===== *)
(** * Planner: from requests to transfers

    Models [src/src/runtime/planner.cpp], every function.  [std::malloc] is a
    stream of answers, one per call, 0 for a null pointer; a run that asks for
    more than the stream holds gets null.  [std::stable_sort] is an insertion
    sort that keeps equal elements in order.  The outer loop of
    [plan_transfers] consumes at least one request per turn, so the number of
    requests is enough fuel: [plan_loop_groups] shows that every request ends
    in a transfer. *)

From S2P Require Import Prelude Text Uri Types.

(** ** Definitions *)

Record ValidatedRequest := mkValidated {
  request : Request;
  absolute_offset : Z;
  last_byte : Z;
}.
#[export] Instance ValidatedRequest_eta : Eta ValidatedRequest := fun r =>
  mkValidated (request r) (absolute_offset r) (last_byte r).

(** The order of the enumerators of [Backend]. *)
Definition backend_index (b : Backend) : Z :=
  match b with
  | File => 0 | Http => 1 | S3 => 2 | Gcs => 3 | Azure => 4 | HuggingFace => 5 | Source => 6
  end.

Definition same_resource (left right : Request) : bool :=
  bool_decide (backend (locator left) = backend (locator right))
  && str_eqb (canonical_uri (locator left)) (canonical_uri (locator right))
  && str_eqb (if_match left) (if_match right).

(** [std::tie(...) < std::tie(...)]: lexicographic. *)
Definition resource_less (left right : Request) : bool :=
  let lb := backend_index (backend (locator left)) in
  let rb := backend_index (backend (locator right)) in
  let lu := canonical_uri (locator left) in
  let ru := canonical_uri (locator right) in
  (lb <? rb)
  || (negb (rb <? lb)
      && (str_ltb lu ru
          || (negb (str_ltb ru lu) && str_ltb (if_match left) (if_match right)))).

Definition range_error (r : Request) (reason : str) : str :=
  let resolved := locator r in
  let uri := if bool_decide (backend resolved = Http) then redact_url (canonical_uri resolved)
             else canonical_uri resolved in
  concat [Text uri; Text $": range ["; Integer (offset r); Text $", +"; Integer (length_ r);
          Text $") "; Text reason].

Definition validate (r : Request) : expected str ValidatedRequest :=
  let resolved := locator r in
  if negb (window_length resolved =? TO_END)
     && ((window_length resolved <? offset r)
         || (window_length resolved - offset r <? length_ r))
  then Err (range_error r $"leaves the locator window")
  else if U64_MAX - window_offset resolved <? offset r
  then Err (range_error r $"overflows its absolute offset")
  else
    let absolute := window_offset resolved + offset r in
    if U64_MAX - absolute <? wrap64 (length_ r - 1)
    then Err (range_error r $"overflows its end offset")
    else Ok {| request := r; absolute_offset := absolute;
               last_byte := wrap64 (absolute + length_ r - 1) |}.

(** One call of [std::malloc]. *)
Definition malloc (heap : list Z) : Z * list Z :=
  match heap with [] => (0, []) | p :: heap => (p, heap) end.

Definition allocate_part (heap : list Z) (part : Part) : bool * Part * list Z :=
  if negb (p_buffer part =? 0) then (true, part, heap)
  else if SIZE_MAX <? p_length part then (false, part, heap)
  else
    let '(p, heap) := malloc heap in
    (negb (p =? 0), part <| owned_buffer := p |> <| p_buffer := p |>, heap).

(** The loop over [transfer->parts]; [None] when an allocation fails. *)
Fixpoint allocate_parts (heap : list Z) (ps : list Part) : option (list Part) * list Z :=
  match ps with
  | [] => (Some [], heap)
  | part :: ps =>
      let '(ok, part, heap) := allocate_part heap part in
      if negb ok then (None, heap)
      else let '(rest, heap) := allocate_parts heap ps in (cons part <$> rest, heap)
  end.

Definition excessive_amplification (span useful maximum : Z) : bool :=
  if U64_MAX / maximum <? useful then false else useful * maximum <? span.

Record TransferPlan := mkPlan { transfers : list Transfer; immediate : list Completion }.
#[export] Instance TransferPlan_eta : Eta TransferPlan := fun r =>
  mkPlan (transfers r) (immediate r).

(** The first loop of [plan_transfers]: the completion of a request that is
    refused, or its validated form. *)
Definition check_request (r : Request) : Completion + ValidatedRequest :=
  let refused status text :=
    inl {| c_tag := tag r; c_status := status; got := 0; c_buffer := buffer r;
           c_owned_buffer := 0; detail := text |} in
  if bool_decide (backend (locator r) = File) && negb (str_eqb (if_match r) [])
  then refused KARU_ERR_UNSUPPORTED
         (canonical_uri (locator r) ++ $": ETag preconditions are not available for local files")
  else match validate r with
       | Ok checked => inr checked
       | Err text => refused KARU_ERR_RANGE text
       end.

Fixpoint check_requests (rs : list Request) : list Completion * list ValidatedRequest :=
  match rs with
  | [] => ([], [])
  | r :: rs =>
      let '(refused, valid) := check_requests rs in
      match check_request r with
      | inl c => (c :: refused, valid)
      | inr v => (refused, v :: valid)
      end
  end.

Definition validated_less (left right : ValidatedRequest) : bool :=
  if resource_less (request left) (request right) then true
  else if resource_less (request right) (request left) then false
  else absolute_offset left <? absolute_offset right.

Fixpoint insert_stable (x : ValidatedRequest) (l : list ValidatedRequest) : list ValidatedRequest :=
  match l with
  | [] => [x]
  | y :: l' => if validated_less y x then y :: insert_stable x l' else x :: l
  end.
Definition stable_sort (l : list ValidatedRequest) : list ValidatedRequest := foldr insert_stable [] l.

(** The part of a candidate that joins a transfer at [base]. *)
Definition part_of (base : Z) (v : ValidatedRequest) : Part :=
  {| relative_offset := absolute_offset v - base; p_length := length_ (request v);
     p_buffer := buffer (request v); p_tag := tag (request v); owned_buffer := 0 |}.

(** The state of the merge loop: the parts so far, the last byte they reach
    and the bytes they asked for. *)
Record Merge := mkMerge { m_parts : list Part; m_last : Z; m_useful : Z }.
#[export] Instance Merge_eta : Eta Merge := fun r =>
  mkMerge (m_parts r) (m_last r) (m_useful r).

(** One turn of the merge loop; [None] is [break]. *)
Definition merge_step (o : ClientOptions) (head : ValidatedRequest) (gap : Z) (m : Merge)
    (candidate : ValidatedRequest) : option Merge :=
  let base := absolute_offset head in
  if negb (same_resource (request head) (request candidate)) then None
  else if (m_last m <? absolute_offset candidate)
          && (gap <? absolute_offset candidate - m_last m - 1) then None
  else
    let merged_last := Z.max (m_last m) (last_byte candidate) in
    if merged_last - base =? U64_MAX then None
    else
      let merged_length := merged_last - base + 1 in
      let merged_useful :=
        if U64_MAX - m_useful m <? length_ (request candidate) then U64_MAX
        else m_useful m + length_ (request candidate) in
      if (Z.of_nat (length (m_parts m)) =? coalesce_parts o)
         || (coalesce_limit o <? merged_length)
         || excessive_amplification merged_length merged_useful (coalesce_amplification o)
      then None
      else Some {| m_parts := m_parts m ++ [part_of base candidate];
                   m_last := merged_last; m_useful := merged_useful |}.

Fixpoint merge_loop (o : ClientOptions) (head : ValidatedRequest) (gap : Z) (m : Merge)
    (next : list ValidatedRequest) : Merge * list ValidatedRequest :=
  match next with
  | candidate :: rest =>
      if 0 <? coalesce_gap o then
        match merge_step o head gap m candidate with
        | Some m => merge_loop o head gap m rest
        | None => (m, next)
        end
      else (m, next)
  | [] => (m, [])
  end.

Definition file_gap (o : ClientOptions) (head : ValidatedRequest) : Z :=
  if bool_decide (backend (locator (request head)) = File) then 0 else coalesce_gap o.

(** The transfer that starts at [head], before its buffers are allocated, and
    the requests it leaves. *)
Definition open_transfer (batch : nat) (o : ClientOptions) (shared : Locator)
    (head : ValidatedRequest) (rest : list ValidatedRequest)
    : Transfer * list ValidatedRequest :=
  let '(m, rest) :=
    merge_loop o head (file_gap o head)
      {| m_parts := [part_of (absolute_offset head) head]; m_last := last_byte head;
         m_useful := length_ (request head) |} rest in
  ((Transfer_default shared)
     <| t_batch := batch |> <| t_offset := absolute_offset head |>
     <| t_length := m_last m - absolute_offset head + 1 |>
     <| t_if_match := if_match (request head) |> <| parts := m_parts m |>, rest).

(** [transfer->scattered = ...] on the finished parts. *)
Definition is_scattered (t : Transfer) : bool :=
  match parts t with
  | [p] => negb (relative_offset p =? 0) || negb (p_length p =? t_length t)
  | _ => true
  end.

Definition keeps_locator (shared : option Locator) (head : ValidatedRequest) : Locator :=
  match shared with
  | Some l =>
      if bool_decide (backend l = backend (locator (request head)))
         && str_eqb (canonical_uri l) (canonical_uri (locator (request head)))
      then l else locator (request head)
  | None => locator (request head)
  end.

(** The outer loop: the transfers in order and the status. *)
Fixpoint plan_loop (fuel : nat) (batch : nat) (o : ClientOptions) (heap : list Z)
    (shared : option Locator) (valid : list ValidatedRequest)
    : list Transfer * karu_status * list Z :=
  match fuel, valid with
  | S fuel, head :: rest =>
      let l := keeps_locator shared head in
      let '(t, rest) := open_transfer batch o l head rest in
      let '(allocated, heap) := allocate_parts heap (parts t) in
      match allocated with
      | None => ([], KARU_ERR_NOMEM, heap)
      | Some ps =>
          let t := t <| parts := ps |> in
          let t := t <| scattered := is_scattered t |> in
          let '(ts, status, heap) := plan_loop fuel batch o heap (Some l) rest in
          (t :: ts, status, heap)
      end
  | _, _ => ([], KARU_OK, heap)
  end.

Definition plan_transfers (batch : nat) (requests : list Request) (o : ClientOptions)
    (heap : list Z) : TransferPlan * karu_status * list Z :=
  let '(refused, valid) := check_requests requests in
  let valid := stable_sort valid in
  let '(ts, status, heap) := plan_loop (length valid) batch o heap None valid in
  ({| transfers := ts; immediate := refused |}, status, heap).

(** Two requests three bytes apart become one transfer of two parts. *)
Definition example_request (off len : Z) : Request :=
  {| locator := Resolved_default <| backend := Http |> <| canonical_uri := $"http://h/o" |>;
     offset := off; length_ := len; buffer := 1000 + off; tag := off; if_match := [] |}.

Example plan_merges :
  let '(p, status, _) := plan_transfers 0 [example_request 13 7; example_request 0 10]
                           ClientOptions_default [] in
  status = KARU_OK /\
  map (fun t => (t_offset t, t_length t, scattered t, map relative_offset (parts t)))
    (transfers p) = [(0, 20, true, [0; 13])].
Proof. vm_compute. done. Qed.

(** ** The order of [std::stable_sort] *)

Lemma nat_of_ascii_inj a b : nat_of_ascii a = nat_of_ascii b -> a = b.
Proof. intros H. by rewrite <-(ascii_nat_embedding a), H, ascii_nat_embedding. Qed.

Lemma str_ltb_irrefl a : str_ltb a a = false.
Proof. induction a as [|x a IH]; cbn [str_ltb]; [done|]. by rewrite Nat.ltb_irrefl, Nat.eqb_refl, IH. Qed.

Lemma str_ltb_cons x a y b :
  str_ltb (x :: a) (y :: b) = true <->
  (nat_of_ascii x < nat_of_ascii y)%nat \/ (x = y /\ str_ltb a b = true).
Proof.
  cbn [str_ltb]. rewrite orb_true_iff, andb_true_iff, Nat.ltb_lt, Nat.eqb_eq.
  naive_solver eauto using nat_of_ascii_inj.
Qed.

Lemma str_ltb_trans a b c : str_ltb a b = true -> str_ltb b c = true -> str_ltb a c = true.
Proof.
  revert b c. induction a as [|x a IH]; intros [|y b] [|z c]; try done.
  rewrite !str_ltb_cons. intros [?|[<- ?]] [?|[<- ?]]; [left; lia|by left..|right; eauto].
Qed.

Lemma str_ltb_total a b : str_ltb a b = true \/ str_ltb b a = true \/ a = b.
Proof.
  revert b. induction a as [|x a IH]; intros [|y b]; [by right; right|by left|by right; left|].
  rewrite !str_ltb_cons.
  destruct (Nat.lt_total (nat_of_ascii x) (nat_of_ascii y)) as [?|[->%nat_of_ascii_inj|?]];
    [by left; left| |by right; left; left].
  destruct (IH b) as [?|[?| ->]]; auto.
Qed.

Lemma backend_index_inj a b : backend_index a = backend_index b -> a = b.
Proof. by destruct a, b. Qed.

(** The key a request is sorted by, before its offset. *)
Definition resource (r : Request) : Z * str * str :=
  (backend_index (backend (locator r)), canonical_uri (locator r), if_match r).

Lemma same_resource_key a b : same_resource a b = true <-> resource a = resource b.
Proof.
  unfold same_resource, resource.
  rewrite !andb_true_iff, !str_eqb_eq, bool_decide_eq_true. split.
  - intros [[-> ->] ->]. done.
  - intros [= ?%backend_index_inj ? ?]. done.
Qed.

Lemma resource_less_iff a b :
  resource_less a b = true <->
  let '(b1, u1, m1) := resource a in
  let '(b2, u2, m2) := resource b in
  b1 < b2 \/ (b1 = b2 /\ (str_ltb u1 u2 = true \/ (u1 = u2 /\ str_ltb m1 m2 = true))).
Proof.
  unfold resource_less, resource.
  set (b1 := backend_index _). set (b2 := backend_index (backend (locator b))).
  set (u1 := canonical_uri (locator a)). set (u2 := canonical_uri (locator b)).
  rewrite orb_true_iff, andb_true_iff, orb_true_iff, andb_true_iff, !negb_true_iff.
  rewrite Z.ltb_lt, Z.ltb_ge.
  assert (Hasym : forall u v, str_ltb u v = true -> str_ltb v u = false /\ u <> v).
  { intros u v H. split; [|intros ->; by rewrite str_ltb_irrefl in H].
    apply not_true_is_false. intros Hf. pose proof (str_ltb_trans _ _ _ H Hf) as E.
    by rewrite str_ltb_irrefl in E. }
  destruct (Z.lt_total b1 b2) as [?|[?|?]]; [tauto| |split; [lia|intros [?|[? _]]; lia]].
  assert (b1 <= b2) by lia.
  destruct (str_ltb_total u1 u2) as [H'|[H'|H']].
  - tauto.
  - destruct (Hasym _ _ H') as [-> ?]. rewrite H'.
    split; [intros [?|[_ [?|[? _]]]]; [lia|done|done]|].
    intros [?|[_ [?|[? _]]]]; [lia|done|congruence].
  - rewrite <-!H', !str_ltb_irrefl. tauto.
Qed.

Lemma resource_less_irrefl a b : resource a = resource b -> resource_less a b = false.
Proof.
  intros H. apply not_true_is_false. rewrite resource_less_iff, H.
  destruct (resource b) as [[? ?] ?]. rewrite !str_ltb_irrefl. intuition (try done; try lia).
Qed.

Lemma resource_less_trans a b c :
  resource_less a b = true -> resource_less b c = true -> resource_less a c = true.
Proof.
  rewrite !resource_less_iff.
  destruct (resource a) as [[? u1] m1], (resource b) as [[? u2] m2], (resource c) as [[? u3] m3].
  pose proof (str_ltb_trans u1 u2 u3). pose proof (str_ltb_trans m1 m2 m3).
  intuition (subst; auto; try lia).
Qed.

Lemma resource_less_total a b :
  resource_less a b = true \/ resource_less b a = true \/ resource a = resource b.
Proof.
  rewrite !resource_less_iff.
  destruct (resource a) as [[b1 u1] m1], (resource b) as [[b2 u2] m2].
  destruct (Z.lt_total b1 b2) as [?|[->|?]]; [tauto| |tauto].
  destruct (str_ltb_total u1 u2) as [?|[?| ->]]; [tauto..|].
  destruct (str_ltb_total m1 m2) as [?|[?| ->]]; tauto.
Qed.

Lemma resource_less_key a b c :
  resource a = resource b ->
  resource_less a c = resource_less b c /\ resource_less c a = resource_less c b.
Proof.
  intros H. split; apply eq_true_iff_eq; by rewrite !resource_less_iff, H.
Qed.

(** [a] may stand before [b] in a sorted list. *)
Definition sorts_before (a b : ValidatedRequest) : Prop := validated_less b a = false.

Lemma validated_less_iff a b :
  validated_less a b = true <->
  resource_less (request a) (request b) = true \/
  (resource (request a) = resource (request b) /\ absolute_offset a < absolute_offset b).
Proof.
  unfold validated_less. destruct (resource_less_total (request a) (request b)) as [H|[H|H]].
  - rewrite H. intuition.
  - rewrite H. destruct (resource_less (request a) (request b)); [intuition|].
    split; [done|]. intros [|[E _]]; [done|]. rewrite resource_less_irrefl in H; done.
  - rewrite !resource_less_irrefl by done. rewrite Z.ltb_lt. intuition done.
Qed.

Lemma validated_less_asym a b : validated_less a b = true -> validated_less b a = false.
Proof.
  intros H. apply not_true_is_false. intros H'. revert H H'. rewrite !validated_less_iff.
  intros [H|[H ?]] [H'|[H' ?]]; try lia.
  - pose proof (resource_less_trans _ _ _ H H') as E. by rewrite resource_less_irrefl in E.
  - by rewrite resource_less_irrefl in H.
  - by rewrite resource_less_irrefl in H'.
Qed.

Lemma sorts_before_trans a b c : sorts_before a b -> sorts_before b c -> sorts_before a c.
Proof.
  unfold sorts_before. intros Hab Hbc. apply not_true_is_false. intros Hca.
  apply not_true_iff_false in Hab, Hbc. rewrite validated_less_iff in Hab, Hbc, Hca.
  destruct (resource_less_total (request a) (request b)) as [H|[H|H]]; [|tauto|].
  - destruct Hca as [Hca|[Hca _]]; apply Hbc; left.
    + eauto using resource_less_trans.
    + by rewrite (proj1 (resource_less_key _ _ _ Hca)).
  - destruct Hca as [Hca|[Hca Hlt]]; apply Hbc.
    + left. by rewrite <-(proj2 (resource_less_key _ _ _ H)).
    + right. split; [congruence|].
      destruct (Z.lt_ge_cases (absolute_offset b) (absolute_offset a)) as [Hc|Hc]; [|lia].
      contradict Hab. right. by split.
Qed.

Lemma insert_stable_perm x l : insert_stable x l ≡ₚ x :: l.
Proof.
  induction l as [|y l IH]; cbn; [done|]. destruct (validated_less y x); [|done].
  rewrite IH. apply Permutation_swap.
Qed.

Lemma stable_sort_perm l : stable_sort l ≡ₚ l.
Proof. induction l as [|x l IH]; cbn; [done|]. by rewrite insert_stable_perm, IH. Qed.

Lemma insert_stable_sorted x l :
  StronglySorted sorts_before l -> StronglySorted sorts_before (insert_stable x l).
Proof.
  induction 1 as [|y l Hl IH Hy]; cbn; [repeat constructor|].
  destruct (validated_less y x) eqn:E.
  - constructor; [done|]. rewrite insert_stable_perm. constructor; [|done].
    by apply validated_less_asym.
  - constructor; [by constructor|]. constructor; [done|].
    eapply Forall_impl; [done|]. intros z Hz. eapply sorts_before_trans; done.
Qed.

Lemma stable_sort_sorted l : StronglySorted sorts_before (stable_sort l).
Proof. induction l; cbn; [constructor|by apply insert_stable_sorted]. Qed.

Lemma sorts_before_offset a b :
  sorts_before a b -> resource (request a) = resource (request b) ->
  absolute_offset a <= absolute_offset b.
Proof.
  unfold sorts_before. intros H%not_true_iff_false E. rewrite validated_less_iff in H.
  destruct (Z.lt_ge_cases (absolute_offset b) (absolute_offset a)); [|done].
  contradict H. right. by split.
Qed.

(** ** What a transfer holds *)

(** A request as the C API hands it over. *)
Definition wf_request (r : Request) : Prop :=
  is_u64 (offset r) /\ 1 <= length_ r <= U64_MAX /\ window_ok (locator r).

(** Option values [ConfigBuilder::freeze] lets through. *)
Definition plan_options_ok (o : ClientOptions) : Prop :=
  0 <= coalesce_gap o /\ 1 <= coalesce_parts o /\ 1 <= coalesce_amplification o.

(** The bytes a request asks for, in the object's coordinates. *)
Definition abs_offset (r : Request) : Z := window_offset (locator r) + offset r.
Definition abs_last (r : Request) : Z := abs_offset r + length_ r - 1.

Definition acceptable (r : Request) : Prop :=
  ~ (backend (locator r) = File /\ if_match r <> []) /\
  (window_length (locator r) = TO_END \/ offset r + length_ r <= window_length (locator r)) /\
  abs_last r <= U64_MAX.

Definition valid_ok (v : ValidatedRequest) : Prop :=
  wf_request (request v) /\ acceptable (request v) /\
  absolute_offset v = abs_offset (request v) /\ last_byte v = abs_last (request v).

Lemma valid_ok_range v :
  valid_ok v -> 0 <= absolute_offset v <= last_byte v /\ last_byte v <= U64_MAX /\
  last_byte v = absolute_offset v + length_ (request v) - 1 /\ 1 <= length_ (request v).
Proof.
  intros ((Ho & Hl & Hw & _) & (_ & _ & Hm) & -> & ->).
  unfold abs_last, abs_offset, is_u64 in *. lia.
Qed.

Lemma validate_ok r :
  wf_request r -> ~ (backend (locator r) = File /\ if_match r <> []) ->
  match validate r with
  | Ok v => valid_ok v /\ request v = r
  | Err _ => ~ acceptable r
  end.
Proof.
  intros Hr Hf. pose proof Hr as (Ho & Hl & Hwo & Hwl). unfold validate.
  assert (wrap64 (length_ r - 1) = length_ r - 1) as -> by (apply wrap64_small; unfold is_u64; lia).
  unfold valid_ok, acceptable, abs_last, abs_offset, is_u64 in *.
  destruct (Z.eqb_spec (window_length (locator r)) TO_END) as [E|E]; cbn [negb andb].
  - destruct (Z.ltb_spec (U64_MAX - window_offset (locator r)) (offset r)); [lia|].
    destruct (Z.ltb_spec (U64_MAX - (window_offset (locator r) + offset r)) (length_ r - 1));
      [lia|]. cbn. rewrite wrap64_small by (unfold is_u64; lia).
    split; [|done]. split_and!; try done; try lia; try by left.
  - destruct (Z.ltb_spec (window_length (locator r)) (offset r)); cbn [orb]; [lia|].
    destruct (Z.ltb_spec (window_length (locator r) - offset r) (length_ r)); [lia|].
    destruct (Z.ltb_spec (U64_MAX - window_offset (locator r)) (offset r)); [lia|].
    destruct (Z.ltb_spec (U64_MAX - (window_offset (locator r) + offset r)) (length_ r - 1));
      [lia|]. cbn. rewrite wrap64_small by (unfold is_u64; lia).
    split; [|done]. split_and!; try done; try lia; right; lia.
Qed.

(** The completion of a refused request. *)
Definition refuses (c : Completion) (r : Request) : Prop :=
  ~ acceptable r /\ c_tag c = tag r /\ c_buffer c = buffer r /\ got c = 0 /\
  c_owned_buffer c = 0 /\
  c_status c = (if bool_decide (backend (locator r) = File) && negb (str_eqb (if_match r) [])
                then KARU_ERR_UNSUPPORTED else KARU_ERR_RANGE).

Lemma check_request_spec r :
  wf_request r ->
  match check_request r with
  | inl c => refuses c r
  | inr v => valid_ok v /\ request v = r
  end.
Proof.
  intros Hr. unfold check_request, refuses.
  destruct (bool_decide (backend (locator r) = File) && negb (str_eqb (if_match r) [])) eqn:E.
  - cbn. split_and!; try done. intros (Hf & _). apply Hf.
    apply andb_true_iff in E as [?%bool_decide_eq_true Hm%negb_true_iff]. split; [done|].
    intros Hn. by rewrite Hn, str_eqb_refl in Hm.
  - assert (~ (backend (locator r) = File /\ if_match r <> [])) as Hf.
    { intros [Hb Hm]. rewrite bool_decide_true in E by done. cbn in E.
      apply negb_false_iff, str_eqb_eq in E. done. }
    pose proof (validate_ok r Hr Hf). by destruct (validate r).
Qed.

Lemma check_requests_spec rs refused valid :
  Forall wf_request rs -> check_requests rs = (refused, valid) ->
  exists bad, rs ≡ₚ bad ++ map request valid /\ Forall2 refuses refused bad /\
              Forall valid_ok valid.
Proof.
  intros Hrs. revert refused valid. induction Hrs as [|r rs Hr Hrs IH]; cbn; intros refused valid.
  - intros [= <- <-]. exists []. by repeat constructor.
  - destruct (check_requests rs) as [refused' valid'] eqn:E.
    destruct (IH _ _ eq_refl) as (bad & Hp & Hbad & Hv).
    pose proof (check_request_spec r Hr) as H. destruct (check_request r) as [c|v]; intros [= <- <-].
    + exists (r :: bad). split_and!; [by rewrite Hp|by constructor|done].
    + destruct H as [Hok <-]. exists bad. split_and!; [|done|by constructor].
      rewrite Hp. cbn. by rewrite Permutation_middle.
Qed.

(** ** The merge loop *)

Definition total_length (vs : list ValidatedRequest) : Z :=
  foldr (fun v s => length_ (request v) + s) 0 vs.

Lemma total_length_app a b : total_length (a ++ b) = total_length a + total_length b.
Proof. induction a as [|v a IH]; cbn; [done|]. unfold total_length in *. lia. Qed.

(** The requests [vs] are merged, in order, into one transfer that starts at
    [head]. *)
Record grouped (o : ClientOptions) (head : ValidatedRequest) (gap : Z) (m : Merge)
    (vs : list ValidatedRequest) : Prop := {
  g_head : exists tl, vs = head :: tl;
  g_valid : Forall valid_ok vs;
  g_parts : m_parts m = map (part_of (absolute_offset head)) vs;
  g_resource : Forall (fun v => resource (request v) = resource (request head)) vs;
  g_low : Forall (fun v => absolute_offset head <= absolute_offset v) vs;
  g_reach : Forall (fun v => last_byte v <= m_last m) vs;
  g_last : exists v, v ∈ vs /\ m_last m = last_byte v;
  g_useful : 0 <= m_useful m <= total_length vs;
  g_span : m_last m - absolute_offset head < U64_MAX;
  g_limits : vs = [head] \/
    0 < coalesce_gap o /\ Z.of_nat (length vs) <= coalesce_parts o /\
    m_last m - absolute_offset head + 1 <= coalesce_limit o /\
    m_last m - absolute_offset head + 1 <= total_length vs * coalesce_amplification o;
  g_gaps : forall a c b, vs = a ++ c :: b -> a <> [] ->
    exists v, v ∈ a /\ absolute_offset c <= last_byte v + 1 + gap;
}.

Lemma grouped_start o head gap :
  0 <= coalesce_gap o -> valid_ok head -> last_byte head - absolute_offset head < U64_MAX ->
  grouped o head gap {| m_parts := [part_of (absolute_offset head) head];
                        m_last := last_byte head; m_useful := length_ (request head) |} [head].
Proof.
  intros Hg Hv Hs. pose proof (valid_ok_range _ Hv). constructor; cbn [m_parts m_last m_useful].
  - by exists [].
  - by rewrite Forall_singleton.
  - done.
  - by rewrite Forall_singleton.
  - by rewrite Forall_singleton.
  - by rewrite Forall_singleton.
  - exists head. split; [apply list_elem_of_here|done].
  - cbn. lia.
  - done.
  - by left.
  - intros [|x [|? ?]] c b E; [done| |]; injection E as -> E; by destruct b.
Qed.

Lemma excessive_amplification_false span useful maximum :
  1 <= maximum -> 0 <= useful -> span <= U64_MAX ->
  excessive_amplification span useful maximum = false -> span <= useful * maximum.
Proof.
  intros Hm Hu Hs. unfold excessive_amplification.
  destruct (Z.ltb_spec (U64_MAX / maximum) useful) as [H|H]; [|by intros ?%Z.ltb_ge].
  intros _. pose proof (Z.mul_succ_div_gt U64_MAX maximum). nia.
Qed.

Lemma merge_step_grouped o head gap m c m' vs :
  plan_options_ok o -> 0 < coalesce_gap o -> 0 <= gap -> grouped o head gap m vs ->
  valid_ok c -> (resource (request head) = resource (request c) ->
                 absolute_offset head <= absolute_offset c) ->
  merge_step o head gap m c = Some m' -> grouped o head gap m' (vs ++ [c]).
Proof.
  intros (_ & Hparts & Hamp) Hgap Hgap0 [[tl Htl] Hv Hp Hr Hlow Hreach (w & Hw & Hlast) Hu Hsp Hlim Hg]
    Hc Hbase. pose proof (valid_ok_range _ Hc) as (Hc1 & Hc2 & Hc3 & Hc4).
  assert (Hbase0 : 0 <= absolute_offset head).
  { subst vs. apply Forall_cons_iff in Hv as [Hv _]. apply valid_ok_range in Hv. lia. }
  unfold merge_step.
  destruct (same_resource (request head) (request c)) eqn:Hsame; [|done]. cbn [negb].
  apply same_resource_key in Hsame. specialize (Hbase Hsame).
  destruct (_ && _) eqn:Hd; [done|].
  assert (m_last m <= U64_MAX).
  { rewrite Hlast. rewrite Forall_forall in Hv. specialize (Hv w Hw).
    apply valid_ok_range in Hv. lia. }
  destruct (Z.eqb_spec (Z.max (m_last m) (last_byte c) - absolute_offset head) U64_MAX)
    as [|Hspan]; [done|].
  destruct (_ || _) eqn:Hlimits; [done|]. intros [= <-].
  apply orb_false_iff in Hlimits as [[Hn%Z.eqb_neq Hl%Z.ltb_ge]%orb_false_iff Ha].
  assert (Hlen : length (m_parts m) = length vs) by (by rewrite Hp, length_map).
  set (useful := if U64_MAX - m_useful m <? length_ (request c) then U64_MAX
                 else m_useful m + length_ (request c)) in *.
  assert (Hus : 0 <= useful <= total_length (vs ++ [c])).
  { rewrite total_length_app. change (total_length [c]) with (length_ (request c) + 0).
    subst useful. destruct (Z.ltb_spec (U64_MAX - m_useful m) (length_ (request c))); lia. }
  apply excessive_amplification_false in Ha; [|done|lia|lia].
  constructor; cbn [m_parts m_last m_useful].
  - exists (tl ++ [c]). by subst.
  - apply Forall_app. by rewrite Forall_singleton.
  - by rewrite Hp, map_app.
  - apply Forall_app. by rewrite Forall_singleton.
  - apply Forall_app. by rewrite Forall_singleton.
  - apply Forall_app. rewrite Forall_singleton. split; [|lia].
    eapply Forall_impl; [exact Hreach|]. cbn. lia.
  - destruct (Z.max_spec (m_last m) (last_byte c)) as [[? ->]|[? ->]].
    + exists c. split; [|done]. apply elem_of_app. right. apply list_elem_of_here.
    + exists w. split; [|done]. apply elem_of_app. by left.
  - done.
  - lia.
  - right. split_and!; [done| |done|nia].
    rewrite length_app. cbn [length]. rewrite Hlen in Hn.
    destruct Hlim as [E|(_ & ? & _)]; [rewrite E in *; cbn [length] in *|]; lia.
  - intros a d b E Ha0. destruct b as [|e b] using rev_ind.
    + apply app_inj_tail in E as [-> ->]. exists w. split; [done|].
      rewrite <-Hlast. apply andb_false_iff in Hd as [Hd%Z.ltb_ge|Hd%Z.ltb_ge]; lia.
    + rewrite app_comm_cons, app_assoc in E. apply app_inj_tail in E as [-> ->].
      destruct (Hg a d b eq_refl Ha0) as (v & Hvin & Hle). by exists v.
Qed.

(** A later request of the sorted list, seen from the head of a transfer. *)
Definition follows (head c : ValidatedRequest) : Prop :=
  valid_ok c /\ (resource (request head) = resource (request c) ->
                 absolute_offset head <= absolute_offset c).

Lemma merge_loop_grouped o head gap m vs next m' rest :
  plan_options_ok o -> 0 <= gap -> grouped o head gap m vs -> Forall (follows head) next ->
  merge_loop o head gap m next = (m', rest) ->
  exists taken, next = taken ++ rest /\ grouped o head gap m' (vs ++ taken).
Proof.
  intros Ho Hgap Hg Hn. revert m vs Hg. induction Hn as [|c next [Hc Hb] Hn IH]; intros m vs Hg.
  - intros [= <- <-]. exists []. by rewrite (app_nil_r vs).
  - cbn [merge_loop]. destruct (Z.ltb_spec 0 (coalesce_gap o)) as [H0|H0].
    + destruct (merge_step o head gap m c) as [m1|] eqn:E.
      * intros H. apply merge_step_grouped with (vs := vs) in E; [|done..].
        destruct (IH m1 _ E H) as (taken & -> & Hg'). exists (c :: taken).
        by rewrite <-app_assoc in Hg'.
      * intros [= <- <-]. exists []. by rewrite (app_nil_r vs).
    + intros [= <- <-]. exists []. by rewrite (app_nil_r vs).
Qed.

(** A part and the same part with its destination. *)
Definition allocated (p p' : Part) : Prop :=
  relative_offset p' = relative_offset p /\ p_length p' = p_length p /\ p_tag p' = p_tag p /\
  p_buffer p' <> 0 /\
  if p_buffer p =? 0 then owned_buffer p' = p_buffer p'
  else p_buffer p' = p_buffer p /\ owned_buffer p' = owned_buffer p.

Lemma allocate_parts_spec heap ps ps' heap' :
  allocate_parts heap ps = (Some ps', heap') -> Forall2 allocated ps ps'.
Proof.
  revert heap ps' heap'. induction ps as [|p ps IH]; intros heap ps' heap'; cbn [allocate_parts].
  - intros [= <- _]. constructor.
  - unfold allocate_part. destruct (Z.eqb_spec (p_buffer p) 0) as [E|E]; cbn [negb].
    + destruct (SIZE_MAX <? p_length p); [done|].
      destruct (malloc heap) as [q heap1]. destruct (Z.eqb_spec q 0) as [|Hq]; [done|].
      cbn [negb]. destruct (allocate_parts heap1 ps) as [[r|] heap2] eqn:Er; [|done].
      intros [= <- _]. constructor; [|eapply IH; exact Er].
      unfold allocated. rewrite E. cbn. by auto.
    + destruct (allocate_parts heap ps) as [[r|] heap2] eqn:Er; [|done].
      intros [= <- _]. constructor; [|eapply IH; exact Er].
      unfold allocated. rewrite (proj2 (Z.eqb_neq _ _)) by done. by auto.
Qed.

(** Everything a finished transfer of the plan is known to be. *)
Definition transfer_of (batch : nat) (o : ClientOptions) (t : Transfer)
    (vs : list ValidatedRequest) : Prop :=
  exists head m l,
    grouped o head (file_gap o head) m vs /\
    backend l = backend (locator (request head)) /\
    canonical_uri l = canonical_uri (locator (request head)) /\
    Forall2 allocated (m_parts m) (parts t) /\
    t = (Transfer_default l)
          <| t_batch := batch |> <| t_offset := absolute_offset head |>
          <| t_length := m_last m - absolute_offset head + 1 |>
          <| t_if_match := if_match (request head) |> <| parts := parts t |>
          <| scattered := is_scattered t |>.

Lemma keeps_locator_spec shared head :
  backend (keeps_locator shared head) = backend (locator (request head)) /\
  canonical_uri (keeps_locator shared head) = canonical_uri (locator (request head)).
Proof.
  destruct shared as [l|]; cbn; [|done]. destruct (_ && _) eqn:E; [|done].
  apply andb_true_iff in E as [?%bool_decide_eq_true ?%str_eqb_eq]. done.
Qed.

Lemma sorted_follows head rest :
  StronglySorted sorts_before (head :: rest) -> Forall valid_ok rest ->
  Forall (follows head) rest.
Proof.
  intros [_ Hs]%StronglySorted_inv Hv. rewrite Forall_forall in Hs, Hv |- *.
  intros c Hc. split; [by apply Hv|]. apply sorts_before_offset. by apply Hs.
Qed.

Lemma plan_loop_groups fuel batch o heap shared valid ts heap' :
  plan_options_ok o -> (length valid <= fuel)%nat -> StronglySorted sorts_before valid ->
  Forall valid_ok valid -> Forall (fun v => last_byte v - absolute_offset v < U64_MAX) valid ->
  plan_loop fuel batch o heap shared valid = (ts, KARU_OK, heap') ->
  exists groups, valid = List.concat groups /\ Forall2 (transfer_of batch o) ts groups.
Proof.
  intros Ho. revert heap shared valid ts heap'. induction fuel as [|fuel IH];
    intros heap shared valid ts heap' Hfuel Hs Hv Hsp; destruct valid as [|head rest];
    cbn [plan_loop length] in *; try lia.
  - intros [= <- _]. by exists [].
  - intros [= <- _]. by exists [].
  - apply Forall_cons_iff in Hv as [Hhead Hrest], Hsp as [Hsp0 Hsp1].
    pose proof (sorted_follows _ _ Hs Hrest) as Hf.
    pose proof (keeps_locator_spec shared head) as [Hb Hu].
    set (l := keeps_locator shared head) in *. unfold open_transfer.
    destruct (merge_loop o head _ _ rest) as [m rest'] eqn:Em.
    assert (0 <= coalesce_gap o) as Hgap by apply Ho.
    assert (0 <= file_gap o head) as Hfg by (unfold file_gap; by case_bool_decide).
    apply merge_loop_grouped with (vs := [head]) in Em; [|done|done|by apply grouped_start|done].
    destruct Em as (taken & -> & Hg). cbn [parts].
    destruct (allocate_parts heap _) as [[ps|] heap1] eqn:Ea; [|done].
    apply allocate_parts_spec in Ea. cbn in Ea.
    destruct (plan_loop fuel batch o heap1 (Some l) rest') as [[ts' st] heap2] eqn:Er.
    intros [= <- -> _]. apply Forall_app in Hrest as [_ Hrest], Hsp1 as [_ Hsp1].
    apply StronglySorted_inv in Hs as [Hs _].
    assert (StronglySorted sorts_before rest') as Hs'.
    { clear -Hs. induction taken as [|x taken IHt]; [done|].
      apply IHt. by apply StronglySorted_inv in Hs as [? _]. }
    apply IH in Er as (groups & -> & Hgs); [|rewrite length_app in Hfuel; lia|done..].
    exists ((head :: taken) :: groups). split; [done|]. constructor; [|done].
    exists head, m, l. split_and!; done.
Qed.

(** ** Properties *)

(** The part [p] of transfer [t] reads what request [r] asked for: the same
    object under the same precondition, the bytes the request names, inside
    the transfer, into the request's buffer or into one the part owns. *)
Definition serves (t : Transfer) (r : Request) (p : Part) : Prop :=
  backend (t_locator t) = backend (locator r) /\
  canonical_uri (t_locator t) = canonical_uri (locator r) /\
  t_if_match t = if_match r /\ p_tag p = tag r /\ p_length p = length_ r /\
  t_offset t + relative_offset p = abs_offset r /\
  0 <= relative_offset p /\ relative_offset p + p_length p <= t_length t /\
  p_buffer p <> 0 /\
  if buffer r =? 0 then owned_buffer p = p_buffer p
  else p_buffer p = buffer r /\ owned_buffer p = 0.

Lemma transfer_of_serves batch o t vs :
  transfer_of batch o t vs ->
  Forall2 (serves t) (map request vs) (parts t) /\ Forall acceptable (map request vs).
Proof.
  intros (head & m & l & [_ Hv Hp Hr Hlow Hreach _ _ _ _ _] & Hb & Hu & Ha & ->).
  cbn [parts]. set (ps := parts t) in *. clearbody ps. rewrite Hp in Ha. clear Hp. split.
  - revert ps Ha. induction vs as [|v vs IH]; intros ps Ha; cbn [map] in *.
    + apply Forall2_nil_inv_l in Ha as ->. constructor.
    + apply Forall2_cons_inv_l in Ha as (p & ps' & (E1 & E2 & E3 & E4 & E5) & Ha & ->).
      apply Forall_cons_iff in Hv as [Hv0 Hv], Hr as [Hr0 Hr], Hlow as [Hl0 Hlow],
        Hreach as [Hre0 Hreach].
      pose proof (valid_ok_range _ Hv0). destruct Hv0 as (_ & _ & Habs & _).
      assert (IHps := IH Hv Hr Hlow Hreach ps' Ha). clear IH. constructor.
      * unfold resource in Hr0. injection Hr0 as ?%backend_index_inj ? ?.
        unfold serves. cbn in *. unfold abs_offset in *. rewrite E1, E2, E3.
        split_and!; congruence || lia || exact E5.
      * exact IHps.
  - apply Forall_map. eapply Forall_impl; [exact Hv|]. by intros v (_ & ? & _).
Qed.

Lemma valid_ok_tight vs :
  Forall valid_ok vs -> Forall (fun v => last_byte v - absolute_offset v < U64_MAX) vs.
Proof.
  intros H. eapply Forall_impl; [exact H|]. intros v Hv.
  pose proof (valid_ok_range _ Hv). destruct Hv as ((_ & ? & _) & _). lia.
Qed.

Lemma plan_transfers_groups batch rs o heap p heap' :
  Forall wf_request rs -> plan_options_ok o ->
  plan_transfers batch rs o heap = (p, KARU_OK, heap') ->
  exists refused groups,
    rs ≡ₚ refused ++ map request (List.concat groups) /\
    Forall2 refuses (immediate p) refused /\
    Forall2 (transfer_of batch o) (transfers p) groups /\
    StronglySorted sorts_before (List.concat groups).
Proof.
  intros Hrs Ho. unfold plan_transfers.
  destruct (check_requests rs) as [refused valid] eqn:Ec.
  destruct (check_requests_spec _ _ _ Hrs Ec) as (bad & Hperm & Hbad & Hv).
  destruct (plan_loop _ _ _ _ _ _) as [[ts st] h] eqn:El. intros [= <- -> _].
  assert (Hv' : Forall valid_ok (stable_sort valid)) by by rewrite stable_sort_perm.
  apply plan_loop_groups in El;
    [|done|by rewrite stable_sort_perm|apply stable_sort_sorted|done|by apply valid_ok_tight].
  destruct El as (groups & Hgr & Hts). exists bad, groups. split_and!; [|done|done|].
  - rewrite Hperm, <-Hgr. by rewrite stable_sort_perm.
  - rewrite <-Hgr. apply stable_sort_sorted.
Qed.

(** ** Allocation *)

(** Parts whose destination the library allocates. *)
Definition nulls (buffers : list Z) : nat := length (base.filter (fun b => b = 0) buffers).

Lemma nulls_cons b bs : nulls (b :: bs) = ((if (b =? 0)%Z then 1 else 0) + nulls bs)%nat.
Proof.
  unfold nulls. rewrite filter_cons. destruct (Z.eqb_spec b 0); by case_decide.
Qed.

Lemma nulls_app a b : nulls (a ++ b) = (nulls a + nulls b)%nat.
Proof. unfold nulls. by rewrite filter_app, length_app. Qed.

Lemma allocate_parts_succeeds heap ps :
  Forall (fun q => q <> 0) heap -> Forall (fun p => p_length p <= SIZE_MAX) ps ->
  (nulls (map p_buffer ps) <= length heap)%nat ->
  exists ps' heap', allocate_parts heap ps = (Some ps', heap') /\
    Forall (fun q => q <> 0) heap' /\ (length heap = length heap' + nulls (map p_buffer ps))%nat.
Proof.
  intros Hh Hps. revert heap Hh. induction Hps as [|p ps Hp Hps IH]; intros heap Hh Hn;
    cbn [allocate_parts map] in *.
  - exists [], heap. split_and!; [done|done|cbn; lia].
  - rewrite nulls_cons in *. unfold allocate_part.
    destruct (Z.eqb_spec (p_buffer p) 0) as [E|E]; cbn [negb].
    + rewrite (proj2 (Z.ltb_ge _ _)) by done. destruct heap as [|q heap]; [cbn in Hn; lia|].
      apply Forall_cons_iff in Hh as [Hq Hh]. cbn [malloc].
      rewrite (proj2 (Z.eqb_neq _ _)) by done. cbn [negb length] in *.
      destruct (IH heap Hh ltac:(lia)) as (ps' & heap' & -> & ? & ?).
      eexists _, heap'. split_and!; [done|done|lia].
    + destruct (IH heap Hh ltac:(lia)) as (ps' & heap' & -> & ? & ?).
      eexists _, heap'. split_and!; [done|done|lia].
Qed.

Lemma merge_step_parts o head gap m c m' :
  merge_step o head gap m c = Some m' ->
  m_parts m' = m_parts m ++ [part_of (absolute_offset head) c].
Proof.
  unfold merge_step. destruct (negb _); [done|]. destruct (_ && _); [done|].
  destruct (_ =? U64_MAX); [done|]. destruct (_ || _); [done|]. by intros [= <-].
Qed.

Lemma merge_loop_parts o head gap m next m' rest :
  merge_loop o head gap m next = (m', rest) ->
  exists taken, next = taken ++ rest /\
    m_parts m' = m_parts m ++ map (part_of (absolute_offset head)) taken.
Proof.
  assert (forall m (next : list ValidatedRequest), next = [] ++ next /\
    m_parts m = m_parts m ++ map (part_of (absolute_offset head)) []) as H0.
  { intros. by rewrite (app_nil_r (m_parts _)). }
  revert m. induction next as [|c next IH]; intros m; cbn [merge_loop].
  - intros [= <- <-]. by exists [].
  - destruct (0 <? coalesce_gap o); [|intros [= <- <-]; by exists []].
    destruct (merge_step o head gap m c) as [m1|] eqn:E; [|intros [= <- <-]; by exists []].
    intros H. destruct (IH _ H) as (taken & -> & Hp). exists (c :: taken). split; [done|].
    by rewrite Hp, (merge_step_parts _ _ _ _ _ _ E), <-app_assoc.
Qed.

Lemma plan_loop_succeeds fuel batch o heap shared valid :
  Forall (fun q => q <> 0) heap -> Forall valid_ok valid ->
  (nulls (map (fun v => buffer (request v)) valid) <= length heap)%nat ->
  exists ts heap', plan_loop fuel batch o heap shared valid = (ts, KARU_OK, heap').
Proof.
  revert heap shared valid. induction fuel as [|fuel IH]; intros heap shared valid Hh Hv Hn;
    destruct valid as [|head rest]; cbn [plan_loop]; try by eexists _, _.
  unfold open_transfer. destruct (merge_loop o head _ _ rest) as [m rest'] eqn:Em.
  apply merge_loop_parts in Em as (taken & -> & Hp). cbn [parts m_parts] in *.
  change (m_parts m = map (part_of (absolute_offset head)) (head :: taken)) in Hp.
  assert (Hnulls : nulls (map p_buffer (m_parts m))
                   = nulls (map (fun v => buffer (request v)) (head :: taken))).
  { by rewrite Hp, map_map. }
  rewrite app_comm_cons, map_app, nulls_app in Hn. rewrite app_comm_cons in Hv.
  apply Forall_app in Hv as [Hv1 Hv2].
  destruct (allocate_parts_succeeds heap (m_parts m)) as (ps & heap' & Ea & Hh' & Hlen).
  { done. }
  { rewrite Hp. apply Forall_map. eapply Forall_impl; [exact Hv1|].
    intros v ((_ & ? & _) & _). cbn. lia. }
  { rewrite Hnulls. lia. }
  match goal with |- context [parts ?t] => change (parts t) with (m_parts m) end. rewrite Ea.
  destruct (IH heap' (Some (keeps_locator shared head)) rest' Hh' Hv2) as (ts & heap2 & ->);
    [lia|]. by eexists _, _.
Qed.

(** The bytes of a part, in the transfer's coordinates. *)
Definition part_end (p : Part) : Z := relative_offset p + p_length p.
Definition shape (p : Part) : Z * Z := (relative_offset p, p_length p).
Definition parts_length (ps : list Part) : Z := foldr (fun p s => p_length p + s) 0 ps.

Lemma transfer_of_shapes batch o t vs :
  transfer_of batch o t vs ->
  map shape (parts t) = map (fun v => (absolute_offset v - t_offset t, length_ (request v))) vs.
Proof.
  intros (head & m & l & [_ _ Hp _ _ _ _ _ _ _ _] & _ & _ & Ha & E).
  rewrite Hp in Ha. assert (t_offset t = absolute_offset head) as -> by (by rewrite E).
  set (ps := parts t) in *. clearbody ps. clear E Hp.
  revert ps Ha. induction vs as [|v vs IH]; intros ps Ha; cbn [map] in *.
  - by apply Forall2_nil_inv_l in Ha as ->.
  - apply Forall2_cons_inv_l in Ha as (p & ps' & (E1 & E2 & _) & Ha & ->).
    cbn [map]. rewrite (IH _ Ha). unfold shape at 1. by rewrite E1, E2.
Qed.

Lemma shapes_total off vs ps :
  map shape ps = map (fun v => (absolute_offset v - off, length_ (request v))) vs ->
  parts_length ps = total_length vs.
Proof.
  revert ps. induction vs as [|v vs IH]; intros [|p ps]; try done. cbn [map].
  intros [= _ H1 H2]. cbn. rewrite H1. unfold parts_length, total_length in IH.
  by rewrite (IH _ H2).
Qed.

Lemma shapes_sorted off vs ps :
  map shape ps = map (fun v => (absolute_offset v - off, length_ (request v))) vs ->
  StronglySorted (fun a b => absolute_offset a <= absolute_offset b) vs ->
  StronglySorted (fun p q => relative_offset p <= relative_offset q) ps.
Proof.
  intros H Hs. revert ps H. induction Hs as [|v vs Hs IH Hv]; intros [|p ps]; try done.
  - constructor.
  - cbn [map]. intros [= H1 _ H2]. constructor; [by apply IH|].
    apply Forall_forall. intros q Hq.
    assert (shape q ∈ map shape ps) as Hin by (by apply list_elem_of_fmap_2).
    rewrite H2 in Hin. apply list_elem_of_fmap in Hin as (w & E & Hw).
    rewrite Forall_forall in Hv. specialize (Hv w Hw). unfold shape in E. injection E as E _. lia.
Qed.

Lemma grouped_sorted o head gap m vs :
  grouped o head gap m vs -> StronglySorted sorts_before vs ->
  StronglySorted (fun a b => absolute_offset a <= absolute_offset b) vs.
Proof.
  intros [_ _ _ Hr _ _ _ _ _ _ _] Hs. revert Hr.
  induction Hs as [|v vs Hs IH Hv]; intros Hr; [constructor|].
  apply Forall_cons_iff in Hr as [Hr0 Hr]. constructor; [by apply IH|].
  rewrite Forall_forall in Hv, Hr |- *. intros w Hw.
  apply sorts_before_offset; [by apply Hv|]. rewrite Hr0. symmetry. by apply Hr.
Qed.

Lemma StronglySorted_concat {A} (R : A -> A -> Prop) (ls : list (list A)) :
  StronglySorted R (List.concat ls) -> Forall (StronglySorted R) ls.
Proof.
  induction ls as [|l ls IH]; cbn; [constructor|].
  intros (_ & Hl & Hls)%StronglySorted_app. constructor; [done|by apply IH].
Qed.

(** The gap a transfer may read over. *)
Definition gap_of (o : ClientOptions) (t : Transfer) : Z :=
  if bool_decide (backend (t_locator t) = File) then 0 else coalesce_gap o.

(** The shape the rest of the engine relies on. *)
Definition well_shaped (t : Transfer) : Prop :=
  StronglySorted (fun p q => relative_offset p <= relative_offset q) (parts t) /\
  (exists p tl, parts t = p :: tl /\ relative_offset p = 0) /\
  Forall (fun p => 0 <= relative_offset p /\ 1 <= p_length p /\ part_end p <= t_length t) (parts t) /\
  (exists p, p ∈ parts t /\ part_end p = t_length t) /\
  0 <= t_offset t /\ 1 <= t_length t <= U64_MAX /\ t_offset t + t_length t - 1 <= U64_MAX /\
  (scattered t = false <-> length (parts t) = 1%nat).

Definition within_limits (o : ClientOptions) (t : Transfer) : Prop :=
  (forall a p b, parts t = a ++ p :: b -> a <> [] ->
     exists q, q ∈ a /\ relative_offset p <= part_end q + gap_of o t) /\
  (length (parts t) = 1%nat \/
   0 < coalesce_gap o /\ Z.of_nat (length (parts t)) <= coalesce_parts o /\
   t_length t <= coalesce_limit o /\
   t_length t <= parts_length (parts t) * coalesce_amplification o).

Lemma transfer_of_well_shaped batch o t vs :
  transfer_of batch o t vs -> StronglySorted sorts_before vs -> well_shaped t.
Proof.
  intros Ht Hs. pose proof (transfer_of_shapes _ _ _ _ Ht) as Hsh.
  destruct Ht as (head & m & l & Hg & _ & _ & _ & E).
  pose proof (grouped_sorted _ _ _ _ _ Hg Hs) as Hsort.
  destruct Hg as [(tl & Htl) Hv _ _ Hlow Hreach (w & Hw & Hlast) _ Hspan _ _].
  assert (Ho : t_offset t = absolute_offset head) by (by rewrite E).
  assert (Hl : t_length t = m_last m - absolute_offset head + 1) by (by rewrite E).
  assert (Hsc : scattered t = is_scattered t) by exact (f_equal scattered E).
  clear E. rewrite Ho in Hsh.
  assert (Hpart : forall p, p ∈ parts t -> exists v, v ∈ vs /\
            relative_offset p = absolute_offset v - absolute_offset head /\
            p_length p = length_ (request v)).
  { intros p Hp. assert (shape p ∈ map shape (parts t)) as Hin by (by apply list_elem_of_fmap_2).
    rewrite Hsh in Hin. apply list_elem_of_fmap in Hin as (v & [= ? ?] & ?). by exists v. }
  rewrite Forall_forall in Hv, Hlow, Hreach.
  assert (Hhead : valid_ok head) by (apply Hv; subst vs; apply list_elem_of_here).
  pose proof (valid_ok_range _ Hhead) as Hh. pose proof (valid_ok_range _ (Hv w Hw)) as Hwr.
  pose proof (Hreach head) as Hrh. rewrite Htl in Hrh. specialize (Hrh (list_elem_of_here _ _)).
  unfold well_shaped. split_and!; try lia.
  - by eapply shapes_sorted.
  - rewrite Htl in Hsh. destruct (parts t) as [|p ps]; [done|]. injection Hsh as Hp _.
    exists p, ps. split; [done|lia].
  - apply Forall_forall. intros p Hp. destruct (Hpart p Hp) as (v & Hin & ? & ?).
    pose proof (valid_ok_range _ (Hv v Hin)). specialize (Hlow v Hin). specialize (Hreach v Hin).
    unfold part_end. lia.
  - assert ((absolute_offset w - absolute_offset head, length_ (request w)) ∈ map shape (parts t))
      as Hin by (rewrite Hsh; apply list_elem_of_fmap; by exists w).
    apply list_elem_of_fmap in Hin as (p & [= ? ?] & ?). exists p. split; [done|].
    unfold part_end. lia.
  - rewrite Hsc. unfold is_scattered. apply (f_equal length) in Hsh as Hlen.
    rewrite !length_map in Hlen. destruct (parts t) as [|p [|q ps]]; [by subst vs|..|by cbn].
    rewrite Htl in Hsh, Hlen, Hw. destruct tl; [|done]. apply list_elem_of_singleton in Hw as ->.
    injection Hsh as Hp1 Hp2.
    rewrite Hp1, Hp2, Hl, Hlast. cbn [length]. split; [done|]. intros _.
    apply orb_false_iff. rewrite !negb_false_iff, !Z.eqb_eq. lia.
Qed.

Lemma transfer_of_limits batch o t vs : transfer_of batch o t vs -> within_limits o t.
Proof.
  intros Ht. pose proof (transfer_of_shapes _ _ _ _ Ht) as Hsh.
  destruct Ht as (head & m & l & Hg & Hb & _ & _ & E).
  assert (Ho : t_offset t = absolute_offset head) by (by rewrite E).
  assert (Hl : t_length t = m_last m - absolute_offset head + 1) by (by rewrite E).
  assert (Hgap : gap_of o t = file_gap o head).
  { unfold gap_of, file_gap. rewrite E. cbn [t_locator]. by rewrite <-Hb. }
  clear E Hb. rewrite Ho in Hsh. apply (f_equal length) in Hsh as Hlen.
  rewrite !length_map in Hlen. rewrite <-Hgap in Hg. destruct Hg as [_ Hv _ _ _ _ _ _ _ Hlim Hgaps].
  split.
  - intros a p b Hp Ha. rewrite Hp, map_app in Hsh. cbn [map] in Hsh. symmetry in Hsh.
    apply map_eq_app in Hsh as (va & vb & -> & Hva & Hvb).
    apply map_eq_cons in Hvb as (c & vb' & -> & Hc & _).
    destruct (Hgaps va c vb' eq_refl) as (v & Hin & Hle).
    { intros ->. by destruct a. }
    assert ((absolute_offset v - absolute_offset head, length_ (request v)) ∈ map shape a) as Hs.
    { rewrite <-Hva. apply list_elem_of_fmap; by exists v. }
    apply list_elem_of_fmap in Hs as (q & [= Hq1 Hq2] & Hqa). exists q. split; [done|].
    rewrite Forall_forall in Hv.
    assert (valid_ok v) as Hr%valid_ok_range by (apply Hv, elem_of_app; by left).
    unfold part_end, shape in *. injection Hc as Hc _. lia.
  - destruct Hlim as [->|Hlim]; [by left|right]. rewrite (shapes_total _ _ _ Hsh), Hlen, Hl.
    apply Hlim.
Qed.

(** What the engine needs of a plan. *)
Lemma plan_transfers_shape batch rs o heap p heap' :
  Forall wf_request rs -> plan_options_ok o ->
  plan_transfers batch rs o heap = (p, KARU_OK, heap') ->
  Forall (fun t => well_shaped t /\ t_batch t = batch /\ attempt t = 0 /\
                   region_retried t = false /\ credentials_retried t = false) (transfers p).
Proof.
  intros Hrs Ho Hp.
  destruct (plan_transfers_groups _ _ _ _ _ _ Hrs Ho Hp) as (refused & groups & _ & _ & H3 & Hs).
  apply StronglySorted_concat in Hs. revert Hs.
  induction H3 as [|t vs ts groups Ht H3 IH]; [constructor|].
  intros [Hs0 Hs]%Forall_cons_iff. constructor; [|by apply IH].
  split; [by eapply transfer_of_well_shaped|]. destruct Ht as (? & ? & ? & _ & _ & _ & _ & E).
  split_and!; by rewrite E.
Qed.

(** The tags of the parts of transfers. *)
Definition tags_of (ts : list Transfer) : list Z :=
  List.concat (map (fun t => map p_tag (parts t)) ts).

Lemma plan_transfers_tags batch rs o heap p heap' :
  Forall wf_request rs -> plan_options_ok o ->
  plan_transfers batch rs o heap = (p, KARU_OK, heap') ->
  map tag rs ≡ₚ map c_tag (immediate p) ++ tags_of (transfers p).
Proof.
  intros Hrs Ho Hp.
  destruct (plan_transfers_groups _ _ _ _ _ _ Hrs Ho Hp) as (refused & groups & H1 & H2 & H3 & _).
  rewrite H1, map_app. apply Permutation_app.
  - clear H1. induction H2 as [|c r cs rs' (_ & Ht & _) _ IH]; [done|]. cbn. by rewrite Ht, IH.
  - clear H1 H2. unfold tags_of.
    induction H3 as [|t vs ts gs Ht _ IH]; [done|]. cbn. rewrite !map_app, IH.
    apply Permutation_app_tail. destruct (transfer_of_serves _ _ _ _ Ht) as [Hs _]. revert Hs.
    generalize (map request vs) as us. generalize (parts t) as ps. intros ps us Hs.
    induction Hs as [|r q us qs (_ & _ & _ & Hq & _) _ IHs]; [done|]. cbn. by rewrite Hq, IHs.
Qed.

(** C3: planning loses, invents and misplaces no request.  Every request of
    the batch either is refused with exactly one immediate completion that
    carries its tag and buffer, which happens exactly when it leaves its
    window or the 64-bit offsets or pins a local file, or is served by exactly
    one part of one transfer, which reads the bytes it names of the object it
    names, lies inside the transfer and has a destination. *)
Theorem plan_serves_every_request batch rs o heap p heap' :
  Forall wf_request rs -> plan_options_ok o ->
  plan_transfers batch rs o heap = (p, KARU_OK, heap') ->
  exists refused served,
    rs ≡ₚ refused ++ List.concat served /\
    Forall2 refuses (immediate p) refused /\
    Forall2 (fun t reqs => t_batch t = batch /\ Forall2 (serves t) reqs (parts t) /\
                           Forall acceptable reqs) (transfers p) served.
Proof.
  intros Hrs Ho Hp.
  destruct (plan_transfers_groups _ _ _ _ _ _ Hrs Ho Hp) as (refused & groups & H1 & H2 & H3 & _).
  exists refused, (map (map request) groups). split_and!; [by rewrite <-concat_map|done|].
  rewrite Forall2_fmap_r. eapply Forall2_impl; [exact H3|]. intros t vs Ht.
  pose proof (transfer_of_serves _ _ _ _ Ht). destruct Ht as (? & ? & ? & _ & _ & _ & _ & E).
  split; [by rewrite E|done].
Qed.

(** C25: a planned transfer is well formed and stays inside the configured
    limits: its parts are sorted and cover its first and last byte, its range
    stays in 64 bits, a part starts at most the coalescing gap after the parts
    before it, and a merged transfer exceeds neither the number of parts nor
    the span nor the read amplification the options allow; a zero gap merges
    nothing. *)
Theorem plan_respects_limits batch rs o heap p heap' :
  Forall wf_request rs -> plan_options_ok o ->
  plan_transfers batch rs o heap = (p, KARU_OK, heap') ->
  Forall (fun t => well_shaped t /\ within_limits o t) (transfers p).
Proof.
  intros Hrs Ho Hp.
  destruct (plan_transfers_groups _ _ _ _ _ _ Hrs Ho Hp) as (refused & groups & _ & _ & H3 & Hs).
  apply StronglySorted_concat in Hs. revert Hs.
  induction H3 as [|t vs ts groups Ht H3 IH]; [constructor|].
  intros [Hs0 Hs]%Forall_cons_iff. constructor; [|by apply IH].
  split; [by eapply transfer_of_well_shaped|by eapply transfer_of_limits].
Qed.

(** Planning only fails for want of memory: when [std::malloc] answers
    every request that brought no buffer of its own, every batch is planned. *)
Theorem plan_succeeds batch rs o heap :
  Forall wf_request rs -> Forall (fun q => q <> 0) heap ->
  (nulls (map buffer rs) <= length heap)%nat ->
  exists p heap', plan_transfers batch rs o heap = (p, KARU_OK, heap').
Proof.
  intros Hrs Hh Hn. unfold plan_transfers. destruct (check_requests rs) as [refused valid] eqn:Ec.
  destruct (check_requests_spec _ _ _ Hrs Ec) as (bad & Hperm & _ & Hv).
  destruct (plan_loop_succeeds (length (stable_sort valid)) batch o heap None (stable_sort valid))
    as (ts & heap' & ->).
  - done.
  - by rewrite stable_sort_perm.
  - assert (nulls (map buffer rs) = nulls (map buffer (bad ++ map request valid))) as E.
    { unfold nulls. by rewrite Hperm. }
    rewrite E, map_app, nulls_app, map_map in Hn.
    assert (nulls (map (fun v => buffer (request v)) (stable_sort valid))
            = nulls (map (fun v => buffer (request v)) valid)) as ->; [|lia].
    unfold nulls. by rewrite stable_sort_perm.
  - by eexists _, _.
Qed.

(** *** Witnesses *)

Definition example_requests : list Request :=
  [example_request 13 7; (example_request 0 10) <| buffer := 0 |>; example_request U64_MAX 2].

Lemma example_requests_wf : Forall wf_request example_requests.
Proof.
  repeat constructor; cbn; unfold is_u64; lia.
Qed.

Lemma plan_serves_every_request_witness :
  exists p heap', plan_transfers 0 example_requests ClientOptions_default [77] = (p, KARU_OK, heap')
  /\ exists refused served,
    example_requests ≡ₚ refused ++ List.concat served /\
    Forall2 refuses (immediate p) refused /\
    Forall2 (fun t reqs => t_batch t = 0%nat /\ Forall2 (serves t) reqs (parts t) /\
                           Forall acceptable reqs) (transfers p) served.
Proof.
  eexists _, _. split; [vm_compute; reflexivity|].
  eapply (plan_serves_every_request 0 example_requests ClientOptions_default [77]).
  - apply example_requests_wf.
  - unfold plan_options_ok. cbn. lia.
  - vm_compute. reflexivity.
Defined.

Lemma plan_respects_limits_witness :
  exists p heap', plan_transfers 0 example_requests ClientOptions_default [77] = (p, KARU_OK, heap')
  /\ Forall (fun t => well_shaped t /\ within_limits ClientOptions_default t) (transfers p).
Proof.
  eexists _, _. split; [vm_compute; reflexivity|].
  eapply (plan_respects_limits 0 example_requests ClientOptions_default [77]).
  - apply example_requests_wf.
  - unfold plan_options_ok. cbn. lia.
  - vm_compute. reflexivity.
Defined.

Lemma plan_succeeds_witness :
  exists p heap', plan_transfers 0 example_requests ClientOptions_default [77]
                  = (p, KARU_OK, heap').
Proof.
  apply plan_succeeds.
  - apply example_requests_wf.
  - by repeat constructor.
  - vm_compute. lia.
Defined.
