(* ===== verification/Response.v ===== *)
(** * Response: reading HTTP responses and judging attempts

    Models [src/src/runtime/http_response.cpp] and the header helpers of
    [src/src/runtime/transport.cpp] (callback_size to record_encoding,
    version_pin).  What libcurl and the C library compute is a variable of the
    section: the date parser [curl_getdate], the text of a CURLcode, the
    parts of a URL and of a redirect resolved against it.  The pseudo-random
    jitter is a function from its upper bound to the drawn value.  [transfer.http] and
    [transfer.http_buffers] are read only after they are set; where the model
    must read them it falls back on the default object. *)

From S2P Require Import Prelude Text Uri Types.

Definition http_of (t : Transfer) : HttpRequestOptions := default HttpRequestOptions_default (http t).
Definition buffers_of (t : Transfer) : HttpBuffers := default HttpBuffers_default (http_buffers t).

Definition is_2xx (status : Z) : bool := (200 <=? status) && (status <? 300).
Definition is_3xx (status : Z) : bool := (300 <=? status) && (status <? 400).

(** ** Content codings *)

Definition kErrorSummaryLimit : nat := 200.
Definition kMaximumRetryAfterSeconds : Z := 60.

Definition coding (value : str) : str := if str_eqb value [] then $"identity" else value.

(** [fold] and [ascii_lower] are the same function of the two files. *)
Definition ascii_lower (c : ascii) : ascii := to_lower c.

Definition same_coding (left right : str) : bool :=
  str_eqb (map ascii_lower (coding left)) (map ascii_lower (coding right)).

(** ** Error bodies *)

Fixpoint summarize_loop (body result : str) (pending_space : bool) : str :=
  match body with
  | [] => result
  | c :: body =>
      if (nat_of_ascii c <=? 32)%nat then summarize_loop body result true
      else
        let result := if pending_space && negb (str_eqb result []) then result ++ [" "%char]
                      else result in
        let result := result ++ [c] in
        if (length result =? kErrorSummaryLimit)%nat then result
        else summarize_loop body result false
  end.
Definition summarize (body : str) : str := summarize_loop body [] false.

Definition status_for_http (status : Z) : karu_status :=
  if (status =? 401) || (status =? 403) then KARU_ERR_AUTH
  else if status =? 404 then KARU_ERR_NOT_FOUND
  else if status =? 412 then KARU_ERR_PRECONDITION
  else if status =? 416 then KARU_ERR_RANGE
  else KARU_ERR_HTTP.

Definition transient (code : CURLcode) (status : Z) : bool :=
  match code with
  | CURLE_OPERATION_TIMEDOUT | CURLE_COULDNT_CONNECT | CURLE_COULDNT_RESOLVE_HOST
  | CURLE_GOT_NOTHING | CURLE_SEND_ERROR | CURLE_RECV_ERROR | CURLE_PARTIAL_FILE
  | CURLE_SSL_CONNECT_ERROR | CURLE_HTTP2 | CURLE_HTTP2_STREAM => true
  | _ => (status =? 408) || (status =? 425) || (status =? 429)
         || ((500 <=? status) && (status <? 600))
  end.

Definition s3_region (body : str) : str :=
  match find_str body $"<Region>" with
  | None => []
  | Some first =>
      let begin := (first + length $"<Region>")%nat in
      match find_str_from body $"</Region>" begin with
      | None => []
      | Some end_ => substr body begin (end_ - begin)
      end
  end.

Definition credentials_expired (b : Backend) (status : Z) (body : str) : bool :=
  if (status =? 401)
     && (bool_decide (b = Gcs) || bool_decide (b = Azure) || bool_decide (b = Source)) then true
  else if negb (status =? 403) || (negb (bool_decide (b = S3)) && negb (bool_decide (b = Source)))
  then false
  else contains body $"<Code>ExpiredToken</Code>"
       || contains body $"<Code>InvalidToken</Code>"
       || contains body $"<Code>RequestExpired</Code>".

Definition transfer_credentials_expired (t : Transfer) : bool :=
  credentials_expired (backend (t_locator t)) (http_status t) (error_body (buffers_of t)).

(** ** Retry delays *)

Section RetryAfter.
(** [curl_getdate] of libcurl: seconds since the epoch, -1 on failure. *)
Variable curl_getdate : str -> Z.

Definition retry_after_seconds (value : str) (now : Z) : Z :=
  match from_chars_all (- I64_MAX - 1) I64_MAX value with
  | Some seconds => if seconds <=? 0 then 0 else Z.min seconds INT_MAX
  | None =>
      if (128 <=? length value)%nat then 0
      else
        (* the copy is read as a C string *)
        let when := curl_getdate (take_to (find_char value "000") value) in
        if (when =? -1) || (when <=? now) then 0 else Z.min (when - now) INT_MAX
  end.
End RetryAfter.

(** Milliseconds; [jitter n] is the value drawn from 0 to n. *)
Definition retry_delay (attempt retry_after : Z) (jitter : Z -> Z) : Z :=
  let requested := Z.max 0 (Z.min retry_after kMaximumRetryAfterSeconds) in
  if 0 <? requested then requested * 1000 + jitter 1000
  else
    let base := Z.shiftl 100 (Z.max 0 (Z.min attempt 6)) in
    base + jitter base.

(** ** Transformed bodies *)

Definition transformed (e : EncodingHeaders) : bool :=
  transformation_warning e
  || (negb (str_eqb (stored_encoding e) []) && negb (same_coding (content e) (stored_encoding e))).

Definition transformation_detail (url : str) (e : EncodingHeaders) : str :=
  if negb (str_eqb (stored_encoding e) []) && str_eqb (content e) [] then
    concat [Text url; Text $": the server decoded an object stored with Content-Encoding ";
            Text (stored_encoding e);
            Text $" (GCS decompressive transcoding), so the body is not the stored bytes; ";
            Text $"read it through gs:// or send 'Accept-Encoding: ";
            Text (stored_encoding e); Text $"' with KARU_HTTP_HEADERS"]
  else if negb (str_eqb (stored_encoding e) []) && negb (same_coding (content e) (stored_encoding e))
  then
    concat [Text url; Text $": the server sent Content-Encoding "; Text (content e);
            Text $" for an object stored as "; Text (coding (stored_encoding e));
            Text $", so the body is not the stored bytes"]
  else
    concat [Text url; Text $": the response carries Warning 214 (transformation applied), so the ";
            Text $"body is not the stored bytes"].

(** ** Header lines *)

Definition callback_size (size count : Z) : option Z :=
  if negb (size =? 0) && (SIZE_MAX / size <? count) then None else Some (wrap64 (size * count)).

Fixpoint header_name_is (line name : str) {struct name} : bool :=
  match name, line with
  | [], _ => true
  | n :: name, l :: line => Ascii.eqb (ascii_lower l) (ascii_lower n) && header_name_is line name
  | _ :: _, [] => false
  end.

Definition ascii_equal (left right : str) : bool :=
  if negb (length left =? length right)%nat then false
  else str_eqb (map ascii_lower left) (map ascii_lower right).

Section Redirects.
(** libcurl's URL parser: scheme, host and port (with the scheme's default) of
    a URL, and of a redirect target resolved against it. *)
Variable url_parts : str -> option (str * str * str).
Variable follow_parts : str -> str -> option (str * str * str).

Definition same_origin_redirect (original location : str) : bool :=
  match url_parts original, follow_parts original location with
  | Some (scheme, host, port), Some (scheme', host', port') =>
      ascii_equal scheme scheme' && ascii_equal host host' && str_eqb port port'
  | _, _ => false
  end.
End Redirects.

Definition response_status (line : str) : Z :=
  match find_char line " " with
  | None => 0
  | Some first =>
      match find_first_not_of line $" " first with
      | None => 0
      | Some begin =>
          let end_ := find_if_from (Ascii.eqb " ") line begin in
          let text := match end_ with Some e => substr line begin (e - begin)
                      | None => drop begin line end in
          default 0 (from_chars_all (- I64_MAX - 1) I64_MAX text)
      end
  end.

Fixpoint drop_while (f : ascii -> bool) (s : str) : str :=
  match s with
  | c :: s' => if f c then drop_while f s' else s
  | [] => []
  end.
Definition drop_while_end (f : ascii -> bool) (s : str) : str := rev (drop_while f (rev s)).

Definition blank (c : ascii) : bool := Ascii.eqb c " " || Ascii.eqb c "009".
Definition line_end_blank (c : ascii) : bool :=
  Ascii.eqb c "013" || Ascii.eqb c "010" || Ascii.eqb c " " || Ascii.eqb c "009".

(** The caller has matched the name, so the line is at least as long. *)
Definition header_value (line name : str) : str :=
  drop_while_end line_end_blank (drop_while blank (drop (length name) line)).

(** [from_chars] leaves the variable alone on error and sets it when it stops
    early. *)
Definition parse_u64 (text : str) (value : Z) : bool * Z :=
  match from_chars 0 U64_MAX text with
  | Some (v, rest) => (str_eqb rest [], v)
  | None => (false, value)
  end.

Record ContentRange := mkContentRange {
  cr_first : Z; cr_last : Z; cr_total : Z; cr_have_total : bool
}.
#[export] Instance ContentRange_eta : Eta ContentRange := fun r =>
  mkContentRange (cr_first r) (cr_last r) (cr_total r) (cr_have_total r).

Definition parse_content_range (value : str) (r : ContentRange) : bool * ContentRange :=
  if negb (starts_with value $"bytes ") then (false, r)
  else
    let value := drop (length $"bytes ") value in
    match find_char value "-", find_char value "/" with
    | Some dash, Some slash =>
        if (dash =? 0)%nat || (slash <? dash)%nat then (false, r)
        else
          let '(ok_first, first) := parse_u64 (substr value 0 dash) (cr_first r) in
          let r := r <| cr_first := first |> in
          if negb ok_first then (false, r)
          else
            let '(ok_last, last) := parse_u64 (substr value (dash + 1) (slash - dash - 1)) (cr_last r) in
            let r := r <| cr_last := last |> in
            if negb ok_last || (last <? first) then (false, r)
            else
              let total_text := drop (slash + 1) value in
              let have_total := negb (str_eqb total_text $"*") in
              let r := r <| cr_have_total := have_total |> in
              if have_total then
                let '(ok_total, total) := parse_u64 total_text (cr_total r) in
                let r := r <| cr_total := total |> in
                if negb ok_total || (total =? 0) || (total <=? last) then (false, r)
                else (negb (str_eqb total_text []), r)
              else (negb (str_eqb total_text []), r)
    | _, _ => (false, r)
    end.

Definition parse_unsatisfied_content_range (value : str) (total : Z) : bool * Z :=
  if starts_with value $"bytes */" then parse_u64 (drop (length $"bytes */") value) total
  else (false, total).

Definition valid_content_range (t : Transfer) : bool :=
  if negb (content_range_seen t) || negb (content_range_valid t)
     || negb (content_range_start t =? wrap64 (t_offset t + resumed t)) then false
  else
    let requested_end := wrap64 (t_offset t + t_length t - 1) in
    if requested_end <? content_range_end t then false
    else
      (content_range_end t =? requested_end)
      || (content_range_has_total t
          && (wrap64 (content_range_end t + 1) =? content_range_total t)).

Definition etag_char (c : ascii) : bool :=
  (33 <=? nat_of_ascii c)%nat && negb (nat_of_ascii c =? 34)%nat && negb (nat_of_ascii c =? 127)%nat.

(** The character 034 is the double quote. *)
Definition is_strong_etag (value : str) : bool :=
  if (length value <? 2)%nat || negb (starts_with value ["034"%char])
     || negb (ends_with value ["034"%char]) then false
  else forallb etag_char (removelast (drop 1 value)).

Definition version_pin (t : Transfer) : str :=
  if str_eqb (t_if_match t) [] then resume_etag t else t_if_match t.

Definition contradicts_pin (t : Transfer) : bool :=
  let pin := version_pin t in
  is_strong_etag pin && negb (str_eqb (response_etag t) []) && negb (str_eqb (response_etag t) pin).

Definition capture_error_body (body data : str) : str :=
  body ++ take (Nat.min (Z.to_nat kErrorBodyCapacity - length body) (length data)) data.

Definition kEncodingLimit : nat := 64.

Definition record_encoding (e : EncodingHeaders) (line : str) : EncodingHeaders :=
  if header_name_is line $"content-encoding:" then
    e <| content := take kEncodingLimit (header_value line $"content-encoding:") |>
  else if header_name_is line $"x-goog-stored-content-encoding:" then
    e <| stored_encoding :=
           take kEncodingLimit (header_value line $"x-goog-stored-content-encoding:") |>
  else if header_name_is line $"warning:" then
    let value := header_value line $"warning:" in
    if str_eqb value $"214" || starts_with value $"214 "
    then e <| transformation_warning := true |> else e
  else e.

(** ** Judging an attempt *)

Definition succeeded (t : Transfer) (code : CURLcode) : bool :=
  let transport_ok := curl_ok code || satisfied t in
  if negb transport_ok || (http_status t <? 200) || (300 <=? http_status t) then false
  else if transformed (encoding t) then false
  else if negb (http_status t =? 206) then true
  else if negb (content_range_matches t) then false
  else wrap64 (received t - resumed t)
       =? wrap64 (content_range_end t - content_range_start t + 1).

Definition retryable (t : Transfer) (code : CURLcode) : bool :=
  if transient code (http_status t) then true
  else if str_eqb (t_if_match t) []
          && (version_changed t || ((http_status t =? 412) && negb (str_eqb (resume_etag t) [])))
  then true
  else (http_status t =? 400) && contains (error_body (buffers_of t)) $"RequestTimeout".

Definition kUnreachableAttempts : Z := 3.

Definition unreachable (code : CURLcode) : bool :=
  bool_decide (code = CURLE_COULDNT_RESOLVE_HOST) || bool_decide (code = CURLE_COULDNT_CONNECT).

Section Failures.
Variable curl_easy_strerror : CURLcode -> str.

(** [error[0] != 0 ? error.data() : curl_easy_strerror(code)] *)
Definition curl_message (error : str) (code : CURLcode) : str :=
  if str_eqb error [] then curl_easy_strerror code else error.

Definition failure (t : Transfer) (code : CURLcode) : Failure :=
  let url := redact_url (request_url t) in
  let fail status parts := {| f_status := status; f_detail := concat (Text url :: parts) |} in
  if redirect_blocked t then
    fail KARU_ERR_HTTP [Text $": cross-origin redirect blocked because KARU_HTTP_HEADERS is set"]
  else if is_2xx (http_status t) && transformed (encoding t) then
    {| f_status := KARU_ERR_HTTP; f_detail := transformation_detail url (encoding t) |}
  else if version_changed t && negb (str_eqb (t_if_match t) []) then
    fail KARU_ERR_PRECONDITION
      [Text $": the server ignored If-Match and sent ETag "; Text (response_etag t);
       Text $", so the object no longer matches if_match"]
  else if version_changed t
          || ((http_status t =? 412) && str_eqb (t_if_match t) []
              && negb (str_eqb (resume_etag t) [])) then
    fail KARU_ERR_HTTP
      [Text $": the object changed while an interrupted read was being resumed"]
  else if range_fallback_rejected t then
    fail KARU_ERR_HTTP
      [Text $": server ignored Range; refusing to discard "; Integer (t_offset t);
       Text $" bytes (limit "; Integer (t_range_fallback_limit t); Text $")"]
  else if (http_status t =? 206) && negb (content_range_matches t) then
    let requested_first := wrap64 (t_offset t + resumed t) in
    let requested_end := wrap64 (t_offset t + t_length t - 1) in
    let requested := [Integer requested_first; Text $", "; Integer requested_end; Text $"]"] in
    if negb (content_range_seen t) then
      fail KARU_ERR_HTTP (Text $": missing Content-Range for requested [" :: requested)
    else if negb (content_range_valid t) then
      fail KARU_ERR_HTTP (Text $": malformed Content-Range for requested [" :: requested)
    else
      fail KARU_ERR_HTTP
        (Text $": Content-Range [" :: Integer (content_range_start t) :: Text $", "
         :: Integer (content_range_end t) :: Text $"] does not satisfy requested [" :: requested)
  else if negb (curl_ok code) && is_3xx (http_status t) && follow_redirects (http_of t) then
    fail KARU_ERR_NETWORK [Text $": "; Text (curl_message (error (buffers_of t)) code)]
  else if 300 <=? http_status t then
    let body := summarize (error_body (buffers_of t)) in
    fail (status_for_http (http_status t))
      ([Text $": HTTP "; Integer (http_status t)]
       ++ (if str_eqb body [] then [] else [Text $": "; Text body]))
  else fail KARU_ERR_NETWORK [Text $": "; Text (curl_message (error (buffers_of t)) code)].
End Failures.

Example response_status_example : response_status $"HTTP/1.1 206 Partial Content" = 206.
Proof. reflexivity. Qed.

Example content_range_example :
  parse_content_range $"bytes 10-19/100" (mkContentRange 0 0 0 false)
  = (true, mkContentRange 10 19 100 true).
Proof. reflexivity. Qed.

Example header_value_example :
  header_value ($"ETag:  W/x " ++ ["013"%char; "010"%char]) $"etag:" = $"W/x".
Proof. reflexivity. Qed.

(** ** Lemmas *)

Lemma header_u64_decimal n old : is_u64 n -> parse_u64 (decimal n) old = (true, n).
Proof.
  unfold is_u64, parse_u64. intros Hn. rewrite <-(app_nil_r (decimal n)).
  by rewrite from_chars_decimal by (try lia; done).
Qed.

Lemma header_u64_range text old ok v : parse_u64 text old = (ok, v) -> is_u64 old -> is_u64 v.
Proof.
  unfold parse_u64. destruct (from_chars 0 U64_MAX text) as [[w rest]|] eqn:E; intros [= <- <-] H.
  - apply from_chars_range in E. done.
  - done.
Qed.

Lemma decimal_no_char n c : 0 <= n -> is_digit c = false -> c ∉ decimal n.
Proof. apply decimal_not_char. Qed.

(** The value of a Content-Range header. *)
Definition content_range_text (first last : Z) (total : option Z) : str :=
  $"bytes " ++ decimal first ++ "-"%char :: decimal last ++ "/"%char ::
  match total with Some n => decimal n | None => $"*" end.

Definition range_ok (r : ContentRange) : Prop :=
  is_u64 (cr_first r) /\ is_u64 (cr_last r) /\ is_u64 (cr_total r).

Lemma parse_content_range_ok value r r' ok :
  range_ok r -> parse_content_range value r = (ok, r') ->
  range_ok r' /\
  (ok = true -> cr_first r' <= cr_last r' /\ (cr_have_total r' = true -> cr_last r' < cr_total r')).
Proof.
  intros (H1 & H2 & H3). unfold parse_content_range.
  destruct (starts_with value _); cbn [negb]; [|by intros [= <- <-]].
  set (v := drop _ value). destruct (find_char v "-") as [dash|]; [|by intros [= <- <-]].
  destruct (find_char v "/") as [slash|]; [|by intros [= <- <-]].
  destruct ((dash =? 0)%nat || _); [by intros [= <- <-]|].
  destruct (parse_u64 (substr v 0 dash) _) as [ok1 first] eqn:E1.
  apply header_u64_range in E1; [|done].
  destruct ok1; cbn [negb]; [|by intros [= <- <-]].
  destruct (parse_u64 (substr v (dash + 1) _) _) as [ok2 last] eqn:E2.
  apply header_u64_range in E2; [|done].
  destruct ok2; cbn [negb orb]; [|by intros [= <- <-]].
  destruct (Z.ltb_spec last first); [by intros [= <- <-]|].
  destruct (str_eqb _ $"*") eqn:Es; cbn [negb].
  - intros [= <- <-]. split; [done|]. cbn. by split.
  - destruct (parse_u64 (drop _ v) _) as [ok3 total] eqn:E3.
    apply header_u64_range in E3; [|done].
    destruct ok3; cbn [negb orb]; [|by intros [= <- <-]].
    destruct (Z.eqb_spec total 0); [by intros [= <- <-]|].
    destruct (Z.leb_spec total last); [by intros [= <- <-]|].
    cbn. intros [= <- <-]. split; [done|]. cbn. split; [done|lia].
Qed.

(** What is accepted does not depend on the variables' old values. *)
Lemma parse_u64_old text old old' : (parse_u64 text old).1 = (parse_u64 text old').1 /\
  ((parse_u64 text old).1 = true -> (parse_u64 text old).2 = (parse_u64 text old').2).
Proof. unfold parse_u64. by destruct (from_chars 0 U64_MAX text) as [[v rest]|]. Qed.

Lemma parse_content_range_old value r1 r2 r1' :
  parse_content_range value r1 = (true, r1') ->
  exists r2', parse_content_range value r2 = (true, r2') /\
    cr_first r2' = cr_first r1' /\ cr_last r2' = cr_last r1' /\
    cr_have_total r2' = cr_have_total r1' /\
    (cr_have_total r1' = true -> cr_total r2' = cr_total r1').
Proof.
  destruct r1 as [a1 b1 c1 d1], r2 as [a2 b2 c2 d2].
  unfold parse_content_range. destruct (starts_with value _); cbn [negb]; [|done].
  set (v := drop _ value). destruct (find_char v "-") as [dash|]; [|done].
  destruct (find_char v "/") as [slash|]; [|done]. destruct ((dash =? 0)%nat || _); [done|].
  cbn -[parse_u64 substr str_eqb drop Nat.add Nat.sub Z.leb Z.ltb Z.eqb].
  pose proof (parse_u64_old (substr v 0 dash) a1 a2) as [E1 E1'].
  destruct (parse_u64 _ a1) as [ok1 f], (parse_u64 _ a2) as [ok1' f'].
  cbn [fst snd] in E1, E1'. subst ok1'. destruct ok1; cbn [negb]; [|done]. rewrite <-E1' by done.
  pose proof (parse_u64_old (substr v (dash + 1) (slash - dash - 1)) b1 b2) as [E2 E2'].
  destruct (parse_u64 _ b1) as [ok2 la], (parse_u64 _ b2) as [ok2' la'].
  cbn [fst snd] in E2, E2'. subst ok2'. destruct ok2; cbn [negb orb]; [|done].
  rewrite <-E2' by done. destruct (la <? f); [done|].
  destruct (str_eqb (drop (slash + 1) v) ["*"%char]); cbn [negb].
  - intros [= Ht <-]. rewrite Ht. by eexists.
  - pose proof (parse_u64_old (drop (slash + 1) v) c1 c2) as [E3 E3'].
    destruct (parse_u64 _ c1) as [ok3 n], (parse_u64 _ c2) as [ok3' n'].
    cbn [fst snd] in E3, E3'. subst ok3'. destruct ok3; cbn [negb orb]; [|done].
    rewrite <-E3' by done. destruct (n =? 0); [done|]. destruct (n <=? la); [done|].
    intros [= Ht <-]. rewrite Ht. by eexists.
Qed.

Lemma parse_content_range_text first last total r :
  is_u64 first -> is_u64 last -> match total with Some n => is_u64 n | None => True end ->
  first <= last -> match total with Some n => last < n | None => True end ->
  parse_content_range (content_range_text first last total) r
  = (true, {| cr_first := first; cr_last := last; cr_total := default (cr_total r) total;
              cr_have_total := bool_decide (total <> None) |}).
Proof.
  intros Hf Hl Ht Hle Hlt. unfold is_u64 in *. unfold content_range_text, parse_content_range.
  rewrite starts_with_app. cbn [negb]. rewrite drop_app_length.
  set (tail_ := match total with Some n => decimal n | None => _ end).
  assert (Hdash : forall n, 0 <= n -> "-"%char ∉ decimal n) by (intros; by apply decimal_not_char).
  assert (Hslash : forall n, 0 <= n -> "/"%char ∉ decimal n) by (intros; by apply decimal_not_char).
  rewrite find_char_app by (apply Hdash; lia).
  assert (find_char (decimal first ++ "-"%char :: decimal last ++ "/"%char :: tail_) "/"
          = Some (length (decimal first) + 1 + length (decimal last))%nat) as ->.
  { rewrite app_comm_cons, app_assoc, find_char_app.
    - rewrite length_app. cbn [length]. f_equal. lia.
    - rewrite not_elem_of_app, not_elem_of_cons.
      split_and!; [apply Hslash; lia|done|apply Hslash; lia]. }
  destruct (decimal_spec first ltac:(lia)) as (Hne & _ & _).
  destruct (Nat.eqb_spec (length (decimal first)) 0) as [H0|_].
  { by destruct (decimal first). }
  destruct (Nat.ltb_spec (length (decimal first) + 1 + length (decimal last))
              (length (decimal first))); [lia|]. cbn [orb].
  unfold substr. rewrite drop_0, take_app_length. rewrite header_u64_decimal by done. cbn [negb].
  rewrite <-drop_drop, drop_app_length. cbn [drop]. rewrite drop_0.
  replace (length (decimal first) + 1 + length (decimal last) - length (decimal first) - 1)%nat
    with (length (decimal last)) by lia.
  rewrite take_app_length, header_u64_decimal by done. cbn [negb orb].
  rewrite (proj2 (Z.ltb_ge _ _)) by done.
  replace (length (decimal first) + 1 + length (decimal last) + 1)%nat
    with (length (decimal first) + (1 + (length (decimal last) + 1)))%nat by lia.
  rewrite <-drop_drop, drop_app_length, <-drop_drop. cbn [drop].
  rewrite drop_0, drop_past. subst tail_.
  destruct total as [n|]; cbn [default].
  - destruct (decimal_spec n ltac:(lia)) as (Hn & _ & _).
    assert (str_eqb (decimal n) $"*" = false) as ->.
    { apply not_true_is_false. intros E%str_eqb_eq.
      assert ("*"%char ∉ decimal n) as Hs by (by apply decimal_not_char; [lia|]).
      apply Hs. rewrite E. apply list_elem_of_here. }
    cbn [negb]. rewrite header_u64_decimal by done. cbn [negb orb].
    rewrite (proj2 (Z.eqb_neq _ _)) by lia. rewrite (proj2 (Z.leb_gt _ _)) by lia.
    assert (str_eqb (decimal n) [] = false) as ->; [|done].
    apply not_true_is_false. by intros E%str_eqb_eq.
  - done.
Qed.

Lemma response_status_split proto t :
  " "%char ∉ proto -> no_digit_next t -> forall n, 0 <= n <= I64_MAX ->
  response_status (proto ++ " "%char :: decimal n ++ t) =
  match find_char t " " with
  | Some e => if (e =? 0)%nat then n else 0
  | None => if str_eqb t [] then n else 0
  end.
Proof.
  intros Hp Ht n Hn. unfold response_status. rewrite find_char_app by done.
  destruct (decimal_spec n ltac:(lia)) as (Hne & _ & _).
  assert (Hsp : " "%char ∉ decimal n) by (apply decimal_not_char; [lia|done]).
  assert (find_first_not_of (proto ++ " "%char :: decimal n ++ t) $" " (length proto)
          = Some (length proto + 1)%nat) as ->.
  { unfold find_first_not_of, find_if_from. rewrite drop_app_length.
    destruct (decimal n) as [|d ds]; [done|]. cbn [app find_if].
    change (negb (char_in $" " " ")) with false. cbn [fmap option_fmap option_map].
    assert (char_in $" " d = false) as E.
    { cbn. rewrite orb_false_r. apply Ascii.eqb_neq. intros ->. apply Hsp, list_elem_of_here. }
    rewrite E. cbn. done. }
  unfold find_if_from, substr. rewrite drop_past.
  destruct (find_char t " ") as [e|] eqn:E.
  - apply find_char_Some in E as (l & r & -> & <- & Hl).
    assert (find_if (Ascii.eqb " ") (decimal n ++ l ++ " "%char :: r)
            = Some (length (decimal n ++ l))) as ->.
    { rewrite app_assoc. apply find_char_app. by rewrite not_elem_of_app. }
    cbn [fmap option_fmap option_map].
    replace (length proto + 1 + length (decimal n ++ l) - (length proto + 1))%nat
      with (length (decimal n ++ l)) by lia.
    rewrite (app_assoc (decimal n)), take_app_length. destruct l as [|c l]; cbn [length Nat.eqb].
    + rewrite app_nil_r, from_chars_all_decimal by lia. done.
    + unfold from_chars_all. rewrite from_chars_decimal by (try lia; exact Ht). done.
  - apply find_char_None in E.
    assert (find_if (Ascii.eqb " ") (decimal n ++ t) = None) as ->.
    { apply find_char_None. by rewrite not_elem_of_app. }
    cbn [fmap option_fmap option_map]. destruct t as [|c t].
    + rewrite app_nil_r, from_chars_all_decimal by lia. done.
    + unfold from_chars_all. rewrite from_chars_decimal by (try lia; exact Ht).
      assert (str_eqb (c :: t) [] = false) as ->; [|done].
      apply not_true_is_false. by intros ?%str_eqb_eq.
Qed.

(** ** Properties *)

(** The Content-Range header is read exactly: the text of a range that
    lies in its object is read as that range, with or without the object's
    size, and whatever text is accepted denotes a nonempty 64-bit range that
    ends inside the size it states. *)
Theorem content_range_exact :
  (forall first last total r,
     is_u64 first -> is_u64 last -> match total with Some n => is_u64 n | None => True end ->
     first <= last -> match total with Some n => last < n | None => True end ->
     parse_content_range (content_range_text first last total) r
     = (true, {| cr_first := first; cr_last := last; cr_total := default (cr_total r) total;
                 cr_have_total := bool_decide (total <> None) |})) /\
  (forall value r r', range_ok r -> parse_content_range value r = (true, r') ->
     range_ok r' /\ cr_first r' <= cr_last r' /\
     (cr_have_total r' = true -> cr_last r' < cr_total r')).
Proof.
  split; [intros; by apply parse_content_range_text|].
  intros value r r' Hr H. destruct (parse_content_range_ok _ _ _ _ Hr H) as [? H'].
  split; [done|]. by apply H'.
Qed.

Lemma content_range_exact_witness :
  parse_content_range $"bytes 10-19/100" (mkContentRange 0 0 0 false)
  = (true, mkContentRange 10 19 100 true).
Proof.
  destruct content_range_exact as [H _].
  assert (is_u64 10 /\ is_u64 19 /\ is_u64 100) as (H1 & H2 & H3) by (unfold is_u64; lia).
  exact (H 10 19 (Some 100) (mkContentRange 0 0 0 false) H1 H2 H3 ltac:(lia) ltac:(cbn; lia)).
Defined.

(** A status line is read as its code when a space follows the code;
    when the line ends right after the code, without the space and reason
    phrase, the code reads as 0. *)
Theorem status_line_read proto n reason :
  " "%char ∉ proto -> 0 <= n <= I64_MAX ->
  response_status (proto ++ " "%char :: decimal n ++ " "%char :: reason) = n /\
  response_status (proto ++ " "%char :: decimal n ++ ["013"%char; "010"%char]) = 0.
Proof. intros Hp Hn. split; by rewrite response_status_split. Qed.

Lemma status_line_read_witness :
  response_status ($"HTTP/1.1 302" ++ ["013"%char; "010"%char]) = 0.
Proof.
  assert (" "%char ∉ $"HTTP/1.1") as Hn by by_decide.
  assert (0 <= 302 <= I64_MAX) as H0 by lia.
  exact (proj2 (status_line_read $"HTTP/1.1" 302 [] Hn H0)).
Defined.

(** The wait before a retry is what the server asked for, up to one
    minute, or the exponential backoff of the attempt; jitter adds at most a
    second to the first and at most doubles the second. *)
Theorem retry_delay_bounds attempt retry_after jitter :
  (forall n, 0 <= n -> 0 <= jitter n <= n) ->
  let d := retry_delay attempt retry_after jitter in
  (0 < retry_after -> 1000 * Z.min retry_after 60 <= d <= 1000 * Z.min retry_after 60 + 1000) /\
  (retry_after <= 0 ->
     let base := 100 * 2 ^ Z.max 0 (Z.min attempt 6) in base <= d <= 2 * base) /\
  100 <= d <= 61000.
Proof.
  intros Hj. unfold retry_delay, kMaximumRetryAfterSeconds. cbv zeta.
  rewrite Z.shiftl_mul_pow2 by lia.
  assert (1 <= 2 ^ Z.max 0 (Z.min attempt 6) <= 64).
  { split; [pose proof (Z.pow_pos_nonneg 2 (Z.max 0 (Z.min attempt 6))); lia|].
    change 64 with (2 ^ 6). apply Z.pow_le_mono_r; lia. }
  pose proof (Hj 1000 ltac:(lia)). pose proof (Hj (100 * 2 ^ Z.max 0 (Z.min attempt 6)) ltac:(lia)).
  destruct (Z.ltb_spec 0 (Z.max 0 (Z.min retry_after 60))); lia.
Qed.

Lemma retry_delay_bounds_witness : 100 <= retry_delay 3 0 (fun n => n / 2) <= 61000.
Proof.
  apply (retry_delay_bounds 3 0 (fun n => n / 2)). intros n Hn.
  split; [apply Z.div_pos; lia|apply Z.div_le_upper_bound; lia].
Defined.
