(* ===== verification/Transport.v ===== *)
(** * Transport: the write path of a transfer

    Models [src/src/runtime/transport.cpp]: reset_response, write_callback,
    header_callback, plan_resume, ensure_sink and store_payload.  Memory is a
    function from addresses to bytes; [memcpy] writes a list of bytes.  What
    [curl_easy_getinfo] answers is an argument of the callback.  The theorems
    show that the bytes of an HTTP body, cut into chunks in any way, end at the
    right place of every part's buffer and nowhere else. *)

From S2P Require Import Prelude Text Uri Types Planner Response.

(** ** Memory *)

Definition memory := Z -> ascii.

Definition memcpy (m : memory) (destination : Z) (bytes : str) : memory :=
  fun a =>
    if (destination <=? a) && (a <? destination + Z.of_nat (length bytes))
    then nth (Z.to_nat (a - destination)) bytes "000"%char
    else m a.

(** [source + begin], [size] bytes. *)
Definition slice (data : str) (begin size : Z) : str :=
  take (Z.to_nat size) (drop (Z.to_nat begin) data).

(** ** Definitions *)

Definition kDrainLimit : Z := 256 * 2 ^ 10.

Definition reset_response (t : Transfer) : Transfer :=
  t <| received := resumed t |> <| response_etag := [] |> <| version_changed := false |>
    <| scatter_cursor := 0%nat |> <| skip := 0 |> <| body_length := -1 |> <| consume := 0 |>
    <| satisfied := false |> <| checked_status := false |> <| http_status := 0 |>
    <| redirect_blocked := false |> <| content_range_seen := false |>
    <| content_range_valid := false |> <| content_range_matches := false |>
    <| content_range_start := 0 |> <| content_range_end := 0 |> <| content_range_total := 0 |>
    <| content_range_has_total := false |> <| range_fallback_rejected := false |>
    <| encoding := EncodingHeaders_default |> <| response_region := [] |> <| retry_after := 0 |>
    <| http_buffers := (fun b => b <| error_body := [] |>) <$> http_buffers t |>
    <| error_body_received := 0 |>.

(** The loop that advances [scatter_cursor] past finished parts. *)
Fixpoint advance_cursor (ps : list Part) (chunk_begin : Z) : nat :=
  match ps with
  | [] => 0
  | part :: ps =>
      if chunk_begin <? relative_offset part + p_length part then 0
      else S (advance_cursor ps chunk_begin)
  end.

(** The loop over the parts from the cursor. *)
Fixpoint scatter (ps : list Part) (chunk_begin chunk_end : Z) (source : str) (m : memory) : memory :=
  match ps with
  | [] => m
  | part :: ps =>
      let part_begin := relative_offset part in
      if chunk_end <=? part_begin then m
      else
        let part_end := part_begin + p_length part in
        let begin := Z.max chunk_begin part_begin in
        let end_ := Z.min chunk_end part_end in
        if end_ <=? begin then scatter ps chunk_begin chunk_end source m
        else
          scatter ps chunk_begin chunk_end source
            (memcpy m (p_buffer part + (begin - part_begin))
               (slice source (begin - chunk_begin) (end_ - begin)))
  end.

(** [store_payload(transfer, data, size)] with [size] the length of [data]. *)
Definition store_payload (t : Transfer) (m : memory) (data : str) : Transfer * memory :=
  let chunk_begin := received t in
  let chunk_end := wrap64 (chunk_begin + Z.of_nat (length data)) in
  if negb (scattered t) then
    (t <| received := chunk_end |>, memcpy m (sink t + chunk_begin) data)
  else
    let cursor := (scatter_cursor t + advance_cursor (drop (scatter_cursor t) (parts t)) chunk_begin)%nat in
    (t <| scatter_cursor := cursor |> <| received := chunk_end |>,
     scatter (drop cursor (parts t)) chunk_begin chunk_end data m).

(** The first call for a body: whether to go on, and the transfer. *)
Definition begin_body (t : Transfer) (response_code content_length : Z) : bool * Transfer :=
  let t := t <| checked_status := true |> <| http_status := response_code |> in
  if is_2xx (http_status t) && transformed (encoding t) then (false, t)
  else if is_2xx (http_status t) && contradicts_pin t then (false, t <| version_changed := true |>)
  else if (http_status t =? 206) && negb (valid_content_range t) then (false, t)
  else
    let t := if (http_status t =? 200) && (0 <? resumed t)
             then t <| resumed := 0 |> <| received := 0 |> else t in
    let first := wrap64 (t_offset t + resumed t) in
    if (http_status t =? 200) && (0 <? first) && (t_range_fallback_limit t <? first)
    then (false, t <| range_fallback_rejected := true |>)
    else
      let t := if (http_status t =? 200) && (0 <? first) then t <| skip := first |> else t in
      let t := t <| body_length := content_length |> in
      let wanted := wrap64 (t_length t - resumed t) in
      (true, t <| consume := if U64_MAX - wanted <? skip t then U64_MAX else skip t + wanted |>).

(** What one call of [write_callback] returns, leaves and counts. *)
Record WriteResult := { ret : Z; w_transfer : Transfer; w_memory : memory; counted : Z }.

(** The last step: whether the rest of the body is worth reading. *)
Definition drains (t : Transfer) (everything_taken : bool) : bool :=
  let excess :=
    if 0 <=? body_length t then
      (if consume t <? body_length t then body_length t - consume t else 0)
    else if everything_taken && negb (http_status t =? 200) then 0
    else U64_MAX in
  excess <=? kDrainLimit.

(** The payload part of [write_callback] (after the error branches). *)
Definition write_payload (t : Transfer) (m : memory) (data : str) (incoming : Z)
    : Z * Transfer * memory :=
  let remaining := Z.of_nat (length data) in
  let drop_ := if 0 <? skip t then Z.min (skip t) remaining else 0 in
  let data := drop (Z.to_nat drop_) data in
  let remaining := remaining - drop_ in
  let t := t <| skip := skip t - drop_ |> in
  if remaining =? 0 then (incoming, t, m)
  else
    let room := wrap64 (t_length t - received t) in
    let take_ := Z.min room remaining in
    let '(t, m) := if 0 <? take_ then store_payload t m (take (Z.to_nat take_) data) else (t, m) in
    if received t =? t_length t then
      let t := t <| satisfied := true |> in
      if drains t (take_ =? remaining) then (incoming, t, m) else (0, t, m)
    else (incoming, t, m).

(** [data] holds the [size * count] bytes libcurl hands over;
    [response_code] and [content_length] are what [curl_easy_getinfo] says. *)
Definition write_callback (t : Transfer) (m : memory) (data : str) (size count : Z)
    (response_code content_length : Z) : WriteResult :=
  match callback_size size count with
  | None => {| ret := 0; w_transfer := t; w_memory := m; counted := 0 |}
  | Some incoming =>
      if satisfied t then {| ret := incoming; w_transfer := t; w_memory := m; counted := incoming |}
      else
        let '(go_on, t) := if negb (checked_status t) then begin_body t response_code content_length
                           else (true, t) in
        if negb go_on then {| ret := 0; w_transfer := t; w_memory := m; counted := 0 |}
        else
          let counted := if is_2xx (http_status t) then incoming else 0 in
          if is_3xx (http_status t) && follow_redirects (http_of t)
          then {| ret := incoming; w_transfer := t; w_memory := m; counted := counted |}
          else if 300 <=? http_status t then
            let b := buffers_of t in
            let t := t <| http_buffers := Some (b <| error_body := capture_error_body (error_body b) data |>) |> in
            if kDrainLimit - Z.min kDrainLimit (error_body_received t) <? incoming
            then {| ret := 0; w_transfer := t; w_memory := m; counted := counted |}
            else {| ret := incoming;
                    w_transfer := t <| error_body_received := error_body_received t + incoming |>;
                    w_memory := m; counted := counted |}
          else
            let '(ret, t, m) := write_payload t m data incoming in
            {| ret := ret; w_transfer := t; w_memory := m; counted := counted |}
  end.

Section Headers.
Variable curl_getdate : str -> Z.
Variable url_parts : str -> option (str * str * str).
Variable follow_parts : str -> str -> option (str * str * str).

(** [header_callback] on one line, at time [now]. *)
Definition header_callback (t : Transfer) (line : str) (size count now : Z) : Z * Transfer :=
  match callback_size size count with
  | None => (0, t)
  | Some bytes =>
      if starts_with line $"HTTP/" then
        let t := reset_response t in (bytes, t <| http_status := response_status line |>)
      else if header_name_is line $"location:" && is_3xx (http_status t)
              && follow_redirects (http_of t) && same_origin_redirects_only (http_of t)
              && negb (same_origin_redirect url_parts follow_parts (request_url t)
                         (header_value line $"location:"))
      then (0, t <| redirect_blocked := true |>)
      else if header_name_is line $"content-range:" then
        let '(ok, r) := parse_content_range (header_value line $"content-range:")
                          {| cr_first := content_range_start t; cr_last := content_range_end t;
                             cr_total := content_range_total t;
                             cr_have_total := content_range_has_total t |} in
        let t := t <| content_range_seen := true |> <| content_range_valid := ok |>
                   <| content_range_start := cr_first r |> <| content_range_end := cr_last r |>
                   <| content_range_total := cr_total r |>
                   <| content_range_has_total := cr_have_total r |> in
        (bytes, if ok then t <| content_range_matches := valid_content_range t |> else t)
      else if header_name_is line $"x-amz-bucket-region:" then
        (bytes, t <| response_region := header_value line $"x-amz-bucket-region:" |>)
      else if header_name_is line $"retry-after:" then
        (bytes, t <| retry_after :=
                       retry_after_seconds curl_getdate (header_value line $"retry-after:") now |>)
      else if header_name_is line $"etag:" then
        let value := header_value line $"etag:" in
        (bytes, if (length value <=? 255)%nat && is_strong_etag value
                then t <| response_etag := value |> else t)
      else (bytes, t <| encoding := record_encoding (encoding t) line |>)
  end.
End Headers.

Definition plan_resume (t : Transfer) : Transfer :=
  if negb (str_eqb (t_if_match t) []) && negb (is_strong_etag (t_if_match t)) then
    t <| resumed := 0 |> <| resume_etag := [] |>
  else if version_changed t || ((http_status t =? 412) && str_eqb (t_if_match t) []) then
    t <| resumed := 0 |> <| resume_etag := [] |>
  else
    let data := (http_status t =? 200) || (http_status t =? 206) in
    if negb data || (received t <=? resumed t) || (t_length t <=? received t) then t
    else if str_eqb (t_if_match t) [] && str_eqb (resume_etag t) [] then
      (if str_eqb (response_etag t) [] then t <| resumed := 0 |>
       else t <| resume_etag := response_etag t |> <| resumed := received t |>)
    else t <| resumed := received t |>.

(** [ensure_sink]: whether it succeeds, the transfer, and the allocator;
    [scratch.resize] takes the next answer of the allocator. *)
Definition ensure_sink (heap : list Z) (t : Transfer) : bool * Transfer * list Z :=
  if negb (sink t =? 0) then (true, t, heap)
  else if negb (scattered t) then
    (true, t <| sink := match parts t with p :: _ => p_buffer p | [] => 0 end |>, heap)
  else if negb (bool_decide (backend (t_locator t) = File)) then (true, t, heap)
  else if SIZE_MAX <? t_length t then (false, t, heap)
  else
    match heap with
    | p :: heap => if p =? 0 then (false, t, heap)
                   else (true, t <| scratch := Some p |> <| sink := p |>, heap)
    | [] => (false, t, [])
    end.

(** ** Memory lemmas *)

Lemma memcpy_in m d bytes i :
  0 <= i < Z.of_nat (length bytes) -> memcpy m d bytes (d + i) = nth (Z.to_nat i) bytes "000"%char.
Proof.
  intros Hi. unfold memcpy. rewrite (proj2 (Z.leb_le _ _)), (proj2 (Z.ltb_lt _ _)) by lia.
  cbn [andb]. do 2 f_equal. lia.
Qed.

Lemma memcpy_out m d bytes a :
  a < d \/ d + Z.of_nat (length bytes) <= a -> memcpy m d bytes a = m a.
Proof.
  intros Ha. unfold memcpy. destruct (Z.leb_spec d a); [|done].
  destruct (Z.ltb_spec a (d + Z.of_nat (length bytes))); [lia|done].
Qed.

Lemma slice_length data begin size :
  0 <= begin -> 0 <= size -> begin + size <= Z.of_nat (length data) ->
  Z.of_nat (length (slice data begin size)) = size.
Proof. intros. unfold slice. rewrite length_take, length_drop. lia. Qed.

Lemma slice_nth data begin size i :
  0 <= begin -> 0 <= i < size ->
  nth (Z.to_nat i) (slice data begin size) "000"%char
  = nth (Z.to_nat (begin + i)) data "000"%char.
Proof.
  intros. unfold slice. rewrite !nth_lookup, lookup_take_lt by lia. rewrite lookup_drop.
  do 2 f_equal. lia.
Qed.

(** ** Scattering one chunk *)

Definition in_buffer (p : Part) (a : Z) : Prop := p_buffer p <= a < p_buffer p + p_length p.

Definition apart (p q : Part) : Prop :=
  p_buffer p + p_length p <= p_buffer q \/ p_buffer q + p_length q <= p_buffer p.

Lemma apart_not_in p q a : apart p q -> in_buffer p a -> ~ in_buffer q a.
Proof. unfold apart, in_buffer. lia. Qed.

Lemma scatter_outside ps cb ce source m a :
  ce - cb = Z.of_nat (length source) -> Forall (fun p => ~ in_buffer p a) ps ->
  scatter ps cb ce source m a = m a.
Proof.
  intros Hlen Hps. revert m. induction Hps as [|p ps Hp Hps IH]; intros m; cbn [scatter]; [done|].
  destruct (Z.leb_spec ce (relative_offset p)); [done|].
  destruct (Z.leb_spec (Z.min ce (relative_offset p + p_length p))
              (Z.max cb (relative_offset p))); [apply IH|].
  rewrite IH. apply memcpy_out. rewrite slice_length by lia. unfold in_buffer in Hp. lia.
Qed.

Definition by_offset (p q : Part) : Prop := relative_offset p <= relative_offset q.

Lemma scatter_inside ps cb ce source m p i :
  ce - cb = Z.of_nat (length source) -> StronglySorted by_offset ps -> StronglySorted apart ps ->
  p ∈ ps -> 0 <= i < p_length p ->
  let x := relative_offset p + i in
  scatter ps cb ce source m (p_buffer p + i) =
  if (cb <=? x) && (x <? ce) then nth (Z.to_nat (x - cb)) source "000"%char
  else m (p_buffer p + i).
Proof.
  intros Hlen Hs Ha Hp Hi x. revert m. induction ps as [|q ps IH]; [by apply not_elem_of_nil in Hp|].
  apply StronglySorted_inv in Hs as [Hs Hqs], Ha as [Ha Hqa].
  intros m. cbn [scatter]. rewrite Forall_forall in Hqs.
  assert (Hrel : relative_offset q <= relative_offset p).
  { apply elem_of_cons in Hp as [->|Hp]; [lia|]. exact (Hqs p Hp). }
  destruct (Z.leb_spec ce (relative_offset q)) as [Hce|Hce].
  { destruct (Z.ltb_spec x ce); [lia|]. by rewrite andb_false_r. }
  apply elem_of_cons in Hp as [->|Hp].
  - assert (Hrest : forall m', scatter ps cb ce source m' (p_buffer q + i) = m' (p_buffer q + i)).
    { intros m'. apply scatter_outside; [done|]. eapply Forall_impl; [exact Hqa|].
      intros r Hr. apply (apart_not_in q r); [done|]. unfold in_buffer. lia. }
    destruct (Z.leb_spec (Z.min ce (relative_offset q + p_length q))
                (Z.max cb (relative_offset q))) as [He|He]; rewrite Hrest.
    + destruct (Z.leb_spec cb x); destruct (Z.ltb_spec x ce); cbn [andb]; try done. lia.
    + destruct (Z.leb_spec cb x); destruct (Z.ltb_spec x ce); cbn [andb].
      2-4: apply memcpy_out; rewrite slice_length by lia; lia.
      replace (p_buffer q + i) with
        (p_buffer q + (Z.max cb (relative_offset q) - relative_offset q)
         + (x - Z.max cb (relative_offset q))) by lia.
      rewrite memcpy_in by (rewrite slice_length by lia; lia).
      rewrite slice_nth by lia. do 2 f_equal. lia.
  - destruct (Z.leb_spec (Z.min ce (relative_offset q + p_length q))
                (Z.max cb (relative_offset q))) as [He|He]; [by apply IH|].
    rewrite IH by done. destruct ((cb <=? x) && (x <? ce)); [done|].
    apply memcpy_out. rewrite slice_length by lia.
    rewrite Forall_forall in Hqa. specialize (Hqa p Hp). unfold apart in Hqa. lia.
Qed.

Lemma advance_cursor_done ps cb :
  Forall (fun p => part_end p <= cb) (take (advance_cursor ps cb) ps).
Proof.
  induction ps as [|p ps IH]; cbn [advance_cursor]; [constructor|].
  destruct (Z.ltb_spec cb (relative_offset p + p_length p)); cbn; constructor; [|done].
  unfold part_end. lia.
Qed.

(** ** The state of a transfer that receives a body *)

(** What every object byte at an absolute position is. *)
Definition object_bytes := Z -> ascii.

(** The bytes received so far are where the requests want them. *)
Definition delivered (obj : object_bytes) (t : Transfer) (m : memory) : Prop :=
  forall p i, p ∈ parts t -> 0 <= i < p_length p -> relative_offset p + i < received t ->
    m (p_buffer p + i) = obj (t_offset t + relative_offset p + i).

(** Nothing outside the parts' buffers changed. *)
Definition frame (t : Transfer) (m m' : memory) : Prop :=
  forall a, Forall (fun p => ~ in_buffer p a) (parts t) -> m' a = m a.

Lemma frame_refl t m : frame t m m.
Proof. by intros a _. Qed.

(** A planned transfer whose destinations do not overlap, with its sink set. *)
Record ready (t : Transfer) : Prop := {
  r_shape : well_shaped t;
  r_apart : StronglySorted apart (parts t);
  r_sink : scattered t = false -> exists p, parts t = [p] /\ sink t = p_buffer p;
}.

Record writable (t : Transfer) : Prop := {
  w_ready : ready t;
  w_cursor : Forall (fun p => part_end p <= received t) (take (scatter_cursor t) (parts t));
  w_resumed : 0 <= resumed t <= received t;
  w_received : received t <= t_length t;
  w_partial : resumed t < t_length t;
}.

(** The same transfer, further along in its body. *)
Definition keeps_parts (t t' : Transfer) : Prop :=
  parts t' = parts t /\ t_offset t' = t_offset t /\ t_length t' = t_length t /\
  scattered t' = scattered t /\ sink t' = sink t.

Lemma keeps_parts_ready t t' : keeps_parts t t' -> ready t -> ready t'.
Proof.
  intros (H1 & H2 & H3 & H4 & H5) [Hs Ha Hk]. constructor; unfold well_shaped in *;
    by rewrite ?H1, ?H2, ?H3, ?H4, ?H5.
Qed.

Lemma single_part t p :
  well_shaped t -> parts t = [p] -> relative_offset p = 0 /\ p_length p = t_length t.
Proof.
  intros (_ & (q & tl & Hq & H0) & _ & (r & Hr & Hend) & _) Hp. rewrite Hp in *.
  injection Hq as <- _. apply list_elem_of_singleton in Hr as ->. unfold part_end in Hend. lia.
Qed.

(** The data continue the body: they are what the object holds next. *)
Definition continues (obj : object_bytes) (t : Transfer) (data : str) : Prop :=
  received t + Z.of_nat (length data) <= t_length t /\
  forall i, 0 <= i < Z.of_nat (length data) ->
    nth (Z.to_nat i) data "000"%char = obj (t_offset t + received t + i).

(** What storing the next data leaves: the transfer is as far along as they
    are long, and they are where the requests want them. *)
Definition stores (obj : object_bytes) (t : Transfer) (m : memory) (data : str) (t' : Transfer) (m' : memory) :=
  t' = t <| scatter_cursor := scatter_cursor t' |>
         <| received := received t + Z.of_nat (length data) |> /\
  writable t' /\ delivered obj t' m' /\ frame t m m'.

Lemma writable_advance t cursor n :
  writable t -> 0 <= n -> received t + n <= t_length t ->
  Forall (fun p => part_end p <= received t) (take cursor (parts t)) ->
  writable (t <| scatter_cursor := cursor |> <| received := received t + n |>).
Proof.
  intros [Hready _ Hres Hrec Hpart] Hn Hlen Hc.
  constructor; [apply (keeps_parts_ready t); [by repeat split|done]| | | |done]; cbn; [|lia|lia].
  eapply Forall_impl; [exact Hc|]. cbn. lia.
Qed.

(** The scattered form: the cursor passes the parts that are complete, and the
    data go to the parts behind it. *)
Lemma store_scattered obj t m data :
  writable t -> delivered obj t m -> continues obj t data -> scattered t = true ->
  let '(t', m') := store_payload t m data in stores obj t m data t' m'.
Proof.
  intros Hw Hd [Hlen Hdata] Esc. pose proof Hw as [[Hs Ha Hk] Hc _ _ _].
  pose proof Hs as (Hsort & _ & _ & _ & Ho & Hl & Hmax & _).
  unfold store_payload, stores. set (n := Z.of_nat (length data)) in *. assert (0 <= n) by (unfold n; lia).
  rewrite wrap64_small by (unfold is_u64; pose proof (w_resumed _ Hw); lia). rewrite Esc. cbn [negb].
  set (cursor := (scatter_cursor t + _)%nat).
  assert (Hcur : Forall (fun p => part_end p <= received t) (take cursor (parts t))).
  { subst cursor. rewrite <-take_take_drop. apply Forall_app. split; [done|apply advance_cursor_done]. }
  assert (Hsplit : parts t = take cursor (parts t) ++ drop cursor (parts t)) by by rewrite take_drop.
  split_and!; [done|by apply writable_advance| |].
  - intros p i Hp Hi Hx. cbn in Hp, Hx |- *. rewrite Hsplit in Hp. rewrite Hsplit in Hsort, Ha.
    assert (Hfrom : forall q, q ∈ take cursor (parts t) -> forall j, 0 <= j < p_length q ->
      scatter (drop cursor (parts t)) (received t) (received t + n) data m (p_buffer q + j)
      = m (p_buffer q + j)).
    { intros q Hq j Hj. apply scatter_outside; [lia|]. rewrite Forall_forall. intros r Hr.
      apply (apart_not_in q r); [|unfold in_buffer; lia]. by eapply StronglySorted_app_1_elem_of. }
    apply elem_of_app in Hp as [Hp|Hp].
    + rewrite Hfrom by done. rewrite Forall_forall in Hcur. specialize (Hcur p Hp).
      unfold part_end in Hcur. apply Hd; [|done|lia]. rewrite Hsplit. apply elem_of_app. by left.
    + rewrite scatter_inside; [|lia| | |done|done].
      * destruct (Z.leb_spec (received t) (relative_offset p + i)); cbn [andb].
        -- rewrite (proj2 (Z.ltb_lt _ _)) by lia. rewrite Hdata by lia. f_equal. lia.
        -- apply Hd; [|done|lia]. rewrite Hsplit. apply elem_of_app. by right.
      * exact (StronglySorted_app_1_r _ _ _ Hsort).
      * exact (StronglySorted_app_1_r _ _ _ Ha).
  - intros a Hout. cbn. apply scatter_outside; [lia|].
    rewrite Hsplit in Hout. by apply Forall_app in Hout as [_ ?].
Qed.

(** The sink of a single part is filled from its start. *)
Lemma store_single obj t m data :
  writable t -> delivered obj t m -> continues obj t data -> scattered t = false ->
  let '(t', m') := store_payload t m data in stores obj t m data t' m'.
Proof.
  intros Hw Hd [Hlen Hdata] Esc. pose proof Hw as [[Hs Ha Hk] Hc _ _ _].
  pose proof Hs as (_ & _ & _ & _ & Ho & Hl & Hmax & _). pose proof (w_resumed _ Hw) as Hres.
  unfold store_payload, stores. set (n := Z.of_nat (length data)) in *. assert (0 <= n) by (unfold n; lia).
  rewrite wrap64_small by (unfold is_u64; lia). rewrite Esc. cbn [negb].
  destruct (Hk Esc) as (p & Hp & Hsink). destruct (single_part _ _ Hs Hp) as [H0 H1].
  split_and!; [done|by apply writable_advance| |].
  - intros q i Hq Hi Hx. cbn in Hq, Hx |- *. rewrite Hp in Hq.
    apply list_elem_of_singleton in Hq as ->. rewrite Hsink, H0 in *.
    destruct (Z.lt_ge_cases i (received t)).
    + rewrite memcpy_out by lia. pose proof (Hd p i) as Hd'. rewrite H0 in Hd'.
      apply Hd'; [rewrite Hp; by apply list_elem_of_singleton|done|lia].
    + replace (p_buffer p + i) with (p_buffer p + received t + (i - received t)) by lia.
      rewrite memcpy_in by lia. rewrite Hdata by lia. f_equal. lia.
  - intros a Hout. cbn. rewrite Hp in Hout. rewrite Forall_singleton in Hout.
    apply memcpy_out. unfold in_buffer in Hout. rewrite Hsink. fold n. lia.
Qed.

Lemma store_payload_spec obj t m data :
  writable t -> delivered obj t m -> continues obj t data ->
  let '(t', m') := store_payload t m data in stores obj t m data t' m'.
Proof. intros Hw Hd Hb. destruct (scattered t) eqn:E; [by apply store_scattered|by apply store_single]. Qed.

(** ** One call of [write_callback] *)

(** [data] is what the object holds from position [pos] on. *)
Definition body_at (obj : object_bytes) (pos : Z) (data : str) : Prop :=
  forall i, 0 <= i < Z.of_nat (length data) -> nth (Z.to_nat i) data "000"%char = obj (pos + i).

Lemma body_at_drop obj pos data n :
  0 <= n -> body_at obj pos data -> body_at obj (pos + n) (drop (Z.to_nat n) data).
Proof.
  intros Hn H i Hi. rewrite length_drop in Hi. rewrite nth_lookup, lookup_drop, <-nth_lookup.
  rewrite <-Z.add_assoc, <-H by lia. f_equal. lia.
Qed.

Lemma body_at_take obj pos data n : body_at obj pos data -> body_at obj pos (take n data).
Proof.
  intros H i Hi. rewrite length_take in Hi.
  rewrite nth_lookup, lookup_take_lt, <-nth_lookup by lia. apply H. lia.
Qed.

(** The next body byte stands at position [pos] of the object. *)
Record streaming (obj : object_bytes) (t : Transfer) (m : memory) (pos : Z) : Prop := {
  s_writable : writable t;
  s_delivered : delivered obj t m;
  s_checked : checked_status t = true;
  s_status : http_status t = 200 \/ http_status t = 206;
  s_skip : 0 <= skip t;
  s_position : if satisfied t then received t = t_length t
               else t_offset t + received t = pos + skip t;
}.

Lemma writable_same t t' :
  keeps_parts t t' -> received t' = received t -> resumed t' = resumed t ->
  scatter_cursor t' = scatter_cursor t -> writable t -> writable t'.
Proof.
  intros Hk H1 H2 H3 [Hr Hc Hres Hrec Hp]. pose proof Hk as (K1 & _ & K3 & _).
  constructor; rewrite ?H1, ?H2, ?H3, ?K1, ?K3; try done.
  by apply (keeps_parts_ready t).
Qed.

Lemma delivered_same obj t t' m :
  keeps_parts t t' -> received t' = received t -> delivered obj t m -> delivered obj t' m.
Proof.
  intros (K1 & K2 & _) H Hd p i. rewrite K1, K2, H. apply Hd.
Qed.

(** The last part of [write_payload]: what the transfer has room for is stored. *)
Lemma store_some obj t m data tk :
  writable t -> delivered obj t m -> 0 <= tk <= t_length t - received t -> Z.of_nat (length data) = tk ->
  body_at obj (t_offset t + received t) data ->
  let '(t', m') := if 0 <? tk then store_payload t m data else (t, m) in stores obj t m data t' m'.
Proof.
  intros Hw Hd Htk Hlen Hbody. destruct (Z.ltb_spec 0 tk).
  - apply store_payload_spec; [done|done|]. split; [lia|exact Hbody].
  - unfold stores. assert (Z.of_nat (length data) = 0) as -> by lia. split_and!; [|done|done|apply frame_refl].
    rewrite Z.add_0_r. by destruct t.
Qed.

Lemma write_payload_spec obj t m data pos :
  streaming obj t m pos -> satisfied t = false -> body_at obj pos data ->
  let n := Z.of_nat (length data) in
  let '(r, t', m') := write_payload t m data n in
  (r = n \/ r = 0 /\ received t' = t_length t') /\ streaming obj t' m' (pos + n) /\
  frame t m m' /\ keeps_parts t t' /\ received t <= received t'.
Proof.
  intros [Hw Hd Hck Hst Hsk Hpos] Hsat Hdata n. rewrite Hsat in Hpos.
  pose proof Hw as [Hready _ Hres Hrec Hpart].
  pose proof Hready as [(_ & _ & _ & _ & Ho & Hl & Hmax & _) _ _].
  unfold write_payload. fold n. assert (Hn : 0 <= n) by (subst n; lia).
  set (d := if 0 <? skip t then Z.min (skip t) n else 0).
  assert (Hdd : d = Z.min (skip t) n) by (subst d; destruct (Z.ltb_spec 0 (skip t)); lia).
  clearbody d. set (t1 := t <| skip := skip t - d |>).
  assert (Hk1 : keeps_parts t t1) by by repeat split.
  assert (Hw1 : writable t1) by by apply (writable_same t).
  assert (Hd1 : delivered obj t1 m) by by apply (delivered_same obj t).
  assert (Hrec1 : received t1 = received t) by done.
  assert (Hskip1 : skip t1 = skip t - d) by done.
  assert (Hsat1 : satisfied t1 = false) by done.
  assert (Hck1 : checked_status t1 = true) by done.
  assert (Hst1 : http_status t1 = 200 \/ http_status t1 = 206) by done.
  clearbody t1. destruct Hk1 as (K1 & K2 & K3 & K4 & K5).
  destruct (Z.eqb_spec (n - d) 0) as [E|E].
  { split_and!; [by left| |apply frame_refl|done|lia].
    constructor; [done|done|done|done|lia|]. rewrite Hsat1. lia. }
  rewrite K3, Hrec1, wrap64_small by (unfold is_u64; lia).
  set (tk := Z.min (t_length t - received t) (n - d)).
  set (data1 := take (Z.to_nat tk) (drop (Z.to_nat d) data)).
  assert (Hlen1 : Z.of_nat (length data1) = tk).
  { subst data1. rewrite length_take, length_drop. lia. }
  assert (Hbody1 : body_at obj (t_offset t1 + received t1) data1).
  { subst data1. apply body_at_take. replace (t_offset t1 + received t1) with (pos + d) by lia.
    by apply body_at_drop; [lia|]. }
  pose proof (store_some obj t1 m data1 tk Hw1 Hd1 ltac:(lia) Hlen1 Hbody1) as Hs.
  destruct (if 0 <? tk then _ else _) as [t2 m2]. destruct Hs as (E2 & Hw2 & Hd2 & Hf2).
  rewrite Hlen1, Hrec1 in E2.
  assert (Hk2 : keeps_parts t t2) by (rewrite E2; by repeat split).
  assert (Hrec2 : received t2 = received t + tk) by by rewrite E2.
  assert (Hskip2 : skip t2 = skip t - d) by by rewrite E2.
  assert (Hsat2 : satisfied t2 = false) by by rewrite E2.
  assert (Hck2 : checked_status t2 = true) by by rewrite E2.
  assert (Hst2 : http_status t2 = 200 \/ http_status t2 = 206) by by rewrite E2.
  clear E2. assert (Hf : frame t m m2) by (intros a Ha; apply Hf2; by rewrite K1).
  pose proof Hk2 as (L1 & L2 & L3 & L4 & L5).
  destruct (Z.eqb_spec (received t2) (t_length t2)) as [Efull|Efull].
  - set (t3 := t2 <| satisfied := true |>).
    assert (Hs3 : streaming obj t3 m2 (pos + n)).
    { constructor; [by apply (writable_same t2)|by apply (delivered_same obj t2)|done|done|
        change (skip t3) with (skip t2); lia|done]. }
    assert (Hk3 : keeps_parts t t3) by done.
    destruct (drains t3 _); split_and!; try done; [by left| |by right|].
    all: change (received t3) with (received t2); lia.
  - split_and!; [by left| |done|done|lia].
    constructor; [done|done|done|done|lia|]. rewrite Hsat2. lia.
Qed.

(** Where the body of a response starts in the object: a 206 body at its
    Content-Range, a 200 body at byte 0. *)
Definition body_start (t : Transfer) (response_code : Z) : Z :=
  if response_code =? 206 then content_range_start t else 0.

(** A transfer between [reset_response] and the first byte of its body. *)
Record attempt_begins (obj : object_bytes) (t : Transfer) (m : memory) : Prop := {
  a_writable : writable t;
  a_delivered : delivered obj t m;
  a_received : received t = resumed t;
  a_skip : skip t = 0;
  a_satisfied : satisfied t = false;
  a_checked : checked_status t = false;
  a_cursor : scatter_cursor t = 0%nat;
}.

Lemma streaming_start obj t t' m start :
  ready t -> keeps_parts t t' -> received t' = resumed t' -> 0 <= resumed t' < t_length t ->
  scatter_cursor t' = 0%nat -> checked_status t' = true ->
  (http_status t' = 200 \/ http_status t' = 206) -> satisfied t' = false -> 0 <= skip t' ->
  t_offset t + received t' = start + skip t' -> delivered obj t' m ->
  streaming obj t' m start.
Proof.
  intros Hready Hk Hrec Hres Hcur Hck Hst Hsat Hskip Hpos Hd.
  pose proof Hk as (K1 & K2 & K3 & _). constructor; try done.
  - constructor; [by apply (keeps_parts_ready t)|by rewrite Hcur|lia..].
  - rewrite Hsat. lia.
Qed.

Lemma delivered_nothing obj t m : well_shaped t -> received t = 0 -> delivered obj t m.
Proof.
  intros (_ & _ & Hin & _) Hr p i Hp Hi Hx. rewrite Forall_forall in Hin. specialize (Hin p Hp). lia.
Qed.

Lemma begin_body_spec obj t m code clen :
  attempt_begins obj t m -> code = 200 \/ code = 206 ->
  let '(go_on, t') := begin_body t code clen in
  keeps_parts t t' /\ received t' <= t_length t' /\ satisfied t' = false /\ delivered obj t' m /\
  (go_on = true -> streaming obj t' m (body_start t code)).
Proof.
  intros [Hw Hd Hrec Hskip Hsat Hck Hcursor] Hcode.
  pose proof Hw as [Hready _ Hres Hr Hpart].
  pose proof Hready as [Hshape _ _]. pose proof Hshape as (_ & _ & _ & _ & Ho & Hl & Hmax & _).
  unfold begin_body. set (t1 := t <| checked_status := true |> <| http_status := code |>).
  change (http_status t1) with code. change (resumed t1) with (resumed t).
  destruct (is_2xx code && transformed (encoding t1)); [done|].
  destruct (is_2xx code && contradicts_pin t1); [done|].
  unfold body_start. destruct Hcode as [-> | ->]; cbn [Z.eqb Pos.eqb andb].
  - set (t2 := if 0 <? resumed t then t1 <| resumed := 0 |> <| received := 0 |> else t1).
    assert (H2 : keeps_parts t t2 /\ received t2 = 0 /\ resumed t2 = 0 /\ satisfied t2 = false /\
                 checked_status t2 = true /\ http_status t2 = 200 /\ skip t2 = 0 /\
                 scatter_cursor t2 = 0%nat).
    { subst t2. destruct (Z.ltb_spec 0 (resumed t)); [done|]. split_and!; try done; cbn; lia. }
    clearbody t2. destruct H2 as (Hk2 & Hr2 & Hs2 & Hsat2 & Hck2 & Hst2 & Hskip2 & Hcur2).
    pose proof Hk2 as (K1 & K2 & K3 & _). rewrite K2, Hs2, Z.add_0_r, Hst2.
    rewrite wrap64_small by (unfold is_u64; lia). cbn [Z.eqb Pos.eqb andb].
    assert (Hd2 : delivered obj t2 m).
    { apply delivered_nothing; [|done]. by apply (keeps_parts_ready t). }
    destruct ((0 <? t_offset t) && _).
    { split_and!; [done|change (received t2 <= t_length t2); lia|done|
        by apply (delivered_same obj t2)|done]. }
    set (t3 := if 0 <? t_offset t then t2 <| skip := t_offset t |> else t2).
    assert (H3 : keeps_parts t t3 /\ received t3 = 0 /\ resumed t3 = 0 /\ satisfied t3 = false /\
                 checked_status t3 = true /\ http_status t3 = 200 /\ scatter_cursor t3 = 0%nat /\
                 skip t3 = t_offset t).
    { subst t3. destruct (Z.ltb_spec 0 (t_offset t)); [done|]. split_and!; try done. lia. }
    clearbody t3. destruct H3 as (Hk3 & Hr3 & Hs3 & Hsat3 & Hck3 & Hst3 & Hcur3 & Hskip3).
    pose proof Hk3 as (L1 & L2 & L3 & _).
    assert (Hd3 : delivered obj t3 m) by (apply delivered_nothing; [by apply (keeps_parts_ready t)|done]).
    split_and!; [done|cbn; lia|done|by apply (delivered_same obj t3)|]. intros _.
    apply (streaming_start obj t); try done; cbn; lia || by left.
  - destruct (valid_content_range t1) eqn:Ev; cbn [negb]; [|done].
    assert (Hstart : content_range_start t = t_offset t + resumed t).
    { unfold valid_content_range in Ev. change (content_range_start t1) with (content_range_start t) in Ev.
      change (t_offset t1) with (t_offset t) in Ev. change (resumed t1) with (resumed t) in Ev.
      rewrite wrap64_small in Ev by (unfold is_u64; lia).
      destruct (negb (content_range_seen t1) || _ || _) eqn:E; [done|].
      apply orb_false_iff in E as [_ E%negb_false_iff%Z.eqb_eq]. done. }
    split_and!; [done|done|done|by apply (delivered_same obj t)|]. intros _.
    apply (streaming_start obj t); try done; cbn; lia || by right.
Qed.

Lemma keeps_parts_trans t1 t2 t3 : keeps_parts t1 t2 -> keeps_parts t2 t3 -> keeps_parts t1 t3.
Proof. unfold keeps_parts. intuition congruence. Qed.

(** A call that has passed [begin_body] on a 200 or 206 response. *)
Lemma write_callback_streaming obj t m data size count code clen pos :
  streaming obj t m pos -> body_at obj pos data ->
  callback_size size count = Some (Z.of_nat (length data)) ->
  let r := write_callback t m data size count code clen in
  (ret r = Z.of_nat (length data) \/ ret r = 0 /\ received (w_transfer r) = t_length (w_transfer r)) /\
  streaming obj (w_transfer r) (w_memory r) (pos + Z.of_nat (length data)) /\
  frame t m (w_memory r) /\ keeps_parts t (w_transfer r).
Proof.
  intros Hs Hdata Hsize. unfold write_callback. rewrite Hsize.
  destruct (satisfied t) eqn:Esat.
  - cbn. split_and!; [by left| |apply frame_refl|done].
    destruct Hs as [Hw Hd Hck Hst Hsk Hpos]. rewrite Esat in Hpos.
    constructor; try done. by rewrite Esat.
  - pose proof Hs as [_ _ Hck Hst _ _]. rewrite Hck. cbn [negb].
    pose proof (write_payload_spec _ _ _ _ _ Hs Esat Hdata) as H. cbv zeta in H.
    assert (is_3xx (http_status t) = false /\ (300 <=? http_status t) = false) as [-> ->]
      by (destruct Hst as [-> | ->]; done).
    cbn [andb]. destruct (write_payload t m data _) as [[r t'] m']. cbn.
    by destruct H as (? & ? & ? & ? & _).
Qed.

Lemma write_callback_first obj t m data size count code clen :
  attempt_begins obj t m -> code = 200 \/ code = 206 -> body_at obj (body_start t code) data ->
  callback_size size count = Some (Z.of_nat (length data)) ->
  let r := write_callback t m data size count code clen in
  received (w_transfer r) <= t_length (w_transfer r) /\
  delivered obj (w_transfer r) (w_memory r) /\ frame t m (w_memory r) /\
  keeps_parts t (w_transfer r) /\
  (ret r = 0 \/ ret r = Z.of_nat (length data) /\
   streaming obj (w_transfer r) (w_memory r) (body_start t code + Z.of_nat (length data))).
Proof.
  intros Ha Hcode Hdata Hsize. unfold write_callback. rewrite Hsize.
  rewrite (a_satisfied _ _ _ Ha), (a_checked _ _ _ Ha). cbn [negb].
  pose proof (begin_body_spec obj t m code clen Ha Hcode) as H.
  destruct (begin_body t code clen) as [go_on t1]. destruct H as (Hk & Hr & Hsat & Hd & Hs).
  destruct go_on; cbn [negb]; [|split_and!; try done; by left].
  specialize (Hs eq_refl). pose proof Hs as [_ _ Hck Hst _ _].
  pose proof (write_payload_spec _ _ _ _ _ Hs Hsat Hdata) as H. cbv zeta in H.
  assert (is_3xx (http_status t1) = false /\ (300 <=? http_status t1) = false) as [-> ->]
    by (destruct Hst as [-> | ->]; done).
  cbn [andb]. destruct (write_payload t1 m data _) as [[r t'] m']. cbn.
  destruct H as (Hret & Hs' & Hf & Hk' & _). pose proof Hs' as [[_ _ _ Hle _] Hd' _ _ _ _].
  split_and!; [done|done| |by apply (keeps_parts_trans _ t1)|].
  - intros a Hout. apply Hf. by destruct Hk as (-> & _).
  - destruct Hret as [->|[-> _]]; [by right|by left].
Qed.

(** libcurl hands over the chunks of a body until a call refuses one. *)
Fixpoint feed (t : Transfer) (m : memory) (chunks : list str) (code clen : Z)
    : Transfer * memory * bool :=
  match chunks with
  | [] => (t, m, true)
  | data :: chunks =>
      let r := write_callback t m data 1 (Z.of_nat (length data)) code clen in
      if ret r =? Z.of_nat (length data) then feed (w_transfer r) (w_memory r) chunks code clen
      else (w_transfer r, w_memory r, false)
  end.

Lemma callback_size_one n : 0 <= n <= SIZE_MAX -> callback_size 1 n = Some n.
Proof.
  intros Hn. unfold callback_size. cbn [Z.eqb Pos.eqb negb andb]. rewrite Z.div_1_r.
  rewrite (proj2 (Z.ltb_ge _ _)) by lia. f_equal. rewrite Z.mul_1_l.
  apply wrap64_small. unfold is_u64. lia.
Qed.

(** libcurl hands over at least one byte, and no more than fit in memory. *)
Definition is_chunk (data : str) : Prop := 1 <= Z.of_nat (length data) <= SIZE_MAX.

Lemma chunk_size data : is_chunk data -> 0 <= Z.of_nat (length data) <= SIZE_MAX.
Proof. unfold is_chunk. lia. Qed.

Lemma body_at_app obj pos a b :
  body_at obj pos (a ++ b) -> body_at obj pos a /\ body_at obj (pos + Z.of_nat (length a)) b.
Proof.
  intros H. split; intros i Hi.
  - rewrite <-H by (rewrite length_app; lia). rewrite app_nth1 by lia. done.
  - rewrite <-Z.add_assoc, <-H by (rewrite length_app; lia). rewrite app_nth2 by lia. f_equal. lia.
Qed.

(** What a body, complete or not, leaves behind. *)
Definition body_result (obj : object_bytes) (t t' : Transfer) (m m' : memory) (accepted : bool)
    (end_ : Z) : Prop :=
  keeps_parts t t' /\ received t' <= t_length t' /\ delivered obj t' m' /\ frame t m m' /\
  (accepted = true -> received t' = t_length t' \/ t_offset t' + received t' = end_ + skip t').

Lemma streaming_result obj t t' m m' pos :
  keeps_parts t t' -> frame t m m' -> streaming obj t' m' pos ->
  body_result obj t t' m m' true pos.
Proof.
  intros Hk Hf [[_ _ _ Hle _] Hd _ _ _ Hpos]. split_and!; try done. intros _.
  destruct (satisfied t'); auto.
Qed.

Lemma feed_streaming obj chunks : forall t0 m0 t m pos code clen,
  keeps_parts t0 t -> frame t0 m0 m -> streaming obj t m pos ->
  body_at obj pos (List.concat chunks) ->
  Forall is_chunk chunks ->
  let '(t', m', accepted) := feed t m chunks code clen in
  body_result obj t0 t' m0 m' accepted (pos + Z.of_nat (length (List.concat chunks))).
Proof.
  induction chunks as [|data chunks IH]; intros t0 m0 t m pos code clen Hk Hf Hs Hb Hl.
  - cbn [feed]. cbn. rewrite Z.add_0_r. by apply streaming_result.
  - apply Forall_cons_iff in Hl as [Hl0 Hl]. cbn [List.concat feed] in *.
    apply body_at_app in Hb as [Hb0 Hb].
    pose proof (write_callback_streaming obj t m data 1 (Z.of_nat (length data)) code clen pos Hs Hb0
      (callback_size_one _ (chunk_size _ Hl0))) as H. cbv zeta in H.
    set (r := write_callback _ _ _ _ _ _ _) in *. destruct H as (Hret & Hs' & Hf' & Hk').
    assert (Hk'' : keeps_parts t0 (w_transfer r)) by by apply (keeps_parts_trans _ t).
    assert (Hf'' : frame t0 m0 (w_memory r)).
    { intros a Ha. rewrite Hf' by (destruct Hk as (-> & _); done). by apply Hf. }
    destruct (Z.eqb_spec (ret r) (Z.of_nat (length data))) as [E|E].
    + rewrite length_app, Nat2Z.inj_add, Z.add_assoc. by apply IH.
    + destruct Hret as [?|[_ Hfull]]; [done|].
      destruct (streaming_result _ _ _ _ _ _ Hk'' Hf'' Hs') as (? & ? & ? & ? & _).
      split_and!; try done.
Qed.

Lemma feed_begins obj t m chunks code clen :
  attempt_begins obj t m -> code = 200 \/ code = 206 ->
  body_at obj (body_start t code) (List.concat chunks) ->
  Forall is_chunk chunks ->
  let '(t', m', accepted) := feed t m chunks code clen in
  body_result obj t t' m m' (accepted && negb (bool_decide (chunks = [])))
    (body_start t code + Z.of_nat (length (List.concat chunks))).
Proof.
  intros Ha Hcode Hb Hl. destruct chunks as [|data chunks].
  - cbn [feed]. destruct Ha as [[? ? ? ? ?] ? ? ? ? ? ?]. split_and!; try done.
  - apply Forall_cons_iff in Hl as [Hl0 Hl]. cbn [List.concat feed] in *.
    apply body_at_app in Hb as [Hb0 Hb].
    pose proof (write_callback_first obj t m data 1 (Z.of_nat (length data)) code clen Ha Hcode Hb0
      (callback_size_one _ (chunk_size _ Hl0))) as H. cbv zeta in H.
    set (r := write_callback _ _ _ _ _ _ _) in *. destruct H as (Hle & Hd & Hf & Hk & Hret).
    destruct (Z.eqb_spec (ret r) (Z.of_nat (length data))) as [E|E].
    + destruct Hret as [Hret|[_ Hs]]; [unfold is_chunk in Hl0; lia|].
      pose proof (feed_streaming obj chunks t m _ _ _ code clen Hk Hf Hs Hb Hl) as H.
      destruct (feed (w_transfer r) _ _ _ _) as [[t' m'] accepted].
      rewrite length_app, Nat2Z.inj_add, Z.add_assoc. by destruct accepted.
    + split_and!; try done.
Qed.

(** ** Properties *)

(** C4: however libcurl cuts the body of a 200 or 206 response into chunks,
    every byte that falls into a requested part is stored at its place in the
    part's buffer, no byte outside the parts' buffers is touched, and no more
    than the transfer's length is accepted; when no chunk was refused, the
    transfer has either all its bytes or exactly those the body held, and once
    it has them all, every buffer holds the object's bytes. *)
Theorem http_body_delivered obj t m chunks code clen t' m' accepted :
  attempt_begins obj t m -> code = 200 \/ code = 206 ->
  body_at obj (body_start t code) (List.concat chunks) -> Forall is_chunk chunks ->
  feed t m chunks code clen = (t', m', accepted) ->
  keeps_parts t t' /\ received t' <= t_length t' /\ delivered obj t' m' /\ frame t m m' /\
  (accepted = true -> chunks <> [] -> received t' = t_length t' \/
     t_offset t' + received t'
     = body_start t code + Z.of_nat (length (List.concat chunks)) + skip t') /\
  (received t' = t_length t' -> forall p i, p ∈ parts t -> 0 <= i < p_length p ->
     m' (p_buffer p + i) = obj (t_offset t + relative_offset p + i)).
Proof.
  intros Ha Hcode Hb Hl E. pose proof (feed_begins obj t m chunks code clen Ha Hcode Hb Hl) as H.
  rewrite E in H. destruct H as (Hk & Hle & Hd & Hf & Hpos). split_and!; try done.
  - intros -> Hne. apply Hpos. by rewrite bool_decide_false.
  - intros Hfull p i Hp Hi. destruct Hk as (K1 & K2 & K3 & _). rewrite <-K2. apply Hd; [by rewrite K1|done|].
    destruct Ha as [[[(_ & _ & Hin & _) _ _] _ _ _ _] _ _ _ _ _ _]. rewrite Forall_forall in Hin.
    specialize (Hin p Hp). unfold part_end in Hin. lia.
Qed.

(** *** Witness *)

(** Bytes 10 and 11 of an object, read into a buffer at address 1000. *)
Definition example_part : Part :=
  {| relative_offset := 0; p_length := 2; p_buffer := 1000; p_tag := 7; owned_buffer := 0 |}.

Definition example_transfer : Transfer :=
  (Transfer_default (Resolved_default <| backend := Http |>))
    <| t_offset := 10 |> <| t_length := 2 |>
    <| parts := [example_part] |> <| sink := 1000 |> <| t_range_fallback_limit := 64 |>.

Definition example_object : object_bytes := fun i => nth (Z.to_nat i) $"abcdefghijklmno" "0"%char.
Definition no_memory : memory := fun _ => "000"%char.

Lemma example_shape : well_shaped example_transfer.
Proof.
  split_and!; try done; cbn.
  - repeat constructor.
  - by eexists _, _.
  - rewrite Forall_singleton. cbn. unfold part_end. cbn. lia.
  - eexists. split; [apply list_elem_of_here|done].
Qed.

Lemma example_begins : attempt_begins example_object example_transfer no_memory.
Proof.
  constructor; try done; [|apply delivered_nothing; [apply example_shape|done]].
  constructor; [|constructor|cbn; lia..].
  constructor; [apply example_shape|repeat constructor|]. intros _. by eexists.
Qed.

Lemma example_body : body_at example_object 0 (List.concat [$"abcde"; $"fghijklm"]).
Proof.
  intros i Hi. change (Z.of_nat (length _)) with 13 in Hi.
  unfold example_object. rewrite Z.add_0_l.
  change $"abcdefghijklmno" with (List.concat [$"abcde"; $"fghijklm"] ++ $"no").
  rewrite (app_nth1 _ $"no") by (change (length _) with 13%nat; lia).
  apply nth_indep. change (length _) with 13%nat. lia.
Qed.

Lemma http_body_delivered_witness :
  let '(t', m', accepted) := feed example_transfer no_memory [$"abcde"; $"fghijklm"] 200 13 in
  m' 1000 = "k"%char /\ m' 1001 = "l"%char.
Proof.
  destruct (feed example_transfer no_memory [$"abcde"; $"fghijklm"] 200 13)
    as [[t' m'] accepted] eqn:E.
  assert (received t' = t_length t') as Hfull by (vm_compute in E; by injection E as <- _ _).
  assert (Forall is_chunk [$"abcde"; $"fghijklm"]) as Hc
    by (repeat constructor; unfold is_chunk; cbn; lia).
  destruct (http_body_delivered example_object example_transfer no_memory
    [$"abcde"; $"fghijklm"] 200 13 t' m' accepted example_begins (or_introl eq_refl)
    example_body Hc E) as (_ & _ & _ & _ & _ & H).
  assert (example_part ∈ parts example_transfer) as Hp by apply list_elem_of_here.
  split; [apply (H Hfull example_part 0 Hp)|apply (H Hfull example_part 1 Hp)]; cbn; lia.
Defined.

(** C22: a response the transfer must not use is stopped before any of its
    bytes is stored: a transformed body, a body whose ETag contradicts the
    pinned version, a 206 without the requested Content-Range, and a whole
    object whose wanted bytes lie past the fallback limit, also when bytes kept
    from an earlier attempt had to be dropped for it.  The callback returns 0,
    memory is unchanged, and the attempt, which libcurl then ends with a write
    error, does not succeed. *)
Theorem unusable_body_rejected t m data size count code clen n :
  satisfied t = false -> checked_status t = false -> callback_size size count = Some n ->
  is_2xx code = true ->
  transformed (encoding t) = true \/ contradicts_pin t = true \/
  (code = 206 /\ valid_content_range (t <| checked_status := true |> <| http_status := 206 |>) = false) \/
  (code = 200 /\ 0 <= resumed t /\ is_u64 (t_offset t) /\ 0 < t_offset t /\
   t_range_fallback_limit t < t_offset t) ->
  let r := write_callback t m data size count code clen in
  ret r = 0 /\ w_memory r = m /\ succeeded (w_transfer r) CURLE_WRITE_ERROR = false.
Proof.
  intros Hsat Hck Hsize H2 Hbad. unfold write_callback. rewrite Hsize, Hsat, Hck. cbn [negb].
  assert (Hstop : exists t', begin_body t code clen = (false, t') /\ satisfied t' = false).
  { unfold begin_body.
    set (t1 := t <| checked_status := true |> <| http_status := code |>).
    change (http_status t1) with code. rewrite H2.
    change (encoding t1) with (encoding t). change (contradicts_pin t1) with (contradicts_pin t).
    cbn [andb]. destruct (transformed (encoding t)) eqn:E1; [by eexists|].
    destruct (contradicts_pin t) eqn:E2; [by eexists|].
    destruct Hbad as [?|[?|[[-> Hv]|(-> & Hr & Hu & Ho & Hlim)]]]; [done..| |].
    - change (valid_content_range t1)
        with (valid_content_range (t <| checked_status := true |> <| http_status := 206 |>)).
      rewrite Hv. by eexists.
    - cbn [Z.eqb Pos.eqb andb]. set (t2 := if 0 <? resumed t1 then _ else t1).
      assert (H2' : resumed t2 = 0 /\ t_offset t2 = t_offset t /\ http_status t2 = 200 /\ satisfied t2 = false /\
        t_range_fallback_limit t2 = t_range_fallback_limit t).
      { subst t2. destruct (Z.ltb_spec 0 (resumed t1)) as [?|Hle]; [done|]. split_and!; try done.
        change (resumed t1) with (resumed t) in *. lia. }
      clearbody t2. destruct H2' as (R1 & R2 & R3 & R4 & R5).
      rewrite R1, R2, R3, R5, Z.add_0_r, wrap64_small by done.
      cbn [Z.eqb Pos.eqb andb]. rewrite !(proj2 (Z.ltb_lt _ _)) by done. by eexists. }
  destruct Hstop as (t' & -> & Hs'). cbn. split_and!; [done..|].
  unfold succeeded. rewrite Hs'. done.
Qed.

(** One byte was kept, and the answer starts the object anew. *)
Lemma unusable_body_rejected_witness :
  let r := write_callback (example_transfer <| t_range_fallback_limit := 9 |> <| resumed := 1 |> <| received := 1 |>)
             no_memory $"abc" 1 3 200 (-1) in
  ret r = 0 /\ w_memory r = no_memory /\ succeeded (w_transfer r) CURLE_WRITE_ERROR = false.
Proof.
  apply (unusable_body_rejected _ _ _ _ _ _ _ 3); try done.
  do 3 right. by split_and!.
Defined.

(** A success status other than 200 and 206 is taken as if its body
    started at the requested offset: a 203 answer to a range request, whose
    body is the whole representation, puts the object's first bytes into the
    buffer of bytes 10 and 11 and counts as a success. *)
Theorem other_success_status_misplaced :
  let '(t', m', accepted) := feed example_transfer no_memory [$"abcdefghijklmno"] 203 15 in
  accepted = true /\ succeeded t' CURLE_OK = true /\ received t' = t_length t' /\
  m' 1000 = "a"%char /\ m' 1001 = "b"%char /\
  example_object 10 = "k"%char /\ example_object 11 = "l"%char.
Proof. vm_compute. done. Qed.

(** ** Resuming *)

(** Bytes are kept across attempts only under a strong entity tag. *)
Definition pinned (t : Transfer) : Prop :=
  (resume_etag t = [] \/ is_strong_etag (resume_etag t) = true) /\
  (response_etag t = [] \/ is_strong_etag (response_etag t) = true) /\
  (resumed t = 0 \/ is_strong_etag (version_pin t) = true).

Lemma pinned_same t t' :
  resume_etag t' = resume_etag t -> response_etag t' = response_etag t ->
  resumed t' = resumed t -> t_if_match t' = t_if_match t -> pinned t -> pinned t'.
Proof. unfold pinned, version_pin. intros -> -> -> ->. done. Qed.

Lemma header_callback_pinned getdate url_parts follow_parts t line size count now :
  pinned t -> pinned (header_callback getdate url_parts follow_parts t line size count now).2.
Proof.
  intros Hp. unfold header_callback.
  destruct (callback_size size count) as [n|]; [|done].
  destruct (starts_with line _).
  { destruct Hp as (H1 & _ & H3). split_and!; [done|by left|done]. }
  destruct (_ && _); [done|]. destruct (header_name_is line $"content-range:").
  { destruct (parse_content_range _ _) as [[] r]; done. }
  destruct (header_name_is line $"x-amz-bucket-region:"); [done|].
  destruct (header_name_is line $"retry-after:"); [done|].
  destruct (header_name_is line $"etag:"); [|done].
  destruct (_ && _) eqn:E; [|done]. apply andb_true_iff in E as [_ E].
  destruct Hp as (H1 & _ & H3). split_and!; [done|by right|done].
Qed.

(** Another version answered, or the library's own condition failed. *)
Definition other_version (t : Transfer) : Prop :=
  version_changed t = true \/ (http_status t = 412 /\ t_if_match t = []).
(** The tag a resumed attempt of [t] demands. *)
Definition resume_pin (t : Transfer) : str := if str_eqb (version_pin t) [] then response_etag t else version_pin t.

Record resumes (t t' : Transfer) : Prop := {
  rs_pinned : pinned t';
  rs_bounds : 0 <= resumed t' <= received t;
  rs_rest : resumed t' < t_length t;
  rs_pin : resumed t' <> 0 -> resumed t' <> resumed t ->
    version_pin t' = resume_pin t /\ (http_status t = 200 \/ http_status t = 206);
  rs_other : other_version t -> resumed t' = 0;
}.

Lemma resumes_nothing t t' : pinned t' -> resumed t' = 0 -> 0 <= received t -> 0 < t_length t -> resumes t t'.
Proof. intros Hp Hr H1 H2. constructor; rewrite ?Hr; try done. Qed.
Lemma resumes_received t t' :
  ~ other_version t -> http_status t = 200 \/ http_status t = 206 -> received t < t_length t -> 0 <= received t ->
  (response_etag t = [] \/ is_strong_etag (response_etag t) = true) ->
  t_if_match t' = t_if_match t -> response_etag t' = response_etag t -> resumed t' = received t ->
  is_strong_etag (version_pin t') = true -> (resume_etag t' = [] \/ is_strong_etag (resume_etag t') = true) ->
  version_pin t' = resume_pin t -> resumes t t'.
Proof.
  intros Hno Hs Hlt H0 Hr K1 K2 K3 K4 K5 K6. constructor; rewrite ?K3; try done.
  unfold pinned. rewrite K2. split_and!; [done|done|by right].
Qed.

Lemma plan_resume_pinned t : pinned t -> 0 <= resumed t <= received t -> resumed t < t_length t ->
  resumes t (plan_resume t).
Proof.
  intros (H1 & H2 & H3) Hr Hl. unfold plan_resume.
  assert (Hreset : resumes t (t <| resumed := 0 |> <| resume_etag := [] |>)).
  { apply resumes_nothing; [split_and!; [by left|done|by left]|done|lia|lia]. }
  destruct (negb (str_eqb (t_if_match t) []) && _) eqn:E1; [done|].
  destruct (version_changed t || _) eqn:E2; [done|].
  apply orb_false_iff in E2 as [E2 E3].
  assert (Hno : ~ other_version t).
  { intros [?|[Hs Hi]]; [congruence|]. by rewrite Hs, Hi in E3. }
  destruct (negb _ || _ || _) eqn:E4; [constructor; try done; lia|].
  apply orb_false_iff in E4 as [[E4 E5%Z.leb_gt]%orb_false_iff E6%Z.leb_gt].
  apply negb_false_iff, orb_true_iff in E4. rewrite !Z.eqb_eq in E4.
  assert (Hkeep := fun t' => resumes_received t t' Hno E4 ltac:(lia) ltac:(lia) H2).
  unfold resume_pin, version_pin in *.
  destruct (str_eqb (t_if_match t) []) eqn:Ei; cbn [andb negb] in *.
  - destruct (str_eqb (resume_etag t) []) eqn:Ee.
    + destruct (str_eqb (response_etag t) []) eqn:Er.
      { apply resumes_nothing; [split_and!; [done|done|by left]|done|lia|lia]. }
      assert (is_strong_etag (response_etag t) = true) as Hs by (destruct H2 as [H2|]; [by rewrite H2 in Er|done]).
      apply Hkeep; cbn; rewrite ?Ei; auto.
    + assert (is_strong_etag (resume_etag t) = true) as Hs by (destruct H1 as [H1|]; [by rewrite H1 in Ee|done]).
      apply Hkeep; cbn; rewrite ?Ei, ?Ee; done.
  - apply negb_false_iff in E1. apply Hkeep; cbn; rewrite ?Ei; done.
Qed.

(** C21: a retry keeps received bytes only when it can demand the version they
    belong to: the strong entity tag of the response, or the caller's single
    strong tag, is what the next request is pinned to, and an answer that
    shows another version (an ETag that contradicts the pin, or a 412 to the
    library's own condition) makes the retry start over.  Headers only ever
    record strong tags. *)
Theorem resume_is_pinned :
  (forall getdate url_parts follow_parts t line size count now,
     pinned t -> pinned (header_callback getdate url_parts follow_parts t line size count now).2) /\
  (forall t, pinned t -> 0 <= resumed t <= received t -> resumed t < t_length t ->
     let t' := plan_resume t in
     pinned t' /\ 0 <= resumed t' <= received t /\ resumed t' < t_length t /\
     (resumed t' <> 0 -> resumed t' <> resumed t ->
        version_pin t' = (if str_eqb (version_pin t) [] then response_etag t else version_pin t) /\
        (http_status t = 200 \/ http_status t = 206)) /\
     (version_changed t = true \/ (http_status t = 412 /\ t_if_match t = []) -> resumed t' = 0)).
Proof.
  split; [exact header_callback_pinned|]. intros t Hp Hr Hl.
  destruct (plan_resume_pinned t Hp Hr Hl) as [H1 H2 H3 H4 H5].
  exact (conj H1 (conj H2 (conj H3 (conj H4 H5)))).
Qed.

Lemma resume_is_pinned_witness :
  pinned (plan_resume (example_transfer <| http_status := 206 |> <| received := 1 |>
                         <| response_etag := ["034"%char; "v"%char; "034"%char] |>)).
Proof.
  destruct resume_is_pinned as [_ H].
  destruct (H (example_transfer <| http_status := 206 |> <| received := 1 |>
                 <| response_etag := ["034"%char; "v"%char; "034"%char] |>)) as [Hp _].
  - split_and!; [by left|by right|by left].
  - cbn. lia.
  - cbn. lia.
  - exact Hp.
Defined.
