(* ===== verification/Files.v ===== *)
(** * Files: reading a file and publishing a downloaded one

    Models [os::File] and [os::OutputFile] of [src/src/platform.cpp] (the POSIX
    branches).  The system calls are the class [Posix], over a state of the
    file system; what POSIX promises of them is the class [PosixLaws], stated
    through a [view] of that state, for a directory no other process writes.
    The theorems show that a write stores all of its bytes at their position
    and that [publish] makes the whole file appear under the destination's
    name or leaves that name alone. *)

From S2P Require Import Prelude Transport.

(** ** Error codes *)

(** [std::error_code] of the generic category: a number of [errno]; 0 is no
    error. The numbers are those of Linux. *)
Abbreviation error_code := Z (only parsing).
Definition EPERM : Z := 1.
Definition ENOENT : Z := 2.
Definition EINTR : Z := 4.
Definition EIO : Z := 5.
Definition EBADF : Z := 9.
Definition EBUSY : Z := 16.
Definition EEXIST : Z := 17.
Definition EINVAL : Z := 22.
Definition ENOSYS : Z := 38.
Definition EOVERFLOW : Z := 75.
Definition ENOTSUP : Z := 95.

Definition hard_links_unavailable (error : Z) : bool :=
  (error =? ENOTSUP) || (error =? ENOSYS) || (error =? EPERM).

(** ** System calls *)

(** [F] is the state of the file system and of the descriptors; a call answers
    with an [errno] or its value. [signals] bounds how many more calls a signal
    interrupts. *)
Class Posix (F : Type) := {
  open_excl : str -> F -> expected Z Z * F;      (* O_WRONLY | O_CREAT | O_EXCL *)
  open_read : str -> F -> expected Z Z * F;      (* O_RDONLY *)
  ftruncate : Z -> Z -> F -> Z * F;
  pwrite : Z -> str -> Z -> F -> expected Z Z * F;
  pread : Z -> Z -> Z -> F -> expected Z str * F;
  sys_close : Z -> F -> Z * F;
  sys_link : str -> str -> F -> Z * F;
  sys_unlink : str -> F -> Z * F;
  sys_rename : str -> str -> F -> Z * F;
  symlink_status : str -> F -> Z * bool * F;     (* the error, and whether the path exists *)
  signals : F -> nat;
}.

(** ** [os::File] and [os::OutputFile] *)

Record OutputFile := mkOutputFile { of_fd : Z; temporary : str; destination_ : str }.
#[global] Instance OutputFile_eta : Eta OutputFile := fun r =>
  mkOutputFile (of_fd r) (temporary r) (destination_ r).
Definition OutputFile_default : OutputFile := mkOutputFile (-1) [] [].

Section Calls.
Context {F : Type} `{Posix F}.

(** [File::open]: the error, and the descriptor. *)
Definition file_open (fd : Z) (path : str) (f : F) : error_code * Z * F :=
  if 0 <=? fd then (EBUSY, fd, f)
  else match open_read path f with
       | (Ok fd, f) => (0, fd, f)
       | (Err e, f) => (e, -1, f)
       end.

(** The loop of [File::read_at]: each turn but the last is a signal. *)
Fixpoint read_at_loop (fuel : nat) (fd n offset : Z) (f : F) : expected error_code str * F :=
  match fuel with
  | O => (Err EINTR, f)
  | S fuel =>
      match pread fd n offset f with
      | (Ok bytes, f) => (Ok bytes, f)
      | (Err e, f) => if e =? EINTR then read_at_loop fuel fd n offset f else (Err e, f)
      end
  end.
Definition file_read_at (fd n offset : Z) (f : F) : expected error_code str * F :=
  if fd <? 0 then (Err EBADF, f)
  else if I64_MAX <? offset then (Err EOVERFLOW, f)
  else read_at_loop (S (signals f)) fd (Z.min n I64_MAX) offset f.

(** [create_near]; attempt [i] draws [numbers i] from the process's counter. *)
Definition temporary_name (destination : str) (pid number : Z) : str :=
  destination ++ $".karu.part." ++ to_string pid ++ $"." ++ to_string number.

Fixpoint create_attempts (attempts i : nat) (o : OutputFile) (pid : Z) (numbers : nat -> Z) (f : F)
    : error_code * OutputFile * F :=
  match attempts with
  | O => (EEXIST, o <| temporary := [] |>, f)
  | S attempts =>
      let o := o <| temporary := temporary_name (destination_ o) pid (numbers i) |> in
      match open_excl (temporary o) f with
      | (Ok fd, f) => (0, o <| of_fd := fd |>, f)
      | (Err e, f) =>
          let o := o <| of_fd := -1 |> in
          if negb (e =? EEXIST) then (e, o <| temporary := [] |>, f)
          else create_attempts attempts (S i) o pid numbers f
      end
  end.

(** The check that the destination is free: an error, or 0. *)
Definition must_not_exist (path : str) (f : F) : error_code * F :=
  let '(e, exists_, f) := symlink_status path f in
  if negb (e =? 0) && negb (e =? ENOENT) then (e, f)
  else if (e =? 0) && exists_ then (EEXIST, f)
  else (0, f).

Definition create_near (o : OutputFile) (destination : str) (overwrite : bool) (pid : Z)
    (numbers : nat -> Z) (f : F) : error_code * OutputFile * F :=
  if (0 <=? of_fd o) || negb (str_eqb (temporary o) []) then (EBUSY, o, f)
  else
    let o := o <| destination_ := destination |> in
    if str_eqb destination [] then (EINVAL, o, f)
    else
      let '(e, f) := if overwrite then (0, f) else must_not_exist destination f in
      if negb (e =? 0) then (e, o, f) else create_attempts 100 0 o pid numbers f.

Definition resize (o : OutputFile) (size : Z) (f : F) : error_code * F :=
  if of_fd o <? 0 then (EBADF, f)
  else if I64_MAX <? size then (EOVERFLOW, f)
  else ftruncate (of_fd o) size f.

(** The loop of [write_at]: a turn writes a byte, is interrupted, or ends. *)
Fixpoint write_at_loop (fuel : nat) (fd : Z) (bytes : str) (offset : Z) (written : nat) (f : F)
    : error_code * F :=
  match fuel with
  | O => (EINTR, f)
  | S fuel =>
      if Nat.ltb written (length bytes) then
        if U64_MAX - Z.of_nat written <? offset then (EOVERFLOW, f)
        else
          let position := offset + Z.of_nat written in
          if I64_MAX <? position then (EOVERFLOW, f)
          else
            let want := Z.min (Z.of_nat (length bytes - written)) I64_MAX in
            match pwrite fd (take (Z.to_nat want) (drop written bytes)) position f with
            | (Err e, f) =>
                if e =? EINTR then write_at_loop fuel fd bytes offset written f else (e, f)
            | (Ok count, f) =>
                if count =? 0 then (EIO, f)
                else write_at_loop fuel fd bytes offset (written + Z.to_nat count) f
            end
      else (0, f)
  end.
Definition write_at (o : OutputFile) (bytes : str) (offset : Z) (f : F) : error_code * F :=
  if of_fd o <? 0 then (EBADF, f)
  else write_at_loop (S (length bytes + signals f)) (of_fd o) bytes offset 0 f.

Definition close_output (o : OutputFile) (f : F) : error_code * OutputFile * F :=
  if of_fd o <? 0 then (0, o, f)
  else
    let '(e, f) := sys_close (of_fd o) f in (e, o <| of_fd := -1 |>, f).

(** The part of [publish] that gives the file its name. *)
Definition publish_name (temporary destination : str) (overwrite : bool) (f : F) : error_code * F :=
  if overwrite then sys_rename temporary destination f
  else
    let '(link_errno, f) := sys_link temporary destination f in
    if link_errno =? 0 then (0, (sys_unlink temporary f).2)
    else if negb (hard_links_unavailable link_errno) then (link_errno, f)
    else
      let '(e, f) := must_not_exist destination f in
      if negb (e =? 0) then (e, f) else sys_rename temporary destination f.

Definition publish (o : OutputFile) (overwrite : bool) (f : F) : error_code * OutputFile * F :=
  let '(e, o, f) := close_output o f in
  if negb (e =? 0) then (e, o, f)
  else if str_eqb (temporary o) [] || str_eqb (destination_ o) [] then (EBADF, o, f)
  else
    let '(e, f) := publish_name (temporary o) (destination_ o) overwrite f in
    if negb (e =? 0) then (e, o, f)
    else (0, o <| temporary := [] |> <| destination_ := [] |>, f).

(** [~OutputFile]. *)
Definition dispose_output (o : OutputFile) (f : F) : F :=
  let '(_, o, f) := close_output o f in
  if str_eqb (temporary o) [] then f else (sys_unlink (temporary o) f).2.
End Calls.

(** ** What POSIX promises *)

(** Names, the files behind them (a size and its bytes) and open descriptors. *)
Record files := mkFiles {
  fs_names : gmap str Z;
  fs_data : gmap Z (Z * memory);
  fs_open : gmap Z Z;
}.
Definition zeros : memory := fun _ => "000"%char.

(** [ftruncate]: the bytes past the shorter size read as zero. *)
Definition resized (d : Z * memory) (size : Z) : Z * memory :=
  (size, fun i => if i <? Z.min d.1 size then d.2 i else "000"%char).
Definition written (d : Z * memory) (position : Z) (bytes : str) : Z * memory :=
  if Z.of_nat (length bytes) =? 0 then d
  else (Z.max d.1 (position + Z.of_nat (length bytes)), memcpy d.2 position bytes).

(** No other process writes the directory. *)
Class PosixLaws (F : Type) `{Posix F} := {
  view : F -> files;
  open_excl_ok p f fd f' : open_excl p f = (Ok fd, f') ->
    0 <= fd /\ fs_names (view f) !! p = None /\
    exists i, fs_data (view f) !! i = None /\ (forall q, fs_names (view f) !! q <> Some i) /\
      view f' = mkFiles (<[p := i]> (fs_names (view f))) (<[i := (0, zeros)]> (fs_data (view f)))
                  (<[fd := i]> (fs_open (view f)));
  open_excl_err p f e f' : open_excl p f = (Err e, f') -> e <> 0 /\ view f' = view f;
  ftruncate_ok fd size f f' i d : ftruncate fd size f = (0, f') ->
    fs_open (view f) !! fd = Some i -> fs_data (view f) !! i = Some d ->
    view f' = mkFiles (fs_names (view f)) (<[i := resized d size]> (fs_data (view f))) (fs_open (view f));
  ftruncate_err fd size f e f' : ftruncate fd size f = (e, f') -> e <> 0 -> view f' = view f;
  pwrite_ok fd bytes pos f count f' i d : pwrite fd bytes pos f = (Ok count, f') ->
    fs_open (view f) !! fd = Some i -> fs_data (view f) !! i = Some d ->
    0 <= count <= Z.of_nat (length bytes) /\
    view f' = mkFiles (fs_names (view f))
                (<[i := written d pos (take (Z.to_nat count) bytes)]> (fs_data (view f)))
                (fs_open (view f));
  pwrite_err fd bytes pos f e f' : pwrite fd bytes pos f = (Err e, f') -> e <> 0 /\ view f' = view f;
  pwrite_signals fd bytes pos f r f' : pwrite fd bytes pos f = (r, f') ->
    (signals f' <= signals f)%nat /\ (r = Err EINTR -> signals f' < signals f)%nat;
  close_view fd f e f' : sys_close fd f = (e, f') ->
    view f' = mkFiles (fs_names (view f)) (fs_data (view f)) (delete fd (fs_open (view f)));
  link_ok p q f f' i : sys_link p q f = (0, f') -> fs_names (view f) !! p = Some i ->
    fs_names (view f) !! q = None /\
    view f' = mkFiles (<[q := i]> (fs_names (view f))) (fs_data (view f)) (fs_open (view f));
  link_err p q f e f' : sys_link p q f = (e, f') -> e <> 0 -> view f' = view f;
  unlink_view p f e f' : sys_unlink p f = (e, f') ->
    view f' = if e =? 0 then mkFiles (delete p (fs_names (view f))) (fs_data (view f)) (fs_open (view f))
              else view f;
  rename_ok p q f f' i : sys_rename p q f = (0, f') -> fs_names (view f) !! p = Some i ->
    fs_names (view f) !! q <> Some i ->
    view f' = mkFiles (<[q := i]> (delete p (fs_names (view f)))) (fs_data (view f)) (fs_open (view f));
  rename_err p q f e f' : sys_rename p q f = (e, f') -> e <> 0 -> view f' = view f;
  status_view p f e b f' : symlink_status p f = (e, b, f') ->
    view f' = view f /\
    ((e = ENOENT \/ e = 0 /\ b = false) -> fs_names (view f) !! p = None);
}.

Section Laws.
Context {F : Type} `{PosixLaws F}.

Abbreviation names f := (fs_names (view f)).
Abbreviation data f := (fs_data (view f)).

(** The output file is open and writes the file [i] behind its private name. *)
Record holds_file (o : OutputFile) (f : F) (i : Z) (d : Z * memory) : Prop := {
  hf_fd : 0 <= of_fd o;
  hf_open : fs_open (view f) !! of_fd o = Some i;
  hf_data : data f !! i = Some d;
  hf_name : names f !! temporary o = Some i;
  hf_only : forall q, names f !! q = Some i -> q = temporary o;
  hf_temporary : temporary o <> [];
  hf_destination : destination_ o <> [] /\ temporary o <> destination_ o;
}.

(** Everything but the name [p] and the file [i] is as it was. *)
Definition only_changes (p : str) (i : Z) (f f' : F) : Prop :=
  (forall q, q <> p -> names f' !! q = names f !! q) /\
  (forall j, j <> i -> data f' !! j = data f !! j).

Lemma only_changes_refl p i f : only_changes p i f f.
Proof. done. Qed.

Lemma only_changes_trans p i f1 f2 f3 :
  only_changes p i f1 f2 -> only_changes p i f2 f3 -> only_changes p i f1 f3.
Proof. intros [H1 H2] [H3 H4]. split; intros; [rewrite H3, H1|rewrite H4, H2]; done. Qed.

Lemma temporary_name_longer d pid n : temporary_name d pid n <> d /\ temporary_name d pid n <> [].
Proof.
  unfold temporary_name. split; intros E%(f_equal length); revert E; rewrite !length_app; cbn; lia.
Qed.

Lemma must_not_exist_ok p f e f' :
  must_not_exist p f = (e, f') -> view f' = view f /\ (e = 0 -> names f !! p = None).
Proof.
  unfold must_not_exist. destruct (symlink_status p f) as [[err b] f1] eqn:E.
  apply status_view in E as [Hv Hn].
  destruct (Z.eqb_spec err 0) as [E0|E0]; destruct (Z.eqb_spec err ENOENT) as [E1|E1];
    cbn [negb andb]; try (destruct b); intros [= <- <-]; split; try done; intros; apply Hn; auto; done.
Qed.

Lemma create_attempts_spec pid numbers n : forall i o f e o' f',
  destination_ o <> [] -> of_fd o = -1 ->
  create_attempts n i o pid numbers f = (e, o', f') ->
  (e = 0 /\ destination_ o' = destination_ o /\
   (exists n, temporary o' = temporary_name (destination_ o) pid n) /\ exists j,
     data f !! j = None /\ names f !! temporary o' = None /\ holds_file o' f' j (0, zeros) /\
     only_changes (temporary o') j f f') \/
  (e <> 0 /\ of_fd o' = -1 /\ temporary o' = [] /\ view f' = view f).
Proof.
  induction n as [|n IH]; intros i o f e o' f' Hd Hfd; cbn [create_attempts].
  { intros [= <- <- <-]. right. by split_and!. }
  destruct (open_excl _ f) as [[fd|err] f1] eqn:E.
  - intros [= <- <- <-]. left. apply open_excl_ok in E as (Hfd' & Hnone & j & Hj & Hfresh & Hv).
    split; [done|]. split; [done|]. split; [by eexists|]. exists j. cbn in *.
    assert (Hne := temporary_name_longer (destination_ o) pid (numbers i)). destruct Hne as [Hne Hnil].
    split_and!; [done|done| |].
    + constructor; cbn; rewrite ?Hv; cbn; [done|apply lookup_insert_eq..| |done|done].
      intros q. rewrite lookup_insert_Some. intros [[<- _]|[_ Hq]]; [done|by apply Hfresh in Hq].
    + split; intros q Hq; rewrite Hv; cbn; by rewrite lookup_insert_ne.
  - apply open_excl_err in E as [He Hv]. destruct (Z.eqb_spec err EEXIST) as [Ee|Ee]; cbn [negb].
    + intros E. apply IH in E; [|done..]. unfold only_changes in *. by rewrite Hv in E.
    + intros [= <- <- <-]. right. by split_and!.
Qed.

Lemma create_near_spec destination overwrite pid numbers f e o f' :
  create_near OutputFile_default destination overwrite pid numbers f = (e, o, f') ->
  (e = 0 /\ destination_ o = destination /\ (overwrite = false -> names f !! destination = None) /\
   (exists n, temporary o = temporary_name destination pid n) /\
   exists i, data f !! i = None /\ names f !! temporary o = None /\ holds_file o f' i (0, zeros) /\
     only_changes (temporary o) i f f') \/
  (e <> 0 /\ of_fd o = -1 /\ temporary o = [] /\ view f' = view f).
Proof.
  unfold create_near.
  change ((0 <=? of_fd OutputFile_default) || negb (str_eqb (temporary OutputFile_default) [])) with false.
  unfold str_eqb. case_bool_decide as Hd.
  { intros [= <- <- <-]. right. by split_and!. }
  destruct (if overwrite then (0, f) else must_not_exist destination f) as [e1 f1] eqn:Em.
  assert (Hm : view f1 = view f /\ (e1 = 0 -> overwrite = false -> names f !! destination = None)).
  { destruct overwrite; [by injection Em as <- <-|]. apply must_not_exist_ok in Em as [??]. auto. }
  destruct Hm as [Hv Hn]. destruct (Z.eqb_spec e1 0) as [He|He]; cbn [negb].
  - intros E. apply create_attempts_spec in E; [|done..]. cbn in E. unfold only_changes in *.
    rewrite Hv in E. destruct E as [(He0 & Hdd & Hname & i & E)|E]; [left|by right].
    split_and!; [done|done|auto|done|]. by exists i.
  - intros [= <- <- <-]. right. by split_and!.
Qed.

(** *** Writing *)

Lemma resize_spec o size f e f' i d :
  holds_file o f i d -> resize o size f = (e, f') ->
  (e = 0 -> holds_file o f' i (resized d size)) /\ only_changes (temporary o) i f f' /\
  (e <> 0 -> holds_file o f' i d).
Proof.
  intros [] E. unfold resize in E. rewrite (proj2 (Z.ltb_ge _ _)) in E by done.
  destruct (I64_MAX <? size); [injection E as <- <-; split_and!; done|].
  destruct (Z.eqb_spec e 0) as [->|He].
  - eapply ftruncate_ok in E; [|done..]. split_and!; [intros _|split; intros; rewrite E; cbn|done].
    + constructor; rewrite ?E; cbn; try done. apply lookup_insert_eq.
    + done.
    + by rewrite lookup_insert_ne.
  - apply ftruncate_err in E; [|done]. split_and!; [done|split; by rewrite E|].
    intros _. constructor; by rewrite ?E.
Qed.

(** What a write from position [written] of [bytes] on may do to a file. *)
Record overwrites (bytes : str) (offset : Z) (written : nat) (all : Prop) (d d' : Z * memory) : Prop := {
  ow_size : d.1 <= d'.1 <= Z.max d.1 (offset + Z.of_nat (length bytes));
  ow_outside : forall a, a < offset + Z.of_nat written \/ offset + Z.of_nat (length bytes) <= a ->
    d'.2 a = d.2 a;
  ow_inside : all -> forall k, (written <= k < length bytes)%nat ->
    d'.2 (offset + Z.of_nat k) = nth k bytes "000"%char;
}.

Lemma overwrites_nothing bytes offset w (all : Prop) d :
  (all -> (length bytes <= w)%nat) -> overwrites bytes offset w all d d.
Proof. intros Hw. constructor; [lia|done|]. intros Ha k Hk. specialize (Hw Ha). lia. Qed.

Lemma overwrites_step bytes offset w (count : nat) all d d' :
  (w + count <= length bytes)%nat ->
  overwrites bytes offset (w + count) all
    (written d (offset + Z.of_nat w) (take count (drop w bytes))) d' ->
  overwrites bytes offset w all d d'.
Proof.
  intros Hc [Hs Ho Hi]. assert (Hlen : length (take count (drop w bytes)) = count)
    by (rewrite length_take, length_drop; lia).
  unfold written in *. rewrite Hlen in *. destruct (Z.eqb_spec (Z.of_nat count) 0) as [E0|E0].
  { replace count with 0%nat in * by lia. rewrite Nat.add_0_r in *. by constructor. }
  cbn [fst snd] in *. constructor; [lia| |].
  - intros a Ha. rewrite Ho by lia. apply memcpy_out. lia.
  - intros Hall k Hk. destruct (decide (w + count <= k)%nat) as [Hle|Hlt]; [apply Hi; [done|lia]|].
    rewrite Ho by lia.
    replace (offset + Z.of_nat k) with (offset + Z.of_nat w + Z.of_nat (k - w)) by lia.
    rewrite memcpy_in, Nat2Z.id, !nth_lookup, lookup_take_lt, lookup_drop by lia. do 2 f_equal. lia.
Qed.

Lemma holds_written o f f' i d pos bytes :
  holds_file o f i d ->
  view f' = mkFiles (names f) (<[i := written d pos bytes]> (data f)) (fs_open (view f)) ->
  holds_file o f' i (written d pos bytes) /\ only_changes (temporary o) i f f'.
Proof.
  intros [] Hv. split; [|split; intros; rewrite Hv; cbn; [done|by rewrite lookup_insert_ne]].
  constructor; rewrite ?Hv; cbn; try done. apply lookup_insert_eq.
Qed.

Lemma write_at_loop_spec o i bytes offset fuel : forall w f d e f',
  holds_file o f i d -> 0 <= offset -> (w <= length bytes)%nat ->
  (length bytes - w + signals f < fuel)%nat ->
  write_at_loop fuel (of_fd o) bytes offset w f = (e, f') ->
  e <> EINTR /\ only_changes (temporary o) i f f' /\
  exists d', holds_file o f' i d' /\ overwrites bytes offset w (e = 0) d d'.
Proof.
  induction fuel as [|fuel IH]; intros w f d e f' Hh Ho Hw Hf; [lia|]. cbn [write_at_loop].
  destruct (Nat.ltb_spec w (length bytes)).
  2:{ intros [= <- <-]. split_and!; [done|done|]. exists d. split; [done|]. by apply overwrites_nothing. }
  destruct (_ <? offset).
  { intros [= <- <-]. split_and!; [done|done|]. exists d. split; [done|]. by apply overwrites_nothing. }
  destruct (I64_MAX <? _).
  { intros [= <- <-]. split_and!; [done|done|]. exists d. split; [done|]. by apply overwrites_nothing. }
  set (want := take _ (drop w bytes)).
  assert (Hwant : (length want <= length bytes - w)%nat) by (unfold want; rewrite length_take, length_drop; lia).
  destruct (pwrite _ _ _ _) as [[count|err] f1] eqn:E.
  - pose proof (pwrite_signals _ _ _ _ _ _ E) as [Hsig _].
    eapply pwrite_ok in E as [Hcount Hv]; [|apply Hh..].
    destruct (Z.eqb_spec count 0) as [E0|E0].
    { intros [= <- <-]. subst count. cbn in Hv. eapply holds_written in Hv as [Hh' Hc]; [|done].
      split_and!; [done|done|]. exists d. split; [exact Hh'|]. by apply overwrites_nothing. }
    eapply holds_written in Hv as [Hh' Hc]; [|done].
    intros Er. eapply IH in Er as (Hne & Hc' & d' & Hd' & Hov); [|exact Hh'|done|lia|lia].
    split_and!; [done|by eapply only_changes_trans|]. exists d'. split; [done|].
    eapply (overwrites_step _ _ _ (Z.to_nat count)); [lia|].
    assert (Et : take (Z.to_nat count) want = take (Z.to_nat count) (drop w bytes)).
    { unfold want in *. rewrite length_take, length_drop in Hcount. rewrite take_take. f_equal. lia. }
    by rewrite Et in Hov.
  - pose proof (pwrite_signals _ _ _ _ _ _ E) as [_ Hsig]. apply pwrite_err in E as [He Hv].
    assert (Hh' : holds_file o f1 i d) by (destruct Hh; constructor; by rewrite ?Hv).
    assert (Hc : only_changes (temporary o) i f f1) by (split; by rewrite Hv).
    destruct (Z.eqb_spec err EINTR) as [->|Hi].
    + specialize (Hsig eq_refl). intros Er. eapply IH in Er as (Hne & Hc' & Hd'); [|done..|lia].
      split_and!; [done|by eapply only_changes_trans|done].
    + intros [= <- <-]. split_and!; [done|done|]. exists d. split; [done|]. by apply overwrites_nothing.
Qed.

Lemma write_at_spec o bytes offset f i d e f' :
  holds_file o f i d -> 0 <= offset -> write_at o bytes offset f = (e, f') ->
  e <> EINTR /\ only_changes (temporary o) i f f' /\
  exists d', holds_file o f' i d' /\ overwrites bytes offset 0 (e = 0) d d'.
Proof.
  intros Hh Ho. unfold write_at. rewrite (proj2 (Z.ltb_ge _ _)) by apply Hh.
  intros E. eapply write_at_loop_spec in E; [exact E|done|done|lia|lia].
Qed.

(** *** Publishing *)

Lemma close_output_spec o f i d e o' f' :
  holds_file o f i d -> close_output o f = (e, o', f') ->
  o' = o <| of_fd := -1 |> /\ names f' = names f /\ data f' = data f.
Proof.
  intros [] E. unfold close_output in E. rewrite (proj2 (Z.ltb_ge _ _)) in E by done.
  destruct (sys_close _ f) as [e1 f1] eqn:Ec. injection E as <- <- <-.
  apply close_view in Ec. by rewrite Ec.
Qed.

(** The file has its public name, or no name changed. *)
Definition named (temporary destination : str) (i : Z) (overwrite : bool) (f f' : F) : Prop :=
  names f' !! destination = Some i /\ data f' = data f /\
  (overwrite = false -> names f !! destination = None) /\
  forall q, q <> destination -> q <> temporary -> names f' !! q = names f !! q.

Lemma rename_named p q i overwrite f f' :
  names f !! p = Some i -> p <> q -> names f !! q <> Some i ->
  (overwrite = false -> names f !! q = None) ->
  sys_rename p q f = (0, f') -> named p q i overwrite f f'.
Proof.
  intros Hp Hne Hq Hov E. eapply rename_ok in E; [|done..]. unfold named. rewrite E. cbn.
  split_and!; [apply lookup_insert_eq|done|done|].
  intros r Hr Hr'. by rewrite lookup_insert_ne, lookup_delete_ne.
Qed.

Lemma publish_name_spec p q i overwrite f e f' :
  names f !! p = Some i -> p <> q -> names f !! q <> Some i ->
  publish_name p q overwrite f = (e, f') ->
  if e =? 0 then named p q i overwrite f f' else view f' = view f.
Proof.
  intros Hp Hne Hq. unfold publish_name. destruct overwrite.
  { intros E. destruct (Z.eqb_spec e 0) as [->|He]; [by eapply rename_named|by apply rename_err in E]. }
  destruct (sys_link p q f) as [el f1] eqn:El. destruct (Z.eqb_spec el 0) as [->|Hel].
  { intros [= <- <-]. cbn. eapply link_ok in El as [Hnone Hv]; [|done].
    destruct (sys_unlink p f1) as [eu f2] eqn:Eu. apply unlink_view in Eu. cbn. unfold named.
    destruct (eu =? 0); rewrite Eu, ?Hv; cbn.
    - split_and!; [by rewrite lookup_delete_ne, lookup_insert_eq|done|done|].
      intros r Hr Hr'. by rewrite lookup_delete_ne, lookup_insert_ne.
    - split_and!; [apply lookup_insert_eq|done|done|]. intros r Hr _. by rewrite lookup_insert_ne. }
  apply link_err in El; [|done]. destruct (hard_links_unavailable el); cbn [negb].
  2:{ intros [= <- <-]. by rewrite (proj2 (Z.eqb_neq _ _) Hel). }
  destruct (must_not_exist q f1) as [em f2] eqn:Em. apply must_not_exist_ok in Em as [Hv Hn].
  rewrite El in *. destruct (Z.eqb_spec em 0) as [->|Hem]; cbn [negb].
  - intros E. destruct (Z.eqb_spec e 0) as [->|He].
    + assert (Hr : named p q i false f2 f') by
        (eapply rename_named; [by rewrite Hv|done|by rewrite Hv|rewrite Hv; auto|exact E]).
      unfold named in *. by rewrite Hv in Hr.
    + apply rename_err in E; [|done]. by rewrite E, Hv.
  - intros [= <- <-]. rewrite (proj2 (Z.eqb_neq _ _) Hem). by rewrite Hv.
Qed.

Lemma publish_spec o overwrite f i d e o' f' :
  holds_file o f i d -> publish o overwrite f = (e, o', f') ->
  of_fd o' = -1 /\
  if e =? 0 then temporary o' = [] /\ named (temporary o) (destination_ o) i overwrite f f'
  else temporary o' = temporary o /\ names f' = names f /\ data f' = data f.
Proof.
  intros Hh. unfold publish. destruct (close_output o f) as [[ec oc] fc] eqn:Ec.
  apply (close_output_spec _ _ _ _ _ _ _ Hh) in Ec as (-> & Hn & Hd).
  destruct (Z.eqb_spec ec 0) as [->|He]; cbn [negb].
  2:{ intros [= <- <- <-]. split; [done|]. by rewrite (proj2 (Z.eqb_neq _ _) He). }
  destruct Hh as [_ _ _ Hname Honly Htmp [Hdst Hne]]. cbn [temporary destination_].
  unfold str_eqb. rewrite !bool_decide_eq_false_2 by done. cbn [orb].
  destruct (publish_name _ _ _ _) as [e1 f1] eqn:E. eapply publish_name_spec in E.
  2:{ rewrite Hn. exact Hname. }
  2:{ done. }
  2:{ rewrite Hn. intros Hq%Honly. by apply Hne. }
  destruct (Z.eqb_spec e1 0) as [->|He1]; cbn [negb]; intros [= <- <- <-]; (split; [done|]).
  - rewrite Z.eqb_refl. split; [done|]. unfold named in *. by rewrite Hn, Hd in E.
  - rewrite (proj2 (Z.eqb_neq _ _) He1). by rewrite E.
Qed.

(** The destructor takes at most the private name away. *)
Lemma dispose_output_spec o f :
  data (dispose_output o f) = data f /\
  (temporary o = [] -> names (dispose_output o f) = names f) /\
  (forall q, q <> temporary o -> names (dispose_output o f) !! q = names f !! q).
Proof.
  unfold dispose_output, close_output.
  destruct (if of_fd o <? 0 then _ else _) as [[ec oc] fc] eqn:Ec.
  assert (Hc : names fc = names f /\ data fc = data f /\ temporary oc = temporary o).
  { destruct (of_fd o <? 0); [by injection Ec as _ <- <-|].
    destruct (sys_close _ f) as [e1 f1] eqn:E1. injection Ec as _ <- <-. apply close_view in E1.
    by rewrite E1. }
  destruct Hc as (Hn & Hd & ->). unfold str_eqb. case_bool_decide as Ht; [by rewrite Hn, Hd|].
  destruct (sys_unlink _ fc) as [eu fu] eqn:Eu. apply unlink_view in Eu. cbn.
  destruct (eu =? 0); rewrite Eu; cbn; rewrite ?Hn, ?Hd; split_and!; try done.
  intros q Hq. by rewrite lookup_delete_ne.
Qed.
End Laws.

(** ** A file system in memory

    The laws hold of a file system that writes at most four bytes at a time. *)

Definition ram_file (f : files) (fd : Z) : option (Z * (Z * memory)) :=
  i ← fs_open f !! fd; d ← fs_data f !! i; Some (i, d).
Definition set_data (f : files) (i : Z) (d : Z * memory) : files :=
  mkFiles (fs_names f) (<[i := d]> (fs_data f)) (fs_open f).
Definition fresh_file (f : files) : Z := fresh (dom (fs_data f) ∪ map_img (fs_names f) : gset Z).

#[global] Instance ram_disk : Posix files := {
  open_excl p f :=
    match fs_names f !! p with
    | Some _ => (Err EEXIST, f)
    | None =>
        let i := fresh_file f in
        (Ok 3, mkFiles (<[p := i]> (fs_names f)) (<[i := (0, zeros)]> (fs_data f)) (<[3 := i]> (fs_open f)))
    end;
  open_read p f :=
    match fs_names f !! p with
    | Some i => (Ok 3, mkFiles (fs_names f) (fs_data f) (<[3 := i]> (fs_open f)))
    | None => (Err ENOENT, f)
    end;
  ftruncate fd size f :=
    match ram_file f fd with
    | Some (i, d) => (0, set_data f i (resized d size))
    | None => (EBADF, f)
    end;
  pwrite fd bytes pos f :=
    match ram_file f fd with
    | Some (i, d) => (Ok (Z.of_nat (length (take 4 bytes))), set_data f i (written d pos (take 4 bytes)))
    | None => (Err EBADF, f)
    end;
  pread fd n pos f :=
    match ram_file f fd with
    | Some (i, d) =>
        (Ok (map (fun k => d.2 (pos + Z.of_nat k)) (seq 0 (Z.to_nat (Z.min n (d.1 - pos))))), f)
    | None => (Err EBADF, f)
    end;
  sys_close fd f := (0, mkFiles (fs_names f) (fs_data f) (delete fd (fs_open f)));
  sys_link p q f :=
    match fs_names f !! p, fs_names f !! q with
    | Some i, None => (0, mkFiles (<[q := i]> (fs_names f)) (fs_data f) (fs_open f))
    | None, _ => (ENOENT, f)
    | _, Some _ => (EEXIST, f)
    end;
  sys_unlink p f :=
    match fs_names f !! p with
    | Some _ => (0, mkFiles (delete p (fs_names f)) (fs_data f) (fs_open f))
    | None => (ENOENT, f)
    end;
  sys_rename p q f :=
    match fs_names f !! p with
    | Some i => (0, mkFiles (<[q := i]> (delete p (fs_names f))) (fs_data f) (fs_open f))
    | None => (ENOENT, f)
    end;
  symlink_status p f :=
    match fs_names f !! p with Some _ => (0, true, f) | None => (ENOENT, false, f) end;
  signals _ := O;
}.

Lemma ram_file_some f fd i d :
  fs_open f !! fd = Some i -> fs_data f !! i = Some d -> ram_file f fd = Some (i, d).
Proof. intros E1 E2. unfold ram_file. rewrite E1. cbn. by rewrite E2. Qed.

#[global, refine] Instance ram_disk_laws : PosixLaws files := {| view f := f |}.
Proof.
  all: cbn; intros; repeat case_match; simplify_eq/=; try done;
    repeat match goal with
    | Ho : fs_open _ !! _ = Some _, Hd : fs_data _ !! _ = Some _ |- _ =>
        rewrite (ram_file_some _ _ _ _ Ho Hd) in *; simplify_eq/=
    end; try done.
  - split; [done|]. split; [done|]. exists (fresh_file f).
    pose proof (is_fresh (dom (fs_data f) ∪ map_img (fs_names f) : gset Z)) as Hf.
    fold (fresh_file f) in Hf. apply not_elem_of_union in Hf as [Hd Hi].
    split_and!; [by apply not_elem_of_dom|intros q Hq; by apply Hi, (elem_of_map_img_2 _ q)|done].
  - split; [rewrite length_take; lia|].
    assert (take (Z.to_nat (Z.of_nat (length (take 4 bytes)))) bytes = take 4 bytes) as ->; [|done].
    rewrite Nat2Z.id, length_take. destruct (Nat.le_ge_cases 4 (length bytes)).
    + by rewrite Nat.min_l.
    + rewrite Nat.min_r by done. by rewrite (firstn_all2 bytes (n := 4)), firstn_all.
  - split; [done|]. by intros [?|[_ ?]].
Defined.
