(* ===== verification/CurlSetup.v ===== *)
(** * CurlSetup: the options an easy handle gets

    Models build_headers to apply_http_options and configure of
    [src/src/runtime/transport.cpp] and ca_default_to_clear of
    [src/src/backends/credentials.cpp].  The state of an easy handle is the
    list of the settings it accepted since [curl_easy_reset], oldest first;
    what [curl_easy_setopt] answers, the name and number of an option and the
    text of a code are libcurl's.  A value is a long, a copied C string, a
    header or resolve list, or an address (of a callback, of the object it is
    called with or of a buffer).  The theorem of this file shows what a handle
    that [configure] accepts may do. *)

From S2P Require Import Prelude Text Uri Types Planner Response Transport.

(** ** Handles *)

Inductive CURLoption :=
| URL | WRITEFUNCTION | WRITEDATA | HEADERFUNCTION | HEADERDATA | PRIVATE | SHARE | ERRORBUFFER
| NOSIGNAL | PATH_AS_IS | UNRESTRICTED_AUTH | MAXREDIRS | TCP_KEEPALIVE | CONNECTTIMEOUT
| TIMEOUT_MS | LOW_SPEED_LIMIT | LOW_SPEED_TIME | SUPPRESS_CONNECT_HEADERS
| DNS_SHUFFLE_ADDRESSES | DNS_CACHE_TIMEOUT | RESOLVE | BUFFERSIZE
| PROTOCOLS_STR | REDIR_PROTOCOLS_STR | FOLLOWLOCATION | HTTP_VERSION | PIPEWAIT
| CAINFO | CAPATH | PROXY | PROXYUSERPWD | USERAGENT | HTTPHEADER
| TIMEOUT | POST | POSTFIELDS | POSTFIELDSIZE | CUSTOMREQUEST.

#[export] Instance CURLoption_eq_dec : EqDecision CURLoption.
Proof. solve_decision. Defined.

(** What the pointers of a configuration point at. *)
Inductive target_of := Callback_write | Callback_header | Callback_probe_body
| Callback_probe_header | The_transfer | The_probe | The_share | The_error_buffer
| Callback_collect_body | The_body.

Inductive OptValue :=
| Long (value : Z)
| CString (text : str)
| NullString
| Slist (lines : list str)
| Bytes (data : str)
| Address (target : target_of).

Definition easy_handle := list (CURLoption * OptValue).

(** The setting in force: the last one accepted. *)
Fixpoint setting (h : easy_handle) (o : CURLoption) : option OptValue :=
  match h with
  | [] => None
  | (p, v) :: h =>
      match setting h o with
      | Some w => Some w
      | None => if bool_decide (p = o) then Some v else None
      end
  end.

(** What a C string function reads of a string. *)
Definition c_str (text : str) : str := take_to (find_char text "000") text.

(** ** Setup steps: a state and error monad on the handle *)

Definition setup := easy_handle -> expected str unit * easy_handle.

Definition setup_done : setup := fun h => (Ok tt, h).
Definition and_then (a b : setup) : setup := fun h =>
  match a h with (Ok _, h) => b h | (Err e, h) => (Err e, h) end.
Declare Scope setup_scope.
Notation "a ;> b" := (and_then a b) (at level 60, right associativity) : setup_scope.
#[local] Open Scope setup_scope.

(** ** [build_headers] *)

Definition CRLF : str := ["013"; "010"]%char.

Definition bad_header (name value : str) : bool :=
  str_eqb name [] || bool_decide (is_Some (find_first_of name (":"%char :: CRLF) 0))
  || bool_decide (is_Some (find_first_of value CRLF 0)).

(** [appended]: what [curl_slist_append], which copies a C string, answers. *)
Definition append_header (lines : list str) (name value : str) (appended : bool)
    : expected str (list str) :=
  if bad_header name value then Err $"invalid HTTP header name or value"
  else if negb appended then Err $"out of memory building HTTP headers"
  else Ok (lines ++ [c_str (name ++ $": " ++ value)]).

Fixpoint append_headers (lines : list str) (values : list (str * str)) (heap : list bool)
    : expected str (list str) :=
  match values with
  | [] => Ok lines
  | (name, value) :: values =>
      lines ← append_header lines name value (hd true heap);
      append_headers lines values (tl heap)
  end.

(** The Range header is appended like the others, after them. *)
Definition build_headers (values : list (str * str)) (range : str) (heap : list bool)
    : expected str (list str) :=
  append_headers [] (values ++ [($"Range", range)]) heap.

(** ** Options *)

Section Setup.
(** libcurl: the answer to a setting, the text of a code, the name of an
    option without its prefix and its number, and the version of the library
    at run time (0 when it is unknown). *)
Variable setopt : easy_handle -> CURLoption -> OptValue -> CURLcode.
Variable curl_easy_strerror : CURLcode -> str.
Variable option_name : CURLoption -> option str.
Variable option_number : CURLoption -> Z.
Variable version_num : Z.

Definition set_option (o : CURLoption) (v : OptValue) : setup := fun h =>
  let code := setopt h o v in
  if curl_ok code then (Ok tt, h ++ [(o, v)])
  else
    (Err (match option_name o with
          | Some name => concat [Text $"CURLOPT_"; Text name; Text $": "; Text (curl_easy_strerror code)]
          | None => concat [Text $"curl option "; Integer (option_number o); Text $": ";
                            Text (curl_easy_strerror code)]
          end), h).

Fixpoint set_options (calls : list (CURLoption * OptValue)) : setup :=
  match calls with
  | [] => setup_done
  | (o, v) :: calls => set_option o v ;> set_options calls
  end.

(** A setting whose failure is ignored. *)
Definition try_option (o : CURLoption) (v : OptValue) : setup := fun h =>
  (Ok tt, if curl_ok (setopt h o v) then h ++ [(o, v)] else h).

(** libcurl 7.85 and later. *)
Definition restrict_to_http : setup :=
  set_options [(PROTOCOLS_STR, CString $"http,https"); (REDIR_PROTOCOLS_STR, CString $"http,https")].

Definition spread_connections : setup :=
  set_options [(DNS_SHUFFLE_ADDRESSES, Long 1); (DNS_CACHE_TIMEOUT, Long 60)].

Definition receive_buffer_size : Z :=
  if 0x080700 <=? version_num then Z.shiftl 256 10 else Z.shiftl 64 10.

(** libcurl's constants. *)
Definition curl_http_version (v : HttpVersion) : Z :=
  match v with Automatic => 0 | Http1_1 => 2 | Http2Tls => 4 | Http2PriorKnowledge => 5 end.

Definition uses_http2 (v : HttpVersion) : bool :=
  match v with Http2Tls | Http2PriorKnowledge => true | _ => false end.

Record CurlCaSupport := {
  ca_version : Z; ca_tls : str; default_ca_path : bool; default_bundle : bool;
  hashed_ca_directory : bool;
}.
Inductive CaDefault := ca_none | ca_directory | ca_default_bundle.

Definition ca_default_to_clear (o : HttpRequestOptions) (curl : CurlCaSupport) : CaDefault :=
  let openssl := starts_with (ca_tls curl) $"OpenSSL/" || starts_with (ca_tls curl) $"LibreSSL/"
                 || starts_with (ca_tls curl) $"BoringSSL" || starts_with (ca_tls curl) $"AWS-LC/"
                 || starts_with (ca_tls curl) $"quictls/" in
  if negb openssl || negb (str_eqb (ca_path o) []) then ca_none
  else
    let configured_bundle := negb (str_eqb (ca_bundle o) []) && negb (system_ca_bundle o) in
    if negb configured_bundle && hashed_ca_directory curl then ca_default_bundle
    else if (0x075700 <=? ca_version curl) && default_ca_path curl
            && (negb (str_eqb (ca_bundle o) []) || default_bundle curl) then ca_directory
    else ca_none.

(** [running_curl_ca_support()] *)
Variable ca_support : CurlCaSupport.

Definition apply_string (o : CURLoption) (value : str) : setup :=
  if str_eqb value [] then setup_done else set_option o (CString (c_str value)).

Definition flag (b : bool) : OptValue := Long (if b then 1 else 0).

Definition apply_http_options (o : HttpRequestOptions) : setup :=
  set_options [(FOLLOWLOCATION, flag (follow_redirects o));
               (HTTP_VERSION, Long (curl_http_version (version o)));
               (PIPEWAIT, flag (uses_http2 (version o)))] ;>
  apply_string CAINFO (ca_bundle o) ;>
  apply_string CAPATH (ca_path o) ;>
  match ca_default_to_clear o ca_support with
  | ca_directory => set_option CAPATH NullString
  | ca_default_bundle => set_option CAINFO NullString
  | ca_none => setup_done
  end ;>
  apply_string PROXY (proxy o) ;>
  apply_string PROXYUSERPWD (proxy_user_password o) ;>
  apply_string USERAGENT (user_agent o).

(** The first options of [configure]. *)
Definition transfer_settings (now : Z) (options : ClientOptions) (t : Transfer) : easy_handle :=
  [(URL, CString (c_str (request_url t))); (WRITEFUNCTION, Address Callback_write);
  (WRITEDATA, Address The_transfer); (HEADERFUNCTION, Address Callback_header);
  (HEADERDATA, Address The_transfer); (PRIVATE, Address The_transfer);
  (SHARE, Address The_share); (ERRORBUFFER, Address The_error_buffer);
  (NOSIGNAL, Long 1); (PATH_AS_IS, Long 1); (UNRESTRICTED_AUTH, Long 0);
  (MAXREDIRS, Long 10); (TCP_KEEPALIVE, Long 1);
  (CONNECTTIMEOUT, Long (connect_timeout_seconds options));
  (TIMEOUT_MS, Long (curl_timeout_ms now (deadline t)));
  (LOW_SPEED_LIMIT, Long (low_speed_limit options));
  (LOW_SPEED_TIME, Long (low_speed_time_seconds options));
  (SUPPRESS_CONNECT_HEADERS, Long 1)].

(** [configure(transfer, share, options)] at time [now]: the transfer, and the
    handle it was given; [resolve] is the transfer's list of pinned addresses. *)
Definition configure (now : Z) (heap : list bool) (resolve : option (list str))
    (options : ClientOptions) (t : Transfer) (h : easy_handle)
    : Transfer * (expected str unit * easy_handle) :=
  if negb (bool_decide (is_Some (http t)) && bool_decide (is_Some (http_buffers t))) then
    (t, (Err $"HTTP transfer state is not initialized", h))
  else
    let t := reset_response t in
    let t := t <| t_range_fallback_limit := range_fallback_limit options |>
               <| http_buffers := (fun b => b <| error := [] |>) <$> http_buffers t |> in
    match build_headers (request_headers t) (request_range t) heap with
    | Err e => (t, (Err e, h))
    | Ok lines =>
        (t,
         (set_options (transfer_settings now options t) ;>
          spread_connections ;>
          match resolve with Some l => set_option RESOLVE (Slist l) | None => setup_done end ;>
          try_option BUFFERSIZE (Long receive_buffer_size) ;>
          restrict_to_http ;>
          apply_http_options (http_of t) ;>
          match lines with [] => setup_done | _ => set_option HTTPHEADER (Slist lines) end) h)
    end.

(** ** What an accepted configuration leaves *)

Lemma setting_app h1 h2 o :
  setting (h1 ++ h2) o = match setting h2 o with Some v => Some v | None => setting h1 o end.
Proof.
  induction h1 as [|[p v] h1 IH]; cbn; [by destruct (setting h2 o)|]. rewrite IH.
  by destruct (setting h2 o).
Qed.

(** A step that succeeds appends these settings. *)
Definition adds (s : setup) (calls : easy_handle) : Prop :=
  forall h h', s h = (Ok tt, h') -> h' = h ++ calls.

Lemma adds_done : adds setup_done [].
Proof. intros h h' [= <-]. by rewrite app_nil_r. Qed.

Lemma adds_then a b l l' : adds a l -> adds b l' -> adds (a ;> b) (l ++ l').
Proof.
  intros Ha Hb h h'. unfold and_then. destruct (a h) as [[[]|e] h1] eqn:E; [|done].
  intros E2. rewrite (Hb _ _ E2), (Ha _ _ E). by rewrite app_assoc.
Qed.

Lemma adds_option o v : adds (set_option o v) [(o, v)].
Proof. intros h h'. unfold set_option. by destruct (curl_ok _); intros [= <-]. Qed.

Lemma adds_options calls : adds (set_options calls) calls.
Proof.
  induction calls as [|[o v] calls IH]; cbn [set_options]; [exact adds_done|].
  exact (adds_then _ _ [_] _ (adds_option o v) IH).
Qed.

Lemma adds_string o v : adds (apply_string o v) (if str_eqb v [] then [] else [(o, CString (c_str v))]).
Proof. unfold apply_string. destruct (str_eqb v []); [exact adds_done|apply adds_option]. Qed.

(** [apply_http_options] as a list. *)
Definition http_settings (o : HttpRequestOptions) : easy_handle :=
  let text p v := if str_eqb v [] then [] else [(p, CString (c_str v))] in
  [(FOLLOWLOCATION, flag (follow_redirects o)); (HTTP_VERSION, Long (curl_http_version (version o)));
   (PIPEWAIT, flag (uses_http2 (version o)))]
  ++ text CAINFO (ca_bundle o) ++ text CAPATH (ca_path o)
  ++ match ca_default_to_clear o ca_support with
     | ca_directory => [(CAPATH, NullString)]
     | ca_default_bundle => [(CAINFO, NullString)]
     | ca_none => []
     end
  ++ text PROXY (proxy o) ++ text PROXYUSERPWD (proxy_user_password o) ++ text USERAGENT (user_agent o).

Lemma adds_http o : adds (apply_http_options o) (http_settings o).
Proof.
  unfold apply_http_options, http_settings.
  repeat first [apply adds_then | apply adds_string | apply adds_options].
  destruct (ca_default_to_clear o ca_support); [apply adds_done|apply adds_option..].
Qed.

(** Which options [apply_http_options] leaves alone. *)
Definition http_option (o : CURLoption) : bool :=
  match o with
  | FOLLOWLOCATION | HTTP_VERSION | PIPEWAIT | CAINFO | CAPATH | PROXY | PROXYUSERPWD | USERAGENT => true
  | _ => false
  end.

Lemma http_settings_other h o : http_option o = false -> setting (http_settings h) o = None.
Proof.
  intros Ho. unfold http_settings. rewrite !setting_app.
  repeat match goal with |- context [str_eqb ?v []] => destruct (str_eqb v []) end;
    destruct (ca_default_to_clear h ca_support); by destruct o.
Qed.

Lemma http_settings_follow h :
  setting (http_settings h) FOLLOWLOCATION = Some (flag (follow_redirects h)).
Proof.
  unfold http_settings. rewrite !setting_app.
  repeat match goal with |- context [str_eqb ?v []] => destruct (str_eqb v []) end;
    by destruct (ca_default_to_clear h ca_support).
Qed.

(** Certificates the caller chose are the ones that are used. *)
Lemma http_settings_ca h :
  (ca_bundle h <> [] -> system_ca_bundle h = false ->
   setting (http_settings h) CAINFO = Some (CString (c_str (ca_bundle h)))) /\
  (ca_path h <> [] -> setting (http_settings h) CAPATH = Some (CString (c_str (ca_path h)))).
Proof.
  assert (Hne : forall v, v <> [] -> str_eqb v [] = false)
    by (intros v Hv; apply not_true_iff_false; by rewrite str_eqb_eq).
  split.
  - intros Hb Hs. unfold http_settings. rewrite !setting_app, (Hne _ Hb).
    assert (ca_default_to_clear h ca_support <> ca_default_bundle) as Hc.
    { unfold ca_default_to_clear. rewrite (Hne _ Hb), Hs. by repeat case_match. }
    repeat match goal with |- context [str_eqb ?v []] => destruct (str_eqb v []) end;
      by destruct (ca_default_to_clear h ca_support).
  - intros Hp. unfold http_settings. rewrite !setting_app, (Hne _ Hp).
    assert (ca_default_to_clear h ca_support = ca_none) as ->.
    { unfold ca_default_to_clear. rewrite (Hne _ Hp), orb_true_r. done. }
    by repeat match goal with |- context [str_eqb ?v []] => destruct (str_eqb v []) end.
Qed.

(** ** Header lines *)

Definition header_line (h : str * str) : str := c_str (h.1 ++ $": " ++ h.2).
Definition one_line (text : str) : Prop := Forall (fun c => char_in CRLF c = false) text.

Lemma find_none_forall set text :
  bool_decide (is_Some (find_first_of text set 0)) = false -> Forall (fun c => char_in set c = false) text.
Proof.
  unfold find_first_of, find_if_from. rewrite drop_0. intros E%bool_decide_eq_false.
  destruct (find_if (char_in set) text) eqn:F; [by destruct E|]. by apply find_if_None.
Qed.

Lemma good_header_one_line name value : bad_header name value = false -> one_line (header_line (name, value)).
Proof.
  unfold bad_header. intros [[_ Hn%find_none_forall]%orb_false_iff Hv%find_none_forall]%orb_false_iff.
  assert (one_line (name ++ $": " ++ value)) as Hl.
  { unfold one_line. rewrite !Forall_app. split_and!; [|by repeat constructor|done].
    eapply Forall_impl; [exact Hn|]. intros c. unfold char_in. cbn [existsb].
    by intros [_ ?]%orb_false_iff. }
  unfold header_line, c_str, take_to. cbn [fst snd]. destruct (find_char _ _); [by apply Forall_take|done].
Qed.

Lemma append_headers_ok values : forall lines heap lines',
  append_headers lines values heap = Ok lines' ->
  lines' = lines ++ map header_line values /\ Forall (fun h => bad_header h.1 h.2 = false) values.
Proof.
  induction values as [|[name value] values IH]; intros lines heap lines'; cbn [append_headers].
  - intros [= <-]. by rewrite app_nil_r.
  - intros (l & Hl & [-> Hv]%IH)%expected_bind_ok. unfold append_header in Hl.
    destruct (bad_header name value) eqn:E; [done|]. destruct (negb _); [done|]. injection Hl as <-.
    split; [by rewrite <-app_assoc|by constructor].
Qed.

(** ** The configured handle *)

(** What the transfers' handles are confined to. *)
Record confined (now : Z) (options : ClientOptions) (t : Transfer) (h : easy_handle) : Prop := {
  c_url : setting h URL = Some (CString (c_str (request_url t)));
  c_headers : exists lines, setting h HTTPHEADER = Some (Slist lines) /\
    lines = map header_line (request_headers t ++ [($"Range", request_range t)]) /\
    Forall one_line lines;
  c_protocols : setting h PROTOCOLS_STR = Some (CString $"http,https") /\
    setting h REDIR_PROTOCOLS_STR = Some (CString $"http,https");
  c_redirects : setting h FOLLOWLOCATION = Some (flag (follow_redirects (http_of t))) /\
    setting h MAXREDIRS = Some (Long 10);
  c_auth : setting h UNRESTRICTED_AUTH = Some (Long 0);
  c_callbacks : setting h WRITEFUNCTION = Some (Address Callback_write) /\
    setting h HEADERFUNCTION = Some (Address Callback_header) /\
    setting h WRITEDATA = Some (Address The_transfer) /\
    setting h HEADERDATA = Some (Address The_transfer);
  c_time : setting h TIMEOUT_MS = Some (Long (curl_timeout_ms now (deadline t)));
  c_ca : (ca_bundle (http_of t) <> [] -> system_ca_bundle (http_of t) = false ->
            setting h CAINFO = Some (CString (c_str (ca_bundle (http_of t))))) /\
         (ca_path (http_of t) <> [] -> setting h CAPATH = Some (CString (c_str (ca_path (http_of t)))));
}.

Definition header_setting (t : Transfer) : OptValue :=
  Slist (map header_line (request_headers t ++ [($"Range", request_range t)])).

Lemma adds_headers values range :
  adds match map header_line (values ++ [range]) with
       | [] => setup_done
       | _ => set_option HTTPHEADER (Slist (map header_line (values ++ [range])))
       end
    [(HTTPHEADER, Slist (map header_line (values ++ [range])))].
Proof. rewrite map_app. destruct (map header_line values); apply adds_option. Qed.

Lemma configure_settings now heap resolve options t t' h' :
  configure now heap resolve options t [] = (t', (Ok tt, h')) ->
  exists middle,
    (forall o, o <> RESOLVE -> o <> BUFFERSIZE -> setting middle o = None) /\
    h' = transfer_settings now options t
         ++ [(DNS_SHUFFLE_ADDRESSES, Long 1); (DNS_CACHE_TIMEOUT, Long 60)] ++ middle
         ++ [(PROTOCOLS_STR, CString $"http,https"); (REDIR_PROTOCOLS_STR, CString $"http,https")]
         ++ http_settings (http_of t) ++ [(HTTPHEADER, header_setting t)] /\
    Forall (fun h => bad_header h.1 h.2 = false) (request_headers t ++ [($"Range", request_range t)]).
Proof.
  unfold configure. destruct (negb _); [done|]. cbv zeta.
  destruct (build_headers _ _ heap) as [lines|e] eqn:Eb; [|done].
  apply append_headers_ok in Eb as [-> Hgood]. change (([] ++ ?x)%list) with x.
  set (last_step := match map _ _ with [] => _ | _ => _ end).
  assert (Hlast : adds last_step [(HTTPHEADER, header_setting t)]) by apply adds_headers.
  clearbody last_step.
  set (pin := match resolve with Some l => set_option RESOLVE (Slist l) | None => setup_done end).
  unfold and_then at 1. destruct (set_options _ []) as [[[]|e] h1] eqn:E1; [|done].
  apply adds_options in E1 as ->.
  unfold and_then at 1. destruct (spread_connections _) as [[[]|e] h2] eqn:E2; [|done].
  apply adds_options in E2 as ->.
  unfold and_then at 1. destruct (pin _) as [[[]|e] h3] eqn:E3; [|done].
  assert (exists l, h3 = ([] ++ transfer_settings now options t)
    ++ [(DNS_SHUFFLE_ADDRESSES, Long 1); (DNS_CACHE_TIMEOUT, Long 60)] ++ l /\
    forall o, o <> RESOLVE -> setting l o = None) as (l & -> & Hl).
  { unfold pin in E3. destruct resolve as [r|].
    - apply adds_option in E3 as ->. rewrite <-app_assoc. eexists. split; [done|].
      intros o Ho. cbn. by rewrite bool_decide_eq_false_2 by congruence.
    - injection E3 as <-. exists []. by rewrite app_nil_r. }
  unfold and_then at 1, try_option at 1. intros E%(f_equal snd). cbn [snd] in E.
  apply (adds_then _ _ _ _ (adds_options _) (adds_then _ _ _ _ (adds_http (http_of t)) Hlast)) in E as ->.
  exists (l ++ if curl_ok (setopt (([] ++ transfer_settings now options t)
    ++ [(DNS_SHUFFLE_ADDRESSES, Long 1); (DNS_CACHE_TIMEOUT, Long 60)] ++ l) BUFFERSIZE
      (Long receive_buffer_size)) then [(BUFFERSIZE, Long receive_buffer_size)] else []).
  split_and!; [| |done].
  - intros o Ho Hb. rewrite setting_app, Hl by done. destruct (curl_ok _); [|done].
    cbn. by rewrite bool_decide_eq_false_2 by congruence.
  - cbn [app]. destruct (curl_ok _); rewrite ?app_nil_r, <-!app_assoc; reflexivity.
Qed.
(** C38: a handle does what the transfer asks and nothing else: when
    [configure] accepts a fresh handle, it will ask for the request's URL with
    exactly the request's headers and its Range, each on a line of its own,
    over HTTP only (also after a redirect), follow redirects only when the
    request allows them, send credentials to no other host, call back into
    this transfer, stop at its deadline, and trust the certificates the caller
    configured. *)
Theorem configured_handle_is_confined now heap resolve options t t' h :
  configure now heap resolve options t [] = (t', (Ok tt, h)) -> confined now options t h.
Proof.
  intros (mid & Hmid & -> & Hgood)%configure_settings.
  pose proof (http_settings_ca (http_of t)) as [Hca Hpath].
  constructor; repeat match goal with |- _ /\ _ => split end; intros;
    rewrite ?setting_app, ?http_settings_other, ?http_settings_follow, ?Hmid, ?Hca, ?Hpath by done;
    try reflexivity.
  exists (map header_line (request_headers t ++ [($"Range", request_range t)])).
  split_and!; [done..|].
  apply Forall_fmap. eapply Forall_impl; [exact Hgood|]. intros [name value]. apply good_header_one_line.
Qed.
End Setup.

(** A libcurl that accepts every option, and a transfer ready for its handle. *)
Definition accepting : easy_handle -> CURLoption -> OptValue -> CURLcode := fun _ _ _ => CURLE_OK.
Definition example_support : CurlCaSupport :=
  {| ca_version := 0x080500; ca_tls := $"OpenSSL/3.0.13"; default_ca_path := true;
     default_bundle := true; hashed_ca_directory := true |}.
Definition configured_example : Transfer :=
  (Transfer_default (Resolved_default <| backend := Http |>))
    <| request_url := $"https://host/object" |> <| request_range := $"bytes=0-9" |>
    <| request_headers := [($"Authorization", $"Bearer token")] |>
    <| http := Some (HttpRequestOptions_default <| ca_bundle := $"/etc/ca.pem" |>) |>
    <| http_buffers := Some HttpBuffers_default |>.

Lemma configured_handle_is_confined_witness :
  exists t' h,
    configure accepting (fun _ => []) (fun _ => None) (fun _ => 0) 0x080700 example_support 0 []
      None ClientOptions_default configured_example [] = (t', (Ok tt, h)) /\
    confined 0 ClientOptions_default configured_example h /\
    setting h HTTPHEADER = Some (Slist [$"Authorization: Bearer token"; $"Range: bytes=0-9"]) /\
    setting h CAPATH = Some NullString.
Proof.
  eexists _, _. split; [vm_compute; reflexivity|]. split; [|split; vm_compute; reflexivity].
  eapply (configured_handle_is_confined accepting (fun _ => []) (fun _ => None) (fun _ => 0) 0x080700
            example_support 0 [] None ClientOptions_default configured_example).
  vm_compute. reflexivity.
Defined.
