(* ===== verification/Probe.v ===== *)
(** * Probe: a ranged read on the calling thread

    Models ProbeState, its callbacks, get_range and object_info of
    [src/src/runtime/transport.cpp].  An exchange with a server is the
    sequence of calls [curl_easy_perform] makes, with what
    [curl_easy_getinfo] answers at each, and the code it returns; it ends at
    the first call that does not consume its data.  The request builder is
    used through the class [ProbeRequests], whose state (the credential cache)
    the calls thread.  The theorems show that a read always answers, and that
    the answer of an honest server, in any number of chunks, through
    redirects, corrections and retries, is exactly the requested bytes. *)

From S2P Require Import Prelude Text Uri Types Planner Response Transport CurlSetup.

(** ** [ProbeState] *)

Record ProbeState := mkProbe {
  pb_range : ByteRange;
  pb_destination : Z;
  pb_if_match : str;
  pb_fallback_limit : Z;
  pb_follow_redirects : bool;
  pb_same_origin_redirects_only : bool;
  pb_original_url : str;
  pb_stats : RangeStats;            (* what the pointer points at *)
  pb_http_status : Z;
  pb_total : Z;
  pb_have_total : bool;
  pb_content_range_valid : bool;
  pb_content_range_answers : bool;
  pb_unsatisfied_valid : bool;
  pb_range_first : Z;
  pb_range_last : Z;
  pb_started : bool;
  pb_skip : Z;
  pb_wanted : Z;
  pb_stored : Z;
  pb_cut_short : bool;
  pb_body_exceeded : bool;
  pb_suffix_ignored : bool;
  pb_fallback_rejected : bool;
  pb_version_changed : bool;
  pb_redirect_blocked : bool;
  pb_retry_after : Z;
  pb_response_region : str;
  pb_etag : str;
  pb_encoding : EncodingHeaders;
  pb_error_body : str;
  pb_error_body_received : Z;
}.
#[export] Instance ProbeState_eta : Eta ProbeState := fun s =>
  mkProbe (pb_range s) (pb_destination s) (pb_if_match s) (pb_fallback_limit s)
    (pb_follow_redirects s) (pb_same_origin_redirects_only s) (pb_original_url s) (pb_stats s)
    (pb_http_status s) (pb_total s) (pb_have_total s) (pb_content_range_valid s)
    (pb_content_range_answers s) (pb_unsatisfied_valid s) (pb_range_first s) (pb_range_last s)
    (pb_started s) (pb_skip s) (pb_wanted s) (pb_stored s) (pb_cut_short s) (pb_body_exceeded s)
    (pb_suffix_ignored s) (pb_fallback_rejected s) (pb_version_changed s) (pb_redirect_blocked s)
    (pb_retry_after s) (pb_response_region s) (pb_etag s) (pb_encoding s) (pb_error_body s)
    (pb_error_body_received s).

Definition reset_probe (s : ProbeState) : ProbeState :=
  s <| pb_http_status := 0 |> <| pb_total := 0 |> <| pb_have_total := false |>
    <| pb_content_range_valid := false |> <| pb_content_range_answers := false |>
    <| pb_unsatisfied_valid := false |> <| pb_range_first := 0 |> <| pb_range_last := 0 |>
    <| pb_started := false |> <| pb_skip := 0 |> <| pb_wanted := 0 |> <| pb_stored := 0 |>
    <| pb_cut_short := false |> <| pb_body_exceeded := false |> <| pb_suffix_ignored := false |>
    <| pb_fallback_rejected := false |> <| pb_version_changed := false |>
    <| pb_redirect_blocked := false |> <| pb_retry_after := 0 |> <| pb_response_region := [] |>
    <| pb_etag := [] |> <| pb_encoding := EncodingHeaders_default |> <| pb_error_body := [] |>
    <| pb_error_body_received := 0 |>.

Definition answers (r : ByteRange) (first last total : Z) : bool :=
  if suffix r then
    (wrap64 (last + 1) =? total) && (wrap64 (wrap64 (last - first) + 1) =? Z.min (br_length r) total)
  else
    let end_ := wrap64 (wrap64 (br_first r + br_length r) - 1) in
    (first =? br_first r) && (last <=? end_) && ((last =? end_) || (wrap64 (last + 1) =? total)).

(** [content_length] is CURLINFO_CONTENT_LENGTH_DOWNLOAD_T, -1 when unknown. *)
Definition start_body (s : ProbeState) (status content_length : Z) : bool * ProbeState :=
  if transformed (pb_encoding s) then (false, s)
  else if is_strong_etag (pb_if_match s) && negb (str_eqb (pb_etag s) [])
          && negb (str_eqb (pb_etag s) (pb_if_match s))
  then (false, s <| pb_version_changed := true |>)
  else if status =? 206 then
    if negb (pb_content_range_answers s) then (false, s)
    else (true, s <| pb_wanted := wrap64 (wrap64 (pb_range_last s - pb_range_first s) + 1) |>)
  else if negb (status =? 200) then (false, s)
  else if negb (pb_have_total s) && (content_length <? 0) then (false, s)
  else
    let s := if pb_have_total s then s
             else s <| pb_total := content_length |> <| pb_have_total := true |> in
    let range := pb_range s in
    if suffix range then
      if br_length range <? pb_total s then (false, s <| pb_suffix_ignored := true |>)
      else (true, s <| pb_range_first := 0 |> <| pb_wanted := pb_total s |>)
    else if pb_fallback_limit s <? br_first range then (false, s <| pb_fallback_rejected := true |>)
    else
      (true, s <| pb_skip := br_first range |> <| pb_range_first := br_first range |>
               <| pb_wanted := if br_first range <? pb_total s
                               then Z.min (br_length range) (pb_total s - br_first range) else 0 |>).

Definition count_received (n : Z) (s : ProbeState) : ProbeState :=
  s <| pb_stats := (pb_stats s) <| received_bytes := received_bytes (pb_stats s) + n |> |>.

(** The payload part of [probe_body_callback]: [size] bytes of [data]. *)
Definition store_probe (s : ProbeState) (m : memory) (data : str) (status size : Z)
    : Z * ProbeState * memory :=
  let remaining := Z.of_nat (length data) in
  let drop_ := if 0 <? pb_skip s then Z.min (pb_skip s) remaining else 0 in
  let data := drop (Z.to_nat drop_) data in
  let remaining := remaining - drop_ in
  let s := s <| pb_skip := pb_skip s - drop_ |> in
  let room := wrap64 (pb_wanted s - pb_stored s) in
  if (status =? 206) && (room <? remaining) then (0, s <| pb_body_exceeded := true |>, m)
  else
    let take_ := Z.min room remaining in
    let '(s, m) :=
      if 0 <? take_ then
        (s <| pb_stored := wrap64 (pb_stored s + take_) |>,
         memcpy m (pb_destination s + pb_stored s) (take (Z.to_nat take_) data))
      else (s, m) in
    if (status =? 200) && (pb_skip s =? 0) && (pb_stored s =? pb_wanted s)
    then (0, s <| pb_cut_short := true |>, m)
    else (size, s, m).

Definition probe_body_callback (s : ProbeState) (m : memory) (data : str)
    (size count status content_length : Z) : Z * ProbeState * memory :=
  match callback_size size count with
  | None => (0, s, m)
  | Some bytes =>
      if is_3xx status && pb_follow_redirects s then (bytes, s, m)
      else if 300 <=? status then
        let s := s <| pb_error_body := capture_error_body (pb_error_body s) data |> in
        if kDrainLimit - Z.min kDrainLimit (pb_error_body_received s) <? bytes then (0, s, m)
        else (bytes, s <| pb_error_body_received := pb_error_body_received s + bytes |>, m)
      else
        let s := count_received bytes s in
        let '(go_on, s) :=
          if pb_started s then (true, s)
          else start_body (s <| pb_started := true |>) status content_length in
        if negb go_on then (0, s <| pb_cut_short := true |>, m)
        else store_probe s m data status bytes
  end.

Section Headers.
Variable curl_getdate : str -> Z.
Variable url_parts : str -> option (str * str * str).
Variable follow_parts : str -> str -> option (str * str * str).

Definition probe_content_range (s : ProbeState) (value : str) : ProbeState :=
  let '(parsed, r) := parse_content_range value
                        {| cr_first := pb_range_first s; cr_last := pb_range_last s;
                           cr_total := 0; cr_have_total := false |} in
  let s := s <| pb_range_first := cr_first r |> <| pb_range_last := cr_last r |>
             <| pb_content_range_valid := parsed && cr_have_total r |> in
  if pb_content_range_valid s then
    s <| pb_total := cr_total r |> <| pb_have_total := true |>
      <| pb_content_range_answers :=
           answers (pb_range s) (pb_range_first s) (pb_range_last s) (cr_total r) |>
  else
    let '(valid, unsatisfied_total) := parse_unsatisfied_content_range value 0 in
    let s := s <| pb_unsatisfied_valid := valid |> in
    if valid then s <| pb_total := unsatisfied_total |> <| pb_have_total := true |> else s.

Definition probe_header_callback (s : ProbeState) (line : str) (size count now : Z) : Z * ProbeState :=
  match callback_size size count with
  | None => (0, s)
  | Some bytes =>
      if starts_with line $"HTTP/" then
        (bytes, (reset_probe s) <| pb_http_status := response_status line |>)
      else if header_name_is line $"location:" && is_3xx (pb_http_status s)
              && pb_follow_redirects s && pb_same_origin_redirects_only s
              && negb (same_origin_redirect url_parts follow_parts (pb_original_url s)
                         (header_value line $"location:"))
      then (0, s <| pb_redirect_blocked := true |>)
      else if header_name_is line $"content-range:" then
        (bytes, probe_content_range s (header_value line $"content-range:"))
      else if header_name_is line $"x-amz-bucket-region:" then
        (bytes, s <| pb_response_region := header_value line $"x-amz-bucket-region:" |>)
      else if header_name_is line $"retry-after:" then
        (bytes, s <| pb_retry_after :=
                       retry_after_seconds curl_getdate (header_value line $"retry-after:") now |>)
      else if header_name_is line $"etag:" then
        let value := header_value line $"etag:" in
        (bytes, if (length value <=? 255)%nat && is_strong_etag value
                then s <| pb_etag := value |> else s)
      else (bytes, s <| pb_encoding := record_encoding (pb_encoding s) line |>)
  end.

(** ** One exchange: the calls of [curl_easy_perform] and its results *)

Inductive event :=
| HeaderLine (line : str) (size count now : Z)
| BodyData (data : str) (size count status content_length : Z).

Record Exchange := {
  x_events : list event;
  x_code : CURLcode;
  x_status : Z;            (* CURLINFO_RESPONSE_CODE after the exchange *)
  x_length : Z;            (* CURLINFO_CONTENT_LENGTH_DOWNLOAD_T after it *)
  x_connects : Z;          (* CURLINFO_NUM_CONNECTS, 0 when it cannot be read *)
  x_error : str;           (* the error buffer *)
}.

(** One call, and whether it consumed its data. *)
Definition run_event (e : event) (s : ProbeState) (m : memory) : bool * ProbeState * memory :=
  match e with
  | HeaderLine line size count now =>
      let '(n, s) := probe_header_callback s line size count now in
      (n =? Z.of_nat (length line), s, m)
  | BodyData data size count status content_length =>
      let '(n, s, m) := probe_body_callback s m data size count status content_length in
      (n =? Z.of_nat (length data), s, m)
  end.

Fixpoint run_events (es : list event) (s : ProbeState) (m : memory) : bool * ProbeState * memory :=
  match es with
  | [] => (true, s, m)
  | e :: es =>
      let '(consumed, s, m) := run_event e s m in
      if consumed then run_events es s m else (false, s, m)
  end.

(** ** Where the payload goes *)

Section Storing.
Variable obj : object_bytes.

Definition bytes_at (pos : Z) (data : str) : Prop :=
  forall i, 0 <= i < Z.of_nat (length data) -> nth (Z.to_nat i) data "000"%char = obj (pos + i).

(** [pos] is the object's position of the next byte of the body. *)
Record placed (s : ProbeState) (pos : Z) (m : memory) : Prop := {
  pl_skip : 0 <= pb_skip s;
  pl_stored : 0 <= pb_stored s <= pb_wanted s;
  pl_wanted : pb_wanted s <= U64_MAX;
  pl_pos : pos + pb_skip s = pb_range_first s + pb_stored s;
  pl_zero : 0 < pb_skip s -> pb_stored s = 0;
  pl_bytes : forall i, 0 <= i < pb_stored s -> m (pb_destination s + i) = obj (pb_range_first s + i);
}.

(** Only the position in the body changes while it is stored. *)
Definition stores (s s' : ProbeState) : Prop :=
  s' = s <| pb_skip := pb_skip s' |> <| pb_body_exceeded := pb_body_exceeded s' |>
         <| pb_stored := pb_stored s' |> <| pb_cut_short := pb_cut_short s' |>.

Lemma store_probe_stores s m data status size n s' m' :
  store_probe s m data status size = (n, s', m') -> stores s s'.
Proof.
  unfold store_probe, stores. destruct s.
  destruct (_ && (_ <? _)); [by intros [= <- <- <-]|].
  destruct (0 <? Z.min _ _); cbv zeta;
    match goal with |- context [if ?b then _ else _] => destruct b end; by intros [= <- <- <-].
Qed.

(** Nothing is written outside the wanted bytes. *)
Lemma store_probe_frame s m data status size n s' m' a :
  0 <= pb_stored s <= pb_wanted s -> pb_wanted s <= U64_MAX ->
  store_probe s m data status size = (n, s', m') ->
  a < pb_destination s + pb_stored s \/ pb_destination s + pb_wanted s <= a -> m' a = m a.
Proof.
  intros Hst Hw E Ha. revert E. unfold store_probe.
  cbn -[wrap64 Z.min Z.ltb memcpy take drop].
  rewrite (wrap64_small (pb_wanted s - pb_stored s)) by (unfold is_u64; lia).
  destruct (_ && (_ <? _ - _)); [by intros [= _ _ <-]|].
  match goal with |- context [Z.min (pb_wanted s - pb_stored s) ?r] =>
    set (t := Z.min (pb_wanted s - pb_stored s) r) end.
  destruct (Z.ltb_spec 0 t); (match goal with |- (if ?b then _ else _) = _ -> _ => destruct b end;
    intros [= _ _ <-]); try done; apply memcpy_out; rewrite length_take; lia.
Qed.

(** The memory after the next [t] wanted bytes, which follow [d] bytes of the
    chunk that are skipped. *)
Lemma store_probe_bytes s m data pos d t :
  placed s pos m -> bytes_at pos data -> 0 <= d <= Z.of_nat (length data) ->
  pos + d = pb_range_first s + pb_stored s \/ t <= 0 -> t <= Z.of_nat (length data) - d ->
  forall i, 0 <= i < pb_stored s + Z.max 0 t ->
    (if 0 <? t then memcpy m (pb_destination s + pb_stored s) (take (Z.to_nat t) (drop (Z.to_nat d) data))
     else m) (pb_destination s + i) = obj (pb_range_first s + i).
Proof.
  intros [_ Hst _ _ _ Hb] Hdata Hd Hpos Ht i Hi. destruct (Z.ltb_spec 0 t) as [Hlt|Hle]; [|apply Hb; lia].
  destruct (Z.ltb_spec i (pb_stored s)) as [E|E]; [rewrite memcpy_out by lia; apply Hb; lia|].
  replace (pb_destination s + i) with (pb_destination s + pb_stored s + (i - pb_stored s)) by lia.
  rewrite memcpy_in by (rewrite length_take, length_drop; lia).
  rewrite nth_lookup, lookup_take_lt, lookup_drop by lia. rewrite <-nth_lookup.
  replace (Z.to_nat d + Z.to_nat (i - pb_stored s))%nat with (Z.to_nat (d + (i - pb_stored s))) by lia.
  rewrite Hdata by lia. f_equal. lia.
Qed.

(** [stored], [memory] after a chunk, when the body goes on or is complete. *)
Lemma store_probe_places s m data status size n s' m' pos :
  status = 200 \/ status = 206 -> placed s pos m -> bytes_at pos data ->
  store_probe s m data status size = (n, s', m') ->
  (n = 0 /\ pb_cut_short s' = pb_cut_short s) \/
  (placed s' (pos + Z.of_nat (length data)) m' /\ pb_cut_short s' = pb_cut_short s) \/
  (n = 0 /\ status = 200 /\ pb_stored s' = pb_wanted s' /\ exists pos', placed s' pos' m').
Proof.
  intros Hstatus Hplaced Hdata. pose proof Hplaced as [Hskip Hst Hw Hpos Hz Hb]. unfold store_probe.
  set (n0 := Z.of_nat (length data)) in *. assert (0 <= n0) by (unfold n0; lia).
  set (d := if 0 <? pb_skip s then Z.min (pb_skip s) n0 else 0).
  assert (Hd : d = Z.min (pb_skip s) n0) by (unfold d; destruct (Z.ltb_spec 0 (pb_skip s)); lia).
  clearbody d. cbn -[wrap64 Z.min Z.ltb memcpy take drop].
  rewrite (wrap64_small (pb_wanted s - pb_stored s)) by (unfold is_u64; lia).
  destruct (_ && (_ <? n0 - d)) eqn:Eexceed; [intros [= <- <- <-]; by left|].
  assert (Hroom : status = 206 -> n0 - d <= pb_wanted s - pb_stored s)
    by (intros ->; cbn in Eexceed; lia).
  intros Estore. right. revert Estore.
  set (t := Z.min (pb_wanted s - pb_stored s) (n0 - d)).
  assert (Ht : t = Z.min (pb_wanted s - pb_stored s) (n0 - d)) by done. clearbody t.
  set (stored' := if 0 <? t then pb_stored s + t else pb_stored s).
  assert (Hst' : stored' = pb_stored s + t) by (unfold stored'; destruct (Z.ltb_spec 0 t); lia).
  pose proof (store_probe_bytes _ _ _ _ d t Hplaced Hdata ltac:(lia) ltac:(lia) ltac:(lia)) as Hmem.
  replace (pb_stored s + Z.max 0 t) with stored' in Hmem by lia.
  rewrite (wrap64_small (pb_stored s + t)) by (unfold is_u64; lia).
  set (chunk := take (Z.to_nat t) (drop (Z.to_nat d) data)) in *.
  assert (Hgoal : forall s1 m1, s1 = (s <| pb_skip := pb_skip s - d |>) <| pb_stored := stored' |> ->
    m1 = (if 0 <? t then memcpy m (pb_destination s + pb_stored s) chunk else m) ->
    (if (status =? 200) && (pb_skip s1 =? 0) && (pb_stored s1 =? pb_wanted s1)
     then (0, s1 <| pb_cut_short := true |>, m1) else (size, s1, m1)) = (n, s', m') ->
    (placed s' (pos + n0) m' /\ pb_cut_short s' = pb_cut_short s) \/
    (n = 0 /\ status = 200 /\ pb_stored s' = pb_wanted s' /\ exists pos', placed s' pos' m')).
  { intros s1 m1 -> ->. cbn. rewrite Hst' in *.
    destruct ((status =? 200) && _ && _) eqn:Ec; intros [= <- <- <-]; [right|left].
    - repeat (apply andb_true_iff in Ec as [Ec ?%Z.eqb_eq]). apply Z.eqb_eq in Ec.
      split_and!; [done|done|done|]. exists (pb_range_first s + (pb_stored s + t)).
      constructor; cbn; try lia. exact Hmem.
    - split; [|done]. constructor; cbn; [lia|lia|lia| |lia|exact Hmem].
      destruct Hstatus as [->| ->]; [|specialize (Hroom eq_refl); lia]. cbn in Ec. lia. }
  revert Hgoal. unfold stored'.
  destruct (Z.ltb_spec 0 t); intros Hgoal E; (eapply Hgoal; [..|exact E]; by destruct s).
Qed.
End Storing.

(** ** [get_range] *)

(** The request builder, with the state its calls change. *)
Class ProbeRequests (W : Type) := {
  pr_prepare : Locator -> Z -> Z -> str -> str -> W -> expected RequestError PreparedRequest * W;
  pr_prepare_suffix : Locator -> Z -> str -> str -> W -> expected RequestError PreparedRequest * W;
  pr_invalidate : Locator -> W -> W;
}.

Section Loop.
Context {W : Type} `{ProbeRequests W}.
Variable setopt : easy_handle -> CURLoption -> OptValue -> CURLcode.
Variable curl_easy_strerror : CURLcode -> str.
Variable option_name : CURLoption -> option str.
Variable option_number : CURLoption -> Z.
Variable ca_support : CurlCaSupport.
Variable options : ClientOptions.
Variable l : Locator.
Variable range : ByteRange.
Variable destination : Z.
Variable if_match : str.

Definition timeout_failure (uri reason : str) : Failure :=
  {| f_status := KARU_TIMEOUT; f_detail := concat [Text (redact_url uri); Text $": "; Text reason] |}.
Definition exceeded : str := $"request timeout exceeded".

(** What the environment answers during one turn of the loop. *)
Record ProbeEnv := {
  pe_now_first : Z;        (* the clock at the first deadline check *)
  pe_now_prepared : Z;     (* and after the request is built *)
  pe_now_sent : Z;         (* and where the time limit is set *)
  pe_heap : list bool;     (* answers of curl_slist_append *)
  pe_exchange : PreparedRequest -> Exchange;   (* what the request meets *)
  pe_now_judged : Z;       (* the clock before a retry is considered *)
  pe_now_retry : Z;        (* and when it is scheduled *)
  pe_jitter : Z -> Z;
}.

(** The variables that live across turns. *)
Record ProbeLoop := mkLoop {
  lp_attempt : Z;
  lp_region_hint : str;
  lp_region_retried : bool;
  lp_credentials_retried : bool;
  lp_unreachable_attempts : Z;
  lp_stats : RangeStats;
  lp_handle : easy_handle;
}.
#[global] Instance ProbeLoop_eta : Eta ProbeLoop := fun r =>
  mkLoop (lp_attempt r) (lp_region_hint r) (lp_region_retried r) (lp_credentials_retried r)
    (lp_unreachable_attempts r) (lp_stats r) (lp_handle r).

(** What a turn does: return, or go on, possibly after dropping the
    credentials. *)
Inductive turn :=
| Return (r : expected Failure RangeReply)
| Continue (lp : ProbeLoop) (invalidate : bool).

Definition fail (status : karu_status) (text : str) : turn :=
  Return (Err {| f_status := status; f_detail := text |}).

Definition initial_probe (request : PreparedRequest) (stats : RangeStats) : ProbeState :=
  {| pb_range := range; pb_destination := destination; pb_if_match := if_match;
     pb_fallback_limit := range_fallback_limit options;
     pb_follow_redirects := follow_redirects (req_http request);
     pb_same_origin_redirects_only := same_origin_redirects_only (req_http request);
     pb_original_url := req_url request; pb_stats := stats; pb_http_status := 0; pb_total := 0;
     pb_have_total := false; pb_content_range_valid := false; pb_content_range_answers := false;
     pb_unsatisfied_valid := false; pb_range_first := 0; pb_range_last := 0; pb_started := false;
     pb_skip := 0; pb_wanted := 0; pb_stored := 0; pb_cut_short := false; pb_body_exceeded := false;
     pb_suffix_ignored := false; pb_fallback_rejected := false; pb_version_changed := false;
     pb_redirect_blocked := false; pb_retry_after := 0; pb_response_region := []; pb_etag := [];
     pb_encoding := EncodingHeaders_default; pb_error_body := []; pb_error_body_received := 0 |}.

(** The code after a body that was cut short on purpose. *)
Definition effective_code (x : Exchange) (s : ProbeState) : CURLcode :=
  if bool_decide (x_code x = CURLE_WRITE_ERROR) && pb_cut_short s then CURLE_OK else x_code x.

(** An empty body never reached the callback. *)
Definition finish_body (x : Exchange) (s : ProbeState) : ProbeState :=
  if curl_ok (effective_code x s) && is_2xx (x_status x) && negb (pb_started s)
  then (start_body (s <| pb_started := true |>) (x_status x) (x_length x)).2 else s.

Definition count_exchange (x : Exchange) (st : RangeStats) : RangeStats :=
  let st := if 0 <? x_connects x then st <| new_connections := new_connections st + x_connects x |>
            else st in
  if (x_status x =? 429) || (x_status x =? 503) then st <| throttled := throttled st + 1 |> else st.

Definition reply (s : ProbeState) (first got : Z) (ignored : bool) (st : RangeStats) : turn :=
  Return (Ok {| total := pb_total s; first := first; r_got := got; etag := pb_etag s;
                suffix_ignored := ignored; stats := st |}).

(** The last part of a turn: retry later, or fail. *)
Definition retry_or_give_up (env : ProbeEnv) (deadline : RequestDeadline) (request : PreparedRequest)
    (code : CURLcode) (s : ProbeState) (lp : ProbeLoop) : turn :=
  let x := pe_exchange env request in
  let status := x_status x in
  let url := redact_url (req_url request) in
  if expired (pe_now_judged env) deadline then
    Return (Err (timeout_failure (req_url request) exceeded))
  else
    let lp := lp <| lp_attempt := lp_attempt lp + 1 |>
                 <| lp_unreachable_attempts :=
                      if unreachable code then lp_unreachable_attempts lp + 1
                      else lp_unreachable_attempts lp |> in
    if (lp_attempt lp <? max_attempts options) && (lp_unreachable_attempts lp <? kUnreachableAttempts)
       && (transient code status || ((status =? 400) && contains (pb_error_body s) $"RequestTimeout"))
    then
      let lp := lp <| lp_stats := (lp_stats lp) <| retries := retries (lp_stats lp) + 1 |> |> in
      if negb (can_wait_for (pe_now_retry env)
                 (retry_delay (lp_attempt lp) (pb_retry_after s) (pe_jitter env)) deadline)
      then Return (Err (timeout_failure (req_url request)
                          $"request timeout leaves no time for another attempt"))
      else Continue lp false
    else if negb (curl_ok code) && is_3xx status && follow_redirects (req_http request) then
      fail KARU_ERR_NETWORK
        (concat [Text url; Text $": "; Text (curl_message curl_easy_strerror (x_error x) code)])
    else if 300 <=? status then
      let body := summarize (pb_error_body s) in
      fail (status_for_http status)
        (concat ([Text url; Text $": HTTP "; Integer status]
                 ++ if str_eqb body [] then [] else [Text $": "; Text body]))
    else
      fail KARU_ERR_NETWORK
        (concat [Text url; Text $": "; Text (curl_message curl_easy_strerror (x_error x) code)]).

(** The replies of a request the server understood. *)
Definition judge_success (request : PreparedRequest) (code : CURLcode) (status : Z) (s : ProbeState)
    (st : RangeStats) : option turn :=
  let url := redact_url (req_url request) in
  let http_error pieces := Some (fail KARU_ERR_HTTP (concat (Text url :: pieces))) in
  let ok := curl_ok code in
  if ok && (status =? 416) && negb (pb_unsatisfied_valid s) then
    http_error [Text $": invalid Content-Range in HTTP 416"]
  else if ok && (status =? 416)
          && (if suffix range then pb_total s =? 0 else pb_total s <=? br_first range) then
    Some (reply s (if suffix range then 0 else br_first range) 0 false st)
  else if ok && (status =? 416) && suffix range then Some (reply s 0 0 true st)
  else if (status =? 206) && pb_body_exceeded s then
    http_error [Text $": response exceeded bytes "; Integer (pb_range_first s); Text $"-";
                Integer (pb_range_last s)]
  else if ok && is_2xx status && transformed (pb_encoding s) then
    Some (fail KARU_ERR_HTTP (transformation_detail url (pb_encoding s)))
  else if ok && pb_version_changed s then
    Some (fail KARU_ERR_PRECONDITION
      (concat [Text url; Text $": the server ignored If-Match and sent ETag "; Text (pb_etag s);
               Text $", so the object no longer matches if_match"]))
  else if ok && (status =? 206) then
    if negb (pb_content_range_answers s) then
      (if pb_content_range_valid s then
         http_error [Text $": Content-Range ["; Integer (pb_range_first s); Text $", ";
                     Integer (pb_range_last s); Text $"] does not answer "; Text (req_range request)]
       else http_error [Text $": partial response has no valid object size"])
    else if negb (pb_stored s =? pb_wanted s) then
      http_error [Text $": response body does not match Content-Range"]
    else Some (reply s (pb_range_first s) (pb_stored s) false st)
  else if ok && (status =? 200) then
    if pb_suffix_ignored s then Some (reply s 0 0 true st)
    else if pb_fallback_rejected s then
      http_error [Text $": server ignored Range; refusing to discard "; Integer (br_first range);
                  Text $" bytes (limit "; Integer (range_fallback_limit options); Text $")"]
    else if negb (pb_have_total s) then http_error [Text $": the server reported no size"]
    else Some (reply s (pb_range_first s) (pb_stored s) false st)
  else if ok && is_2xx status then
    http_error [Text $": unexpected HTTP "; Integer status; Text $" response to a range request"]
  else None.

(** The region of an S3 error body. *)
Definition fill_region (s : ProbeState) : ProbeState :=
  if str_eqb (pb_response_region s) [] && bool_decide (backend l = S3)
  then s <| pb_response_region := s3_region (pb_error_body s) |> else s.

Definition wrong_region (status : Z) (s : ProbeState) (lp : ProbeLoop) : bool :=
  (300 <=? status) && negb (lp_region_retried lp) && negb (str_eqb (pb_response_region s) [])
  && negb (str_eqb (pb_response_region s) (lp_region_hint lp)) && bool_decide (backend l = S3).

Definition stale_credentials (status : Z) (s : ProbeState) (lp : ProbeLoop) : bool :=
  negb (lp_credentials_retried lp) && credentials_expired (backend l) status (pb_error_body s).

Definition judge_response (env : ProbeEnv) (deadline : RequestDeadline) (request : PreparedRequest)
    (code : CURLcode) (s : ProbeState) (lp : ProbeLoop) : turn :=
  let status := x_status (pe_exchange env request) in
  if wrong_region status s lp then
    Continue (lp <| lp_region_hint := pb_response_region s |> <| lp_region_retried := true |>) false
  else if stale_credentials status s lp then
    Continue (lp <| lp_credentials_retried := true |>
                 <| lp_stats := (lp_stats lp)
                      <| credential_refreshes := credential_refreshes (lp_stats lp) + 1 |> |>) true
  else
    match judge_success request code status s (lp_stats lp) with
    | Some t => t
    | None => retry_or_give_up env deadline request code s lp
    end.

(** The rest of a turn after [curl_easy_perform]: [s] is the state the
    callbacks left. *)
Definition judge (env : ProbeEnv) (deadline : RequestDeadline) (request : PreparedRequest)
    (s : ProbeState) (lp : ProbeLoop) : turn :=
  let x := pe_exchange env request in
  let finished := finish_body x s in
  if pb_redirect_blocked finished then
    fail KARU_ERR_HTTP
      (concat [Text (redact_url (req_url request));
               Text $": cross-origin redirect blocked because KARU_HTTP_HEADERS is set"])
  else
    judge_response env deadline request (effective_code x s) (fill_region finished)
      (lp <| lp_stats := count_exchange x (pb_stats s) |>).

(** The settings of one attempt. *)
Definition attempt_setup (env : ProbeEnv) (deadline : RequestDeadline) (request : PreparedRequest)
    (lines : list str) : setup :=
  let set o v := set_option setopt curl_easy_strerror option_name option_number o v in
  and_then (set HTTPHEADER (Slist lines))
    (and_then (set URL (CString (c_str (req_url request))))
       (and_then (apply_http_options setopt curl_easy_strerror option_name option_number ca_support
                    (req_http request))
          (set TIMEOUT_MS (Long (curl_timeout_ms (pe_now_sent env) deadline))))).

(** One turn of the loop. *)
Definition run_turn (env : ProbeEnv) (deadline : RequestDeadline) (lp : ProbeLoop) (w : W) (m : memory)
    : turn * W * memory :=
  if expired (pe_now_first env) deadline then
    (Return (Err (timeout_failure (canonical_uri l) exceeded)), w, m)
  else
    let '(request, w) :=
      if suffix range then pr_prepare_suffix l (br_length range) (lp_region_hint lp) if_match w
      else pr_prepare l (br_first range) (br_length range) (lp_region_hint lp) if_match w in
    match request with
    | Err e => (fail (err_status e) (err_message e), w, m)
    | Ok request =>
        if expired (pe_now_prepared env) deadline then
          (Return (Err (timeout_failure (req_url request) exceeded)), w, m)
        else
          match build_headers (req_headers request) (req_range request) (pe_heap env) with
          | Err text => (fail KARU_ERR_NOMEM text, w, m)
          | Ok lines =>
              match attempt_setup env deadline request lines (lp_handle lp) with
              | (Err text, _) => (fail KARU_ERR_NETWORK text, w, m)
              | (Ok _, handle) =>
                  let lp := lp <| lp_region_hint := routing_region request |> <| lp_handle := handle |> in
                  let '(_, s, m) := run_events (x_events (pe_exchange env request))
                                      (initial_probe request (lp_stats lp)) m in
                  (judge env deadline request s lp, w, m)
              end
          end
    end.

(** The loop; turn [i] of the run meets [envs i].  [None] when the fuel is
    spent. *)
Fixpoint run_loop (fuel : nat) (envs : nat -> ProbeEnv) (i : nat) (deadline : RequestDeadline)
    (lp : ProbeLoop) (w : W) (m : memory) : option (expected Failure RangeReply * W * memory) :=
  match fuel with
  | O => None
  | S fuel =>
      if lp_attempt lp <? max_attempts options then
        match run_turn (envs i) deadline lp w m with
        | (Return r, w, m) => Some (r, w, m)
        | (Continue lp invalidate, w, m) =>
            run_loop fuel envs (S i) deadline lp (if invalidate then pr_invalidate l w else w) m
        end
      else
        Some (Err {| f_status := KARU_ERR_NETWORK; f_detail := $"range request exhausted its retries" |},
              w, m)
  end.

(** The settings before the loop. *)
Definition probe_settings : easy_handle :=
  [(HEADERFUNCTION, Address Callback_probe_header); (HEADERDATA, Address The_probe);
   (WRITEFUNCTION, Address Callback_probe_body); (WRITEDATA, Address The_probe);
   (SHARE, Address The_share); (ERRORBUFFER, Address The_error_buffer); (NOSIGNAL, Long 1);
   (PATH_AS_IS, Long 1); (UNRESTRICTED_AUTH, Long 0); (MAXREDIRS, Long 10);
   (CONNECTTIMEOUT, Long (connect_timeout_seconds options));
   (LOW_SPEED_LIMIT, Long (low_speed_limit options));
   (LOW_SPEED_TIME, Long (low_speed_time_seconds options)); (SUPPRESS_CONNECT_HEADERS, Long 1)].

Definition new_probe_loop (handle : easy_handle) : ProbeLoop :=
  {| lp_attempt := 0; lp_region_hint := []; lp_region_retried := false;
     lp_credentials_retried := false; lp_unreachable_attempts := 0; lp_stats := RangeStats_default;
     lp_handle := handle |}.

(** Each turn but the first follows a counted attempt or one of the two
    corrections. *)
Definition probe_fuel : nat := Z.to_nat (max_attempts options) + 3.

Definition get_range (now : Z) (envs : nat -> ProbeEnv) (h : easy_handle) (w : W) (m : memory)
    : option (expected Failure RangeReply * W * memory) :=
  match and_then (set_options setopt curl_easy_strerror option_name option_number probe_settings)
          (and_then (spread_connections setopt curl_easy_strerror option_name option_number)
             (restrict_to_http setopt curl_easy_strerror option_name option_number)) h with
  | (Err text, _) => Some (Err {| f_status := KARU_ERR_NETWORK; f_detail := text |}, w, m)
  | (Ok _, h) =>
      run_loop probe_fuel envs 0
        (deadline_start now (request_timeout_seconds options) RequestDeadline_default) (new_probe_loop h) w m
  end.

(** ** Every read answers *)

(** What a turn uses up: an attempt, or one of the two corrections. *)
Definition turns_left (lp : ProbeLoop) : Z :=
  Z.max 0 (max_attempts options - lp_attempt lp)
  + (if lp_region_retried lp then 0 else 1) + (if lp_credentials_retried lp then 0 else 1).

Lemma turns_left_nonneg lp : 0 <= turns_left lp.
Proof. unfold turns_left. destruct (lp_region_retried lp), (lp_credentials_retried lp); lia. Qed.

Lemma retry_uses_a_turn env deadline request code s lp lp' inv :
  lp_attempt lp < max_attempts options ->
  retry_or_give_up env deadline request code s lp = Continue lp' inv ->
  turns_left lp' < turns_left lp /\ inv = false.
Proof.
  intros Ha. unfold retry_or_give_up. destruct (expired _ _); [done|]. cbv zeta.
  set (lp1 := _ <| lp_unreachable_attempts := _ |>).
  destruct ((lp_attempt lp1 <? _) && _ && _); [|by repeat case_match].
  destruct (negb _); [done|]. intros [= <- <-]. split; [|done]. unfold turns_left. cbn. lia.
Qed.

Lemma judge_success_returns request code status s st t lp inv :
  judge_success request code status s st = Some t -> t <> Continue lp inv.
Proof.
  unfold judge_success. intros E ->. repeat (case_match; try discriminate).
Qed.

Lemma judge_response_uses_a_turn env deadline request code s lp lp' inv :
  lp_attempt lp < max_attempts options ->
  judge_response env deadline request code s lp = Continue lp' inv -> turns_left lp' < turns_left lp.
Proof.
  intros Ha. unfold judge_response.
  destruct (wrong_region _ _ _) eqn:Er.
  { intros [= <- <-]. unfold wrong_region in Er. repeat (apply andb_true_iff in Er as [Er ?]).
    assert (lp_region_retried lp = false) as E by (by apply negb_true_iff).
    unfold turns_left. cbn. rewrite E. lia. }
  destruct (stale_credentials _ _ _) eqn:Ec.
  { intros [= <- <-]. apply andb_true_iff in Ec as [Ec%negb_true_iff _]. unfold turns_left. cbn.
    rewrite Ec. lia. }
  destruct (judge_success _ _ _ _ _) eqn:Ej.
  - intros ->. by apply judge_success_returns with (lp := lp') (inv := inv) in Ej.
  - intros E. by apply retry_uses_a_turn in E as [? _].
Qed.

Lemma judge_uses_a_turn env deadline request s lp lp' inv :
  lp_attempt lp < max_attempts options ->
  judge env deadline request s lp = Continue lp' inv -> turns_left lp' < turns_left lp.
Proof.
  intros Ha. unfold judge. destruct (pb_redirect_blocked _); [done|].
  intros E. by apply judge_response_uses_a_turn in E.
Qed.

Lemma run_turn_uses_a_turn env deadline lp w m lp' inv w' m' :
  lp_attempt lp < max_attempts options ->
  run_turn env deadline lp w m = (Continue lp' inv, w', m') -> turns_left lp' < turns_left lp.
Proof.
  intros Ha. unfold run_turn. destruct (expired _ _); [done|].
  destruct (if suffix range then _ else _) as [[request|e] w1]; [|done].
  destruct (expired _ _); [done|]. destruct (build_headers _ _ _) as [lines|]; [|done].
  destruct (attempt_setup _ _ _ _ _) as [[[]|] handle]; [|done].
  destruct (run_events _ _ _) as [[consumed s] m1]. intros [= E <- <-].
  by apply judge_uses_a_turn in E.
Qed.

Lemma run_loop_answers fuel : forall envs i deadline lp w m,
  turns_left lp < Z.of_nat fuel -> is_Some (run_loop fuel envs i deadline lp w m).
Proof.
  induction fuel as [|fuel IH]; intros envs i deadline lp w m Hf; cbn [run_loop].
  { pose proof (turns_left_nonneg lp). lia. }
  destruct (Z.ltb_spec (lp_attempt lp) (max_attempts options)); [|done].
  destruct (run_turn _ _ _ _ _) as [[[r|lp' inv] w1] m1] eqn:E; [done|].
  apply IH. apply run_turn_uses_a_turn in E; lia.
Qed.

Lemma get_range_answers now envs h w m : is_Some (get_range now envs h w m).
Proof.
  unfold get_range. destruct (and_then _ _ h) as [[[]|text] h']; [|done].
  apply run_loop_answers. unfold turns_left, new_probe_loop, probe_fuel. cbn. lia.
Qed.

(** C13: a synchronous read always comes back: whatever the clock, the server,
    libcurl and the credential service do, the loop ends after at most the
    configured number of attempts and the two corrections, with a reply or an
    error. *)
Theorem probe_always_answers now envs h w m : is_Some (get_range now envs h w m).
Proof. exact (get_range_answers now envs h w m). Qed.
End Loop.

(** [object_info]: one byte into a local array at [first]. *)
Definition object_info {W} `{ProbeRequests W} setopt strerror option_name option_number ca_support
    (options : ClientOptions) (l : Locator) (first : Z) (now : Z) (envs : nat -> ProbeEnv)
    (h : easy_handle) (w : W) (m : memory)
    : option (expected Failure (Z * str) * W * memory) :=
  match get_range setopt strerror option_name option_number ca_support options l
          {| br_first := 0; br_length := 1; suffix := false |} first [] now envs h w m with
  | Some (Ok r, w, m) => Some (Ok (total r, etag r), w, m)
  | Some (Err e, w, m) => Some (Err e, w, m)
  | None => None
  end.
End Headers.

(** ** A response with two Content-Range headers

    The second header is not valid, so the judgement of the first one stays,
    but its numbers replace those of the first: the body is stored as if the
    second range had been checked. *)

Definition plain_request : PreparedRequest :=
  {| req_url := $"https://host/object"; req_headers := []; req_range := $"bytes=0-0";
     req_http := HttpRequestOptions_default; routing_region := [] |}.

#[export] Instance plain_requests : ProbeRequests unit := {
  pr_prepare := fun _ _ _ _ _ w => (Ok plain_request, w);
  pr_prepare_suffix := fun _ _ _ _ w => (Ok plain_request, w);
  pr_invalidate := fun _ w => w;
}.

Definition line (text : str) : event :=
  let text := text ++ CRLF in HeaderLine text 1 (Z.of_nat (length text)) 0.
Definition body (data : str) (status length_ : Z) : event :=
  BodyData data 1 (Z.of_nat (length data)) status length_.

Definition one_exchange (x : Exchange) : nat -> ProbeEnv := fun _ =>
  {| pe_now_first := 0; pe_now_prepared := 0; pe_now_sent := 0; pe_heap := []; pe_exchange := fun _ => x;
     pe_now_judged := 0; pe_now_retry := 0; pe_jitter := fun _ => 0 |}.

Definition two_ranges : Exchange :=
  {| x_events := [line $"HTTP/1.1 206 Partial Content"; line $"Content-Range: bytes 0-0/100";
                  line $"Content-Range: bytes 0-3/*"; line []; body $"EVIL" 206 4];
     x_code := CURLE_OK; x_status := 206; x_length := 4; x_connects := 1; x_error := [] |}.

Definition no_parts : str -> option (str * str * str) := fun _ => None.

Definition probe_two_ranges : option (expected Failure (Z * str) * unit * memory) :=
  object_info (fun _ => -1) no_parts (fun _ => no_parts) accepting (fun _ => []) (fun _ => None)
    (fun _ => 0) example_support ClientOptions_default (Resolved_default <| backend := Http |>) 1000
    0 (one_exchange two_ranges) [] tt no_memory.

(** A server can overflow the buffer of a synchronous read: [object_info]
    has room for one byte, but after a Content-Range that answers the request
    and a second one that does not state a size, [get_range] stores the four
    bytes the second one announces and reports success. *)
Theorem repeated_content_range_overflows :
  exists m, probe_two_ranges = Some (Ok (100, []), tt, m) /\
    m 1000 = "E"%char /\ m 1001 = "V"%char /\ m 1002 = "I"%char /\ m 1003 = "L"%char.
Proof. eexists. split; [vm_compute; reflexivity|]. by vm_compute. Qed.
