(* ===== verification/ProbeSpec.v ===== *)
(** * ProbeSpec: what a synchronous read delivers

    The specification of [Probe.get_range]: a server is honest when every size
    it states is the object's, every byte of a 200 or 206 body is the object's
    byte at its position (so it applies no content coding), and a response has at most one Content-Range, before
    its body.  Against such servers, whatever they refuse, redirect, cut or
    delay, a reply holds exactly the requested bytes. *)

From S2P Require Import Prelude Text Uri Types Planner Response Transport CurlSetup Probe.

Section Server.
Variable obj : object_bytes.
Variable size_ : Z.
Hypothesis size_ok : 0 <= size_ <= U64_MAX.

(** ** Honest servers

    An empty body makes no call. *)

(** The response the server is sending: its code, how many bytes of the body
    were sent, whether a body began, and its Content-Range. *)
Record response := mkResponse {
  g_code : Z; g_sent : Z; g_body : bool; g_seen : bool; g_range : option (Z * Z);
}.
#[local] Instance response_eta : Eta response := fun g =>
  mkResponse (g_code g) (g_sent g) (g_body g) (g_seen g) (g_range g).

Definition new_response (code : Z) : response := mkResponse code 0 false false None.

Definition zero_range : ContentRange := mkContentRange 0 0 0 false.

(** The range a Content-Range value states, with the size of the object. *)
Definition range_of (value : str) : option (Z * Z) :=
  let '(ok, r) := parse_content_range value zero_range in
  if ok && cr_have_total r then Some (cr_first r, cr_last r) else None.

Definition true_sizes (value : str) : Prop :=
  (forall r, parse_content_range value zero_range = (true, r) -> cr_have_total r = true ->
     cr_total r = size_) /\
  (forall n, parse_unsatisfied_content_range value 0 = (true, n) -> n = size_).

Inductive honest : response -> list event -> response -> Prop :=
| honest_end g : honest g [] g
| honest_status g line size count now code es g' :
    starts_with line $"HTTP/" = true -> honest (new_response code) es g' ->
    honest g (HeaderLine line size count now :: es) g'
| honest_range g line size count now es g' :
    starts_with line $"HTTP/" = false -> header_name_is line $"content-range:" = true ->
    g_body g = false -> g_seen g = false -> true_sizes (header_value line $"content-range:") ->
    honest (g <| g_seen := true |> <| g_range := range_of (header_value line $"content-range:") |>) es g' ->
    honest g (HeaderLine line size count now :: es) g'
| honest_header g line size count now es g' :
    starts_with line $"HTTP/" = false -> header_name_is line $"content-range:" = false ->
    honest g es g' -> honest g (HeaderLine line size count now :: es) g'
| honest_body g data size count content_length es g' :
    data <> [] -> callback_size size count = Some (Z.of_nat (length data)) ->
    (g_code g = 200 -> content_length = -1 \/ content_length = size_) ->
    (g_code g = 206 -> forall first last, g_range g = Some (first, last) ->
       bytes_at obj (first + g_sent g) data) ->
    (g_code g = 200 -> bytes_at obj (g_sent g) data) ->
    honest (g <| g_sent := g_sent g + Z.of_nat (length data) |> <| g_body := true |>) es g' ->
    honest g (BodyData data size count (g_code g) content_length :: es) g'.

Section Callbacks.
Variable curl_getdate : str -> Z.
Variable url_parts : str -> option (str * str * str).
Variable follow_parts : str -> str -> option (str * str * str).
Abbreviation run_event := (run_event curl_getdate url_parts follow_parts).
Abbreviation run_events := (run_events curl_getdate url_parts follow_parts).

(** The calls libcurl would still make after one that consumed nothing. *)
Fixpoint unread (es : list event) (s : ProbeState) (m : memory) : list event :=
  match es with
  | [] => []
  | e :: es =>
      let '(consumed, s, m) := run_event e s m in
      if consumed then unread es s m else es
  end.

(** What an exchange with an honest server satisfies, and what libcurl
    documents: it stops at a call that did not consume its data, and reports
    CURLE_WRITE_ERROR then; a transfer reported complete sent the whole
    body. *)
Record conforms (x : Exchange) (s : ProbeState) (m : memory) : Prop := {
  cf_stops : unread (x_events x) s m = [];
  cf_short : (run_events (x_events x) s m).1.1 = false -> x_code x = CURLE_WRITE_ERROR;
  cf_length : x_status x = 200 -> x_length x = -1 \/ x_length x = size_;
  cf_honest : exists g, honest (new_response 0) (x_events x) g /\ x_status x = g_code g /\
    (x_code x = CURLE_OK -> g_code g = 200 -> g_sent g = size_);
}.

(** ** The range that was asked for *)

Variable range : ByteRange.
Variable destination : Z.

Definition range_fits : Prop :=
  is_u64 (br_length range) /\
  (suffix range = false ->
   0 <= br_first range /\ 1 <= br_length range /\ br_first range + br_length range - 1 <= U64_MAX).
Hypothesis range_ok_ : range_fits.

(** What the reply should be. *)
Definition got_of : Z :=
  if suffix range then Z.min (br_length range) size_
  else Z.max 0 (Z.min (br_length range) (size_ - br_first range)).
Definition first_of : Z := if suffix range then size_ - got_of else br_first range.

Lemma answers_spec first last :
  0 <= first <= last -> last < size_ -> answers range first last size_ = true ->
  first = first_of /\ last - first + 1 = got_of.
Proof using size_ok range_ok_.
  intros Hf Hl. unfold answers, first_of, got_of. destruct range_ok_ as [Hlen Hrange].
  unfold is_u64 in Hlen. destruct (suffix range).
  - rewrite (wrap64_small (last - first)), !wrap64_small by (unfold is_u64; lia). lia.
  - destruct (Hrange eq_refl) as (H1 & H2 & H3).
    rewrite (wrap64_small (last + 1)) by (unfold is_u64; lia).
    replace (wrap64 (wrap64 (br_first range + br_length range) - 1))
      with (br_first range + br_length range - 1); [lia|].
    unfold wrap64. rewrite Zminus_mod_idemp_l. rewrite Z.mod_small; lia.
Qed.

(** ** The state between two calls *)

Definition body_state (g : response) (s : ProbeState) (m : memory) : Prop :=
  exists pos, placed obj s pos m /\
    ((g_code g = 206 /\ pos = pb_range_first s + g_sent g /\
      exists last, g_range g = Some (pb_range_first s, last)) \/
     (g_code g = 200 /\ pos = g_sent g)) /\
    pb_range_first s = first_of /\ pb_wanted s = got_of /\ pb_have_total s = true.

Record inv (g : response) (s : ProbeState) (m : memory) : Prop := {
  i_range : pb_range s = range;
  i_destination : pb_destination s = destination;
  i_nums : is_u64 (pb_range_first s) /\ is_u64 (pb_range_last s);
  i_seen : g_seen g = false -> pb_content_range_answers s = false;
  i_total : pb_have_total s = true -> pb_total s = size_;
  i_unsatisfied : pb_unsatisfied_valid s = true -> pb_have_total s = true;
  i_ignored : pb_suffix_ignored s = true -> pb_have_total s = true /\ suffix range = true;
  i_answers : pb_started s = false -> pb_content_range_answers s = true ->
    g_range g = Some (pb_range_first s, pb_range_last s) /\ pb_have_total s = true /\
    0 <= pb_range_first s <= pb_range_last s /\ pb_range_last s < size_ /\
    answers range (pb_range_first s) (pb_range_last s) size_ = true;
  i_cut : pb_cut_short s = false;
  i_waiting : pb_started s = false ->
    pb_stored s = 0 /\ pb_skip s = 0 /\ (g_code g < 300 -> g_sent g = 0);
  i_started : pb_started s = true -> g_body g = true /\ body_state g s m;
}.

(** A body that was refused: no reply will claim its bytes. *)
Definition blocked (code : Z) (s : ProbeState) : Prop :=
  transformed (pb_encoding s) = true \/ pb_version_changed s = true \/
  (code = 206 /\ pb_content_range_answers s = false) \/ (code <> 200 /\ code <> 206) \/
  (code = 200 /\ (pb_have_total s = false \/ pb_suffix_ignored s = true \/
                 pb_fallback_rejected s = true)).

(** A body that was cut short on purpose. *)
Definition ended (g : response) (s : ProbeState) (m : memory) : Prop :=
  g_code g < 300 /\ pb_started s = true /\ pb_destination s = destination /\
  (pb_have_total s = true -> pb_total s = size_) /\
  (pb_suffix_ignored s = true -> pb_have_total s = true /\ suffix range = true) /\
  (blocked (g_code g) s \/
   (g_code g = 200 /\ pb_stored s = pb_wanted s /\ pb_range_first s = first_of /\
    pb_wanted s = got_of /\ pb_have_total s = true /\ exists pos, placed obj s pos m)).

(** *** Header lines *)

Lemma inv_reset g s m code : inv g s m -> inv (new_response code) (reset_probe s) m.
Proof.
  intros []. by constructor.
Qed.

Lemma range_of_spec value r0 ok r :
  is_u64 (cr_first r0) -> is_u64 (cr_last r0) -> is_u64 (cr_total r0) -> true_sizes value ->
  parse_content_range value r0 = (ok, r) ->
  is_u64 (cr_first r) /\ is_u64 (cr_last r) /\
  (ok && cr_have_total r = true ->
   range_of value = Some (cr_first r, cr_last r) /\ cr_total r = size_ /\
   0 <= cr_first r <= cr_last r /\ cr_last r < size_).
Proof.
  intros H1 H2 H3 [Htrue _] E.
  destruct (parse_content_range_ok _ _ _ _ (conj H1 (conj H2 H3)) E) as [(F & L & _) Hr].
  split_and!; [done|done|]. intros [-> Ht]%andb_true_iff. destruct (Hr eq_refl) as [Hle Hlt].
  specialize (Hlt Ht). destruct (parse_content_range_old _ _ zero_range _ E) as (r' & E' & F' & L' & T' & N').
  specialize (N' Ht). assert (Ht' : cr_have_total r' = true) by congruence.
  pose proof (Htrue _ E' Ht') as Hn. unfold range_of. rewrite E', Ht', F', L'. cbn.
  unfold is_u64 in F. split_and!; [done|lia..].
Qed.

Lemma inv_content_range g s m value :
  inv g s m -> g_body g = false -> g_seen g = false -> true_sizes value ->
  inv (g <| g_seen := true |> <| g_range := range_of value |>) (probe_content_range s value) m.
Proof using size_ok.
  intros [Hr Hd [Hn1 Hn2] Hs Ht Hu Hig Ha Hc Hw Hst] Hb Hseen Htrue.
  assert (Hns : pb_started s = false).
  { destruct (pb_started s) eqn:E; [|done]. destruct (Hst eq_refl) as [Hb' _]. congruence. }
  unfold probe_content_range.
  destruct (parse_content_range value _) as [ok r] eqn:E.
  apply range_of_spec in E as (F & L & Hok); [|done|done|by unfold is_u64; cbn; lia|done].
  specialize (Hs Hseen). cbn. destruct (ok && cr_have_total r) eqn:Eok.
  - destruct (Hok eq_refl) as (Hrange & Htotal & Hle & Hlt).
    constructor; cbn; rewrite ?Hns; try done.
    + intros Hv. by destruct (Hig Hv).
    + intros _ Hans. by rewrite Hr, Htotal in Hans.
    + intros _. by apply Hw.
  - destruct (parse_unsatisfied_content_range value 0) as [valid n] eqn:Eu.
    destruct valid; constructor; cbn; rewrite ?Hns, ?Hs; try done.
    + intros _. by apply Htrue.
    + intros Hv. by destruct (Hig Hv).
    + intros _. by apply Hw.
    + intros _. by apply Hw.
Qed.

(** The invariant does not read the other members. *)
Record same_core (s s' : ProbeState) : Prop := {
  sc_range : pb_range s' = pb_range s;
  sc_destination : pb_destination s' = pb_destination s;
  sc_first : pb_range_first s' = pb_range_first s;
  sc_last : pb_range_last s' = pb_range_last s;
  sc_answers : pb_content_range_answers s' = pb_content_range_answers s;
  sc_have : pb_have_total s' = pb_have_total s;
  sc_total : pb_total s' = pb_total s;
  sc_unsatisfied : pb_unsatisfied_valid s' = pb_unsatisfied_valid s;
  sc_ignored : pb_suffix_ignored s' = pb_suffix_ignored s;
  sc_started : pb_started s' = pb_started s;
  sc_cut : pb_cut_short s' = pb_cut_short s;
  sc_stored : pb_stored s' = pb_stored s;
  sc_skip : pb_skip s' = pb_skip s;
  sc_wanted : pb_wanted s' = pb_wanted s;
}.

Lemma placed_core s s' pos m : same_core s s' -> placed obj s pos m -> placed obj s' pos m.
Proof.
  intros [] []. constructor; intros; rewrite ?sc_skip0, ?sc_stored0, ?sc_wanted0, ?sc_first0,
    ?sc_destination0 in *; auto.
Qed.

Lemma inv_core g s s' m : same_core s s' -> inv g s m -> inv g s' m.
Proof.
  intros Hc Hi. pose proof Hc as []. destruct Hi.
  constructor; rewrite ?sc_range0, ?sc_destination0, ?sc_first0, ?sc_last0, ?sc_answers0, ?sc_have0,
    ?sc_total0, ?sc_unsatisfied0, ?sc_ignored0, ?sc_started0, ?sc_cut0, ?sc_stored0, ?sc_skip0; try assumption.
  intros E. destruct (i_started0 E) as [Hb (pos & Hp & Hcode & H1 & H2 & H3)]. split; [done|].
  exists pos. split; [by eapply placed_core|].
  by rewrite sc_first0, sc_wanted0, sc_have0.
Qed.

Ltac same_core := constructor; cbn; reflexivity.

(** Other header lines change nothing the invariant reads. *)
Lemma header_step g s m line_ size count now es g' n s' :
  inv g s m -> honest g (HeaderLine line_ size count now :: es) g' ->
  probe_header_callback curl_getdate url_parts follow_parts s line_ size count now = (n, s') ->
  exists g1, honest g1 es g' /\ pb_cut_short s' = false /\
    (n = Z.of_nat (length line_) -> inv g1 s' m).
Proof using size_ok.
  intros Hi Hh. unfold probe_header_callback.
  inversion Hh as [|? ? ? ? ? code ? ? Hl Hh' |? ? ? ? ? ? ? Hl Hc Hb Hs Ht Hh'|? ? ? ? ? ? ? Hl Hc Hh'|]; subst;
    clear Hh; rewrite Hl.
  - destruct (callback_size size count) as [bytes|].
    + intros [= <- <-]. exists (new_response code). split_and!; [exact Hh'|reflexivity|]. intros _.
      eapply inv_core; [|exact (inv_reset _ _ _ code Hi)]. same_core.
    + intros [= <- <-]. exists (new_response code). split_and!; [exact Hh'|apply Hi|].
      intros E. apply starts_with_spec in Hl as [r ->]. cbn in E. lia.
  - assert (Hloc : header_name_is line_ $"location:" = false).
    { destruct line_ as [|c0 line_]; [done|]. cbn in Hc |- *. apply andb_true_iff in Hc as [Hc _].
      apply Ascii.eqb_eq in Hc. by rewrite Hc. }
    rewrite Hc, Hloc. cbn [andb].
    destruct (callback_size size count) as [bytes|]; intros [= <- <-].
    + eexists. split; [exact Hh'|]. pose proof (inv_content_range _ _ _ _ Hi Hb Hs Ht) as Hi'.
      split; [apply Hi'|intros _; exact Hi'].
    + eexists. split; [exact Hh'|]. split; [apply Hi|]. intros E. destruct line_; [done|]. cbn in E. lia.
  - intros E. exists g. split; [exact Hh'|]. assert (Hsame : same_core s s').
    { destruct (callback_size size count) as [bytes|]; [|injection E as <- <-; same_core].
      rewrite Hc in E.
      repeat match type of E with context [if ?b then _ else _] => destruct b end;
        injection E as <- <-; same_core. }
    pose proof (inv_core _ _ _ _ Hsame Hi) as Hi'. split; [apply Hi'|intros _; exact Hi'].
Qed.

(** *** The body *)

(** What holds whether or not the body is wanted. *)
Record kept (s s' : ProbeState) : Prop := {
  k_range : pb_range s' = range;
  k_destination : pb_destination s' = destination;
  k_started : pb_started s' = true;
  k_cut : pb_cut_short s' = false;
  k_first : is_u64 (pb_range_first s');
  k_last : is_u64 (pb_range_last s');
  k_answers : pb_content_range_answers s' = pb_content_range_answers s;
  k_total : pb_have_total s' = true -> pb_total s' = size_;
  k_unsatisfied : pb_unsatisfied_valid s' = true -> pb_have_total s' = true;
  k_ignored : pb_suffix_ignored s' = true -> pb_have_total s' = true /\ suffix range = true;
}.

(** The 200 branch of [start_body], once the size is known. *)
Lemma start_whole_body g s0 s m go s' :
  g_code g = 200 -> g_sent g = 0 -> kept s0 s -> pb_have_total s = true -> pb_total s = size_ ->
  pb_stored s = 0 -> pb_skip s = 0 ->
  (if suffix range then
     if br_length range <? pb_total s then (false, s <| pb_suffix_ignored := true |>)
     else (true, s <| pb_range_first := 0 |> <| pb_wanted := pb_total s |>)
   else if pb_fallback_limit s <? br_first range then (false, s <| pb_fallback_rejected := true |>)
   else
     (true, s <| pb_skip := br_first range |> <| pb_range_first := br_first range |>
              <| pb_wanted := if br_first range <? pb_total s
                              then Z.min (br_length range) (pb_total s - br_first range) else 0 |>))
  = (go, s') ->
  kept s0 s' /\ if go then body_state g s' m else blocked 200 s'.
Proof using size_ok range_ok_.
  intros Hcode Hsent Hkept Hhave Htotal Hst Hsk. rewrite Htotal. destruct range_ok_ as [Hlen Hrange].
  unfold is_u64 in Hlen. unfold body_state, first_of, got_of. destruct (suffix range) eqn:Esuffix;
    destruct Hkept.
  - destruct (Z.ltb_spec (br_length range) size_); intros [= <- <-].
    + split; [by constructor|]. do 4 right. split; [done|]. right. by left.
    + split; [constructor; cbn; try done; unfold is_u64; lia|]. exists 0.
      split_and!; cbn; [|by right|lia|lia|done]. constructor; cbn; rewrite ?Hst, ?Hsk; lia.
  - destruct (Hrange eq_refl) as (H1 & H2 & H3).
    destruct (pb_fallback_limit s <? br_first range); intros [= <- <-].
    + split; [by constructor|]. do 4 right. split; [done|]. by do 2 right.
    + split; [constructor; cbn; try done; unfold is_u64; lia|]. exists 0.
      set (w := if br_first range <? size_ then _ else _).
      assert (Hw : w = Z.max 0 (Z.min (br_length range) (size_ - br_first range)))
        by (unfold w; destruct (Z.ltb_spec (br_first range) size_); lia). clearbody w.
      split_and!; cbn; [|by right|done..]. constructor; cbn; rewrite ?Hst; lia.
Qed.

(** What [start_body] decides; [s] has just been marked as started. *)
Lemma start_body_spec g s m content_length go s' :
  inv g s m -> pb_started s = false -> g_code g < 300 ->
  (g_code g = 200 -> content_length = -1 \/ content_length = size_) ->
  start_body (s <| pb_started := true |>) (g_code g) content_length = (go, s') ->
  kept s s' /\ if go then body_state g s' m else blocked (g_code g) s'.
Proof using size_ok range_ok_.
  intros [Hr Hd [Hn1 Hn2] Hs Ht Hu Hig Ha Hc Hw _] Hns Hcode Hlen.
  destruct (Hw Hns) as (Hstored & Hskip & Hsent). specialize (Hsent Hcode). specialize (Ha Hns).
  assert (Hkept : kept s (s <| pb_started := true |>)) by (by constructor).
  unfold start_body. cbn.
  destruct (transformed (pb_encoding s)) eqn:Et; [intros [= <- <-]; split; [done|by left]|].
  destruct (is_strong_etag _ && _ && _).
  { intros [= <- <-]. split; [by constructor|]. right. by left. }
  destruct (Z.eqb_spec (g_code g) 206) as [E206|E206].
  { destruct (pb_content_range_answers s) eqn:Eans; cbn; intros [= <- <-].
    - destruct (Ha eq_refl) as (Hrange & Hhave & Hle & Hlt & Hans).
      destruct (answers_spec _ _ Hle Hlt Hans) as [Hfirst Hgot].
      split; [by constructor|]. exists (pb_range_first s).
      assert (Hwant : wrap64 (wrap64 (pb_range_last s - pb_range_first s) + 1) = got_of).
      { rewrite (wrap64_small (_ - _)), wrap64_small by (unfold is_u64 in *; lia). lia. }
      split_and!; cbn; [|left; rewrite Hsent; split_and!; [done|lia|by eexists]|done..].
      constructor; cbn; rewrite ?Hstored, ?Hskip, ?Hwant; unfold is_u64 in *; lia.
    - split; [done|]. do 2 right. by left. }
  destruct (Z.eqb_spec (g_code g) 200) as [E200|E200]; cbn [negb].
  2:{ intros [= <- <-]. split; [done|]. do 3 right. by left. }
  rewrite E200.
  destruct (pb_have_total s) eqn:Ehave; cbn [negb andb]; [intros E|].
  2: destruct (Z.ltb_spec content_length 0) as [Eneg|Eneg]; [|intros E].
  - rewrite (k_range _ _ Hkept) in E.
    eapply (start_whole_body g s (s <| pb_started := true |>)); try done. by apply Ht.
  - intros [= <- <-]. split; [done|]. do 4 right. split; [done|by left].
  - assert (Hsize : content_length = size_) by (specialize (Hlen E200); lia).
    assert (Hkept' : kept s (s <| pb_started := true |> <| pb_total := content_length |>
                               <| pb_have_total := true |>))
      by (constructor; try done; intros Hv; by destruct (Hig Hv)).
    rewrite (k_range _ _ Hkept') in E. 
    eapply (start_whole_body g s (s <| pb_started := true |> <| pb_total := content_length |>
                                    <| pb_have_total := true |>)); try done.
Qed.

Lemma inv_kept g s m : inv g s m -> pb_started s = true -> kept s s.
Proof. intros [] Hs. by constructor; try tauto. Qed.

(** Memory outside the destination is unchanged. *)
Definition framed (m m' : memory) : Prop :=
  forall a, a < destination \/ destination + br_length range <= a -> m' a = m a.

Lemma got_of_fits : got_of <= br_length range.
Proof using range_ok_.
  unfold got_of. destruct range_ok_ as [Hl Hr]. unfold is_u64 in Hl. destruct (suffix range); lia.
Qed.

(** A chunk of a wanted body. *)
Lemma store_step g s0 s m data n s' m' :
  (g_seen g = false -> pb_content_range_answers s0 = false) -> kept s0 s -> body_state g s m ->
  data <> [] ->
  (g_code g = 206 -> forall first last, g_range g = Some (first, last) ->
     bytes_at obj (first + g_sent g) data) ->
  (g_code g = 200 -> bytes_at obj (g_sent g) data) ->
  store_probe s m data (g_code g) (Z.of_nat (length data)) = (n, s', m') ->
  let g1 := g <| g_sent := g_sent g + Z.of_nat (length data) |> <| g_body := true |> in
  framed m m' /\ (n = Z.of_nat (length data) -> inv g1 s' m') /\
  (n <> Z.of_nat (length data) -> pb_cut_short s' = true -> ended g1 s' m').
Proof using range_ok_.
  intros Hseen [] (pos & Hp & Hcode & Hfirst & Hwant & Hhave) Hne H206 H200 E g1. split.
  { intros a Ha. destruct Hp. pose proof got_of_fits. eapply store_probe_frame; eauto. lia. }
  assert (Hbytes : bytes_at obj pos data).
  { destruct Hcode as [(Hc & -> & last & Hrange)|[Hc ->]]; eauto. }
  assert (Hstatus : g_code g = 200 \/ g_code g = 206) by (destruct Hcode as [[? _]|[? _]]; auto).
  pose proof (store_probe_stores _ _ _ _ _ _ _ _ E) as Hstores. unfold stores in Hstores.
  assert (Hlen : 0 < Z.of_nat (length data)) by (destruct data; [done|cbn; lia]).
  destruct (store_probe_places obj _ _ _ _ _ _ _ _ _ Hstatus Hp Hbytes E)
    as [[-> Hcut]|[[Hplaced Hcut]|(-> & H & Hdone & pos' & Hplaced)]].
  - split; [lia|]. intros _. congruence.
  - split; [|congruence]. intros _.
    assert (Hbs : body_state g1 s' m').
    { exists (pos + Z.of_nat (length data)). split; [done|]. rewrite Hstores. cbn.
      split_and!; [|done..]. destruct Hcode as [(Hc & -> & last & Hrange)|[Hc ->]]; [left|by right].
      split_and!; [done|lia|by eexists]. }
    rewrite Hstores in Hcut, Hbs |- *. constructor; cbn; try congruence; auto.
    intros Hs. rewrite k_answers0. auto.
  - split; [lia|]. intros _ Hcut. unfold ended. split; [cbn; lia|].
    rewrite Hstores in Hdone, Hplaced |- *. cbn in *. split_and!; auto. right. split_and!; eauto.
Qed.

Lemma body_step g s m data size count content_length es g' n s' m' :
  inv g s m -> honest g (BodyData data size count (g_code g) content_length :: es) g' ->
  probe_body_callback s m data size count (g_code g) content_length = (n, s', m') ->
  exists g1, honest g1 es g' /\ framed m m' /\ (n = Z.of_nat (length data) -> inv g1 s' m') /\
    (n <> Z.of_nat (length data) -> pb_cut_short s' = true -> ended g1 s' m').
Proof using size_ok range_ok_.
  intros Hi Hh. inversion Hh as [| | | |? ? ? ? ? ? ? Hne Hsize Hlen H206 H200 Hh']; subst; clear Hh.
  unfold probe_body_callback. rewrite Hsize. set (g1 := g <| g_sent := _ |> <| g_body := true |>) in *.
  intros E. exists g1. split; [exact Hh'|].
  (* what a body of a code of 300 and above leaves *)
  assert (Hskip : 300 <= g_code g -> forall s1, same_core s s1 -> inv g1 s1 m).
  { intros Hcode s1 Hs1. eapply inv_core; [exact Hs1|]. destruct Hi. constructor; try assumption.
    - intros Hns. destruct (i_waiting0 Hns) as (? & ? & _). split_and!; [done..|]. cbn. lia.
    - intros Hst. destruct (i_started0 Hst) as [_ (pos & _ & Hcode' & _)]. lia. }
  destruct (is_3xx (g_code g) && pb_follow_redirects s) eqn:E3.
  { injection E as <- <- <-. apply andb_true_iff in E3 as [E3 _]. unfold is_3xx in E3.
    split; [done|]. split; [|lia]. intros _. apply Hskip; [lia|same_core]. }
  destruct (Z.leb_spec 300 (g_code g)) as [Hcode|Hcode].
  { destruct (_ <? _) in E; injection E as <- <- <-; (split; [done|split; [|intros _ Hcut]]).
    1,3: intros _; apply Hskip; [done|same_core].
    all: cbn in Hcut; destruct Hi; congruence. }
  revert E. cbv zeta. set (s1 := count_received _ s).
  assert (Hi1 : inv g s1 m) by (eapply inv_core; [|exact Hi]; same_core). clearbody s1. clear s Hi Hskip E3.
  destruct (pb_started s1) eqn:Es; cbn [negb].
  - intros E. eapply (store_step g s1 s1 m); eauto using inv_kept, i_seen; apply Hi1, Es.
  - destruct (start_body _ _ _) as [go s2] eqn:Eb.
    apply start_body_spec with (g := g) (m := m) in Eb as [Hkept Hbody]; [|done..].
    destruct go; cbn [negb]; intros E; [eapply store_step; eauto using i_seen|].
    injection E as <- <- <-. split; [done|]. split; [destruct data; [done|cbn; lia]|]. intros _ _.
    destruct Hkept. unfold ended. cbn. split_and!; [lia|done..|]. by left.
Qed.

(** ** A whole exchange *)

Lemma run_events_spec es : forall g g' s m c s' m',
  inv g s m -> honest g es g' -> unread es s m = [] -> run_events es s m = (c, s', m') ->
  framed m m' /\ (c = true -> inv g' s' m') /\ (c = false -> pb_cut_short s' = true -> ended g' s' m').
Proof using size_ok range_ok_.
  induction es as [|e es IH]; intros g g' s m c s' m' Hi Hh Hun; cbn [run_events Probe.run_events].
  { intros [= <- <- <-]. by inversion Hh; subst. }
  cbn [unread] in Hun. destruct (run_event e s m) as [[consumed s1] m1] eqn:E.
  assert (Hstep : exists g1, honest g1 es g' /\ framed m m1 /\ (consumed = true -> inv g1 s1 m1) /\
    (consumed = false -> pb_cut_short s1 = true -> ended g1 s1 m1)).
  { destruct e as [line_ size count now|data size count status content_length]; cbn in E.
    - destruct (probe_header_callback _ _ _ _ _ _ _ _) as [n s2] eqn:Ec. injection E as <- <- <-.
      destruct (header_step _ _ _ _ _ _ _ _ _ _ _ Hi Hh Ec) as (g1 & Hh1 & Hcut & Hinv).
      exists g1. split_and!; [done|done| |congruence]. intros Hc%Z.eqb_eq. by apply Hinv.
    - assert (status = g_code g) as -> by by inversion Hh.
      destruct (probe_body_callback _ _ _ _ _ _ _) as [[n s2] m2] eqn:Ec. injection E as <- <- <-.
      destruct (body_step _ _ _ _ _ _ _ _ _ _ _ _ Hi Hh Ec) as (g1 & Hh1 & Hf & Hinv & Hend).
      exists g1. split_and!; [done|done| |].
      + intros Hc%Z.eqb_eq. by apply Hinv.
      + intros Hc%Z.eqb_neq. by apply Hend. }
  destruct Hstep as (g1 & Hh1 & Hf & Hinv & Hend). destruct consumed.
  - intros Er. destruct (IH g1 g' s1 m1 c s' m' (Hinv eq_refl) Hh1 Hun Er) as [Hf' H'].
    split; [|exact H']. intros a Ha. rewrite Hf' by done. by apply Hf.
  - intros [= <- <- <-]. subst es. inversion Hh1; subst. auto.
Qed.

(** What is true of the state a turn judges, when the exchange counts as
    complete. *)
Record verdict (status : Z) (s : ProbeState) (m : memory) : Prop := {
  v_destination : pb_destination s = destination;
  v_total : pb_have_total s = true -> pb_total s = size_;
  v_ignored : pb_suffix_ignored s = true -> pb_have_total s = true /\ suffix range = true;
  v_unsatisfied : 300 <= status -> pb_unsatisfied_valid s = true -> pb_have_total s = true;
  v_body : status < 300 -> blocked status s \/
    (pb_range_first s = first_of /\ pb_wanted s = got_of /\ pb_have_total s = true /\
     (status = 200 -> pb_stored s = pb_wanted s) /\ exists pos, placed obj s pos m);
}.

Lemma whole_body_stored g s m :
  body_state g s m -> g_code g = 200 -> g_sent g = size_ -> pb_stored s = pb_wanted s.
Proof using size_ok range_ok_.
  intros (pos & [Hskip Hst Hw Hpos Hz _] & Hcode & Hf & Hwant & _) Hc Hs.
  destruct Hcode as [[Hc' _]|[_ ->]]; [congruence|]. rewrite Hs, Hf in Hpos.
  unfold first_of in Hpos. unfold got_of in *. destruct range_ok_ as [Hl Hr]. unfold is_u64 in Hl.
  destruct (suffix range); [lia|]. specialize (Hr eq_refl). lia.
Qed.

Lemma exchange_verdict x s0 m c s m' :
  inv (new_response 0) s0 m -> conforms x s0 m -> run_events (x_events x) s0 m = (c, s, m') ->
  framed m m' /\ (effective_code x s = CURLE_OK -> verdict (x_status x) (finish_body x s) m').
Proof using size_ok range_ok_.
  intros Hi [Hstop Hshort Hlen (g & Hh & Hstatus & Hwhole)] E.
  rewrite E in Hshort. cbn in Hshort. rewrite Hstatus in *.
  destruct (run_events_spec _ _ _ _ _ _ _ _ Hi Hh Hstop E) as [Hframe [Hgo Hend]].
  split; [exact Hframe|]. intros Hcode.
  unfold finish_body. rewrite Hcode, Hstatus. unfold effective_code in Hcode.
  destruct c.
  - assert (Hx : x_code x = CURLE_OK).
    { pose proof (i_cut _ _ _ (Hgo eq_refl)) as Hcut. by rewrite Hcut, andb_false_r in Hcode. }
    specialize (Hgo eq_refl). specialize (Hwhole Hx). clear Hend.
    destruct (bool_decide (CURLE_OK = CURLE_OK) && is_2xx (g_code g) && negb (pb_started s)) eqn:Ef.
    + apply andb_true_iff in Ef as [[_ H2]%andb_true_iff Hns%negb_true_iff].
      assert (Hlt : g_code g < 300) by (unfold is_2xx in H2; lia).
      destruct (start_body _ _ _) as [go s2] eqn:Eb.
      apply start_body_spec with (g := g) (m := m') in Eb as [[] Hbody]; [|done..]. cbn.
      constructor; auto; try lia. intros _. destruct go; [right|by left].
      pose proof Hbody as (pos & Hp & _ & Hf & Hw & Hh'). split_and!; auto; [|by eexists].
      intros H200. eapply whole_body_stored; eauto.
    + destruct Hgo. constructor; auto. intros Hlt. destruct (pb_started s) eqn:Es.
      * right. destruct (i_started0 eq_refl) as [_ Hbody].
        pose proof Hbody as (pos & Hp & _ & Hf & Hw & Hh'). split_and!; auto; [|by eexists].
        intros H200. eapply whole_body_stored; eauto.
      * left. do 3 right. left. rewrite bool_decide_true in Ef by done. unfold is_2xx in Ef. lia.
  - specialize (Hshort eq_refl). rewrite Hshort in Hcode.
    destruct (pb_cut_short s) eqn:Ecut; [|done].
    destruct (Hend eq_refl eq_refl) as (Hlt & Hst & Hd & Ht & Hig & Hbody).
    rewrite Hst, !andb_false_r. constructor; auto; try lia. intros _.
    destruct Hbody as [Hb|(H200 & Hdone & Hf & Hw & Hh' & Hp)]; [by left|right]. split_and!; auto.
Qed.

(** ** Judging it *)

Definition serves (r : RangeReply) (m : memory) : Prop :=
  total r = size_ /\ (suffix range = false -> suffix_ignored r = false) /\
  (suffix_ignored r = false ->
   first r = first_of /\ r_got r = got_of /\
   forall i, 0 <= i < r_got r -> m (destination + i) = obj (first r + i)).

Lemma not_blocked_206 s : pb_content_range_answers s = true -> transformed (pb_encoding s) = false ->
  pb_version_changed s = false -> ~ blocked 206 s.
Proof. intros H1 H2 H3 [?|[?|[[_ ?]|[[_ ?]|[? _]]]]]; congruence. Qed.

Lemma not_blocked_200 s : pb_suffix_ignored s = false -> pb_fallback_rejected s = false ->
  pb_have_total s = true -> transformed (pb_encoding s) = false ->
  pb_version_changed s = false -> ~ blocked 200 s.
Proof. intros H1 H2 H3 H4 H5 [?|[?|[[? _]|[[? _]|[_ [?|[?|?]]]]]]]; congruence. Qed.

Section Loop.
Context {W : Type} `{ProbeRequests W}.
Variable setopt : easy_handle -> CURLoption -> OptValue -> CURLcode.
Variable curl_easy_strerror : CURLcode -> str.
Variable option_name : CURLoption -> option str.
Variable option_number : CURLoption -> Z.
Variable ca_support : CurlCaSupport.
Variable options : ClientOptions.
Variable l : Locator.
Variable if_match : str.
Abbreviation start := (initial_probe options range destination if_match).

Lemma judge_success_serves request status s st m r :
  verdict status s m ->
  judge_success options range request CURLE_OK status s st = Some (Return (Ok r)) -> serves r m.
Proof using size_ok range_ok_.
  intros [Hd Ht Hig Hu Hb]. unfold judge_success. rewrite bool_decide_true by done. cbn [andb].
  assert (Hserve : pb_have_total s = true -> pb_range_first s = first_of -> pb_wanted s = got_of ->
    pb_stored s = pb_wanted s -> (exists pos, placed obj s pos m) ->
    serves {| total := pb_total s; first := pb_range_first s; r_got := pb_stored s; etag := pb_etag s;
              suffix_ignored := false; stats := st |} m).
  { intros H1 H2 H3 H4 [pos [_ _ _ _ _ Hbytes]]. split; [by apply Ht|]. split; [done|]. intros _. cbn.
    split_and!; [done|congruence|]. rewrite <-Hd. exact Hbytes. }
  destruct (Z.eqb_spec status 416) as [E416|E416]; cbn [andb].
  { destruct (pb_unsatisfied_valid s) eqn:Eu; cbn [negb andb]; [|done].
    assert (Hsize : pb_total s = size_) by (apply Ht, Hu; [lia|done]).
    destruct (if suffix range then _ else _) eqn:Eempty.
    - intros [= <-]. split; [done|]. split; [done|]. intros _. cbn. unfold first_of, got_of.
      destruct range_ok_ as [Hl Hr]. unfold is_u64 in Hl. rewrite Hsize in Eempty.
      destruct (suffix range); [apply Z.eqb_eq in Eempty|apply Z.leb_le in Eempty];
        (split_and!; [lia|lia|]; intros i Hi; lia).
    - destruct (suffix range) eqn:Es; cbn [andb].
      { intros [= <-]. split; [done|]. split; [congruence|done]. }
      rewrite E416. cbn. by destruct (pb_version_changed s). }
  destruct (_ && pb_body_exceeded s); [done|].
  destruct (is_2xx status && transformed (pb_encoding s)) eqn:Etr; [done|].
  destruct (pb_version_changed s) eqn:Ev; [done|].
  destruct (Z.eqb_spec status 206) as [->|E206].
  { cbn in Etr. destruct (pb_content_range_answers s) eqn:Ea; cbn [negb];
      [|by destruct (pb_content_range_valid s)].
    destruct (Z.eqb_spec (pb_stored s) (pb_wanted s)); cbn [negb]; [|done]. intros [= <-].
    destruct (Hb ltac:(lia)) as [Hbl|(H1 & H2 & H3 & _ & H5)]; [by apply not_blocked_206 in Hbl|].
    by apply Hserve. }
  destruct (Z.eqb_spec status 200) as [->|E200].
  { cbn in Etr. destruct (pb_suffix_ignored s) eqn:Eig.
    { intros [= <-]. destruct (Hig eq_refl) as [Hh Hsuf]. split; [by apply Ht|]. split; [congruence|done]. }
    destruct (pb_fallback_rejected s) eqn:Ef; [done|].
    destruct (pb_have_total s) eqn:Eh; cbn [negb]; [|done]. intros [= <-].
    destruct (Hb ltac:(lia)) as [Hbl|(H1 & H2 & H3 & H4 & H5)]; [by apply not_blocked_200 in Hbl|].
    apply Hserve; auto. }
  by destruct (is_2xx status).
Qed.

Lemma judge_success_code request code status s st r :
  judge_success options range request code status s st = Some (Return (Ok r)) -> code = CURLE_OK.
Proof.
  unfold judge_success. destruct (bool_decide_reflect (code = CURLE_OK)); [done|]. cbn [andb].
  by destruct (_ && pb_body_exceeded s).
Qed.

Lemma retry_is_no_reply env deadline request code s lp r :
  retry_or_give_up curl_easy_strerror options env deadline request code s lp <> Return (Ok r).
Proof. unfold retry_or_give_up. by repeat case_match. Qed.

Lemma verdict_region status s m : verdict status s m -> verdict status (fill_region l s) m.
Proof.
  unfold fill_region. destruct (_ && _); [|done]. intros []. constructor; cbn; try done.
  intros Hlt. destruct (v_body0 Hlt) as [?|(H1 & H2 & H3 & H4 & pos & Hp)]; [by left|right].
  split_and!; try done. exists pos. eapply placed_core; [|exact Hp]. same_core.
Qed.

Lemma judge_serves env deadline request s lp m m' c m0 r :
  inv (new_response 0) s m -> conforms (pe_exchange env request) s m ->
  run_events (x_events (pe_exchange env request)) s m = (c, m0, m') ->
  judge curl_easy_strerror options l range env deadline request m0 lp = Return (Ok r) -> serves r m'.
Proof using size_ok range_ok_.
  intros Hi Hc E. destruct (exchange_verdict _ _ _ _ _ _ Hi Hc E) as [_ Hv].
  unfold judge. destruct (pb_redirect_blocked _); [done|]. unfold judge_response.
  destruct (wrong_region _ _ _ _); [done|]. destruct (stale_credentials _ _ _ _); [done|].
  destruct (judge_success _ _ _ _ _ _ _) as [t|] eqn:Ej; [|intros Hr; by apply retry_is_no_reply in Hr].
  intros ->. pose proof (judge_success_code _ _ _ _ _ _ Ej) as Hcode. rewrite Hcode in Ej.
  eapply judge_success_serves; [|exact Ej]. by apply verdict_region, Hv.
Qed.

Lemma initial_inv request stats m : inv (new_response 0) (start request stats) m.
Proof. by constructor. Qed.

(** The loop's [run_turn], and the request a turn builds. *)
Abbreviation turn_of := (run_turn curl_getdate url_parts follow_parts setopt curl_easy_strerror option_name
  option_number ca_support options l range destination if_match).
Definition request_of (lp : ProbeLoop) (w : W) : expected RequestError PreparedRequest :=
  (if suffix range then pr_prepare_suffix l (br_length range) (lp_region_hint lp) if_match w
   else pr_prepare l (br_first range) (br_length range) (lp_region_hint lp) if_match w).1.

(** Where the run that starts with [lp], [w] and [m] is before turn [i]. *)
Inductive turn_at (envs : nat -> ProbeEnv) (deadline : RequestDeadline) (lp : ProbeLoop) (w : W) (m : memory)
    : nat -> ProbeLoop -> W -> memory -> Prop :=
| turn_first : turn_at envs deadline lp w m 0 lp w m
| turn_next i lp1 w1 m1 lp2 invalidate w2 m2 :
    turn_at envs deadline lp w m i lp1 w1 m1 -> turn_of (envs i) deadline lp1 w1 m1 = (Continue lp2 invalidate, w2, m2) ->
    turn_at envs deadline lp w m (S i) lp2 (if invalidate then pr_invalidate l w2 else w2) m2.

(** Each exchange of the run, that of the request the turn issues in the state
    it issues it in, is one of libcurl with an honest server. *)
Definition honest_turns (envs : nat -> ProbeEnv) (deadline : RequestDeadline) (lp : ProbeLoop) (w : W) (m : memory) : Prop :=
  forall i lp' w' m' request, turn_at envs deadline lp w m i lp' w' m' -> request_of lp' w' = Ok request ->
    conforms (pe_exchange (envs i) request) (start request (lp_stats lp')) m'.
Definition honest_world (now : Z) (envs : nat -> ProbeEnv) (w : W) (m : memory) : Prop :=
  forall handle, honest_turns envs
    (deadline_start now (request_timeout_seconds options) RequestDeadline_default) (new_probe_loop handle) w m.

Lemma run_turn_serves envs deadline lp0 w0 m0 i lp w m t w' m' :
  honest_turns envs deadline lp0 w0 m0 -> turn_at envs deadline lp0 w0 m0 i lp w m ->
  turn_of (envs i) deadline lp w m = (t, w', m') ->
  framed m m' /\ forall reply, t = Return (Ok reply) -> serves reply m'.
Proof using size_ok range_ok_.
  intros Hworld Hat. unfold run_turn. pose proof (Hworld i lp w m) as Hc. unfold request_of in Hc.
  destruct (expired _ _); [by intros [= <- _ <-]|].
  destruct (if suffix range then _ else _) as [[request|e] w2]; [|by intros [= <- _ <-]].
  specialize (Hc request Hat eq_refl).
  destruct (expired _ _); [by intros [= <- _ <-]|].
  destruct (build_headers _ _ _); [|by intros [= <- _ <-]].
  destruct (attempt_setup _ _ _ _ _ _ _ _ _ _) as [[[]|] handle]; [|by intros [= <- _ <-]].
  change (lp_stats (lp <| lp_region_hint := routing_region request |> <| lp_handle := handle |>)) with (lp_stats lp).
  destruct (Probe.run_events _ _ _ _ _ _) as [[c s] m2] eqn:Er. intros [= <- _ <-].
  pose proof (initial_inv request (lp_stats lp) m) as Hi.
  split; [by eapply exchange_verdict|]. intros reply Hj. by eapply judge_serves.
Qed.

Lemma run_loop_serves envs deadline lp0 w0 m0 : honest_turns envs deadline lp0 w0 m0 -> forall fuel i lp w m r w' m',
  turn_at envs deadline lp0 w0 m0 i lp w m ->
  run_loop curl_getdate url_parts follow_parts setopt curl_easy_strerror option_name option_number
    ca_support options l range destination if_match fuel envs i deadline lp w m = Some (r, w', m') ->
  framed m m' /\ (forall reply, r = Ok reply -> serves reply m').
Proof using size_ok range_ok_.
  intros Hworld. induction fuel as [|fuel IH]; intros i lp w m r w' m' Hat; cbn [run_loop]; [done|].
  destruct (lp_attempt lp <? max_attempts options); [|by intros [= <- <- <-]].
  destruct (run_turn _ _ _ _ _ _ _ _ _ _ _ _ _ _ _ _ _ _) as [[t w1] m1] eqn:E.
  destruct (run_turn_serves _ _ _ _ _ _ _ _ _ _ _ _ Hworld Hat E) as [Hf Hs]. destruct t as [r0|lp' inv'].
  - intros [= <- _ <-]. split; [done|]. intros reply ->. by apply Hs.
  - intros Er. destruct (IH _ _ _ _ _ _ _ (turn_next _ _ _ _ _ _ _ _ _ _ _ _ _ Hat E) Er) as [Hf' Hs'].
    split; [|done]. intros a Ha. rewrite Hf' by done. by apply Hf.
Qed.

Lemma get_range_serves now envs h w m r w' m' :
  honest_world now envs w m ->
  get_range curl_getdate url_parts follow_parts setopt curl_easy_strerror option_name option_number
    ca_support options l range destination if_match now envs h w m = Some (r, w', m') ->
  framed m m' /\ (forall reply, r = Ok reply -> serves reply m').
Proof using size_ok range_ok_.
  intros Hworld. unfold get_range. destruct (and_then _ _ h) as [[[]|text] h']; [|by intros [= <- _ <-]].
  eapply run_loop_serves; [apply Hworld|constructor].
Qed.

(** C6: a synchronous read delivers the requested bytes: when each request the
    run issues meets an honest server, whatever it refuses, redirects (also to
    a Location that libcurl follows), interrupts or delays, a reply states
    the true size of the object and holds exactly the bytes of the range that
    exist, from the first one on (of a suffix, the last bytes of the object);
    only a server that ignored the suffix of a longer object delivers none,
    and the reply says so. No byte outside the destination changes, whatever
    the outcome. *)
Theorem probe_delivers_range now envs h w m r w' m' :
  honest_world now envs w m ->
  get_range curl_getdate url_parts follow_parts setopt curl_easy_strerror option_name option_number
    ca_support options l range destination if_match now envs h w m = Some (r, w', m') ->
  framed m m' /\ (forall reply, r = Ok reply -> serves reply m').
Proof using size_ok range_ok_. exact (get_range_serves now envs h w m r w' m'). Qed.
End Loop.
End Callbacks.
End Server.

(** A range the request builder refuses reads nothing. *)
Lemma get_range_refused {W} `{ProbeRequests W} getdate parts follow setopt strerror option_name option_number
    support options l range dest pin now envs h w m r w' m' :
  suffix range = false ->
  (forall hint w0, is_ok (pr_prepare l (br_first range) (br_length range) hint pin w0).1 = false) ->
  get_range getdate parts follow setopt strerror option_name option_number support options l range dest pin
    now envs h w m = Some (r, w', m') ->
  m' = m /\ is_ok r = false.
Proof.
  intros Hs Hno. unfold get_range. destruct (and_then _ _ h) as [[[]|text] h']; [|by intros [= <- _ <-]].
  unfold probe_fuel. rewrite Nat.add_comm. cbn [Nat.add run_loop].
  destruct (_ <? _); [|by intros [= <- _ <-]]. unfold run_turn at 1.
  destruct (expired _ _); [by intros [= <- _ <-]|]. rewrite Hs.
  match goal with |- context [pr_prepare ?l ?f ?n ?hint ?p ?w0] =>
    specialize (Hno hint w0); destruct (pr_prepare l f n hint p w0) as [[q|e] w2] end; [done|].
  by intros [= <- _ <-].
Qed.

(** *** Witness *)

(** Bytes 3 to 6 of an object of ten bytes, in two chunks after a redirect to
    another host, which the request's options let libcurl follow. *)
Definition ten_bytes : object_bytes := fun i => nth (Z.to_nat i) $"0123456789" "0"%char.
Definition four_bytes : ByteRange := {| br_first := 3; br_length := 4; suffix := false |}.

Definition example_exchange : Exchange :=
  {| x_events := [line $"HTTP/1.1 307 Temporary Redirect"; line $"Location: https://other/object"; line $"ETag: x";
                  line []; body $"moved" 307 5;
                  line $"HTTP/1.1 206 Partial Content"; line $"Content-Range: bytes 3-6/10"; line [];
                  body $"34" 206 (-1); body $"56" 206 (-1)];
     x_code := CURLE_OK; x_status := 206; x_length := -1; x_connects := 1; x_error := [] |}.

Abbreviation example_get_range envs :=
  (get_range (fun _ => -1) no_parts (fun _ => no_parts) accepting (fun _ => []) (fun _ => None)
     (fun _ => 0) example_support ClientOptions_default (Resolved_default <| backend := Http |>)
     four_bytes 1000 [] 0 envs [] tt no_memory).

Lemma example_honest :
  honest ten_bytes 10 (new_response 0) (x_events example_exchange)
    (mkResponse 206 4 true true (Some (3, 6))).
Proof.
  apply (honest_status _ _ _ _ _ _ _ 307); [done|]. do 3 (apply honest_header; [done..|]).
  apply (honest_body _ _ (new_response 307)); [done|by vm_compute|by right|..].
  { intros [=]. }
  { intros [=]. }
  cbn. apply (honest_status _ _ _ _ _ _ _ 206); [done|].
  apply honest_range; [done..| |].
  { split; [|done]. intros r. vm_compute. by intros [= <-]. }
  apply honest_header; [done..|].
  apply (honest_body _ _ (mkResponse 206 0 false true (Some (3, 6)))); [done|by vm_compute|done| |done|].
  { intros _ f la [= <- <-] i Hi. cbn in Hi. assert (i = 0 \/ i = 1) as [->| ->] by lia; done. }
  apply (honest_body _ _ (mkResponse 206 2 true true (Some (3, 6)))); [done|by vm_compute|done| |done|].
  { intros _ f la [= <- <-] i Hi. cbn in Hi. assert (i = 0 \/ i = 1) as [->| ->] by lia; done. }
  apply honest_end.
Qed.

(** Requests that follow redirects to any host. *)
Lemma example_conforms d request stats m :
  follow_redirects (req_http request) = true -> same_origin_redirects_only (req_http request) = false ->
  conforms ten_bytes 10 (fun _ => -1) no_parts (fun _ => no_parts) example_exchange
    (initial_probe ClientOptions_default four_bytes d [] request stats) m.
Proof.
  destruct request as [url headers rng [v follow only ca sys path proxy_ auth agent] region]. cbn. intros -> ->.
  constructor.
  - by vm_compute.
  - by vm_compute.
  - by intros [=].
  - exists (mkResponse 206 4 true true (Some (3, 6))). split_and!; [exact example_honest|done|done].
Qed.

Lemma example_world m :
  honest_world ten_bytes 10 (fun _ => -1) no_parts (fun _ => no_parts) four_bytes 1000 accepting (fun _ => [])
    (fun _ => None) (fun _ => 0) example_support ClientOptions_default (Resolved_default <| backend := Http |>) []
    0 (one_exchange example_exchange) tt m.
Proof. intros handle i lp w' m' request _ [= <-]. by apply example_conforms. Qed.

Lemma probe_delivers_range_witness :
  exists r m', example_get_range (one_exchange example_exchange) = Some (Ok r, tt, m') /\
    serves ten_bytes 10 four_bytes 1000 r m' /\ r_got r = 4.
Proof.
  assert (Hsize : 0 <= 10 <= U64_MAX) by lia.
  assert (Hfits : range_fits four_bytes)
    by (split; [unfold is_u64; cbn; lia|intros _; cbn; lia]).
  assert (exists r m', example_get_range (one_exchange example_exchange) = Some (Ok r, tt, m') /\ r_got r = 4)
    as (r & m' & E & Hg) by (eexists _, _; split; [vm_compute; reflexivity|reflexivity]).
  exists r, m'. split; [exact E|]. split; [|exact Hg].
  exact (proj2 (probe_delivers_range ten_bytes 10 Hsize (fun _ => -1) no_parts (fun _ => no_parts)
    four_bytes 1000 Hfits accepting (fun _ => []) (fun _ => None) (fun _ => 0) example_support
    ClientOptions_default (Resolved_default <| backend := Http |>) [] 0 (one_exchange example_exchange)
    [] tt no_memory (Ok r) tt m' (example_world no_memory) E) r eq_refl).
Defined.
