(* ===== verification/Batch.v ===== *)
(** * Batch: the queue of completions and its counters

    Models [src/src/runtime/batch.hpp] and [src/src/runtime/batch.cpp], and the
    two functions of [src/src/runtime/engine.cpp] that end a transfer,
    [Engine::deliver] and [Engine::finish_transfer], with [discard_transfer].
    [next], [push] and [transfer_finished] are each one critical section of the
    batch's mutex; a wait on the condition variable that has to go on is
    [None].  [deliver] takes the mutex once for every part, and
    [finish_transfer] once more at the end: [System.close_turn] takes these
    sections apart, and [System.close_alone] shows that they come to
    [finish_transfer] when nobody else gets in between. *)

From S2P Require Import Prelude Text Uri Types Planner Response Transport.

(** ** State *)

Record BatchCounters := mkBatchCounters {
  n_transfers : Z; n_transfers_finished : Z; n_requested_bytes : Z; n_received_bytes : Z;
  n_retries : Z; n_throttled : Z; n_new_connections : Z; n_resumed : Z;
  n_credential_refreshes : Z;
}.
#[export] Instance BatchCounters_eta : Eta BatchCounters := fun r =>
  mkBatchCounters (n_transfers r) (n_transfers_finished r) (n_requested_bytes r)
    (n_received_bytes r) (n_retries r) (n_throttled r) (n_new_connections r) (n_resumed r)
    (n_credential_refreshes r).

Definition BatchCounters_default : BatchCounters := mkBatchCounters 0 0 0 0 0 0 0 0 0.

Record karu_batch := mkBatch {
  counters : BatchCounters;
  ready_queue : list Completion;
  regions : gmap str str;
  pending_parts : Z;
  live_transfers : Z;
  cancelled : bool;
}.
#[export] Instance karu_batch_eta : Eta karu_batch := fun r =>
  mkBatch (counters r) (ready_queue r) (regions r) (pending_parts r) (live_transfers r)
    (cancelled r).

Definition karu_batch_default : karu_batch := mkBatch BatchCounters_default [] ∅ 0 0 false.

(** [BatchCounters::add]: [fetch_add] wraps. *)
Definition add (proj : BatchCounters -> Z) `{!Setter proj} (value : Z) (b : karu_batch)
    : karu_batch :=
  b <| counters := (counters b) <| proj := wrap64 (proj (counters b) + value) |> |>.

(** ** Operations *)

Definition can_return (b : karu_batch) : bool :=
  negb (match ready_queue b with [] => true | _ => false end)
  || (pending_parts b =? 0) || cancelled b.

(** [next]: [None] while the caller waits without a limit. *)
Definition next (b : karu_batch) (timeout_ms : Z)
    : option (karu_status * option Completion * karu_batch) :=
  if negb (can_return b) then
    if timeout_ms <? 0 then None else Some (KARU_TIMEOUT, None, b)
  else
    match ready_queue b with
    | [] => Some (KARU_END, None, b)
    | c :: ready => Some (KARU_OK, Some c, b <| ready_queue := ready |>)
    end.

Definition push (b : karu_batch) (c : Completion) : karu_batch :=
  b <| ready_queue := ready_queue b ++ [c] |>
    <| pending_parts := if 0 <? pending_parts b then pending_parts b - 1 else pending_parts b |>.

Definition transfer_finished (b : karu_batch) : karu_batch :=
  b <| live_transfers := if 0 <? live_transfers b then live_transfers b - 1 else live_transfers b |>.

Definition region_for (b : karu_batch) (resource : str) : str := default [] (regions b !! resource).

Definition remember_region (b : karu_batch) (resource region : str) : karu_batch :=
  b <| regions := <[resource := region]> (regions b) |>.

(** ** Ending a transfer *)

Definition shown_uri (r : Resolved) : str :=
  if bool_decide (backend r = Http) then redact_url (canonical_uri r) else canonical_uri r.

(** The bytes at an address. *)
Definition mem_read (m : memory) (a n : Z) : str :=
  map (fun i => m (a + Z.of_nat i)) (seq 0 (Z.to_nat n)).

(** One turn of the loop of [deliver]. *)
Definition deliver_part (t : Transfer) (status : karu_status) (text : str) (m : memory) (p : Part)
    : Completion * memory :=
  let completion := {| c_tag := p_tag p; c_status := status; got := 0; c_buffer := p_buffer p;
                       c_owned_buffer := owned_buffer p; detail := text |} in
  if bool_decide (status = KARU_OK) then
    let part_end := wrap64 (relative_offset p + p_length p) in
    let completion :=
      if received t <? part_end then
        completion
          <| c_status := KARU_ERR_RANGE |>
          <| got := if relative_offset p <? received t then received t - relative_offset p else 0 |>
          <| detail :=
               concat [Text (shown_uri (t_locator t)); Text $": object ended at byte ";
                       Integer (wrap64 (t_offset t + received t)); Text $" while reading [";
                       Integer (wrap64 (t_offset t + relative_offset p)); Text $", +";
                       Integer (p_length p); Text $")"] |>
      else completion <| got := p_length p |> in
    (completion,
     match scratch t with
     | Some s => if 0 <? got completion
                 then memcpy m (p_buffer p) (mem_read m (s + relative_offset p) (got completion))
                 else m
     | None => m
     end)
  else (completion, m).

Fixpoint deliver_parts (t : Transfer) (status : karu_status) (text : str) (m : memory)
    (ps : list Part) (b : karu_batch) : karu_batch * memory :=
  match ps with
  | [] => (b, m)
  | p :: ps =>
      let '(c, m) := deliver_part t status text m p in
      deliver_parts t status text m ps (push b c)
  end.

Definition deliver (t : Transfer) (status : karu_status) (text : str) (m : memory)
    (b : karu_batch) : karu_batch * memory :=
  deliver_parts t status text m (parts t) b.

Definition finish_transfer (t : Transfer) (status : karu_status) (text : str) (m : memory)
    (b : karu_batch) : karu_batch * memory :=
  let b := add n_transfers_finished 1 b in
  let '(b, m) := deliver t status text m b in
  (transfer_finished b, m).

Definition discard_transfer (b : karu_batch) : karu_batch := transfer_finished b.

(** ** What a consumer gets *)

Lemma mem_read_length m a n : 0 <= n -> Z.of_nat (length (mem_read m a n)) = n.
Proof. intros. unfold mem_read. rewrite length_map, length_seq. lia. Qed.

Lemma mem_read_nth m a n i d : 0 <= i < n -> nth (Z.to_nat i) (mem_read m a n) d = m (a + i).
Proof.
  intros Hi. unfold mem_read. rewrite nth_lookup, list_lookup_fmap, lookup_seq_lt by lia.
  cbn. f_equal. lia.
Qed.

(** Where the bytes of a transfer are when it ends: in the parts' buffers, or
    in a staging area that no buffer overlaps. *)
Definition staged (obj : object_bytes) (t : Transfer) (m : memory) : Prop :=
  match scratch t with
  | None => delivered obj t m
  | Some s =>
      (forall x, 0 <= x < received t -> m (s + x) = obj (t_offset t + x)) /\
      Forall (fun p => p_buffer p + p_length p <= s \/ s + t_length t <= p_buffer p) (parts t)
  end.

(** What the completion of a part says, and what its buffer then holds. *)
Definition completes (obj : object_bytes) (t : Transfer) (m : memory) (p : Part) (c : Completion)
    : Prop :=
  c_tag c = p_tag p /\ c_buffer c = p_buffer p /\ c_owned_buffer c = owned_buffer p /\
  (if part_end p <=? received t
   then c_status c = KARU_OK /\ got c = p_length p
   else c_status c = KARU_ERR_RANGE /\ got c = Z.max 0 (received t - relative_offset p)) /\
  (forall i, 0 <= i < got c -> m (p_buffer p + i) = obj (t_offset t + relative_offset p + i)).

(** The parts lie inside the transfer, and its bytes below the last 64-bit
    offset. *)
Definition deliverable (t : Transfer) : Prop :=
  Forall (fun p => 0 <= relative_offset p /\ 1 <= p_length p /\ part_end p <= t_length t) (parts t) /\
  0 <= t_offset t /\ 1 <= t_length t <= U64_MAX /\ t_offset t + t_length t - 1 <= U64_MAX.

Lemma well_shaped_deliverable t : well_shaped t -> deliverable t.
Proof. by intros (_ & _ & Hin & _ & Ho & Hl & Hmax & _). Qed.

Lemma deliver_part_ok obj t m p text :
  deliverable t -> 0 <= received t <= t_length t -> staged obj t m -> p ∈ parts t ->
  let '(c, m') := deliver_part t KARU_OK text m p in
  completes obj t m' p c /\ (forall a, ~ in_buffer p a -> m' a = m a) /\ staged obj t m'.
Proof.
  intros (Hin & Ho & Hl & Hmax) Hle Hst Hp.
  rewrite Forall_forall in Hin. specialize (Hin p Hp). unfold part_end in Hin.
  unfold deliver_part. rewrite bool_decide_true by done.
  rewrite wrap64_small by (unfold is_u64; lia). unfold completes, part_end.
  set (c0 := {| c_tag := p_tag p; c_status := KARU_OK; got := 0; c_buffer := p_buffer p;
                c_owned_buffer := owned_buffer p; detail := text |}).
  set (c := if received t <? relative_offset p + p_length p then _ else _).
  assert (Hc : c_tag c = p_tag p /\ c_buffer c = p_buffer p /\ c_owned_buffer c = owned_buffer p /\
    (if relative_offset p + p_length p <=? received t
     then c_status c = KARU_OK /\ got c = p_length p
     else c_status c = KARU_ERR_RANGE /\ got c = Z.max 0 (received t - relative_offset p))).
  { subst c. destruct (Z.ltb_spec (received t) (relative_offset p + p_length p)).
    - rewrite (proj2 (Z.leb_gt _ _)) by done. cbn. split_and!; try done.
      destruct (Z.ltb_spec (relative_offset p) (received t)); lia.
    - by rewrite (proj2 (Z.leb_le _ _)) by done. }
  clearbody c. destruct Hc as (H1 & H2 & H3 & H4).
  assert (Hgot : 0 <= got c <= p_length p /\ (0 < got c -> relative_offset p + got c <= received t)).
  { destruct (Z.leb_spec (relative_offset p + p_length p) (received t)); destruct H4 as [_ ->]; lia. }
  unfold staged in *. destruct (scratch t) as [s|].
  - destruct Hst as [Hst Hsep]. pose proof Hsep as Hs. rewrite Forall_forall in Hs. specialize (Hs p Hp).
    destruct (Z.ltb_spec 0 (got c)); [|split_and!; try done; intros; lia].
    assert (Hlen : Z.of_nat (length (mem_read m (s + relative_offset p) (got c))) = got c)
      by (apply mem_read_length; lia).
    split_and!; try done.
    + intros i Hi. rewrite memcpy_in by lia. rewrite mem_read_nth by lia.
      rewrite <-!Z.add_assoc. apply Hst. lia.
    + intros a Ha. apply memcpy_out. unfold in_buffer in Ha. lia.
    + intros x Hx. rewrite memcpy_out by lia. by apply Hst.
  - split_and!; try done. intros i Hi. apply Hst; [done|lia|lia].
Qed.

Lemma deliver_parts_ok obj t text ps : forall m b,
  well_shaped t -> 0 <= received t <= t_length t -> staged obj t m ->
  StronglySorted apart ps -> (forall p, p ∈ ps -> p ∈ parts t) ->
  let '(b', m') := deliver_parts t KARU_OK text m ps b in
  exists cs, ready_queue b' = ready_queue b ++ cs /\ Forall2 (completes obj t m') ps cs /\
    (forall a, Forall (fun p => ~ in_buffer p a) ps -> m' a = m a).
Proof.
  induction ps as [|p ps IH]; intros m b Hs Hr Hst Ha Hps; cbn [deliver_parts].
  - exists []. by rewrite app_nil_r.
  - apply StronglySorted_inv in Ha as [Ha Hpa].
    pose proof (deliver_part_ok obj t m p text (well_shaped_deliverable t Hs) Hr Hst (Hps p (list_elem_of_here _ _))) as H.
    destruct (deliver_part t KARU_OK text m p) as [c m1]. destruct H as (Hc & Hf & Hst1).
    specialize (IH m1 (push b c) Hs Hr Hst1 Ha (fun q Hq => Hps q (list_elem_of_further _ _ _ Hq))).
    destruct (deliver_parts t KARU_OK text m1 ps (push b c)) as [b' m'].
    destruct IH as (cs & Hq & Hall & Hf'). exists (c :: cs). split_and!.
    + rewrite Hq. cbn. by rewrite <-app_assoc.
    + constructor; [|done]. destruct Hc as (H1 & H2 & H3 & H4 & H5). split_and!; try done.
      intros i Hi. rewrite Hf'; [by apply H5|]. eapply Forall_impl; [exact Hpa|]. intros q Hq'.
      apply (apart_not_in p q); [done|]. unfold in_buffer.
      destruct (Hs) as (_ & _ & Hin & _). rewrite Forall_forall in Hin.
      specialize (Hin p (Hps p (list_elem_of_here _ _))).
      destruct (part_end p <=? received t) eqn:E; destruct H4 as [_ Hg]; [lia|].
      apply Z.leb_gt in E. unfold part_end in *. lia.
    + intros a (Hp & Hps')%Forall_cons_iff. rewrite Hf' by done. by apply Hf.
Qed.

Lemma deliver_part_tag t status text m p : c_tag (deliver_part t status text m p).1 = p_tag p.
Proof. unfold deliver_part. destruct (bool_decide _); [|done]. by destruct (_ <? _). Qed.

(** ** Properties *)

(** A finished transfer publishes one completion per part, in order; a
    part's completion is a success exactly when all its bytes arrived, a range
    error that counts the bytes that did otherwise, and in both cases the
    counted bytes of its buffer are the object's, whether they were written
    there as they came or are copied from the staging area now. *)
Theorem finished_parts_hold_the_object obj t text m b :
  well_shaped t -> StronglySorted apart (parts t) -> 0 <= received t <= t_length t ->
  staged obj t m ->
  let '(b', m') := finish_transfer t KARU_OK text m b in
  exists cs, ready_queue b' = ready_queue b ++ cs /\ Forall2 (completes obj t m') (parts t) cs /\
    frame t m m'.
Proof.
  intros Hs Ha Hr Hst. unfold finish_transfer, deliver.
  pose proof (deliver_parts_ok obj t text (parts t) m (add n_transfers_finished 1 b)
    Hs Hr Hst Ha (fun _ H => H)) as H.
  destruct (deliver_parts t KARU_OK text m (parts t) _) as [b' m'].
  destruct H as (cs & H1 & H2 & H3). by exists cs.
Qed.

Lemma finished_parts_hold_the_object_witness :
  let t := example_transfer <| received := 1 |> in
  let m := memcpy no_memory 1000 $"k" in
  let '(b', m') := finish_transfer t KARU_OK [] m karu_batch_default in
  exists cs, ready_queue b' = [] ++ cs /\ Forall2 (completes example_object t m') (parts t) cs /\
    frame t m m'.
Proof.
  apply (finished_parts_hold_the_object example_object).
  - apply example_shape.
  - repeat constructor.
  - cbn. lia.
  - intros p i Hp Hi Hx. apply list_elem_of_singleton in Hp as ->. cbn in Hi, Hx.
    assert (i = 0) as -> by lia. reflexivity.
Defined.
