(* ===== verification/Engine.v ===== *)
(** * Engine: what the workers do with one transfer

    Models the handlers of [src/src/runtime/engine.cpp]: start_transfer, the
    body of the message loop of io_loop, file_loop and credential_loop.  A
    handler owns its transfer (a [unique_ptr] in the source); what it does
    with it at the end is its [outcome], which [System.v] carries out on the
    queues.  What the environment answers in between (the clock, libcurl, the
    host resolver, the file system) is an argument.  The request builder is
    used through the class [RequestBuilding]. *)

From S2P Require Import Prelude Text Uri Types Planner Response Transport Batch.

(** ** Interface to the request builder ([RequestBuilder] of request_builder.hpp) *)

Class RequestBuilding := {
  rb_prepare : Locator -> Z -> Z -> str -> str -> expected RequestError PreparedRequest;
  rb_materialize : Locator -> option ProviderCredentials -> Z -> Z -> str -> str ->
                   expected RequestError PreparedRequest;
  rb_resolve_credentials : Locator -> expected RequestError (option ProviderCredentials);
}.

(** [backends::cloud_provider(backend) != nullptr] *)
Definition has_cloud_provider (b : Backend) : bool :=
  match b with S3 | Gcs | Azure | Source => true | File | Http | HuggingFace => false end.

(** ** Outcomes *)

Inductive outcome :=
| Finish (t : Transfer) (status : karu_status) (text : str)
| Discard (t : Transfer)
| ToResolving (t : Transfer)
| ToActive (t : Transfer)
| ToPendingFront (t : Transfer)
| ToCredentialsFront (t : Transfer)
| ToRetries (due : Z) (t : Transfer)
| ToHttpQueue (t : Transfer).

Definition outcome_transfer (o : outcome) : Transfer :=
  match o with
  | Finish t _ _ | Discard t | ToResolving t | ToActive t | ToPendingFront t
  | ToCredentialsFront t | ToRetries _ t | ToHttpQueue t => t
  end.

Definition timeout_detail (t : Transfer) (reason : str) : str :=
  let uri := if str_eqb (request_url t) [] then canonical_uri (t_locator t) else request_url t in
  concat [Text (redact_url uri); Text $": "; Text reason].
Definition request_timeout : str := $"request timeout exceeded".

Inductive exception := BadAlloc | StdException (what : str) | UnknownException.

Section Handlers.
Context `{RequestBuilding}.
Variable options : ClientOptions.

(** ** [start_transfer] *)

Record StartEnv := {
  now_started : Z;              (* the clock at the first deadline check *)
  now_prepared : Z;             (* and after the request is built *)
  alloc : list Z;               (* answers of the allocator *)
  batch_hint : str;             (* the batch's region for the object *)
  host_waiting : bool;          (* the HostResolver entry of the URL *)
  host_resolve : str;
  slist_ok : bool;              (* curl_slist_append succeeds *)
  easy_ok : bool;               (* a handle from the pool or curl_easy_init *)
  configure_error : option str; (* the error of transport::configure *)
  add_error : option str;       (* the text when curl_multi_add_handle fails *)
  inserted : bool;              (* try_emplace into the active map *)
  thrown : option exception;    (* an exception anywhere in the body *)
}.

(** The branch for a transfer that is not prepared yet. *)
Definition prepare_transfer (env : StartEnv) (t : Transfer) : outcome + Transfer :=
  let t := t <| deadline := deadline_start (now_started env) (request_timeout_seconds options)
                              (deadline t) |> in
  if expired (now_started env) (deadline t) then
    inl (Finish t KARU_TIMEOUT (timeout_detail t request_timeout))
  else
    let '(ok, t, _) := ensure_sink (alloc env) t in
    if negb ok then
      inl (Finish t KARU_ERR_NOMEM $"out of memory allocating a coalesced transfer buffer")
    else
      let t := if str_eqb (region_hint t) [] then t <| region_hint := batch_hint env |> else t in
      let cloud := has_cloud_provider (backend (t_locator t)) in
      if cloud && negb (credentials_ready t) then
        inl (Finish t KARU_ERR_INVALID $"internal error: cloud request has no resolved credentials")
      else
        let first := wrap64 (t_offset t + resumed t) in
        let length := wrap64 (t_length t - resumed t) in
        let pin := version_pin t in
        match (if cloud then rb_materialize (t_locator t) (credentials t) first length (region_hint t) pin
               else rb_prepare (t_locator t) first length (region_hint t) pin) with
        | Err e => inl (Finish t (err_status e) (err_message e))
        | Ok request =>
            if expired (now_prepared env) (deadline t) then
              inl (Finish t KARU_TIMEOUT (timeout_detail t request_timeout))
            else
              let t := t <| request_url := req_url request |> <| request_range := req_range request |>
                         <| request_headers := req_headers request |>
                         <| http := Some (req_http request) |> in
              inr (if negb (str_eqb (routing_region request) [])
                   then t <| region_hint := routing_region request |> else t)
        end.

(** What [transport::configure] does to the transfer itself. *)
Definition configure_transfer (t : Transfer) : Transfer :=
  (reset_response t) <| t_range_fallback_limit := range_fallback_limit options |>
    <| http_buffers := (fun b => b <| error := [] |>) <$> http_buffers (reset_response t) |>.

(** From the host lookup to the multi handle. *)
Definition launch_transfer (env : StartEnv) (t : Transfer) : outcome :=
  let looks_up := str_eqb (proxy (http_of t)) [] in
  if looks_up && host_waiting env then ToResolving t
  else if looks_up && negb (str_eqb (host_resolve env) []) && negb (slist_ok env) then
    Finish t KARU_ERR_NOMEM $"out of memory preparing request"
  else if negb (easy_ok env) then Finish t KARU_ERR_NOMEM $"curl_easy_init: out of memory"
  else
    let t := t <| easy := true |> <| http_buffers := Some HttpBuffers_default |> in
    match configure_error env with
    | Some text => Finish t KARU_ERR_NETWORK ($"could not configure HTTP request: " ++ text)
    | None =>
        let t := configure_transfer t in
        match add_error env with
        | Some text => Finish t KARU_ERR_NETWORK (concat [Text $"curl_multi_add_handle: "; Text text])
        | None =>
            if negb (inserted env) then
              Finish t KARU_ERR_INVALID $"internal error registering HTTP transfer"
            else ToActive t
        end
    end.

(** The exception handlers finish the transfer wherever the body stopped. *)
Definition start_transfer (env : StartEnv) (t : Transfer) (prepared : bool) : outcome :=
  match thrown env with
  | Some BadAlloc => Finish t KARU_ERR_NOMEM $"out of memory preparing request"
  | Some (StdException what) =>
      Finish t KARU_ERR_INVALID (concat [Text $"could not prepare request: "; Text what])
  | Some UnknownException =>
      Finish t KARU_ERR_INVALID $"could not prepare request: unknown C++ exception"
  | None =>
      if prepared then
        if expired (now_started env) (deadline t) then
          Finish t KARU_TIMEOUT (timeout_detail t request_timeout)
        else launch_transfer env t
      else
        match prepare_transfer env t with
        | inl out => out
        | inr t => launch_transfer env t
        end
  end.

(** ** The messages of [curl_multi_info_read] *)

Record DoneEnv := {
  result : CURLcode;
  response_code : Z;            (* CURLINFO_RESPONSE_CODE *)
  connects : Z;                 (* CURLINFO_NUM_CONNECTS, 0 when it cannot be read *)
  now_done : Z;                 (* the clock at the deadline check *)
  now_retry : Z;                (* and where the retry is scheduled *)
  jitter : Z -> Z;
  error_text : CURLcode -> str; (* curl_easy_strerror *)
}.

Definition recycle_handle (t : Transfer) : Transfer := t <| easy := false |>.

(** The counters every finished message updates. *)
Definition count_message (env : DoneEnv) (t : Transfer) (b : karu_batch) : karu_batch :=
  let b := if 0 <? connects env then add n_new_connections (connects env) b else b in
  if (http_status t =? 429) || (http_status t =? 503) then add n_throttled 1 b else b.

(** The ordinary retry, or the final failure. *)
Definition retry_or_fail (env : DoneEnv) (t : Transfer) (b : karu_batch) : outcome * karu_batch :=
  let t := if unreachable (result env)
           then t <| unreachable_attempts := unreachable_attempts t + 1 |> else t in
  if (attempt t + 1 <? max_attempts options) && (unreachable_attempts t <? kUnreachableAttempts)
     && retryable t (result env) then
    let t := t <| attempt := attempt t + 1 |> in
    let b := add n_retries 1 b in
    let kept := resumed t in
    let t := plan_resume t in
    let b := if kept <? resumed t then add n_resumed 1 b else b in
    let delay := retry_delay (attempt t) (retry_after t) (jitter env) in
    if negb (can_wait_for (now_retry env) delay (deadline t)) then
      (Finish (recycle_handle t) KARU_TIMEOUT
         (timeout_detail t $"request timeout leaves no time for another attempt"), b)
    else (ToRetries (now_retry env + delay * NS_PER_MS) (recycle_handle t), b)
  else
    let failed := failure (error_text env) t (result env) in
    (Finish (recycle_handle t) (f_status failed) (f_detail failed), b).

(** One message: the outcome, the batch, and whether the cached credentials
    are invalidated. *)
Definition on_done (env : DoneEnv) (t : Transfer) (b : karu_batch) : outcome * karu_batch * bool :=
  let t := if http_status t =? 0 then t <| http_status := response_code env |> else t in
  let b := count_message env t b in
  if succeeded t (result env) then (Finish (recycle_handle t) KARU_OK [], b, false)
  else if expired (now_done env) (deadline t) then
    (Finish (recycle_handle t) KARU_TIMEOUT (timeout_detail t request_timeout), b, false)
  else
    let s3 := bool_decide (backend (t_locator t) = S3) in
    let t := if str_eqb (response_region t) [] && s3
             then t <| response_region := s3_region (error_body (buffers_of t)) |> else t in
    if negb (region_retried t) && negb (str_eqb (response_region t) [])
       && negb (str_eqb (response_region t) (region_hint t)) && s3 then
      let t := t <| region_hint := response_region t |> in
      let b := remember_region b (canonical_uri (t_locator t)) (response_region t) in
      (ToPendingFront (recycle_handle (t <| region_retried := true |>)), b, false)
    else if negb (credentials_retried t) && transfer_credentials_expired t then
      (ToCredentialsFront
         (recycle_handle (t <| credentials_retried := true |> <| credentials := None |>
                            <| credentials_ready := false |>)),
       add n_credential_refreshes 1 b, true)
    else
      let '(out, b) := retry_or_fail env t b in (out, b, false).

(** ** [credential_loop] *)

Record CredentialEnv := {
  cancelled_before : bool;      (* is_cancelled when the transfer is taken *)
  cancelled_after : bool;       (* and after the lookup *)
  now_lookup : Z;
  now_resolved : Z;
  cred_thrown : option exception;
}.

Definition credential_work (env : CredentialEnv) (t : Transfer) : outcome :=
  if cancelled_before env then Discard t
  else
    let t := t <| deadline := deadline_start (now_lookup env) (request_timeout_seconds options)
                                (deadline t) |> in
    match cred_thrown env with
    | Some BadAlloc => Finish t KARU_ERR_NOMEM $"out of memory resolving credentials"
    | Some (StdException what) =>
        Finish t KARU_ERR_CREDENTIALS (concat [Text $"could not resolve credentials: "; Text what])
    | Some UnknownException =>
        Finish t KARU_ERR_CREDENTIALS $"could not resolve credentials: unknown C++ exception"
    | None =>
        match rb_resolve_credentials (t_locator t) with
        | Err e => Finish t (err_status e) (err_message e)
        | Ok c =>
            if cancelled_after env then Discard t
            else if expired (now_resolved env) (deadline t) then
              Finish t KARU_TIMEOUT (timeout_detail t request_timeout)
            else ToHttpQueue (t <| credentials := c |> <| credentials_ready := true |>)
        end
    end.
End Handlers.

(** ** [file_loop] *)

Section Files.
(** [os::File::read_at(size, offset)] of the open file: the bytes read, or the
    text of the error.  The destination is written by the read. *)
Variable read_at : Z -> Z -> expected str str.

(** The read loop; each turn reads at least one byte, so the length of the
    transfer is enough fuel.  [cancelled_at] is what [is_cancelled] answers
    when so many bytes have been received. *)
Fixpoint read_loop (fuel : nat) (cancelled_at : Z -> bool) (t : Transfer) (m : memory)
    : Transfer * memory * option str :=
  match fuel with
  | O => (t, m, None)
  | S fuel =>
      if (received t <? t_length t) && negb (cancelled_at (received t)) then
        match read_at (t_length t - received t) (t_offset t + received t) with
        | Err text => (t, m, Some (concat [Text (target (t_locator t)); Text $": "; Text text]))
        | Ok bytes =>
            let n := Z.of_nat (length bytes) in
            if n =? 0 then (t, m, None)
            else read_loop fuel cancelled_at (t <| received := received t + n |>)
                   (memcpy m (sink t + received t) bytes)
        end
      else (t, m, None)
  end.

Record FileEnv := {
  file_cancelled : bool;          (* is_cancelled when the transfer is taken *)
  file_alloc : list Z;
  open_error : option str;
  file_cancelled_at : Z -> bool;  (* during the reads *)
  file_cancelled_end : bool;      (* and after them *)
}.

(** The body of [file_loop]: the outcome, memory and the batch's counters. *)
Definition file_work (env : FileEnv) (t : Transfer) (m : memory) (b : karu_batch)
    : outcome * memory * karu_batch :=
  let path := target (t_locator t) in
  if file_cancelled env then (Discard t, m, b)
  else
    let '(ok, t, _) := ensure_sink (file_alloc env) t in
    if negb ok then
      (Finish t KARU_ERR_NOMEM (concat [Text path; Text $": out of memory staging the read"]), m, b)
    else
      match open_error env with
      | Some text => (Finish t KARU_ERR_IO (concat [Text path; Text $": "; Text text]), m, b)
      | None =>
          let '(t, m, failed) := read_loop (Z.to_nat (t_length t)) (file_cancelled_at env) t m in
          let b := add n_received_bytes (received t) b in
          if file_cancelled_end env then (Discard t, m, b)
          else match failed with
               | Some text => (Finish t KARU_ERR_IO text, m, b)
               | None => (Finish t KARU_OK [], m, b)
               end
      end.
End Files.

(** ** What every handler keeps *)

(** The transfer still serves the same parts of the same batch. *)
Definition same_job (t t' : Transfer) : Prop :=
  t_batch t' = t_batch t /\ t_locator t' = t_locator t /\ t_if_match t' = t_if_match t /\
  parts t' = parts t /\ t_offset t' = t_offset t /\ t_length t' = t_length t /\
  scattered t' = scattered t.

#[export] Instance same_job_refl : Reflexive same_job.
Proof. by repeat split. Qed.
#[export] Instance same_job_trans : Transitive same_job.
Proof. unfold same_job. intros t1 t2 t3. intuition congruence. Qed.

Create HintDb same_job.
#[export] Hint Extern 1 (same_job _ _) => by repeat split : same_job.

Lemma ensure_sink_same heap t :
  same_job t (ensure_sink heap t).1.2 /\ resumed (ensure_sink heap t).1.2 = resumed t /\
  received (ensure_sink heap t).1.2 = received t /\
  deadline (ensure_sink heap t).1.2 = deadline t.
Proof.
  unfold ensure_sink. destruct (negb (sink t =? 0)); [done|].
  destruct (negb (scattered t)); [done|]. destruct (negb _); [done|].
  destruct (SIZE_MAX <? t_length t); [done|]. destruct heap as [|p heap]; [done|].
  by destruct (p =? 0).
Qed.

Lemma plan_resume_same t : same_job t (plan_resume t).
Proof.
  unfold plan_resume. destruct (negb _ && _); [done|]. destruct (_ || _); [done|].
  destruct (_ || _); [done|]. destruct (_ && _); [|done]. by destruct (str_eqb _ _).
Qed.

(** The attempts a transfer may still make: ordinary retries, and one more for
    a new region and one for new credentials. *)
Definition tries_left (o : ClientOptions) (t : Transfer) : Z :=
  Z.max 0 (max_attempts o - 1 - attempt t)
  + (if region_retried t then 0 else 1) + (if credentials_retried t then 0 else 1).

Lemma tries_left_nonneg o t : 0 <= tries_left o t.
Proof. unfold tries_left. destruct (region_retried t), (credentials_retried t); lia. Qed.

Section Facts.
Context `{RequestBuilding}.
Variable options : ClientOptions.

(** The bookkeeping of attempts. *)
Definition same_tries (t t' : Transfer) : Prop :=
  attempt t' = attempt t /\ region_retried t' = region_retried t /\
  credentials_retried t' = credentials_retried t /\
  unreachable_attempts t' = unreachable_attempts t.

Lemma same_tries_left t t' : same_tries t t' -> tries_left options t' = tries_left options t.
Proof. unfold tries_left. by intros (-> & -> & -> & _). Qed.

Lemma ensure_sink_tries heap t : same_tries t (ensure_sink heap t).1.2.
Proof.
  unfold ensure_sink. destruct (negb (sink t =? 0)); [done|].
  destruct (negb (scattered t)); [done|]. destruct (negb _); [done|].
  destruct (SIZE_MAX <? t_length t); [done|]. destruct heap as [|p heap]; [done|].
  by destruct (p =? 0).
Qed.

Lemma plan_resume_tries t : same_tries t (plan_resume t).
Proof.
  unfold plan_resume. destruct (negb _ && _); [done|]. destruct (_ || _); [done|].
  destruct (_ || _); [done|]. destruct (_ && _); [|done]. by destruct (str_eqb _ _).
Qed.

Lemma prepare_transfer_same env t :
  match prepare_transfer options env t with
  | inl out => same_job t (outcome_transfer out) /\ same_tries t (outcome_transfer out)
  | inr t' => same_job t t' /\ same_tries t t'
  end.
Proof.
  unfold prepare_transfer. set (t1 := t <| deadline := _ |>).
  destruct (expired _ (deadline t1)); [done|].
  pose proof (ensure_sink_same (alloc env) t1) as (Hs & _).
  pose proof (ensure_sink_tries (alloc env) t1) as Ht.
  destruct (ensure_sink (alloc env) t1) as [[ok t2] heap]. cbn [fst snd] in Hs, Ht.
  assert (H2 : same_job t t2 /\ same_tries t t2) by done. clearbody t1. clear Hs Ht.
  destruct ok; cbn [negb]; [|done].
  set (t3 := if str_eqb (region_hint t2) [] then _ else t2).
  assert (H3 : same_job t t3 /\ same_tries t t3) by (subst t3; by destruct (str_eqb _ _)).
  clearbody t3. destruct (_ && _); [done|].
  destruct (if has_cloud_provider _ then _ else _) as [r|e]; [|done].
  destruct (expired _ _); [done|]. by destruct (negb (str_eqb (routing_region r) [])).
Qed.

Lemma launch_transfer_same env t :
  same_job t (outcome_transfer (launch_transfer options env t)) /\
  same_tries t (outcome_transfer (launch_transfer options env t)).
Proof.
  unfold launch_transfer. destruct (_ && host_waiting env); [done|].
  destruct (_ && _ && _); [done|]. destruct (negb (easy_ok env)); [done|].
  destruct (configure_error env); [done|]. destruct (add_error env); [done|].
  by destruct (negb (inserted env)).
Qed.

Lemma start_transfer_same env t prepared :
  same_job t (outcome_transfer (start_transfer options env t prepared)) /\
  same_tries t (outcome_transfer (start_transfer options env t prepared)).
Proof.
  unfold start_transfer. destruct (thrown env) as [[]|]; [done..|].
  destruct prepared.
  - destruct (expired _ _); [done|]. apply launch_transfer_same.
  - pose proof (prepare_transfer_same env t) as Hp.
    destruct (prepare_transfer options env t) as [out|t']; [done|].
    destruct Hp as [Hj Ht]. pose proof (launch_transfer_same env t') as [Hj' Ht'].
    split; [by transitivity t'|]. unfold same_tries in *. intuition congruence.
Qed.

Lemma retry_or_fail_same env t b :
  let '(out, b') := retry_or_fail options env t b in
  same_job t (outcome_transfer out) /\
  match out with
  | Finish _ _ _ => True
  | ToRetries _ t' =>
      tries_left options t' < tries_left options t /\ attempt t' < max_attempts options /\
      unreachable_attempts t' < kUnreachableAttempts
  | _ => False
  end.
Proof.
  unfold retry_or_fail.
  set (t1 := if unreachable (result env) then _ else t).
  assert (H1 : same_job t t1 /\ attempt t1 = attempt t /\ region_retried t1 = region_retried t /\
               credentials_retried t1 = credentials_retried t)
    by (subst t1; by destruct (unreachable _)).
  clearbody t1. destruct H1 as (Hj1 & Ha & Hrr & Hcr).
  destruct (_ && _ && _) eqn:E; [|done].
  apply andb_true_iff in E as [[E1%Z.ltb_lt E2%Z.ltb_lt]%andb_true_iff _].
  set (t2 := t1 <| attempt := attempt t1 + 1 |>).
  pose proof (plan_resume_same t2) as Hj. pose proof (plan_resume_tries t2) as (T1 & T2 & T3 & T4).
  set (t3 := plan_resume t2) in *. clearbody t3.
  assert (Hj3 : same_job t (recycle_handle t3)) by (transitivity t1; [done|by transitivity t2]).
  destruct (negb _); [done|]. cbn [outcome_transfer]. split; [done|].
  change (attempt t2) with (attempt t1 + 1) in T1. unfold tries_left. cbn.
  change (region_retried t2) with (region_retried t1) in T2.
  change (credentials_retried t2) with (credentials_retried t1) in T3.
  change (unreachable_attempts t2) with (unreachable_attempts t1) in T4.
  rewrite T1, T2, T3, T4, Ha, Hrr, Hcr in *. lia.
Qed.

Lemma on_done_same env t b :
  let '(out, b', invalidate) := on_done options env t b in
  same_job t (outcome_transfer out) /\
  match out with
  | Finish _ _ _ => True
  | ToPendingFront t' | ToCredentialsFront t' => tries_left options t' < tries_left options t
  | ToRetries _ t' =>
      tries_left options t' < tries_left options t /\ attempt t' < max_attempts options /\
      unreachable_attempts t' < kUnreachableAttempts
  | _ => False
  end.
Proof.
  unfold on_done. set (t1 := if http_status t =? 0 then _ else t).
  assert (H1 : same_job t t1 /\ same_tries t t1) by (subst t1; by destruct (_ =? 0)).
  clearbody t1. destruct H1 as [Hj1 Ht1].
  destruct (succeeded t1 _); [done|]. destruct (expired _ _); [done|].
  set (t2 := if _ && _ then _ else t1).
  assert (H2 : same_job t t2 /\ same_tries t t2) by (subst t2; by destruct (_ && _)).
  clearbody t2. destruct H2 as [Hj2 Ht2].
  pose proof (same_tries_left _ _ Ht2) as Hleft.
  destruct (negb (region_retried t2) && _ && _ && _) eqn:E1.
  { apply andb_true_iff in E1 as [[[E%negb_true_iff _]%andb_true_iff _]%andb_true_iff _].
    cbn [outcome_transfer]. split; [by transitivity t2|]. rewrite <-Hleft. unfold tries_left. cbn.
    rewrite E. destruct (credentials_retried t2); lia. }
  destruct (negb (credentials_retried t2) && _) eqn:E2.
  { apply andb_true_iff in E2 as [E%negb_true_iff _].
    cbn [outcome_transfer]. split; [by transitivity t2|]. rewrite <-Hleft. unfold tries_left. cbn.
    rewrite E. destruct (region_retried t2); lia. }
  match goal with |- context [retry_or_fail options env t2 ?b] =>
    pose proof (retry_or_fail_same env t2 b) as Hr; destruct (retry_or_fail options env t2 b) as [out b'']
  end.
  destruct Hr as [Hj Hm]. split; [by transitivity t2|]. destruct out; try done. by rewrite <-Hleft.
Qed.

Lemma credential_work_same env t :
  same_job t (outcome_transfer (credential_work options env t)) /\
  same_tries t (outcome_transfer (credential_work options env t)).
Proof.
  unfold credential_work. destruct (cancelled_before env); [done|].
  destruct (cred_thrown env) as [[]|]; [done..|]. destruct (rb_resolve_credentials _); [|done].
  destruct (cancelled_after env); [done|]. by destruct (expired _ _).
Qed.
End Facts.

(** ** Callbacks keep the job and the bookkeeping *)

Definition same_both (t t' : Transfer) : Prop := same_job t t' /\ same_tries t t'.

Lemma store_payload_same t m data : same_both t (store_payload t m data).1.
Proof. unfold store_payload. by destruct (negb _). Qed.

Lemma begin_body_same t code clen : same_both t (begin_body t code clen).2.
Proof.
  unfold begin_body. set (t1 := t <| checked_status := true |> <| http_status := code |>).
  assert (H1 : same_both t t1) by done. clearbody t1.
  destruct (_ && transformed _); [done|]. destruct (_ && contradicts_pin _); [done|].
  destruct (_ && negb (valid_content_range _)); [done|].
  set (t2 := if _ && _ then _ else t1).
  assert (H2 : same_both t t2) by (subst t2; by destruct (_ && _)). clearbody t2.
  destruct (_ && _ && _); [done|].
  set (t3 := if _ && _ then _ else t2).
  assert (H3 : same_both t t3) by (subst t3; by destruct (_ && _)). done.
Qed.

Lemma write_payload_same t m data n : same_both t (write_payload t m data n).1.2.
Proof.
  unfold write_payload. set (t1 := t <| skip := _ |>).
  assert (H1 : same_both t t1) by done. clearbody t1.
  destruct (_ =? 0); [done|].
  set (s := if _ <? _ then store_payload _ _ _ else _).
  assert (H2 : same_both t s.1).
  { subst s. destruct (_ <? _); [|done].
    match goal with |- context [store_payload ?a ?b ?c] => pose proof (store_payload_same a b c) end.
    unfold same_both, same_job, same_tries in *. intuition congruence. }
  destruct s as [t2 m2]. cbn [fst] in H2. destruct (_ =? _); [|done]. by destruct (drains _ _).
Qed.

Lemma write_callback_same t m data size count code clen :
  same_both t (w_transfer (write_callback t m data size count code clen)).
Proof.
  unfold write_callback. destruct (callback_size size count); [|done].
  destruct (satisfied t); [done|].
  set (s := if negb _ then begin_body _ _ _ else _).
  assert (H1 : same_both t s.2) by (subst s; destruct (negb _); [apply begin_body_same|done]).
  destruct s as [go t1]. cbn [snd] in H1. destruct (negb go); [done|].
  destruct (_ && _); [done|]. destruct (300 <=? _); [by destruct (_ <? _)|].
  pose proof (write_payload_same t1 m data z) as H2.
  destruct (write_payload t1 m data z) as [[r t2] m2]. cbn [fst snd] in H2 |- *.
  unfold same_both, same_job, same_tries in *. cbn. intuition congruence.
Qed.

Lemma header_callback_same f g h t line size count now :
  same_both t (header_callback f g h t line size count now).2.
Proof.
  unfold header_callback. destruct (callback_size size count); [|done].
  destruct (starts_with _ _); [done|]. destruct (_ && _); [done|].
  destruct (header_name_is _ _); [by destruct (parse_content_range _ _) as [[] r]|].
  do 2 (destruct (header_name_is _ _); [done|]).
  destruct (header_name_is _ _); [by destruct (_ && _)|]. done.
Qed.

Section Properties.
Context `{RequestBuilding}.
Variable options : ClientOptions.

(** ** The life of a transfer between two messages *)

Inductive between (t : Transfer) : Transfer -> Prop :=
| between_none : between t t
| between_started env t' prepared u :
    between t t' ->
    start_transfer options env t' prepared = ToResolving u \/
    start_transfer options env t' prepared = ToActive u -> between t u
| between_credentials env t' u :
    between t t' -> credential_work options env t' = ToHttpQueue u -> between t u
| between_header f g h t' line size count now :
    between t t' -> between t (header_callback f g h t' line size count now).2
| between_body t' m data size count code clen :
    between t t' -> between t (w_transfer (write_callback t' m data size count code clen)).

(** [t'] is [t] after [n] messages, each of which gave it another attempt. *)
Inductive attempts (t : Transfer) : nat -> Transfer -> Prop :=
| attempts_none : attempts t 0 t
| attempts_more n t1 t2 env b out b' invalidate :
    attempts t n t1 -> between t1 t2 -> on_done options env t2 b = (out, b', invalidate) ->
    (match out with Finish _ _ _ => False | _ => True end) ->
    attempts t (S n) (outcome_transfer out).

Lemma between_tries t t' : between t t' -> same_tries t t'.
Proof.
  assert (Htrans : forall a b c, same_tries a b -> same_tries b c -> same_tries a c)
    by (unfold same_tries; intuition congruence).
  induction 1 as [|env t' p u _ IH Hs|env t' u _ IH Hs|f g h t' line size count now _ IH|
                  t' m data size count code clen _ IH]; [done|apply (Htrans _ t'); [done|]..].
  - pose proof (start_transfer_same options env t' p) as [_ Ht].
    destruct Hs as [Hs|Hs]; by rewrite Hs in Ht.
  - pose proof (credential_work_same options env t') as [_ Ht]. by rewrite Hs in Ht.
  - apply header_callback_same.
  - apply write_callback_same.
Qed.

(** C12: retrying terminates.  Whatever the server, the network and the clock
    answer, a transfer gets at most one attempt more than the measure allows:
    every message either finishes it or uses up one of the ordinary retries,
    the one region correction or the one credential refresh, so a fresh
    transfer sees at most [max_attempts + 2] messages. *)
Theorem attempts_are_bounded t n t' :
  attempts t n t' -> Z.of_nat n + tries_left options t' <= tries_left options t.
Proof.
  induction 1 as [|n t1 t2 env b out b' invalidate _ IH Hb Hd Hout]; [lia|].
  pose proof (on_done_same options env t2 b) as Hs. rewrite Hd in Hs. destruct Hs as [_ Hs].
  pose proof (same_tries_left options t1 t2 (between_tries _ _ Hb)).
  destruct out; try done; cbn [outcome_transfer]; lia.
Qed.

(** What the request of an attempt must ask for. *)
Definition asks_range (r : PreparedRequest) (first length : Z) : Prop :=
  req_range r = concat [Text $"bytes="; Integer first; Text $"-"; Integer (wrap64 (first + length - 1))].

(** The promise of the request builder the engine relies on. *)
Class RequestLaws : Prop := {
  rb_prepare_range l first length hint pin r :
    rb_prepare l first length hint pin = Ok r -> asks_range r first length;
  rb_materialize_range l c first length hint pin r :
    rb_materialize l c first length hint pin = Ok r -> asks_range r first length;
}.

Lemma launch_active env t u :
  launch_transfer options env t = ToActive u ->
  u = configure_transfer options (t <| easy := true |> <| http_buffers := Some HttpBuffers_default |>).
Proof.
  unfold launch_transfer. destruct (_ && host_waiting env); [done|].
  destruct (_ && _ && _); [done|]. destruct (negb (easy_ok env)); [done|].
  destruct (configure_error env); [done|]. destruct (add_error env); [done|].
  destruct (negb (inserted env)); [done|]. by intros [= <-].
Qed.

Lemma launch_resolving env t u : launch_transfer options env t = ToResolving u -> u = t.
Proof.
  unfold launch_transfer. destruct (_ && host_waiting env); [by intros [= <-]|].
  destruct (_ && _ && _); [done|]. destruct (negb (easy_ok env)); [done|].
  destruct (configure_error env); [done|]. destruct (add_error env); [done|]. by destruct (negb (inserted env)).
Qed.

(** The sink a transfer needs, in place or to be set by [ensure_sink]. *)
Definition sink_ok (t : Transfer) : Prop :=
  backend (t_locator t) <> File /\ (scattered t = true -> sink t = 0) /\
  (scattered t = false ->
   exists p, parts t = [p] /\ p_buffer p <> 0 /\ (sink t = 0 \/ sink t = p_buffer p)).

Lemma ensure_sink_ready heap t :
  well_shaped t -> StronglySorted apart (parts t) -> sink_ok t ->
  let '(ok, t', _) := ensure_sink heap t in ok = true /\ ready t' /\ sink_ok t'.
Proof.
  intros Hs Ha (Hb & Hsc & Hp). unfold ensure_sink.
  destruct (scattered t) eqn:E.
  - rewrite (Hsc eq_refl). cbn [Z.eqb negb]. rewrite bool_decide_false by done. cbn [negb].
    split_and!; [done|constructor; [done|done|by rewrite E]|].
    split_and!; [done|intros _; by apply Hsc|by rewrite E].
  - destruct (Hp eq_refl) as (p & Hparts & Hnz & Hsink). rewrite Hparts.
    destruct (Z.eqb_spec (sink t) 0) as [E0|E0]; cbn [negb].
    + split_and!; [done|constructor; [done|done|]; intros _; by exists p|].
      split_and!; [done|by cbn; rewrite E|]. intros _. exists p. by auto.
    + destruct Hsink as [|Hsink]; [done|].
      split_and!; [done|constructor; [done|done|]; intros _; by exists p|].
      split_and!; [done|by rewrite E|]. intros _. exists p. by auto.
Qed.

(** A transfer that [prepare_transfer] lets go on: the same job, ready for its
    body, with the range of what is missing. *)
Record asks_the_rest (t t' : Transfer) : Prop := {
  ar_job : same_job t t';
  ar_ready : ready t';
  ar_resumed : resumed t' = resumed t;
  ar_range : request_range t' = concat [Text $"bytes="; Integer (t_offset t + resumed t); Text $"-";
                                        Integer (t_offset t + t_length t - 1)];
}.

Lemma prepare_is_not_active env t u : prepare_transfer options env t <> inl (ToActive u).
Proof.
  unfold prepare_transfer. destruct (expired _ _); [done|].
  destruct (ensure_sink _ _) as [[[] ?] ?]; cbn [negb]; [|done].
  destruct (_ && _); [done|]. destruct (if has_cloud_provider _ then _ else _); [|done].
  by destruct (expired _ _).
Qed.
Lemma prepare_not_resolving env t u : prepare_transfer options env t <> inl (ToResolving u).
Proof.
  unfold prepare_transfer. destruct (expired _ _); [done|].
  destruct (ensure_sink _ _) as [[[] ?] ?]; cbn [negb]; [|done].
  destruct (_ && _); [done|]. destruct (if has_cloud_provider _ then _ else _); [|done].
  by destruct (expired _ _).
Qed.

(** The range of a request for the bytes that are missing. *)
Lemma rest_range `{!RequestLaws} t t' r :
  well_shaped t -> same_job t t' -> resumed t' = resumed t -> 0 <= resumed t -> resumed t < t_length t ->
  asks_range r (wrap64 (t_offset t' + resumed t')) (wrap64 (t_length t' - resumed t')) ->
  req_range r = concat [Text $"bytes="; Integer (t_offset t + resumed t); Text $"-";
                        Integer (t_offset t + t_length t - 1)].
Proof.
  intros (_ & _ & _ & _ & Ho & Hl & Hmax & _) (_ & _ & _ & _ & J5 & J6 & _) Hr Hnonneg Hlt.
  unfold asks_range. rewrite J5, J6, Hr.
  rewrite (wrap64_small (t_offset t + resumed t)), (wrap64_small (t_length t - resumed t)) by (unfold is_u64; lia).
  replace (t_offset t + resumed t + (t_length t - resumed t) - 1) with (t_offset t + t_length t - 1) by lia.
  by rewrite wrap64_small by (unfold is_u64; lia).
Qed.

Lemma prepare_transfer_asks `{!RequestLaws} env t t' :
  well_shaped t -> StronglySorted apart (parts t) -> sink_ok t ->
  0 <= resumed t <= received t -> resumed t < t_length t ->
  prepare_transfer options env t = inr t' -> asks_the_rest t t'.
Proof.
  intros Hs Ha Hsink Hres Hlt. unfold prepare_transfer. set (t1 := t <| deadline := _ |>).
  destruct (expired _ (deadline t1)); [done|].
  pose proof (ensure_sink_same (alloc env) t1) as (Hj & Hr & _).
  pose proof (ensure_sink_ready (alloc env) t1 Hs Ha Hsink) as Hok.
  destruct (ensure_sink (alloc env) t1) as [[ok t2] heap]. cbn [fst snd] in Hj, Hr.
  destruct Hok as (-> & Hready & _). cbn [negb].
  change (resumed t1) with (resumed t) in Hr.
  assert (Hj2 : same_job t t2) by done. clear Hj. clearbody t1.
  set (t3 := if str_eqb (region_hint t2) [] then _ else t2).
  assert (H3 : same_job t t3 /\ ready t3 /\ resumed t3 = resumed t).
  { subst t3. destruct (str_eqb _ _); [|done]. split_and!; try done. by apply (keeps_parts_ready t2). }
  clearbody t3. destruct H3 as (Hj3 & Hready3 & Hr3).
  destruct (has_cloud_provider _ && _); [done|].
  destruct (if has_cloud_provider _ then _ else _) as [r|e] eqn:Er; [|done].
  destruct (expired _ _); [done|]. intros [= <-].
  assert (Hrange := rest_range t t3 r Hs Hj3 Hr3 (proj1 Hres) Hlt
    ltac:(destruct (has_cloud_provider _); [by eapply rb_materialize_range|by eapply rb_prepare_range])).
  destruct (negb _); (constructor; [done|by apply (keeps_parts_ready t3)|done|exact Hrange]).
Qed.

(** An attempt, from [pending] to the multi handle: the transfer is prepared
    once; while its host is looked up it waits in [resolving], from where each
    later turn of [io_loop] starts it again as prepared.  [env] is the first
    turn's, [envs] the later ones'. *)
Fixpoint start_attempt (env : StartEnv) (envs : list StartEnv) (t : Transfer) (prepared : bool) : outcome :=
  match start_transfer options env t prepared, envs with
  | ToResolving u, env :: envs => start_attempt env envs u true
  | out, _ => out
  end.

Lemma start_prepared_kept env t :
  match start_transfer options env t true with
  | ToResolving u => u = t
  | ToActive u => launch_transfer options env t = ToActive u
  | _ => True
  end.
Proof.
  unfold start_transfer. destruct (thrown env) as [[]|]; try done. destruct (expired _ _); [done|].
  destruct (launch_transfer options env t) eqn:E; try done. by eapply launch_resolving.
Qed.

Lemma start_attempt_prepared envs : forall env t u,
  start_attempt env envs t true = ToActive u -> exists env', launch_transfer options env' t = ToActive u.
Proof.
  induction envs as [|env' envs IH]; intros env t u; cbn [start_attempt]; pose proof (start_prepared_kept env t) as Hkept;
    destruct (start_transfer options env t true) eqn:E; try done; subst; intros Hu; try by (injection Hu as <-; eauto).
  by eapply IH.
Qed.

(** C19: every attempt of an HTTP transfer, whether it gets to the multi handle
    at once or after any number of turns in which it waits in [resolving] for
    its host, starts in the state the body callbacks rely on and asks for
    exactly the missing bytes: its Range header names the bytes from the first
    one not kept to the last one of the transfer, and what was received and
    kept before is still in place. *)
Theorem attempt_asks_for_the_rest `{!RequestLaws} env envs t u obj m :
  well_shaped t -> StronglySorted apart (parts t) -> sink_ok t ->
  0 <= resumed t <= received t -> resumed t < t_length t -> delivered obj t m ->
  start_attempt env envs t false = ToActive u ->
  attempt_begins obj u m /\ same_job t u /\ resumed u = resumed t /\
  request_range u = concat [Text $"bytes="; Integer (t_offset t + resumed t); Text $"-";
                            Integer (t_offset t + t_length t - 1)].
Proof.
  intros Hs Ha Hsink Hres Hlt Hd Hu.
  assert (Hprep : exists t' env', prepare_transfer options env t = inr t' /\ launch_transfer options env' t' = ToActive u).
  { destruct envs as [|env' envs]; cbn [start_attempt] in Hu; unfold start_transfer in Hu;
      destruct (thrown env) as [[]|]; try done;
      destruct (prepare_transfer options env t) as [out|t'] eqn:Ep;
      try (exfalso; destruct out; try done; (by apply prepare_not_resolving in Ep) || (by apply prepare_is_not_active in Ep)).
    - exists t', env. split; [done|]. by destruct (launch_transfer options env t').
    - destruct (launch_transfer options env t') eqn:El; try done; [|injection Hu as ->; by eauto].
      apply launch_resolving in El as ->. apply start_attempt_prepared in Hu as [env'' Hu]. by eauto. }
  destruct Hprep as (t' & env' & Ep & ->%launch_active).
  apply prepare_transfer_asks in Ep as [Hj Hready Hr Hrange]; [|done..].
  pose proof Hj as (K1 & K2 & K3 & K4 & K5 & K6 & K7). pose proof Hs as (_ & _ & _ & _ & Ho & Hl & Hmax & _).
  split_and!; try done. constructor; try done.
  - constructor; [by apply (keeps_parts_ready t')|constructor|cbn; lia..].
  - intros p i Hp Hi Hx. cbn in Hp, Hx |- *. rewrite K4 in Hp. rewrite Hr in Hx. rewrite K5.
    apply Hd; [done|done|lia].
Qed.
End Properties.

(** ** Local files *)

(** A file of [size] bytes, as [pread] shows it: a read returns bytes of the
    file, at most as many as asked for, and none only at or after its end. *)
Definition reads_file (read_at : Z -> Z -> expected str str) (file : object_bytes) (size : Z) : Prop :=
  forall n off, 0 < n -> 0 <= off ->
    match read_at n off with
    | Ok bytes => Z.of_nat (length bytes) <= n /\ body_at file off bytes /\
                  (bytes = [] <-> size <= off) /\ (bytes <> [] -> off + Z.of_nat (length bytes) <= size)
    | Err _ => False
    end.

Lemma read_loop_spec read_at file size fuel : forall t m,
  reads_file read_at file size -> t_length t - received t <= Z.of_nat fuel -> 0 <= t_offset t ->
  0 <= received t <= t_length t -> t_offset t + received t <= Z.max (t_offset t) size ->
  (forall x, 0 <= x < received t -> m (sink t + x) = file (t_offset t + x)) ->
  exists t' m', read_loop read_at fuel (fun _ => false) t m = (t', m', None) /\
    t' = t <| received := received t' |> /\
    received t' = Z.min (t_length t) (Z.max 0 (size - t_offset t)) /\
    (forall x, 0 <= x < received t' -> m' (sink t + x) = file (t_offset t + x)) /\
    (forall a, a < sink t \/ sink t + t_length t <= a -> m' a = m a).
Proof.
  induction fuel as [|fuel IH]; intros t m Hf Hfuel Ho Hr Hsz Hm; cbn [read_loop].
  - exists t, m. split_and!; try done; [by destruct t|lia].
  - destruct (Z.ltb_spec (received t) (t_length t)) as [Hlt|Hge]; cbn [andb negb].
    2: { exists t, m. split_and!; try done; [by destruct t|lia]. }
    pose proof (Hf (t_length t - received t) (t_offset t + received t) ltac:(lia) ltac:(lia)) as H.
    destruct (read_at _ _) as [bytes|e]; [|done]. destruct H as (Hle & Hbody & Hnil & Hin).
    destruct (Z.eqb_spec (Z.of_nat (length bytes)) 0) as [E|E].
    { exists t, m. split_and!; try done; [by destruct t|].
      assert (size <= t_offset t + received t) by (apply Hnil; by destruct bytes). lia. }
    assert (bytes <> []) as Hne by (by intros ->). specialize (Hin Hne).
    set (t1 := t <| received := received t + Z.of_nat (length bytes) |>).
    destruct (IH t1 (memcpy m (sink t + received t) bytes) Hf) as (t' & m' & Hl & Ht & Hrec & Hm' & Hout);
      try (cbn; lia).
    { intros x Hx. cbn in Hx |- *. destruct (Z.lt_ge_cases x (received t)).
      - rewrite memcpy_out by lia. apply Hm. lia.
      - replace (sink t + x) with (sink t + received t + (x - received t)) by lia.
        rewrite memcpy_in by lia. rewrite Hbody by lia. f_equal. lia. }
    exists t', m'. rewrite Hl. split_and!; try done.
    intros a Ha. rewrite Hout by done. apply memcpy_out. lia.
Qed.

(** C20: a local read ends and delivers what the file holds: the worker reads
    until the transfer is complete or the file ends, in one pass whatever the
    sizes of the single reads, straight into the only buffer or into a staging
    area, and touches no other memory; the received count is exactly the part
    of the range that exists. *)
Theorem file_read_delivers read_at file size env t m b :
  reads_file read_at file size -> well_shaped t -> StronglySorted apart (parts t) ->
  backend (t_locator t) = File -> sink t = 0 -> scratch t = None -> received t = 0 ->
  file_cancelled env = false -> open_error env = None ->
  file_cancelled_at env = (fun _ => false) -> file_cancelled_end env = false ->
  (scattered t = false -> Forall (fun p => p_buffer p <> 0) (parts t)) ->
  (scattered t = true -> exists s heap, file_alloc env = s :: heap /\ s <> 0 /\
     Forall (fun p => p_buffer p + p_length p <= s \/ s + t_length t <= p_buffer p) (parts t)) ->
  exists t' m' b', file_work read_at env t m b = (Finish t' KARU_OK [], m', b') /\
    same_job t t' /\ staged file t' m' /\
    received t' = Z.min (t_length t) (Z.max 0 (size - t_offset t)) /\
    (forall a, a < sink t' \/ sink t' + t_length t <= a -> m' a = m a).
Proof.
  intros Hf Hs Ha Hb Hsink Hscr Hrec Hc Hopen Hat Hend Hbuf Halloc.
  pose proof Hs as (_ & _ & Hin & _ & Ho & Hl & Hmax & Hone).
  unfold file_work. rewrite Hc. unfold ensure_sink. rewrite Hsink. cbn [Z.eqb negb].
  destruct (scattered t) eqn:Esc; cbn [negb].
  - destruct (Halloc eq_refl) as (s & heap & -> & Hs0 & Hsep). rewrite bool_decide_true by done.
    cbn [negb]. rewrite (proj2 (Z.ltb_ge _ _)) by lia. rewrite (proj2 (Z.eqb_neq _ _)) by done.
    cbn [negb]. rewrite Hopen, Hat, Hend.
    set (t1 := t <| scratch := Some s |> <| sink := s |>).
    destruct (read_loop_spec read_at file size (Z.to_nat (t_length t1)) t1 m Hf)
      as (t' & m' & -> & Ht & Hr' & Hm' & Hout); try (cbn; rewrite ?Hrec; lia).
    eexists t', m', _. split; [done|]. rewrite Ht. split_and!; try done.
  - assert (exists p, parts t = [p]) as (p & Hp).
    { pose proof (proj1 Hone eq_refl) as H1. destruct (parts t) as [|p [|]]; try done. by exists p. }
    destruct (single_part t p Hs Hp) as [H0 Hlen]. rewrite Hp, Hopen, Hat, Hend. cbn [negb].
    set (t1 := t <| sink := p_buffer p |>).
    destruct (read_loop_spec read_at file size (Z.to_nat (t_length t1)) t1 m Hf)
      as (t' & m' & -> & Ht & Hr' & Hm' & Hout); try (cbn; rewrite ?Hrec; lia).
    eexists t', m', _. split; [done|]. rewrite Ht. split_and!; try done.
    unfold staged. cbn. rewrite Hscr. intros q i Hq Hi Hx. cbn in Hq, Hx |- *. rewrite Hp in Hq.
    apply list_elem_of_singleton in Hq as ->. rewrite H0, Z.add_0_r in *.
    apply (Hm' i). lia.
Qed.

Lemma file_read_delivers_witness :
  let t := example_transfer <| t_locator := Resolved_default |> <| sink := 0 |> in
  let env := {| file_cancelled := false; file_alloc := []; open_error := None;
                file_cancelled_at := fun _ => false; file_cancelled_end := false |} in
  exists t' m' b',
    file_work (fun n off => Ok (slice $"abcdefghijk" off n)) env t no_memory karu_batch_default
      = (Finish t' KARU_OK [], m', b') /\
    same_job t t' /\ staged (fun i => nth (Z.to_nat i) $"abcdefghijk" "000"%char) t' m' /\
    received t' = 1 /\ (forall a, a < sink t' \/ sink t' + t_length t <= a -> m' a = no_memory a).
Proof.
  apply (file_read_delivers (fun n off => Ok (slice $"abcdefghijk" off n))
           (fun i => nth (Z.to_nat i) $"abcdefghijk" "000"%char) 11); try done.
  - intros n off Hn Hoff. set (file := $"abcdefghijk"). unfold slice.
    assert (Hlen : Z.of_nat (length (take (Z.to_nat n) (drop (Z.to_nat off) file)))
                   = Z.min n (Z.max 0 (11 - off))).
    { rewrite length_take, length_drop. change (length file) with 11%nat. lia. }
    split_and!; [lia| | |].
    + intros i Hi. apply (slice_nth file off n i); lia.
    + split; [intros E; rewrite E in Hlen; cbn in Hlen; lia|].
      intros Hge. apply length_zero_iff_nil. lia.
    + intros Hne. destruct (Z.lt_ge_cases off 11); [lia|].
      contradict Hne. apply length_zero_iff_nil. lia.
  - split_and!; cbn; try done; [repeat constructor|by eexists _, _| |].
    + rewrite Forall_singleton. cbn. unfold part_end. cbn. lia.
    + eexists. split; [apply list_elem_of_here|done].
  - repeat constructor.
  - intros _. by apply Forall_singleton.
Defined.

(** ** Witnesses *)

(** A builder that only writes the Range header. *)
#[local] Instance example_builder : RequestBuilding := {|
  rb_prepare l first length hint pin :=
    Ok {| req_url := $"http://h/o"; req_headers := [];
          req_range := concat [Text $"bytes="; Integer first; Text $"-";
                               Integer (wrap64 (first + length - 1))];
          req_http := HttpRequestOptions_default; routing_region := [] |};
  rb_materialize l c first length hint pin :=
    Err {| err_status := KARU_ERR_UNSUPPORTED; err_message := [] |};
  rb_resolve_credentials l := Ok None;
|}.

#[local] Instance example_laws : RequestLaws.
Proof. by split; intros * [= <-]. Qed.

Definition example_start_env : StartEnv :=
  {| now_started := 0; now_prepared := 0; alloc := []; batch_hint := []; host_waiting := false;
     host_resolve := []; slist_ok := true; easy_ok := true; configure_error := None;
     add_error := None; inserted := true; thrown := None |}.

Definition example_done_env (code : CURLcode) : DoneEnv :=
  {| result := code; response_code := 0; connects := 1; now_done := 0; now_retry := 0;
     jitter := fun n => n; error_text := fun _ => $"error" |}.

(** The host is looked up for two turns. *)
Definition waiting_env : StartEnv :=
  {| now_started := 0; now_prepared := 0; alloc := []; batch_hint := []; host_waiting := true;
     host_resolve := []; slist_ok := true; easy_ok := true; configure_error := None;
     add_error := None; inserted := true; thrown := None |}.

Lemma attempt_asks_for_the_rest_witness :
  exists u, start_attempt ClientOptions_default waiting_env [waiting_env; example_start_env] example_transfer false
      = ToActive u /\ request_range u = $"bytes=10-11".
Proof.
  eexists. split; [vm_compute; reflexivity|].
  assert (Hs : sink_ok example_transfer).
  { split_and!; [done|done|]. intros _. exists example_part. split_and!; [done|done|by right]. }
  eapply (attempt_asks_for_the_rest ClientOptions_default waiting_env [waiting_env; example_start_env]
    example_transfer _ example_object no_memory).
  - apply example_shape.
  - repeat constructor.
  - exact Hs.
  - cbn. lia.
  - cbn. lia.
  - apply delivered_nothing; [apply example_shape|done].
  - vm_compute. reflexivity.
Defined.

Lemma attempts_are_bounded_witness :
  exists t', attempts ClientOptions_default example_transfer 1 t' /\
    1 + tries_left ClientOptions_default t' <= 9.
Proof.
  eexists. split.
  - eapply (attempts_more ClientOptions_default example_transfer 0 example_transfer example_transfer
              (example_done_env CURLE_COULDNT_CONNECT) karu_batch_default).
    + constructor.
    + constructor.
    + vm_compute. reflexivity.
    + exact I.
  - apply (attempts_are_bounded ClientOptions_default example_transfer 1).
    eapply (attempts_more ClientOptions_default example_transfer 0 example_transfer example_transfer
              (example_done_env CURLE_COULDNT_CONNECT) karu_batch_default).
    + constructor.
    + constructor.
    + vm_compute. reflexivity.
    + exact I.
Defined.
