(* ===== verification/Reads.v ===== *)
(** * Reads: the engine's synchronous reads

    Models size_of, object_info, read_ends, the pool of handles and get_range
    of [src/src/runtime/engine.cpp], with the helpers visible_size to
    add_range_stats at its top.  A ranged read of [Probe.get_range] is used
    through the class [RangeReader]; the local file system through the
    variables of section [LocalFile].  A span is its address and its length;
    the message a failure sets is part of the result.  The theorems show that
    [read_ends] returns the first and the last visible bytes of one version of
    the object, whichever requests it takes. *)

From S2P Require Import Prelude Text Uri Types Planner Response Transport CurlSetup Probe ProbeSpec Batch Engine.

(** ** Small helpers *)

Definition visible_size (r : Resolved) (total : Z) : Z :=
  if negb (window_length r =? TO_END) then window_length r
  else if window_offset r <? total then total - window_offset r else 0.

Definition at_most (length limit : Z) : Z := Z.min length limit.

(** What a call reports: the status, and the text it passes to [set_error]. *)
Definition answer := expected Failure.

Definition failure_of {A} (status : karu_status) (text : str) : answer A :=
  Err {| f_status := status; f_detail := text |}.

Definition short_read {A} (r : Resolved) (first length got : Z) : answer A :=
  failure_of KARU_ERR_RANGE
    (concat [Text (shown_uri r); Text $": object ended at byte "; Integer (wrap64 (first + got));
             Text $" while reading ["; Integer first; Text $", +"; Integer length; Text $")"]).

Record span := mkSpan { sp_data : Z; sp_size : Z }.
Definition sub_first (s : span) (n : Z) : span := mkSpan (sp_data s) n.
Definition no_span : span := mkSpan 0 0.

Definition same_version (left right : RangeReply) : bool :=
  (total left =? total right)
  && (str_eqb (etag left) [] || str_eqb (etag right) [] || str_eqb (etag left) (etag right)).

Definition add_range_stats (destination source : RangeStats) : RangeStats :=
  {| received_bytes := received_bytes destination + received_bytes source;
     retries := retries destination + retries source;
     throttled := throttled destination + throttled source;
     new_connections := new_connections destination + new_connections source;
     st_resumed := st_resumed destination + st_resumed source;
     credential_refreshes := credential_refreshes destination + credential_refreshes source |}.

(** ** Local files *)

Section LocalFile.
(** [std::filesystem::file_size] and [os::File::open] of the target, and
    [os::File::read_at(size, offset)] of the open file. *)
Variable file_size : expected str Z.
Variable open_error : option str.
Variable read_at : Z -> Z -> expected str str.

(** Each turn but the last reads a byte, so the length is enough fuel. *)
Fixpoint read_file_loop (fuel : nat) (r : Resolved) (first : Z) (destination : span) (done : Z)
    (m : memory) : answer unit * memory :=
  match fuel with
  | O => (Ok tt, m)
  | S fuel =>
      if done <? sp_size destination then
        match read_at (sp_size destination - done) (wrap64 (first + done)) with
        | Err text => (failure_of KARU_ERR_IO (concat [Text (target r); Text $": "; Text text]), m)
        | Ok bytes =>
            let n := Z.of_nat (length bytes) in
            if n =? 0 then (short_read r first (sp_size destination) done, m)
            else read_file_loop fuel r first destination (done + n)
                   (memcpy m (sp_data destination + done) bytes)
        end
      else (Ok tt, m)
  end.
Definition read_file (r : Resolved) (first : Z) (destination : span) (m : memory)
    : answer unit * memory :=
  read_file_loop (S (Z.to_nat (sp_size destination))) r first destination 0 m.

Definition read_file_ends (r : Resolved) (head tail : span) (m : memory) : answer Z * memory :=
  let io_error text := failure_of KARU_ERR_IO (concat [Text (target r); Text $": "; Text text]) in
  match file_size with
  | Err text => (io_error text, m)
  | Ok total =>
      match open_error with
      | Some text => (io_error text, m)
      | None =>
          let visible := visible_size r total in
          let tail_length := at_most (sp_size tail) visible in
          match read_file r (window_offset r) (sub_first head (at_most (sp_size head) visible)) m with
          | (Err e, m) => (Err e, m)
          | (Ok _, m) =>
              match read_file r (wrap64 (wrap64 (window_offset r + visible) - tail_length))
                      (sub_first tail tail_length) m with
              | (Err e, m) => (Err e, m)
              | (Ok _, m) => (Ok visible, m)
              end
          end
      end
  end.
End LocalFile.

(** ** The pool of handles *)

(** [take_size_handle]; [init] is whether [curl_easy_init] gives a handle. *)
Definition take_size_handle (init : bool) (pool : list easy_handle)
    : option easy_handle * list easy_handle :=
  match rev pool with
  | [] => (if init then Some [] else None, pool)
  | h :: rest => (Some h, rev rest)
  end.

(** [curl_easy_reset] forgets every setting. *)
Definition return_size_handle (options : ClientOptions) (pool : list easy_handle) : list easy_handle :=
  if Z.of_nat (length pool) <? concurrency options then pool ++ [[]] else pool.

(** ** Ranged reads of a remote object *)

(** [Engine::get_range] of one object: the world is the state of the pool, of
    the request builder and of the network. *)
Class RangeReader (W : Type) :=
  range_reader : ByteRange -> span -> str -> W -> memory -> answer RangeReply * W * memory.

(** [transport::object_info] through the same pool. *)
Section Remote.
Context {W : Type} `{RangeReader W}.
Variable r : Resolved.

Record Object := mkObject { o_size : Z; o_etag : str }.

(** [object_info] of a remote object: one byte into a local array. *)
Definition remote_info (scratch : Z) (w : W) (m : memory) : answer Object * W * memory :=
  match range_reader {| br_first := 0; br_length := 1; suffix := false |} (mkSpan scratch 1) [] w m with
  | (Err e, w, m) => (Err e, w, m)
  | (Ok reply, w, m) => (Ok (mkObject (visible_size r (total reply)) (etag reply)), w, m)
  end.

(** Which ranges [read_ends] asks for before it knows the size. *)
Record EndsPlan := { ep_head : span; ep_tail_range : ByteRange; ep_tail : span; ep_by_suffix : bool }.

Definition plan_ends (head tail : span) (scratch : Z) : EndsPlan :=
  let offset := window_offset r in
  let bounded := negb (window_length r =? TO_END) in
  let by_suffix := negb bounded && negb (sp_size tail =? 0) && negb (bool_decide (backend r = Azure)) in
  let head_part :=
    if bounded then sub_first head (at_most (sp_size head) (window_length r)) else head in
  let head_part :=
    if negb bounded && (sp_size head =? 0) && negb by_suffix then mkSpan scratch 1 else head_part in
  if bounded && (sp_size head_part <? window_length r) then
    let length := at_most (sp_size tail) (window_length r) in
    {| ep_head := head_part;
       ep_tail_range := {| br_first := wrap64 (wrap64 (offset + window_length r) - length);
                           br_length := length; suffix := false |};
       ep_tail := sub_first tail length; ep_by_suffix := by_suffix |}
  else
    {| ep_head := head_part;
       ep_tail_range := {| br_first := 0; br_length := sp_size tail; suffix := true |};
       ep_tail := if by_suffix then tail else no_span; ep_by_suffix := by_suffix |}.

(** The head and the tail are read by two threads when both are wanted;
    [head_first] says whose exchanges come first.  Each writes its own span. *)
Definition read_both (p : EndsPlan) (head_first : bool) (w : W) (m : memory)
    : answer RangeReply * answer RangeReply * W * memory :=
  let get_head w m :=
    if sp_size (ep_head p) =? 0 then (Ok RangeReply_default, w, m)
    else range_reader {| br_first := window_offset r; br_length := sp_size (ep_head p);
                         suffix := false |} (ep_head p) [] w m in
  let get_tail w m :=
    if sp_size (ep_tail p) =? 0 then (Ok RangeReply_default, w, m)
    else range_reader (ep_tail_range p) (ep_tail p) [] w m in
  if head_first then
    let '(head_reply, w, m) := get_head w m in
    let '(tail_reply, w, m) := get_tail w m in (head_reply, tail_reply, w, m)
  else
    let '(tail_reply, w, m) := get_tail w m in
    let '(head_reply, w, m) := get_head w m in (head_reply, tail_reply, w, m).

Definition changed {A} : answer A :=
  failure_of KARU_ERR_PRECONDITION
    (concat [Text (shown_uri r); Text $": the object changed between reading its head and its tail"]).

(** The tail, once the size is known. *)
Definition place_tail (p : EndsPlan) (head tail : span) (known tail_reply : RangeReply) (w : W) (m : memory)
    : answer str * W * memory :=
  let visible := visible_size r (total known) in
  let head_length := at_most (sp_size head) visible in
  let tail_length := at_most (sp_size tail) visible in
  let tag := if str_eqb (etag known) [] then etag tail_reply else etag known in
  let tail_sent := negb (sp_size (ep_tail p) =? 0) in
  if tail_length =? 0 then (Ok tag, w, m)
  else if tail_sent && negb (suffix_ignored tail_reply) then
    (Ok tag, w,
     if ep_by_suffix p
     then memcpy m (sp_data tail) (mem_read m (sp_data tail + (r_got tail_reply - tail_length)) tail_length)
     else m)
  else if visible <=? head_length then
    (Ok tag, w,
     memcpy m (sp_data tail) (mem_read m (sp_data head + (visible - tail_length)) tail_length))
  else
    match range_reader {| br_first := wrap64 (wrap64 (window_offset r + visible) - tail_length);
                          br_length := tail_length; suffix := false |}
            (sub_first tail tail_length) tag w m with
    | (Err e, w, m) => (Err e, w, m)
    | (Ok reply, w, m) =>
        if negb (same_version reply known) then (changed, w, m)
        else (Ok (if str_eqb tag [] then etag reply else tag), w, m)
    end.

(** [read_ends] of a remote object: its size, its tag and the counters. *)
Definition read_remote_ends (head tail : span) (scratch : Z) (head_first : bool) (st : RangeStats)
    (w : W) (m : memory) : answer (Object * RangeStats) * W * memory :=
  if (sp_size head =? 0) && (sp_size tail =? 0) then
    match remote_info scratch w m with
    | (Err e, w, m) => (Err e, w, m)
    | (Ok o, w, m) => (Ok (o, st), w, m)
    end
  else
    let bounded := negb (window_length r =? TO_END) in
    let p := plan_ends head tail scratch in
    let '(head_reply, tail_reply, w, m) := read_both p head_first w m in
    match head_reply, tail_reply with
    | Err e, _ => (Err e, w, m)
    | Ok _, Err e => (Err e, w, m)
    | Ok head_reply, Ok tail_reply =>
        let st := add_range_stats (add_range_stats st (stats head_reply)) (stats tail_reply) in
        let head_sent := negb (sp_size (ep_head p) =? 0) in
        let tail_sent := negb (sp_size (ep_tail p) =? 0) in
        if head_sent && tail_sent && negb (same_version head_reply tail_reply) then (changed, w, m)
        else if bounded && negb (r_got head_reply =? sp_size (ep_head p)) then
          (short_read r (window_offset r) (sp_size (ep_head p)) (r_got head_reply), w, m)
        else if bounded && negb (r_got tail_reply =? sp_size (ep_tail p)) then
          (short_read r (br_first (ep_tail_range p)) (sp_size (ep_tail p)) (r_got tail_reply), w, m)
        else
          let known := if head_sent then head_reply else tail_reply in
          match place_tail p head tail known tail_reply w m with
          | (Err e, w, m) => (Err e, w, m)
          | (Ok tag, w, m) => (Ok (mkObject (visible_size r (total known)) tag, st), w, m)
          end
    end.
End Remote.

(** ** The entry points *)

Section Entry.
Context {W : Type} `{RangeReader W}.
Variable file_size : expected str Z.
Variable open_error : option str.
Variable read_at : Z -> Z -> expected str str.
Variable r : Resolved.

Definition object_info (scratch : Z) (w : W) (m : memory) : answer Object * W * memory :=
  if bool_decide (backend r = File) then
    match file_size with
    | Err text => (failure_of KARU_ERR_IO (concat [Text (target r); Text $": "; Text text]), w, m)
    | Ok total => (Ok (mkObject (visible_size r total) []), w, m)
    end
  else remote_info r scratch w m.

Definition size_of (scratch : Z) (w : W) (m : memory) : answer Z * W * memory :=
  if negb (window_length r =? TO_END) then (Ok (window_length r), w, m)
  else
    let '(o, w, m) := object_info scratch w m in
    (match o with Ok o => Ok (o_size o) | Err e => Err e end, w, m).

Definition read_ends (head tail : span) (scratch : Z) (head_first : bool) (st : RangeStats)
    (w : W) (m : memory) : answer (Object * RangeStats) * W * memory :=
  if bool_decide (backend r = File) then
    match read_file_ends file_size open_error read_at r head tail m with
    | (Err e, m) => (Err e, w, m)
    | (Ok size, m) =>
        (Ok (mkObject size [],
             st <| received_bytes := received_bytes st + (at_most (sp_size head) size
                                                           + at_most (sp_size tail) size) |>), w, m)
    end
  else read_remote_ends r head tail scratch head_first st w m.
End Entry.

(** ** What a read of both ends returns *)

Section EndsSpec.
Variable obj : object_bytes.
Variable size_ : Z.
Hypothesis size_ok : 0 <= size_ <= U64_MAX.

(** The bytes at an address are the object's from a position on. *)
Definition holds (m : memory) (a n pos : Z) : Prop :=
  forall i, 0 <= i < n -> m (a + i) = obj (pos + i).

Definition outside (s : span) (a : Z) : Prop := a < sp_data s \/ sp_data s + sp_size s <= a.
Definition disjoint (s t : span) : Prop :=
  sp_size s = 0 \/ sp_size t = 0 \/
  sp_data s + sp_size s <= sp_data t \/ sp_data t + sp_size t <= sp_data s.

Lemma disjoint_outside s t i : disjoint s t -> 0 <= i < sp_size s -> outside t (sp_data s + i).
Proof. unfold disjoint, outside. lia. Qed.

Lemma holds_framed m m' a n pos :
  holds m a n pos -> (forall i, 0 <= i < n -> m' (a + i) = m (a + i)) -> holds m' a n pos.
Proof. intros Hh Hm i Hi. rewrite Hm by done. by apply Hh. Qed.

Lemma holds_copy m a n pos b k :
  holds m a n pos -> 0 <= b -> b + k <= n -> 0 <= k ->
  forall dest, holds (memcpy m dest (mem_read m (a + b) k)) dest k (pos + b).
Proof.
  intros Hh Hb Hk Hk0 dest i Hi. rewrite memcpy_in by (rewrite mem_read_length; lia).
  rewrite mem_read_nth by done. replace (a + b + i) with (a + (b + i)) by lia.
  rewrite Hh by lia. f_equal. lia.
Qed.

Lemma memcpy_outside m s data a :
  Z.of_nat (length data) <= sp_size s -> outside s a -> memcpy m (sp_data s) data a = m a.
Proof. intros Hl Ha. apply memcpy_out. unfold outside in Ha. lia. Qed.

(** The contract of a ranged read; [ProbeSpec] proves it of [Probe.get_range]. *)
Section Contract.
Context {W : Type} `{RangeReader W}.

Definition reads_object : Prop :=
  forall rng dest pin w m rep w' m',
    range_reader rng dest pin w m = (rep, w', m') ->
    is_u64 (br_first rng) -> is_u64 (br_length rng) -> br_length rng = sp_size dest ->
    (forall a, outside dest a -> m' a = m a) /\
    (forall reply, rep = Ok reply -> serves obj size_ rng (sp_data dest) reply m').

Hypothesis reads : reads_object.

(** An absolute range. *)
Lemma read_absolute first dest pin w m reply w' m' :
  range_reader {| br_first := first; br_length := sp_size dest; suffix := false |} dest pin w m
  = (Ok reply, w', m') -> is_u64 first -> is_u64 (sp_size dest) ->
  (forall a, outside dest a -> m' a = m a) /\ total reply = size_ /\ suffix_ignored reply = false /\
  r_got reply = Z.max 0 (Z.min (sp_size dest) (size_ - first)) /\
  holds m' (sp_data dest) (r_got reply) first.
Proof using reads.
  intros E Hf Hl. destruct (reads _ _ _ _ _ _ _ _ E Hf Hl eq_refl) as [Hfr Hs].
  destruct (Hs reply eq_refl) as (Ht & Hig & Hserve).
  destruct (Hserve (Hig eq_refl)) as (Hfirst & Hgot & Hbytes). split_and!; [done|done|by apply Hig|done|].
  unfold first_of in Hfirst. cbn in Hfirst. by rewrite Hfirst in Hbytes.
Qed.

(** The last bytes of the object. *)
Lemma read_suffix dest pin w m reply w' m' :
  range_reader {| br_first := 0; br_length := sp_size dest; suffix := true |} dest pin w m
  = (Ok reply, w', m') -> is_u64 (sp_size dest) ->
  (forall a, outside dest a -> m' a = m a) /\ total reply = size_ /\
  (suffix_ignored reply = false ->
   r_got reply = Z.min (sp_size dest) size_ /\
   holds m' (sp_data dest) (r_got reply) (size_ - r_got reply)).
Proof using reads.
  intros E Hl. assert (H0 : is_u64 0) by (unfold is_u64; lia).
  destruct (reads _ _ _ _ _ _ _ _ E H0 Hl eq_refl) as [Hfr Hs].
  destruct (Hs reply eq_refl) as (Ht & _ & Hserve). split_and!; [done..|].
  intros Hig. destruct (Hserve Hig) as (Hfirst & Hgot & Hbytes). split; [done|].
  unfold first_of in Hfirst. cbn [suffix] in Hfirst. rewrite Hfirst, <-Hgot in Hbytes. exact Hbytes.
Qed.

(** *** Both requests *)

Variable r : Resolved.
Hypothesis window : 0 <= window_offset r <= U64_MAX /\ 0 <= window_length r <= U64_MAX /\
  (window_length r <> TO_END -> window_offset r + window_length r <= U64_MAX).

Definition head_ok (p : EndsPlan) (reply : RangeReply) (m : memory) : Prop :=
  sp_size (ep_head p) <> 0 ->
  total reply = size_ /\
  r_got reply = Z.max 0 (Z.min (sp_size (ep_head p)) (size_ - window_offset r)) /\
  holds m (sp_data (ep_head p)) (r_got reply) (window_offset r).

Definition tail_ok (p : EndsPlan) (reply : RangeReply) (m : memory) : Prop :=
  sp_size (ep_tail p) <> 0 ->
  total reply = size_ /\
  if suffix (ep_tail_range p) then
    suffix_ignored reply = false ->
    r_got reply = Z.min (sp_size (ep_tail p)) size_ /\
    holds m (sp_data (ep_tail p)) (r_got reply) (size_ - r_got reply)
  else
    suffix_ignored reply = false /\
    r_got reply = Z.max 0 (Z.min (sp_size (ep_tail p)) (size_ - br_first (ep_tail_range p))) /\
    holds m (sp_data (ep_tail p)) (r_got reply) (br_first (ep_tail_range p)).

(** The plans of [plan_ends]. *)
Record plan_ok (p : EndsPlan) : Prop := {
  po_disjoint : disjoint (ep_head p) (ep_tail p);
  po_head : is_u64 (sp_size (ep_head p));
  po_tail : is_u64 (sp_size (ep_tail p));
  po_range : sp_size (ep_tail p) <> 0 ->
    ep_tail_range p = {| br_first := br_first (ep_tail_range p); br_length := sp_size (ep_tail p);
                         suffix := suffix (ep_tail_range p) |} /\
    is_u64 (br_first (ep_tail_range p)) /\
    (suffix (ep_tail_range p) = true -> br_first (ep_tail_range p) = 0);
}.

Definition unchanged_outside (s t : span) (m m' : memory) : Prop :=
  forall a, outside s a -> outside t a -> m' a = m a.

Lemma read_head_step p w m reply w' m' :
  plan_ok p ->
  (if sp_size (ep_head p) =? 0 then (Ok RangeReply_default, w, m)
   else range_reader {| br_first := window_offset r; br_length := sp_size (ep_head p);
                        suffix := false |} (ep_head p) [] w m) = (Ok reply, w', m') ->
  (forall a, outside (ep_head p) a -> m' a = m a) /\ head_ok p reply m'.
Proof using reads window.
  intros []. destruct (Z.eqb_spec (sp_size (ep_head p)) 0) as [E0|E0].
  - intros [= <- _ <-]. by split.
  - intros E. apply read_absolute in E as (Hf & Ht & _ & Hg & Hh); [|unfold is_u64; lia|done].
    split; [done|]. intros _. by split_and!.
Qed.

Lemma read_tail_step p w m reply w' m' :
  plan_ok p ->
  (if sp_size (ep_tail p) =? 0 then (Ok RangeReply_default, w, m)
   else range_reader (ep_tail_range p) (ep_tail p) [] w m) = (Ok reply, w', m') ->
  (forall a, outside (ep_tail p) a -> m' a = m a) /\ tail_ok p reply m'.
Proof using reads.
  intros []. destruct (Z.eqb_spec (sp_size (ep_tail p)) 0) as [E0|E0].
  - intros [= <- _ <-]. by split.
  - destruct (po_range0 E0) as (Hr & Hf & H0). unfold tail_ok. rewrite Hr. cbn.
    destruct (suffix (ep_tail_range p)) eqn:Es; intros E.
    + rewrite H0 in E by done. apply read_suffix in E as (Hfr & Ht & Hs); [|done].
      split; [done|]. intros _. by split.
    + apply read_absolute in E as (Hfr & Ht & Hi & Hg & Hh); [|done..].
      split; [done|]. intros _. by split_and!.
Qed.

Lemma head_ok_stable p reply m m' :
  plan_ok p -> head_ok p reply m -> (forall a, outside (ep_tail p) a -> m' a = m a) -> head_ok p reply m'.
Proof using size_ok.
  intros [] Hh Hm H0. destruct (Hh H0) as (Ht & Hg & Hb). split_and!; [done..|].
  eapply holds_framed; [exact Hb|]. intros i Hin. apply Hm. eapply disjoint_outside; [done|lia].
Qed.

Lemma tail_ok_stable p reply m m' :
  plan_ok p -> tail_ok p reply m -> (forall a, outside (ep_head p) a -> m' a = m a) -> tail_ok p reply m'.
Proof using size_ok.
  intros [] Hh Hm H0. destruct (Hh H0) as (Ht & Hrest). split; [done|].
  assert (Hd : disjoint (ep_tail p) (ep_head p)) by (unfold disjoint in *; lia).
  destruct (suffix (ep_tail_range p)).
  - intros Hig. destruct (Hrest Hig) as [Hg Hb]. split; [done|].
    eapply holds_framed; [exact Hb|]. intros i Hin. apply Hm. eapply disjoint_outside; [done|lia].
  - destruct Hrest as (Hi & Hg & Hb). split_and!; [done..|].
    eapply holds_framed; [exact Hb|]. intros i Hin. apply Hm. eapply disjoint_outside; [done|lia].
Qed.

(** Whatever the order of the two requests. *)
Lemma read_both_spec p head_first w m hr tr w' m' :
  plan_ok p -> read_both r p head_first w m = (Ok hr, Ok tr, w', m') ->
  unchanged_outside (ep_head p) (ep_tail p) m m' /\ head_ok p hr m' /\ tail_ok p tr m'.
Proof using reads window size_ok.
  intros Hp. unfold read_both, unchanged_outside. destruct head_first.
  - destruct (if sp_size (ep_head p) =? 0 then _ else _) as [[[h|] w1] m1] eqn:E1;
      destruct (if sp_size (ep_tail p) =? 0 then _ else _) as [[t w2] m2] eqn:E2; [|done].
    intros [= -> -> -> ->].
    apply read_head_step in E1 as [F1 H1]; [|done]. apply read_tail_step in E2 as [F2 H2]; [|done].
    split_and!; [|by eapply head_ok_stable|done]. intros a Ha Hb. rewrite F2 by done. by apply F1.
  - destruct (if sp_size (ep_tail p) =? 0 then _ else _) as [[[t|] w1] m1] eqn:E1;
      destruct (if sp_size (ep_head p) =? 0 then _ else _) as [[h w2] m2] eqn:E2; [|done].
    intros [= -> -> -> ->].
    apply read_tail_step in E1 as [F1 H1]; [|done]. apply read_head_step in E2 as [F2 H2]; [|done].
    split_and!; [|done|by eapply tail_ok_stable]. intros a Ha Hb. rewrite F2 by done. by apply F1.
Qed.

(** *** The plan and the placement of the tail *)

Variables head tail : span.
Variable scratch : Z.
Hypothesis head_size : is_u64 (sp_size head).
Hypothesis tail_size : is_u64 (sp_size tail).
Hypothesis apart_ : disjoint head tail /\ outside head scratch /\ outside tail scratch.

Lemma plan_ends_ok : plan_ok (plan_ends r head tail scratch).
Proof using window head_size tail_size apart_ size_ok.
  destruct apart_ as (Hd & Hh & Ht). destruct window as (Ho & Hl & Hsum).
  unfold disjoint, outside, is_u64 in *.
  unfold plan_ends, at_most, sub_first, no_span.
  destruct (Z.eqb_spec (window_length r) TO_END) as [Eb|Eb]; cbn [negb andb].
  - destruct (Z.eqb_spec (sp_size tail) 0) as [Et|Et]; cbn [negb andb].
    + destruct (Z.eqb_spec (sp_size head) 0); constructor; cbn; unfold disjoint, is_u64; cbn;
        try lia; done.
    + destruct (bool_decide (backend r = Azure)); cbn [negb andb].
      * destruct (Z.eqb_spec (sp_size head) 0); constructor; cbn; unfold disjoint, is_u64; cbn;
          try lia; done.
      * rewrite andb_false_r. constructor; cbn; unfold disjoint, is_u64; cbn; try lia.
        intros _. by split_and!.
  - specialize (Hsum Eb).
    destruct (_ <? window_length r); constructor; cbn; unfold disjoint, is_u64; cbn; try lia; intros Hne;
      split_and!; try done; apply wrap64_range.
Qed.

(** The visible part of the object. *)
Definition visible : Z := visible_size r size_.

Lemma visible_bounds : 0 <= visible <= U64_MAX.
Proof using window size_ok.
  unfold visible, visible_size. destruct window as (Ho & Hl & _).
  destruct (_ =? TO_END); cbn [negb]; [|lia]. destruct (Z.ltb_spec (window_offset r) size_); lia.
Qed.

Lemma unbounded_visible : window_length r = TO_END -> visible = Z.max 0 (size_ - window_offset r).
Proof.
  intros E. unfold visible, visible_size. rewrite E. cbn.
  destruct (Z.ltb_spec (window_offset r) size_); lia.
Qed.

Lemma tail_start tl : 0 <= tl <= visible -> window_offset r + visible <= U64_MAX ->
  wrap64 (wrap64 (window_offset r + visible) - tl) = window_offset r + visible - tl.
Proof using window.
  intros Ht Hv. destruct window as (Ho & _). rewrite (wrap64_small (_ + _)), wrap64_small;
    unfold is_u64; lia.
Qed.

(** Both ends, where the caller wants them. *)
Definition ends_read (m : memory) : Prop :=
  let hl := at_most (sp_size head) visible in
  let tl := at_most (sp_size tail) visible in
  holds m (sp_data head) hl (window_offset r) /\
  holds m (sp_data tail) tl (window_offset r + visible - tl).

(** A reply that is the whole of a span the caller asked for. *)
Lemma holds_fewer m a n k pos : holds m a n pos -> k <= n -> holds m a k pos.
Proof. intros Hh Hk i Hi. apply Hh. lia. Qed.

(** What is known when the tail is placed. *)
Record located (p : EndsPlan) (hr tr : RangeReply) (m : memory) : Prop := {
  lo_plan : p = plan_ends r head tail scratch;
  lo_head : head_ok p hr m;
  lo_tail : tail_ok p tr m;
  lo_head_got : window_length r <> TO_END -> r_got hr = sp_size (ep_head p);
  lo_tail_got : window_length r <> TO_END -> r_got tr = sp_size (ep_tail p);
  lo_some : sp_size head <> 0 \/ sp_size tail <> 0;
}.

(** A window that is read to its end lies in the object, or nothing of it is
    wanted. *)
Lemma located_head p hr tr m :
  located p hr tr m ->
  holds m (sp_data head) (at_most (sp_size head) visible) (window_offset r).
Proof using window size_ok head_size.
  intros [-> Hh _ Hg _ _]. destruct window as (Ho & Hl & Hsum). unfold is_u64 in *.
  unfold at_most. destruct (Z.eq_dec (Z.min (sp_size head) visible) 0) as [E0|E0]; [intros i Hi; lia|].
  pose proof visible_bounds.
  unfold head_ok, plan_ends in *. destruct (Z.eqb_spec (window_length r) TO_END) as [Eb|Eb].
  - pose proof (unbounded_visible Eb) as Hv. cbn [negb andb] in Hh.
    rewrite (proj2 (Z.eqb_neq (sp_size head) 0)) in Hh by lia. cbn [andb] in Hh. cbn in Hh.
    destruct Hh as (_ & Hgot & Hb); [lia|]. eapply holds_fewer; [exact Hb|]. lia.
  - assert (Hv : visible = window_length r).
    { unfold visible, visible_size. by rewrite (proj2 (Z.eqb_neq _ _) Eb). }
    specialize (Hg Eb). cbn [negb andb] in *.
    assert (Hhead : forall p', ep_head p' = sub_first head (at_most (sp_size head) (window_length r)) ->
      (sp_size (ep_head p') <> 0 -> total hr = size_ /\
        r_got hr = Z.max 0 (Z.min (sp_size (ep_head p')) (size_ - window_offset r)) /\
        holds m (sp_data (ep_head p')) (r_got hr) (window_offset r)) ->
      r_got hr = sp_size (ep_head p') ->
      holds m (sp_data head) (Z.min (sp_size head) visible) (window_offset r)).
    { intros p' -> Hp Hgot. unfold at_most in *. cbn in *. destruct Hp as (_ & _ & Hb); [lia|].
      rewrite Hgot, <-Hv in Hb. exact Hb. }
    destruct (_ <? window_length r); eapply Hhead; [|exact Hh|exact Hg| |exact Hh|exact Hg]; done.
Qed.

Lemma located_known p hr tr m :
  located p hr tr m ->
  visible_size r (total (if negb (sp_size (ep_head p) =? 0) then hr else tr)) = visible.
Proof using window size_ok.
  intros [-> Hh Ht _ _ Hsome]. unfold visible.
  destruct (Z.eqb_spec (window_length r) TO_END) as [Eb|Eb].
  2:{ unfold visible_size. by rewrite (proj2 (Z.eqb_neq _ _) Eb). }
  f_equal. unfold head_ok, tail_ok, plan_ends in *. rewrite (proj2 (Z.eqb_eq _ _) Eb) in *. cbn in *.
  destruct (Z.eqb_spec (sp_size head) 0) as [E0|E0]; cbn in *.
  - destruct (Z.eqb_spec (sp_size tail) 0) as [E1|E1]; cbn in *; [destruct Hsome; congruence|].
    destruct (bool_decide (backend r = Azure)); cbn in *; [by apply Hh|]. rewrite E0. cbn.
    by apply Ht.
  - rewrite (proj2 (Z.eqb_neq _ _) E0). cbn. by apply Hh.
Qed.

Lemma head_untouched m m' :
  holds m (sp_data head) (at_most (sp_size head) visible) (window_offset r) ->
  (forall a, outside tail a -> m' a = m a) ->
  holds m' (sp_data head) (at_most (sp_size head) visible) (window_offset r).
Proof using apart_ size_ok.
  intros Hh Hm. eapply holds_framed; [exact Hh|]. intros i Hi. apply Hm.
  eapply disjoint_outside; [apply apart_|unfold at_most in Hi; lia].
Qed.

Lemma copy_outside m a tl data :
  tl <= sp_size tail -> Z.of_nat (length data) = tl -> outside tail a ->
  memcpy m (sp_data tail) data a = m a.
Proof. intros Ht Hl Ha. apply (memcpy_outside _ tail); [lia|done]. Qed.

(** The tail that was read directly. *)
Lemma direct_tail p hr tr m :
  located p hr tr m -> sp_size (ep_tail p) <> 0 -> suffix_ignored tr = false ->
  let tl := at_most (sp_size tail) visible in 0 < tl ->
  holds (if ep_by_suffix p
         then memcpy m (sp_data tail) (mem_read m (sp_data tail + (r_got tr - tl)) tl) else m)
    (sp_data tail) tl (window_offset r + visible - tl).
Proof using window size_ok tail_size.
  intros [-> _ Ht _ Hg _] H0 Hig tl Htl. specialize (Ht H0) as [_ Ht]. revert H0 Ht Hg.
  pose proof visible_bounds as Hv. destruct window as (Ho & Hl & Hsum). unfold is_u64 in *.
  unfold plan_ends. destruct (Z.eqb_spec (window_length r) TO_END) as [Eb|Eb]; cbn [negb andb].
  - pose proof (unbounded_visible Eb) as Hvis.
    destruct (negb (sp_size tail =? 0) && negb (bool_decide (backend r = Azure))) eqn:Es; cbn; [|done].
    intros H0 Ht _. destruct (Ht Hig) as [Hgot Hb]. unfold tl, at_most in *.
    replace (window_offset r + visible - Z.min (sp_size tail) visible)
      with (size_ - r_got tr + (r_got tr - Z.min (sp_size tail) visible)) by lia.
    eapply holds_copy; [exact Hb|lia..].
  - specialize (Hsum Eb).
    assert (Hvis : visible = window_length r).
    { unfold visible, visible_size. by rewrite (proj2 (Z.eqb_neq _ _) Eb). }
    destruct (_ <? window_length r); cbn; [|done]. intros H0 (_ & Hgot & Hb) Hg. specialize (Hg Eb).
    unfold tl, at_most in *. rewrite Hvis in *. rewrite Hg in Hb.
    rewrite (wrap64_small (_ + _)), wrap64_small in Hb by (unfold is_u64; lia). exact Hb.
Qed.

(** Only an object of unknown size takes a third request. *)
Lemma third_request_unbounded p hr tr m :
  located p hr tr m -> negb (sp_size (ep_tail p) =? 0) && negb (suffix_ignored tr) = false ->
  0 < at_most (sp_size tail) visible -> at_most (sp_size head) visible < visible ->
  window_length r = TO_END.
Proof using window size_ok head_size tail_size.
  intros [-> _ Ht _ _ _] Hs Htl Hh. destruct (Z.eq_dec (window_length r) TO_END) as [|Eb]; [done|].
  exfalso. assert (Hvis : visible = window_length r).
  { unfold visible, visible_size. by rewrite (proj2 (Z.eqb_neq _ _) Eb). }
  unfold tail_ok in Ht. rewrite Hvis in *. unfold at_most, is_u64 in *. revert Hs Ht. unfold plan_ends.
  rewrite (proj2 (Z.eqb_neq _ _) Eb). cbn. unfold at_most.
  destruct (Z.ltb_spec (Z.min (sp_size head) (window_length r)) (window_length r)) as [Hlt|Hlt]; [|lia].
  cbn. rewrite (proj2 (Z.eqb_neq _ 0)) by lia. cbn. intros Hs Ht.
  destruct (Ht ltac:(lia)) as (_ & Hig & _). by rewrite Hig in Hs.
Qed.

Lemma place_tail_spec p hr tr w m tag w' m' :
  located p hr tr m ->
  place_tail r p head tail (if negb (sp_size (ep_head p) =? 0) then hr else tr) tr w m = (Ok tag, w', m') ->
  ends_read m' /\ (forall a, outside tail a -> m' a = m a).
Proof using reads window size_ok head_size tail_size apart_.
  intros Hloc. pose proof (located_head _ _ _ _ Hloc) as Hhead. unfold place_tail.
  rewrite (located_known _ _ _ _ Hloc). pose proof visible_bounds as Hvb.
  unfold ends_read. set (tl := at_most (sp_size tail) visible).
  assert (Htl : 0 <= tl <= visible /\ tl <= sp_size tail) by (unfold tl, at_most, is_u64 in *; lia).
  destruct (Z.eqb_spec tl 0) as [E0|E0].
  { intros [= _ _ <-]. split; [|done]. split; [done|]. intros i Hi. lia. }
  assert (Hdone : forall m1, (forall a, outside tail a -> m1 a = m a) ->
    holds m1 (sp_data tail) tl (window_offset r + visible - tl) ->
    (holds m1 (sp_data head) (at_most (sp_size head) visible) (window_offset r) /\
     holds m1 (sp_data tail) tl (window_offset r + visible - tl)) /\
    (forall a, outside tail a -> m1 a = m a)).
  { intros m1 Hf Ht. split_and!; [by eapply head_untouched|done|done]. }
  destruct (negb (sp_size (ep_tail p) =? 0) && negb (suffix_ignored tr)) eqn:Esent.
  { apply andb_true_iff in Esent as [Ht0%negb_true_iff%Z.eqb_neq Hig%negb_true_iff].
    intros [= _ _ <-]. apply Hdone; [destruct (ep_by_suffix p); [|done]; intros a Ha;
      apply (copy_outside _ _ tl); [lia|apply mem_read_length; lia|done]|].
    eapply direct_tail; [exact Hloc|done|done|]. fold tl. lia. }
  destruct (Z.leb_spec visible (at_most (sp_size head) visible)) as [Ev|Ev].
  { intros [= _ _ <-].
    apply Hdone; [intros a Ha; apply (copy_outside _ _ tl); [lia|apply mem_read_length; lia|done]|].
    replace (window_offset r + visible - tl) with (window_offset r + (visible - tl)) by lia.
    eapply holds_copy; [exact Hhead|unfold at_most in *; lia..]. }
  destruct (range_reader _ _ _ _ _) as [[[reply|e] w1] m1] eqn:E; [|done].
  destruct (negb (same_version _ _)); [done|]. intros [= _ _ <-].
  assert (Eb : window_length r = TO_END) by (eapply third_request_unbounded; eauto; fold tl; lia).
  pose proof (unbounded_visible Eb) as Hvis. destruct window as (Ho & _).
  assert (Hstart : window_offset r + visible = size_) by (unfold tl, at_most in *; lia).
  rewrite (tail_start tl) in E by lia.
  apply (read_absolute (window_offset r + visible - tl) (sub_first tail tl)) in E as (Hf & _ & _ & Hg & Hb);
    [|unfold is_u64; lia|unfold is_u64; cbn; lia].
  apply Hdone; [intros a Ha; apply Hf; unfold outside in *; cbn; lia|].
  cbn in Hg, Hb. replace (r_got reply) with tl in Hb by lia. exact Hb.
Qed.

Lemma plan_spans a p :
  p = plan_ends r head tail scratch -> outside head a -> outside tail a -> a <> scratch ->
  outside (ep_head p) a /\ outside (ep_tail p) a.
Proof using apart_ window head_size tail_size.
  intros -> Hh Ht Hs. destruct window as (_ & Hl & _). unfold outside, is_u64, plan_ends, at_most in *.
  repeat case_match; cbn; lia.
Qed.

Lemma read_remote_ends_spec head_first st w m o st' w' m' :
  read_remote_ends r head tail scratch head_first st w m = (Ok (o, st'), w', m') ->
  o_size o = visible /\ ends_read m' /\
  (forall a, outside head a -> outside tail a -> a <> scratch -> m' a = m a).
Proof using reads window size_ok head_size tail_size apart_.
  unfold read_remote_ends.
  destruct (Z.eqb_spec (sp_size head) 0) as [Eh|Eh]; destruct (Z.eqb_spec (sp_size tail) 0) as [Et|Et];
    cbn [andb].
  { unfold remote_info. destruct (range_reader _ _ _ _ _) as [[[reply|] w1] m1] eqn:E; [|done].
    intros [= <- <- <- <-]. apply (read_absolute 0 (mkSpan scratch 1)) in E as (Hf & Ht & _);
      [|unfold is_u64; cbn; lia..]. cbn. rewrite Ht. split_and!; [done| |].
    - unfold ends_read, at_most. rewrite Eh, Et. pose proof visible_bounds. split; intros i Hi; lia.
    - intros a _ _ Ha. apply Hf. unfold outside. cbn. lia. }
  all: destruct (read_both r _ _ _ _) as [[[[hr|] [tr|]] w1] m1] eqn:Eboth; try done.
  all: destruct (_ && negb (same_version hr tr)); [done|].
  all: destruct (negb (window_length r =? TO_END) && negb (r_got hr =? _)) eqn:Egh; [done|].
  all: destruct (negb (window_length r =? TO_END) && negb (r_got tr =? _)) eqn:Egt; [done|].
  all: destruct (place_tail _ _ _ _ _ _ _ _) as [[[tag|] w2] m2] eqn:Ep; [|done]; intros [= <- <- <- <-].
  all: apply read_both_spec in Eboth as (Hf & Hh & Ht); [|apply plan_ends_ok].
  all: assert (Hloc : located (plan_ends r head tail scratch) hr tr m1) by
    (constructor; [done|done|done| | |lia]; intros Hb; apply Z.eqb_neq in Hb;
     rewrite Hb in Egh, Egt; cbn [negb andb] in Egh, Egt; lia).
  all: pose proof (place_tail_spec _ _ _ _ _ _ _ _ Hloc Ep) as [He Hf']; cbn [o_size];
    rewrite (located_known _ _ _ _ Hloc); split_and!; [done|done|].
  all: intros a Ha Hb Hc; rewrite Hf' by done;
    destruct (plan_spans a _ eq_refl Ha Hb Hc) as [H1 H2]; by apply Hf.
Qed.
(** *** Local files *)

Variable file_size : expected str Z.
Variable open_error : option str.
Variable read_at : Z -> Z -> expected str str.

(** A file that holds the object: a read may be short, but not wrong. *)
Definition file_holds_object : Prop :=
  (forall n, file_size = Ok n -> n = size_) /\
  (forall n off bytes, read_at n off = Ok bytes ->
     Z.of_nat (length bytes) <= n /\
     forall i, 0 <= i < Z.of_nat (length bytes) -> nth (Z.to_nat i) bytes "000"%char = obj (off + i)).
Hypothesis honest_file : backend r = File -> file_holds_object.

Lemma read_file_loop_spec first dest fuel : forall done m m',
  file_holds_object ->
  read_file_loop read_at fuel r first dest done m = (Ok tt, m') ->
  0 <= first -> first + sp_size dest <= U64_MAX + 1 -> 0 <= done <= sp_size dest ->
  sp_size dest - done < Z.of_nat fuel -> holds m (sp_data dest) done first ->
  holds m' (sp_data dest) (sp_size dest) first /\ (forall a, outside dest a -> m' a = m a).
Proof.
  induction fuel as [|fuel IH]; intros done m m' Hfile E Hf Hs Hd Hfuel Hh; [lia|].
  cbn [read_file_loop] in E. destruct (Z.ltb_spec done (sp_size dest)).
  2:{ injection E as <-. split; [|done]. replace (sp_size dest) with done by lia. exact Hh. }
  destruct (read_at _ _) as [bytes|] eqn:Er; [|done].
  apply Hfile in Er as [Hlen Hbytes]. rewrite wrap64_small in Hbytes by (unfold is_u64; lia).
  destruct (Z.eqb_spec (Z.of_nat (length bytes)) 0); [done|].
  apply IH in E as [Hh' Hfr]; [|done..| |lia|].
  - split; [done|]. intros a Ha. rewrite Hfr by done. apply memcpy_out. unfold outside in Ha. lia.
  - lia.
  - intros i Hi. destruct (Z.ltb_spec i done).
    + rewrite memcpy_out by lia. apply Hh. lia.
    + replace (sp_data dest + i) with (sp_data dest + done + (i - done)) by lia.
      rewrite memcpy_in, Hbytes by lia. f_equal. lia.
Qed.

Lemma read_file_spec first dest m m' :
  file_holds_object -> read_file read_at r first dest m = (Ok tt, m') ->
  0 <= first -> first + sp_size dest <= U64_MAX + 1 -> 0 <= sp_size dest ->
  holds m' (sp_data dest) (sp_size dest) first /\ (forall a, outside dest a -> m' a = m a).
Proof.
  intros Hfile E Hf Hs H0. eapply read_file_loop_spec; [exact Hfile|exact E|lia..|]. intros i Hi. lia.
Qed.

Lemma read_file_ends_spec m size m' :
  file_holds_object -> read_file_ends file_size open_error read_at r head tail m = (Ok size, m') ->
  size = visible /\ ends_read m' /\ (forall a, outside head a -> outside tail a -> m' a = m a).
Proof using window size_ok head_size tail_size apart_.
  intros Hfile. unfold read_file_ends. destruct file_size as [n|] eqn:Esz; [|done].
  apply Hfile in Esz as ->. destruct open_error; [done|]. fold visible.
  pose proof visible_bounds as Hvb. destruct window as (Ho & Hl & Hsum). unfold is_u64 in *.
  set (hl := at_most (sp_size head) visible). set (tl := at_most (sp_size tail) visible).
  assert (Hb : 0 <= hl <= sp_size head /\ hl <= visible /\ 0 <= tl <= sp_size tail /\ tl <= visible)
    by (unfold hl, tl, at_most; lia).
  assert (Hend : window_offset r + visible <= U64_MAX).
  { destruct (Z.eq_dec (window_length r) TO_END) as [Eb|Eb].
    - pose proof (unbounded_visible Eb). lia.
    - specialize (Hsum Eb). unfold visible, visible_size. by rewrite (proj2 (Z.eqb_neq _ _) Eb). }
  rewrite (tail_start tl) by lia.
  destruct (read_file _ _ _ (sub_first head hl) m) as [[[]|] m1] eqn:Eh; [|done].
  destruct (read_file _ _ _ (sub_first tail tl) m1) as [[[]|] m2] eqn:Et; [|done].
  intros [= <- <-]. apply read_file_spec in Eh as [Hh Hf1]; [|done|cbn; lia..].
  apply read_file_spec in Et as [Ht Hf2]; [|done|cbn; lia..]. cbn in *. unfold outside in *. cbn in *.
  split; [done|]. split; [split; [|exact Ht]|intros a Ha Hb'; rewrite Hf2, Hf1 by lia; done].
  eapply holds_framed; [exact Hh|]. intros i Hi. apply Hf2.
  destruct apart_ as [Hd _]. fold hl in Hi. unfold disjoint in Hd. lia.
Qed.

(** *** Both *)

Lemma read_ends_spec head_first st w m o st' w' m' :
  read_ends file_size open_error read_at r head tail scratch head_first st w m
    = (Ok (o, st'), w', m') ->
  o_size o = visible /\ ends_read m' /\
  (forall a, outside head a -> outside tail a -> a <> scratch -> m' a = m a).
Proof using reads window size_ok head_size tail_size apart_ honest_file.
  unfold read_ends. destruct (bool_decide_reflect (backend r = File)) as [Ef|Ef].
  - destruct (read_file_ends _ _ _ _ _ _ _) as [[size|] m1] eqn:E; [|done].
    intros [= <- _ _ <-]. apply read_file_ends_spec in E as (-> & He & Hf); [|auto].
    split_and!; [done|done|]. intros a Ha Hb _. by apply Hf.
  - apply read_remote_ends_spec.
Qed.

(** Reading both ends of an object returns one object: whatever the
    requests it needs (one or two at once, a third when the server ignores a
    suffix or the size must be known first, or none when the head already
    holds the tail), and however short the reads of a local file, a successful
    [read_ends] states the size of the visible window, the head holds its
    first bytes and the tail its last ones, as many as exist and were asked
    for, and no other memory changes. *)
Theorem read_ends_delivers head_first st w m o st' w' m' :
  read_ends file_size open_error read_at r head tail scratch head_first st w m
    = (Ok (o, st'), w', m') ->
  o_size o = visible /\ ends_read m' /\
  (forall a, outside head a -> outside tail a -> a <> scratch -> m' a = m a).
Proof using reads window size_ok head_size tail_size apart_ honest_file. exact (read_ends_spec _ _ _ _ _ _ _ _). Qed.
End Contract.
End EndsSpec.

(** *** Witness *)

(** A network that answers every range of an object at once. *)
Definition exact_reader : RangeReader unit := fun rng dest _ w m =>
  let got := got_of 10 rng in
  (Ok {| total := 10; first := first_of 10 rng; r_got := got; etag := $"x"; suffix_ignored := false;
         stats := RangeStats_default |}, w,
   memcpy m (sp_data dest) (mem_read ten_bytes (first_of 10 rng) got)).

Lemma exact_reader_reads : @reads_object ten_bytes 10 unit exact_reader.
Proof.
  intros rng dest pin w m rep w' m' [= <- <- <-] Hf Hl Hd. unfold is_u64 in *.
  assert (0 <= got_of 10 rng <= sp_size dest) by (unfold got_of; destruct (suffix rng); lia).
  split.
  - intros a Ha. apply memcpy_outside; [rewrite mem_read_length; lia|done].
  - intros reply [= <-]. split; [done|]. split; [done|]. intros _. cbn. split_and!; [done..|].
    intros i Hi. rewrite memcpy_in by (rewrite mem_read_length; lia). rewrite mem_read_nth by done.
    done.
Qed.

(** An object from its third byte on. *)
Definition from_two : Resolved :=
  Resolved_default <| backend := Http |> <| window_offset := 2 |> <| window_length := TO_END |>.

Abbreviation example_ends r :=
  (@read_ends unit exact_reader (Err []) None (fun _ _ => Err []) r (mkSpan 100 3) (mkSpan 200 2) 300
     true RangeStats_default tt no_memory).

(** The first three and the last two bytes of bytes 2 to 9. *)
Lemma read_ends_delivers_witness :
  exists o st m', example_ends from_two = (Ok (o, st), tt, m') /\ o_size o = 8 /\
    mem_read m' 100 3 = $"234" /\ mem_read m' 200 2 = $"89".
Proof.
  set (r := from_two).
  assert (Hsize : 0 <= 10 <= U64_MAX) by lia.
  assert (Hw : 0 <= window_offset r <= U64_MAX /\ 0 <= window_length r <= U64_MAX /\
    (window_length r <> TO_END -> window_offset r + window_length r <= U64_MAX))
    by (cbn; split_and!; try lia; done).
  assert (Hh : is_u64 (sp_size (mkSpan 100 3))) by (unfold is_u64; cbn; lia).
  assert (Ht : is_u64 (sp_size (mkSpan 200 2))) by (unfold is_u64; cbn; lia).
  assert (Ha : disjoint (mkSpan 100 3) (mkSpan 200 2) /\ outside (mkSpan 100 3) 300 /\
    outside (mkSpan 200 2) 300) by (unfold disjoint, outside; cbn; lia).
  assert (Hf : backend r = File -> file_holds_object ten_bytes 10 (Err []) (fun _ _ => Err [])) by done.
  assert (exists o st m', example_ends r = (Ok (o, st), tt, m'))
    as (o & st & m' & E) by (eexists _, _, _; vm_compute; reflexivity).
  exists o, st, m'. split; [exact E|].
  destruct (read_ends_delivers ten_bytes 10 Hsize exact_reader_reads r Hw (mkSpan 100 3) (mkSpan 200 2)
    300 Hh Ht Ha (Err []) None (fun _ _ => Err []) Hf true RangeStats_default tt no_memory o st tt m' E)
    as (Hs & [H1 H2] & _).
  split; [exact Hs|]. change (at_most _ _) with 3 in H1. change (at_most _ _) with 2 in H2.
  assert (Hread : forall a n pos, 0 <= n -> holds ten_bytes m' a n pos -> mem_read m' a n = mem_read ten_bytes pos n).
  { intros a n pos Hn Hm. apply (nth_ext _ _ "000"%char "000"%char); [unfold mem_read; by rewrite !length_map|].
    intros i Hi. assert (0 <= Z.of_nat i < n) by (pose proof (mem_read_length m' a n Hn); lia).
    rewrite <-(Nat2Z.id i), !mem_read_nth by done. by apply Hm. }
  split; [rewrite (Hread 100 3 2 ltac:(lia) H1)|rewrite (Hread 200 2 8 ltac:(lia) H2)]; vm_compute; reflexivity.
Defined.

(** A window whose end is past 2^64 passes [apply_window]; with no head asked
    for, its tail is then read from before the window: here the last two bytes
    of a window of 3 bytes that starts at 2^64 - 1 come from the start of the
    object. *)
Definition wrapping_window : Resolved :=
  Resolved_default <| backend := Http |> <| window_offset := U64_MAX |> <| window_length := 3 |>.
Example wrapping_window_reads_the_start :
  apply_window (Resolved_default <| backend := Http |>) U64_MAX 3 = Ok wrapping_window /\
  exists o st m', @read_ends unit exact_reader (Err []) None (fun _ _ => Err []) wrapping_window
      (mkSpan 100 0) (mkSpan 200 2) 300 true RangeStats_default tt no_memory = (Ok (o, st), tt, m') /\
    o_size o = 3 /\ mem_read m' 200 2 = $"01".
Proof. split; [vm_compute; reflexivity|]. eexists _, _, _. split; [vm_compute; reflexivity|split; vm_compute; reflexivity]. Qed.
