(* ===== verification/Download.v ===== *)
(** * Download: an object to a file, in chunks

    Models [src/src/download.cpp].  The engine and the batches of the C API
    are the class [Downloader], over a world [W]; the file is the
    [OutputFile] of [Files]; buffers lie in the shared memory.  What the
    engine promises of the transfers in flight is the class [DownloaderLaws].
    The theorems show that a successful download publishes exactly the
    visible bytes of the object, that a failed one changes no name and leaves
    no transfer in flight, and that a download ends when its batches do. *)

From S2P Require Import Prelude Text Uri Types Planner Response Transport Files CurlSetup Probe ProbeSpec Batch Engine Reads.

(** ** Data *)

Definition kProbeSize : Z := 2 ^ 20.

Record DownloadSettings := {
  chunk_size : Z; parallelism : Z; overwrite : bool; has_progress : bool;
}.

Record DownloadSummary := mkSummary {
  s_size : Z; s_downloaded : Z; s_received_bytes : Z; s_retries : Z; s_throttled : Z;
  s_new_connections : Z; s_resumed : Z; s_credential_refreshes : Z; s_etag : str;
}.
#[global] Instance DownloadSummary_eta : Eta DownloadSummary := fun r =>
  mkSummary (s_size r) (s_downloaded r) (s_received_bytes r) (s_retries r) (s_throttled r)
    (s_new_connections r) (s_resumed r) (s_credential_refreshes r) (s_etag r).
Definition DownloadSummary_default : DownloadSummary := mkSummary 0 0 0 0 0 0 0 0 [].

Definition add_saturated (destination value : Z) : Z :=
  if U64_MAX - destination <? value then U64_MAX else destination + value.

(** Both overloads of [add_stats]; a batch's counters are read into the same
    six fields. *)
Definition add_stats (s : DownloadSummary) (st : RangeStats) : DownloadSummary :=
  s <| s_received_bytes := add_saturated (s_received_bytes s) (received_bytes st) |>
    <| s_retries := add_saturated (s_retries s) (retries st) |>
    <| s_throttled := add_saturated (s_throttled s) (throttled st) |>
    <| s_new_connections := add_saturated (s_new_connections s) (new_connections st) |>
    <| s_resumed := add_saturated (s_resumed s) (st_resumed st) |>
    <| s_credential_refreshes := add_saturated (s_credential_refreshes s) (credential_refreshes st) |>.
Definition batch_stats (c : BatchCounters) : RangeStats :=
  mkRangeStats (n_received_bytes c) (n_retries c) (n_throttled c) (n_new_connections c)
    (n_resumed c) (n_credential_refreshes c).

Record DownloadPart := mkDownloadPart { dp_offset : Z; dp_length : Z }.
Record Slot := mkSlot { sl_buffer : Z; sl_part : DownloadPart; sl_batch : option Z }.
#[global] Instance Slot_eta : Eta Slot := fun r => mkSlot (sl_buffer r) (sl_part r) (sl_batch r).

(** [karu_done]. *)
Record karu_done := mkDone { done_tag : Z; done_status : karu_status; done_got : Z; done_buffer : Z }.

(** ** What the download calls *)

(** [read_ends] with no tail; [karu_client_submit_with] of one request (its
    batch is a number); [karu_batch_next], whose failed completions come with
    their text; [karu_batch_get_stats]; [karu_batch_free]; and the caller's
    progress function. *)
Class Downloader (W : Type) := {
  dl_read_head : span -> W -> memory -> answer (Object * RangeStats) * W * memory;
  dl_submit : Request -> W -> memory -> answer Z * W * memory;
  dl_next : Z -> Z -> W -> memory -> karu_status * karu_done * str * W * memory;
  dl_stats : Z -> W -> answer BatchCounters * W;
  dl_free : Z -> W -> W;
  dl_progress : Z -> Z -> W -> Z * W;
}.

Section Download.
Context {W F : Type} `{Downloader W} `{Posix F}.
Variable error_message : Z -> str.
Variable l : Locator.
Variable destination : str.
Variable settings : DownloadSettings.

(** The locals of [download] with the world around them. *)
Record DownloadState := mkState {
  d_summary : DownloadSummary;
  d_slots : list Slot;
  d_next_chunk : Z;
  d_active : Z;
  d_wait_cursor : nat;
  d_output : OutputFile;
  d_world : W;
  d_memory : memory;
  d_files : F;
}.
#[global] Instance DownloadState_eta : Eta DownloadState := fun r =>
  mkState (d_summary r) (d_slots r) (d_next_chunk r) (d_active r) (d_wait_cursor r) (d_output r)
    (d_world r) (d_memory r) (d_files r).

Definition output_error {A} (action : str) (error : Z) : answer A :=
  failure_of KARU_ERR_IO
    (concat [Text destination; Text $": cannot "; Text action; Text $": "; Text (error_message error)]).

(** [std::bad_alloc], as the C API reports it. *)
Definition out_of_memory {A} : answer A :=
  failure_of KARU_ERR_NOMEM $"karu_client_download: out of memory".

Definition write_output (bytes : str) (offset : Z) (s : DownloadState) : answer unit * DownloadState :=
  let '(e, f) := write_at (d_output s) bytes offset (d_files s) in
  let s := s <| d_files := f |> in
  if e =? 0 then (Ok tt, s) else (output_error $"write temporary output" e, s).

Definition report_progress (s : DownloadState) : answer unit * DownloadState :=
  if has_progress settings then
    let '(go, w) := dl_progress (s_downloaded (d_summary s)) (s_size (d_summary s)) (d_world s) in
    let s := s <| d_world := w |> in
    if go =? 0 then
      (failure_of KARU_ERR_CANCELLED
         (concat [Text destination; Text $": download cancelled by progress callback"]), s)
    else (Ok tt, s)
  else (Ok tt, s).

Definition probe_capacity : Z := Z.min (chunk_size settings) kProbeSize.
Definition probe_length (size : Z) : Z := Z.min probe_capacity size.

(** The first bytes, and with them the size. [probe] is the buffer. *)
Definition read_first (probe : option Z) (s : DownloadState) : answer unit * DownloadState :=
  match probe with
  | None => (out_of_memory, s)
  | Some probe =>
      let '(r, w, m) := dl_read_head (mkSpan probe probe_capacity) (d_world s) (d_memory s) in
      let s := s <| d_world := w |> <| d_memory := m |> in
      match r with
      | Err e => (Err e, s)
      | Ok (o, st) =>
          let s := s <| d_summary :=
            add_stats ((d_summary s) <| s_size := o_size o |> <| s_etag := o_etag o |>) st |> in
          let '(e, f) := resize (d_output s) (s_size (d_summary s)) (d_files s) in
          let s := s <| d_files := f |> in
          if negb (e =? 0) then (output_error $"resize temporary output" e, s)
          else
            let length := probe_length (s_size (d_summary s)) in
            if 0 <? length then
              match write_output (mem_read (d_memory s) probe length) 0 s with
              | (Err e, s) => (Err e, s)
              | (Ok _, s) =>
                  report_progress (s <| d_summary := (d_summary s) <| s_downloaded := length |> |>)
              end
            else (Ok tt, s)
      end
  end.

(** The rest, in chunks. *)
Definition remaining (size : Z) : Z := size - probe_length size.
Definition chunks (size : Z) : Z :=
  if remaining size =? 0 then 0 else 1 + (remaining size - 1) / chunk_size settings.
Definition slot_count (size : Z) : nat := Z.to_nat (Z.min (parallelism settings) (chunks size)).
Definition slot_capacity (size : Z) : Z := Z.min (chunk_size settings) (remaining size).

Definition chunk_part (size chunk : Z) : DownloadPart :=
  let offset := wrap64 (probe_length size + wrap64 (chunk * chunk_size settings)) in
  mkDownloadPart offset (Z.min (chunk_size settings) (size - offset)).

(** The request of a chunk; the tag of slot [i] is [i]. *)
Definition chunk_request (etag : str) (i : nat) (buffer : Z) (part : DownloadPart) : Request :=
  {| locator := l; offset := dp_offset part; length_ := dp_length part; buffer := buffer;
     tag := Z.of_nat i; if_match := etag |}.

Definition submit_chunk (i : nat) (s : DownloadState) : answer unit * DownloadState :=
  match d_slots s !! i with
  | None => (Ok tt, s)
  | Some slot =>
      let part := chunk_part (s_size (d_summary s)) (d_next_chunk s) in
      let s := s <| d_next_chunk := d_next_chunk s + 1 |>
                 <| d_slots := <[i := slot <| sl_part := part |>]> (d_slots s) |> in
      let '(r, w, m) := dl_submit (chunk_request (s_etag (d_summary s)) i (sl_buffer slot) part)
                          (d_world s) (d_memory s) in
      let s := s <| d_world := w |> <| d_memory := m |> in
      match r with
      | Err e => (Err e, s)
      | Ok batch =>
          (Ok tt, s <| d_slots := <[i := slot <| sl_part := part |> <| sl_batch := Some batch |>]>
                                     (d_slots s) |>)
      end
  end.

(** The slots and their buffers: [buffers i] is [None] when memory is short. *)
Fixpoint make_slots (n : nat) (buffers : nat -> option Z) : option (list Slot) :=
  match n with
  | O => Some []
  | S n =>
      match make_slots n buffers, buffers n with
      | Some slots, Some b => Some (slots ++ [mkSlot b (mkDownloadPart 0 0) None])
      | _, _ => None
      end
  end.

Fixpoint submit_first (indices : list nat) (s : DownloadState) : answer unit * DownloadState :=
  match indices with
  | [] => (Ok tt, s)
  | i :: indices =>
      match submit_chunk i s with
      | (Ok _, s) => submit_first indices s
      | (Err e, s) => (Err e, s)
      end
  end.

Definition start_slots (buffers : nat -> option Z) (s : DownloadState) : answer unit * DownloadState :=
  match make_slots (slot_count (s_size (d_summary s))) buffers with
  | None => (out_of_memory, s)
  | Some slots =>
      match submit_first (seq 0 (length slots)) (s <| d_slots := slots |> <| d_next_chunk := 0 |>) with
      | (Err e, s) => (Err e, s)
      | (Ok _, s) =>
          (Ok tt, s <| d_active := Z.of_nat (length (d_slots s)) |> <| d_wait_cursor := O |>)
      end
  end.

(** What is done with a completed slot. *)
Definition complete_slot (index : nat) (slot : Slot) (batch : Z) (done : karu_done) (s : DownloadState)
    : answer unit * DownloadState :=
  let part := sl_part slot in
  if negb (done_tag done =? Z.of_nat index) || negb (done_got done =? dp_length part) then
    (failure_of KARU_ERR_IO
       (concat [Text destination; Text $": download completed "; Integer (done_got done); Text $" of ";
                Integer (dp_length part); Text $" bytes at offset "; Integer (dp_offset part)]), s)
  else
    match write_output (mem_read (d_memory s) (done_buffer done) (dp_length part)) (dp_offset part) s with
    | (Err e, s) => (Err e, s)
    | (Ok _, s) =>
        let s := s <| d_summary := (d_summary s)
          <| s_downloaded := add_saturated (s_downloaded (d_summary s)) (done_got done) |> |> in
        match report_progress s with
        | (Err e, s) => (Err e, s)
        | (Ok _, s) =>
            let '(r, w) := dl_stats batch (d_world s) in
            let s := s <| d_world := w |> in
            match r with
            | Err e => (Err e, s)
            | Ok st =>
                let s := s <| d_summary := add_stats (d_summary s) (batch_stats st) |>
                           <| d_world := dl_free batch (d_world s) |>
                           <| d_slots := <[index := slot <| sl_batch := None |>]> (d_slots s) |> in
                let '(r, s) :=
                  if d_next_chunk s <? chunks (s_size (d_summary s)) then submit_chunk index s
                  else (Ok tt, s <| d_active := d_active s - 1 |>) in
                match r with
                | Err e => (Err e, s)
                | Ok _ => (Ok tt, s <| d_wait_cursor := ((index + 1) mod length (d_slots s))%nat |>)
                end
            end
        end
    end.

(** One step of the inner loop: whether it has waited and whether a slot
    completed. *)
Definition visit (step : nat) (waited completed : bool) (s : DownloadState)
    : answer (bool * bool) * DownloadState :=
  let index := ((d_wait_cursor s + step) mod length (d_slots s))%nat in
  match d_slots s !! index with
  | None => (Ok (waited, completed), s)
  | Some slot =>
      match sl_batch slot with
      | None => (Ok (waited, completed), s)
      | Some batch =>
          let '(status, done, text, w, m) :=
            dl_next batch (if waited then 0 else 10) (d_world s) (d_memory s) in
          let s := s <| d_world := w |> <| d_memory := m |> in
          if bool_decide (status = KARU_TIMEOUT) then (Ok (true, completed), s)
          else if negb (bool_decide (status = KARU_OK)) then (failure_of status text, s)
          else if negb (bool_decide (done_status done = KARU_OK)) then
            (failure_of (done_status done) text, s)
          else
            match complete_slot index slot batch done s with
            | (Ok _, s) => (Ok (true, true), s)
            | (Err e, s) => (Err e, s)
            end
      end
  end.

Fixpoint visits (steps : list nat) (waited completed : bool) (s : DownloadState)
    : answer bool * DownloadState :=
  match steps with
  | [] => (Ok completed, s)
  | step :: steps =>
      match visit step waited completed s with
      | (Ok (waited, completed), s) => visits steps waited completed s
      | (Err e, s) => (Err e, s)
      end
  end.

(** The outer loop; [None] when the fuel is spent. *)
Fixpoint rounds (fuel : nat) (s : DownloadState) : option (answer unit * DownloadState) :=
  match fuel with
  | O => None
  | S fuel =>
      if 0 <? d_active s then
        match visits (seq 0 (length (d_slots s))) false false s with
        | (Err e, s) => Some (Err e, s)
        | (Ok completed, s) =>
            rounds fuel
              (if completed then s
               else s <| d_wait_cursor := ((d_wait_cursor s + 1) mod length (d_slots s))%nat |>)
        end
      else Some (Ok tt, s)
  end.

Definition publish_output (s : DownloadState) : answer unit * DownloadState :=
  let '(e, o, f) := publish (d_output s) (overwrite settings) (d_files s) in
  let s := s <| d_output := o |> <| d_files := f |> in
  if e =? 0 then (Ok tt, s) else (output_error $"publish downloaded file" e, s).

(** The destructors of the locals: the slots' batches, then the output. *)
Definition free_slots (slots : list Slot) (w : W) : W :=
  fold_left (fun w slot => match sl_batch slot with Some b => dl_free b w | None => w end) slots w.
Definition leave (r : answer unit) (s : DownloadState) : answer DownloadSummary * W * memory * F :=
  (match r with Ok _ => Ok (d_summary s) | Err e => Err e end,
   free_slots (d_slots s) (d_world s), d_memory s, dispose_output (d_output s) (d_files s)).

Definition download (pid : Z) (numbers : nat -> Z) (probe : option Z) (buffers : nat -> option Z)
    (fuel : nat) (w : W) (m : memory) (f : F) : option (answer DownloadSummary * W * memory * F) :=
  let '(e, o, f) := create_near OutputFile_default destination (overwrite settings) pid numbers f in
  let s := mkState DownloadSummary_default [] 0 0 O o w m f in
  if e =? EEXIST then
    Some (leave (failure_of KARU_ERR_IO (concat [Text destination; Text $": destination already exists"])) s)
  else if negb (e =? 0) then Some (leave (output_error $"create temporary output" e) s)
  else
    match read_first probe s with
    | (Err e, s) => Some (leave (Err e) s)
    | (Ok _, s) =>
        match start_slots buffers s with
        | (Err e, s) => Some (leave (Err e) s)
        | (Ok _, s) =>
            match rounds fuel s with
            | None => None
            | Some (Err e, s) => Some (leave (Err e) s)
            | Some (Ok _, s) => let '(r, s) := publish_output s in Some (leave r s)
            end
        end
    end.
End Download.
