(* ===== verification/DownloadSpec.v ===== *)
(** * DownloadSpec: what a download leaves on the disk

    The promises of the engine to [Download] (class [DownloaderLaws]) and the
    invariant of its loop: the transfers in flight are those of the slots, and
    every chunk that was started is in a slot or in the file. *)

From S2P Require Import Prelude Text Uri Types Planner Response Transport Files CurlSetup Probe ProbeSpec Batch Engine Reads Download.

Section Spec.
Variable obj : object_bytes.
Variable size_ : Z.
Variable l : Locator.
Hypothesis size_ok : 0 <= size_ <= U64_MAX.
Hypothesis window : 0 <= window_offset l <= U64_MAX /\ 0 <= window_length l <= U64_MAX /\
  (window_length l <> TO_END -> window_offset l + window_length l <= U64_MAX).

Abbreviation vis := (visible_size l size_).

Definition request_span (req : Request) : span := mkSpan (buffer req) (length_ req).

(** The promises of the engine: the first bytes and the size of the object
    are right; a transfer submitted into a buffer no other one uses is in
    flight until its completion is taken or its batch freed, and a completion
    that succeeded holds its bytes of the object. *)
Class DownloaderLaws (W : Type) `{Downloader W} := {
  in_flight : W -> gmap Z Request;
  read_head_law head w m rep w' m' : dl_read_head head w m = (rep, w', m') ->
    is_u64 (sp_size head) ->
    in_flight w' = in_flight w /\
    (forall o st, rep = Ok (o, st) ->
       o_size o = vis /\ holds obj m' (sp_data head) (Z.min (sp_size head) vis) (window_offset l));
  submit_law req w m rep w' m' : dl_submit req w m = (rep, w', m') ->
    (forall b other, in_flight w !! b = Some other -> disjoint (request_span req) (request_span other)) ->
    match rep with
    | Ok b => in_flight w !! b = None /\ in_flight w' = <[b := req]> (in_flight w)
    | Err _ => in_flight w' = in_flight w
    end;
  next_law b ms w m st done text w' m' req : dl_next b ms w m = (st, done, text, w', m') ->
    in_flight w !! b = Some req ->
    if bool_decide (st = KARU_OK) then
      in_flight w' = delete b (in_flight w) /\
      (done_status done = KARU_OK -> done_got done = length_ req ->
       holds obj m' (done_buffer done) (length_ req) (window_offset l + offset req))
    else in_flight w' = in_flight w;
  stats_law b w r w' : dl_stats b w = (r, w') -> in_flight w' = in_flight w;
  free_law b w : in_flight (dl_free b w) = delete b (in_flight w);
  progress_law a b w r w' : dl_progress a b w = (r, w') -> in_flight w' = in_flight w;
}.

Context {W F : Type} `{!Downloader W} `{!DownloaderLaws W} `{!Posix F} `{!PosixLaws F}.
Variable error_message : Z -> str.
Variable destination : str.
Variable settings : DownloadSettings.
Hypothesis chunk_ok : 1 <= chunk_size settings <= U64_MAX.
Hypothesis parallelism_ok : 1 <= parallelism settings.

Abbreviation state := (@DownloadState W F).
Abbreviation names f := (fs_names (view f)).
Abbreviation data f := (fs_data (view f)).

(** ** The tiling *)

Abbreviation head := (probe_length settings vis).
Abbreviation n_chunks := (chunks settings vis).

(** The end of the first [c] chunks. *)
Definition boundary (c : Z) : Z := Z.min vis (head + c * chunk_size settings).

Lemma vis_bounds : 0 <= vis <= U64_MAX.
Proof using size_ok window.
  unfold visible_size. destruct window as (Ho & Hl & _).
  destruct (_ =? TO_END); cbn [negb]; [|lia]. destruct (Z.ltb_spec (window_offset l) size_); lia.
Qed.

Lemma head_bounds : 0 <= head <= vis.
Proof using size_ok window chunk_ok.
  pose proof vis_bounds. unfold probe_length, probe_capacity, kProbeSize. lia.
Qed.

Lemma chunks_cover : 0 <= n_chunks /\ head + n_chunks * chunk_size settings >= vis /\
  (forall c, 0 <= c < n_chunks -> head + c * chunk_size settings < vis).
Proof using size_ok window chunk_ok.
  pose proof head_bounds. unfold chunks, remaining. destruct (Z.eqb_spec (vis - head) 0); [split_and!; intros; lia|].
  pose proof (Z.div_mod (vis - head - 1) (chunk_size settings) ltac:(lia)) as E.
  pose proof (Z.mod_pos_bound (vis - head - 1) (chunk_size settings) ltac:(lia)).
  pose proof (Z.div_pos (vis - head - 1) (chunk_size settings) ltac:(lia) ltac:(lia)).
  split_and!; [nia..|]. intros c Hc. nia.
Qed.

Lemma chunk_part_spec c : 0 <= c < n_chunks ->
  dp_offset (chunk_part settings vis c) = boundary c /\
  dp_offset (chunk_part settings vis c) + dp_length (chunk_part settings vis c) = boundary (c + 1) /\
  0 < dp_length (chunk_part settings vis c).
Proof using size_ok window chunk_ok.
  intros Hc. pose proof chunks_cover as (_ & _ & Hlt). specialize (Hlt c Hc).
  pose proof head_bounds. pose proof vis_bounds. unfold chunk_part, boundary. cbn.
  assert (0 <= c * chunk_size settings) by nia.
  rewrite (wrap64_small (c * _)) by (unfold is_u64; lia). rewrite wrap64_small by (unfold is_u64; lia).
  rewrite Z.mul_add_distr_r, Z.mul_1_l. lia.
Qed.

Lemma boundary_mono c c' : c <= c' -> boundary c <= boundary c'.
Proof using chunk_ok size_ok window. unfold boundary. nia. Qed.

(** Every byte after the first ones is in one chunk. *)
Lemma chunk_of k : head <= k < vis -> exists c, 0 <= c < n_chunks /\ boundary c <= k < boundary (c + 1).
Proof using size_ok window chunk_ok.
  intros Hk. pose proof chunks_cover as (_ & Hge & _). exists ((k - head) / chunk_size settings).
  pose proof (Z.div_mod (k - head) (chunk_size settings) ltac:(lia)) as E.
  pose proof (Z.mod_pos_bound (k - head) (chunk_size settings) ltac:(lia)).
  pose proof (Z.div_pos (k - head) (chunk_size settings) ltac:(lia) ltac:(lia)).
  unfold boundary. split; nia.
Qed.

(** ** The invariants *)

(** The file holds the object's bytes of a range. *)
Definition in_file (d : Z * memory) (from until : Z) : Prop :=
  forall k, from <= k < until -> d.2 k = obj (window_offset l + k).

(** *** The loop of one download *)

Section Loop.
Variable f0 : F.
Variable private : str.  (* the temporary name *)
Variable file : Z.       (* the file behind it *)

(** What holds wherever [download] returns. *)
Record safe (s : state) : Prop := {
  sf_flight : forall b, is_Some (in_flight (d_world s) !! b) ->
    exists i slot, d_slots s !! i = Some slot /\ sl_batch slot = Some b;
  sf_output : temporary (d_output s) = private /\ destination_ (d_output s) = destination;
  sf_file : exists d, holds_file (d_output s) (d_files s) file d;
  sf_files : only_changes private file f0 (d_files s);
}.

Definition sum_slots (g : Slot -> Z) (slots : list Slot) : Z := foldr (fun slot n => g slot + n) 0 slots.
Definition busy (slot : Slot) : Z := match sl_batch slot with Some _ => 1 | None => 0 end.
Definition bytes_due (slot : Slot) : Z := busy slot * dp_length (sl_part slot).

(** A slot with a batch: its chunk, and its request in flight. *)
Definition slot_ok (s : state) (i : nat) (slot : Slot) : Prop :=
  forall b, sl_batch slot = Some b ->
    (exists c, 0 <= c < d_next_chunk s /\ sl_part slot = chunk_part settings vis c) /\
    exists etag, in_flight (d_world s) !! b = Some (chunk_request l etag i (sl_buffer slot) (sl_part slot)).

Definition disjoint_buffers (slots : list Slot) : Prop :=
  forall i j a b, slots !! i = Some a -> slots !! j = Some b -> i <> j ->
    disjoint (mkSpan (sl_buffer a) (slot_capacity settings vis)) (mkSpan (sl_buffer b) (slot_capacity settings vis)).

(** Between two visits. *)
Record loop_inv (s : state) : Prop := {
  li_flight : forall b, is_Some (in_flight (d_world s) !! b) ->
    exists i slot, d_slots s !! i = Some slot /\ sl_batch slot = Some b;
  li_output : temporary (d_output s) = private /\ destination_ (d_output s) = destination;
  li_file : exists d, holds_file (d_output s) (d_files s) file d /\ d.1 = vis /\ in_file d 0 head /\
    forall c, 0 <= c < d_next_chunk s ->
      (exists i slot, d_slots s !! i = Some slot /\ is_Some (sl_batch slot) /\
         sl_part slot = chunk_part settings vis c) \/
      in_file d (boundary c) (boundary (c + 1));
  li_files : only_changes private file f0 (d_files s);
  li_size : s_size (d_summary s) = vis;
  li_slots : forall i slot, d_slots s !! i = Some slot -> slot_ok s i slot;
  li_apart : disjoint_buffers (d_slots s);
  li_next : 0 <= d_next_chunk s <= n_chunks;
  li_downloaded : s_downloaded (d_summary s) + sum_slots bytes_due (d_slots s) = boundary (d_next_chunk s);
}.

(** While chunks are left, every slot is busy. *)
Record running (s : state) : Prop := {
  ru_inv : loop_inv s;
  ru_active : d_active s = sum_slots busy (d_slots s);
  ru_busy : d_next_chunk s < n_chunks ->
    forall i slot, d_slots s !! i = Some slot -> is_Some (sl_batch slot);
  ru_some : 0 < n_chunks -> d_slots s <> [];
}.

Lemma loop_inv_safe s : loop_inv s -> safe s.
Proof. intros []. constructor; [done|done| |done]. destruct li_file0 as (d & Hd & _). by exists d. Qed.

Lemma sum_slots_insert g slots i slot slot' :
  slots !! i = Some slot -> sum_slots g (<[i := slot']> slots) = sum_slots g slots - g slot + g slot'.
Proof.
  revert i. induction slots as [|x slots IH]; intros [|i]; cbn; [done|done|intros [= ->]; lia|].
  intros E. change (foldr _ 0 (<[i := slot']> slots)) with (sum_slots g (<[i := slot']> slots)).
  rewrite (IH i E). unfold sum_slots. lia.
Qed.

Lemma busy_some slot b : sl_batch slot = Some b -> busy slot = 1.
Proof. unfold busy. by intros ->. Qed.
Lemma busy_none slot : sl_batch slot = None -> busy slot = 0.
Proof. unfold busy. by intros ->. Qed.

Lemma idle_due slot : sl_batch slot = None -> bytes_due slot = 0.
Proof. intros E. unfold bytes_due, busy. rewrite E. lia. Qed.

Lemma due_part slot part b :
  bytes_due (slot <| sl_part := part |> <| sl_batch := Some b |>) = dp_length part.
Proof. unfold bytes_due, busy. cbn [sl_part sl_batch update]. lia. Qed.

(** ** The pieces of the loop *)

Lemma write_output_spec bytes offset (s : state) d r s' :
  holds_file (d_output s) (d_files s) file d -> 0 <= offset ->
  write_output error_message destination bytes offset s = (r, s') ->
  exists f', s' = s <| d_files := f' |> /\ only_changes (temporary (d_output s)) file (d_files s) f' /\
    exists d', holds_file (d_output s) f' file d' /\ overwrites bytes offset 0 (r = Ok tt) d d'.
Proof.
  intros Hh Ho. unfold write_output. destruct (write_at _ _ _ _) as [e f1] eqn:E.
  eapply write_at_spec in E as (_ & Hc & d' & Hd & Hov); [|done..].
  destruct (Z.eqb_spec e 0) as [->|He]; intros [= <- <-]; exists f1; split_and!; try done; exists d';
    (split; [done|]); destruct Hov; constructor; auto; try discriminate.
Qed.

Lemma report_progress_spec (s : state) r s' :
  report_progress destination settings s = (r, s') ->
  exists w', s' = s <| d_world := w' |> /\ in_flight w' = in_flight (d_world s).
Proof.
  unfold report_progress. destruct (has_progress settings).
  - destruct (dl_progress _ _ _) as [go w] eqn:E. apply progress_law in E.
    destruct (go =? 0); intros [= <- <-]; by exists w.
  - intros [= <- <-]. exists (d_world s). by destruct s.
Qed.

(** The requests in flight are those of the slots. *)
Lemma flight_slot (s : state) b req : loop_inv s -> in_flight (d_world s) !! b = Some req ->
  exists i slot etag, d_slots s !! i = Some slot /\ sl_batch slot = Some b /\
    req = chunk_request l etag i (sl_buffer slot) (sl_part slot) /\
    exists c, 0 <= c < n_chunks /\ sl_part slot = chunk_part settings vis c.
Proof.
  intros [] Hb. destruct (li_flight0 b ltac:(by eexists)) as (i & slot & Hs & Hbt).
  destruct (li_slots0 _ _ Hs _ Hbt) as ((c & Hc & Hp) & etag & Hreq).
  exists i, slot, etag. split_and!; [done|done|congruence|]. exists c. split; [lia|done].
Qed.

Lemma chunk_fits c : 0 <= c < n_chunks ->
  0 <= dp_length (chunk_part settings vis c) <= slot_capacity settings vis.
Proof using size_ok window chunk_ok.
  intros Hc. pose proof (chunk_part_spec c Hc) as (Ho & He & Hl). pose proof chunks_cover as (_ & _ & Hlt).
  specialize (Hlt c Hc). pose proof head_bounds. unfold boundary in *. unfold slot_capacity, remaining. nia.
Qed.

(** The state after the next chunk went to the idle slot [i] as batch [b]. *)
Record submitted (i : nat) (s s' : state) (slot : Slot) (b : Z) (etag : str) : Prop := {
  sb_slots : d_slots s' = <[i := slot <| sl_part := chunk_part settings vis (d_next_chunk s) |>
                                      <| sl_batch := Some b |>]> (d_slots s);
  sb_flight : in_flight (d_world s') =
    <[b := chunk_request l etag i (sl_buffer slot) (chunk_part settings vis (d_next_chunk s))]> (in_flight (d_world s));
  sb_fresh : in_flight (d_world s) !! b = None;
  sb_same : d_summary s' = d_summary s /\ d_output s' = d_output s /\ d_files s' = d_files s;
  sb_active : d_active s' = d_active s;
  sb_next : d_next_chunk s' = d_next_chunk s + 1;
}.

Lemma loop_inv_submitted i (s s' : state) slot b etag :
  loop_inv s -> d_slots s !! i = Some slot -> sl_batch slot = None -> d_next_chunk s < n_chunks ->
  submitted i s s' slot b etag -> loop_inv s'.
Proof using size_ok window chunk_ok.
  intros Hi Hs Hb Hn [Hslots Hfl Hnew (Hsum & Hout & Hfiles) _ Hnext].
  assert (Hc : 0 <= d_next_chunk s < n_chunks) by (destruct (li_next _ Hi); lia).
  assert (Hlen : (i < length (d_slots s))%nat) by (by eapply lookup_lt_Some).
  destruct Hi. constructor; rewrite ?Hslots, ?Hsum, ?Hout, ?Hfiles, ?Hnext; try done.
  - intros b'. rewrite Hfl, lookup_insert_is_Some.
    intros [<-|[Hne Hx]]; [eexists i, _; by rewrite list_lookup_insert_eq|].
    destruct (li_flight0 _ Hx) as (j & slot0 & Hj & Hb0). exists j, slot0.
    rewrite list_lookup_insert_ne; [done|]. intros ->; congruence.
  - destruct li_file0 as (d & Hd & Hd1 & Hhead & Hchunks). exists d. split_and!; [done..|].
    intros c Hcc. destruct (decide (c = d_next_chunk s)) as [->|Hne].
    + left. eexists i, _. rewrite list_lookup_insert_eq by done. split_and!; [done|by eexists|done].
    + destruct (Hchunks c ltac:(lia)) as [(j & slot0 & Hj & Hb0 & Hp)|]; [left|by right].
      exists j, slot0. rewrite list_lookup_insert_ne; [done|]. intros ->.
      rewrite Hs in Hj. injection Hj as <-. rewrite Hb in Hb0. by destruct Hb0.
  - intros j slot0. rewrite list_lookup_insert_Some.
    intros [(<- & <- & _)|[Hne Hj]] b' Hb'; rewrite Hnext, Hfl.
    + injection Hb' as <-. cbn. split; [exists (d_next_chunk s); split; [lia|done]|].
      eexists. by rewrite lookup_insert_eq.
    + destruct (li_slots0 _ _ Hj _ Hb') as ((c & Hcc & Hp) & etag' & Hreq).
      split; [exists c; split; [lia|done]|]. exists etag'. rewrite lookup_insert_ne; [done|congruence].
  - intros j k x y. rewrite !list_lookup_insert_Some.
    intros [(<- & <- & _)|[Hj Hx]] [(<- & <- & _)|[Hk Hy]] Hne; [done|..]; cbn;
      [exact (li_apart0 _ _ _ _ Hs Hy Hne)|exact (li_apart0 _ _ _ _ Hx Hs Hne)|exact (li_apart0 _ _ _ _ Hx Hy Hne)].
  - lia.
  - rewrite (sum_slots_insert _ _ _ _ _ Hs), (idle_due _ Hb), due_part.
    pose proof (chunk_part_spec _ Hc) as (Ho & He & _). lia.
Qed.

(** Submitting the next chunk in an idle slot. *)
Lemma submit_chunk_spec i (s : state) slot r s' :
  loop_inv s -> d_slots s !! i = Some slot -> sl_batch slot = None -> d_next_chunk s < n_chunks ->
  submit_chunk l settings i s = (r, s') ->
  safe s' /\ (r = Ok tt -> loop_inv s' /\ d_active s' = d_active s /\ d_next_chunk s' = d_next_chunk s + 1 /\
    exists b, d_slots s' = <[i := slot <| sl_part := chunk_part settings vis (d_next_chunk s) |>
                                       <| sl_batch := Some b |>]> (d_slots s)).
Proof using size_ok window chunk_ok.
  intros Hi Hs Hb Hn. unfold submit_chunk. rewrite Hs, (li_size _ Hi).
  destruct (dl_submit _ _ _) as [[rep w1] m1] eqn:E.
  assert (Hc : 0 <= d_next_chunk s < n_chunks) by (destruct (li_next _ Hi); lia).
  apply submit_law in E; cbn [d_world d_summary] in *.
  2:{ intros b other Hother. destruct (flight_slot _ _ _ Hi Hother) as (j & slot' & etag & Hs' & Hb' & -> & c & Hc' & Hp).
    assert (Hne : i <> j) by (intros ->; congruence).
    pose proof (li_apart _ Hi _ _ _ _ Hs Hs' Hne) as Hd. pose proof (chunk_fits _ Hc) as Hf.
    pose proof (chunk_fits _ Hc') as Hf'. rewrite <-Hp in Hf'.
    unfold disjoint, request_span in *. cbn in *. lia. }
  destruct rep as [b|e]; intros [= <- Es]; cbn in E.
  - destruct E as [Hnew Hfl].
    assert (Hsub : submitted i s s' slot b (s_etag (d_summary s))).
    { rewrite <-Es. constructor; cbn; try done. apply list_insert_insert_eq. }
    pose proof (loop_inv_submitted _ _ _ _ _ _ Hi Hs Hb Hn Hsub) as Hinv. destruct Hsub as [Hslots _ _ _ Hact Hnext].
    split; [by apply loop_inv_safe|]. intros _. split_and!; [done..|by exists b].
  - split; [|done]. destruct (loop_inv_safe _ Hi). rewrite <-Es.
    constructor; cbn; try done. intros b. rewrite E. intros Hx.
    destruct (sf_flight0 _ Hx) as (j & slot0 & Hj & Hb0). exists j, slot0.
    rewrite list_lookup_insert_ne; [done|]. intros ->; congruence.
Qed.

(** Steps that only let go of batches and write the file. *)
Lemma safe_step (s t : state) :
  safe s -> d_slots t = d_slots s -> d_output t = d_output s ->
  (forall b, is_Some (in_flight (d_world t) !! b) -> is_Some (in_flight (d_world s) !! b)) ->
  only_changes private file (d_files s) (d_files t) ->
  (exists d, holds_file (d_output s) (d_files t) file d) -> safe t.
Proof.
  intros [] Hsl Ho Hw Hf Hh. constructor; rewrite ?Hsl, ?Ho; try done; [auto|].
  by eapply only_changes_trans.
Qed.

Lemma sum_slots_nonneg g slots : Forall (fun slot => 0 <= g slot) slots -> 0 <= sum_slots g slots.
Proof. unfold sum_slots. induction 1; cbn; lia. Qed.

Lemma due_nonneg (s : state) : loop_inv s -> Forall (fun slot => 0 <= bytes_due slot) (d_slots s).
Proof using size_ok window chunk_ok.
  intros Hi. apply Forall_lookup. intros i slot Hs. destruct (sl_batch slot) as [b|] eqn:Eb.
  - destruct (li_slots _ Hi _ _ Hs _ Eb) as ((c & Hc & Hp) & _). pose proof (li_next _ Hi).
    pose proof (chunk_fits c ltac:(lia)) as Hf. unfold bytes_due, busy. rewrite Hp, Eb. lia.
  - by rewrite (idle_due _ Eb).
Qed.

(** The bytes that were written are those of the chunk. *)
Lemma chunk_written c d d' (m : memory) a (ok : Prop) :
  0 <= c < n_chunks -> ok -> d.1 = vis ->
  holds obj m a (dp_length (chunk_part settings vis c)) (window_offset l + dp_offset (chunk_part settings vis c)) ->
  overwrites (mem_read m a (dp_length (chunk_part settings vis c))) (dp_offset (chunk_part settings vis c)) 0 ok d d' ->
  d'.1 = vis /\ (in_file d 0 head -> in_file d' 0 head) /\ in_file d' (boundary c) (boundary (c + 1)) /\
  forall from until, in_file d from until -> in_file d' from until.
Proof using size_ok window chunk_ok.
  intros Hc Hok Hd Hm [Hs Ho Hi]. specialize (Hi Hok).
  pose proof (chunk_part_spec c Hc) as (Hoff & Hend & Hlen). rewrite mem_read_length in * by lia.
  assert (Hin : forall k, boundary c <= k < boundary (c + 1) -> d'.2 k = obj (window_offset l + k)).
  { intros k Hk. replace k with (dp_offset (chunk_part settings vis c) + Z.of_nat (Z.to_nat (k - boundary c))) at 1 by lia.
    rewrite Hi by (pose proof (mem_read_length m a (dp_length (chunk_part settings vis c))); lia).
    rewrite mem_read_nth by lia. rewrite Hm by lia. f_equal. lia. }
  assert (Hall : forall from until, in_file d from until -> in_file d' from until).
  { intros from until Hf k Hk. destruct (decide (boundary c <= k < boundary (c + 1))); [by apply Hin|].
    rewrite Ho by lia. by apply Hf. }
  split_and!; [unfold boundary in *; lia|apply Hall|exact Hin|exact Hall].
Qed.

(** Different slots have different batches. *)
Lemma batches_differ (s : state) i j slot slot' b :
  loop_inv s -> d_slots s !! i = Some slot -> d_slots s !! j = Some slot' ->
  sl_batch slot = Some b -> sl_batch slot' = Some b -> i = j.
Proof.
  intros Hi Hs Hs' Hb Hb'. destruct (li_slots _ Hi _ _ Hs _ Hb) as (_ & e & E).
  destruct (li_slots _ Hi _ _ Hs' _ Hb') as (_ & e' & E'). rewrite E in E'.
  apply (f_equal (fmap tag)) in E'. injection E' as Et. lia.
Qed.

(** A slot's chunk is in the file and its batch is gone. *)
Lemma release_inv (s t : state) i slot b :
  loop_inv s -> d_slots s !! i = Some slot -> sl_batch slot = Some b ->
  d_slots t = <[i := slot <| sl_batch := None |>]> (d_slots s) ->
  in_flight (d_world t) = delete b (in_flight (d_world s)) ->
  d_output t = d_output s -> d_next_chunk t = d_next_chunk s -> s_size (d_summary t) = vis ->
  s_downloaded (d_summary t) = s_downloaded (d_summary s) + dp_length (sl_part slot) ->
  only_changes private file (d_files s) (d_files t) ->
  (forall d c, 0 <= c < n_chunks -> sl_part slot = chunk_part settings vis c ->
   holds_file (d_output s) (d_files s) file d -> d.1 = vis ->
   exists d', holds_file (d_output s) (d_files t) file d' /\ d'.1 = vis /\
     in_file d' (boundary c) (boundary (c + 1)) /\
     forall from until, in_file d from until -> in_file d' from until) ->
  loop_inv t.
Proof using size_ok window chunk_ok.
  intros Hi Hs Hb Hslots Hw Hout Hnext Hsize Hdown Hfiles Hfile.
  assert (Hlen : (i < length (d_slots s))%nat) by (by eapply lookup_lt_Some).
  destruct (li_slots _ Hi _ _ Hs _ Hb) as ((c0 & Hc0 & Hp0) & _). pose proof (li_next _ Hi) as Hn.
  constructor; rewrite ?Hslots, ?Hout, ?Hnext; try done; try apply Hi.
  - intros b'. rewrite Hw, lookup_delete_is_Some. intros [Hne Hx].
    destruct (li_flight _ Hi _ Hx) as (j & slot' & Hj & Hb'). exists j, slot'.
    rewrite list_lookup_insert_ne; [done|]. intros ->. congruence.
  - destruct (li_file _ Hi) as (d & Hd & Hd1 & Hhead & Hch).
    destruct (Hfile d c0 ltac:(lia) Hp0 Hd Hd1) as (d' & Hd' & Hd1' & Hnew & Hold).
    exists d'. split_and!; [done|done|by apply Hold|]. intros c Hc.
    destruct (Hch c Hc) as [(j & slot' & Hj & Hb' & Hp)|]; [|right; by apply Hold].
    destruct (decide (j = i)) as [->|Hne].
    + right. rewrite Hs in Hj. injection Hj as <-. destruct (Hfile d c ltac:(lia) Hp Hd Hd1) as (d2 & Hd2 & _ & Hnew2 & _).
      destruct Hd2 as [_ _ Hx _ _ _ _]. destruct Hd' as [_ _ Hy _ _ _ _]. by simplify_eq.
    + left. exists j, slot'. by rewrite list_lookup_insert_ne.
  - eapply only_changes_trans; [apply Hi|exact Hfiles].
  - intros j slot'. rewrite list_lookup_insert_Some. intros [(<- & <- & _)|[Hne Hj]] b' Hb'; [done|].
    destruct (li_slots _ Hi _ _ Hj _ Hb') as (Hc & etag & Hreq).
    split; [by rewrite Hnext|]. exists etag. rewrite Hw, lookup_delete_ne; [done|].
    intros <-. by pose proof (batches_differ _ _ _ _ _ _ Hi Hs Hj Hb Hb').
  - intros j k x y. rewrite !list_lookup_insert_Some.
    intros [(<- & <- & _)|[Hj Hx]] [(<- & <- & _)|[Hk Hy]] Hne; [done|..]; cbn.
    + exact (li_apart _ Hi _ _ _ _ Hs Hy Hne).
    + exact (li_apart _ Hi _ _ _ _ Hx Hs Hne).
    + exact (li_apart _ Hi _ _ _ _ Hx Hy Hne).
  - rewrite (sum_slots_insert _ _ _ _ _ Hs), Hdown, <-(li_downloaded _ Hi).
    rewrite (idle_due (slot <| sl_batch := None |>)) by done.
    assert (bytes_due slot = dp_length (sl_part slot)) as -> by (unfold bytes_due, busy; rewrite Hb; lia). lia.
Qed.

Lemma add_saturated_small a b : a + b <= U64_MAX -> add_saturated a b = a + b.
Proof. intros Hle. unfold add_saturated. by rewrite (proj2 (Z.ltb_ge _ _)) by lia. Qed.

Lemma due_le_sum (s : state) i slot : loop_inv s -> d_slots s !! i = Some slot ->
  bytes_due slot <= sum_slots bytes_due (d_slots s).
Proof using size_ok window chunk_ok.
  intros Hi Hs. pose proof (sum_slots_insert bytes_due _ _ _ (slot <| sl_batch := None |>) Hs) as E.
  rewrite (idle_due (slot <| sl_batch := None |>)) in E by done.
  assert (0 <= sum_slots bytes_due (<[i := slot <| sl_batch := None |>]> (d_slots s))); [|lia].
  apply sum_slots_nonneg, Forall_insert; [by apply due_nonneg|done].
Qed.

Lemma due_busy slot b : sl_batch slot = Some b -> bytes_due slot = dp_length (sl_part slot).
Proof. intros E. unfold bytes_due, busy. rewrite E. lia. Qed.

(** The downloaded bytes never leave 64 bits. *)
Lemma downloaded_fits (s : state) i slot b : loop_inv s -> d_slots s !! i = Some slot -> sl_batch slot = Some b ->
  s_downloaded (d_summary s) + dp_length (sl_part slot) <= U64_MAX.
Proof using size_ok window chunk_ok.
  intros Hi Hs Hb. pose proof (due_le_sum _ _ _ Hi Hs) as Hle. rewrite (due_busy _ _ Hb) in Hle.
  pose proof (li_downloaded _ Hi). pose proof vis_bounds. unfold boundary in *. lia.
Qed.

Lemma loop_inv_cursor (s : state) c : loop_inv s -> loop_inv (s <| d_wait_cursor := c |>).
Proof. intros []. constructor; try done. Qed.

Lemma running_cursor (s : state) c : running s -> running (s <| d_wait_cursor := c |>).
Proof. intros []. constructor; try done. by apply loop_inv_cursor. Qed.

(** A call that failed: the state is safe, and there is nothing more to show. *)
Ltac failed := split; [assumption|discriminate].

(** The slot takes the next chunk, or retires. *)
Lemma next_chunk_spec (s t : state) i slot b r s' :
  running s -> d_slots s !! i = Some slot -> sl_batch slot = Some b ->
  loop_inv t -> d_slots t = <[i := slot <| sl_batch := None |>]> (d_slots s) ->
  d_next_chunk t = d_next_chunk s -> d_active t = d_active s ->
  (let '(r, s) :=
     if d_next_chunk t <? chunks settings (s_size (d_summary t)) then submit_chunk l settings i t
     else (Ok tt, t <| d_active := d_active t - 1 |>) in
   match r with
   | Err e => (Err e, s)
   | Ok _ => (Ok tt, s <| d_wait_cursor := ((i + 1) mod length (d_slots s))%nat |>)
   end) = (r, s') ->
  safe s' /\ (r = Ok tt -> running s').
Proof using size_ok window chunk_ok.
  intros Hrun Hs Hb Ht Hslots Hnext Hact. rewrite (li_size _ Ht).
  assert (Hlen : (i < length (d_slots s))%nat) by (by eapply lookup_lt_Some).
  assert (Hti : d_slots t !! i = Some (slot <| sl_batch := None |>)) by (by rewrite Hslots, list_lookup_insert_eq).
  assert (Hsum : sum_slots busy (d_slots t) = d_active s - 1).
  { rewrite Hslots, (sum_slots_insert _ _ _ _ _ Hs), (ru_active _ Hrun), (busy_some _ _ Hb).
    rewrite (busy_none (slot <| sl_batch := None |>)) by done. lia. }
  destruct (Z.ltb_spec (d_next_chunk t) n_chunks) as [Hlt|Hge].
  - destruct (submit_chunk _ _ _ _) as [r1 s1] eqn:E.
    eapply submit_chunk_spec in E as [Hsafe Hok]; [|exact Ht|exact Hti|done|exact Hlt].
    destruct r1 as [[]|e]; intros [= <- <-]; [|by failed].
    destruct (Hok eq_refl) as (Hinv & Ha & _ & b' & Hsl).
    assert (Hr : running s1).
    { constructor; [done|..].
      - rewrite Ha, Hact, Hsl, (sum_slots_insert _ _ _ _ _ Hti), Hsum.
        rewrite (busy_none (slot <| sl_batch := None |>)) by done.
        match goal with |- context [busy ?x] => rewrite (busy_some x b') by done end. lia.
      - intros _ j x. rewrite Hsl, Hslots, list_insert_insert_eq, list_lookup_insert_Some.
        intros [(_ & <- & _)|[_ Hx]]; [by eexists|]. eapply (ru_busy _ Hrun); [lia|exact Hx].
      - intros _ E%(f_equal length). rewrite Hsl, Hslots, !length_insert in E. cbn in E. lia. }
    split; [|intros _; by apply running_cursor]. by apply loop_inv_safe, loop_inv_cursor, ru_inv.
  - intros [= <- <-].
    assert (Hr : running (t <| d_active := d_active t - 1 |>)).
    { constructor.
      - by destruct Ht.
      - change (d_active t - 1 = sum_slots busy (d_slots t)). lia.
      - intros Hlt. change (d_next_chunk t < n_chunks) in Hlt. lia.
      - intros _ E%(f_equal length). cbn [d_slots update] in E. rewrite Hslots, length_insert in E. cbn in E. lia. }
    split; [|intros _; by apply running_cursor]. by apply loop_inv_safe, loop_inv_cursor, ru_inv.
Qed.

Lemma complete_slot_spec (s : state) i slot b done w1 m1 r s' :
  running s -> d_slots s !! i = Some slot -> sl_batch slot = Some b ->
  in_flight w1 = delete b (in_flight (d_world s)) ->
  (done_got done = dp_length (sl_part slot) ->
   holds obj m1 (done_buffer done) (dp_length (sl_part slot)) (window_offset l + dp_offset (sl_part slot))) ->
  complete_slot error_message l destination settings i slot b done
    (s <| d_world := w1 |> <| d_memory := m1 |>) = (r, s') ->
  safe s' /\ (r = Ok tt -> running s').
Proof using size_ok window chunk_ok.
  intros Hrun Hs Hb Hw Hm. pose proof (ru_inv _ Hrun) as Hi. pose proof (loop_inv_safe _ Hi) as Hsafe.
  destruct (li_slots _ Hi _ _ Hs _ Hb) as ((c0 & Hc0 & Hp0) & _). pose proof (li_next _ Hi) as Hn.
  destruct (li_file _ Hi) as (d & Hd & Hd1 & _). set (s1 := s <| d_world := w1 |> <| d_memory := m1 |>).
  assert (Hsafe1 : safe s1).
  { apply (safe_step s); [done..| |apply only_changes_refl|by exists d]. intros b'. cbn. rewrite Hw.
    rewrite lookup_delete_is_Some. by intros [_ ?]. }
  unfold complete_slot. destruct (_ || negb (done_got done =? _)) eqn:Eg; [intros [= <- <-]; by failed|].
  apply orb_false_iff in Eg as [_ Egot%negb_false_iff%Z.eqb_eq]. specialize (Hm Egot).
  pose proof (chunk_part_spec c0 ltac:(lia)) as (Hoff & _ & _). rewrite <-Hp0 in Hoff.
  assert (Hoff0 : 0 <= dp_offset (sl_part slot)).
  { rewrite Hoff. unfold boundary. pose proof head_bounds. nia. }
  destruct (write_output _ _ _ _ _) as [r2 s2] eqn:E2.
  eapply write_output_spec in E2 as (f2 & -> & Hc2 & d2 & Hd2 & Hov); [|exact Hd|exact Hoff0].
  destruct (li_output _ Hi) as [Htmp Hdst]. cbn in Hc2. rewrite Htmp in Hc2. cbn in Hd2.
  assert (Hsafe2 : safe (s1 <| d_files := f2 |>)).
  { apply (safe_step s1); [done..|exact Hc2|by exists d2]. }
  destruct r2 as [[]|e2]; [|intros [= <- <-]; by failed].
  destruct (report_progress _ _ _) as [r3 s3] eqn:E3.
  apply report_progress_spec in E3 as (w3 & -> & Hw3).
  match type of Hw3 with _ = in_flight (d_world ?x) => set (s2 := x) in * end.
  assert (Hsafe3 : safe (s2 <| d_world := w3 |>)).
  { apply (safe_step (s1 <| d_files := f2 |>)); [done..| |apply only_changes_refl|by exists d2].
    intros b'. cbn. by rewrite Hw3. }
  destruct r3 as [[]|e3]; [|intros [= <- <-]; by failed].
  destruct (dl_stats _ _) as [r4 w4] eqn:E4. apply stats_law in E4. cbn in E4.
  assert (Hw4 : in_flight w4 = delete b (in_flight (d_world s))) by (rewrite E4, Hw3; exact Hw).
  destruct r4 as [st|e4].
  2:{ intros [= <- <-]. split; [|discriminate].
      apply (safe_step (s2 <| d_world := w3 |>)); [done..| |apply only_changes_refl|by exists d2].
      intros b'. cbn. by rewrite E4. }
  match goal with |- context [d_next_chunk ?x <? _] => set (t := x) end.
  assert (Ht : loop_inv t).
  { apply (release_inv s t i slot b); try done.
    - cbn. rewrite free_law, Hw4. apply delete_delete_eq.
    - apply Hi.
    - cbn. rewrite Egot. apply add_saturated_small. by apply (downloaded_fits _ i slot b).
    - cbn. intros dx c Hc Hp Hdx Hdx1. exists d2.
      destruct Hd as [_ _ Hx _ _ _ _]. destruct Hdx as [_ _ Hy _ _ _ _]. rewrite Hx in Hy.
      injection Hy as <-. rewrite Hp in Hov, Hm.
      destruct (chunk_written _ _ _ _ _ _ Hc eq_refl Hd1 Hm Hov) as (? & _ & ? & ?). by split_and!. }
  by apply (next_chunk_spec s t i slot b).
Qed.

(** ** The loop *)

Lemma running_world (s : state) w m :
  running s -> in_flight w = in_flight (d_world s) -> running (s <| d_world := w |> <| d_memory := m |>).
Proof.
  intros [[] Ha Hb Hs] Hw. constructor; [|done..]. constructor; try done; cbn; rewrite ?Hw; try done.
  intros i slot Hx b Hbt. cbn. rewrite Hw. by apply li_slots0.
Qed.

Lemma visit_spec step waited completed (s : state) r s' :
  running s -> visit error_message l destination settings step waited completed s = (r, s') ->
  safe s' /\ forall p, r = Ok p -> running s'.
Proof using size_ok window chunk_ok.
  intros Hrun. assert (Hsafe : safe s) by apply loop_inv_safe, Hrun. unfold visit.
  destruct (d_slots s !! _) as [slot|] eqn:Hs; [|by intros [= <- <-]].
  destruct (sl_batch slot) as [b|] eqn:Hb; [|by intros [= <- <-]].
  destruct (li_slots _ (ru_inv _ Hrun) _ _ Hs _ Hb) as (_ & etag & Hreq).
  destruct (dl_next _ _ _ _) as [[[[st done] text] w1] m1] eqn:E.
  pose proof (next_law _ _ _ _ _ _ _ _ _ _ E Hreq) as Hlaw.
  destruct (decide (st = KARU_OK)) as [->|Est].
  - rewrite bool_decide_eq_true_2 in Hlaw by done. destruct Hlaw as [Hw Hm].
    rewrite bool_decide_eq_false_2, bool_decide_eq_true_2 by done. cbn [negb].
    assert (Hsafe1 : safe (s <| d_world := w1 |> <| d_memory := m1 |>)).
    { apply (safe_step s); [done..| |apply only_changes_refl|by destruct Hsafe]. intros b'. cbn. rewrite Hw.
      rewrite lookup_delete_is_Some. by intros [_ ?]. }
    case_bool_decide as Ed; cbn [negb]; [|intros [= <- <-]; by failed].
    destruct (complete_slot _ _ _ _ _ _ _ _ _) as [rc sc] eqn:Ec.
    eapply complete_slot_spec in Ec as [Hsc Hok]; [|done..|exact (Hm Ed)].
    destruct rc as [[]|e]; intros [= <- <-]; [|by failed]. split; [done|]. intros _ _. by apply Hok.
  - rewrite bool_decide_eq_false_2 in Hlaw by done. rewrite (bool_decide_eq_false_2 (st = KARU_OK)) by done.
    pose proof (running_world _ _ m1 Hrun Hlaw) as Hr1.
    assert (Hsafe1 : safe (s <| d_world := w1 |> <| d_memory := m1 |>)) by apply loop_inv_safe, Hr1.
    destruct (bool_decide (st = KARU_TIMEOUT)); intros [= <- <-]; [by split|by failed].
Qed.

Lemma visits_spec steps : forall waited completed (s : state) r s',
  running s -> visits error_message l destination settings steps waited completed s = (r, s') ->
  safe s' /\ forall p, r = Ok p -> running s'.
Proof using size_ok window chunk_ok.
  induction steps as [|step steps IH]; intros waited completed s r s' Hrun; cbn [visits].
  - intros [= <- <-]. split; [|done]. apply loop_inv_safe, Hrun.
  - destruct (visit _ _ _ _ _ _ _ _) as [[[w c]|e] s1] eqn:E; apply visit_spec in E as [Hs Hok]; try done.
    + apply IH. by eapply Hok.
    + intros [= <- <-]. by failed.
Qed.

Lemma rounds_spec fuel : forall (s : state) r s',
  running s -> rounds error_message l destination settings fuel s = Some (r, s') ->
  safe s' /\ (r = Ok tt -> running s' /\ d_active s' <= 0).
Proof using size_ok window chunk_ok.
  induction fuel as [|fuel IH]; intros s r s' Hrun; cbn [rounds]; [done|].
  destruct (Z.ltb_spec 0 (d_active s)).
  2:{ intros [= <- <-]. split; [|done]. apply loop_inv_safe, Hrun. }
  destruct (visits _ _ _ _ _ _ _ _) as [[c|e] s1] eqn:E; apply visits_spec in E as [Hs Hok]; try done.
  - apply IH. specialize (Hok _ eq_refl). destruct c; [done|by apply running_cursor].
  - intros [= <- <-]. by failed.
Qed.

Lemma idle_sum slots :
  (forall i slot, slots !! i = Some slot -> sl_batch slot = None) -> sum_slots bytes_due slots = 0.
Proof.
  induction slots as [|x xs IH]; intros Hidle; [done|].
  change (bytes_due x + sum_slots bytes_due xs = 0). rewrite (idle_due x) by (by apply (Hidle 0%nat)).
  rewrite IH; [done|]. intros i slot Hs. by apply (Hidle (S i)).
Qed.

(** With no slot busy, the file is complete. *)
Lemma loop_done (s : state) : running s -> d_active s <= 0 ->
  exists d, holds_file (d_output s) (d_files s) file d /\ d.1 = vis /\ in_file d 0 vis /\
    s_downloaded (d_summary s) = vis.
Proof using size_ok window chunk_ok.
  intros Hrun Hact. pose proof (ru_inv _ Hrun) as Hi. rewrite (ru_active _ Hrun) in Hact.
  assert (Hidle : forall i slot, d_slots s !! i = Some slot -> sl_batch slot = None).
  { intros i slot Hs. destruct (sl_batch slot) as [b|] eqn:Eb; [|done]. exfalso.
    pose proof (sum_slots_insert busy _ _ _ (slot <| sl_batch := None |>) Hs) as E.
    rewrite (busy_some _ _ Eb), (busy_none (slot <| sl_batch := None |>)) in E by done.
    assert (0 <= sum_slots busy (<[i := slot <| sl_batch := None |>]> (d_slots s))); [|lia].
    apply sum_slots_nonneg, Forall_true. intros x. unfold busy. destruct (sl_batch x); lia. }
  assert (Hnext : d_next_chunk s = n_chunks).
  { pose proof (li_next _ Hi). destruct (decide (d_next_chunk s < n_chunks)) as [Hlt|]; [exfalso|lia].
    pose proof (ru_some _ Hrun ltac:(lia)) as Hne. destruct (d_slots s) as [|x xs] eqn:Ex; [done|].
    assert (Hx : d_slots s !! 0%nat = Some x) by (by rewrite Ex).
    destruct (ru_busy _ Hrun Hlt _ _ Hx) as [b Hb]. by rewrite (Hidle 0%nat) in Hb by (by rewrite <-Ex). }
  destruct (li_file _ Hi) as (d & Hd & Hd1 & Hhead & Hch). exists d. split_and!; [done|done| |].
  - intros k Hk. destruct (decide (k < head)); [apply Hhead; lia|].
    destruct (chunk_of k ltac:(lia)) as (c & Hc & Hkc).
    destruct (Hch c ltac:(lia)) as [(i & slot & Hs & [b Hb] & _)|Hf]; [by rewrite (Hidle _ _ Hs) in Hb|by apply Hf].
  - pose proof (li_downloaded _ Hi) as Hdown. rewrite Hnext in Hdown.
    rewrite (idle_sum _ Hidle) in Hdown.
    pose proof chunks_cover as (_ & Hge & _). unfold boundary in Hdown. lia.
Qed.

(** ** The start *)

Lemma idle_safe (s : state) d :
  in_flight (d_world s) = ∅ -> temporary (d_output s) = private -> destination_ (d_output s) = destination ->
  holds_file (d_output s) (d_files s) file d -> only_changes private file f0 (d_files s) -> safe s.
Proof.
  intros Hw Ht Hd Hh Hf. constructor; [|done|by exists d|done]. intros b. rewrite Hw, lookup_empty. by intros [? ?].
Qed.

Lemma first_bytes (m : memory) a d d' (ok : Prop) :
  ok -> d.1 = vis -> holds obj m a (Z.min (probe_capacity settings) vis) (window_offset l) ->
  overwrites (mem_read m a head) 0 0 ok d d' -> d'.1 = vis /\ in_file d' 0 head.
Proof using size_ok window chunk_ok.
  intros Hok Hd Hm [Hs _ Hi]. specialize (Hi Hok). pose proof head_bounds.
  rewrite mem_read_length in Hs by lia. split; [lia|]. intros k Hk.
  replace k with (0 + Z.of_nat (Z.to_nat k)) at 1 by lia.
  rewrite Hi by (pose proof (mem_read_length m a head); lia).
  rewrite mem_read_nth by lia. apply Hm. unfold probe_length in Hk. lia.
Qed.

Lemma first_inv (t : state) d :
  d_slots t = [] -> d_next_chunk t = 0 -> in_flight (d_world t) = ∅ ->
  temporary (d_output t) = private -> destination_ (d_output t) = destination ->
  holds_file (d_output t) (d_files t) file d -> d.1 = vis -> in_file d 0 head ->
  only_changes private file f0 (d_files t) -> s_size (d_summary t) = vis ->
  s_downloaded (d_summary t) = head -> loop_inv t.
Proof using size_ok window chunk_ok.
  intros Hsl Hn Hw Ht Hd Hh Hd1 Hhead Hf Hsize Hdown. pose proof head_bounds. pose proof chunks_cover.
  constructor; rewrite ?Hsl, ?Hn, ?Hw; try done.
  - intros b. rewrite lookup_empty. by intros [? ?].
  - exists d. split_and!; [done..|]. intros c Hc. lia.
  - lia.
  - rewrite Hdown. unfold boundary. cbn. lia.
Qed.

Lemma read_first_spec probe (s : state) r s' :
  d_slots s = [] -> d_next_chunk s = 0 -> d_summary s = DownloadSummary_default ->
  in_flight (d_world s) = ∅ -> temporary (d_output s) = private -> destination_ (d_output s) = destination ->
  holds_file (d_output s) (d_files s) file (0, zeros) -> only_changes private file f0 (d_files s) ->
  read_first error_message destination settings probe s = (r, s') ->
  safe s' /\ (r = Ok tt -> loop_inv s' /\ d_slots s' = [] /\ d_next_chunk s' = 0).
Proof using size_ok window chunk_ok.
  intros Hsl Hn Hsum Hw Ht Hdst Hh Hc. unfold read_first.
  assert (Hsafe : safe s) by (by eapply idle_safe).
  destruct probe as [p|]; [|intros [= <- <-]; by failed].
  destruct (dl_read_head _ _ _) as [[rep w1] m1] eqn:E.
  apply read_head_law in E as [Hw1 Hok];
    [|unfold is_u64, probe_capacity, kProbeSize; cbn; lia].
  set (s1 := s <| d_world := w1 |> <| d_memory := m1 |>).
  assert (Hw1' : in_flight (d_world s1) = ∅) by (cbn; by rewrite Hw1).
  destruct rep as [[o st]|e]; [|intros [= <- <-]; split; [by apply (idle_safe s1 (0, zeros))|discriminate]].
  destruct (Hok o st eq_refl) as [Hsize Hbytes]. cbn in Hbytes.
  match goal with |- context [d_summary ?x] =>
    match x with context [add_stats] => set (s2 := x) end end.
  assert (Hs2 : s_size (d_summary s2) = vis /\ s_downloaded (d_summary s2) = 0)
    by (cbn; rewrite Hsum; by split).
  destruct Hs2 as [Hsize2 Hdown2]. rewrite !Hsize2.
  destruct (resize _ _ _) as [e f2] eqn:Er. eapply resize_spec in Er as (Hr0 & Hcr & Hre); [|exact Hh].
  cbn [d_output update] in *. change (d_output s2) with (d_output s) in *. change (d_files s2) with (d_files s) in *.
  rewrite Ht in Hcr.
  assert (Hc2 : only_changes private file f0 f2) by (by eapply only_changes_trans).
  destruct (Z.eqb_spec e 0) as [->|He]; cbn [negb].
  2:{ intros [= <- <-]. split; [|discriminate]. apply (idle_safe _ (0, zeros)); try done. by apply Hre. }
  specialize (Hr0 eq_refl). set (s3 := s2 <| d_files := f2 |>).
  change (s_size (d_summary s3)) with (s_size (d_summary s2)). rewrite Hsize2.
  change (d_memory s3) with m1.
  destruct (Z.ltb_spec 0 head) as [Hpos|Hpos].
  - destruct (write_output _ _ _ _ _) as [r4 s4] eqn:E4.
    eapply write_output_spec in E4 as (f4 & -> & Hc4 & d4 & Hd4 & Hov); [|exact Hr0|lia].
    change (temporary (d_output s3)) with (temporary (d_output s)) in Hc4. rewrite Ht in Hc4.
    assert (Hc4' : only_changes private file f0 f4) by (by eapply only_changes_trans).
    assert (Hsafe4 : safe (s3 <| d_files := f4 |>)) by (by apply (idle_safe _ d4)).
    destruct r4 as [[]|e]; [|intros [= <- <-]; by failed].
    intros E5. apply report_progress_spec in E5 as (w5 & -> & Hw5). cbn in Hw5. rewrite Hw1, Hw in Hw5.
    assert (Hf : d4.1 = vis /\ in_file d4 0 head)
      by (by apply (first_bytes m1 p (resized (0, zeros) vis) d4 (Ok tt = Ok tt :> answer unit))).
    destruct Hf as [Hd1 Hhead].
    assert (Hi : loop_inv (s3 <| d_files := f4 |> <| d_summary := (d_summary (s3 <| d_files := f4 |>))
      <| s_downloaded := head |> |> <| d_world := w5 |>)) by (by apply (first_inv _ d4)).
    split; [by apply loop_inv_safe|]. by intros _.
  - intros [= <- <-]. pose proof head_bounds.
    assert (Hi : loop_inv s3).
    { apply (first_inv _ (resized (0, zeros) vis)); try done; [intros k Hk; lia|].
      change (s_downloaded (d_summary s2) = head). lia. }
    split; [by apply loop_inv_safe|]. by intros _.
Qed.

Lemma make_slots_spec n buffers : forall slots, make_slots n buffers = Some slots ->
  length slots = n /\
  forall i slot, slots !! i = Some slot -> buffers i = Some (sl_buffer slot) /\ sl_batch slot = None.
Proof.
  induction n as [|n IH]; intros slots; cbn [make_slots]; [by intros [= <-]|].
  destruct (make_slots n buffers) as [ss|]; [|done]. destruct (buffers n) as [b|] eqn:Eb; [|done].
  intros [= <-]. destruct (IH _ eq_refl) as [Hlen Hss]. split; [rewrite length_app; cbn; lia|].
  intros i slot [Hs|[Hi Hs]]%lookup_app_Some; [by apply Hss|].
  apply list_lookup_singleton_Some in Hs as [Hi0 <-]. replace i with n by lia. by split.
Qed.

Variable buffers : nat -> option Z.
Hypothesis buffers_apart : forall i j a b, i <> j -> buffers i = Some a -> buffers j = Some b ->
  disjoint (mkSpan a (slot_capacity settings vis)) (mkSpan b (slot_capacity settings vis)).

Lemma with_slots (s : state) slots n :
  loop_inv s -> d_slots s = [] -> d_next_chunk s = 0 -> make_slots n buffers = Some slots ->
  loop_inv (s <| d_slots := slots |> <| d_next_chunk := 0 |>).
Proof using size_ok window chunk_ok buffers_apart.
  intros Hi Hsl Hn Hm. apply make_slots_spec in Hm as [_ Hm]. pose proof chunks_cover.
  constructor; try apply Hi.
  - intros b Hb. destruct (li_flight _ Hi b Hb) as (i & slot & Hx & _). by rewrite Hsl in Hx.
  - destruct (li_file _ Hi) as (d & Hd & Hd1 & Hh & _). exists d. split_and!; [done..|].
    intros c Hc. cbn in Hc. lia.
  - intros i slot Hx b Hb. cbn in Hx. destruct (Hm _ _ Hx). congruence.
  - intros i j a b Ha Hb Hne. cbn in Ha, Hb. apply Hm in Ha as [Ha _]. apply Hm in Hb as [Hb _].
    by eapply buffers_apart.
  - cbn. lia.
  - pose proof (li_downloaded _ Hi) as Hd. rewrite Hsl, Hn in Hd.
    change (s_downloaded (d_summary s) + sum_slots bytes_due slots = boundary 0).
    rewrite idle_sum by (intros i slot Hx; by destruct (Hm _ _ Hx)). exact Hd.
Qed.

Lemma submit_first_spec n : forall k (s : state) r s',
  loop_inv s -> d_next_chunk s = Z.of_nat k -> length (d_slots s) = (k + n)%nat ->
  Z.of_nat (k + n) <= n_chunks ->
  (forall j slot, d_slots s !! j = Some slot -> if decide (j < k)%nat then is_Some (sl_batch slot) else sl_batch slot = None) ->
  submit_first l settings (seq k n) s = (r, s') ->
  safe s' /\ (r = Ok tt -> loop_inv s' /\ length (d_slots s') = (k + n)%nat /\
    forall j slot, d_slots s' !! j = Some slot -> is_Some (sl_batch slot)).
Proof using size_ok window chunk_ok.
  induction n as [|n IH]; intros k s r s' Hi Hn Hlen Hk Hb; cbn [seq submit_first].
  - intros [= <- <-]. split; [by apply loop_inv_safe|]. intros _. split_and!; [done|done|].
    intros j slot Hs. specialize (Hb _ _ Hs). apply lookup_lt_Some in Hs. rewrite decide_True in Hb by lia. done.
  - destruct (lookup_lt_is_Some_2 (d_slots s) k ltac:(lia)) as [slot Hs].
    pose proof (Hb _ _ Hs) as Hidle. rewrite decide_False in Hidle by lia.
    destruct (submit_chunk _ _ _ _) as [[[]|e] s1] eqn:E;
      eapply submit_chunk_spec in E as [Hsafe Hok]; try done; try lia;
      [|intros [= <- <-]; by failed].
    destruct (Hok eq_refl) as (Hi1 & _ & Hn1 & b & Hsl1). replace (k + S n)%nat with (S k + n)%nat in * by lia.
    apply IH; [done| |by rewrite Hsl1, length_insert|done|].
    + lia.
    + intros j slot'. rewrite Hsl1, list_lookup_insert_Some.
      intros [(<- & <- & _)|[Hne Hx]]; [rewrite decide_True by lia; by eexists|].
      specialize (Hb _ _ Hx). destruct (decide (j < k)%nat), (decide (j < S k)%nat); try done; lia.
Qed.

Lemma all_busy slots : (forall j slot, slots !! j = Some slot -> is_Some (sl_batch slot)) ->
  sum_slots busy slots = Z.of_nat (length slots).
Proof.
  induction slots as [|x xs IH]; intros Hb; [done|].
  change (busy x + sum_slots busy xs = Z.of_nat (S (length xs))).
  destruct (Hb 0%nat x eq_refl) as [b Eb]. rewrite (busy_some _ _ Eb), IH; [lia|].
  intros j slot Hj. by apply (Hb (S j)).
Qed.

Lemma start_slots_spec (s : state) r s' :
  loop_inv s -> d_slots s = [] -> d_next_chunk s = 0 ->
  start_slots l settings buffers s = (r, s') -> safe s' /\ (r = Ok tt -> running s').
Proof using size_ok window chunk_ok parallelism_ok buffers_apart.
  intros Hi Hsl Hn. unfold start_slots. rewrite (li_size _ Hi).
  destruct (make_slots _ _) as [slots|] eqn:Em.
  2:{ intros [= <- <-]. split; [by apply loop_inv_safe|discriminate]. }
  pose proof (with_slots _ _ _ Hi Hsl Hn Em) as Hi1. apply make_slots_spec in Em as [Hlen Hslots].
  pose proof chunks_cover as (Hn0 & _ & _).
  destruct (submit_first _ _ _ _) as [[[]|e] s1] eqn:E;
    (eapply submit_first_spec in E as [Hsafe Hok]; [|exact Hi1|done|done| |]).
  2, 5: rewrite Hlen; unfold slot_count; lia.
  2, 4: intros j slot Hs; cbn in Hs; destruct (Hslots _ _ Hs); rewrite decide_False by lia; done.
  2: { intros [= <- <-]. by failed. }
  destruct (Hok eq_refl) as (Hi2 & Hlen2 & Hbusy). intros [= <- <-].
  assert (Hr : running (s1 <| d_active := Z.of_nat (length (d_slots s1)) |> <| d_wait_cursor := O |>)).
  { constructor; [by destruct Hi2| |by intros _|].
    - change (Z.of_nat (length (d_slots s1)) = sum_slots busy (d_slots s1)). by rewrite all_busy.
    - intros Hpos E%(f_equal length). cbn [d_slots update] in E. rewrite Hlen2, Hlen in E.
      unfold slot_count in E. cbn [length] in E. lia. }
  split; [|by intros _]. by apply loop_inv_safe, ru_inv.
Qed.

(** ** Leaving *)

Lemma free_slots_flight slots : forall w b,
  is_Some (in_flight (free_slots slots w) !! b) ->
  is_Some (in_flight w !! b) /\ forall slot, slot ∈ slots -> sl_batch slot <> Some b.
Proof.
  induction slots as [|x xs IH]; intros w b; cbn; [by intros ?; split; [|intros ? ?%not_elem_of_nil]|].
  intros Hb. apply IH in Hb as [Hw Hxs].
  assert (Hx : is_Some (in_flight w !! b) /\ sl_batch x <> Some b).
  { destruct (sl_batch x) as [c|]; [|done]. rewrite free_law, lookup_delete_is_Some in Hw.
    destruct Hw. split; congruence. }
  split; [apply Hx|]. intros slot [->|Hs]%elem_of_cons; [apply Hx|by apply Hxs].
Qed.

(** Nothing is in flight, and at most the private name differs. *)
Lemma leave_spec (s : state) r res w' m' f' :
  safe s -> leave r s = (res, w', m', f') ->
  in_flight w' = ∅ /\ only_changes private file f0 f'.
Proof.
  intros Hsafe [= _ <- _ <-]. split.
  - apply map_empty. intros b. destruct (in_flight _ !! b) eqn:E; [|done]. exfalso.
    destruct (free_slots_flight (d_slots s) (d_world s) b ltac:(by eexists)) as [Hw Hn].
    destruct (sf_flight _ Hsafe b Hw) as (i & slot & Hs & Hb).
    by apply (Hn slot); [eapply list_elem_of_lookup_2|].
  - destruct (dispose_output_spec (d_output s) (d_files s)) as (Hd & _ & Hn).
    destruct (sf_files _ Hsafe) as [H1 H2]. destruct (sf_output _ Hsafe) as [Ht _]. rewrite Ht in Hn.
    split; [intros q Hq; rewrite Hn by done; by apply H1|intros j Hj; rewrite Hd; by apply H2].
Qed.
End Loop.

(** ** The whole download *)

Variable pid : Z.
Variable numbers : nat -> Z.
Variable probe : option Z.
Variable slot_buffers : nat -> option Z.
Hypothesis slots_apart : forall i j a b, i <> j -> slot_buffers i = Some a -> slot_buffers j = Some b ->
  disjoint (mkSpan a (slot_capacity settings vis)) (mkSpan b (slot_capacity settings vis)).

(** No file that existed changes, and no name but the private one and those in
    [but]. *)
Definition leaves_alone (but : str -> Prop) (f f' : F) : Prop :=
  (forall q, ~ but q -> (forall n, q <> temporary_name destination pid n) ->
     names f' !! q = names f !! q) /\
  (forall j d, data f !! j = Some d -> data f' !! j = Some d).

(** The destination is the object. *)
Definition published (f' : F) : Prop :=
  exists i d, names f' !! destination = Some i /\ data f' !! i = Some d /\ d.1 = vis /\ in_file d 0 vis.

Definition outcome (f : F) (r : answer DownloadSummary) (w' : W) (f' : F) : Prop :=
  in_flight w' = ∅ /\
  match r with
  | Ok summary =>
      s_size summary = vis /\ s_downloaded summary = vis /\ published f' /\
      (overwrite settings = false -> names f !! destination = None) /\
      leaves_alone (fun q => q = destination) f f'
  | Err _ =>
      leaves_alone (fun _ => False) f f' /\
      (forall q i, names f !! q = Some i -> names f' !! q = Some i)
  end.

Lemma failed_outcome f private file (s : state) e r w' m' f' :
  (exists n, private = temporary_name destination pid n) -> names f !! private = None ->
  data f !! file = None -> safe f private file s -> leave (Err e) s = (r, w', m', f') ->
  outcome f r w' f'.
Proof.
  intros [n Hn] Hnone Hfile Hsafe E. pose proof E as E'. apply (leave_spec f private file) in E as [Hw [H1 H2]]; [|done].
  injection E' as <- _ _ _. split; [done|]. split; [split|].
  - intros q _ Hq. apply H1. by rewrite Hn.
  - intros j d Hj. rewrite H2; [done|]. intros ->. congruence.
  - intros q i Hq. rewrite H1; [done|]. intros ->. congruence.
Qed.

Lemma publish_outcome f private file (s : state) r s' res w' m' f' :
  (exists n, private = temporary_name destination pid n) -> names f !! private = None ->
  data f !! file = None -> (overwrite settings = false -> names f !! destination = None) ->
  running f private file s -> d_active s <= 0 ->
  publish_output error_message destination settings s = (r, s') -> leave r s' = (res, w', m', f') ->
  outcome f res w' f'.
Proof using size_ok window chunk_ok.
  intros Hpriv Hnone Hfile Hover Hrun Hact. pose proof (loop_inv_safe _ _ _ _ (ru_inv _ _ _ _ Hrun)) as Hsafe.
  destruct (loop_done _ _ _ _ Hrun Hact) as (d & Hd & Hd1 & Hall & Hdown).
  pose proof (li_size _ _ _ _ (ru_inv _ _ _ _ Hrun)) as Hsize. destruct Hsafe as [Hfl [Ht Hdst] _ [H1 H2]].
  unfold publish_output. destruct (publish _ _ _) as [[e o] fp] eqn:E.
  eapply publish_spec in E as [Hfd Hp]; [|exact Hd]. rewrite Ht, Hdst in Hp.
  set (s1 := s <| d_output := o |> <| d_files := fp |>).
  assert (Hempty : in_flight (free_slots (d_slots s1) (d_world s1)) = ∅).
  { apply map_empty. intros b. destruct (in_flight _ !! b) eqn:Eb; [|done]. exfalso.
    destruct (free_slots_flight (d_slots s) (d_world s) b ltac:(by eexists)) as [Hw Hn].
    destruct (Hfl b Hw) as (i & slot & Hs & Hb). by apply (Hn slot); [eapply list_elem_of_lookup_2|]. }
  destruct (dispose_output_spec o fp) as (Hdd & Hdn & Hdq).
  destruct Hpriv as [n Hpriv].
  destruct (Z.eqb_spec e 0) as [->|He].
  - intros [= <- <-] [= <- <- <- <-]. split; [exact Hempty|]. cbn [d_summary update].
    destruct Hp as [Htmp (Hname & Hdata & _ & Hothers)]. specialize (Hdn Htmp).
    split_and!; [exact Hsize|exact Hdown| |done|split].
    + exists file, d. rewrite Hdn, Hdd, Hdata. destruct Hd. by split_and!.
    + intros q Hq Hqn. cbn. rewrite Hdn, Hothers by (try done; rewrite Hpriv; apply Hqn).
      apply H1. by rewrite Hpriv.
    + intros j x Hj. cbn. rewrite Hdd, Hdata, H2; [done|]. intros ->. congruence.
  - destruct Hp as (Htmp & Hn & Hdata). intros [= <- <-] [= <- <- <- <-]. split; [exact Hempty|].
    cbn [d_output d_files update]. rewrite Htmp in Hdq.
    split; [split|].
    + intros q _ Hq. cbn. rewrite Hdq, Hn by (rewrite Hpriv; apply Hq). apply H1. by rewrite Hpriv.
    + intros j x Hj. cbn. rewrite Hdd, Hdata, H2; [done|]. intros ->. congruence.
    + intros q i Hq. cbn. assert (q <> private) by (intros ->; congruence). by rewrite Hdq, Hn, H1.
Qed.

Lemma download_outcome fuel w m f r w' m' f' :
  in_flight w = ∅ ->
  download error_message l destination settings pid numbers probe slot_buffers fuel w m f
    = Some (r, w', m', f') ->
  outcome f r w' f'.
Proof using size_ok window chunk_ok parallelism_ok slots_apart.
  intros Hw. unfold download. destruct (create_near _ _ _ _ _ _) as [[e o] f1] eqn:Ec.
  apply create_near_spec in Ec as [(-> & Hd & Hover & Hname & i & Hi & Hnone & Hh & Hc)|(He & Hfd & Ht & Hv)].
  - change (0 =? EEXIST) with false. cbn [negb Z.eqb].
    destruct (read_first _ _ _ _ _) as [r1 s1] eqn:E1.
    eapply (read_first_spec f (temporary o) i) in E1 as [Hs1 Hok1]; [|done..].
    destruct r1 as [[]|e1]; [|intros E%(inj Some); eapply failed_outcome; [exact Hname|exact Hnone|exact Hi|exact Hs1|exact E]].
    destruct (Hok1 eq_refl) as (Hi1 & Hsl1 & Hn1).
    destruct (start_slots _ _ _ _) as [r2 s2] eqn:E2.
    eapply (start_slots_spec f (temporary o) i slot_buffers slots_apart) in E2 as [Hs2 Hok2]; [|done..].
    destruct r2 as [[]|e2]; [|intros E%(inj Some); eapply failed_outcome; [exact Hname|exact Hnone|exact Hi|exact Hs2|exact E]].
    destruct (rounds _ _ _ _ _ _) as [[r3 s3]|] eqn:E3; [|done].
    eapply (rounds_spec f (temporary o) i) in E3 as [Hs3 Hok3]; [|by apply Hok2].
    destruct r3 as [[]|e3]; [|intros E%(inj Some); eapply failed_outcome; [exact Hname|exact Hnone|exact Hi|exact Hs3|exact E]].
    destruct (Hok3 eq_refl) as [Hrun Hact].
    destruct (publish_output _ _ _ _) as [r4 s4] eqn:E4. intros E%(inj Some).
    by eapply publish_outcome.
  - set (s0 := mkState _ _ _ _ _ _ _ _ _).
    assert (Hleave : forall e1, leave (Err e1) s0 = (r, w', m', f') -> outcome f r w' f').
    { intros e1 [= <- <- _ <-]. split; [exact Hw|].
      destruct (dispose_output_spec o f1) as (Hdd & Hdn & _). specialize (Hdn Ht).
      unfold leaves_alone. rewrite Hdd, Hdn, Hv. by split. }
    destruct (e =? EEXIST); [|rewrite (proj2 (Z.eqb_neq _ _) He)]; intros E%(inj Some); exact (Hleave _ E).
Qed.

(** C5: a successful download is the object: the destination names a file of
    exactly the visible bytes of the object, whatever the sizes of the chunks,
    their number in flight and the order they complete in, the summary counts
    exactly them, and an existing destination was only replaced when the
    caller asked for it; no other file and no other name changed (but a
    private name that could not be removed), and no transfer is left in
    flight. *)
Theorem download_publishes_the_object fuel w m f summary w' m' f' :
  in_flight w = ∅ ->
  download error_message l destination settings pid numbers probe slot_buffers fuel w m f
    = Some (Ok summary, w', m', f') ->
  published f' /\ s_size summary = vis /\ s_downloaded summary = vis /\
  (overwrite settings = false -> names f !! destination = None) /\
  leaves_alone (fun q => q = destination) f f' /\ in_flight w' = ∅.
Proof using size_ok window chunk_ok parallelism_ok slots_apart.
  intros Hw E. destruct (download_outcome _ _ _ _ _ _ _ _ Hw E) as (H1 & H2 & H3 & H4 & H5 & H6).
  by split_and!.
Qed.

(** C11: a failed download leaves no trace: whatever failed, at whatever point,
    every name still names the file it named and every file still has its
    bytes, the only new name there can be is a private one that could not be
    removed, and no transfer is left in flight that could write into a freed
    buffer. *)
Theorem failed_download_leaves_no_trace fuel w m f e w' m' f' :
  in_flight w = ∅ ->
  download error_message l destination settings pid numbers probe slot_buffers fuel w m f
    = Some (Err e, w', m', f') ->
  leaves_alone (fun _ => False) f f' /\
  (forall q i, names f !! q = Some i -> names f' !! q = Some i) /\ in_flight w' = ∅.
Proof using size_ok window chunk_ok parallelism_ok slots_apart.
  intros Hw E. destruct (download_outcome _ _ _ _ _ _ _ _ Hw E) as (H1 & H2 & H3). by split_and!.
Qed.

(** ** The download ends

    As long as each batch completes: [patience] bounds how often a wait for a
    completion can still time out. *)

Section Liveness.
Variable patience : W -> nat.
Hypothesis next_patience : forall b ms w m st done text w' m',
  dl_next b ms w m = (st, done, text, w', m') ->
  (patience w' <= patience w)%nat /\ (st = KARU_TIMEOUT -> (0 < ms)%Z -> patience w' < patience w)%nat.

(** Chunks to submit and chunks in flight. *)
Definition work_left (s : state) : Z := n_chunks - d_next_chunk s + d_active s.

Lemma submit_chunk_moves i slot (s : state) r s' :
  d_slots s !! i = Some slot -> submit_chunk l settings i s = (r, s') ->
  d_next_chunk s' = d_next_chunk s + 1 /\ d_active s' = d_active s.
Proof.
  intros Hs. unfold submit_chunk. rewrite Hs. destruct (dl_submit _ _ _) as [[[b|e] w1] m1];
    intros [= _ <-]; done.
Qed.

Lemma write_output_frame bytes offset (s : state) r s' :
  write_output error_message destination bytes offset s = (r, s') ->
  exists f', s' = s <| d_files := f' |>.
Proof.
  unfold write_output. destruct (write_at _ _ _ _) as [e f1]. destruct (e =? 0); intros [= _ <-]; by exists f1.
Qed.

Lemma complete_slot_moves i slot b done (s s' : state) :
  d_slots s !! i = Some slot ->
  complete_slot error_message l destination settings i slot b done s = (Ok tt, s') ->
  work_left s' = work_left s - 1.
Proof.
  intros Hs. unfold complete_slot. destruct (_ || _); [done|].
  destruct (write_output _ _ _ _ _) as [[[]|] s2] eqn:E2; [|done].
  apply write_output_frame in E2 as [f2 ->].
  destruct (report_progress _ _ _) as [[[]|] s3] eqn:E3; [|done].
  apply report_progress_spec in E3 as (w3 & -> & _).
  destruct (dl_stats _ _) as [[st|] w4]; [|done]. cbv zeta.
  match goal with |- context [d_next_chunk ?x <? _] => set (t := x) end.
  assert (Ht : work_left t = work_left s) by done.
  assert (Hti : d_slots t !! i = Some (slot <| sl_batch := None |>)).
  { cbn. apply list_lookup_insert_eq. by eapply lookup_lt_Some. }
  clearbody t. destruct (_ <? _).
  - destruct (submit_chunk _ _ _ _) as [[[]|] s5] eqn:E5; [|done].
    eapply submit_chunk_moves in E5 as [Hn Ha]; [|exact Hti].
    intros [= <-]. unfold work_left in *. cbn [d_next_chunk d_active update]. lia.
  - intros [= <-]. unfold work_left in *. cbn [d_next_chunk d_active update]. lia.
Qed.

(** A state that only waited. *)
Record waited_from (s s' : state) : Prop := {
  wf_slots : d_slots s' = d_slots s;
  wf_cursor : d_wait_cursor s' = d_wait_cursor s;
  wf_left : work_left s' = work_left s;
  wf_patience : (patience (d_world s') <= patience (d_world s))%nat;
}.

Definition busy_at (s : state) (step : nat) : Prop :=
  exists slot, d_slots s !! ((d_wait_cursor s + step) mod length (d_slots s))%nat = Some slot /\
    is_Some (sl_batch slot).

Lemma visit_progress step waited completed (s s' : state) wt cp :
  visit error_message l destination settings step waited completed s = (Ok (wt, cp), s') ->
  (cp = true /\ work_left s' = work_left s - 1) \/
  (cp = completed /\ waited_from s s' /\ (waited = true -> wt = true) /\
   (wt = true -> waited = false -> patience (d_world s') < patience (d_world s))%nat /\
   (busy_at s step -> wt = true)).
Proof using next_patience DownloaderLaws0.
  unfold visit, busy_at. destruct (d_slots s !! _) as [slot|] eqn:Hs.
  2:{ intros [= <- <- <-]. right. split_and!; [done|by constructor|done|congruence|by intros (? & ? & _)]. }
  destruct (sl_batch slot) as [b|] eqn:Hb.
  2:{ intros [= <- <- <-]. right. split_and!; [done|by constructor|done|congruence|].
      intros (x & [= <-] & [? Hx]). congruence. }
  destruct (dl_next _ _ _ _) as [[[[st done] text] w1] m1] eqn:E. apply next_patience in E as [Hle Hlt].
  case_bool_decide as Et.
  - intros [= <- <- <-]. right. split_and!; [done|by constructor|done| |done].
    intros _ ->. by apply Hlt.
  - case_bool_decide; [|done]. cbn [negb]. case_bool_decide; [|done]. cbn [negb].
    destruct (complete_slot _ _ _ _ _ _ _ _ _) as [[[]|] sc] eqn:Ec; [|done].
    intros [= <- <- <-]. left. split; [done|]. by apply complete_slot_moves in Ec.
Qed.

Lemma waited_trans s1 s2 s3 : waited_from s1 s2 -> waited_from s2 s3 -> waited_from s1 s3.
Proof. intros [] []. constructor; [congruence..|lia]. Qed.

Lemma busy_waited s s' step : waited_from s s' -> busy_at s step -> busy_at s' step.
Proof. intros [Hs Hc _ _]. unfold busy_at. by rewrite Hs, Hc. Qed.

Lemma visits_progress steps : forall waited completed (s s' : state) c,
  visits error_message l destination settings steps waited completed s = (Ok c, s') ->
  (work_left s' < work_left s) \/
  (c = completed /\ waited_from s s' /\
   (waited = false -> (exists step, step ∈ steps /\ busy_at s step) ->
    patience (d_world s') < patience (d_world s))%nat).
Proof using next_patience DownloaderLaws0.
  induction steps as [|step steps IH]; intros waited completed s s' c; cbn [visits].
  { intros [= <- <-]. right. split_and!; [done|by constructor|]. by intros _ (? & ?%not_elem_of_nil & _). }
  destruct (visit _ _ _ _ _ _ _ _) as [[[wt cp]|] s1] eqn:E; [|done].
  apply visit_progress in E as [[-> Hw]|(-> & Hw & Hwt & Hp & Hb)]; intros E1; apply IH in E1.
  - left. destruct E1 as [?|(_ & [] & _)]; lia.
  - destruct E1 as [Hlt|(-> & Hw' & Hp')]; [left; destruct Hw; lia|right].
    split_and!; [done|by eapply waited_trans|]. intros -> (st & Hin & Hbusy).
    destruct Hw as [Hs Hc Hl Hle] eqn:EE; clear EE. destruct Hw' as [_ _ _ Hle'].
    destruct wt; [specialize (Hp eq_refl eq_refl); lia|].
    specialize (Hp' eq_refl). apply elem_of_cons in Hin as [->|Hin]; [by apply Hb in Hbusy|].
    assert (patience (d_world s') < patience (d_world s1))%nat; [|lia].
    apply Hp'. exists st. split; [done|]. eapply busy_waited; [|exact Hbusy]. by constructor.
Qed.

Lemma step_reaches c i n : (i < n)%nat -> exists step, (step < n)%nat /\ ((c + step) mod n)%nat = i.
Proof.
  intros Hi. pose proof (Nat.div_mod c n ltac:(lia)) as Ec. pose proof (Nat.mod_upper_bound c n ltac:(lia)).
  destruct (le_lt_dec (c mod n) i).
  - exists (i - c mod n)%nat. split; [lia|]. symmetry. apply (Nat.mod_unique _ _ (c / n)%nat); lia.
  - exists (i + n - c mod n)%nat. split; [lia|]. symmetry.
    apply (Nat.mod_unique _ _ (c / n + 1)%nat); [lia|]. rewrite Nat.mul_add_distr_l. lia.
Qed.

Lemma some_busy slots : 0 < sum_slots busy slots ->
  exists i slot, slots !! i = Some slot /\ is_Some (sl_batch slot).
Proof.
  induction slots as [|x xs IH]; [cbn; lia|]. intros Hs.
  change (0 < busy x + sum_slots busy xs) in Hs. destruct (sl_batch x) as [b|] eqn:Eb.
  - exists 0%nat, x. split; [done|by eexists].
  - rewrite (busy_none _ Eb) in Hs. destruct (IH Hs) as (i & slot & ?). by exists (S i), slot.
Qed.

Lemma busy_reached f0 private file (s : state) : running f0 private file s -> 0 < d_active s ->
  exists step, step ∈ seq 0 (length (d_slots s)) /\ busy_at s step.
Proof.
  intros Hrun Hact. rewrite (ru_active _ _ _ _ Hrun) in Hact. apply some_busy in Hact as (i & slot & Hs & Hb).
  destruct (step_reaches (d_wait_cursor s) i (length (d_slots s))) as (step & Hlt & Hstep);
    [by eapply lookup_lt_Some|].
  exists step. split; [apply elem_of_seq; lia|]. exists slot. by rewrite Hstep.
Qed.

Lemma rounds_end f0 private file : forall n p (s : state),
  running f0 private file s -> (Z.to_nat (work_left s) <= n)%nat -> (patience (d_world s) <= p)%nat ->
  exists fuel r, rounds error_message l destination settings fuel s = Some r.
Proof using size_ok window chunk_ok next_patience DownloaderLaws0 PosixLaws0.
  induction n as [n IHn] using lt_wf_ind. induction p as [p IHp] using lt_wf_ind.
  intros s Hrun Hn Hp. destruct (decide (0 < d_active s)) as [Hact|Hact].
  2:{ exists 1%nat. cbn [rounds]. rewrite (proj2 (Z.ltb_ge _ _)) by lia. by eexists. }
  destruct (visits error_message l destination settings (seq 0 (length (d_slots s))) false false s)
    as [[c|e] s1] eqn:E.
  2:{ exists 1%nat. cbn [rounds]. rewrite (proj2 (Z.ltb_lt _ _)), E by done. by eexists. }
  pose proof E as E'. eapply visits_spec in E' as [_ Hrun1]; [|exact Hrun]. specialize (Hrun1 c eq_refl).
  set (t := if c then s1 else s1 <| d_wait_cursor := ((d_wait_cursor s1 + 1) mod length (d_slots s1))%nat |>).
  assert (Hrt : running f0 private file t) by (unfold t; destruct c; [done|by apply running_cursor]).
  assert (Ht : work_left t = work_left s1 /\ patience (d_world t) = patience (d_world s1)) by (by destruct c).
  assert (Hnext : (exists fuel r, rounds error_message l destination settings fuel t = Some r) ->
    exists fuel r, rounds error_message l destination settings fuel s = Some r).
  { intros (fuel & r & Hr). exists (S fuel), r. cbn [rounds]. by rewrite (proj2 (Z.ltb_lt _ _)), E. }
  apply Hnext. pose proof (ru_inv _ _ _ _ Hrt) as Hi. pose proof (li_next _ _ _ _ Hi) as Hnx.
  apply visits_progress in E as [Hlt|(-> & Hw & Hpat)].
  - assert (Hpos : 0 <= work_left t).
    { unfold work_left. rewrite (ru_active _ _ _ _ Hrt).
      assert (0 <= sum_slots busy (d_slots t)); [|lia].
      apply sum_slots_nonneg, Forall_true. intros x. unfold busy. destruct (sl_batch x); lia. }
    eapply (IHn (Z.to_nat (work_left t)) ltac:(lia) (patience (d_world t))); [exact Hrt|lia|lia].
  - destruct Hw as [_ _ Hwl _]. specialize (Hpat eq_refl (busy_reached _ _ _ _ Hrun Hact)).
    eapply (IHp (patience (d_world t)) ltac:(lia)); [exact Hrt|lia|lia].
Qed.

(** C14: a download ends: when a wait for a completion can time out only
    finitely often, the loop that waits on the slots in turn finishes, with
    success or with an error, for every size, chunk size and number of slots. *)
Theorem download_ends w m f :
  in_flight w = ∅ ->
  exists fuel res, download error_message l destination settings pid numbers probe slot_buffers fuel w m f
    = Some res.
Proof using size_ok window chunk_ok parallelism_ok slots_apart next_patience DownloaderLaws0 PosixLaws0.
  intros Hw. unfold download. destruct (create_near _ _ _ _ _ _) as [[e o] f1] eqn:Ec.
  destruct (e =? EEXIST); [by exists 0%nat; eexists|]. destruct (negb (e =? 0)) eqn:Ee; [by exists 0%nat; eexists|].
  apply negb_false_iff, Z.eqb_eq in Ee as ->.
  apply create_near_spec in Ec as [(_ & Hd & _ & _ & i & _ & _ & Hh & Hc)|(He & _)]; [|done].
  destruct (read_first _ _ _ _ _) as [r1 s1] eqn:E1.
  eapply (read_first_spec f (temporary o) i) in E1 as [_ Hok1]; [|done..].
  destruct r1 as [[]|e1]; [|by exists 0%nat; eexists]. destruct (Hok1 eq_refl) as (Hi1 & Hsl1 & Hn1).
  destruct (start_slots _ _ _ _) as [r2 s2] eqn:E2.
  eapply (start_slots_spec f (temporary o) i slot_buffers slots_apart) in E2 as [_ Hok2]; [|done..].
  destruct r2 as [[]|e2]; [|by exists 0%nat; eexists].
  destruct (rounds_end f (temporary o) i _ _ s2 (Hok2 eq_refl) (le_n _) (le_n _)) as (fuel & [r3 s3] & E3).
  exists fuel. rewrite E3. destruct r3; [|by eexists]. destruct (publish_output _ _ _ _). by eexists.
Qed.
End Liveness.
End Spec.

(** ** An engine that keeps the promises

    It completes one transfer at a time, after [w_delay] waits that time out. *)

Record toy_world := mkWorld { w_flight : gmap Z Request; w_delay : nat }.

Section Toy.
Variable obj : object_bytes.
Variable size_ : Z.
Variable l : Locator.

Definition toy_downloader : Downloader toy_world := {|
  dl_read_head head w m :=
    let visible := visible_size l size_ in
    (Ok (mkObject visible $"v1", RangeStats_default), w,
     memcpy m (sp_data head) (mem_read obj (window_offset l) (Z.min (sp_size head) visible)));
  dl_submit req w m :=
    let b := fresh (dom (w_flight w) : gset Z) in
    (Ok b, mkWorld (<[b := req]> (w_flight w)) (w_delay w), m);
  dl_next b ms w m :=
    match w_flight w !! b, w_delay w with
    | Some req, O =>
        (KARU_OK, mkDone (tag req) KARU_OK (length_ req) (buffer req), [],
         mkWorld (delete b (w_flight w)) 2,
         memcpy m (buffer req) (mem_read obj (window_offset l + offset req) (length_ req)))
    | Some req, S n => (KARU_TIMEOUT, mkDone 0 KARU_OK 0 0, [], mkWorld (w_flight w) n, m)
    | None, _ => (KARU_END, mkDone 0 KARU_OK 0 0, [], w, m)
    end;
  dl_stats _ w := (Ok BatchCounters_default, w);
  dl_free b w := mkWorld (delete b (w_flight w)) (w_delay w);
  dl_progress _ _ w := (1, w);
|}.

Lemma holds_mem_read m a n pos : holds obj (memcpy m a (mem_read obj pos n)) a n pos.
Proof.
  intros i Hi. rewrite memcpy_in by (rewrite mem_read_length; lia). by rewrite mem_read_nth.
Qed.

#[refine] Definition toy_laws : @DownloaderLaws obj size_ l toy_world toy_downloader :=
  {| in_flight := w_flight |}.
Proof.
  - intros head w m rep w' m' [= <- <- <-] _. split; [done|]. intros o st [= <- _].
    split; [done|]. apply holds_mem_read.
  - intros req w m rep w' m' [= <- <- <-] _. split; [|done]. apply not_elem_of_dom, is_fresh.
  - intros b ms w m st done text w' m' req E Hb. cbn in E. rewrite Hb in E.
    destruct (w_delay w); injection E as <- <- _ <- <-; [|done]. rewrite bool_decide_eq_true_2 by done.
    split; [done|]. intros _ _. apply holds_mem_read.
  - by intros b w r w' [= _ <-].
  - done.
  - by intros a b w r w' [= _ <-].
Defined.
End Toy.

(** Bytes 2 to 9 of the object of ten bytes: three with the size, then a chunk
    of three and one of two, in two slots. *)
Definition three_bytes : DownloadSettings :=
  {| chunk_size := 3; parallelism := 2; overwrite := false; has_progress := true |}.
Definition two_buffers (i : nat) : option Z := Some (1000 + 8 * Z.of_nat i).
Definition empty_disk : files := mkFiles ∅ ∅ ∅.
Abbreviation example_download s probe :=
  (@download toy_world files (toy_downloader ten_bytes 10 from_two) ram_disk (fun _ => []) from_two $"out"
     s 7 Z.of_nat probe two_buffers 20 (mkWorld ∅ 0) no_memory empty_disk).

Lemma two_buffers_apart : forall i j a b, i <> j -> two_buffers i = Some a -> two_buffers j = Some b ->
  disjoint (mkSpan a (slot_capacity three_bytes (visible_size from_two 10)))
    (mkSpan b (slot_capacity three_bytes (visible_size from_two 10))).
Proof.
  intros i j a b Hne [= <-] [= <-]. change (slot_capacity _ _) with 3. unfold disjoint. cbn. lia.
Qed.

Lemma from_two_window : 0 <= window_offset from_two <= U64_MAX /\ 0 <= window_length from_two <= U64_MAX /\
  (window_length from_two <> TO_END -> window_offset from_two + window_length from_two <= U64_MAX).
Proof. split_and!; [done..|]. by intros []. Qed.

Lemma download_publishes_the_object_witness :
  exists summary w' m' f', example_download three_bytes (Some 100) = Some (Ok summary, w', m', f') /\
    exists i d, fs_names f' !! $"out" = Some i /\ fs_data f' !! i = Some d /\ d.1 = 8 /\
      mem_read d.2 0 8 = $"23456789".
Proof.
  assert (exists summary w' m' f', example_download three_bytes (Some 100) = Some (Ok summary, w', m', f'))
    as (summary & w' & m' & f' & E) by (eexists _, _, _, _; vm_compute; reflexivity).
  exists summary, w', m', f'. split; [exact E|].
  destruct (@download_publishes_the_object ten_bytes 10 from_two ltac:(lia) from_two_window toy_world files
    (toy_downloader ten_bytes 10 from_two) (toy_laws ten_bytes 10 from_two) ram_disk ram_disk_laws
    (fun _ => []) $"out" three_bytes ltac:(cbn; lia) ltac:(cbn; lia) 7 Z.of_nat (Some 100) two_buffers
    two_buffers_apart 20 (mkWorld ∅ 0) no_memory empty_disk summary w' m' f' eq_refl E)
    as ((i & d & Hn & Hd & H1 & Hb) & _).
  exists i, d. split_and!; [exact Hn|exact Hd|exact H1|].
  change (mem_read d.2 0 8 = mem_read ten_bytes 2 8). unfold mem_read. apply map_ext_in.
  intros k Hk%in_seq. rewrite Hb; [reflexivity|]. change (visible_size from_two 10) with 8. lia.
Defined.

(** Without memory for the first bytes. *)
Lemma failed_download_leaves_no_trace_witness :
  exists e w' m' f', example_download three_bytes None = Some (Err e, w', m', f') /\
    f_status e = KARU_ERR_NOMEM /\ forall q, (forall n, q <> temporary_name $"out" 7 n) -> fs_names f' !! q = None.
Proof.
  assert (exists e w' m' f', example_download three_bytes None = Some (Err e, w', m', f') /\
    f_status e = KARU_ERR_NOMEM) as (e & w' & m' & f' & E & He)
    by (eexists _, _, _, _; split; [vm_compute; reflexivity|reflexivity]).
  exists e, w', m', f'. split; [exact E|]. split; [exact He|].
  destruct (@failed_download_leaves_no_trace ten_bytes 10 from_two ltac:(lia) from_two_window toy_world files
    (toy_downloader ten_bytes 10 from_two) (toy_laws ten_bytes 10 from_two) ram_disk ram_disk_laws
    (fun _ => []) $"out" three_bytes ltac:(cbn; lia) ltac:(cbn; lia) 7 Z.of_nat None two_buffers
    two_buffers_apart 20 (mkWorld ∅ 0) no_memory empty_disk e w' m' f' eq_refl E) as [[Hn _] _].
  intros q Hq. rewrite Hn; [reflexivity|by intros []|exact Hq].
Defined.

Lemma download_ends_witness : exists fuel res,
  @download toy_world files (toy_downloader ten_bytes 10 from_two) ram_disk (fun _ => []) from_two $"out"
    three_bytes 7 Z.of_nat (Some 100) two_buffers fuel (mkWorld ∅ 0) no_memory empty_disk = Some res.
Proof.
  apply (@download_ends ten_bytes 10 from_two ltac:(lia) from_two_window toy_world files
    (toy_downloader ten_bytes 10 from_two) (toy_laws ten_bytes 10 from_two) ram_disk ram_disk_laws
    (fun _ => []) $"out" three_bytes ltac:(cbn; lia) ltac:(cbn; lia) 7 Z.of_nat (Some 100) two_buffers
    two_buffers_apart (fun w => w_delay w + 3 * size (w_flight w))%nat); [|reflexivity].
  intros b ms w m st done text w' m' E. cbn in E. destruct (w_flight w !! b) as [req|] eqn:Eb;
    [destruct (w_delay w) eqn:Ed|]; injection E as <- _ _ <- _; rewrite ?Ed; cbn;
    [|split; intros; lia|by split].
  rewrite map_size_delete, Eb. cbn. pose proof (map_size_ne_0_lookup_2 (w_flight w) b ltac:(by eexists)). split; [lia|done].
Defined.
