(* ===== verification/Resolver.v ===== *)
(** * Resolver: host names looked up off the I/O threads

    Models [src/src/runtime/resolver.cpp] and [resolver.hpp].  [Shared] is the
    state under the mutex, with what the worker thread keeps between its two
    critical sections; the mutex makes each of [entry], [stop] and the two
    halves of a turn of [serve] one step.  Time is in nanoseconds.
    [getaddrinfo] and [inet_ntop], the environment and whether a thread can be
    started are arguments.  The theorems show that a name is looked up once at
    a time and each asked lookup is answered, and what a transfer is told. *)

From S2P Require Import Prelude Text.

(** ** Which host a URL connects to *)

Definition lowercase (text : str) : str := map to_lower text.
Definition is_decimal (text : str) : bool := negb (str_eqb text []) && forallb is_digit text.

Definition default_port (scheme : str) : str :=
  if str_eqb scheme $"https" then $"443" else if str_eqb scheme $"http" then $"80" else [].

(** The host and the port of an authority without user information. *)
Definition host_and_port (authority : str) : str * str :=
  match rfind_char authority ":" with
  | Some colon => (take colon authority, drop (colon + 1) authority)
  | None => (authority, [])
  end.

Definition resolvable_host (url : str) : option (str * str) :=
  match find_str url $"://" with
  | None => None
  | Some separator =>
      let scheme := lowercase (take separator url) in
      if negb (str_eqb scheme $"http") && negb (str_eqb scheme $"https") then None
      else
        let authority := drop (separator + 3) url in
        let authority := take_to (find_first_of authority $"/?#" 0) authority in
        let authority :=
          match rfind_char authority "@" with Some i => drop (i + 1) authority | None => authority end in
        if str_eqb authority [] || starts_with authority $"[" then None
        else
          let '(host, port) := host_and_port authority in
          let port := if str_eqb port [] then default_port scheme else port in
          if str_eqb host [] || negb (is_decimal port) then None
          else if forallb (fun c => is_digit c || Ascii.eqb c ".") host then None
          else Some (lowercase host, port)
  end.

(** ** The system's lookup *)

(** An item of the list of [getaddrinfo]: its family, and its text unless
    [inet_ntop] fails. *)
Inductive family := INET | INET6 | OtherFamily.
#[global] Instance family_eq_dec : EqDecision family.
Proof. solve_decision. Defined.

Definition format_address (item : family * option str) : option str :=
  match item with
  | (OtherFamily, _) | (_, None) => None
  | (INET, Some text) => Some text
  | (INET6, Some text) => Some (concat [Text $"["; Text text; Text $"]"])
  end.

Fixpoint resolve_family (found : list (family * option str)) (addresses : list str) : list str :=
  match found with
  | [] => addresses
  | item :: found =>
      resolve_family found
        (match format_address item with
         | Some formatted =>
             if bool_decide (formatted ∈ addresses) then addresses else addresses ++ [formatted]
         | None => addresses
         end)
  end.

(** [getaddrinfo] of a host for a family; a failure finds nothing. *)
Definition system_lookup (getaddrinfo : str -> family -> list (family * option str)) (host : str)
    : list str :=
  resolve_family (getaddrinfo host INET6) [] ++ resolve_family (getaddrinfo host INET) [].

Definition proxy_names : list str :=
  [$"http_proxy"; $"https_proxy"; $"HTTPS_PROXY"; $"all_proxy"; $"ALL_PROXY"].
Definition proxy_environment_present (getenv : str -> option str) : bool :=
  existsb (fun name => match getenv name with Some (_ :: _) => true | _ => false end) proxy_names.

(** ** The shared state *)

Definition kKeepAnswer : Z := 60000000000.
Definition kWaitForFirstAnswer : Z := 300000000.
Definition kPassAlways : Z := 1000000000.
Definition kPassEvery : Z := 8.
Definition kMaxHosts : nat := 256.

Record Host := mkHost {
  addresses : list str; expires : Z; started : Z; answered : Z; transfers : Z; next : Z; looking : bool;
}.
#[export] Instance Host_eta : Eta Host := fun h =>
  mkHost (addresses h) (expires h) (started h) (answered h) (transfers h) (next h) (looking h).
Definition Host_default : Host := mkHost [] 0 0 0 0 0 false.

(** [looked_up] is the name [serve] works on with the mutex free, and [wakes]
    how often it called [wake]. *)
Record Shared := mkShared {
  enabled : bool; serving : bool; stopped : bool; hosts : gmap str Host; queue : list str;
  looked_up : option str; wakes : nat;
}.
#[export] Instance Shared_eta : Eta Shared := fun s =>
  mkShared (enabled s) (serving s) (stopped s) (hosts s) (queue s) (looked_up s) (wakes s).

(** The constructor; [lookup] says whether there is a way to look up. *)
Definition new_resolver (lookup : bool) (getenv : str -> option str) : Shared :=
  mkShared (lookup && negb (proxy_environment_present getenv)) false false ∅ [] None 0.

Definition stop (s : Shared) : Shared := s <| stopped := true |> <| queue := [] |>.

(** *** The worker *)

(** [serve] up to the lookup; it waits when this is [None]. *)
Definition serve_take (s : Shared) : option Shared :=
  match looked_up s, queue s with
  | None, host :: rest =>
      if serving s && negb (stopped s)
      then Some (s <| queue := rest |> <| looked_up := Some host |>) else None
  | _, _ => None
  end.

(** [serve] once the lookup is done; a lookup that throws found nothing. *)
Definition serve_answer (found : list str) (now : Z) (s : Shared) : option Shared :=
  match looked_up s with
  | None => None
  | Some host =>
      let s := s <| looked_up := None |> in
      if stopped s then Some s
      else
        let answer h :=
          h <| looking := false |> <| addresses := found |> <| answered := now |>
            <| expires := now + kKeepAnswer |> <| transfers := 0 |> in
        Some (s <| hosts := alter answer host (hosts s) |> <| wakes := S (wakes s) |>)
  end.

(** *** What a transfer is told *)

Record Entry := mkEntry { waiting : bool; resolve_ : str }.
Definition no_entry : Entry := mkEntry false [].
Definition removal (host port : str) : Entry :=
  mkEntry false (concat [Text $"-"; Text host; Text $":"; Text port]).

(** The host's state, made if there is room. *)
Definition find_host (host : str) (now : Z) (s : Shared) : option Host * Shared :=
  match hosts s !! host with
  | Some h => (Some h, s)
  | None =>
      let s := if (kMaxHosts <=? size (hosts s))%nat
               then s <| hosts := filter (fun item => looking item.2 = true \/ now < expires item.2) (hosts s) |>
               else s in
      if (kMaxHosts <=? size (hosts s))%nat then (None, s)
      else (Some Host_default, s <| hosts := <[host := Host_default]> (hosts s) |>)
  end.

(** Ask for a lookup, starting the worker if need be; [thread] is whether the
    thread can be started. *)
Definition ask_lookup (host : str) (now : Z) (thread : bool) (h : Host) (s : Shared)
    : expected Shared (Host * Shared) :=
  if negb (looking h) && (expires h <=? now) then
    if negb (serving s) && negb thread then Err (s <| enabled := false |>)
    else Ok (h <| looking := true |> <| started := now |>,
             s <| serving := true |> <| queue := queue s ++ [host] |>)
  else Ok (h, s).

(** The addresses from the [first]-th on, around the list. *)
Fixpoint append_addresses (fuel : nat) (index first : Z) (addresses : list str) (resolve_ : str) : str :=
  match fuel with
  | O => resolve_
  | S fuel =>
      let count := Z.of_nat (length addresses) in
      let resolve_ := if index =? 0 then resolve_ else resolve_ ++ $"," in
      append_addresses fuel (index + 1) first addresses
        (resolve_ ++ nth (Z.to_nat (wrap64 (first + index) mod count)) addresses [])
  end.

Definition hand_out (host port : str) (now : Z) (h : Host) : Entry * Host :=
  if negb (bool_decide (addresses h = [])) && (now <? expires h) then
    let late := kPassAlways <=? now - answered h in
    let skip := late && negb (transfers h mod kPassEvery =? 0) in
    let h := if late then h <| transfers := wrap64 (transfers h + 1) |> else h in
    if skip then (no_entry, h)
    else
      let count := Z.of_nat (length (addresses h)) in
      let first := next h mod count in
      (mkEntry false
         (append_addresses (length (addresses h)) 0 first (addresses h)
            (concat [Text $"+"; Text host; Text $":"; Text port; Text $":"])),
       h <| next := wrap64 (next h + 1) |>)
  else if looking h && (now - started h <? kWaitForFirstAnswer) then (mkEntry true [], h)
  else (removal host port, h).

Definition entry (url : str) (now : Z) (thread : bool) (s : Shared) : Entry * Shared :=
  if negb (enabled s) then (no_entry, s)
  else
    match resolvable_host url with
    | None => (no_entry, s)
    | Some (host, port) =>
        if stopped s then (no_entry, s)
        else
          match find_host host now s with
          | (None, s) => (removal host port, s)
          | (Some h, s) =>
              match ask_lookup host now thread h s with
              | Err s => (no_entry, s)
              | Ok (h, s) =>
                  let '(e, h) := hand_out host port now h in
                  (e, s <| hosts := <[host := h]> (hosts s) |>)
              end
          end
    end.

(** ** Which host a URL connects to: the specification *)

Definition host_char (c : ascii) : Prop := char_in $":/?#@" c = false.
Definition plain_char (c : ascii) : Prop := char_in $"/?#" c = false.

(** What [lowercase] keeps out: an upper-case letter has no special role. *)
Lemma host_char_plain c : host_char c -> plain_char c.
Proof. unfold host_char, plain_char. rewrite !char_in_false. set_solver. Qed.

Lemma take_authority a rest :
  Forall plain_char a -> match rest with [] => True | c :: _ => ~ plain_char c end ->
  take_to (find_first_of (a ++ rest) $"/?#" 0) (a ++ rest) = a.
Proof.
  intros Ha Hr. unfold find_first_of, find_if_from. rewrite drop_0.
  destruct rest as [|c rest].
  - rewrite app_nil_r. by rewrite (proj2 (find_if_None _ _)).
  - rewrite find_if_app; [|exact Ha|by apply not_false_iff_true]. cbn. by rewrite take_app_length.
Qed.

Lemma is_decimal_chars port : is_decimal port = true -> port <> [] /\ Forall host_char port.
Proof.
  unfold is_decimal. rewrite andb_true_iff, negb_true_iff. unfold str_eqb. rewrite bool_decide_eq_false.
  intros [Hne Hd]. split; [done|]. apply Forall_forall. intros c Hc. unfold host_char.
  rewrite forallb_forall in Hd. specialize (Hd c). rewrite <-list_elem_of_In in Hd. specialize (Hd Hc).
  apply char_in_false. intros Hin. repeat (apply elem_of_cons in Hin as [->|Hin]; [done|]). by apply not_elem_of_nil in Hin.
Qed.

Lemma host_chars_no host c : Forall host_char host -> c ∈ $":/?#@" -> c ∉ host.
Proof.
  rewrite Forall_forall. intros H Hc Hin. apply H in Hin. unfold host_char in Hin.
  by apply char_in_false in Hin.
Qed.

Definition port_ok (port : str) : Prop :=
  port = [] \/ exists p, port = ":"%char :: p /\ (p = [] \/ is_decimal p = true).

(** The parts of a URL: the user information ends with its [@], the port
    begins with its colon. *)
Record url_parts_ok (scheme user host port rest : str) : Prop := {
  up_scheme : lowercase scheme = $"http" \/ lowercase scheme = $"https";
  up_user : user = [] \/ exists u, user = u ++ $"@" /\ Forall plain_char u;
  up_host : host <> [] /\ Forall host_char host /\ starts_with host $"[" = false;
  up_port : port_ok port;
  up_rest : match rest with [] => True | c :: _ => ~ plain_char c end;
}.

Definition is_ipv4 (host : str) : bool := forallb (fun c => is_digit c || Ascii.eqb c ".") host.

Lemma lowercase_no_colon scheme : lowercase scheme = $"http" \/ lowercase scheme = $"https" -> ":"%char ∉ scheme.
Proof.
  intros H Hin. assert (":"%char ∈ lowercase scheme) as Hl.
  { change ":"%char with (to_lower ":"). by apply list_elem_of_fmap_2. }
  destruct H as [H|H]; rewrite H in Hl; revert Hl; by_decide.
Qed.

Lemma port_ok_number port : port_ok port ->
  Forall host_char (drop 1 port) /\ (port = [] \/ port = ":"%char :: drop 1 port).
Proof.
  intros [->|(p & -> & Hp)]; [by repeat constructor|]. cbn. rewrite drop_0. split; [|by right].
  destruct Hp as [->|Hp]; [constructor|]. by apply is_decimal_chars.
Qed.

Lemma host_and_port_app host port :
  Forall host_char host -> port_ok port -> host_and_port (host ++ port) = (host, drop 1 port).
Proof.
  intros Hh [Hn Hp]%port_ok_number. unfold host_and_port.
  assert (Hc : forall s, Forall host_char s -> ":"%char ∉ s) by (intros; by eapply host_chars_no; [|by_decide]).
  destruct Hp as [->|Ep].
  - rewrite app_nil_r. by rewrite (proj2 (rfind_char_None _ _)) by auto.
  - set (p := drop 1 port) in *. clearbody p. subst port.
    rewrite rfind_char_app by auto. by rewrite take_app_length, drop_past.
Qed.

(** The authority, user information aside. *)
Lemma authority_without_user user host port :
  user = [] \/ (exists u, user = u ++ $"@" /\ Forall plain_char u) ->
  Forall host_char host -> port_ok port ->
  match rfind_char (user ++ host ++ port) "@" with
  | Some i => drop (i + 1) (user ++ host ++ port) | None => user ++ host ++ port end = host ++ port.
Proof.
  intros Hu Hh [Hn Hp]%port_ok_number.
  assert (Hat : "@"%char ∉ host ++ port).
  { apply not_elem_of_app. split; [by eapply host_chars_no; [|by_decide]|].
    destruct Hp as [-> | ->]; [apply not_elem_of_nil|].
    apply not_elem_of_cons. split; [done|]. by eapply host_chars_no; [|by_decide]. }
  destruct Hu as [->|(u & -> & _)]; [cbn [app]; by rewrite (proj2 (rfind_char_None _ _))|].
  rewrite <-app_assoc. change (u ++ $"@" ++ host ++ port) with (u ++ "@"%char :: (host ++ port)).
  by rewrite rfind_char_app, drop_past.
Qed.

Lemma authority_plain user host port :
  user = [] \/ (exists u, user = u ++ $"@" /\ Forall plain_char u) ->
  Forall host_char host -> port_ok port -> Forall plain_char (user ++ host ++ port).
Proof.
  intros Hu Hh [Hn Hp]%port_ok_number. rewrite !Forall_app. split_and!.
  - destruct Hu as [->|(u & -> & Hu)]; [constructor|]. apply Forall_app. split; [done|by repeat constructor].
  - eapply Forall_impl; [exact Hh|apply host_char_plain].
  - destruct Hp as [-> | ->]; constructor; [done|]. eapply Forall_impl; [exact Hn|apply host_char_plain].
Qed.

Lemma resolvable_host_parts scheme user host port rest :
  url_parts_ok scheme user host port rest ->
  resolvable_host (scheme ++ $"://" ++ user ++ host ++ port ++ rest) =
  if is_ipv4 host then None
  else Some (lowercase host,
             if str_eqb (drop 1 port) [] then default_port (lowercase scheme) else drop 1 port).
Proof.
  intros [Hs Hu (Hne & Hh & Hb) Hp Hr]. unfold resolvable_host.
  rewrite find_scheme by (by apply lowercase_no_colon). rewrite take_app_length.
  assert (negb (str_eqb (lowercase scheme) $"http") && negb (str_eqb (lowercase scheme) $"https") = false) as ->
    by (destruct Hs as [-> | ->]; done).
  cbv zeta.
  assert (drop (length scheme + 3) (scheme ++ $"://" ++ user ++ host ++ port ++ rest) = (user ++ host ++ port) ++ rest) as ->
    by (rewrite <-!app_assoc; by rewrite drop_app_add).
  rewrite take_authority by (done || by apply authority_plain).
  rewrite authority_without_user, host_and_port_app by done.
  assert (str_eqb (host ++ port) [] || starts_with (host ++ port) $"[" = false) as ->.
  { destruct host as [|c host]; [done|]. apply orb_false_iff. split; [by unfold str_eqb; case_bool_decide|].
    cbn in Hb |- *. by rewrite andb_true_r in *. }
  assert (is_decimal (if str_eqb (drop 1 port) [] then default_port (lowercase scheme) else drop 1 port) = true) as ->.
  { unfold str_eqb at 1. case_bool_decide as E; [by destruct Hs as [-> | ->]|].
    destruct Hp as [->|(p & -> & Hp)]; [done|]. cbn in E |- *. rewrite drop_0 in *. naive_solver. }
  unfold str_eqb at 1. by rewrite (bool_decide_false _ Hne).
Qed.

(** ** The addresses of the system *)

Lemma resolve_family_spec found : forall acc,
  NoDup acc -> NoDup (resolve_family found acc) /\
  forall a, a ∈ resolve_family found acc <-> a ∈ acc \/ exists item, item ∈ found /\ format_address item = Some a.
Proof.
  induction found as [|item found IH]; intros acc Hacc; cbn [resolve_family].
  { split; [done|]. intros a. split; [by left|]. intros [?|(? & ?%not_elem_of_nil & _)]; done. }
  set (acc' := match format_address item with Some _ => _ | None => _ end).
  assert (H : NoDup acc' /\ forall a, a ∈ acc' <-> a ∈ acc \/ format_address item = Some a).
  { subst acc'. destruct (format_address item) as [f|] eqn:E; [|split; [done|naive_solver]].
    case_bool_decide as Hf; [split; [done|naive_solver]|]. split.
    - apply NoDup_app. split_and!; [done| |apply NoDup_singleton]. intros x Hx ->%list_elem_of_singleton. done.
    - intros a. rewrite elem_of_app, list_elem_of_singleton. naive_solver. }
  destruct H as [Hn He]. destruct (IH acc' Hn) as [IH1 IH2]. split; [exact IH1|].
  intros a. rewrite IH2, He. setoid_rewrite elem_of_cons. naive_solver.
Qed.

(** ** What a transfer is told: the specification *)

Fixpoint join (l : list str) : str :=
  match l with [] => [] | [a] => a | a :: l => a ++ $"," ++ join l end.
Definition rotation {A} (k : nat) (l : list A) : list A := drop k l ++ take k l.

Lemma rotation_perm {A} k (l : list A) : rotation k l ≡ₚ l.
Proof. unfold rotation. rewrite Permutation_app_comm. by rewrite take_drop. Qed.

Lemma rotation_length {A} k (l : list A) : length (rotation k l) = length l.
Proof. by rewrite rotation_perm. Qed.

Lemma rotation_nth (l : list str) (k i : nat) : (k < length l)%nat -> (i < length l)%nat ->
  nth (Z.to_nat ((Z.of_nat k + Z.of_nat i) mod Z.of_nat (length l))) l [] = nth i (rotation k l) [].
Proof.
  intros Hk Hi. unfold rotation. destruct (Nat.lt_ge_cases i (length l - k)) as [Hlt|Hge].
  - rewrite app_nth1 by (rewrite length_drop; lia). rewrite Z.mod_small by lia.
    rewrite nth_skipn. f_equal. lia.
  - rewrite app_nth2 by (rewrite length_drop; lia). rewrite length_drop.
    rewrite <-(Z.mod_unique_pos _ _ 1 (Z.of_nat (i - (length l - k)))) by lia.
    rewrite nth_firstn. rewrite (proj2 (Nat.ltb_lt _ _)) by lia. f_equal. lia.
Qed.

Lemma append_addresses_from (l : list str) (k : nat) : (k < length l)%nat ->
  2 * Z.of_nat (length l) <= U64_MAX -> forall n i acc, (i + n = length l)%nat ->
  append_addresses n (Z.of_nat i) (Z.of_nat k) l acc =
  acc ++ (if (i =? 0)%nat then join (drop i (rotation k l))
          else flat_map (fun a => $"," ++ a) (drop i (rotation k l))).
Proof.
  intros Hk Hu. assert (Hflat : forall a (r : list str), join (a :: r) = a ++ flat_map (fun a => $"," ++ a) r).
  { intros a r. revert a. induction r as [|b r IH]; intros a; [by rewrite app_nil_r|]. cbn [join].
    change (flat_map ?f (b :: r)) with (($"," ++ b) ++ flat_map f r). by rewrite <-app_assoc, <-IH. }
  induction n as [|n IH]; intros i acc Hi; cbn [append_addresses].
  { rewrite drop_ge by (rewrite rotation_length; lia). by destruct (i =? 0)%nat; rewrite app_nil_r. }
  rewrite wrap64_small by (unfold is_u64; lia). rewrite rotation_nth by lia.
  replace (Z.of_nat i + 1) with (Z.of_nat (S i)) by lia. rewrite IH by lia. cbn [Nat.eqb].
  assert (Hd : drop i (rotation k l) = nth i (rotation k l) [] :: drop (S i) (rotation k l)).
  { destruct (lookup_lt_is_Some_2 (rotation k l) i) as [x Hx]; [rewrite rotation_length; lia|].
    apply drop_S. by rewrite nth_lookup, Hx. }
  rewrite Hd. destruct i as [|i]; cbn [Nat.eqb Z.of_nat Z.eqb]; [by rewrite Hflat, <-app_assoc|].
  rewrite (proj2 (Z.eqb_neq (Z.of_nat (S i)) 0)) by lia. cbn [flat_map]. by rewrite <-!app_assoc.
Qed.

(** The text libcurl gets: every address, from the next one on. *)
Lemma append_addresses_spec l next acc : l <> [] -> is_u64 next -> 2 * Z.of_nat (length l) <= U64_MAX ->
  append_addresses (length l) 0 (next mod Z.of_nat (length l)) l acc
  = acc ++ join (rotation (Z.to_nat (next mod Z.of_nat (length l))) l).
Proof.
  intros Hl Hn Hu. assert (0 < Z.of_nat (length l)) by (destruct l; [done|cbn; lia]).
  pose proof (Z.mod_pos_bound next (Z.of_nat (length l)) ltac:(lia)).
  pose proof (append_addresses_from l (Z.to_nat (next mod Z.of_nat (length l))) ltac:(lia) Hu
    (length l) 0%nat acc eq_refl) as E.
  rewrite Z2Nat.id in E by lia. change (Z.of_nat 0) with 0 in E. by rewrite E, drop_0.
Qed.

(** The addresses a host has, at a time. *)
Definition usable (h : Host) (now : Z) : Prop := addresses h <> [] /\ now < expires h.

(** Whether a transfer is left to the addresses libcurl already has. *)
Definition passed_over (h : Host) (now : Z) : Prop :=
  kPassAlways <= now - answered h /\ transfers h mod kPassEvery <> 0.
#[global] Instance passed_over_dec h now : Decision (passed_over h now).
Proof. unfold passed_over. apply _. Defined.

Lemma hand_out_spec host port now h e h' :
  hand_out host port now h = (e, h') -> is_u64 (next h) ->
  2 * Z.of_nat (length (addresses h)) <= U64_MAX ->
  (usable h now -> passed_over h now -> e = no_entry /\ next h' = next h) /\
  (usable h now -> ~ passed_over h now ->
   next h' = wrap64 (next h + 1) /\ waiting e = false /\
   resolve_ e = concat [Text $"+"; Text host; Text $":"; Text port; Text $":"]
     ++ join (rotation (Z.to_nat (next h mod Z.of_nat (length (addresses h)))) (addresses h))) /\
  (~ usable h now ->
   h' = h /\ e = if looking h && (now - started h <? kWaitForFirstAnswer) then mkEntry true []
                 else removal host port).
Proof.
  unfold hand_out, usable, passed_over. intros E Hn Hu.
  destruct (bool_decide_reflect (addresses h = [])) as [Ha|Ha]; cbn [negb andb] in E.
  { split_and!; [tauto..|]. intros _. by destruct (_ && _); injection E as <- <-. }
  destruct (Z.ltb_spec now (expires h)) as [He|He].
  2:{ split_and!; [lia..|]. intros _. by destruct (_ && _); injection E as <- <-. }
  revert E. set (h1 := if kPassAlways <=? now - answered h then _ else h).
  assert (addresses h1 = addresses h /\ next h1 = next h) as [Ha1 Hn1]
    by (subst h1; by destruct (kPassAlways <=? _)).
  rewrite Ha1, Hn1, append_addresses_spec by done.
  destruct (Z.leb_spec kPassAlways (now - answered h)) as [Hp|Hp]; cbn [andb].
  - destruct (Z.eqb_spec (transfers h mod kPassEvery) 0) as [Hz|Hz]; cbn [negb]; intros [= <- <-];
      split_and!; intros; try lia; try tauto; split_and!; done.
  - intros [= <- <-]. split_and!; intros; try lia; try tauto; split_and!; done.
Qed.

(** ** Every run *)

Inductive resolver_step : Shared -> Shared -> Prop :=
| step_entry url now thread s : resolver_step s (entry url now thread s).2
| step_take s s' : serve_take s = Some s' -> resolver_step s s'
| step_answer found now s s' : serve_answer found now s = Some s' -> resolver_step s s'
| step_stop s : resolver_step s (stop s).

(** The lookups asked for and not answered. *)
Definition pending (s : Shared) : list str := option_list (looked_up s) ++ queue s.
Definition is_looking (s : Shared) (host : str) : Prop :=
  exists h, hosts s !! host = Some h /\ looking h = true.

Record resolver_ok (s : Shared) : Prop := {
  ok_size : (size (hosts s) <= kMaxHosts)%nat;
  ok_once : NoDup (pending s);
  ok_pending : stopped s = false -> forall host, host ∈ pending s <-> is_looking s host;
  ok_serving : stopped s = false -> pending s <> [] -> serving s = true;
  ok_next : forall host h, hosts s !! host = Some h -> is_u64 (next h);
}.

Lemma insert_host_size (host : str) (h : Host) (m : gmap str Host) :
  is_Some (m !! host) \/ (size m < kMaxHosts)%nat -> (size m <= kMaxHosts)%nat ->
  (size (<[host := h]> m) <= kMaxHosts)%nat.
Proof. intros Hm Hs. rewrite map_size_insert. destruct (m !! host) eqn:E; [done|]. destruct Hm as [[? [=]]|?]. lia. Qed.

(** The hosts after a change of one that keeps whether it is looked up. *)
Lemma is_looking_insert s host h h' other :
  hosts s !! host = Some h -> looking h' = looking h ->
  is_looking (s <| hosts := <[host := h']> (hosts s) |>) other <-> is_looking s other.
Proof.
  intros Hh Hl. unfold is_looking. cbn. destruct (decide (host = other)) as [<-|Hne].
  - rewrite lookup_insert_eq. naive_solver.
  - by rewrite lookup_insert_ne.
Qed.

Lemma keep_host_ok s host h h' :
  resolver_ok s -> hosts s !! host = Some h -> looking h' = looking h -> is_u64 (next h') ->
  resolver_ok (s <| hosts := <[host := h']> (hosts s) |>).
Proof.
  intros [] Hh Hl Hn. constructor; try done.
  - cbn. by apply insert_host_size; [left; eexists|].
  - intros Hs other. by rewrite (is_looking_insert s host h h') by done; apply ok_pending0.
  - cbn. intros other h0 [[<- <-]|[_ ?]]%lookup_insert_Some; eauto.
Qed.

Lemma find_host_spec host now s h s' :
  resolver_ok s -> find_host host now s = (h, s') ->
  resolver_ok s' /\ queue s' = queue s /\ looked_up s' = looked_up s /\ serving s' = serving s /\
  stopped s' = stopped s /\ enabled s' = enabled s /\ wakes s' = wakes s /\
  (forall h0, h = Some h0 -> hosts s' !! host = Some h0 /\ (is_Some (hosts s !! host) -> s' = s)).
Proof.
  intros Hok. unfold find_host. destruct (hosts s !! host) as [h0|] eqn:Eh.
  { intros [= <- <-]. split_and!; try done. by intros ? [= <-]. }
  set (s1 := if (_ <=? _)%nat then _ else s).
  assert (H1 : resolver_ok s1 /\ queue s1 = queue s /\ looked_up s1 = looked_up s /\ serving s1 = serving s /\
    stopped s1 = stopped s /\ enabled s1 = enabled s /\ wakes s1 = wakes s /\ hosts s1 !! host = None).
  { subst s1. destruct (_ <=? _)%nat; [|by split_and!]. split_and!; try done.
    - destruct Hok. constructor; try done.
      + cbn. etrans; [|exact ok_size0]. by apply map_subseteq_size, map_filter_subseteq.
      + intros Hs other. change (pending _) with (pending s). rewrite ok_pending0 by done.
        unfold is_looking. cbn. setoid_rewrite map_lookup_filter_Some. cbn. naive_solver.
      + cbn. intros other h0 [? _]%map_lookup_filter_Some. eauto.
    - cbn. apply map_lookup_filter_None. by left. }
  clearbody s1. destruct H1 as (Hok1 & Hq & Hl & Hs & Hst & He & Hw & Hno).
  destruct (Nat.leb_spec kMaxHosts (size (hosts s1))) as [Hfull|Hroom]; intros [= <- <-]; [by split_and!|].
  split_and!; try done.
  - destruct Hok1. constructor; try done.
    + cbn. apply insert_host_size; [by right|lia].
    + intros Hs1 other. change (pending _) with (pending s1). rewrite ok_pending0 by done.
      unfold is_looking. cbn. destruct (decide (host = other)) as [<-|Hne].
      * rewrite lookup_insert_eq, Hno. naive_solver.
      * by rewrite lookup_insert_ne.
    + cbn. intros other h0 [[_ <-]|[_ ?]]%lookup_insert_Some; [unfold is_u64; cbn; lia|eauto].
  - intros ? [= <-]. split; [cbn; by rewrite lookup_insert_eq|]. by intros [? [=]].
Qed.

Lemma ask_lookup_spec host now thread h s h' s' :
  resolver_ok s -> stopped s = false -> hosts s !! host = Some h ->
  ask_lookup host now thread h s = Ok (h', s') ->
  (forall h2, looking h2 = looking h' -> is_u64 (next h2) ->
     resolver_ok (s' <| hosts := <[host := h2]> (hosts s') |>)) /\
  stopped s' = false /\ looked_up s' = looked_up s /\
  next h' = next h /\ addresses h' = addresses h /\ expires h' = expires h /\
  (now < expires h -> h' = h /\ s' = s).
Proof.
  intros Hok Hst Hh. unfold ask_lookup. destruct (negb (looking h) && (expires h <=? now)) eqn:E.
  2:{ intros [= <- <-]. split_and!; try done. intros h2 Hl Hn. by apply keep_host_ok with (h := h). }
  apply andb_true_iff in E as [El%negb_true_iff Ee%Z.leb_le].
  destruct (negb (serving s) && negb thread); [done|]. intros [= <- <-].
  split_and!; [|done..|intros; lia]. intros h2 Hl Hn. cbn in Hl.
  assert (Hno : host ∉ pending s).
  { destruct Hok. rewrite ok_pending0 by done. intros (h0 & Hh0 & Hl0). congruence. }
  destruct Hok. constructor.
  - cbn. by apply insert_host_size; [left; eexists|].
  - unfold pending in *. cbn. rewrite app_assoc. apply NoDup_app. split_and!; [done| |apply NoDup_singleton].
    by intros x Hx ->%list_elem_of_singleton.
  - intros _ other. unfold pending in *. cbn. rewrite app_assoc, elem_of_app, list_elem_of_singleton, ok_pending0 by done.
    unfold is_looking. cbn. destruct (decide (host = other)) as [<-|Hne].
    + rewrite lookup_insert_eq. naive_solver.
    + rewrite lookup_insert_ne by done. naive_solver.
  - done.
  - cbn. intros other h0 [[_ <-]|[_ ?]]%lookup_insert_Some; [done|eauto].
Qed.

Lemma hand_out_keeps host port now h e h' :
  hand_out host port now h = (e, h') -> is_u64 (next h) -> looking h' = looking h /\ is_u64 (next h').
Proof.
  unfold hand_out. intros E Hn. pose proof (wrap64_range (next h + 1)).
  destruct (_ && _); [|by destruct (_ && _); injection E as <- <-].
  revert E. set (h1 := if kPassAlways <=? _ then _ else h).
  assert (looking h1 = looking h /\ next h1 = next h) as [<- Hn1] by (subst h1; by destruct (kPassAlways <=? _)).
  destruct (_ && _); intros [= <- <-]; split; try done; cbn; rewrite Hn1; auto using wrap64_range.
Qed.

Lemma disabled_ok s : resolver_ok s -> resolver_ok (s <| enabled := false |>).
Proof. by intros []; constructor. Qed.

Lemma entry_ok url now thread s e s' :
  resolver_ok s -> entry url now thread s = (e, s') -> resolver_ok s'.
Proof.
  intros Hok. unfold entry. destruct (negb _); [by intros [= _ <-]|].
  destruct (resolvable_host url) as [[host port]|]; [|by intros [= _ <-]].
  destruct (stopped s) eqn:Hst; [by intros [= _ <-]|].
  destruct (find_host host now s) as [h s1] eqn:Ef.
  apply find_host_spec in Ef as (Hok1 & _ & _ & _ & Hst1 & _ & _ & Hh); [|done].
  destruct h as [h|]; [|by intros [= _ <-]]. destruct (Hh h eq_refl) as [Hh1 _].
  destruct (ask_lookup host now thread h s1) as [[h1 s2]|s2] eqn:Ea.
  - apply ask_lookup_spec in Ea as (Hok2 & _ & _ & Hn & _); [|done|congruence|done].
    destruct (hand_out host port now h1) as [e1 h2] eqn:Eo. intros [= _ <-].
    apply hand_out_keeps in Eo as [Hl Hn2]; [by apply Hok2|]. rewrite Hn. by apply (ok_next _ Hok1 host).
  - unfold ask_lookup in Ea. destruct (_ && _); [|done]. destruct (_ && _); [|done].
    injection Ea as <-. intros [= _ <-]. by apply disabled_ok.
Qed.

Lemma serve_take_ok s s' : resolver_ok s -> serve_take s = Some s' ->
  resolver_ok s' /\ pending s' = pending s /\ hosts s' = hosts s /\ wakes s' = wakes s /\
  stopped s = false /\ stopped s' = false /\ is_Some (looked_up s').
Proof.
  intros Hok. unfold serve_take. destruct (looked_up s) eqn:El; [done|]. destruct (queue s) as [|host rest] eqn:Eq; [done|].
  destruct (serving s && negb (stopped s)) eqn:Es; [|done]. intros [= <-].
  apply andb_true_iff in Es as [Es Hst%negb_true_iff].
  assert (Hp : pending (s <| queue := rest |> <| looked_up := Some host |>) = pending s)
    by (unfold pending; cbn; by rewrite El, Eq).
  split_and!; try done. destruct Hok. constructor; cbn [hosts]; try done.
  - by rewrite Hp.
  - intros Hs. rewrite Hp. by apply ok_pending0.
Qed.

Lemma serve_answer_ok found now s s' : resolver_ok s -> serve_answer found now s = Some s' ->
  resolver_ok s' /\ stopped s' = stopped s /\
  (stopped s = true -> wakes s' = wakes s) /\
  (stopped s = false -> wakes s' = S (wakes s) /\ pending s' = queue s /\
     exists host, looked_up s = Some host).
Proof.
  intros Hok. unfold serve_answer. destruct (looked_up s) as [host|] eqn:El; [|done].
  change (stopped (s <| looked_up := None |>)) with (stopped s).
  assert (Hp : pending s = host :: queue s) by (unfold pending; by rewrite El).
  pose proof (ok_once _ Hok) as Hnd. rewrite Hp in Hnd. apply NoDup_cons in Hnd as [Hni Hnd].
  destruct (stopped s) eqn:Hst; intros [= <-].
  { split_and!; [|exact Hst|done|done]. destruct Hok. constructor; cbn [stopped update]; try congruence; done. }
  split; [|split_and!; [exact Hst|done|intros _; split_and!; [done|done|by eexists]]].
  destruct Hok. constructor; cbn.
  - by rewrite <-(size_dom (D := gset str)), dom_alter_L, size_dom.
  - done.
  - intros _ other. unfold is_looking in *. cbn. specialize (ok_pending0 Hst other).
    rewrite Hp, elem_of_cons in ok_pending0. destruct (decide (other = host)) as [->|Hne].
    + rewrite lookup_alter_eq. split; [done|]. intros (h & Hh & Hl).
      apply fmap_Some in Hh as (h0 & _ & ->). done.
    + rewrite lookup_alter_ne by done. naive_solver.
  - intros _ _. apply ok_serving0; [done|]. by rewrite Hp.
  - intros other h Hh. destruct (decide (other = host)) as [->|Hne].
    + rewrite lookup_alter_eq in Hh. apply fmap_Some in Hh as (h0 & Hh0 & ->). cbn. eauto.
    + rewrite lookup_alter_ne in Hh by done. eauto.
Qed.

Lemma new_resolver_ok lookup getenv : resolver_ok (new_resolver lookup getenv).
Proof.
  constructor; cbn; try done.
  - rewrite map_size_empty. lia.
  - constructor.
  - intros _ host. unfold is_looking. cbn. rewrite lookup_empty. split; [by intros ?%not_elem_of_nil|naive_solver].
Qed.

Lemma resolver_step_ok s s' : resolver_step s s' -> resolver_ok s ->
  resolver_ok s' /\ (stopped s = true -> stopped s' = true /\ wakes s' = wakes s).
Proof.
  intros Hs Hok. destruct Hs as [url now thread s|s s' E|found now s s' E|s].
  - destruct (entry url now thread s) as [e s'] eqn:E. split; [by eapply entry_ok|]. intros Hst.
    unfold entry in E. rewrite Hst in E. cbn.
    destruct (negb _); [by injection E as _ <-|]. by destruct (resolvable_host url) as [[]|]; injection E as _ <-.
  - destruct (serve_take_ok _ _ Hok E) as (? & _ & _ & Hw & Hst & _). split; [done|]. congruence.
  - destruct (serve_answer_ok _ _ _ _ Hok E) as (? & Hst & Hw & _). split; [done|]. intros Hs. rewrite Hst. auto.
  - split; [|done]. destruct Hok. constructor; try done. cbn. unfold pending in *. cbn.
    rewrite app_nil_r. by destruct (looked_up s); [apply NoDup_singleton|constructor].
Qed.

Lemma resolver_run_ok s s' : rtc resolver_step s s' -> resolver_ok s ->
  resolver_ok s' /\ (stopped s = true -> stopped s' = true /\ wakes s' = wakes s).
Proof.
  induction 1 as [s|s s1 s' H1 _ IH]; intros Hok; [done|].
  destruct (resolver_step_ok _ _ H1 Hok) as [Hok1 Hst1]. destruct (IH Hok1) as [Hok' Hst'].
  split; [done|]. intros Hst. destruct (Hst1 Hst) as [Hst2 <-]. by apply Hst'.
Qed.

(** ** The worker *)

(** [n] turns of [serve]; turn [n] ends at [clock n]. *)
Fixpoint work (n : nat) (lookup : str -> list str) (clock : nat -> Z) (s : Shared) : option Shared :=
  match n with
  | O => Some s
  | S n =>
      s ← (match looked_up s with Some _ => Some s | None => serve_take s end);
      host ← looked_up s;
      s ← serve_answer (lookup host) (clock n) s;
      work n lookup clock s
  end.

Lemma pending_is_taken s : resolver_ok s -> stopped s = false -> pending s <> [] ->
  exists s' host, (match looked_up s with Some _ => Some s | None => serve_take s end) = Some s' /\
    resolver_ok s' /\ stopped s' = false /\ pending s' = pending s /\ wakes s' = wakes s /\
    looked_up s' = Some host.
Proof.
  intros Hok Hst Hp. destruct (looked_up s) as [host|] eqn:El; [by exists s, host|].
  assert (exists s', serve_take s = Some s') as [s' E].
  { unfold serve_take. rewrite El. pose proof (ok_serving _ Hok Hst Hp) as ->. rewrite Hst.
    unfold pending in Hp. rewrite El in Hp. destruct (queue s); [done|by eexists]. }
  destruct (serve_take_ok _ _ Hok E) as (? & ? & _ & ? & _ & ? & [host Hl]). by exists s', host.
Qed.

Lemma worker_answers lookup clock n : forall s, resolver_ok s -> stopped s = false -> length (pending s) = n ->
  exists s', work n lookup clock s = Some s' /\ resolver_ok s' /\ stopped s' = false /\ pending s' = [] /\
    wakes s' = (wakes s + n)%nat.
Proof.
  induction n as [|n IH]; intros s Hok Hst Hn; cbn [work].
  { exists s. split_and!; [done|done|done|by apply nil_length_inv|lia]. }
  destruct (pending_is_taken s Hok Hst) as (s1 & host & -> & Hok1 & Hst1 & Hp1 & Hw1 & Hl1); [by destruct (pending s)|].
  cbn [mbind option_bind]. rewrite Hl1. cbn [mbind option_bind].
  assert (exists s2, serve_answer (lookup host) (clock n) s1 = Some s2) as [s2 E].
  { unfold serve_answer. rewrite Hl1. cbv zeta. case_match; by eexists. }
  rewrite E. cbn [mbind option_bind].
  destruct (serve_answer_ok _ _ _ _ Hok1 E) as (Hok2 & Hst2 & _ & Hgo). destruct (Hgo Hst1) as (Hw2 & Hp2 & _).
  destruct (IH s2) as (s' & Hs' & ? & ? & ? & Hw'); [done|congruence| |].
  - assert (pending s1 = host :: queue s1) as Hp by (unfold pending; by rewrite Hl1).
    rewrite Hp2. rewrite <-Hp1, Hp in Hn. cbn in Hn. lia.
  - exists s'. split_and!; try done. lia.
Qed.

(** What an entry of a known host comes from. *)
Lemma entry_waits url now thread s e s' :
  resolver_ok s -> entry url now thread s = (e, s') -> waiting e = true ->
  stopped s' = false /\
  exists host port h, resolvable_host url = Some (host, port) /\ hosts s' !! host = Some h /\
    looking h = true /\ now - started h < kWaitForFirstAnswer /\ ~ usable h now.
Proof.
  intros Hok. unfold entry. destruct (negb _); [by intros [= <- _]|].
  destruct (resolvable_host url) as [[host port]|] eqn:Er; [|by intros [= <- _]].
  destruct (stopped s) eqn:Hst; [by intros [= <- _]|].
  destruct (find_host host now s) as [h s1] eqn:Ef.
  apply find_host_spec in Ef as (Hok1 & _ & _ & _ & Hst1 & _ & _ & Hh); [|done].
  destruct h as [h|]; [|by intros [= <- _]]. destruct (Hh h eq_refl) as [Hh1 _].
  destruct (ask_lookup host now thread h s1) as [[h1 s2]|s2] eqn:Ea; [|by intros [= <- _]].
  apply ask_lookup_spec in Ea as (_ & Hst2 & _); [|done|congruence|done].
  destruct (hand_out host port now h1) as [e1 h2] eqn:Eo. intros [= <- <-] Hw. split; [exact Hst2|].
  exists host, port, h2. cbn [hosts update]. split; [done|]. split; [cbn; by rewrite lookup_insert_eq|].
  revert Eo. unfold hand_out, usable. destruct (bool_decide_reflect (addresses h1 = [])) as [Ha|Ha]; cbn [negb andb].
  - destruct (looking h1) eqn:El; cbn [andb]; [|by intros [= <- _]].
    destruct (Z.ltb_spec (now - started h1) kWaitForFirstAnswer); [|by intros [= <- _]].
    intros [= _ <-]. split_and!; [done|done|tauto].
  - destruct (Z.ltb_spec now (expires h1)); [by destruct (_ && _); intros [= <- _]|].
    destruct (looking h1) eqn:El; cbn [andb]; [|by intros [= <- _]].
    destruct (Z.ltb_spec (now - started h1) kWaitForFirstAnswer); [|by intros [= <- _]].
    intros [= _ <-]. split_and!; [done|done|lia].
Qed.

(** ** Properties *)

(** C28: whatever the transfers, the clock, the lookups and the shutdown do and
    in whatever order, at most 256 names are remembered, a name is never
    looked up twice at once, and until the resolver is stopped the names marked
    as being looked up are exactly those queued or in the worker's hands; once
    it is stopped, the wake function is never called again. *)
Theorem one_lookup_per_host lookup getenv s :
  rtc resolver_step (new_resolver lookup getenv) s ->
  (size (hosts s) <= 256)%nat /\ NoDup (pending s) /\
  (stopped s = false -> forall host, host ∈ pending s <-> is_looking s host) /\
  (forall s', stopped s = true -> rtc resolver_step s s' -> wakes s' = wakes s).
Proof.
  intros Hs. destruct (resolver_run_ok _ _ Hs (new_resolver_ok lookup getenv)) as [Hok _].
  split_and!; [apply Hok..|]. intros s' Hst Hs'. by apply (resolver_run_ok _ _ Hs' Hok).
Qed.

(** C29: no transfer waits for a name for ever: a transfer told to wait has a
    lookup that began less than 300 ms before and is queued or running, and a
    worker whose lookups return answers all of them within as many turns as
    there are, waking the loops once for each. *)
Theorem waiting_transfers_are_answered lookup getenv s url now thread e s' :
  rtc resolver_step (new_resolver lookup getenv) s ->
  entry url now thread s = (e, s') -> waiting e = true ->
  exists host port h, resolvable_host url = Some (host, port) /\ hosts s' !! host = Some h /\
    host ∈ pending s' /\ now < started h + 300000000 /\
    forall answers clock, exists s2, work (length (pending s')) answers clock s' = Some s2 /\
      ~ is_looking s2 host /\ pending s2 = [] /\ wakes s2 = (wakes s' + length (pending s'))%nat.
Proof.
  intros Hs E Hw. destruct (resolver_run_ok _ _ Hs (new_resolver_ok lookup getenv)) as [Hok _].
  destruct (entry_waits _ _ _ _ _ _ Hok E Hw) as (Hst & host & port & h & Hr & Hh & Hl & Ht & _).
  apply entry_ok in E; [|done]. exists host, port, h. split; [done|]. split; [done|].
  split; [apply E; [done|by exists h]|]. split; [unfold kWaitForFirstAnswer in Ht; lia|].
  intros answers clock.
  destruct (worker_answers answers clock _ s' E Hst eq_refl) as (s2 & Hs2 & Hok2 & Hst2 & Hp2 & Hw2).
  exists s2. split_and!; try done. rewrite <-(ok_pending _ Hok2 Hst2), Hp2. apply not_elem_of_nil.
Qed.

(** Transfers spread over a host's addresses: while an answer is fresh, a
    transfer is given all of its addresses, for its host and port, beginning
    with the next one after the address the last list began with; except that
    after the first second, only one transfer in eight is, and the others are
    left to what libcurl has. *)
Theorem entry_rotates_addresses lookup getenv s url now thread e s' host port h :
  rtc resolver_step (new_resolver lookup getenv) s -> enabled s = true -> stopped s = false ->
  resolvable_host url = Some (host, port) -> hosts s !! host = Some h -> usable h now ->
  2 * Z.of_nat (length (addresses h)) <= U64_MAX ->
  entry url now thread s = (e, s') ->
  exists h', hosts s' !! host = Some h' /\ waiting e = false /\
  if bool_decide (passed_over h now) then resolve_ e = [] /\ next h' = next h
  else
    next h' = wrap64 (next h + 1) /\
    exists order, resolve_ e = concat [Text $"+"; Text host; Text $":"; Text port; Text $":"] ++ join order /\
      order ≡ₚ addresses h /\ head order = addresses h !! Z.to_nat (next h mod Z.of_nat (length (addresses h))).
Proof.
  intros Hs He Hst Hr Hh Hu Hlen. destruct (resolver_run_ok _ _ Hs (new_resolver_ok lookup getenv)) as [Hok _].
  unfold entry. rewrite He, Hr, Hst. cbn [negb].
  destruct (find_host host now s) as [h0 s1] eqn:Ef.
  assert (h0 = Some h /\ s1 = s) as [-> ->] by (unfold find_host in Ef; rewrite Hh in Ef; by injection Ef as <- <-).
  assert (ask_lookup host now thread h s = Ok (h, s)) as ->.
  { unfold ask_lookup. destruct Hu as [_ Hu]. rewrite (proj2 (Z.leb_gt _ _)) by lia. by rewrite andb_false_r. }
  destruct (hand_out host port now h) as [e1 h1] eqn:Eo. intros [= <- <-].
  exists h1. split; [cbn; by rewrite lookup_insert_eq|].
  pose proof (ok_next _ Hok _ _ Hh) as Hn. destruct (hand_out_spec _ _ _ _ _ _ Eo Hn Hlen) as (Hp & Hgo & _).
  case_bool_decide as Hpass; [by destruct (Hp Hu Hpass) as [-> ->]|].
  destruct (Hgo Hu Hpass) as (Hn1 & Hw & Ht). split_and!; [done|done|].
  assert (0 < Z.of_nat (length (addresses h))) by (destruct Hu as [Hu _]; destruct (addresses h); [done|cbn; lia]).
  pose proof (Z.mod_pos_bound (next h) (Z.of_nat (length (addresses h))) ltac:(lia)).
  eexists. split; [exact Ht|]. split; [apply rotation_perm|]. unfold rotation.
  rewrite head_lookup, lookup_app_l by (rewrite length_drop; lia). by rewrite lookup_drop, Nat.add_0_r.
Qed.

(** *** Witnesses *)

(** Two transfers of [a.org] and one of [b.org], all before any answer; then
    [a.org] is answered with two addresses. *)
Definition asked : Shared :=
  (entry $"https://b.org:8443/y" 2 true
     (entry $"https://A.org/x?q" 1 true
        (entry $"https://user@a.org/x" 0 true (new_resolver true (fun _ => None))).2).2).2.
Definition answered_once : Shared :=
  default asked (s ← serve_take asked; serve_answer [$"10.0.0.1"; $"10.0.0.2"] 10 s).

Lemma asked_reached : rtc resolver_step (new_resolver true (fun _ => None)) asked.
Proof.
  unfold asked. do 3 (eapply rtc_r; [|apply step_entry]). reflexivity.
Qed.

Lemma answered_reached : rtc resolver_step (new_resolver true (fun _ => None)) answered_once.
Proof.
  eapply rtc_r; [eapply rtc_r; [exact asked_reached|]|].
  - apply step_take. vm_compute. reflexivity.
  - apply (step_answer [$"10.0.0.1"; $"10.0.0.2"] 10). vm_compute. reflexivity.
Qed.

Lemma one_lookup_per_host_witness :
  pending asked = [$"a.org"; $"b.org"] /\ NoDup (pending asked) /\ is_looking asked $"b.org".
Proof.
  destruct (one_lookup_per_host true (fun _ => None) asked asked_reached) as (_ & Hn & Hl & _).
  split; [vm_compute; reflexivity|]. split; [exact Hn|].
  apply (Hl eq_refl $"b.org"). change (pending asked) with [$"a.org"; $"b.org"]. right. left.
Defined.

Lemma waiting_transfers_are_answered_witness :
  exists e s', entry $"http://b.org/z" 299999999 true asked = (e, s') /\
    exists s2, work 2 (fun _ => [$"10.0.0.3"]) (fun _ => 400000000) s' = Some s2 /\ wakes s2 = 2%nat.
Proof.
  exists (mkEntry true []), (entry $"http://b.org/z" 299999999 true asked).2.
  assert (E : entry $"http://b.org/z" 299999999 true asked
    = (mkEntry true [], (entry $"http://b.org/z" 299999999 true asked).2)) by (vm_compute; reflexivity).
  split; [exact E|].
  destruct (waiting_transfers_are_answered true (fun _ => None) asked _ _ _ _ _ asked_reached E eq_refl)
    as (host & port & h & _ & _ & _ & _ & Hgo).
  destruct (Hgo (fun _ => [$"10.0.0.3"]) (fun _ => 400000000)) as (s2 & H2 & _ & _ & Hw).
  exists s2. split; [exact H2|exact Hw].
Defined.

Lemma entry_rotates_addresses_witness :
  exists e s', entry $"https://a.org/z" 20 true answered_once = (e, s') /\
    resolve_ e = $"+a.org:443:10.0.0.1,10.0.0.2" /\
    exists order, resolve_ e = $"+a.org:443:" ++ join order /\ order ≡ₚ [$"10.0.0.1"; $"10.0.0.2"].
Proof.
  set (h := mkHost [$"10.0.0.1"; $"10.0.0.2"] 60000000010 0 10 0 0 false).
  exists (mkEntry false $"+a.org:443:10.0.0.1,10.0.0.2"), (entry $"https://a.org/z" 20 true answered_once).2.
  assert (E : entry $"https://a.org/z" 20 true answered_once
    = (mkEntry false $"+a.org:443:10.0.0.1,10.0.0.2", (entry $"https://a.org/z" 20 true answered_once).2))
    by (vm_compute; reflexivity).
  assert (Hh : hosts answered_once !! $"a.org" = Some h) by (vm_compute; reflexivity).
  assert (Hu : usable h 20) by (split; [done|vm_compute; reflexivity]).
  assert (Hl : 2 * Z.of_nat (length (addresses h)) <= U64_MAX) by (vm_compute; discriminate).
  split; [exact E|]. split; [reflexivity|].
  destruct (entry_rotates_addresses true (fun _ => None) answered_once $"https://a.org/z" 20 true _ _ $"a.org" $"443" h
    answered_reached eq_refl eq_refl eq_refl Hh Hu Hl E) as (h' & _ & _ & Hgo).
  rewrite bool_decide_false in Hgo by (intros [Hp _]; exact (Hp eq_refl)).
  destruct Hgo as (_ & order & Ho & Hperm & _). exists order. split; [exact Ho|exact Hperm].
Defined.
