(* ===== verification/Process.v ===== *)
(** * Process: running a credential command

    Models [src/src/process.cpp] and [process.hpp] for POSIX systems:
    [setup_spawn], [terminate_process] and [run_command].  The answers of the
    system calls are arguments, those of [terminate_process] apart; what the
    call leaves behind (open descriptors, the child, the spawn structures) is
    the state [Traces].  Times are in milliseconds.  The theorems show that the child writes into the pipe, that
    every way out closes and reaps what was opened, that the output is what
    the child wrote within the limit, and that a timeout ends the call.  The
    Windows branches are not modelled. *)

From S2P Require Import Prelude.

Record CommandResult := mkCommandResult {
  output : str; exit_code : Z; timed_out : bool; output_limit_exceeded : bool;
}.
#[export] Instance CommandResult_eta : Eta CommandResult := fun r =>
  mkCommandResult (output r) (exit_code r) (timed_out r) (output_limit_exceeded r).
Definition CommandResult_default : CommandResult := mkCommandResult [] (-1) false false.

(** ** What a call leaves behind *)

Record Traces := mkTraces {
  read_open : bool; write_open : bool;     (* the two ends of the pipe *)
  actions_live : bool; attributes_live : bool;
  child_alive : bool;                      (* not known to have exited, nor killed *)
  child_waited : bool;                     (* waited for *)
  group_killed : bool;
}.
#[export] Instance Traces_eta : Eta Traces := fun t =>
  mkTraces (read_open t) (write_open t) (actions_live t) (attributes_live t) (child_alive t)
    (child_waited t) (group_killed t).
Definition no_traces : Traces := mkTraces false false false false false false false.

(** ** [setup_spawn] *)

Definition STDOUT_FILENO : Z := 1.

Inductive file_action := Adddup2 (fd new : Z) | Addclose (fd : Z).

Definition spawn_actions (read_descriptor write_descriptor : Z) : list file_action :=
  [Adddup2 write_descriptor STDOUT_FILENO; Addclose read_descriptor]
  ++ (if write_descriptor =? STDOUT_FILENO then [] else [Addclose write_descriptor]).

(** [add_action] keeps the first failure. *)
Definition add_action (status result : Z) : Z :=
  if (status =? 0) && negb (result =? 0) then result else status.

(** The answers of the calls: the two [init]s, then one of each action and of
    the two attributes. *)
Record SetupAnswers := mkSetupAnswers { sa_actions : Z; sa_attributes : Z; sa_adds : list Z }.

Definition setup_spawn (a : SetupAnswers) (t : Traces) : Z * Traces :=
  if negb (sa_actions a =? 0) then (sa_actions a, t)
  else
    let t := t <| actions_live := true |> in
    if negb (sa_attributes a =? 0) then (sa_attributes a, t <| actions_live := false |>)
    else
      let t := t <| attributes_live := true |> in
      let status := fold_left add_action (sa_adds a) 0 in
      if negb (status =? 0) then (status, t <| attributes_live := false |> <| actions_live := false |>)
      else (0, t).

(** ** [terminate_process]: kill the group and the child, and wait

    The child leads its group and was not waited for, so both kills find it,
    and [wait_for_child] makes an interrupted [waitpid] again until it answers.
    A process that ignores SIGCHLD has its children reaped for it: [waitpid]
    then fails once the child is gone, and [child_waited] stands for that end
    as well. *)

Definition kill_group (t : Traces) : Traces := t <| group_killed := true |> <| child_alive := false |>.
Definition terminate_process (t : Traces) : Traces := (kill_group t) <| child_waited := true |>.

(** ** [run_command] *)

Inductive wait_status := Exited (code : Z) | Signaled (signal : Z) | OtherStatus.
Inductive wait_answer := StillRunning | Ended (status : wait_status) | WaitFailed (errno : Z).
(** [EAGAIN], [EWOULDBLOCK] and [EINTR] are [NothingYet]. *)
Inductive read_end := PipeClosed | NothingYet | ReadFailed (errno : Z).
Definition EINTR : Z := 4.

(** One turn of the loop: the reads that gave bytes, the one that did not, the
    answer of [waitpid] and the clock. *)
Record Turn := mkTurn { tn_reads : list str; tn_end : read_end; tn_wait : wait_answer; tn_now : Z }.

(** The answers to one call of [run_command]. *)
Record Spawn := mkSpawn {
  sp_pipe : expected Z (Z * Z); sp_setup : SetupAnswers; sp_spawn : Z; sp_fcntl : expected Z unit;
  sp_start : Z; sp_turns : nat -> Turn;
}.

(** The variables of the loop. *)
Record Loop := mkLoop {
  lo_result : CommandResult; lo_closed : bool; lo_finished : bool; lo_status : wait_status; lo_traces : Traces;
}.
#[export] Instance Loop_eta : Eta Loop := fun l =>
  mkLoop (lo_result l) (lo_closed l) (lo_finished l) (lo_status l) (lo_traces l).

Definition command_outcome := (expected Z CommandResult * Traces)%type.

Definition close_read (t : Traces) : Traces := t <| read_open := false |>.

(** The inner loop: read until there is nothing more for now. *)
Fixpoint drain (limit : Z) (reads : list str) (l : Loop) : Loop + command_outcome :=
  match reads with
  | [] => inl l
  | bytes :: reads =>
      let result := lo_result l in
      if limit - Z.min limit (Z.of_nat (length (output result))) <? Z.of_nat (length bytes) then
        inr (Ok (result <| output_limit_exceeded := true |>), close_read (terminate_process (lo_traces l)))
      else drain limit reads (l <| lo_result := result <| output := output result ++ bytes |> |>)
  end.

Definition read_turn (limit : Z) (turn : Turn) (l : Loop) : Loop + command_outcome :=
  if lo_closed l then inl l
  else
    match drain limit (tn_reads turn) l with
    | inr out => inr out
    | inl l =>
        match tn_end turn with
        | PipeClosed => inl (l <| lo_closed := true |>)
        | NothingYet => inl l
        | ReadFailed errno => inr (Err errno, close_read (terminate_process (lo_traces l)))
        end
    end.

Definition wait_turn (turn : Turn) (l : Loop) : Loop + command_outcome :=
  if lo_finished l then inl l
  else
    match tn_wait turn with
    | Ended status =>
        inl (l <| lo_finished := true |> <| lo_status := status |>
               <| lo_traces := (lo_traces l) <| child_alive := false |> <| child_waited := true |> |>)
    | StillRunning => inl l
    | WaitFailed errno =>
        if errno =? EINTR then inl l else inr (Err errno, close_read (kill_group (lo_traces l)))
    end.

Definition deadline_turn (have_timeout : bool) (deadline : Z) (turn : Turn) (l : Loop)
    : Loop + command_outcome :=
  if have_timeout && (deadline <=? tn_now turn) then
    inr (Ok ((lo_result l) <| timed_out := true |>),
         close_read (if lo_finished l then (lo_traces l) <| group_killed := true |>
                     else terminate_process (lo_traces l)))
  else inl l.

Definition exit_code_of (status : wait_status) (before : Z) : Z :=
  match status with Exited code => code | Signaled signal => 128 + signal | OtherStatus => before end.

(** [None] when the fuel is spent. *)
Fixpoint command_loop (fuel : nat) (limit : Z) (have_timeout : bool) (deadline : Z) (turns : nat -> Turn)
    (i : nat) (l : Loop) : option command_outcome :=
  if lo_closed l && lo_finished l then
    Some (Ok ((lo_result l) <| exit_code := exit_code_of (lo_status l) (exit_code (lo_result l)) |>),
          close_read (lo_traces l))
  else
    match fuel with
    | O => None
    | S fuel =>
        match read_turn limit (turns i) l with
        | inr out => Some out
        | inl l =>
            match wait_turn (turns i) l with
            | inr out => Some out
            | inl l =>
                match deadline_turn have_timeout deadline (turns i) l with
                | inr out => Some out
                | inl l => command_loop fuel limit have_timeout deadline turns (S i) l
                end
            end
        end
    end.

Definition invalid_argument : Z := 22.

Definition run_command (fuel : nat) (e : Spawn) (command : str) (output_limit timeout : Z)
    : option command_outcome :=
  if str_eqb command [] || bool_decide (is_Some (find_char command "000")) then
    Some (Err invalid_argument, no_traces)
  else
    let have_timeout := 0 <? timeout in
    let deadline := sp_start e + timeout in
    match sp_pipe e with
    | Err errno => Some (Err errno, no_traces)
    | Ok _ =>
        let t := no_traces <| read_open := true |> <| write_open := true |> in
        let '(status, t) := setup_spawn (sp_setup e) t in
        if negb (status =? 0) then Some (Err status, close_read (t <| write_open := false |>))
        else
          let t := if sp_spawn e =? 0 then t <| child_alive := true |> else t in
          let t := t <| attributes_live := false |> <| actions_live := false |> <| write_open := false |> in
          if negb (sp_spawn e =? 0) then Some (Err (sp_spawn e), close_read t)
          else
            match sp_fcntl e with
            | Err errno => Some (Err errno, close_read (terminate_process t))
            | Ok _ =>
                command_loop fuel output_limit have_timeout deadline (sp_turns e) 0
                  (mkLoop CommandResult_default false false (Exited 0) t)
            end
    end.

(** ** The way out *)

(** Nothing is left open and the child has ended; unless the wait itself
    failed, it was waited for. *)
Definition settled (out : command_outcome) : Prop :=
  let t := out.2 in
  read_open t = false /\ write_open t = false /\ actions_live t = false /\ attributes_live t = false /\
  child_alive t = false /\ (is_ok out.1 = true -> child_waited t = true).

(** The traces while the loop runs. *)
Record running (l : Loop) : Prop := {
  ru_write : write_open (lo_traces l) = false;
  ru_actions : actions_live (lo_traces l) = false;
  ru_attributes : attributes_live (lo_traces l) = false;
  ru_child : child_alive (lo_traces l) = negb (lo_finished l);
  ru_waited : child_waited (lo_traces l) = lo_finished l;
}.

(** What a result within the limit says: no flag is set while the loop runs. *)
Record within (limit : Z) (l : Loop) : Prop := {
  wi_length : Z.of_nat (length (output (lo_result l))) <= limit;
  wi_flags : timed_out (lo_result l) = false /\ output_limit_exceeded (lo_result l) = false;
  wi_code : exit_code (lo_result l) = -1;
}.

(** A result that ends the loop early says why, within the limit. *)
Definition cut_short (limit : Z) (out : command_outcome) : Prop :=
  forall r, out.1 = Ok r ->
    Z.of_nat (length (output r)) <= limit /\ exit_code r = -1 /\
    (timed_out r = true \/ output_limit_exceeded r = true) /\ group_killed out.2 = true.

Lemma terminated_settled l (r : expected Z CommandResult) : running l ->
  settled (r, close_read (terminate_process (lo_traces l))).
Proof. intros []. by split_and!. Qed.

Lemma drain_spec limit reads : forall l, running l -> within limit l ->
  match drain limit reads l with
  | inl l' => running l' /\ within limit l' /\ lo_closed l' = lo_closed l /\ lo_finished l' = lo_finished l /\
      lo_status l' = lo_status l /\ output (lo_result l') = output (lo_result l) ++ List.concat reads
  | inr out => settled out /\ cut_short limit out
  end.
Proof.
  induction reads as [|bytes reads IH]; intros l Hr Hw; cbn [drain].
  { split_and!; try done. cbn. by rewrite app_nil_r. }
  destruct Hw as [Hlen Hflags Hcode]. rewrite Z.min_r by done.
  destruct (Z.ltb_spec (limit - Z.of_nat (length (output (lo_result l)))) (Z.of_nat (length bytes))).
  { split; [by apply terminated_settled|]. intros r [= <-]. cbn. split_and!; [done|done|by right|done]. }
  specialize (IH (l <| lo_result := (lo_result l) <| output := output (lo_result l) ++ bytes |> |>)).
  destruct (drain limit reads _) as [l'|out].
  - destruct IH as (H1 & H2 & H3 & H4 & H5 & H6); [by destruct Hr| |].
    { constructor; cbn; [rewrite length_app; lia|done|done]. }
    split_and!; try done. rewrite H6. cbn. by rewrite app_assoc.
  - apply IH; [by destruct Hr|]. constructor; cbn; [rewrite length_app; lia|done|done].
Qed.

Definition closes (e : read_end) : bool := match e with PipeClosed => true | _ => false end.

Lemma read_turn_spec limit turn l : running l -> within limit l ->
  match read_turn limit turn l with
  | inl l' => running l' /\ within limit l' /\ lo_finished l' = lo_finished l /\ lo_status l' = lo_status l /\
      lo_closed l' = lo_closed l || closes (tn_end turn) /\
      output (lo_result l') = output (lo_result l) ++ (if lo_closed l then [] else List.concat (tn_reads turn))
  | inr out => settled out /\ cut_short limit out
  end.
Proof.
  intros Hr Hw. unfold read_turn. destruct (lo_closed l) eqn:Ec.
  { split_and!; try done. by rewrite app_nil_r. }
  pose proof (drain_spec limit (tn_reads turn) l Hr Hw) as Hd.
  destruct (drain _ _ _) as [l'|out]; [|done]. destruct Hd as (H1 & H2 & H3 & H4 & H5 & H6).
  destruct (tn_end turn); cbn [closes orb].
  - split_and!; try done; by destruct H1, H2.
  - split_and!; try done. congruence.
  - split; [by apply terminated_settled|by intros r [=]].
Qed.

Lemma wait_turn_spec limit turn l : running l -> within limit l ->
  match wait_turn turn l with
  | inl l' => running l' /\ within limit l' /\ lo_closed l' = lo_closed l /\ lo_result l' = lo_result l /\
      (if lo_finished l then lo_finished l' = true /\ lo_status l' = lo_status l
       else lo_finished l' = true -> tn_wait turn = Ended (lo_status l'))
  | inr out => settled out /\ cut_short limit out
  end.
Proof.
  intros Hr Hw. unfold wait_turn. destruct (lo_finished l) eqn:Ef; [by split_and!|].
  destruct (tn_wait turn) as [|status|errno].
  - split_and!; try done. congruence.
  - split_and!; try done; [destruct Hr|destruct Hw]; by constructor.
  - destruct (_ =? _); [split_and!; try done; congruence|].
    split; [|by intros r [=]]. destruct Hr. by split_and!.
Qed.

Lemma deadline_turn_spec limit have deadline turn l : running l -> within limit l ->
  match deadline_turn have deadline turn l with
  | inl l' => l' = l /\ ~ (have = true /\ deadline <= tn_now turn)
  | inr out => settled out /\ cut_short limit out
  end.
Proof.
  intros Hr Hw. unfold deadline_turn. destruct have; cbn [andb]; [|by split; [|intros []]].
  destruct (Z.leb_spec deadline (tn_now turn)); [|split; [done|lia]]. split.
  - destruct (lo_finished l) eqn:Ef; [|by apply terminated_settled]. destruct Hr. rewrite Ef in *. by split_and!.
  - intros r [= <-]. destruct Hw. cbn. split_and!; [done|done|by left|by destruct (lo_finished l)].
Qed.

(** ** The loop *)

Section Run.
Variable limit : Z.
Variable have : bool.
Variable deadline : Z.
Variable turns : nat -> Turn.

(** What the child wrote in the first [k] turns. *)
Definition written (k : nat) : str := flat_map (fun i => List.concat (tn_reads (turns i))) (seq 0 k).

Lemma written_S k : written (S k) = written k ++ List.concat (tn_reads (turns k)).
Proof. unfold written. rewrite seq_S, flat_map_app. cbn. by rewrite app_nil_r. Qed.

Definition closed_at (k : nat) : Prop := closes (tn_end (turns k)) = true /\
  forall j, (j < k)%nat -> closes (tn_end (turns j)) = false.

Record loop_inv (i : nat) (l : Loop) : Prop := {
  li_running : running l;
  li_within : within limit l;
  li_output : if lo_closed l then exists k, closed_at k /\ output (lo_result l) = written (S k)
              else (forall j, (j < i)%nat -> closes (tn_end (turns j)) = false) /\
                   output (lo_result l) = written i;
  li_status : lo_finished l = true -> exists j, tn_wait (turns j) = Ended (lo_status l);
}.

(** All the child wrote, until it closed its output, and how it ended. *)
Definition complete (out : command_outcome) : Prop :=
  exists r k j status, out.1 = Ok r /\ timed_out r = false /\ output_limit_exceeded r = false /\
    Z.of_nat (length (output r)) <= limit /\ closed_at k /\ output r = written (S k) /\
    tn_wait (turns j) = Ended status /\ exit_code r = exit_code_of status (-1).

Lemma command_loop_spec fuel : forall i l out, loop_inv i l ->
  command_loop fuel limit have deadline turns i l = Some out ->
  settled out /\ (cut_short limit out \/ complete out).
Proof.
  induction fuel as [|fuel IH]; intros i l out Hl; cbn [command_loop];
    (destruct (lo_closed l && lo_finished l) eqn:Ed;
      [apply andb_true_iff in Ed as [Ec Ef]; intros [= <-]|]); [| done| |].
  1,2: destruct Hl as [[] [Hlen [Ht He] Hcode] Ho Hs]; rewrite Ec in Ho; rewrite Ef in *;
    destruct Ho as (k & Hk & Ho); destruct (Hs eq_refl) as [j Hj]; split; [by split_and!|right];
    eexists _, k, j, _; cbn; rewrite Hcode; by split_and!.
  pose proof (read_turn_spec limit (turns i) l (li_running _ _ Hl) (li_within _ _ Hl)) as H1.
  destruct (read_turn _ _ _) as [l1|o1]; [|intros [= <-]; by destruct H1; split; [|left]].
  destruct H1 as (Hr1 & Hw1 & Hf1 & Hs1 & Hc1 & Ho1).
  pose proof (wait_turn_spec limit (turns i) l1 Hr1 Hw1) as H2.
  destruct (wait_turn _ _) as [l2|o2]; [|intros [= <-]; by destruct H2; split; [|left]].
  destruct H2 as (Hr2 & Hw2 & Hc2 & Ho2 & Hs2).
  pose proof (deadline_turn_spec limit have deadline (turns i) l2 Hr2 Hw2) as H3.
  destruct (deadline_turn _ _ _ _) as [l3|o3]; [|intros [= <-]; by destruct H3; split; [|left]].
  destruct H3 as [-> _]. apply IH. destruct Hl as [_ _ Ho Hs]. constructor; try done.
  - rewrite Hc2, Ho2, Hc1, Ho1. destruct (lo_closed l); cbn [orb].
    + destruct Ho as (k & Hk & ->). exists k. by rewrite app_nil_r.
    + destruct Ho as [Hno ->]. destruct (closes (tn_end (turns i))) eqn:Ec.
      * exists i. split; [by split|]. by rewrite written_S.
      * split; [|by rewrite written_S]. intros j Hj. destruct (decide (j = i)) as [->|]; [done|]. apply Hno. lia.
  - rewrite Hf1 in Hs2. intros Hfin. destruct (lo_finished l).
    + destruct Hs2 as [_ ->]. rewrite Hs1. by apply Hs.
    + exists i. by apply Hs2.
Qed.

(** A turn after the deadline is the last. *)
Lemma command_loop_ends fuel : forall i l n, have = true -> deadline <= tn_now (turns n) ->
  (i <= n)%nat -> (n < i + fuel)%nat -> running l -> within limit l ->
  is_Some (command_loop fuel limit have deadline turns i l).
Proof.
  induction fuel as [|fuel IH]; intros i l n Hh Hd Hi Hf Hr Hw; [lia|]. cbn [command_loop].
  destruct (lo_closed l && lo_finished l); [by eexists|].
  pose proof (read_turn_spec limit (turns i) l Hr Hw) as H1.
  destruct (read_turn _ _ _) as [l1|]; [|by eexists]. destruct H1 as (Hr1 & Hw1 & _).
  pose proof (wait_turn_spec limit (turns i) l1 Hr1 Hw1) as H2.
  destruct (wait_turn _ _) as [l2|]; [|by eexists]. destruct H2 as (Hr2 & Hw2 & _).
  pose proof (deadline_turn_spec limit have deadline (turns i) l2 Hr2 Hw2) as H3.
  destruct (deadline_turn _ _ _ _) as [l3|]; [|by eexists]. destruct H3 as [-> Hnot].
  apply (IH _ _ n); try done; [|lia]. destruct (decide (i = n)) as [->|]; [tauto|lia].
Qed.
End Run.

(** ** Properties *)

Section Command.
Variable e : Spawn.
Variable command : str.
Variable output_limit timeout : Z.
Hypothesis limit_ok : 0 <= output_limit.

Lemma setup_spawn_spec t status t' :
  setup_spawn (sp_setup e) t = (status, t') -> actions_live t = false -> attributes_live t = false ->
  if status =? 0 then t' = t <| actions_live := true |> <| attributes_live := true |> else t' = t.
Proof.
  unfold setup_spawn. destruct t; cbn. intros E -> ->. revert E.
  destruct (Z.eqb_spec (sa_actions (sp_setup e)) 0) as [Ha|Ha]; cbn.
  2:{ intros [= <- <-]. by rewrite (proj2 (Z.eqb_neq _ _)). }
  destruct (Z.eqb_spec (sa_attributes (sp_setup e)) 0) as [Hb|Hb]; cbn.
  2:{ intros [= <- <-]. by rewrite (proj2 (Z.eqb_neq _ _)). }
  destruct (Z.eqb_spec (fold_left add_action (sa_adds (sp_setup e)) 0) 0) as [Hc|Hc]; cbn; intros [= <- <-]; [done|].
  by rewrite (proj2 (Z.eqb_neq _ _)).
Qed.

(** The loop of [run_command], or an error before it. *)
Lemma run_command_cases :
  (exists out, (forall fuel, run_command fuel e command output_limit timeout = Some out) /\
     is_ok out.1 = false /\ settled out) \/
  exists l, running l /\ within output_limit l /\ lo_closed l = false /\ lo_finished l = false /\
    output (lo_result l) = [] /\
    forall fuel, run_command fuel e command output_limit timeout =
      command_loop fuel output_limit (0 <? timeout) (sp_start e + timeout) (sp_turns e) 0 l.
Proof using limit_ok.
  unfold run_command. destruct (_ || _); [left; eexists; by split_and!|].
  destruct (sp_pipe e); [|left; eexists; by split_and!].
  destruct (setup_spawn _ _) as [status t] eqn:Es. apply setup_spawn_spec in Es; [|done..].
  destruct (status =? 0); subst t; cbn [negb]; [|left; eexists; by split_and!].
  destruct (sp_spawn e =? 0); cbn [negb]; [|left; eexists; by split_and!].
  destruct (sp_fcntl e); [|left; eexists; by split_and!].
  right. eexists. split; [|split; [|split_and!; [..|intros fuel; reflexivity]]]; try done.
Qed.

(** C30: every way out of a command cleans up after it: whatever the system
    answers, both ends of the pipe are closed, the spawn structures destroyed
    and the child ended, and when there is a result it was waited for. A
    result never holds more than the limit; unless it says it was cut short by
    the limit or the timeout, and then the child's whole group was killed, it
    holds all the child wrote until it closed its output, and the way it
    ended. *)
Theorem command_leaves_nothing_behind fuel out :
  run_command fuel e command output_limit timeout = Some out ->
  settled out /\
  forall r, out.1 = Ok r ->
    Z.of_nat (length (output r)) <= output_limit /\
    if timed_out r || output_limit_exceeded r then group_killed out.2 = true /\ exit_code r = -1
    else exists k j status, closed_at (sp_turns e) k /\ output r = written (sp_turns e) (S k) /\
         tn_wait (sp_turns e j) = Ended status /\ exit_code r = exit_code_of status (-1).
Proof using limit_ok.
  intros E. destruct run_command_cases as [(o & Ho & Hno & Hs)|(l & Hr & Hw & Hc & Hf & Hout & Hrun)].
  { rewrite Ho in E. injection E as <-. split; [done|]. intros r Hr. by rewrite Hr in Hno. }
  rewrite Hrun in E. apply command_loop_spec in E as [Hs Hcase].
  2:{ constructor; try done; rewrite ?Hc, ?Hf; [|done]. split; [lia|done]. }
  split; [done|]. intros r Hok. destruct Hcase as [Hcut|Hall].
  - destruct (Hcut r Hok) as (H1 & H2 & H3 & H4). split; [done|].
    destruct H3 as [-> | ->]; [|rewrite orb_true_r]; done.
  - destruct Hall as (r' & k & j & status & Hok' & Ht & Hx & Hlen & Hk & Ho & Hj & He).
    rewrite Hok' in Hok. injection Hok as ->. split; [done|]. rewrite Ht, Hx. cbn. by exists k, j, status.
Qed.

(** A command with a timeout always comes back: once the clock of a turn
    has reached the deadline, the call returns within that turn, whatever the
    child does. *)
Theorem command_with_timeout_returns n :
  0 < timeout -> sp_start e + timeout <= tn_now (sp_turns e n) ->
  is_Some (run_command (S n) e command output_limit timeout).
Proof using limit_ok.
  intros Ht Hn. destruct run_command_cases as [(o & Ho & _)|(l & Hr & Hw & _ & _ & _ & ->)]; [by rewrite Ho|].
  apply (command_loop_ends _ _ _ _ _ 0 l n); try done; [by apply Z.ltb_lt|lia..].
Qed.
End Command.

(** ** The child's descriptors *)

(** What a descriptor of the child is: an end of the pipe, or something of the
    parent. *)
Inductive endpoint := ReadEnd | WriteEnd | Inherited.

(** What [posix_spawn] does with its file actions, in order, to the copy of
    the descriptors: [dup2] onto itself changes nothing. *)
Definition apply_action (fds : gmap Z endpoint) (a : file_action) : gmap Z endpoint :=
  match a with
  | Adddup2 fd new => match fds !! fd with Some what => <[new := what]> fds | None => fds end
  | Addclose fd => delete fd fds
  end.

Definition child_fds (parent : gmap Z endpoint) (read_descriptor write_descriptor : Z) : gmap Z endpoint :=
  fold_left apply_action (spawn_actions read_descriptor write_descriptor)
    (<[write_descriptor := WriteEnd]> (<[read_descriptor := ReadEnd]> parent)).

(** The child's output is the pipe, and no other descriptor of the child is an
    end of it, if the parent's standard output was not free when the pipe was
    made. *)
Lemma child_writes_into_the_pipe parent rd wr : rd <> wr -> rd <> STDOUT_FILENO ->
  (forall fd, parent !! fd <> Some ReadEnd /\ parent !! fd <> Some WriteEnd) ->
  child_fds parent rd wr !! STDOUT_FILENO = Some WriteEnd /\
  forall fd, fd <> STDOUT_FILENO ->
    child_fds parent rd wr !! fd <> Some ReadEnd /\ child_fds parent rd wr !! fd <> Some WriteEnd.
Proof.
  intros Hne H1 Hp. unfold child_fds, spawn_actions, STDOUT_FILENO in *.
  destruct (Z.eqb_spec wr 1) as [->|Hw]; cbn [app fold_left apply_action].
  - rewrite lookup_insert_eq. split; [by rewrite lookup_delete_ne, !lookup_insert_eq by done|].
    intros fd Hfd. destruct (decide (fd = rd)) as [->|]; [by rewrite lookup_delete_eq|].
    rewrite lookup_delete_ne, !lookup_insert_ne by done. apply Hp.
  - rewrite lookup_insert_eq. split; [by rewrite !lookup_delete_ne, lookup_insert_eq by done|].
    intros fd Hfd. destruct (decide (fd = wr)) as [->|]; [by rewrite lookup_delete_eq|].
    rewrite lookup_delete_ne by done. destruct (decide (fd = rd)) as [->|]; [by rewrite lookup_delete_eq|].
    rewrite lookup_delete_ne, !lookup_insert_ne by done. apply Hp.
Qed.

(** A parent that closed its standard output gets it back as the read end:
    the child's standard output is then closed, and the command's output is
    lost. *)
Example closed_stdout_loses_the_output :
  child_fds {[ 0 := Inherited; 2 := Inherited ]} 1 3 !! STDOUT_FILENO = None.
Proof. vm_compute. reflexivity. Qed.

(** *** Witnesses *)

(** A command that writes twice and exits with status 3; and one that hangs. *)
Definition writing : Spawn :=
  {| sp_pipe := Ok (5, 6); sp_setup := mkSetupAnswers 0 0 [0; 0; 0; 0; 0]; sp_spawn := 0; sp_fcntl := Ok tt;
     sp_start := 1000;
     sp_turns := fun i => match i with
                          | O => mkTurn [$"key"] NothingYet StillRunning 1010
                          | S O => mkTurn [$"="; $"value"] PipeClosed StillRunning 1020
                          | _ => mkTurn [] NothingYet (Ended (Exited 3)) 1030
                          end |}.
Definition hanging : Spawn :=
  {| sp_pipe := Ok (5, 6); sp_setup := mkSetupAnswers 0 0 [0; 0; 0; 0; 0]; sp_spawn := 0; sp_fcntl := Ok tt;
     sp_start := 1000; sp_turns := fun i => mkTurn [] NothingYet StillRunning (1000 + 50 * Z.of_nat i) |}.

Lemma command_leaves_nothing_behind_witness :
  exists out r, run_command 5 writing $"print" 1048576 5000 = Some out /\ out.1 = Ok r /\ settled out /\
    output r = $"key=value" /\ exit_code r = 3.
Proof.
  destruct (run_command 5 writing $"print" 1048576 5000) as [out|] eqn:E; [|vm_compute in E; discriminate].
  assert (Hl : 0 <= 1048576) by lia.
  destruct (command_leaves_nothing_behind writing $"print" 1048576 5000 Hl 5 out E) as [Hs _].
  vm_compute in E. injection E as <-. eexists _, _. split; [reflexivity|]. split; [reflexivity|].
  split; [exact Hs|]. split; vm_compute; reflexivity.
Defined.

Lemma command_with_timeout_returns_witness :
  is_Some (run_command 21 hanging $"sleep" 1048576 1000) /\
  exists t, run_command 21 hanging $"sleep" 1048576 1000 = Some (Ok (mkCommandResult [] (-1) true false), t).
Proof.
  assert (Hl : 0 <= 1048576) by lia. assert (Ht : 0 < 1000) by lia.
  assert (Hn : sp_start hanging + 1000 <= tn_now (sp_turns hanging 20)) by (vm_compute; discriminate).
  split; [exact (command_with_timeout_returns hanging $"sleep" 1048576 1000 Hl 20 Ht Hn)|].
  eexists. vm_compute. reflexivity.
Defined.
