(* ===== verification/System.v ===== *)
(** * System: queues, workers and batches together

    Models the rest of [src/src/runtime/engine.cpp]: the split of the
    concurrency limit (constructor), submit, queue_http, take_http,
    discard_cancelled_http, the phases of io_loop, the two worker pools,
    cancel and the shutdown of the destructor.  Each function is one critical
    section or one turn of a worker; [step] interleaves them in any order, so
    what holds in every reachable state holds for every schedule.  A transfer
    a worker holds outside the locks is in [file_hands] or
    [credential_hands]; one that finish_transfer ends is in [closing], with
    the parts it has yet to push; [waiting] is the local queue io_loop swaps
    [loop.resolving] into.  Batches are named by numbers and stay in the map,
    so a name is never reused. *)

From S2P Require Import Prelude Text Uri Types Planner Response Transport Batch Engine.

(** ** State *)

Record IoLoop := mkIoLoop {
  limit : nat;
  pending : list Transfer;
  active : list Transfer;
  retry_queue : list (Z * Transfer);
  resolving : list Transfer;
  waiting : list Transfer;
  cancellation_pending : bool;
}.
#[export] Instance IoLoop_eta : Eta IoLoop := fun r =>
  mkIoLoop (limit r) (pending r) (active r) (retry_queue r) (resolving r) (waiting r)
    (cancellation_pending r).

(** A transfer in the hands of [finish_transfer]: its [parts] are those whose
    completion is still to be pushed. *)
Record Closing := mkClosing { cl_transfer : Transfer; cl_status : karu_status; cl_text : str }.
#[export] Instance Closing_eta : Eta Closing := fun r => mkClosing (cl_transfer r) (cl_status r) (cl_text r).

Record EngineState := mkEngineState {
  stop : bool;
  file_queue : list Transfer;
  credential_queue : list Transfer;
  http_queue : list Transfer;
  file_hands : list Transfer;
  credential_hands : list Transfer;
  loops : list IoLoop;
  batches : gmap nat karu_batch;
  e_memory : memory;
  closing : list Closing;
}.
#[export] Instance EngineState_eta : Eta EngineState := fun r =>
  mkEngineState (stop r) (file_queue r) (credential_queue r) (http_queue r) (file_hands r)
    (credential_hands r) (loops r) (batches r) (e_memory r) (closing r).

(** ** The constructor: the loops and their shares of the limit *)

Definition loop_count (o : ClientOptions) : nat :=
  Z.to_nat (Z.max 1 (Z.min (io_threads o) (Z.min (concurrency o) 64))).

Definition loop_limit (o : ClientOptions) (index : nat) : nat :=
  let n := Z.to_nat (concurrency o) in
  (n / loop_count o + (if index <? n mod loop_count o then 1 else 0))%nat.

Definition new_loop (o : ClientOptions) (index : nat) : IoLoop :=
  {| limit := loop_limit o index; pending := []; active := []; retry_queue := []; resolving := [];
     waiting := []; cancellation_pending := false |}.

Definition new_engine (o : ClientOptions) (m : memory) : EngineState :=
  {| stop := false; file_queue := []; credential_queue := []; http_queue := []; file_hands := [];
     credential_hands := []; loops := map (new_loop o) (seq 0 (loop_count o)); batches := ∅;
     e_memory := m; closing := [] |}.

(** ** Small updates *)

Definition with_loop (i : nat) (f : IoLoop -> IoLoop) (e : EngineState) : EngineState :=
  e <| loops := alter f i (loops e) |>.
Definition with_batch (id : nat) (f : karu_batch -> karu_batch) (e : EngineState) : EngineState :=
  e <| batches := alter f id (batches e) |>.

Definition is_cancelled (e : EngineState) (t : Transfer) : bool :=
  match batches e !! t_batch t with Some b => cancelled b | None => false end.

Definition discard (t : Transfer) (e : EngineState) : EngineState :=
  with_batch (t_batch t) discard_transfer e.
Definition discard_all (ts : list Transfer) (e : EngineState) : EngineState :=
  foldr discard e ts.

(** [queue_http] *)
Definition queue_http (t : Transfer) (e : EngineState) : EngineState :=
  if stop e then discard t e else e <| http_queue := http_queue e ++ [t] |>.

(** ** [finish_transfer]

    The worker counts the transfer, then pushes the completion of one part
    after another, then lets go of the transfer and of the batch.  The batch's
    mutex is free between any two of these. *)

Definition start_closing (t : Transfer) (status : karu_status) (text : str) (e : EngineState) : EngineState :=
  with_batch (t_batch t) (add n_transfers_finished 1) (e <| closing := closing e ++ [mkClosing t status text] |>).

(** The next thing the worker of the transfer at [k] does: one turn of the
    loop of [deliver], or [transfer_finished] after the last. *)
Definition close_turn (k : nat) (e : EngineState) : EngineState :=
  match closing e !! k with
  | Some c =>
      let t := cl_transfer c in
      match batches e !! t_batch t with
      | Some b =>
          match parts t with
          | p :: ps =>
              let '(completion, m) := deliver_part t (cl_status c) (cl_text c) (e_memory e) p in
              e <| closing := <[k := c <| cl_transfer := t <| parts := ps |> |>]> (closing e) |>
                <| batches := <[t_batch t := push b completion]> (batches e) |> <| e_memory := m |>
          | [] =>
              e <| closing := delete k (closing e) |>
                <| batches := <[t_batch t := transfer_finished b]> (batches e) |>
          end
      | None => e
      end
  | None => e
  end.

(** What loop [i] (or a worker) does with its transfer at the end. *)
Definition dispose (i : nat) (out : outcome) (e : EngineState) : EngineState :=
  match out with
  | Finish t status text => start_closing t status text e
  | Discard t => discard t e
  | ToResolving t => with_loop i (fun l => l <| resolving := resolving l ++ [t] |>) e
  | ToActive t => with_loop i (fun l => l <| active := active l ++ [t] |>) e
  | ToPendingFront t => with_loop i (fun l => l <| pending := t :: pending l |>) e
  | ToCredentialsFront t => e <| credential_queue := t :: credential_queue e |>
  | ToRetries due t => with_loop i (fun l => l <| retry_queue := retry_queue l ++ [(due, t)] |>) e
  | ToHttpQueue t => queue_http t e
  end.

(** ** [submit] *)

Definition parts_count (ts : list Transfer) : Z :=
  foldr (fun t n => Z.of_nat (length (parts t)) + n) 0 ts.

Definition requested (ts : list Transfer) : Z :=
  foldr (fun t n => parts_length (parts t) + n) 0 ts.

Definition is_file (t : Transfer) : bool := bool_decide (backend (t_locator t) = File).
Definition needs_lookup (t : Transfer) : bool :=
  negb (is_file t) && has_cloud_provider (backend (t_locator t)).
Definition is_ready (t : Transfer) : bool :=
  negb (is_file t) && negb (has_cloud_provider (backend (t_locator t))).

Definition submit (id : nat) (requests : list Request) (plan_options : ClientOptions)
    (heap : list Z) (e : EngineState) : EngineState * karu_status :=
  match requests with
  | [] => (e <| batches := <[id := karu_batch_default]> (batches e) |>, KARU_OK)
  | _ =>
      let '(plan, status, _) := plan_transfers id requests plan_options heap in
      if negb (status_is status KARU_OK) then
        (e <| batches := <[id := karu_batch_default]> (batches e) |>, status)
      else
        let ts := transfers plan in
        let b := karu_batch_default
                   <| pending_parts := parts_count ts + Z.of_nat (length (immediate plan)) |>
                   <| live_transfers := Z.of_nat (length ts) |> in
        let b := add n_requested_bytes (requested ts) (add n_transfers (Z.of_nat (length ts)) b) in
        let b := fold_left push (immediate plan) b in
        (e <| batches := <[id := b]> (batches e) |>
           <| file_queue := file_queue e ++ base.filter (fun t => is_file t) ts |>
           <| credential_queue := credential_queue e ++ base.filter (fun t => needs_lookup t) ts |>
           <| http_queue := http_queue e ++ base.filter (fun t => is_ready t) ts |>, KARU_OK)
  end.

(** ** The I/O loop *)

Definition room_for (l : IoLoop) : nat :=
  (limit l - (length (active l) + length (pending l) + length (resolving l)))%nat.

Definition take_http (i : nat) (e : EngineState) : EngineState :=
  match loops e !! i with
  | Some l =>
      with_loop i (fun l => l <| pending := pending l ++ take (room_for l) (http_queue e) |>)
        (e <| http_queue := drop (room_for l) (http_queue e) |>)
  | None => e
  end.

Definition keep_live (e : EngineState) (ts : list Transfer) : list Transfer :=
  base.filter (fun t => negb (is_cancelled e t)) ts.
Definition doomed (e : EngineState) (ts : list Transfer) : list Transfer :=
  base.filter (fun t => is_cancelled e t) ts.

Definition discard_cancelled_http (i : nat) (e : EngineState) : EngineState :=
  match loops e !! i with
  | Some l =>
      discard_all (doomed e (pending l) ++ doomed e (resolving l)
                   ++ doomed e (map snd (retry_queue l)) ++ doomed e (active l))
        (with_loop i (fun l =>
           l <| cancellation_pending := false |>
             <| pending := keep_live e (pending l) |> <| resolving := keep_live e (resolving l) |>
             <| retry_queue := base.filter (fun r => negb (is_cancelled e r.2)) (retry_queue l) |>
             <| active := keep_live e (active l) |>) e)
  | None => e
  end.

(** The retries that are due at [now] go back to [pending]. *)
Definition due_retries (i : nat) (now : Z) (e : EngineState) : EngineState :=
  with_loop i (fun l =>
    l <| pending := pending l ++ map snd (base.filter (fun r => r.1 <= now) (retry_queue l)) |>
      <| retry_queue := base.filter (fun r => ~ r.1 <= now) (retry_queue l) |>) e.

(** [waiting.swap(loop.resolving)] *)
Definition swap_resolving (i : nat) (e : EngineState) : EngineState :=
  with_loop i (fun l => l <| waiting := waiting l ++ resolving l |> <| resolving := [] |>) e.

Section Steps.
Context `{RequestBuilding}.
Variable options : ClientOptions.

(** One turn of the loop over [waiting]. *)
Definition restart_waiting (i : nat) (env : StartEnv) (e : EngineState) : EngineState :=
  match loops e !! i with
  | Some l =>
      match waiting l with
      | t :: rest =>
          let e := with_loop i (fun l => l <| waiting := rest |>) e in
          if is_cancelled e t then discard t e
          else dispose i (start_transfer options env t true) e
      | [] => e
      end
  | None => e
  end.

(** One turn of the loop over [pending]. *)
Definition start_pending (i : nat) (env : StartEnv) (e : EngineState) : EngineState :=
  match loops e !! i with
  | Some l =>
      if (length (active l) + length (resolving l) <? limit l)%nat then
        match pending l with
        | t :: rest =>
            let e := with_loop i (fun l => l <| pending := rest |>) e in
            if is_cancelled e t then discard t e
            else dispose i (start_transfer options env t false) e
        | [] => e
        end
      else e
  | None => e
  end.

(** libcurl calls back for the active transfer at [j]: [f] gives the transfer,
    memory and the bytes to count. *)
Definition callback (i j : nat) (f : Transfer -> memory -> Transfer * memory * Z)
    (e : EngineState) : EngineState :=
  match loops e !! i with
  | Some l =>
      match active l !! j with
      | Some t =>
          let '(u, m, n) := f t (e_memory e) in
          with_batch (t_batch t) (add n_received_bytes n)
            (with_loop i (fun l => l <| active := <[j := u]> (active l) |>)
               (e <| e_memory := m |>))
      | None => e
      end
  | None => e
  end.

Definition on_body (data : str) (size count response_code content_length : Z) (t : Transfer)
    (m : memory) : Transfer * memory * Z :=
  let r := write_callback t m data size count response_code content_length in
  (w_transfer r, w_memory r, counted r).

Definition on_header (f : str -> Z) (g : str -> option (str * str * str))
    (h : str -> str -> option (str * str * str)) (line : str) (size count now : Z) (t : Transfer)
    (m : memory) : Transfer * memory * Z :=
  ((header_callback f g h t line size count now).2, m, 0).

(** [curl_multi_perform] failed: one turn of the loop that ends the active
    transfers. *)
Definition fail_active (i j : nat) (text : str) (e : EngineState) : EngineState :=
  match loops e !! i with
  | Some l =>
      match active l !! j with
      | Some t =>
          dispose i (Finish t KARU_ERR_NETWORK (concat [Text $"curl_multi_perform: "; Text text]))
            (with_loop i (fun l => l <| active := delete j (active l) |>) e)
      | None => e
      end
  | None => e
  end.

(** One message of [curl_multi_info_read]. *)
Definition message (i j : nat) (env : DoneEnv) (e : EngineState) : EngineState :=
  match loops e !! i with
  | Some l =>
      match active l !! j with
      | Some t =>
          match batches e !! t_batch t with
          | Some b =>
              let '(out, b, _) := on_done options env t b in
              dispose i out
                (with_loop i (fun l => l <| active := delete j (active l) |>)
                   (e <| batches := <[t_batch t := b]> (batches e) |>))
          | None => e
          end
      | None => e
      end
  | None => e
  end.

(** ** The worker pools *)

Definition take_file (e : EngineState) : EngineState :=
  match file_queue e with
  | t :: rest => e <| file_queue := rest |> <| file_hands := file_hands e ++ [t] |>
  | [] => e
  end.

Definition take_credential (e : EngineState) : EngineState :=
  if stop e then e
  else match credential_queue e with
       | t :: rest => e <| credential_queue := rest |> <| credential_hands := credential_hands e ++ [t] |>
       | [] => e
       end.

Definition work_file (j : nat) (read_at : Z -> Z -> expected str str) (env : FileEnv)
    (e : EngineState) : EngineState :=
  match file_hands e !! j with
  | Some t =>
      match batches e !! t_batch t with
      | Some b =>
          let '(out, m, b) := file_work read_at env t (e_memory e) b in
          dispose 0 out (e <| file_hands := delete j (file_hands e) |> <| e_memory := m |>
                           <| batches := <[t_batch t := b]> (batches e) |>)
      | None => e
      end
  | None => e
  end.

Definition work_credential (j : nat) (env : CredentialEnv) (e : EngineState) : EngineState :=
  match credential_hands e !! j with
  | Some t =>
      dispose 0 (credential_work options env t)
        (e <| credential_hands := delete j (credential_hands e) |>)
  | None => e
  end.
End Steps.

(** ** [cancel] *)

Definition of_batch (id : nat) (ts : list Transfer) : list Transfer :=
  base.filter (fun t => t_batch t = id) ts.
Definition others (id : nat) (ts : list Transfer) : list Transfer :=
  base.filter (fun t => t_batch t <> id) ts.

Definition cancel_mark (id : nat) (e : EngineState) : EngineState :=
  with_batch id (fun b => b <| cancelled := true |>) e.

(** The critical section of [queue_mutex_]. *)
Definition cancel_queues (id : nat) (e : EngineState) : EngineState :=
  discard_all (of_batch id (file_queue e) ++ of_batch id (credential_queue e))
    (e <| file_queue := others id (file_queue e) |>
       <| credential_queue := others id (credential_queue e) |>).

(** The critical section of [http_mutex_]. *)
Definition cancel_http (id : nat) (e : EngineState) : EngineState :=
  discard_all (of_batch id (http_queue e)) (e <| http_queue := others id (http_queue e) |>).

Definition cancel_wake (e : EngineState) : EngineState :=
  e <| loops := map (fun l => l <| cancellation_pending := true |>) (loops e) |>.

(** [cancel] returns when the batch has no live transfer. *)
Definition cancel_returns (id : nat) (e : EngineState) : bool :=
  match batches e !! id with Some b => cancelled b && (live_transfers b =? 0) | None => false end.

(** ** Shutdown *)

(** [stop_workers], up to the joins: the workers then leave their loops. *)
Definition stop_workers (e : EngineState) : EngineState := e <| stop := true |>.

Definition drain_loop (i : nat) (e : EngineState) : EngineState :=
  match loops e !! i with
  | Some l =>
      discard_all (active l ++ pending l ++ resolving l ++ map snd (retry_queue l))
        (with_loop i (fun l => l <| active := [] |> <| pending := [] |> <| resolving := [] |>
                                 <| retry_queue := [] |>) e)
  | None => e
  end.

Definition drain_queues (e : EngineState) : EngineState :=
  discard_all (http_queue e ++ file_queue e ++ credential_queue e)
    (e <| http_queue := [] |> <| file_queue := [] |> <| credential_queue := [] |>).

(** A consumer takes a completion of batch [id]. *)
Definition consume_next (id : nat) (timeout_ms : Z) (e : EngineState) : EngineState :=
  match batches e !! id with
  | Some b => match next b timeout_ms with
              | Some (_, _, b) => e <| batches := <[id := b]> (batches e) |>
              | None => e
              end
  | None => e
  end.

(** ** Where the transfers are *)

Definition loop_transfers (l : IoLoop) : list Transfer :=
  pending l ++ active l ++ map snd (retry_queue l) ++ resolving l ++ waiting l.

(** Those that have still to make their way, and all of them. *)
Definition queued (e : EngineState) : list Transfer :=
  file_queue e ++ credential_queue e ++ http_queue e ++ file_hands e ++ credential_hands e
  ++ List.concat (map loop_transfers (loops e)).

Definition transfers_of (e : EngineState) : list Transfer := queued e ++ map cl_transfer (closing e).

(** What consumers asked for and got so far: the tags of the requests of every
    batch, and of the completions handed out. *)
Record History := mkHistory { asked : gmap nat (list Z); taken : gmap nat (list Z) }.
#[export] Instance History_eta : Eta History := fun r => mkHistory (asked r) (taken r).

Definition tags_asked (h : History) (id : nat) : list Z := default [] (asked h !! id).
Definition tags_taken (h : History) (id : nat) : list Z := default [] (taken h !! id).

Section Accounts.
Variable h : History.

(** The accounts of every batch agree with the transfers [ts] in the system:
    its live transfers are counted, and until it is cancelled or the engine
    stops, so are the parts that still owe a completion, and every request is
    handed out, ready, or a part of a transfer. *)
Definition books (e : EngineState) (ts : list Transfer) : Prop :=
  forall id,
    match batches e !! id with
    | Some b =>
        live_transfers b = Z.of_nat (length (of_batch id ts)) /\
        parts_count (of_batch id ts) <= pending_parts b /\
        (cancelled b = false -> stop e = false ->
         pending_parts b = parts_count (of_batch id ts) /\
         tags_asked h id ≡ₚ tags_taken h id ++ map c_tag (ready_queue b) ++ tags_of (of_batch id ts))
    | None => of_batch id ts = []
    end.

#[local] Instance of_batch_proper id : Proper ((≡ₚ) ==> (≡ₚ)) (of_batch id).
Proof. intros ts ts' H. unfold of_batch. by rewrite H. Qed.

#[local] Instance tags_of_proper : Proper ((≡ₚ) ==> (≡ₚ)) tags_of.
Proof.
  intros ts ts' H. unfold tags_of. induction H; cbn; [done|by rewrite IHPermutation| |by etrans].
  solve_Permutation.
Qed.

Lemma loop_count_bounds o : (1 <= loop_count o <= 64)%nat.
Proof. unfold loop_count. lia. Qed.

Lemma parts_count_cons t ts : parts_count (t :: ts) = Z.of_nat (length (parts t)) + parts_count ts.
Proof. done. Qed.

Lemma parts_count_perm ts ts' : ts ≡ₚ ts' -> parts_count ts = parts_count ts'.
Proof.
  induction 1; rewrite ?parts_count_cons; [done|lia|lia|congruence].
Qed.

Lemma parts_count_nonneg ts : 0 <= parts_count ts.
Proof. induction ts; [done|]. rewrite parts_count_cons. lia. Qed.

Lemma books_perm e ts ts' : ts ≡ₚ ts' -> books e ts -> books e ts'.
Proof.
  intros Hp H id. specialize (H id).
  assert (Hof : of_batch id ts ≡ₚ of_batch id ts') by by rewrite Hp.
  destruct (batches e !! id).
  - by rewrite <-(Permutation_length Hof), <-(parts_count_perm _ _ Hof), <-Hof.
  - rewrite H in Hof. by apply Permutation_nil_l in Hof.
Qed.

Lemma books_ext e e' ts :
  batches e' = batches e -> stop e' = stop e -> books e ts -> books e' ts.
Proof. intros Hb Hs H id. rewrite Hb, Hs. apply H. Qed.

Lemma of_batch_cons id t ts :
  of_batch id (t :: ts) = if decide (t_batch t = id) then t :: of_batch id ts else of_batch id ts.
Proof. unfold of_batch. rewrite filter_cons. done. Qed.

Lemma books_same_job e t t' ts : same_job t t' -> books e (t :: ts) -> books e (t' :: ts).
Proof.
  intros (Hb & _ & _ & Hp & _) H id. specialize (H id). rewrite !of_batch_cons in *. rewrite Hb.
  destruct (decide (t_batch t = id)); [|done]. destruct (batches e !! id); [|done].
  rewrite parts_count_cons in *. unfold tags_of in *. cbn [length map List.concat] in *. by rewrite Hp.
Qed.

Lemma books_batch e t ts : books e (t :: ts) -> is_Some (batches e !! t_batch t).
Proof.
  intros H. specialize (H (t_batch t)). rewrite of_batch_cons, decide_True in H by done.
  destruct (batches e !! t_batch t); [by eexists|done].
Qed.

Lemma books_discard e t ts :
  books e (t :: ts) -> is_cancelled e t = true \/ stop e = true -> books (discard t e) ts.
Proof.
  intros H Hc id. destruct (books_batch _ _ _ H) as [b Hb]. unfold is_cancelled in Hc. rewrite Hb in Hc.
  specialize (H id). rewrite of_batch_cons in H. unfold discard, with_batch. cbn.
  destruct (decide (t_batch t = id)) as [<-|Hne].
  - rewrite lookup_alter_eq, Hb in *. rewrite parts_count_cons in H. cbn [length] in H.
    cbn. destruct H as (H1 & H2 & H3). rewrite (proj2 (Z.ltb_lt 0 _)) by lia.
    split_and!; [lia|lia|]. intros Hcf Hsf. destruct Hc; congruence.
  - by rewrite lookup_alter_ne.
Qed.

Lemma discard_is_cancelled e t u : is_cancelled (discard t e) u = is_cancelled e u.
Proof.
  unfold is_cancelled, discard, with_batch. cbn.
  destruct (decide (t_batch t = t_batch u)) as [->|Hne].
  - rewrite lookup_alter_eq. by destruct (batches e !! t_batch u).
  - by rewrite lookup_alter_ne.
Qed.

Lemma discard_all_frame ts e :
  stop (discard_all ts e) = stop e /\ transfers_of (discard_all ts e) = transfers_of e /\
  queued (discard_all ts e) = queued e /\ loops (discard_all ts e) = loops e /\
  (forall u, is_cancelled (discard_all ts e) u = is_cancelled e u).
Proof.
  induction ts as [|t ts IH]; cbn [discard_all foldr]; [done|].
  destruct IH as (H1 & H2 & H3 & H4 & H5). fold (discard_all ts e).
  split_and!; [done..|]. intros u. rewrite discard_is_cancelled. apply H5.
Qed.

Lemma books_discard_all ts e us :
  books e (ts ++ us) -> Forall (fun t => is_cancelled e t = true \/ stop e = true) ts ->
  books (discard_all ts e) us.
Proof.
  revert us. induction ts as [|t ts IH]; intros us H Hc; cbn [discard_all foldr] in *; [done|].
  apply Forall_cons_iff in Hc as [Ht Hc]. fold (discard_all ts e).
  pose proof (discard_all_frame ts e) as (Hs & _ & _ & _ & Hcan).
  apply books_discard; [|by rewrite Hs, Hcan].
  apply IH; [|done]. eapply books_perm; [|exact H]. cbn. apply Permutation_middle.
Qed.

(** The completion of the first part is pushed. *)
Lemma books_push e t p ps ts b c :
  parts t = p :: ps -> c_tag c = p_tag p -> books e (t :: ts) -> batches e !! t_batch t = Some b ->
  books (e <| batches := <[t_batch t := push b c]> (batches e) |>) (t <| parts := ps |> :: ts).
Proof.
  intros Hp Hc H Hb id. specialize (H id). rewrite of_batch_cons in *. cbn -[of_batch parts_count tags_of push].
  change (t_batch (t <| parts := ps |>)) with (t_batch t).
  destruct (decide (t_batch t = id)) as [<-|Hne]; [|by rewrite lookup_insert_ne].
  rewrite lookup_insert_eq. rewrite Hb in H. rewrite parts_count_cons in *. rewrite Hp in H.
  change (parts (t <| parts := ps |>)) with ps. cbn [length] in *. destruct H as (H1 & H2 & H3).
  revert H1 H2 H3. generalize (of_batch (t_batch t) ts) as us. intros us H1 H2 H3.
  pose proof (parts_count_nonneg us). cbn. rewrite (proj2 (Z.ltb_lt 0 _)) by lia.
  split_and!; [done|lia|]. intros Hcf Hsf. destruct (H3 Hcf Hsf) as [H4 H5]. split; [lia|].
  rewrite H5, map_app. unfold tags_of. cbn. rewrite Hp, Hc. cbn. by rewrite <-!app_assoc.
Qed.

(** The worker lets go of a transfer without parts to push. *)
Lemma books_release e t ts b :
  parts t = [] -> books e (t :: ts) -> batches e !! t_batch t = Some b ->
  books (e <| batches := <[t_batch t := transfer_finished b]> (batches e) |>) ts.
Proof.
  intros Hp H Hb id. cbn. specialize (H id). rewrite of_batch_cons in H.
  destruct (decide (t_batch t = id)) as [<-|Hne]; [|by rewrite lookup_insert_ne].
  rewrite lookup_insert_eq. rewrite Hb, parts_count_cons, Hp in H. cbn [length] in H.
  revert H. generalize (of_batch (t_batch t) ts) as us. intros us (H1 & H2 & H3).
  cbn. rewrite (proj2 (Z.ltb_lt 0 _)) by lia. split_and!; [lia|lia|]. intros Hcf Hsf. destruct (H3 Hcf Hsf) as [H4 H5]. split; [lia|]. rewrite H5. unfold tags_of. cbn. by rewrite Hp.
Qed.

(** ** Moving transfers *)

Lemma loops_split (ls : list IoLoop) i l :
  ls !! i = Some l ->
  exists rest, List.concat (map loop_transfers ls) ≡ₚ loop_transfers l ++ rest /\
    forall f, List.concat (map loop_transfers (alter f i ls)) ≡ₚ loop_transfers (f l) ++ rest.
Proof.
  revert i. induction ls as [|l0 ls IH]; intros [|i]; cbn; [done|done| |].
  - intros [= ->]. by eexists.
  - intros Hl. destruct (IH i Hl) as (rest & H1 & H2).
    exists (loop_transfers l0 ++ rest). split.
    + rewrite H1. by rewrite Permutation_app_swap_app.
    + intros f. rewrite H2. by rewrite Permutation_app_swap_app.
Qed.

Lemma transfers_with_loop e i l :
  loops e !! i = Some l ->
  exists rest, transfers_of e ≡ₚ loop_transfers l ++ rest /\
    forall f, transfers_of (with_loop i f e) ≡ₚ loop_transfers (f l) ++ rest.
Proof.
  intros Hl. destruct (loops_split _ _ _ Hl) as (rest & H1 & H2). unfold transfers_of, queued.
  exists (file_queue e ++ credential_queue e ++ http_queue e ++ file_hands e ++ credential_hands e ++ rest
          ++ map cl_transfer (closing e)).
  split; [rewrite H1|intros f; cbn; rewrite H2]; by solve_Permutation.
Qed.

(** ** The invariant *)

Definition in_flight (l : IoLoop) : nat := (length (active l) + length (resolving l) + length (waiting l))%nat.
Definition loop_ok (l : IoLoop) : Prop := (in_flight l <= limit l)%nat.

Record inv (e : EngineState) : Prop := {
  i_books : books e (transfers_of e);
  i_loops : Forall loop_ok (loops e);
  i_shape : Forall well_shaped (queued e);
}.

(** A move that leaves the closing transfers alone moves the queued ones. *)
Lemma queued_perm e e' ts us :
  closing e' = closing e -> ts ++ transfers_of e' ≡ₚ us ++ transfers_of e -> ts ++ queued e' ≡ₚ us ++ queued e.
Proof.
  unfold transfers_of. intros ->. rewrite !app_assoc. apply Permutation_app_inv_r.
Qed.

(** The invariant while a worker holds [t] outside every queue. *)
Record holding (e : EngineState) (t : Transfer) : Prop := {
  h_books : books e (t :: transfers_of e);
  h_loops : Forall loop_ok (loops e);
  h_shape : Forall well_shaped (t :: queued e);
}.

Definition may_discard (e : EngineState) (t : Transfer) : Prop :=
  is_cancelled e t = true \/ stop e = true.

(** Which outcomes enter a loop, and which need a slot there. *)
Definition enters_loop (out : outcome) : bool :=
  match out with ToResolving _ | ToActive _ | ToPendingFront _ | ToRetries _ _ => true | _ => false end.
Definition takes_slot (out : outcome) : bool :=
  match out with ToResolving _ | ToActive _ => true | _ => false end.

Lemma same_job_shape t t' : same_job t t' -> well_shaped t -> well_shaped t'.
Proof. intros (_ & _ & _ & H1 & H2 & H3 & H4). unfold well_shaped. by rewrite H1, H2, H3, H4. Qed.

Lemma holding_same_job e t t' : same_job t t' -> holding e t -> holding e t'.
Proof.
  intros Hj [Hb Hl Hs]. constructor; [by eapply books_same_job|done|].
  apply Forall_cons_iff in Hs as [? ?]. apply Forall_cons_iff. split; [by eapply same_job_shape|done].
Qed.

Lemma alter_none {A} (f : A -> A) i (l : list A) : l !! i = None -> alter f i l = l.
Proof.
  intros H. apply list_eq. intros j. destruct (decide (i = j)) as [<-|Hne].
  - by rewrite list_lookup_alter_eq, H.
  - by rewrite list_lookup_alter_ne.
Qed.

Lemma Forall_alter {A} (P : A -> Prop) f i (l : list A) :
  Forall P l -> (forall x, l !! i = Some x -> P x -> P (f x)) -> Forall P (alter f i l).
Proof.
  intros Hl Hf. apply Forall_lookup. intros j y Hj.
  destruct (decide (i = j)) as [<-|Hne].
  - rewrite list_lookup_alter_eq in Hj. destruct (l !! i) as [x|] eqn:E; [|done]. injection Hj as <-.
    apply Hf; [done|]. by eapply Forall_lookup in Hl.
  - rewrite list_lookup_alter_ne in Hj by done. by eapply Forall_lookup in Hl.
Qed.

Lemma alter_limits i f e :
  Forall loop_ok (loops e) ->
  (forall l, loops e !! i = Some l -> loop_ok l -> loop_ok (f l)) ->
  Forall loop_ok (loops (with_loop i f e)).
Proof. intros. by apply Forall_alter. Qed.

(** The transfer joins loop [i]. *)
Lemma join_loop i f e t :
  is_Some (loops e !! i) -> (forall l, loop_transfers (f l) ≡ₚ t :: loop_transfers l) ->
  transfers_of (with_loop i f e) ≡ₚ t :: transfers_of e.
Proof.
  intros [l Hl] Hf. destruct (transfers_with_loop _ _ _ Hl) as (rest & H1 & H2).
  by rewrite H2, H1, Hf.
Qed.

Lemma inv_intro e e' t :
  holding e t -> batches e' = batches e -> stop e' = stop e -> closing e' = closing e ->
  transfers_of e' ≡ₚ t :: transfers_of e -> Forall loop_ok (loops e') -> inv e'.
Proof.
  intros [Hb _ Hs] H1 H2 Hc H3 H4. constructor; [|done|by rewrite (queued_perm e e' [] [t] Hc H3)].
  apply (books_ext e); [done..|]. by apply (books_perm _ _ _ (Permutation_sym H3)).
Qed.

Lemma inv_discard e t : holding e t -> may_discard e t -> inv (discard t e).
Proof.
  intros [Hb Hl Hs] Hc. constructor; [by apply books_discard|done|].
  by apply Forall_cons_iff in Hs as [_ ?].
Qed.

(** Counting a transfer that ends is not booked. *)
Lemma inv_closing e t status text : holding e t -> inv (start_closing t status text e).
Proof.
  intros [Hb Hl Hs]. constructor; [|done|by apply Forall_cons_iff in Hs as [_ ?]].
  set (e1 := e <| closing := closing e ++ [mkClosing t status text] |>).
  assert (H1 : books e1 (transfers_of e1)).
  { apply (books_ext e); [done..|]. apply (books_perm _ (t :: transfers_of e)); [|done].
    unfold transfers_of, queued, e1. cbn. rewrite map_app. solve_Permutation. }
  intros id. specialize (H1 id). cbn. destruct (decide (t_batch t = id)) as [<-|Hne].
  - rewrite lookup_alter_eq. change (batches e1) with (batches e) in H1. by destruct (batches e !! t_batch t).
  - by rewrite lookup_alter_ne.
Qed.

Lemma dispose_inv i out e :
  holding e (outcome_transfer out) ->
  (forall t, out = Discard t -> may_discard e t) ->
  (enters_loop out = true -> is_Some (loops e !! i)) ->
  (takes_slot out = true -> forall l, loops e !! i = Some l -> (in_flight l < limit l)%nat) ->
  inv (dispose i out e).
Proof.
  intros Hh Hd Hloop Hslot. pose proof Hh as [Hb Hl Hs].
  destruct out as [t status text|t|t|t|t|t|due t|t]; cbn [dispose outcome_transfer enters_loop takes_slot] in *.
  - by apply inv_closing.
  - apply inv_discard; [done|by apply Hd].
  - apply (inv_intro e _ t); try done.
    + apply join_loop; [by apply Hloop|]. intros l. unfold loop_transfers. cbn. solve_Permutation.
    + apply alter_limits; [done|]. intros l Hli _. specialize (Hslot eq_refl l Hli).
      unfold loop_ok, in_flight in *. cbn. rewrite length_app. cbn. lia.
  - apply (inv_intro e _ t); try done.
    + apply join_loop; [by apply Hloop|]. intros l. unfold loop_transfers. cbn. solve_Permutation.
    + apply alter_limits; [done|]. intros l Hli _. specialize (Hslot eq_refl l Hli).
      unfold loop_ok, in_flight in *. cbn. rewrite length_app. cbn. lia.
  - apply (inv_intro e _ t); try done.
    + apply join_loop; [by apply Hloop|]. intros l. unfold loop_transfers. cbn. solve_Permutation.
    + by apply alter_limits.
  - apply (inv_intro e _ t); try done. unfold transfers_of, queued. cbn. solve_Permutation.
  - apply (inv_intro e _ t); try done.
    + apply join_loop; [by apply Hloop|]. intros l. unfold loop_transfers. cbn. rewrite map_app. cbn.
      solve_Permutation.
    + by apply alter_limits.
  - unfold queue_http. destruct (stop e) eqn:Est; [apply inv_discard; [done|by right]|].
    apply (inv_intro e _ t); try done. unfold transfers_of, queued. cbn. solve_Permutation.
Qed.

(** Loop [i] gives up [t] before a worker handles it. *)
Lemma leave_loop i f e l t :
  inv e -> loops e !! i = Some l -> loop_transfers l ≡ₚ t :: loop_transfers (f l) ->
  (loop_ok l -> loop_ok (f l)) -> holding (with_loop i f e) t.
Proof.
  intros [Hb Hl Hs] Hi Hp Hok. destruct (transfers_with_loop _ _ _ Hi) as (rest & H1 & H2).
  assert (Hts : transfers_of e ≡ₚ t :: transfers_of (with_loop i f e)) by by rewrite H1, H2, Hp.
  constructor; [|apply alter_limits; [done|]; intros l' Hl'; rewrite Hi in Hl'; by injection Hl' as <-|].
  2: { change (Forall well_shaped ([t] ++ queued (with_loop i f e))).
    by rewrite (queued_perm e (with_loop i f e) [t] [] eq_refl (Permutation_sym Hts)). }
  apply (books_ext e); [done..|]. by apply (books_perm _ _ _ Hts).
Qed.

Lemma inv_same e e' :
  inv e -> batches e' = batches e -> stop e' = stop e -> closing e' = closing e ->
  transfers_of e' ≡ₚ transfers_of e -> Forall loop_ok (loops e') -> inv e'.
Proof.
  intros [Hb _ Hs] H1 H2 Hc H3 H4. constructor; [|done|by rewrite (queued_perm e e' [] [] Hc H3)].
  apply (books_ext e); [done..|]. by apply (books_perm _ _ _ (Permutation_sym H3)).
Qed.

(** A loop rearranges its own transfers. *)
Lemma inv_with_loop i f e :
  inv e -> (forall l, loop_transfers (f l) ≡ₚ loop_transfers l) ->
  (forall l, loop_ok l -> loop_ok (f l)) -> inv (with_loop i f e).
Proof.
  intros Hinv Hp Hok. destruct (loops e !! i) as [l|] eqn:Hi.
  - destruct (transfers_with_loop _ _ _ Hi) as (rest & H1 & H2).
    apply (inv_same e); try done; [by rewrite H2, H1, Hp|]. apply alter_limits; [apply Hinv|]. auto.
  - apply (inv_same e); try done; unfold with_loop, transfers_of; cbn; rewrite alter_none by done;
      [done|apply Hinv].
Qed.

Lemma purge_inv e e' ts :
  inv e -> batches e' = batches e -> stop e' = stop e -> closing e' = closing e ->
  transfers_of e ≡ₚ ts ++ transfers_of e' -> Forall loop_ok (loops e') ->
  Forall (may_discard e') ts -> inv (discard_all ts e').
Proof.
  intros [Hb _ Hs] H1 H2 Hcl H3 H4 Hc. pose proof (discard_all_frame ts e') as (_ & Ht & Hq & Hl & _).
  rewrite <-(queued_perm e e' ts [] Hcl (Permutation_sym H3)) in Hs. apply Forall_app in Hs as [_ Hs].
  constructor; [|by rewrite Hl|by rewrite Hq]. rewrite Ht.
  apply books_discard_all; [|done]. apply (books_ext e); [done..|]. by apply (books_perm _ _ _ H3).
Qed.

Lemma filter_partition {A} (f : A -> bool) (l : list A) :
  l ≡ₚ base.filter (fun x => f x) l ++ base.filter (fun x => negb (f x)) l.
Proof.
  induction l as [|x l IH]; [done|]. rewrite !filter_cons.
  destruct (f x); cbn [negb]; repeat case_decide; try done; cbn; [by rewrite IH at 1|].
  rewrite IH at 1. apply Permutation_middle.
Qed.

Lemma filter_partition_dec {A} (P : A -> Prop) `{!forall x, Decision (P x)} (l : list A) :
  l ≡ₚ base.filter P l ++ base.filter (fun x => ~ P x) l.
Proof.
  induction l as [|x l IH]; [done|]. rewrite !filter_cons.
  repeat case_decide; try done; cbn; [by rewrite IH at 1|].
  rewrite IH at 1. apply Permutation_middle.
Qed.

Lemma doomed_partition e ts : ts ≡ₚ doomed e ts ++ keep_live e ts.
Proof. apply filter_partition. Qed.

Lemma doomed_cancelled e e' ts :
  (forall u, is_cancelled e' u = is_cancelled e u) -> Forall (may_discard e') (doomed e ts).
Proof.
  intros H. apply Forall_forall. intros t [Ht _]%list_elem_of_filter. left. rewrite H. by apply Is_true_true.
Qed.

Lemma keep_live_le e ts : (length (keep_live e ts) <= length ts)%nat.
Proof. apply length_filter. Qed.

Lemma discard_cancelled_http_inv i e : inv e -> inv (discard_cancelled_http i e).
Proof.
  intros Hinv. unfold discard_cancelled_http. destruct (loops e !! i) as [l|] eqn:Hi; [|done].
  set (f := fun l : IoLoop => _). set (ts := _ ++ _).
  destruct (transfers_with_loop _ _ _ Hi) as (rest & H1 & H2).
  assert (Hretries : map snd (retry_queue l) ≡ₚ doomed e (map snd (retry_queue l))
            ++ map snd (base.filter (fun r => negb (is_cancelled e r.2)) (retry_queue l))).
  { rewrite (doomed_partition e (map snd _)) at 1. apply Permutation_app_head.
    unfold keep_live. generalize (retry_queue l) as rs. induction rs as [|r rs IH]; [done|].
    cbn [map]. rewrite !filter_cons. repeat case_decide; try done. cbn. by rewrite IH. }
  apply (purge_inv e); try done.
  - rewrite H1, H2. unfold f, ts, loop_transfers. cbn. rewrite Hretries at 1.
    rewrite (doomed_partition e (pending l)) at 1. rewrite (doomed_partition e (active l)) at 1.
    rewrite (doomed_partition e (resolving l)) at 1. solve_Permutation.
  - apply alter_limits; [apply Hinv|]. intros l' _ Hok. unfold loop_ok, in_flight in *. cbn.
    pose proof (keep_live_le e (active l')). pose proof (keep_live_le e (resolving l')). lia.
  - unfold ts. rewrite !Forall_app. split_and!; by apply doomed_cancelled.
Qed.

Lemma take_http_inv i e : inv e -> inv (take_http i e).
Proof.
  intros Hinv. unfold take_http. destruct (loops e !! i) as [l|] eqn:Hi; [|done].
  set (e1 := e <| http_queue := _ |>). set (f := fun l : IoLoop => _).
  assert (Hi1 : loops e1 !! i = Some l) by done.
  destruct (transfers_with_loop e1 i l Hi1) as (rest & H1 & H2).
  apply (inv_same e); try done.
  - rewrite H2. assert (Hq : transfers_of e ≡ₚ take (room_for l) (http_queue e) ++ transfers_of e1).
    { unfold transfers_of, queued, e1. cbn. rewrite <-(take_drop (room_for l) (http_queue e)) at 1.
      solve_Permutation. }
    rewrite Hq, H1. unfold f, loop_transfers. cbn. solve_Permutation.
  - apply alter_limits; [apply Hinv|done].
Qed.

Lemma due_retries_inv i now e : inv e -> inv (due_retries i now e).
Proof.
  intros Hinv. apply inv_with_loop; [done| |done]. intros l. unfold loop_transfers. cbn.
  rewrite (filter_partition_dec (fun r => r.1 <= now) (retry_queue l)) at 3. rewrite map_app.
  solve_Permutation.
Qed.

Lemma swap_resolving_inv i e : inv e -> inv (swap_resolving i e).
Proof.
  intros Hinv. apply inv_with_loop; [done| |].
  - intros l. unfold loop_transfers. cbn. solve_Permutation.
  - intros l. unfold loop_ok, in_flight. cbn. rewrite length_app. lia.
Qed.

(** *** Changes of a batch that leave its accounts alone *)

Definition same_ledger (b b' : karu_batch) : Prop :=
  pending_parts b' = pending_parts b /\ live_transfers b' = live_transfers b /\
  cancelled b' = cancelled b /\ ready_queue b' = ready_queue b.

Definition same_ledgers (e e' : EngineState) : Prop :=
  forall id, option_Forall2 same_ledger (batches e !! id) (batches e' !! id).

Lemma same_ledgers_refl e e' : batches e' = batches e -> same_ledgers e e'.
Proof. intros H id. rewrite H. destruct (batches e !! id); by constructor. Qed.

Lemma same_ledgers_insert e e' id b b' :
  batches e !! id = Some b -> same_ledger b b' -> batches e' = <[id := b']> (batches e) ->
  same_ledgers e e'.
Proof.
  intros Hb Hl H i. rewrite H. destruct (decide (id = i)) as [<-|Hne].
  - rewrite lookup_insert_eq, Hb. by constructor.
  - rewrite lookup_insert_ne by done. destruct (batches e !! i); by constructor.
Qed.

Lemma same_ledgers_alter e e' id f :
  (forall b, same_ledger b (f b)) -> batches e' = alter f id (batches e) -> same_ledgers e e'.
Proof.
  intros Hl H i. rewrite H. destruct (decide (id = i)) as [<-|Hne].
  - rewrite lookup_alter_eq. destruct (batches e !! id); by constructor.
  - rewrite lookup_alter_ne by done. destruct (batches e !! i); by constructor.
Qed.

Lemma books_ledgers e e' ts :
  stop e' = stop e -> same_ledgers e e' -> books e ts -> books e' ts.
Proof.
  intros Hs Hb H id. specialize (H id). specialize (Hb id).
  destruct (batches e !! id), (batches e' !! id);
    inversion Hb as [? ? (H1 & H2 & H3 & H4)|]; subst; [|done].
  by rewrite H1, H2, H3, H4, Hs.
Qed.

Lemma is_cancelled_ledgers e e' t : same_ledgers e e' -> is_cancelled e' t = is_cancelled e t.
Proof.
  intros H. specialize (H (t_batch t)). unfold is_cancelled.
  destruct (batches e !! t_batch t), (batches e' !! t_batch t);
    inversion H as [? ? (_ & _ & ? & _)|]; by subst.
Qed.

Lemma inv_ledgers e e' :
  inv e -> stop e' = stop e -> same_ledgers e e' -> closing e' = closing e ->
  transfers_of e' ≡ₚ transfers_of e -> Forall loop_ok (loops e') -> inv e'.
Proof.
  intros [Hb _ Hs] H1 H2 Hc H3 H4. constructor; [|done|by rewrite (queued_perm e e' [] [] Hc H3)].
  apply (books_ledgers e); [done..|]. by apply (books_perm _ _ _ (Permutation_sym H3)).
Qed.

Lemma holding_ledgers e e' t :
  holding e t -> stop e' = stop e -> same_ledgers e e' -> closing e' = closing e ->
  transfers_of e' ≡ₚ transfers_of e -> Forall loop_ok (loops e') -> holding e' t.
Proof.
  intros [Hb _ Hs] H1 H2 Hc H3 H4. constructor; [|done|].
  2: { apply Forall_cons_iff in Hs as [? Hs]. apply Forall_cons_iff. split; [done|].
    by rewrite (queued_perm e e' [] [] Hc H3). }
  apply (books_ledgers e); [done..|].
  by apply (books_perm _ _ _ (Permutation_cons (eq_refl t) (Permutation_sym H3))).
Qed.

Lemma add_ledger (proj : BatchCounters -> Z) `{!Setter proj} n b : same_ledger b (add proj n b).
Proof. done. Qed.

Lemma retry_or_fail_ledger o env t b : same_ledger b (retry_or_fail o env t b).2.
Proof.
  unfold retry_or_fail. destruct (_ && _ && _); [|done].
  destruct (_ <? _); by destruct (negb _).
Qed.

Lemma count_message_ledger env t b : same_ledger b (count_message env t b).
Proof. unfold count_message. destruct (0 <? _); by destruct (_ || _). Qed.

Lemma on_done_ledger o env t b : same_ledger b (on_done o env t b).1.2.
Proof.
  unfold on_done. set (t1 := if http_status t =? 0 then _ else t). clearbody t1.
  pose proof (count_message_ledger env t1 b) as H. revert H.
  generalize (count_message env t1 b) as b1. intros b1 H.
  destruct (succeeded t1 _); [done|]. destruct (expired _ _); [done|].
  set (t2 := if _ && _ then _ else t1). clearbody t2.
  destruct (negb (region_retried t2) && _ && _ && _); [done|].
  destruct (negb (credentials_retried t2) && _); [done|].
  pose proof (retry_or_fail_ledger o env t2 b1) as Hr.
  destruct (retry_or_fail o env t2 b1) as [out b2]. cbn in *. unfold same_ledger in *. intuition congruence.
Qed.

Lemma file_work_ledger read_at env t m b : same_ledger b (file_work read_at env t m b).2.
Proof.
  unfold file_work. destruct (file_cancelled env); [done|].
  destruct (ensure_sink _ _) as [[ok t1] heap]. destruct (negb ok); [done|].
  destruct (open_error env); [done|]. destruct (read_loop _ _ _ _ _) as [[t2 m2] f].
  destruct (file_cancelled_end env); [done|]. by destruct f.
Qed.

(** *** The turns of an I/O loop *)

Lemma start_transfer_outcome `{RequestBuilding} o env t prepared :
  match start_transfer o env t prepared with
  | Finish _ _ _ | ToResolving _ | ToActive _ => True | _ => False
  end.
Proof.
  assert (Hl : forall u, match launch_transfer o env u with
                         | Finish _ _ _ | ToResolving _ | ToActive _ => True | _ => False end).
  { intros u. unfold launch_transfer. destruct (_ && host_waiting env); [done|].
    destruct (_ && _ && _); [done|]. destruct (negb (easy_ok env)); [done|].
    destruct (configure_error env); [done|]. destruct (add_error env); [done|].
    by destruct (negb (inserted env)). }
  unfold start_transfer. destruct (thrown env) as [[]|]; [done..|].
  destruct prepared; [destruct (expired _ _); [done|apply Hl]|].
  destruct (prepare_transfer o env t) as [out|u] eqn:E; [|apply Hl].
  unfold prepare_transfer in E. destruct (expired _ _); [by injection E as <-|].
  destruct (ensure_sink _ _) as [[[] ?] ?]; cbn [negb] in E; [|by injection E as <-].
  destruct (_ && _); [by injection E as <-|].
  destruct (if has_cloud_provider _ then _ else _); [|by injection E as <-].
  destruct (expired _ _); [by injection E as <-|done].
Qed.

(** Starting a transfer that has a slot. *)
Lemma start_inv `{RequestBuilding} o i env prepared e t :
  holding e t -> is_Some (loops e !! i) ->
  (forall l, loops e !! i = Some l -> (in_flight l < limit l)%nat) ->
  inv (if is_cancelled e t then discard t e else dispose i (start_transfer o env t prepared) e).
Proof.
  intros Hh Hi Hslot. destruct (is_cancelled e t) eqn:Ec; [apply inv_discard; [done|by left]|].
  pose proof (start_transfer_same o env t prepared) as [Hj _].
  pose proof (start_transfer_outcome o env t prepared) as Hout.
  apply dispose_inv; [by eapply holding_same_job| |done|done].
  intros u E. by rewrite E in Hout.
Qed.

Lemma with_loop_lookup i f e l : loops e !! i = Some l -> loops (with_loop i f e) !! i = Some (f l).
Proof. intros H. cbn. by rewrite list_lookup_alter_eq, H. Qed.

Lemma restart_waiting_inv `{RequestBuilding} o i env e : inv e -> inv (restart_waiting o i env e).
Proof.
  intros Hinv. unfold restart_waiting. destruct (loops e !! i) as [l|] eqn:Hi; [|done].
  destruct (waiting l) as [|t rest] eqn:Hw; [done|].
  set (f := fun l : IoLoop => _).
  pose proof (i_loops _ Hinv) as Hok. rewrite Forall_forall in Hok.
  specialize (Hok l (list_elem_of_lookup_2 _ _ _ Hi)).
  unfold loop_ok, in_flight in Hok. rewrite Hw in Hok. cbn in Hok.
  apply start_inv; [eapply leave_loop; [done|done| |]| |].
  - unfold f, loop_transfers. cbn. rewrite Hw. solve_Permutation.
  - intros _. unfold loop_ok, in_flight, f. cbn. lia.
  - rewrite (with_loop_lookup _ _ _ _ Hi). by eexists.
  - intros l'. rewrite (with_loop_lookup _ _ _ _ Hi). intros [= <-].
    unfold in_flight, f. cbn. lia.
Qed.

Lemma start_pending_inv `{RequestBuilding} o i env e :
  inv e -> (forall l, loops e !! i = Some l -> waiting l = []) -> inv (start_pending o i env e).
Proof.
  intros Hinv Hw. unfold start_pending. destruct (loops e !! i) as [l|] eqn:Hi; [|done].
  specialize (Hw l eq_refl). destruct (Nat.ltb_spec (length (active l) + length (resolving l)) (limit l)); [|done].
  destruct (pending l) as [|t rest] eqn:Hp; [done|]. set (f := fun l : IoLoop => _).
  apply start_inv; [eapply leave_loop; [done|done| |done]| |].
  - unfold f, loop_transfers. cbn. rewrite Hp. solve_Permutation.
  - rewrite (with_loop_lookup _ _ _ _ Hi). by eexists.
  - intros l'. rewrite (with_loop_lookup _ _ _ _ Hi). intros [= <-].
    unfold in_flight, f. cbn. rewrite Hw. cbn. lia.
Qed.

Lemma delete_insert_same {A} (l : list A) j x : delete j (<[j := x]> l) = delete j l.
Proof. revert j. induction l as [|y l IH]; intros [|j]; [done..|]. cbn. by rewrite IH. Qed.

Lemma callback_inv i j f e :
  (forall t m, same_job t (f t m).1.1) -> inv e -> inv (callback i j f e).
Proof.
  intros Hf Hinv. unfold callback. destruct (loops e !! i) as [l|] eqn:Hi; [|done].
  destruct (active l !! j) as [t|] eqn:Hj; [|done].
  pose proof (Hf t (e_memory e)) as Hsame. destruct (f t (e_memory e)) as [[u m] n]. cbn in Hsame.
  set (g := fun l : IoLoop => l <| active := <[j := u]> (active l) |>).
  set (g0 := fun l : IoLoop => l <| active := delete j (active l) |>).
  assert (Hh : holding (with_loop i g0 e) t).
  { eapply leave_loop; [done|done| |].
    - unfold g0, loop_transfers. cbn. rewrite (delete_Permutation _ _ _ Hj) at 1. solve_Permutation.
    - unfold loop_ok, in_flight, g0. cbn. rewrite (length_delete _ _ (mk_is_Some _ _ Hj)). lia. }
  apply (inv_ledgers (with_loop i g e)); try done;
    [|by apply (same_ledgers_alter _ _ (t_batch t) (add n_received_bytes n))|].
  - apply (holding_same_job _ _ _ Hsame) in Hh.
    apply (inv_intro (with_loop i g0 e) _ u); try done.
    + destruct (transfers_with_loop _ _ _ Hi) as (rest & _ & H2). rewrite !H2.
      unfold g, g0, loop_transfers. cbn.
      assert (Hju : <[j:=u]> (active l) !! j = Some u)
        by (apply list_lookup_insert_eq; by eapply lookup_lt_Some).
      rewrite (delete_Permutation _ _ _ Hju), delete_insert_same. solve_Permutation.
    + apply alter_limits; [apply Hinv|]. intros l' _. unfold loop_ok, in_flight, g. cbn.
      by rewrite length_insert.
  - cbn. apply alter_limits; [apply Hinv|]. intros l' _. unfold loop_ok, in_flight. cbn.
    by rewrite length_insert.
Qed.

Lemma on_body_same data size count code clen t m : same_job t (on_body data size count code clen t m).1.1.
Proof. apply write_callback_same. Qed.

Lemma on_header_same f g k line size count now t m :
  same_job t (on_header f g k line size count now t m).1.1.
Proof. apply header_callback_same. Qed.

(** The active transfer at [j] leaves its loop. *)
Lemma leave_active i j e l t :
  inv e -> loops e !! i = Some l -> active l !! j = Some t ->
  holding (with_loop i (fun l => l <| active := delete j (active l) |>) e) t.
Proof.
  intros Hinv Hi Hj. eapply leave_loop; [done|done| |].
  - unfold loop_transfers. cbn. rewrite (delete_Permutation _ _ _ Hj) at 1. solve_Permutation.
  - unfold loop_ok, in_flight. cbn. rewrite (length_delete _ _ (mk_is_Some _ _ Hj)). lia.
Qed.

Lemma fail_active_inv i j text e : inv e -> inv (fail_active i j text e).
Proof.
  intros Hinv. unfold fail_active. destruct (loops e !! i) as [l|] eqn:Hi; [|done].
  destruct (active l !! j) as [t|] eqn:Hj; [|done].
  apply dispose_inv; [by eapply leave_active|done..].
Qed.

Lemma message_inv `{RequestBuilding} o i j env e : inv e -> inv (message o i j env e).
Proof.
  intros Hinv. unfold message. destruct (loops e !! i) as [l|] eqn:Hi; [|done].
  destruct (active l !! j) as [t|] eqn:Hj; [|done].
  destruct (batches e !! t_batch t) as [b|] eqn:Hb; [|done].
  pose proof (on_done_same o env t b) as Hs. pose proof (on_done_ledger o env t b) as Hl.
  destruct (on_done o env t b) as [[out b'] inval]. destruct Hs as [Hsame Hout]. cbn in Hl.
  pose proof (leave_active _ _ _ _ _ Hinv Hi Hj) as Hh.
  set (f := fun l : IoLoop => _) in *. apply dispose_inv.
  - apply (holding_same_job _ _ _ Hsame).
    apply (holding_ledgers (with_loop i f e)); try done; [|apply Hh].
    by apply (same_ledgers_insert _ _ (t_batch t) b b').
  - intros u ->. by destruct Hout.
  - intros _. exists (f l). exact (with_loop_lookup i f e l Hi).
  - by destruct out.
Qed.

(** *** The worker pools *)

Lemma move_inv e e' :
  inv e -> batches e' = batches e -> stop e' = stop e -> loops e' = loops e -> closing e' = closing e ->
  transfers_of e' ≡ₚ transfers_of e -> inv e'.
Proof. intros Hinv H1 H2 H3 Hc H4. apply (inv_same e); try done. rewrite H3. apply Hinv. Qed.

Lemma take_file_inv e : inv e -> inv (take_file e).
Proof.
  intros Hinv. unfold take_file. destruct (file_queue e) as [|t rest] eqn:Hq; [done|].
  apply (move_inv e); try done. unfold transfers_of, queued. cbn. rewrite Hq. solve_Permutation.
Qed.

Lemma take_credential_inv e : inv e -> inv (take_credential e).
Proof.
  intros Hinv. unfold take_credential. destruct (stop e) eqn:Est; [done|].
  destruct (credential_queue e) as [|t rest] eqn:Hq; [done|].
  apply (move_inv e); try done. unfold transfers_of, queued. cbn. rewrite Hq. solve_Permutation.
Qed.

(** What a worker holds leaves its hands. *)
Lemma leave_hands e e' t :
  inv e -> stop e' = stop e -> loops e' = loops e -> same_ledgers e e' -> closing e' = closing e ->
  transfers_of e ≡ₚ t :: transfers_of e' -> holding e' t.
Proof.
  intros [Hb Hl Hs] H1 H2 H3 Hc H4. constructor; [|by rewrite H2|].
  2: { change (Forall well_shaped ([t] ++ queued e')).
    by rewrite (queued_perm e e' [t] [] Hc (Permutation_sym H4)). }
  apply (books_ledgers e); [done..|]. by apply (books_perm _ _ _ H4).
Qed.

Lemma file_work_outcome read_at env t m b :
  let out := (file_work read_at env t m b).1.1 in
  same_job t (outcome_transfer out) /\
  match out with
  | Finish _ _ _ => True
  | Discard _ => file_cancelled env = true \/ file_cancelled_end env = true
  | _ => False
  end.
Proof.
  unfold file_work. destruct (file_cancelled env); [split; [done|by left]|].
  pose proof (ensure_sink_same (file_alloc env) t) as [Hj _].
  destruct (ensure_sink _ _) as [[ok t1] heap]. cbn [fst snd] in Hj. destruct (negb ok); [done|].
  destruct (open_error env); [done|].
  assert (Hr : forall fuel c u m, same_job u (read_loop read_at fuel c u m).1.1).
  { intros fuel c. induction fuel as [|fuel IH]; intros u mm; cbn [read_loop]; [done|].
    destruct (_ && _); [|done]. destruct (read_at _ _) as [bytes|]; [|done].
    destruct (_ =? 0); [done|]. etransitivity; [|apply IH]. done. }
  specialize (Hr (Z.to_nat (t_length t1)) (file_cancelled_at env) t1 m).
  destruct (read_loop _ _ _ _ _) as [[t2 m2] f]. cbn in Hr.
  assert (Hj2 : same_job t t2) by by transitivity t1.
  destruct (file_cancelled_end env); [split; [done|by right]|]. by destruct f.
Qed.

Lemma work_file_inv j read_at env e :
  inv e ->
  (forall t, file_hands e !! j = Some t ->
     file_cancelled env = true \/ file_cancelled_end env = true -> is_cancelled e t = true) ->
  inv (work_file j read_at env e).
Proof.
  intros Hinv Hflag. unfold work_file. destruct (file_hands e !! j) as [t|] eqn:Hj; [|done].
  specialize (Hflag t eq_refl). destruct (batches e !! t_batch t) as [b|] eqn:Hb; [|done].
  pose proof (file_work_outcome read_at env t (e_memory e) b) as [Hsame Hout].
  pose proof (file_work_ledger read_at env t (e_memory e) b) as Hl.
  destruct (file_work _ _ _ _ _) as [[out m] b']. cbn in Hsame, Hout, Hl.
  set (e' := _ <| batches := _ |>).
  assert (Hled : same_ledgers e e') by by apply (same_ledgers_insert _ _ (t_batch t) b b').
  apply dispose_inv.
  - apply (holding_same_job _ _ _ Hsame). apply (leave_hands e); try done.
    unfold transfers_of, queued, e'. cbn. rewrite (delete_Permutation _ _ _ Hj) at 1. solve_Permutation.
  - intros u ->. left. rewrite (is_cancelled_ledgers _ _ _ Hled). unfold is_cancelled.
    destruct Hsame as [Hb' _]. cbn in Hb'. rewrite Hb'. by apply Hflag.
  - by destruct out.
  - by destruct out.
Qed.

Lemma credential_work_outcome `{RequestBuilding} o env t :
  match credential_work o env t with
  | Finish _ _ _ | ToHttpQueue _ => True
  | Discard _ => cancelled_before env = true \/ cancelled_after env = true
  | _ => False
  end.
Proof.
  unfold credential_work. destruct (cancelled_before env); [by left|].
  destruct (cred_thrown env) as [[]|]; [done..|]. destruct (rb_resolve_credentials _); [|done].
  destruct (cancelled_after env); [by right|]. by destruct (expired _ _).
Qed.

Lemma work_credential_inv `{RequestBuilding} o j env e :
  inv e ->
  (forall t, credential_hands e !! j = Some t ->
     cancelled_before env = true \/ cancelled_after env = true -> is_cancelled e t = true) ->
  inv (work_credential o j env e).
Proof.
  intros Hinv Hflag. unfold work_credential.
  destruct (credential_hands e !! j) as [t|] eqn:Hj; [|done]. specialize (Hflag t eq_refl).
  pose proof (credential_work_same o env t) as [Hsame _].
  pose proof (credential_work_outcome o env t) as Hout.
  destruct (credential_work o env t) eqn:E; try done; (apply dispose_inv; [|try done..]).
  1, 2, 4: apply (holding_same_job _ _ _ Hsame); apply (leave_hands e); try done;
    [by apply same_ledgers_refl|]; unfold transfers_of, queued; cbn;
    rewrite (delete_Permutation _ _ _ Hj) at 1; solve_Permutation.
  intros u [= <-]. left. unfold is_cancelled. cbn. destruct Hsame as [Hb _]. cbn in Hb. rewrite Hb.
  by apply Hflag.
Qed.

(** *** Ending a transfer *)

(** The closing transfer at [k] and the others. *)
Lemma closing_split e k c :
  closing e !! k = Some c -> transfers_of e ≡ₚ cl_transfer c :: queued e ++ map cl_transfer (delete k (closing e)).
Proof.
  intros Hk. unfold transfers_of. rewrite (delete_Permutation _ _ _ Hk) at 1. cbn. by rewrite Permutation_middle.
Qed.

Lemma closing_insert {A} (xs : list A) k x y : xs !! k = Some x -> <[k := y]> xs ≡ₚ y :: delete k xs.
Proof.
  intros Hk. assert (E : <[k := y]> xs !! k = Some y) by (apply list_lookup_insert_eq; by eapply lookup_lt_Some).
  by rewrite (delete_Permutation _ _ _ E), delete_insert_same.
Qed.

Lemma close_turn_inv k e : inv e -> inv (close_turn k e).
Proof.
  intros Hinv. unfold close_turn. destruct (closing e !! k) as [c|] eqn:Hk; [|done].
  pose proof Hinv as [Hb Hl Hs]. apply (books_perm _ _ _ (closing_split _ _ _ Hk)) in Hb.
  set (t := cl_transfer c) in *. cbv zeta. destruct (batches e !! t_batch t) as [b|] eqn:Hbt; [|done].
  destruct (parts t) as [|p ps] eqn:Hp.
  - constructor; [|done|done]. apply (books_ext (e <| batches := <[t_batch t := transfer_finished b]> (batches e) |>)); [done..|].
    by apply books_release.
  - pose proof (deliver_part_tag t (cl_status c) (cl_text c) (e_memory e) p) as Htag.
    destruct (deliver_part _ _ _ _ _) as [completion m]. constructor; [|done|done].
    apply (books_ext (e <| batches := <[t_batch t := push b completion]> (batches e) |>)); [done..|].
    apply (books_perm _ (t <| parts := ps |> :: queued e ++ map cl_transfer (delete k (closing e)))).
    + unfold transfers_of. cbn -[queued]. rewrite (closing_insert _ _ _ _ Hk). cbn -[queued]. by rewrite <-Permutation_middle.
    + by apply (books_push e t p).
Qed.

Lemma deliver_parts_same_job t qs status text ps : forall m b,
  deliver_parts (t <| parts := qs |>) status text m ps b = deliver_parts t status text m ps b.
Proof.
  induction ps as [|p ps IH]; intros m b; [done|]. cbn [deliver_parts].
  change (deliver_part (t <| parts := qs |>) status text m p) with (deliver_part t status text m p).
  destruct (deliver_part t status text m p) as [c m1]. apply IH.
Qed.

Lemma close_turns_deliver status text ps : forall t e cs b,
  closing e = cs ++ [mkClosing t status text] -> parts t = ps -> batches e !! t_batch t = Some b ->
  Nat.iter (S (length ps)) (close_turn (length cs)) e
  = let '(b', m) := deliver_parts t status text (e_memory e) ps b in
    e <| closing := cs |> <| batches := <[t_batch t := transfer_finished b']> (batches e) |> <| e_memory := m |>.
Proof.
  induction ps as [|p ps IH]; intros t e cs b Hcl Hp Hb; rewrite Nat.iter_succ_r.
  - cbn [length Nat.iter deliver_parts nat_rect]. unfold close_turn. rewrite Hcl, list_lookup_middle by done. cbn [cl_transfer].
    rewrite Hb, Hp. rewrite delete_middle, app_nil_r. by destruct e.
  - unfold close_turn at 2. rewrite Hcl, list_lookup_middle by done. cbn [cl_transfer cl_status cl_text].
    rewrite Hb, Hp. cbn [deliver_parts]. destruct (deliver_part t status text (e_memory e) p) as [c m1].
    rewrite (IH (t <| parts := ps |>) _ cs (push b c)).
    + cbn -[deliver_parts]. rewrite deliver_parts_same_job. destruct (deliver_parts _ _ _ _ _ _) as [b' m].
      by rewrite insert_insert_eq.
    + cbn. by rewrite insert_app_r_alt, Nat.sub_diag by lia.
    + done.
    + apply lookup_insert_eq.
Qed.

(** With nobody in between, the turns of a transfer are [finish_transfer]. *)
Lemma close_alone t status text e b :
  batches e !! t_batch t = Some b ->
  Nat.iter (S (length (parts t))) (close_turn (length (closing e))) (start_closing t status text e)
  = let '(b', m) := finish_transfer t status text (e_memory e) b in
    e <| batches := <[t_batch t := b']> (batches e) |> <| e_memory := m |>.
Proof.
  intros Hb. unfold finish_transfer, deliver. set (b1 := add n_transfers_finished 1 b).
  rewrite (close_turns_deliver status text (parts t) t _ (closing e) b1); [|done|done|].
  - cbn -[deliver_parts]. destruct (deliver_parts _ _ _ _ _ _) as [b' m].
    rewrite insert_alter_eq. by destruct e.
  - unfold start_closing, with_batch. cbn. by rewrite lookup_alter_eq, Hb.
Qed.

(** *** Cancelling and shutting down *)

(** Fewer promises: a batch is cancelled or the engine stops. *)
Lemma inv_weaken e e' :
  inv e -> transfers_of e' = transfers_of e -> queued e' = queued e -> loops e' = loops e ->
  (forall id, option_Forall2 (fun b b' =>
     live_transfers b' = live_transfers b /\ pending_parts b' = pending_parts b /\
     ready_queue b' = ready_queue b /\
     (cancelled b' = false -> stop e' = false -> cancelled b = false /\ stop e = false))
     (batches e !! id) (batches e' !! id)) -> inv e'.
Proof.
  intros [Hb Hl Hs] Ht Hq Hloops Hbs. constructor; [|by rewrite Hloops|by rewrite Hq].
  intros id. rewrite Ht. specialize (Hb id). specialize (Hbs id).
  destruct (batches e !! id), (batches e' !! id);
    inversion Hbs as [? ? (H1 & H2 & H3 & H4)|]; subst; [|done].
  rewrite H1, H2, H3. destruct Hb as (B1 & B2 & B3). split_and!; [done..|].
  intros Hc Hst. destruct (H4 Hc Hst). by apply B3.
Qed.

Lemma cancel_mark_inv id e : inv e -> inv (cancel_mark id e).
Proof.
  intros Hinv. apply (inv_weaken e); [done..|]. intros i. unfold cancel_mark, with_batch. cbn.
  destruct (decide (id = i)) as [<-|Hne].
  - rewrite lookup_alter_eq. by destruct (batches e !! id); constructor.
  - rewrite lookup_alter_ne by done. by destruct (batches e !! i); constructor.
Qed.

Lemma stop_inv e : inv e -> inv (stop_workers e).
Proof.
  intros Hinv. apply (inv_weaken e); [done..|]. intros i. cbn.
  by destruct (batches e !! i); constructor.
Qed.

Definition batch_cancelled (e : EngineState) (id : nat) : bool :=
  match batches e !! id with Some b => cancelled b | None => false end.

Lemma of_batch_cancelled e e' id ts :
  batch_cancelled e id = true -> batches e' = batches e -> Forall (may_discard e') (of_batch id ts).
Proof.
  intros Hc Hb. apply Forall_forall. intros t [Ht _]%list_elem_of_filter. left.
  unfold is_cancelled. rewrite Hb, Ht. exact Hc.
Qed.

Lemma of_batch_partition id ts : ts ≡ₚ of_batch id ts ++ others id ts.
Proof. apply filter_partition_dec. Qed.

Lemma cancel_queues_inv id e : batch_cancelled e id = true -> inv e -> inv (cancel_queues id e).
Proof.
  intros Hc Hinv. apply (purge_inv e); try done; [|apply Hinv|].
  - unfold transfers_of, queued. cbn. rewrite (of_batch_partition id (file_queue e)) at 1.
    rewrite (of_batch_partition id (credential_queue e)) at 1. solve_Permutation.
  - apply Forall_app. split; by apply (of_batch_cancelled e).
Qed.

Lemma cancel_http_inv id e : batch_cancelled e id = true -> inv e -> inv (cancel_http id e).
Proof.
  intros Hc Hinv. apply (purge_inv e); try done; [|apply Hinv|].
  - unfold transfers_of, queued. cbn. rewrite (of_batch_partition id (http_queue e)) at 1. solve_Permutation.
  - by apply (of_batch_cancelled e).
Qed.

Lemma cancel_wake_inv e : inv e -> inv (cancel_wake e).
Proof.
  intros Hinv. apply (inv_same e); try done.
  - unfold transfers_of, queued, cancel_wake. cbn. by rewrite map_map.
  - unfold cancel_wake. cbn. apply Forall_map. eapply Forall_impl; [apply Hinv|done].
Qed.

Lemma drain_loop_inv i e : stop e = true -> inv e -> inv (drain_loop i e).
Proof.
  intros Hst Hinv. unfold drain_loop. destruct (loops e !! i) as [l|] eqn:Hi; [|done].
  destruct (transfers_with_loop _ _ _ Hi) as (rest & H1 & H2).
  apply (purge_inv e); try done.
  - rewrite H1, H2. unfold loop_transfers. cbn. solve_Permutation.
  - apply alter_limits; [apply Hinv|]. intros l' _. unfold loop_ok, in_flight. cbn. lia.
  - apply Forall_forall. intros t _. by right.
Qed.

Lemma drain_queues_inv e : stop e = true -> inv e -> inv (drain_queues e).
Proof.
  intros Hst Hinv. apply (purge_inv e); try done; [|apply Hinv|].
  - unfold transfers_of, queued. cbn. solve_Permutation.
  - apply Forall_forall. intros t _. by right.
Qed.
End Accounts.

#[local] Existing Instance tags_of_proper.

(** *** Handing out completions *)

Definition take_tag (h : History) (id : nat) (c : Completion) : History :=
  h <| taken := <[id := tags_taken h id ++ [c_tag c]]> (taken h) |>.

(** A consumer of batch [id] takes the next completion, if there is one. *)
Definition record_next (h : History) (id : nat) (e : EngineState) : History :=
  match batches e !! id with
  | Some b => match ready_queue b with c :: _ => take_tag h id c | [] => h end
  | None => h
  end.

Lemma next_some b timeout r :
  next b timeout = Some r ->
  match r with
  | (st, Some c, b') => st = KARU_OK /\ exists cs, ready_queue b = c :: cs /\ b' = b <| ready_queue := cs |>
  | (st, None, b') => b' = b /\ ready_queue b = []
  end.
Proof.
  unfold next, can_return. destruct (ready_queue b) as [|c cs] eqn:E; cbn.
  - destruct (pending_parts b =? 0); cbn; [by intros [= <-]|].
    destruct (cancelled b); cbn; [by intros [= <-]|]. destruct (timeout <? 0); [done|].
    by intros [= <-].
  - intros [= <-]. split; [done|]. by exists cs.
Qed.

Lemma consume_next_inv h id timeout e :
  inv h e -> next (default karu_batch_default (batches e !! id)) timeout <> None ->
  inv (record_next h id e) (consume_next id timeout e).
Proof.
  intros [Hb Hl Hs] Hn. unfold consume_next, record_next.
  destruct (batches e !! id) as [b|] eqn:Hid; [|done]. cbn in Hn.
  destruct (next b timeout) as [[[st oc] b']|] eqn:E; [|done]. apply next_some in E.
  destruct oc as [c|].
  - destruct E as (_ & cs & Hq & ->). rewrite Hq. constructor; [|done..]. intros i. cbn.
    specialize (Hb i). change (transfers_of (_ <| batches := _ |>)) with (transfers_of e).
    destruct (decide (id = i)) as [<-|Hne].
    + rewrite lookup_insert_eq. rewrite Hid in Hb. cbn. destruct Hb as (H1 & H2 & H3).
      split_and!; [done..|]. intros Hc Hst. destruct (H3 Hc Hst) as [H4 H5]. split; [done|].
      unfold tags_asked, tags_taken, take_tag in *. cbn. rewrite lookup_insert_eq. cbn.
      rewrite H5, Hq. cbn. solve_Permutation.
    + rewrite lookup_insert_ne by done. destruct (batches e !! i); [|done].
      unfold tags_asked, tags_taken, take_tag in *. cbn. by rewrite lookup_insert_ne.
  - destruct E as [-> Hq]. rewrite Hq. apply (inv_ledgers h e); try done.
    by apply (same_ledgers_insert _ _ id b b).
Qed.

(** *** [submit] *)

Definition record_submit (h : History) (id : nat) (tags : list Z) : History :=
  h <| asked := <[id := tags]> (asked h) |> <| taken := <[id := []]> (taken h) |>.

Lemma push_all cs b :
  Z.of_nat (length cs) <= pending_parts b ->
  let b' := fold_left push cs b in
  pending_parts b' = pending_parts b - Z.of_nat (length cs) /\ live_transfers b' = live_transfers b /\
  cancelled b' = cancelled b /\ ready_queue b' = ready_queue b ++ cs.
Proof.
  revert b. induction cs as [|c cs IH]; intros b Hb; cbn [fold_left length] in *.
  - split_and!; try done; [lia|]. by rewrite app_nil_r.
  - assert (Hp : pending_parts (push b c) = pending_parts b - 1)
      by (cbn; rewrite (proj2 (Z.ltb_lt _ _)) by lia; done).
    destruct (IH (push b c)) as (H1 & H2 & H3 & H4); [lia|].
    rewrite H1, H2, H3, H4. cbn [ready_queue push]. split_and!; [lia|done|done|].
    cbn. by rewrite <-app_assoc.
Qed.

Lemma of_batch_all id ts : Forall (fun t => t_batch t = id) ts -> of_batch id ts = ts.
Proof.
  induction 1 as [|t ts Ht _ IH]; [done|]. by rewrite of_batch_cons, decide_True, IH.
Qed.

Lemma of_batch_app id ts us : of_batch id (ts ++ us) = of_batch id ts ++ of_batch id us.
Proof. apply filter_app. Qed.

(** A new batch with its transfers [us]. *)
Lemma new_batch_books h e id b us tags ts :
  books h e ts -> batches e !! id = None -> Forall (fun t => t_batch t = id) us ->
  live_transfers b = Z.of_nat (length us) -> pending_parts b = parts_count us ->
  tags ≡ₚ map c_tag (ready_queue b) ++ tags_of us ->
  books (record_submit h id tags) (e <| batches := <[id := b]> (batches e) |>) (ts ++ us).
Proof.
  intros H Hnone Hus Hlive Hpend Htags i. cbn. rewrite of_batch_app. specialize (H i).
  destruct (decide (id = i)) as [<-|Hne].
  - rewrite lookup_insert_eq. rewrite Hnone in H. rewrite H, of_batch_all by done. cbn.
    rewrite Hpend. split_and!; [done|done|]. intros _ _. split; [done|].
    unfold tags_asked, tags_taken, record_submit. cbn. by rewrite !lookup_insert_eq.
  - rewrite lookup_insert_ne by done.
    assert (of_batch i us = []) as ->.
    { clear - Hus Hne. induction Hus as [|t us Ht _ IH]; [done|].
      rewrite of_batch_cons, decide_False; [done|congruence]. }
    rewrite app_nil_r. destruct (batches e !! i); [|done].
    unfold tags_asked, tags_taken, record_submit in *. cbn. by rewrite !lookup_insert_ne.
Qed.

Lemma kinds_partition ts :
  ts ≡ₚ base.filter (fun t => is_file t) ts ++ base.filter (fun t => needs_lookup t) ts
        ++ base.filter (fun t => is_ready t) ts.
Proof.
  induction ts as [|t ts IH]; [done|]. rewrite !filter_cons. unfold needs_lookup, is_ready in *.
  destruct (is_file t), (has_cloud_provider _); cbn [negb andb]; repeat case_decide; try done.
  all: rewrite IH at 1; solve_Permutation.
Qed.

Lemma submit_inv h id rs o heap e :
  inv h e -> batches e !! id = None -> Forall wf_request rs -> plan_options_ok o ->
  let '(e', status) := submit id rs o heap e in
  inv (record_submit h id (if status_is status KARU_OK then map tag rs else [])) e'.
Proof.
  intros [Hb Hl Hs] Hnone Hrs Ho.
  assert (Hempty : inv (record_submit h id []) (e <| batches := <[id := karu_batch_default]> (batches e) |>)).
  { constructor; [|done..]. rewrite <-(app_nil_r (transfers_of _)).
    by apply (new_batch_books h e id karu_batch_default []). }
  unfold submit. destruct rs as [|r rs']; [exact Hempty|]. set (rs := r :: rs') in *.
  destruct (plan_transfers id rs o heap) as [[plan status] heap'] eqn:Ep.
  case_bool_decide as Hst; cbn [negb]; [|by rewrite bool_decide_false].
  subst status. rewrite bool_decide_true by done.
  pose proof (plan_transfers_shape _ _ _ _ _ _ Hrs Ho Ep) as Hshape.
  pose proof (plan_transfers_tags _ _ _ _ _ _ Hrs Ho Ep) as Htags.
  set (b := add n_requested_bytes _ _).
  destruct (push_all (immediate plan) b) as (P1 & P2 & P3 & P4).
  { cbn. pose proof (parts_count_nonneg (transfers plan)). lia. }
  set (b' := fold_left push (immediate plan) b) in *. cbn in P1, P2, P3, P4. clearbody b'.
  set (e' := _ <| http_queue := _ |>).
  assert (Hperm : transfers_of e' ≡ₚ transfers_of e ++ transfers plan).
  { rewrite (kinds_partition (transfers plan)) at 1. unfold transfers_of, queued, e'. cbn. solve_Permutation. }
  constructor; [|done|].
  - apply (books_perm _ _ _ _ (Permutation_sym Hperm)).
    apply (books_ext _ (e <| batches := <[id := b']> (batches e) |>)); [done..|].
    apply new_batch_books; [done|done| |done|lia|by rewrite P4].
    eapply Forall_impl; [exact Hshape|]. by intros t (_ & ? & _).
  - rewrite <-(queued_perm e' e (transfers plan) [] eq_refl).
    + apply Forall_app. split; [|done]. eapply Forall_impl; [exact Hshape|]. by intros t (? & _).
    + etransitivity; [apply Permutation_app_comm|by symmetry].
Qed.

(** *** The first state *)

Definition no_history : History := mkHistory ∅ ∅.

Lemma new_engine_inv o m : inv no_history (new_engine o m).
Proof.
  assert (Hq : queued (new_engine o m) = []).
  { unfold queued, new_engine. cbn. generalize (seq 0 (loop_count o)) as ks.
    induction ks as [|i ks IH]; [done|]. cbn. exact IH. }
  assert (Ht : transfers_of (new_engine o m) = []) by (unfold transfers_of; by rewrite Hq).
  constructor.
  - intros id. rewrite Ht. cbn. by rewrite lookup_empty.
  - unfold new_engine. cbn. apply Forall_map. apply Forall_forall. intros i _. unfold loop_ok, in_flight.
    cbn. lia.
  - by rewrite Hq.
Qed.
