(* ===== verification/Wakeup.v ===== *)
(** * Wakeup: how queued work reaches a sleeping loop

    Models the wake-up protocol of [src/src/runtime/engine.cpp] at the grain
    of its atomic operations: [wake_idle_loops], [queue_http], [take_http], the
    end of a turn of [io_loop] with its poll, the part of [cancel] that empties
    the queue and wakes the loops, and the part of [stop_workers] the loops
    see.  The threads are the loops and the callers (a submission, a credential
    worker, a cancellation, the shutdown); a step is one access to a shared
    variable or one critical section up to its store, so [poll_step] has every
    interleaving of a sequentially consistent memory.  A wake-up of
    [curl_multi_wakeup] stays until a poll returns.  The rest of a turn
    (transfers started, finished or put off) may do anything to the loop's own
    queues.  The theorems show that no wake-up is lost: the
    loops on their way to the queue and the wake-ups that callers still owe
    are counted against the transfers queued. *)

From S2P Require Import Prelude Text Uri Types Planner Response Transport Batch Engine System.

(** ** The word of idle bits *)

Definition loop_bit (i : nat) : Z := Z.shiftl 1 (Z.of_nat i).

(** [std::countr_zero] of 64 bits. *)
Fixpoint countr_zero_from (fuel i : nat) (x : Z) : nat :=
  match fuel with
  | O => i
  | S fuel => if Z.testbit x (Z.of_nat i) then i else countr_zero_from fuel (S i) x
  end.
Definition countr_zero (x : Z) : nat := countr_zero_from 64 0 x.

(** ** How long a loop may poll *)

Definition room (l : IoLoop) : bool := (length (active l) + length (resolving l) <? limit l)%nat.
Definition is_empty {A} (l : list A) : bool := (length l =? 0)%nat.

(** The retry that is due first. *)
Definition next_due (due : Z) (rs : list (Z * Transfer)) : Z := foldr (fun r m => Z.min r.1 m) due rs.

(** [running] counts the transfers libcurl works on; the clock is in
    nanoseconds and the timeout in milliseconds. *)
Definition poll_timeout (l : IoLoop) (backlog : nat) (running now : Z) : Z :=
  let timeout_ms :=
    if room l && (negb (is_empty (pending l)) || negb (backlog =? 0)%nat) then 0
    else match retry_queue l with
         | r :: rs => Z.max 0 (Z.min (Z.quot (next_due r.1 rs - now) NS_PER_MS) 50)
         | [] => if (running =? 0) && is_empty (pending l) then 200 else 50
         end in
  if is_empty (resolving l) then timeout_ms else Z.min timeout_ms 20.

(** ** The machine *)

(** Where a loop is in its turn.  [Moving] and [Storing] hold [http_mutex_]. *)
Inductive loop_pc :=
| Top                                   (* the condition of the while *)
| Take | Lock | Moving | Storing        (* take_http *)
| Cancelling                            (* cancellation_pending.exchange *)
| Work                                  (* the rest of the turn *)
| Deciding                              (* the timeout *)
| Announcing (timeout_ms : Z)           (* fetch_or of the bit *)
| Checking (timeout_ms : Z)             (* the second look at the backlog *)
| Polling (timeout_ms : Z) (announced : bool)
| Polled (announced : bool)
| Left.

(** Where a caller is. [Pushed] and [Filtered] hold [http_mutex_]; a caller
    that is through is no longer in the machine. *)
Inductive caller :=
| Pushing (ts : list Transfer) (checks_stop : bool)   (* submit, queue_http *)
| Pushed (count : nat)
| Stored (count : nat)
| Scanning (idle : Z) (count : nat)                   (* wake_idle_loops *)
| Waking (index : nat) (idle : Z) (count : nat)
| Filtering (batch : nat) | Filtered                  (* cancel *)
| Marking (index : nat)
| WakingAll (index : nat)                             (* wake_loops *)
| Stopping.                                           (* stop_workers *)

Inductive holder := ByLoop (i : nat) | ByCaller (id : nat).
#[export] Instance holder_eq_dec : EqDecision holder.
Proof. solve_decision. Defined.

Record PollLoop := mkPollLoop { pl_loop : IoLoop; pl_pc : loop_pc; wakeup : bool }.
#[export] Instance PollLoop_eta : Eta PollLoop := fun r => mkPollLoop (pl_loop r) (pl_pc r) (wakeup r).

Record Machine := mkMachine {
  queue : list Transfer;                (* http_queue_ *)
  http_backlog : nat;
  idle_loops : Z;
  http_mutex : option holder;
  stopped : bool;
  poll_loops : list PollLoop;
  callers : gmap nat caller;
}.
#[export] Instance Machine_eta : Eta Machine := fun r =>
  mkMachine (queue r) (http_backlog r) (idle_loops r) (http_mutex r) (stopped r) (poll_loops r) (callers r).

Definition new_machine (o : ClientOptions) : Machine :=
  {| queue := []; http_backlog := 0; idle_loops := 0; http_mutex := None; stopped := false;
     poll_loops := map (fun i => mkPollLoop (new_loop o i) Top false) (seq 0 (loop_count o)); callers := ∅ |}.

(** What a turn does besides: the loop's queues after it, the transfers
    running and the clock. *)
Record TurnEnv := mkTurnEnv { te_loop : IoLoop; te_running : Z; te_now : Z }.

Definition with_poll_loop (i : nat) (p : PollLoop) (m : Machine) : Machine :=
  m <| poll_loops := <[i := p]> (poll_loops m) |>.

Definition loop_step (env : TurnEnv) (i : nat) (m : Machine) : option Machine :=
  match poll_loops m !! i with
  | None => None
  | Some p =>
      let goto pc := with_poll_loop i (p <| pl_pc := pc |>) in
      let l := pl_loop p in
      match pl_pc p with
      | Top => Some (goto (if stopped m then Left else Take) m)
      | Take => Some (goto (if (http_backlog m =? 0)%nat then Cancelling else Lock) m)
      | Lock =>
          match http_mutex m with
          | Some _ => None
          | None => Some (goto Moving (m <| http_mutex := Some (ByLoop i) |>))
          end
      | Moving =>
          Some (with_poll_loop i
                  (p <| pl_pc := Storing |>
                     <| pl_loop := l <| pending := pending l ++ take (room_for l) (queue m) |> |>)
                  (m <| queue := drop (room_for l) (queue m) |>))
      | Storing =>
          Some (goto Cancelling (m <| http_backlog := length (queue m) |> <| http_mutex := None |>))
      | Cancelling =>
          Some (with_poll_loop i (p <| pl_pc := Work |> <| pl_loop := l <| cancellation_pending := false |> |>) m)
      | Work =>
          Some (with_poll_loop i
                  (p <| pl_pc := Deciding |>
                     <| pl_loop := (te_loop env) <| cancellation_pending := cancellation_pending l |> |>) m)
      | Deciding =>
          let timeout_ms := poll_timeout l (http_backlog m) (te_running env) (te_now env) in
          Some (goto (if room l && negb (timeout_ms =? 0) then Announcing timeout_ms
                      else Polling timeout_ms false) m)
      | Announcing timeout_ms =>
          Some (goto (Checking timeout_ms) (m <| idle_loops := Z.lor (idle_loops m) (loop_bit i) |>))
      | Checking timeout_ms =>
          Some (goto (Polling (if (http_backlog m =? 0)%nat then timeout_ms else 0) true) m)
      | Polling _ announced => Some (with_poll_loop i (p <| pl_pc := Polled announced |> <| wakeup := false |>) m)
      | Polled announced =>
          Some (goto Top (if announced then m <| idle_loops := Z.ldiff (idle_loops m) (loop_bit i) |> else m))
      | Left => None
      end
  end.

(** [curl_multi_wakeup] *)
Definition wake (i : nat) (m : Machine) : Machine :=
  m <| poll_loops := alter (fun p => p <| wakeup := true |>) i (poll_loops m) |>.
Definition mark (i : nat) (m : Machine) : Machine :=
  m <| poll_loops := alter (fun p => p <| pl_loop := (pl_loop p) <| cancellation_pending := true |> |>) i (poll_loops m) |>.

Definition caller_step (id : nat) (m : Machine) : option Machine :=
  match callers m !! id with
  | None => None
  | Some c =>
      let goto c m := m <| callers := <[id := c]> (callers m) |> in
      let done m := m <| callers := delete id (callers m) |> in
      match c with
      | Pushing ts checks_stop =>
          match http_mutex m with
          | Some _ => None
          | None =>
              if checks_stop && stopped m then Some (done m)
              else Some (goto (Pushed (length ts))
                           (m <| http_mutex := Some (ByCaller id) |> <| queue := queue m ++ ts |>))
          end
      | Pushed count =>
          Some (goto (Stored count) (m <| http_backlog := length (queue m) |> <| http_mutex := None |>))
      | Stored count => Some (goto (Scanning (idle_loops m) count) m)
      | Scanning idle count =>
          if (count =? 0)%nat || (idle =? 0) then Some (done m)
          else
            let index := countr_zero idle in
            let idle := Z.ldiff idle (loop_bit index) in
            let was := idle_loops m in
            let m := m <| idle_loops := Z.ldiff was (loop_bit index) |> in
            Some (goto (if negb (Z.land was (loop_bit index) =? 0) then Waking index idle count
                        else Scanning idle count) m)
      | Waking index idle count => Some (goto (Scanning idle (count - 1)) (wake index m))
      | Filtering batch =>
          match http_mutex m with
          | Some _ => None
          | None =>
              Some (goto Filtered (m <| http_mutex := Some (ByCaller id) |> <| queue := others batch (queue m) |>))
          end
      | Filtered =>
          Some (goto (Marking 0) (m <| http_backlog := length (queue m) |> <| http_mutex := None |>))
      | Marking index =>
          Some (if (index <? length (poll_loops m))%nat then goto (Marking (S index)) (mark index m)
                else goto (WakingAll 0) m)
      | WakingAll index =>
          Some (if (index <? length (poll_loops m))%nat then goto (WakingAll (S index)) (wake index m)
                else done m)
      | Stopping => Some (goto (WakingAll 0) (m <| stopped := true |>))
      end
  end.

(** What a thread comes with. *)
Definition initial (c : caller) : Prop :=
  match c with Pushing ts _ => ts <> [] | Filtering _ | Stopping => True | _ => False end.

Inductive poll_step : Machine -> Machine -> Prop :=
| Enters id c m : callers m !! id = None -> initial c -> poll_step m (m <| callers := <[id := c]> (callers m) |>)
| Caller_runs id m m' : caller_step id m = Some m' -> poll_step m m'
| Loop_runs env i m m' : loop_step env i m = Some m' -> poll_step m m'.

Inductive poll_reachable (o : ClientOptions) : Machine -> Prop :=
| Poll_start : poll_reachable o (new_machine o)
| Poll_then m m' : poll_reachable o m -> poll_step m m' -> poll_reachable o m'.

(** ** Bits *)

Definition bits_below (n : nat) (x : Z) : Prop :=
  0 <= x /\ forall k : nat, Z.testbit x (Z.of_nat k) = true -> (k < n)%nat.

Lemma loop_bit_spec i k : Z.testbit (loop_bit i) (Z.of_nat k) = bool_decide (i = k).
Proof.
  unfold loop_bit. rewrite Z.shiftl_1_l, Z.pow2_bits_eqb by lia.
  case_bool_decide; [apply Z.eqb_eq|apply Z.eqb_neq]; lia.
Qed.

Lemma or_bit x i k : Z.testbit (Z.lor x (loop_bit i)) (Z.of_nat k) = Z.testbit x (Z.of_nat k) || bool_decide (i = k).
Proof. by rewrite Z.lor_spec, loop_bit_spec. Qed.
Lemma clear_bit x i k :
  Z.testbit (Z.ldiff x (loop_bit i)) (Z.of_nat k) = Z.testbit x (Z.of_nat k) && negb (bool_decide (i = k)).
Proof. by rewrite Z.ldiff_spec, loop_bit_spec. Qed.

Lemma bits_below_or n x i : bits_below n x -> (i < n)%nat -> bits_below n (Z.lor x (loop_bit i)).
Proof.
  intros [H0 Hx] Hi. split.
  - apply Z.lor_nonneg. split; [done|]. unfold loop_bit. apply Z.shiftl_nonneg. lia.
  - intros k. rewrite or_bit. intros [H|H%bool_decide_eq_true]%orb_true_iff; [by apply Hx|by subst].
Qed.
Lemma bits_below_clear n x i : bits_below n x -> bits_below n (Z.ldiff x (loop_bit i)).
Proof.
  intros [H0 Hx]. split; [apply Z.ldiff_nonneg; by left|].
  intros k. rewrite clear_bit. intros [H _]%andb_true_iff. by apply Hx.
Qed.

Lemma countr_zero_from_spec x fuel : forall i,
  Z.testbit x (Z.of_nat (countr_zero_from fuel i x)) = true \/
  (forall k, (i <= k < i + fuel)%nat -> Z.testbit x (Z.of_nat k) = false).
Proof.
  induction fuel as [|fuel IH]; intros i; cbn [countr_zero_from]; [right; lia|].
  destruct (Z.testbit x (Z.of_nat i)) eqn:E; [by left|].
  destruct (IH (S i)) as [H|H]; [by left|right]. intros k Hk.
  destruct (decide (k = i)) as [->|]; [done|apply H; lia].
Qed.

(** A word that is not zero has its lowest bit found. *)
Lemma countr_zero_spec n x : bits_below n x -> (n <= 64)%nat -> x <> 0 ->
  Z.testbit x (Z.of_nat (countr_zero x)) = true /\ (countr_zero x < n)%nat.
Proof.
  intros [H0 Hx] Hn Hne. enough (Z.testbit x (Z.of_nat (countr_zero x)) = true) as H by (split; [done|by apply Hx]).
  destruct (countr_zero_from_spec x 64 0) as [H|H]; [done|]. exfalso. apply Hne. apply Z.bits_inj'.
  intros k Hk. rewrite Z.bits_0. rewrite <-(Z2Nat.id k) by done.
  destruct (Z.testbit x (Z.of_nat (Z.to_nat k))) eqn:E; [|done].
  rewrite H in E; [done|]. apply Hx in E. lia.
Qed.

Lemma land_bit x i : negb (Z.land x (loop_bit i) =? 0) = Z.testbit x (Z.of_nat i).
Proof.
  destruct (Z.testbit x (Z.of_nat i)) eqn:E.
  - apply negb_true_iff, Z.eqb_neq. intros H. apply (f_equal (fun z => Z.testbit z (Z.of_nat i))) in H.
    rewrite Z.land_spec, loop_bit_spec, E, Z.bits_0, bool_decide_eq_true_2 in H; done.
  - apply negb_false_iff, Z.eqb_eq, Z.bits_inj'. intros k Hk. rewrite <-(Z2Nat.id k) by done.
    rewrite Z.land_spec, loop_bit_spec, Z.bits_0. case_bool_decide as H; [by rewrite <-H, E|by rewrite andb_false_r].
Qed.

(** ** The invariant *)

Definition some_caller (Q : caller -> Prop) (m : Machine) : Prop :=
  exists id c, callers m !! id = Some c /\ Q c.
(** A caller is about to wake loop [i]; will wake every loop from some at most
    [i] on; is marking loops and will wake them all. *)
Definition wakes (i : nat) (c : caller) : Prop := match c with Waking j _ _ => j = i | _ => False end.
Definition sweeps (i : nat) (c : caller) : Prop := match c with WakingAll j => (j <= i)%nat | _ => False end.
Definition marks (c : caller) : Prop := match c with Marking _ => True | _ => False end.
Definition locks (pc : loop_pc) : bool := match pc with Moving | Storing => true | _ => false end.
Definition caller_locks (c : caller) : bool := match c with Pushed _ | Filtered => true | _ => false end.
Definition announced (pc : loop_pc) : bool := match pc with Checking _ | Polling _ true => true | _ => false end.
(** On the way to the condition of the while, or to the exchange. *)
Definition before_stop (pc : loop_pc) : bool := match pc with Polled _ | Top | Left => true | _ => false end.
Definition before_cancel (pc : loop_pc) : bool :=
  match pc with Polled _ | Top | Take | Lock | Moving | Storing | Cancelling | Left => true | _ => false end.

Record loop_ok (m : Machine) (i : nat) (p : PollLoop) : Prop := {
  lo_lock : locks (pl_pc p) = true <-> http_mutex m = Some (ByLoop i);
  lo_bit : announced (pl_pc p) = true ->
    Z.testbit (idle_loops m) (Z.of_nat i) = true \/ wakeup p = true \/ some_caller (wakes i) m;
  lo_room : match pl_pc p with Polling t false => t = 0 \/ room (pl_loop p) = false | _ => True end;
  lo_stop : stopped m = true -> before_stop (pl_pc p) = true \/ wakeup p = true \/ some_caller (sweeps i) m;
  lo_cancel : cancellation_pending (pl_loop p) = true ->
    before_cancel (pl_pc p) = true \/ wakeup p = true \/ some_caller marks m \/ some_caller (sweeps i) m;
}.

Record caller_ok (m : Machine) (id : nat) (c : caller) : Prop := {
  cl_lock : caller_locks c = true <-> http_mutex m = Some (ByCaller id);
  cl_data :
    let n := length (poll_loops m) in
    match c with
    | Pushing ts _ => ts <> []
    | Pushed count | Stored count => count <> 0%nat
    | Scanning idle _ => bits_below n idle
    | Waking index idle count => count <> 0%nat /\ (index < n)%nat /\ bits_below n idle
    | Filtered => (length (queue m) <= http_backlog m)%nat
    | _ => True
    end;
}.

(** A loop asleep: it polls with a timeout and no wake-up is on its way. *)
Definition asleep (p : PollLoop) : Prop :=
  wakeup p = false /\ match pl_pc p with Polling t _ => t <> 0 | _ => False end.
Record machine_ok (m : Machine) : Prop := {
  mo_count : (1 <= length (poll_loops m) <= 64)%nat;
  mo_loops : forall i p, poll_loops m !! i = Some p -> loop_ok m i p;
  mo_callers : forall id c, callers m !! id = Some c -> caller_ok m id c;
  mo_bits : bits_below (length (poll_loops m)) (idle_loops m);
  mo_free : http_mutex m = None -> http_backlog m = length (queue m);
  mo_holder : match http_mutex m with
              | Some (ByLoop i) => (i < length (poll_loops m))%nat
              | Some (ByCaller id) => is_Some (callers m !! id)
              | None => True
              end;
}.

(** ** One caller moves *)

Lemma some_caller_here Q m id c : callers m !! id = Some c -> Q c -> some_caller Q m.
Proof. intros H HQ. by exists id, c. Qed.

Lemma some_caller_keep (Q : caller -> Prop) m m' id c :
  callers m !! id = Some c -> (forall k, k <> id -> callers m' !! k = callers m !! k) ->
  some_caller Q m -> some_caller Q m' \/ Q c.
Proof.
  intros Hc Hother (k & d & Hd & HQ). destruct (decide (k = id)) as [->|Hk]; [right; congruence|left].
  exists k, d. by rewrite Hother.
Qed.

(** What a loop owes stays owed when the shared state moves on. *)
Lemma loop_ok_mono m m' i p p' :
  loop_ok m i p -> pl_pc p' = pl_pc p -> room (pl_loop p') = room (pl_loop p) ->
  (wakeup p = true -> wakeup p' = true) ->
  (http_mutex m' = Some (ByLoop i) <-> http_mutex m = Some (ByLoop i)) ->
  (Z.testbit (idle_loops m) (Z.of_nat i) = true ->
     Z.testbit (idle_loops m') (Z.of_nat i) = true \/ some_caller (wakes i) m') ->
  (some_caller (wakes i) m -> some_caller (wakes i) m' \/ wakeup p' = true) ->
  (stopped m' = true -> stopped m = true \/ some_caller (sweeps i) m') ->
  (some_caller (sweeps i) m -> some_caller (sweeps i) m' \/ wakeup p' = true) ->
  (cancellation_pending (pl_loop p') = true -> cancellation_pending (pl_loop p) = true \/ some_caller marks m') ->
  (some_caller marks m -> some_caller marks m' \/ some_caller (sweeps i) m') ->
  loop_ok m' i p'.
Proof.
  intros [H1 H2 H3 H4 H5] Hpc Hroom Hwake Hmutex Hbit Hwakes Hstop Hsweeps Hcancel Hmarks.
  constructor; rewrite ?Hpc, ?Hroom; [by rewrite Hmutex|..|done| |]; naive_solver.
Qed.

(** The shared state after a loop's step; the loop's own data is [p']. *)
Lemma loop_moves m m1 i p p' :
  machine_ok m -> poll_loops m !! i = Some p ->
  poll_loops m1 = poll_loops m -> callers m1 = callers m -> stopped m1 = stopped m ->
  (forall h, h <> ByLoop i -> http_mutex m1 = Some h <-> http_mutex m = Some h) ->
  (forall j, j <> i -> Z.testbit (idle_loops m1) (Z.of_nat j) = Z.testbit (idle_loops m) (Z.of_nat j)) ->
  bits_below (length (poll_loops m)) (idle_loops m1) ->
  (http_mutex m1 = None -> http_backlog m1 = length (queue m1)) ->
  (forall id, callers m !! id = Some Filtered -> (length (queue m1) <= http_backlog m1)%nat) ->
  loop_ok m1 i p' ->
  machine_ok (with_poll_loop i p' m1).
Proof.
  intros Hm Hi Hloops Hcallers Hstop Hmutex Hidle Hbits Hfree Hfiltered Hp'.
  assert (Hlt : (i < length (poll_loops m))%nat) by (by eapply lookup_lt_Some).
  assert (Hsome : forall Q, some_caller Q m -> some_caller Q (with_poll_loop i p' m1)).
  { intros Q (id & c & Hc & HQ). exists id, c. cbn. by rewrite Hcallers. }
  constructor; cbn; rewrite ?Hloops, ?length_insert.
  - apply (mo_count _ Hm).
  - intros j q. rewrite list_lookup_insert_Some. intros [(<- & <- & _)|[Hne Hq]].
    + destruct Hp' as [H1 H2 H3 H4 H5]. by constructor.
    + apply (loop_ok_mono m _ _ q); cbn; [by apply (mo_loops _ Hm)|done|done|done|apply Hmutex; congruence
        | |auto|rewrite Hstop; auto|auto|auto|auto].
      rewrite Hidle by congruence. auto.
  - intros id c. rewrite Hcallers. intros Hc. destruct (mo_callers _ Hm _ _ Hc) as [H1 H2].
    constructor; cbn; [by rewrite Hmutex|]. rewrite Hloops, length_insert.
    destruct c; try exact H2. by apply (Hfiltered id).
  - done.
  - done.
  - pose proof (mo_holder _ Hm) as Hh. destruct (http_mutex m1) as [[j|id]|] eqn:E; [| |done].
    + destruct (decide (j = i)) as [->|]; [done|]. assert (Hj : http_mutex m = Some (ByLoop j)) by (apply Hmutex; congruence).
      by rewrite Hj in Hh.
    + assert (Hj : http_mutex m = Some (ByCaller id)) by (by apply Hmutex). by rewrite Hj, <-Hcallers in Hh.
Qed.

(** Nobody else changes the lock while a loop holds it. *)
Lemma held_by_loop m i p h : machine_ok m -> poll_loops m !! i = Some p -> locks (pl_pc p) = true ->
  http_mutex m = Some h -> h = ByLoop i.
Proof. intros Hm Hi Hl Hh. apply (lo_lock _ _ _ (mo_loops _ Hm _ _ Hi)) in Hl. congruence. Qed.

Lemma no_filter m i p id : machine_ok m -> poll_loops m !! i = Some p -> locks (pl_pc p) = true ->
  callers m !! id <> Some Filtered.
Proof.
  intros Hm Hi Hl Hc. pose proof (proj1 (cl_lock _ _ _ (mo_callers _ Hm _ _ Hc)) eq_refl) as H.
  by apply (held_by_loop m i p) in H.
Qed.

Lemma filter_bound m id : machine_ok m -> callers m !! id = Some Filtered -> (length (queue m) <= http_backlog m)%nat.
Proof. intros Hm Hc. apply (cl_data _ _ _ (mo_callers _ Hm _ _ Hc)). Qed.

Lemma not_locks m i p : machine_ok m -> poll_loops m !! i = Some p -> locks (pl_pc p) = false ->
  http_mutex m <> Some (ByLoop i).
Proof. intros Hm Hi Hl H. apply (lo_lock _ _ _ (mo_loops _ Hm _ _ Hi)) in H. congruence. Qed.

Lemma poll_timeout_bounds l backlog running now : 0 <= poll_timeout l backlog running now <= 200.
Proof.
  unfold poll_timeout. destruct (_ && _); [destruct (is_empty _); lia|].
  destruct (retry_queue l); [destruct (_ && _)|]; destruct (is_empty (resolving l)); lia.
Qed.

(** A step of a loop that touches nothing shared and is not asleep after it. *)
Lemma loop_own_step m i p p' : machine_ok m -> poll_loops m !! i = Some p ->
  loop_ok m i p' -> machine_ok (with_poll_loop i p' m).
Proof.
  intros Hm Hi Hok. apply (loop_moves m m i p p'); auto using mo_free, mo_bits.
  intros id. by apply filter_bound.
Qed.

#[local] Ltac unchanged := cbn; try solve [intros; reflexivity | assumption | by apply mo_free].

(** A step that keeps what other threads see: the loop owes only its own part. *)
#[local] Ltac own_step m i p :=
  apply (loop_own_step m i p); [done..|]; constructor; cbn; naive_solver.

(** A step that changes a shared variable: what is left is how it changed. *)
#[local] Ltac shared_step m i p :=
  apply (loop_moves m _ i p); unchanged;
  [ .. | constructor; cbn; rewrite ?or_bit, ?bool_decide_eq_true_2, ?orb_true_r by done; naive_solver].

Lemma loop_step_ok env i m m' : machine_ok m -> loop_step env i m = Some m' -> machine_ok m'.
Proof.
  intros Hm. unfold loop_step. destruct (poll_loops m !! i) as [p|] eqn:Hi; [|done].
  pose proof (mo_loops _ Hm _ _ Hi) as [Hlock Hbit Hroom Hstop Hcancel].
  pose proof (lookup_lt_Some _ _ _ Hi) as Hlt. pose proof (mo_bits _ Hm) as Hbits.
  pose proof (no_filter m i p) as Hnf. pose proof (held_by_loop m i p) as Hheld.
  destruct (pl_pc p) as [| | | | | | | |t|t|t a|a|] eqn:Epc; cbn [locks announced before_stop before_cancel] in *.
  - intros [= <-]. apply (loop_own_step m i p); [done..|].
    constructor; cbn; destruct (stopped m); cbn; naive_solver.
  - intros [= <-]. apply (loop_own_step m i p); [done..|].
    constructor; cbn; destruct (_ =? _)%nat; cbn; naive_solver.
  - destruct (http_mutex m) eqn:El; [done|]. intros [= <-]. shared_step m i p.
    + intros h Hh. rewrite El. naive_solver.
    + intros H. discriminate H.
    + intros id. by apply filter_bound.
  - pose proof (proj1 Hlock eq_refl) as El. intros [= <-]. shared_step m i p.
    + intros H. congruence.
    + intros id Hid. by apply Hnf in Hid.
  - pose proof (proj1 Hlock eq_refl) as El. intros [= <-]. shared_step m i p.
    + intros h Hh. rewrite El. naive_solver.
  - intros [= <-]. own_step m i p.
  - intros [= <-]. own_step m i p.
  - set (t := poll_timeout _ _ _ _). intros [= <-].
    destruct (room (pl_loop p)) eqn:Er; [destruct (Z.eqb_spec t 0) as [Ht|Ht]|]; cbn [andb negb].
    all: apply (loop_own_step m i p); [done..|].
    all: constructor; cbn; rewrite ?Er; naive_solver.
  - intros [= <-]. shared_step m i p.
    + intros j Hj. rewrite or_bit, bool_decide_eq_false_2 by done. by rewrite orb_false_r.
    + by apply bits_below_or.
    + intros id. by apply filter_bound.
  - intros [= <-]. own_step m i p.
  - intros [= <-]. own_step m i p.
  - intros [= <-]. destruct a; [|own_step m i p].
    shared_step m i p.
    + intros j Hj. rewrite clear_bit, bool_decide_eq_false_2 by done. by rewrite andb_true_r.
    + by apply bits_below_clear.
    + intros id. by apply filter_bound.
  - done.
Qed.

(** A caller's step: what it owes the machine. *)
Lemma caller_moves m m' id :
  machine_ok m -> (forall k, k <> id -> callers m' !! k = callers m !! k) ->
  match callers m' !! id with Some c => caller_ok m' id c | None => http_mutex m' <> Some (ByCaller id) end ->
  length (poll_loops m') = length (poll_loops m) ->
  (forall i p', poll_loops m' !! i = Some p' -> loop_ok m' i p') ->
  (forall h, h <> ByCaller id -> http_mutex m' = Some h <-> http_mutex m = Some h) ->
  bits_below (length (poll_loops m)) (idle_loops m') ->
  (http_mutex m' = None -> http_backlog m' = length (queue m')) ->
  (forall k, callers m !! k = Some Filtered -> k <> id -> (length (queue m') <= http_backlog m')%nat) ->
  machine_ok m'.
Proof.
  intros Hm Hother Hme Hlen Hloops Hmutex Hbits Hfree Hfiltered.
  constructor; rewrite ?Hlen; [apply (mo_count _ Hm)|done| |done..|].
  - intros k d. destruct (decide (k = id)) as [->|Hk]; [by intros Hd; rewrite Hd in Hme|].
    rewrite Hother by done. intros Hd.
    destruct (mo_callers _ Hm _ _ Hd) as [H1 H2]. constructor; rewrite ?Hlen; [rewrite Hmutex by congruence; done|].
    cbv zeta in *. destruct d; try exact H2. by apply (Hfiltered k).
  - pose proof (mo_holder _ Hm) as Hh. destruct (http_mutex m') as [[j|k]|] eqn:E; [| |done].
    + assert (Hj : http_mutex m = Some (ByLoop j)) by (by apply Hmutex). by rewrite Hj in Hh.
    + destruct (decide (k = id)) as [->|Hk]; [by destruct (callers m' !! id)|].
      assert (Hj : http_mutex m = Some (ByCaller k)) by (apply Hmutex; congruence).
      rewrite Hj in Hh. by rewrite Hother.
Qed.

(** A caller that leaves does not hold the lock. *)
Lemma leaves m id c : machine_ok m -> callers m !! id = Some c -> caller_locks c = false ->
  match callers (m <| callers := delete id (callers m) |>) !! id with
  | Some c' => caller_ok (m <| callers := delete id (callers m) |>) id c'
  | None => http_mutex m <> Some (ByCaller id)
  end.
Proof.
  intros Hm Hc Hl. cbn. rewrite lookup_delete_eq. rewrite <-(cl_lock _ _ _ (mo_callers _ Hm _ _ Hc)). by rewrite Hl.
Qed.

(** The loops when a caller goes from [c] on without waking or marking one. *)
Lemma loops_kept m m' id c i p :
  machine_ok m -> callers m !! id = Some c -> (forall k, k <> id -> callers m' !! k = callers m !! k) ->
  (http_mutex m' = Some (ByLoop i) <-> http_mutex m = Some (ByLoop i)) -> stopped m' = stopped m ->
  (Z.testbit (idle_loops m) (Z.of_nat i) = true ->
     Z.testbit (idle_loops m') (Z.of_nat i) = true \/ some_caller (wakes i) m') ->
  ~ wakes i c -> (sweeps i c -> some_caller (sweeps i) m') ->
  (marks c -> some_caller marks m' \/ some_caller (sweeps i) m') ->
  poll_loops m !! i = Some p -> loop_ok m' i p.
Proof.
  intros Hm Hc Hother Hmutex Hstop Hbit Hw Hs Hk Hp.
  pose proof (fun Q => some_caller_keep Q m m' id c Hc Hother) as Hkeep.
  apply (loop_ok_mono m _ _ p); try done; [by apply (mo_loops _ Hm)|..].
  - intros H. destruct (Hkeep _ H); [by left|done].
  - rewrite Hstop. auto.
  - intros H. destruct (Hkeep _ H); auto.
  - auto.
  - intros H. destruct (Hkeep _ H); auto.
Qed.

Lemma wake_lookup i m j p' : poll_loops (wake i m) !! j = Some p' ->
  exists p, poll_loops m !! j = Some p /\ pl_loop p' = pl_loop p /\ pl_pc p' = pl_pc p /\
    (wakeup p = true -> wakeup p' = true) /\ (i = j -> wakeup p' = true) /\ (i <> j -> p' = p).
Proof.
  unfold wake. cbn. destruct (decide (i = j)) as [<-|Hne].
  - rewrite list_lookup_alter_eq. destruct (poll_loops m !! i) as [p|]; [|done]. intros [= <-]. by exists p.
  - rewrite list_lookup_alter_ne by done. intros H. by exists p'.
Qed.

Lemma mark_lookup i m j p' : poll_loops (mark i m) !! j = Some p' ->
  exists p, poll_loops m !! j = Some p /\ pl_pc p' = pl_pc p /\ wakeup p' = wakeup p /\
    room (pl_loop p') = room (pl_loop p).
Proof.
  unfold mark. cbn. destruct (decide (i = j)) as [<-|Hne].
  - rewrite list_lookup_alter_eq. destruct (poll_loops m !! i) as [p|]; [|done]. intros [= <-]. by exists p.
  - rewrite list_lookup_alter_ne by done. intros H. by exists p'.
Qed.

#[local] Ltac others := let k := fresh "k" in let Hk := fresh "Hk" in intros k Hk; cbn; by rewrite ?lookup_insert_ne, ?lookup_delete_ne by congruence.
#[local] Ltac kept := try fast_done; try others; cbn; try tauto; try done; auto.

Lemma queue_caller_ok id m m' ts checks :
  machine_ok m -> callers m !! id = Some (Pushing ts checks) -> caller_step id m = Some m' -> machine_ok m'.
Proof.
  intros Hm Hc. unfold caller_step. rewrite Hc. destruct (http_mutex m) eqn:El; [done|].
  destruct (mo_callers _ Hm _ _ Hc) as [H1 H2]. destruct (checks && stopped m); intros [= <-].
  - apply (caller_moves m _ id Hm); [others|exact (leaves m id _ Hm Hc eq_refl)|done|..].
    + intros i p Hp. apply (loops_kept m _ id (Pushing ts checks)); kept.
    + done.
    + apply (mo_bits _ Hm).
    + intros _. by apply (mo_free _ Hm).
    + cbn. intros k Hk _. by apply filter_bound in Hk.
  - apply (caller_moves m _ id Hm); [others| |done|..].
    + cbn. rewrite lookup_insert_eq. constructor; cbn; [done|]. by destruct ts.
    + intros i p Hp. apply (loops_kept m _ id (Pushing ts checks)); kept. by rewrite El.
    + cbn. intros h Hh. rewrite El. naive_solver.
    + apply (mo_bits _ Hm).
    + done.
    + cbn. intros k Hk _. pose proof (proj1 (cl_lock _ _ _ (mo_callers _ Hm _ _ Hk)) eq_refl). congruence.
Qed.

Lemma pushed_ok id m m' count :
  machine_ok m -> callers m !! id = Some (Pushed count) -> caller_step id m = Some m' -> machine_ok m'.
Proof.
  intros Hm Hc. unfold caller_step. rewrite Hc. destruct (mo_callers _ Hm _ _ Hc) as [H1 H2].
  pose proof (proj1 H1 eq_refl) as El. intros [= <-].
  apply (caller_moves m _ id Hm); [others| |done|..].
  - cbn. rewrite lookup_insert_eq. by constructor.
  - intros i p Hp. apply (loops_kept m _ id (Pushed count)); kept. rewrite El. naive_solver.
  - cbn. intros h Hh. rewrite El. naive_solver.
  - apply (mo_bits _ Hm).
  - done.
  - cbn. done.
Qed.

Lemma stored_ok id m m' count :
  machine_ok m -> callers m !! id = Some (Stored count) -> caller_step id m = Some m' -> machine_ok m'.
Proof.
  intros Hm Hc. unfold caller_step. rewrite Hc. destruct (mo_callers _ Hm _ _ Hc) as [H1 H2].
  intros [= <-]. apply (caller_moves m _ id Hm); [others| |done|..].
  - cbn. rewrite lookup_insert_eq. constructor; cbn; [done|]. apply (mo_bits _ Hm).
  - intros i p Hp. apply (loops_kept m _ id (Stored count)); kept.
  - done.
  - apply (mo_bits _ Hm).
  - apply (mo_free _ Hm).
  - intros k Hk _. by apply filter_bound in Hk.
Qed.

Lemma scanning_ok id m m' idle count :
  machine_ok m -> callers m !! id = Some (Scanning idle count) -> caller_step id m = Some m' -> machine_ok m'.
Proof.
  intros Hm Hc. unfold caller_step. rewrite Hc. destruct (mo_callers _ Hm _ _ Hc) as [H1 H2].
  destruct ((count =? 0)%nat || (idle =? 0)) eqn:Eend.
  - intros [= <-]. apply (caller_moves m _ id Hm); [others|exact (leaves m id _ Hm Hc eq_refl)|done|..].
    + intros i p Hp. apply (loops_kept m _ id (Scanning idle count)); kept.
    + done.
    + apply (mo_bits _ Hm).
    + apply (mo_free _ Hm).
    + intros k Hk _. by apply filter_bound in Hk.
  - apply orb_false_iff in Eend as [Hn%Nat.eqb_neq Hi%Z.eqb_neq].
    destruct (countr_zero_spec _ _ H2 (proj2 (mo_count _ Hm)) Hi) as [_ Hlt].
    cbn zeta. rewrite land_bit. generalize (countr_zero idle), Hlt. clear Hlt. intros index Hlt.
    intros [= <-]. apply (caller_moves m _ id Hm); [others| |done|..].
    + cbn. rewrite lookup_insert_eq.
      constructor; cbn; destruct (Z.testbit _ _); cbn; auto using bits_below_clear.
    + intros i p Hp. apply (loops_kept m _ id (Scanning idle count)); kept.
      intros Hb. rewrite clear_bit, Hb. case_bool_decide as Hx; [right|by left].
      apply (some_caller_here _ _ id (Waking index (Z.ldiff idle (loop_bit index)) count)); [|done].
      cbn. by rewrite lookup_insert_eq, Hx, Hb.
    + done.
    + apply bits_below_clear, (mo_bits _ Hm).
    + apply (mo_free _ Hm).
    + intros k Hk _. by apply filter_bound in Hk.
Qed.

Lemma waking_ok id m m' index idle count :
  machine_ok m -> callers m !! id = Some (Waking index idle count) -> caller_step id m = Some m' -> machine_ok m'.
Proof.
  intros Hm Hc. unfold caller_step. rewrite Hc. destruct (mo_callers _ Hm _ _ Hc) as [H1 (H2 & H3 & H4)].
  intros [= <-]. apply (caller_moves m _ id Hm); [others| |by cbn; rewrite length_alter|..].
  - cbn. rewrite lookup_insert_eq. constructor; cbn; [done|by rewrite length_alter].
  - intros i p' Hp'. destruct (wake_lookup index m i p' Hp') as (p & Hp & Hl & Hpc & Hw & Hi & _).
    match type of Hp' with poll_loops ?m1 !! _ = _ => set (m' := m1) in * end.
    assert (Hother : forall k, k <> id -> callers m' !! k = callers m !! k) by others.
    pose proof (fun Q => some_caller_keep Q m m' id _ Hc Hother) as Hkeep.
    apply (loop_ok_mono m _ _ p); rewrite ?Hl; try done; [by apply (mo_loops _ Hm)|by left|..|by left| |by left|].
    all: intros H; destruct (Hkeep _ H) as [?|Hx]; auto; done.
  - done.
  - apply (mo_bits _ Hm).
  - apply (mo_free _ Hm).
  - intros k Hk _. by apply filter_bound in Hk.
Qed.

Lemma filtering_ok id m m' batch :
  machine_ok m -> callers m !! id = Some (Filtering batch) -> caller_step id m = Some m' -> machine_ok m'.
Proof.
  intros Hm Hc. unfold caller_step. rewrite Hc. destruct (http_mutex m) eqn:El; [done|]. intros [= <-].
  apply (caller_moves m _ id Hm); [others| |done|..].
  - cbn. rewrite lookup_insert_eq. constructor; cbn; [done|].
    rewrite (mo_free _ Hm El). unfold others. apply length_filter.
  - intros i p Hp. apply (loops_kept m _ id (Filtering batch)); kept. by rewrite El.
  - cbn. intros h Hh. rewrite El. naive_solver.
  - apply (mo_bits _ Hm).
  - done.
  - cbn. intros k Hk _. pose proof (proj1 (cl_lock _ _ _ (mo_callers _ Hm _ _ Hk)) eq_refl). congruence.
Qed.

Lemma filtered_ok id m m' :
  machine_ok m -> callers m !! id = Some Filtered -> caller_step id m = Some m' -> machine_ok m'.
Proof.
  intros Hm Hc. unfold caller_step. rewrite Hc. destruct (mo_callers _ Hm _ _ Hc) as [H1 H2].
  pose proof (proj1 H1 eq_refl) as El. intros [= <-].
  apply (caller_moves m _ id Hm); [others| |done|..].
  - cbn. rewrite lookup_insert_eq. by constructor.
  - intros i p Hp. apply (loops_kept m _ id Filtered); kept. rewrite El. naive_solver.
  - cbn. intros h Hh. rewrite El. naive_solver.
  - apply (mo_bits _ Hm).
  - done.
  - cbn. done.
Qed.

Lemma marking_ok id m m' index :
  machine_ok m -> callers m !! id = Some (Marking index) -> caller_step id m = Some m' -> machine_ok m'.
Proof.
  intros Hm Hc. unfold caller_step. rewrite Hc. destruct (index <? length (poll_loops m))%nat; intros [= <-].
  - apply (caller_moves m _ id Hm); [others| |by cbn; rewrite length_alter|..].
    + cbn. rewrite lookup_insert_eq. by constructor; cbn;
        [rewrite (cl_lock _ _ _ (mo_callers _ Hm _ _ Hc))|].
    + intros i p' Hp'. destruct (mark_lookup index m i p' Hp') as (p & Hp & Hpc & Hw & Hr).
      match type of Hp' with poll_loops ?m1 !! _ = _ => set (m' := m1) in * end.
      assert (Hother : forall k, k <> id -> callers m' !! k = callers m !! k) by others.
      assert (Hmarks : some_caller marks m')
        by (apply (some_caller_here _ _ id (Marking (S index))); [apply lookup_insert_eq|done]).
      pose proof (fun Q => some_caller_keep Q m m' id _ Hc Hother) as Hkeep.
      apply (loop_ok_mono m _ _ p); try done; [by apply (mo_loops _ Hm)|by rewrite Hw|by left|..|by left| |by right|by left].
      all: intros H; destruct (Hkeep _ H) as [?|Hx]; auto; done.
    + done.
    + apply (mo_bits _ Hm).
    + apply (mo_free _ Hm).
    + intros k Hk _. by apply filter_bound in Hk.
  - apply (caller_moves m _ id Hm); [others| |done|..].
    + cbn. rewrite lookup_insert_eq. by constructor; cbn;
        [rewrite (cl_lock _ _ _ (mo_callers _ Hm _ _ Hc))|].
    + intros i p Hp. apply (loops_kept m _ id (Marking index)); kept. intros _. right.
      apply (some_caller_here _ _ id (WakingAll 0)); [apply lookup_insert_eq|]. cbn. lia.
    + done.
    + apply (mo_bits _ Hm).
    + apply (mo_free _ Hm).
    + intros k Hk _. by apply filter_bound in Hk.
Qed.

Lemma waking_all_ok id m m' index :
  machine_ok m -> callers m !! id = Some (WakingAll index) -> caller_step id m = Some m' -> machine_ok m'.
Proof.
  intros Hm Hc. unfold caller_step. rewrite Hc. destruct (Nat.ltb_spec index (length (poll_loops m))); intros [= <-].
  - apply (caller_moves m _ id Hm); [others| |by cbn; rewrite length_alter|..].
    + cbn. rewrite lookup_insert_eq. by constructor; cbn;
        [rewrite (cl_lock _ _ _ (mo_callers _ Hm _ _ Hc))|].
    + intros i p' Hp'. destruct (wake_lookup index m i p' Hp') as (p & Hp & Hl & Hpc & Hw & Hi & _).
      match type of Hp' with poll_loops ?m1 !! _ = _ => set (m' := m1) in * end.
      assert (Hother : forall k, k <> id -> callers m' !! k = callers m !! k) by others.
      pose proof (fun Q => some_caller_keep Q m m' id _ Hc Hother) as Hkeep.
      apply (loop_ok_mono m _ _ p); rewrite ?Hl; try done; [by apply (mo_loops _ Hm)|by left|..|by left| |by left|].
      all: intros H'; destruct (Hkeep _ H') as [?|Hx]; auto; try done.
      cbn in Hx. destruct (decide (index = i)) as [Heq|]; [auto|left].
      apply (some_caller_here _ _ id (WakingAll (S index))); [apply lookup_insert_eq|]. cbn. lia.
    + done.
    + apply (mo_bits _ Hm).
    + apply (mo_free _ Hm).
    + intros k Hk _. by apply filter_bound in Hk.
  - apply (caller_moves m _ id Hm); [others|exact (leaves m id _ Hm Hc eq_refl)|done|..].
    + intros i p Hp. apply (loops_kept m _ id (WakingAll index)); kept.
      cbn in Hp. apply lookup_lt_Some in Hp. lia.
    + done.
    + apply (mo_bits _ Hm).
    + apply (mo_free _ Hm).
    + intros k Hk _. by apply filter_bound in Hk.
Qed.

Lemma stopping_ok id m m' :
  machine_ok m -> callers m !! id = Some Stopping -> caller_step id m = Some m' -> machine_ok m'.
Proof.
  intros Hm Hc. unfold caller_step. rewrite Hc. intros [= <-].
  apply (caller_moves m _ id Hm); [others| |done|..].
  - cbn. rewrite lookup_insert_eq. by constructor; cbn;
      [rewrite (cl_lock _ _ _ (mo_callers _ Hm _ _ Hc))|].
  - intros i p Hp. match goal with |- loop_ok ?m1 _ _ => set (m' := m1) in * end.
    assert (Hother : forall k, k <> id -> callers m' !! k = callers m !! k) by others.
    pose proof (fun Q => some_caller_keep Q m m' id _ Hc Hother) as Hkeep.
    apply (loop_ok_mono m _ _ p); try done; [by apply (mo_loops _ Hm)|by left|..|by left|].
    2: { intros _. right. apply (some_caller_here _ _ id (WakingAll 0)); [apply lookup_insert_eq|]. cbn. lia. }
    all: intros H'; destruct (Hkeep _ H') as [?|Hx]; auto; done.
  - done.
  - apply (mo_bits _ Hm).
  - apply (mo_free _ Hm).
  - intros k Hk _. by apply filter_bound in Hk.
Qed.

Lemma caller_step_ok id m m' : machine_ok m -> caller_step id m = Some m' -> machine_ok m'.
Proof.
  intros Hm Hs. destruct (callers m !! id) as [c|] eqn:Hc; [|by unfold caller_step in Hs; rewrite Hc in Hs].
  destruct c; [eapply queue_caller_ok|eapply pushed_ok|eapply stored_ok|eapply scanning_ok|eapply waking_ok
    |eapply filtering_ok|eapply filtered_ok|eapply marking_ok|eapply waking_all_ok|eapply stopping_ok]; done.
Qed.

Lemma enters_ok id c m : machine_ok m -> callers m !! id = None -> initial c ->
  machine_ok (m <| callers := <[id := c]> (callers m) |>).
Proof.
  intros Hm Hn Hc.
  assert (Hsome : forall Q, some_caller Q m -> some_caller Q (m <| callers := <[id := c]> (callers m) |>)).
  { intros Q (k & d & Hd & HQ). exists k, d. cbn. rewrite lookup_insert_ne; [done|congruence]. }
  assert (Hfree : http_mutex m <> Some (ByCaller id)).
  { intros H. pose proof (mo_holder _ Hm) as Hh. rewrite H, Hn in Hh. by apply is_Some_None in Hh. }
  apply (caller_moves m _ id Hm); [others| |done|..].
  - cbn. rewrite lookup_insert_eq. constructor; cbn; destruct c; naive_solver.
  - intros i p Hp. apply (loop_ok_mono m _ _ p); cbn; auto. by apply (mo_loops _ Hm).
  - done.
  - apply (mo_bits _ Hm).
  - apply (mo_free _ Hm).
  - intros k Hk _. by apply filter_bound in Hk.
Qed.

Lemma new_machine_ok o : machine_ok (new_machine o).
Proof.
  pose proof (loop_count_bounds o) as Hn.
  constructor; cbn; rewrite ?length_map, ?length_seq; try done.
  - intros i p. rewrite list_lookup_fmap, fmap_Some. intros (k & Hk & ->). by constructor.
  - split; [done|]. intros k. by rewrite Z.bits_0.
Qed.

Lemma machine_invariant o m : poll_reachable o m -> machine_ok m.
Proof.
  induction 1 as [|m m' _ IH Hs]; [apply new_machine_ok|].
  destruct Hs; eauto using enters_ok, caller_step_ok, loop_step_ok.
Qed.

#[export] Instance asleep_dec p : Decision (asleep p).
Proof. unfold asleep. destruct (pl_pc p); apply _. Defined.

(** ** Every queued transfer has a loop coming for it *)

(** Not yet past [take_http]. *)
Definition taking (pc : loop_pc) : bool :=
  match pc with Polled _ | Top | Take | Lock | Moving => true | _ => false end.
(** A loop with room that is on its way to [take_http]: it is there, or it
    will not stay in its poll. *)
Definition heading (p : PollLoop) : bool :=
  negb (room_for (pl_loop p) =? 0)%nat && (taking (pl_pc p) || announced (pl_pc p) && wakeup p).

(** The same while callers run: whoever cleared the bit of an announced loop
    is about to wake it. *)
Definition headed (word : Z) (i : nat) (p : PollLoop) : nat :=
  Nat.b2n (negb (room_for (pl_loop p) =? 0)%nat && (taking (pl_pc p) || announced (pl_pc p)) &&
           negb (Z.testbit word (Z.of_nat i))).

Fixpoint total {A} (f : nat -> A -> nat) (i : nat) (l : list A) : nat :=
  match l with [] => 0%nat | a :: l => (f i a + total f (S i) l)%nat end.
Definition coming (m : Machine) : nat := total (headed (idle_loops m)) 0 (poll_loops m).

(** The loops a caller has yet to wake, loop [i] being one it can choose. *)
Definition owed (i : nat) (c : caller) : nat :=
  match c with
  | Pushed count | Stored count => count
  | Scanning idle count => if Z.testbit idle (Z.of_nat i) then count else 0
  | Waking _ idle count => if Z.testbit idle (Z.of_nat i) then count - 1 else 0
  | _ => 0
  end.
Definition owing (i : nat) (m : Machine) : nat := sum_list (map (fun kc => owed i kc.2) (map_to_list (callers m))).
Definition owed_at (i : nat) (m : Machine) (id : nat) : nat := from_option (owed i) 0%nat (callers m !! id).

(** What the queue holds beyond [http_backlog]. *)
Definition unstored (m : Machine) : nat :=
  match http_mutex m with
  | Some (ByCaller id) => match callers m !! id with Some (Pushed count) => count | _ => 0 end
  | _ => 0
  end.

(** A loop announced itself, found no backlog and has not been chosen. *)
Definition dozes (word : Z) (i : nat) (p : PollLoop) : Prop :=
  match pl_pc p with Polling t true => t <> 0 /\ Z.testbit word (Z.of_nat i) = true | _ => False end.

(** The bit is set between the announcement and the end of the poll only, and
    a loop that announces itself has room. *)
Definition bit_ok (word : Z) (i : nat) (p : PollLoop) : Prop :=
  match pl_pc p with
  | Announcing _ => room_for (pl_loop p) <> 0%nat /\ Z.testbit word (Z.of_nat i) = false
  | Checking _ | Polling _ true | Polled true => room_for (pl_loop p) <> 0%nat
  | _ => Z.testbit word (Z.of_nat i) = false
  end.

(** As long as some loop dozes, what is queued is matched by loops that are
    coming or will be woken. *)
Definition matched (i : nat) (m : Machine) : Prop := (length (queue m) <= coming m + owing i m)%nat.

Record shares (m : Machine) : Prop := {
  sh_backlog : (length (queue m) <= http_backlog m + unstored m)%nat;
  sh_bits : forall i p, poll_loops m !! i = Some p -> bit_ok (idle_loops m) i p;
  sh_dozes : stopped m = false -> forall i p, poll_loops m !! i = Some p -> dozes (idle_loops m) i p -> matched i m;
}.

Lemma total_le {A} (f g : nat -> A -> nat) (l : list A) : forall i l', length l = length l' ->
  (forall j b b', l !! j = Some b -> l' !! j = Some b' -> (f (i + j) b <= g (i + j) b')%nat) ->
  (total f i l <= total g i l')%nat.
Proof.
  induction l as [|x l IH]; intros i [|y l'] Hlen Hle; try done. cbn [total]. injection Hlen as Hlen.
  pose proof (Hle 0%nat x y eq_refl eq_refl) as H0. rewrite Nat.add_0_r in H0.
  enough (total f (S i) l <= total g (S i) l')%nat by lia. apply IH; [done|]. intros j b b' Hb Hb'.
  rewrite Nat.add_succ_comm. by apply Hle.
Qed.

(** Of two sums that differ at one place only. *)
Lemma total_step {A} (f g : nat -> A -> nat) (l : list A) : forall i l' k a a', length l = length l' ->
  l !! k = Some a -> l' !! k = Some a' ->
  (forall j b b', j <> k -> l !! j = Some b -> l' !! j = Some b' -> (f (i + j) b <= g (i + j) b')%nat) ->
  (total f i l + g (i + k) a' <= total g i l' + f (i + k) a)%nat.
Proof.
  induction l as [|x l IH]; intros i [|y l'] k a a' Hlen Hk Hk' Hle; try done.
  cbn [total]. injection Hlen as Hlen. destruct k as [|k]; cbn in Hk, Hk'.
  - injection Hk as ->. injection Hk' as ->. rewrite Nat.add_0_r.
    enough (total f (S i) l <= total g (S i) l')%nat by lia. apply total_le; [done|]. intros j b b' Hb Hb'.
    rewrite Nat.add_succ_comm. by apply (Hle (S j)).
  - pose proof (Hle 0%nat x y ltac:(done) eq_refl eq_refl) as H0. rewrite Nat.add_0_r in H0.
    rewrite <-!Nat.add_succ_comm. enough (total f (S i) l + g (S i + k) a' <= total g (S i) l' + f (S i + k) a)%nat by lia.
    apply IH; [done..|]. intros j b b' Hj Hb Hb'. rewrite Nat.add_succ_comm. apply (Hle (S j)); [congruence|done..].
Qed.

Lemma owing_split i m id : owing i m =
  (owed_at i m id + sum_list (map (fun kc => owed i kc.2) (map_to_list (delete id (callers m)))))%nat.
Proof.
  unfold owing, owed_at. destruct (callers m !! id) as [c|] eqn:Hc; cbn.
  - pose proof (Permutation_map (fun kc => owed i kc.2) (map_to_list_delete (callers m) id c Hc)) as Hp.
    cbn [map snd] in Hp. by rewrite <-Hp.
  - by rewrite delete_id.
Qed.

Lemma owing_moves i m m' id : (forall k, k <> id -> callers m' !! k = callers m !! k) ->
  (owing i m' + owed_at i m id = owing i m + owed_at i m' id)%nat.
Proof.
  intros Hother. rewrite (owing_split i m id), (owing_split i m' id).
  assert (Hd : delete id (callers m') = delete id (callers m)).
  { apply map_eq. intros k. destruct (decide (k = id)) as [->|Hk]; [by rewrite !lookup_delete_eq|].
    by rewrite !lookup_delete_ne, Hother. }
  rewrite Hd. lia.
Qed.

Lemma unstored_owing i m : (unstored m <= owing i m)%nat.
Proof.
  unfold unstored. destruct (http_mutex m) as [[|id]|]; try lia.
  destruct (callers m !! id) as [[| | | | | | | | |]|] eqn:Hc; try lia.
  rewrite (owing_split i m id). unfold owed_at. rewrite Hc. cbn. lia.
Qed.

(** A bit that is cleared takes no loop off its way. *)
Lemma headed_clear word i j p p' :
  (taking (pl_pc p) || announced (pl_pc p) = true -> taking (pl_pc p') || announced (pl_pc p') = true) ->
  room_for (pl_loop p') = room_for (pl_loop p) ->
  (headed word j p <= headed (Z.ldiff word (loop_bit i)) j p')%nat.
Proof.
  intros Hpc Hr. unfold headed. rewrite Hr, clear_bit.
  destruct (taking (pl_pc p) || announced (pl_pc p)); [rewrite Hpc by done|rewrite andb_false_r; cbn; lia].
  destruct (room_for (pl_loop p) =? 0)%nat, (Z.testbit word (Z.of_nat j)), (bool_decide (i = j)); cbn; lia.
Qed.

(** The shared part of a caller's step. *)
Lemma caller_shares m m' id c :
  machine_ok m -> shares m -> callers m !! id = Some c -> (forall k, k <> id -> callers m' !! k = callers m !! k) ->
  (length (queue m') <= http_backlog m' + unstored m')%nat -> (stopped m' = false -> stopped m = false) ->
  length (poll_loops m') = length (poll_loops m) ->
  (forall i p', poll_loops m' !! i = Some p' -> exists p, poll_loops m !! i = Some p /\ pl_pc p' = pl_pc p /\
     room_for (pl_loop p') = room_for (pl_loop p)) ->
  (forall i : nat, Z.testbit (idle_loops m') (Z.of_nat i) = true -> Z.testbit (idle_loops m) (Z.of_nat i) = true) ->
  (forall i, Z.testbit (idle_loops m') (Z.of_nat i) = true ->
     (length (queue m') + coming m + owed i c <= length (queue m) + coming m' + owed_at i m' id)%nat) ->
  shares m'.
Proof.
  intros Hm [Hb Hbits Hd] Hc Hother Hb' Hs Hlen Hloops Hword Hcount. constructor; [done|..].
  - intros i p' Hp'. destruct (Hloops i p' Hp') as (p & Hp & Hpc & Hr). specialize (Hbits i p Hp).
    unfold bit_ok in *. rewrite Hpc, Hr. pose proof (Hword i) as Hi.
    destruct (pl_pc p) as [| | | | | | | | | |? []|[]|]; try done;
      (destruct (Z.testbit (idle_loops m') _); [rewrite Hi in Hbits; naive_solver|naive_solver]).
  - intros Hst i p' Hp' Hz. destruct (Hloops i p' Hp') as (p & Hp & Hpc & Hr). unfold dozes in Hz. rewrite Hpc in Hz.
    destruct (pl_pc p) as [| | | | | | | | | |t []| |] eqn:E; try done. destruct Hz as [Ht Hbit].
    assert (Hz' : dozes (idle_loops m) i p) by (unfold dozes; rewrite E; auto).
    pose proof (Hd (Hs Hst) i p Hp Hz') as H. unfold matched in *.
    pose proof (owing_moves i m m' id Hother) as Ho. unfold owed_at at 1 in Ho. rewrite Hc in Ho. cbn in Ho.
    specialize (Hcount i Hbit). lia.
Qed.

Lemma unstored_kept m m' id c : callers m !! id = Some c -> (forall count, c <> Pushed count) ->
  (forall k, k <> id -> callers m' !! k = callers m !! k) -> http_mutex m' = http_mutex m ->
  (unstored m <= unstored m')%nat.
Proof.
  intros Hc Hne Hother Hmu. unfold unstored. rewrite Hmu. destruct (http_mutex m) as [[|k]|]; try lia.
  destruct (decide (k = id)) as [->|Hk]; [|by rewrite Hother].
  rewrite Hc. destruct c; try lia. by destruct (Hne count).
Qed.

(** What waking and marking leave of a loop. *)
Lemma altered_lookup (f : PollLoop -> PollLoop) k i p' (l : list PollLoop) :
  (forall p, pl_pc (f p) = pl_pc p) -> (forall p, room_for (pl_loop (f p)) = room_for (pl_loop p)) ->
  alter f k l !! i = Some p' ->
  exists p, l !! i = Some p /\ pl_pc p' = pl_pc p /\ room_for (pl_loop p') = room_for (pl_loop p).
Proof.
  intros Hpc Hr. destruct (decide (k = i)) as [<-|Hne].
  - rewrite list_lookup_alter_eq, fmap_Some. intros (p & Hp & ->). exists p. by rewrite Hpc, Hr.
  - rewrite list_lookup_alter_ne by done. intros Hp. by exists p'.
Qed.
Lemma coming_le m m' : length (poll_loops m') = length (poll_loops m) ->
  (forall i p', poll_loops m' !! i = Some p' -> exists p, poll_loops m !! i = Some p /\ pl_pc p' = pl_pc p /\
     room_for (pl_loop p') = room_for (pl_loop p)) ->
  (forall i : nat, Z.testbit (idle_loops m') (Z.of_nat i) = true -> Z.testbit (idle_loops m) (Z.of_nat i) = true) ->
  (coming m <= coming m')%nat.
Proof.
  intros Hlen Hloops Hword. apply total_le; [done|]. intros j p p' Hp Hp'.
  destruct (Hloops j p' Hp') as (q & Hq & Hpc & Hr). replace q with p in * by congruence.
  unfold headed. rewrite Hpc, Hr. cbn [Nat.add]. specialize (Hword j).
  destruct (_ && (_ || _)), (Z.testbit (idle_loops m) _), (Z.testbit (idle_loops m') _); cbn; try lia.
Qed.

(** A step of a caller that leaves the loops and the idle bits alone. *)
Lemma plain_shares m m' id c :
  machine_ok m -> shares m -> callers m !! id = Some c -> (forall k, k <> id -> callers m' !! k = callers m !! k) ->
  (length (queue m') <= http_backlog m' + unstored m')%nat -> (stopped m' = false -> stopped m = false) ->
  length (poll_loops m') = length (poll_loops m) ->
  (forall i p', poll_loops m' !! i = Some p' -> exists p, poll_loops m !! i = Some p /\ pl_pc p' = pl_pc p /\
     room_for (pl_loop p') = room_for (pl_loop p)) ->
  idle_loops m' = idle_loops m ->
  (forall i, Z.testbit (idle_loops m) (Z.of_nat i) = true ->
     (length (queue m') + owed i c <= length (queue m) + owed_at i m' id)%nat) ->
  shares m'.
Proof.
  intros Hm Hsh Hc Hother Hb Hs Hlen Hloops Hword Hcount.
  apply (caller_shares m m' id c); try done; [by rewrite Hword|]. intros i Hi. rewrite Hword in Hi.
  pose proof (coming_le m m' Hlen Hloops ltac:(by rewrite Hword)). specialize (Hcount i Hi). lia.
Qed.

#[local] Ltac same_loops := let p := fresh "p" in cbn; intros ? p ?; exists p; auto.
#[local] Ltac counts := let i := fresh "i" in
  intros i Hi; unfold owed_at; cbn; rewrite ?lookup_insert_eq, ?lookup_delete_eq; cbn; rewrite ?Hi, ?length_app; try lia.

Lemma leaving_shares m id c : machine_ok m -> shares m -> callers m !! id = Some c ->
  (forall count, c <> Pushed count) ->
  (forall i, Z.testbit (idle_loops m) (Z.of_nat i) = true -> owed i c = 0%nat) ->
  shares (m <| callers := delete id (callers m) |>).
Proof.
  intros Hm Hsh Hc Hne H0.
  assert (Hother : forall k, k <> id -> delete id (callers m) !! k = callers m !! k) by others.
  apply (plain_shares m _ id c Hm Hsh Hc); try done; [|same_loops|].
  - pose proof (sh_backlog _ Hsh). pose proof (unstored_kept m (m <| callers := delete id (callers m) |>) id _ Hc Hne
      Hother eq_refl). cbn in *. lia.
  - intros i Hi. rewrite H0 by done. cbn. lia.
Qed.

Lemma going_shares m m' id c c' : machine_ok m -> shares m -> callers m !! id = Some c ->
  callers m' = <[id := c']> (callers m) -> queue m' = queue m -> http_backlog m' = http_backlog m ->
  http_mutex m' = http_mutex m -> idle_loops m' = idle_loops m -> (stopped m' = false -> stopped m = false) ->
  length (poll_loops m') = length (poll_loops m) ->
  (forall i p', poll_loops m' !! i = Some p' -> exists p, poll_loops m !! i = Some p /\ pl_pc p' = pl_pc p /\
     room_for (pl_loop p') = room_for (pl_loop p)) ->
  (forall count, c <> Pushed count) ->
  (forall i, Z.testbit (idle_loops m) (Z.of_nat i) = true -> (owed i c <= owed i c')%nat) ->
  shares m'.
Proof.
  intros Hm Hsh Hc Hc' Hq Hb Hmu Hw Hs Hlen Hloops Hne Hle.
  assert (Hother : forall k, k <> id -> callers m' !! k = callers m !! k) by (rewrite Hc'; others).
  apply (plain_shares m _ id c Hm Hsh Hc); try done.
  - pose proof (sh_backlog _ Hsh). pose proof (unstored_kept m m' id _ Hc Hne Hother Hmu). rewrite Hq, Hb. lia.
  - intros i Hi. unfold owed_at. rewrite Hc', lookup_insert_eq, Hq. cbn. specialize (Hle i Hi). lia.
Qed.

Lemma scanning_shares m m' id idle count :
  machine_ok m -> shares m -> callers m !! id = Some (Scanning idle count) -> caller_step id m = Some m' -> shares m'.
Proof.
  intros Hm Hsh Hc. unfold caller_step. rewrite Hc.
  destruct (mo_callers _ Hm _ _ Hc) as [_ Hidle]. cbn in Hidle.
  destruct (Nat.eqb_spec count 0) as [->|Hcount]; [|destruct (Z.eqb_spec idle 0) as [->|Hne]]; cbn [orb].
  { intros [= <-]. apply (leaving_shares m id _ Hm Hsh Hc); [done|]. intros i _. cbn. by destruct (Z.testbit idle _). }
  { intros [= <-]. apply (leaving_shares m id _ Hm Hsh Hc); [done|]. intros i _. cbn. by rewrite Z.bits_0. }
  destruct (countr_zero_spec _ _ Hidle (proj2 (mo_count _ Hm)) Hne) as [Hk Hlt].
  cbn zeta. rewrite land_bit. generalize (countr_zero idle), Hk, Hlt. clear Hk Hlt. intros k Hk Hlt [= <-].
  set (c' := if Z.testbit (idle_loops m) (Z.of_nat k) then _ else _).
  match goal with |- shares ?x => set (m' := x) end.
  assert (Hother : forall j, j <> id -> callers m' !! j = callers m !! j)
    by (unfold m'; destruct (Z.testbit (idle_loops m) (Z.of_nat k)); others).
  assert (Hme : callers m' !! id = Some c')
    by (unfold m', c'; destruct (Z.testbit (idle_loops m) (Z.of_nat k)); cbn; apply lookup_insert_eq).
  assert (Hwords : idle_loops m' = Z.ldiff (idle_loops m) (loop_bit k) /\ poll_loops m' = poll_loops m /\
    queue m' = queue m /\ http_backlog m' = http_backlog m /\ http_mutex m' = http_mutex m /\ stopped m' = stopped m)
    by (unfold m'; by destruct (Z.testbit (idle_loops m) (Z.of_nat k))).
  destruct Hwords as (Hw & Hl & Hq & Hb & Hmu & Hst).
  assert (Hclear : forall i : nat, Z.testbit (idle_loops m') (Z.of_nat i) = true ->
    Z.testbit (idle_loops m) (Z.of_nat i) = true /\ i <> k).
  { intros i. rewrite Hw, clear_bit. intros [H1 H2]%andb_true_iff. split; [done|]. apply negb_true_iff in H2.
    apply bool_decide_eq_false in H2. congruence. }
  assert (Hloops : forall i p', poll_loops m' !! i = Some p' -> exists p, poll_loops m !! i = Some p /\
    pl_pc p' = pl_pc p /\ room_for (pl_loop p') = room_for (pl_loop p)) by (rewrite Hl; same_loops).
  clearbody m'.
  apply (caller_shares m m' id _ Hm Hsh Hc Hother); try (exact Hloops || congruence); [|intros i Hi; apply (Hclear i Hi)|].
  { pose proof (sh_backlog _ Hsh). pose proof (unstored_kept m m' id _ Hc ltac:(done) Hother Hmu). rewrite Hq, Hb. lia. }
  intros i Hi. destruct (Hclear i Hi) as [Hi' Hik]. unfold owed_at. rewrite Hme, Hq. cbn [from_option].
  assert (Hbit : Z.testbit (Z.ldiff idle (loop_bit k)) (Z.of_nat i) = Z.testbit idle (Z.of_nat i)).
  { rewrite clear_bit, bool_decide_eq_false_2 by congruence. apply andb_true_r. }
  unfold c'. destruct (Z.testbit (idle_loops m) (Z.of_nat k)) eqn:Ek; cbn [owed]; rewrite Hbit.
  - apply lookup_lt_is_Some_2 in Hlt as [p Hp].
    pose proof (total_step (headed (idle_loops m)) (headed (idle_loops m')) (poll_loops m) 0 (poll_loops m) k p p
      eq_refl Hp Hp) as Ht. cbn [Nat.add] in Ht.
    assert (Hpk : headed (idle_loops m) k p = 0%nat /\ headed (idle_loops m') k p = 1%nat).
    { unfold headed. rewrite Ek, Hw, clear_bit, bool_decide_eq_true_2, andb_false_r, andb_false_r by done.
      split; [done|]. pose proof (sh_bits _ Hsh k p Hp) as Hbk. unfold bit_ok in Hbk. rewrite Ek in Hbk.
      destruct (pl_pc p) as [| | | | | | | | | |t []|[]|]; try (done || by destruct Hbk); rewrite (proj2 (Nat.eqb_neq _ _) Hbk); done. }
    unfold coming. rewrite Hl. destruct (Z.testbit idle (Z.of_nat i)); [|].
    all: assert ((total (headed (idle_loops m)) 0 (poll_loops m) + 1 <= total (headed (idle_loops m')) 0 (poll_loops m))%nat);
      [|lia].
    all: assert (Hstep : forall j b b', j <> k -> poll_loops m !! j = Some b -> poll_loops m !! j = Some b' ->
           (headed (idle_loops m) j b <= headed (idle_loops m') j b')%nat)
      by (intros j b b' _ Hb1 Hb2; replace b' with b by congruence; rewrite Hw; by apply headed_clear);
      specialize (Ht Hstep); lia.
  - pose proof (coming_le m m' ltac:(by rewrite Hl) Hloops ltac:(intros j Hj; apply (Hclear j Hj))).
    destruct (Z.testbit idle (Z.of_nat i)); lia.
Qed.

Lemma caller_step_shares id m m' : machine_ok m -> shares m -> caller_step id m = Some m' -> shares m'.
Proof.
  intros Hm Hsh Hs. pose proof (sh_backlog _ Hsh) as Hb.
  destruct (callers m !! id) as [c|] eqn:Hc; [|by unfold caller_step in Hs; rewrite Hc in Hs].
  destruct c as [ts checks|count|count|idle count|k idle count|b| |k|k|].
  4: by eapply scanning_shares.
  all: unfold caller_step in Hs; rewrite Hc in Hs; cbn zeta in Hs.
  - destruct (http_mutex m) eqn:El; [done|]. unfold unstored in Hb. rewrite El in Hb.
    destruct (checks && stopped m); injection Hs as <-; [by apply (leaving_shares m id _ Hm Hsh Hc)|].
    apply (plain_shares m _ id _ Hm Hsh Hc); try done; [others| |same_loops|].
    + cbn. unfold unstored. cbn. rewrite lookup_insert_eq, length_app. lia.
    + intros i Hi. unfold owed_at. cbn. rewrite lookup_insert_eq, length_app. cbn. lia.
  - injection Hs as <-. apply (plain_shares m _ id _ Hm Hsh Hc); try done; [others| |same_loops|].
    + cbn. lia.
    + intros i Hi. unfold owed_at. cbn. rewrite lookup_insert_eq. cbn. lia.
  - injection Hs as <-. eapply (going_shares m _ id _ _ Hm Hsh Hc); [reflexivity|..]; try done; [same_loops|].
    intros i Hi. cbn. by rewrite Hi.
  - injection Hs as <-. eapply (going_shares m _ id _ _ Hm Hsh Hc); [reflexivity|..]; try done; [cbn; by rewrite length_alter|].
    cbn. intros i p'. by apply altered_lookup.
  - destruct (http_mutex m) eqn:El; [done|]. unfold unstored in Hb. rewrite El in Hb. injection Hs as <-.
    pose proof (length_filter (fun t => t_batch t <> b) (queue m)) as Hf.
    apply (plain_shares m _ id _ Hm Hsh Hc); try done; [others| |same_loops|].
    + cbn. unfold unstored, others. cbn. rewrite lookup_insert_eq. lia.
    + intros i Hi. unfold owed_at, others. cbn. rewrite lookup_insert_eq. cbn. lia.
  - injection Hs as <-. apply (plain_shares m _ id _ Hm Hsh Hc); try done; [others| |same_loops|].
    + cbn. lia.
    + intros i Hi. unfold owed_at. cbn. rewrite lookup_insert_eq. cbn. lia.
  - destruct (k <? length (poll_loops m))%nat; injection Hs as <-.
    + eapply (going_shares m _ id _ _ Hm Hsh Hc); [reflexivity|..]; try done; [cbn; by rewrite length_alter|].
      cbn. intros i p'. by apply altered_lookup.
    + eapply (going_shares m _ id _ _ Hm Hsh Hc); [reflexivity|..]; try done. same_loops.
  - destruct (k <? length (poll_loops m))%nat; injection Hs as <-.
    + eapply (going_shares m _ id _ _ Hm Hsh Hc); [reflexivity|..]; try done; [cbn; by rewrite length_alter|].
      cbn. intros i p'. by apply altered_lookup.
    + by apply (leaving_shares m id _ Hm Hsh Hc).
  - injection Hs as <-. eapply (going_shares m _ id _ _ Hm Hsh Hc); [reflexivity|..]; try done. same_loops.
Qed.

Lemma enters_shares id c m : machine_ok m -> shares m -> callers m !! id = None -> initial c ->
  shares (m <| callers := <[id := c]> (callers m) |>).
Proof.
  intros Hm [Hb Hbits Hd] Hn Hc.
  assert (Hother : forall k, k <> id -> <[id := c]> (callers m) !! k = callers m !! k) by others.
  set (m' := m <| callers := _ |>).
  assert (Hu : (unstored m <= unstored m')%nat).
  { unfold unstored. change (http_mutex m') with (http_mutex m). destruct (http_mutex m) as [[|k]|]; try lia.
    destruct (decide (k = id)) as [->|Hk]; [rewrite Hn; lia|]. unfold m'. cbn. by rewrite Hother. }
  constructor; [cbn; lia|done|]. intros Hs i p Hp Hz. pose proof (Hd Hs i p Hp Hz) as H. unfold matched in *.
  pose proof (owing_moves i m m' id Hother) as Ho. unfold owed_at at 1 in Ho. rewrite Hn in Ho. cbn [from_option] in Ho.
  change (coming m') with (coming m). change (queue m') with (queue m). lia.
Qed.

(** A loop's step: the queue shrinks with the loops on their way, or is within
    what callers have yet to announce. *)
Lemma loop_shares m m1 i p p' :
  shares m -> poll_loops m !! i = Some p -> poll_loops m1 = poll_loops m -> callers m1 = callers m ->
  stopped m1 = stopped m ->
  (length (queue m1) <= http_backlog m1 + unstored m1)%nat ->
  (forall j, j <> i -> Z.testbit (idle_loops m1) (Z.of_nat j) = Z.testbit (idle_loops m) (Z.of_nat j)) ->
  bit_ok (idle_loops m1) i p' ->
  (dozes (idle_loops m1) i p' -> (length (queue m1) <= unstored m1)%nat) ->
  (stopped m = false -> (length (queue m1) <= unstored m1)%nat \/
   (length (queue m1) + headed (idle_loops m) i p <= length (queue m) + headed (idle_loops m1) i p')%nat) ->
  shares (with_poll_loop i p' m1).
Proof.
  intros [Hb Hbits Hd] Hi Hl Hc Hst Hb1 Hbit Hp' Hz' Hq. set (m' := with_poll_loop i p' m1).
  assert (Hlt : (i < length (poll_loops m))%nat) by (by eapply lookup_lt_Some).
  assert (Hself : poll_loops m' !! i = Some p').
  { unfold m'. cbn. rewrite Hl. by apply list_lookup_insert_eq. }
  assert (Hrest : forall j, j <> i -> poll_loops m' !! j = poll_loops m !! j).
  { intros j Hj. unfold m'. cbn. rewrite Hl. by apply list_lookup_insert_ne. }
  assert (Hown : forall j, owing j m' = owing j m) by (intros j; unfold owing, m'; cbn; by rewrite Hc).
  assert (Hun : forall j, (unstored m1 <= owing j m')%nat) by (intros j; apply (unstored_owing j m')).
  assert (Hcoming : (coming m + headed (idle_loops m1) i p' <= coming m' + headed (idle_loops m) i p)%nat).
  { apply (total_step _ _ (poll_loops m) 0 (poll_loops m') i p p'); [|done..|].
    - unfold m'. cbn. by rewrite Hl, length_insert.
    - intros j b b' Hj Hb' Hb''. rewrite Hrest in Hb'' by done. replace b' with b by congruence.
      unfold headed. cbn [Nat.add]. change (idle_loops m') with (idle_loops m1). by rewrite Hbit. }
  constructor; [done|..].
  - intros j q Hjq. change (idle_loops m') with (idle_loops m1). destruct (decide (j = i)) as [->|Hj]; [congruence|].
    rewrite Hrest in Hjq by done. specialize (Hbits j q Hjq). unfold bit_ok in *. by rewrite Hbit.
  - intros Hs j q Hjq Hz. change (queue m') with (queue m1) in *. unfold matched. change (queue m') with (queue m1).
    change (idle_loops m') with (idle_loops m1) in Hz. specialize (Hun j).
    destruct (decide (j = i)) as [->|Hj]; [specialize (Hz' ltac:(congruence)); lia|].
    rewrite Hrest in Hjq by done. unfold dozes in Hz. rewrite Hbit in Hz by done.
    assert (Hs' : stopped m = false) by (rewrite <-Hst; exact Hs).
    pose proof (Hd Hs' j q Hjq Hz) as H. unfold matched in H. rewrite Hown in *. destruct (Hq Hs'); lia.
Qed.

Lemma room_for_polls l backlog running now : room l = true -> poll_timeout l backlog running now <> 0 ->
  room_for l <> 0%nat.
Proof.
  unfold poll_timeout, room, room_for, is_empty. intros Hr%Nat.ltb_lt. rewrite (proj2 (Nat.ltb_lt _ _) Hr).
  destruct (pending l) as [|t ts]; cbn [length Nat.eqb negb andb orb]; [lia|].
  destruct (length (resolving l) =? 0)%nat; [done|]. by rewrite Z.min_l by lia.
Qed.

Lemma loop_step_shares env i m m' : machine_ok m -> shares m -> loop_step env i m = Some m' -> shares m'.
Proof.
  intros Hm Hsh. unfold loop_step. destruct (poll_loops m !! i) as [p|] eqn:Hi; [|done].
  pose proof (mo_loops _ Hm _ _ Hi) as [Hlock _ _ _ _]. pose proof (sh_backlog _ Hsh) as Hb.
  pose proof (sh_bits _ Hsh i p Hi) as Hbit. unfold bit_ok in Hbit.
  assert (Hd : headed (idle_loops m) i p = Nat.b2n (negb (room_for (pl_loop p) =? 0)%nat &&
    (taking (pl_pc p) || announced (pl_pc p)) && negb (Z.testbit (idle_loops m) (Z.of_nat i)))) by done.
  (* the steps that leave the shared variables alone *)
  assert (Hown : forall p', bit_ok (idle_loops m) i p' ->
    (dozes (idle_loops m) i p' -> (length (queue m) <= unstored m)%nat) ->
    (stopped m = false -> (length (queue m) <= unstored m)%nat \/
     (headed (idle_loops m) i p <= headed (idle_loops m) i p')%nat) -> shares (with_poll_loop i p' m)).
  { intros p' H1 H2 H3. apply (loop_shares m m i p p'); try done. intros Hs. destruct (H3 Hs); [by left|right; lia]. }
  destruct (pl_pc p) as [| | | | | | | |t|t|t a|a|] eqn:Epc; cbn [locks taking announced] in *.
  - intros [= <-]. apply Hown; unfold bit_ok, dozes, headed in *; cbn; rewrite ?Epc; destruct (stopped m); cbn; auto; done.
  - intros [= <-]. apply Hown; unfold bit_ok, dozes, headed in *; cbn; rewrite ?Epc.
    + by destruct (http_backlog m =? 0)%nat.
    + by destruct (http_backlog m =? 0)%nat.
    + intros _. destruct (Nat.eqb_spec (http_backlog m) 0); cbn; [left|right]; lia.
  - destruct (http_mutex m) eqn:El; [done|]. unfold unstored in Hb. rewrite El in Hb. intros [= <-].
    apply (loop_shares m _ i p _ Hsh Hi); try done; unfold headed; cbn; rewrite ?Epc; cbn;
      try done; intros; try right; lia.
  - pose proof (proj1 Hlock eq_refl) as El. unfold unstored in Hb. rewrite El in Hb. intros [= <-].
    apply (loop_shares m _ i p _ Hsh Hi); try done; unfold headed; cbn; rewrite ?Epc, ?length_drop;
      try done; [cbn; lia|]. intros _.
    destruct (decide (queue m = [])) as [->|Hq]; [left; cbn; lia|right].
    assert (length (queue m) <> 0)%nat by (by destruct (queue m)). cbn.
    destruct (Nat.eqb_spec (room_for (pl_loop p)) 0), (Z.testbit _ _); cbn; lia.
  - pose proof (proj1 Hlock eq_refl) as El. intros [= <-].
    apply (loop_shares m _ i p _ Hsh Hi); try done; unfold headed; cbn; rewrite ?Epc, ?andb_false_r; cbn; [lia|].
    intros _. right. lia.
  - intros [= <-]. apply Hown; unfold headed; cbn; rewrite ?Epc, ?andb_false_r; cbn; [done..|right; lia].
  - intros [= <-]. apply Hown; unfold headed; cbn; rewrite ?Epc, ?andb_false_r; cbn; [done..|right; lia].
  - intros [= <-]. set (t := poll_timeout _ _ _ _).
    assert (Hr : room (pl_loop p) && negb (t =? 0) = true -> room_for (pl_loop p) <> 0%nat).
    { intros [Hr Ht]%andb_true_iff. apply negb_true_iff, Z.eqb_neq in Ht. by eapply room_for_polls. }
    destruct (room (pl_loop p) && negb (t =? 0)).
    all: apply Hown; unfold bit_ok, dozes, headed; cbn; rewrite ?Epc, ?andb_false_r; cbn;
      [by auto|done|intros _; right; lia].
  - destruct Hbit as [Hr Hbit]. intros [= <-]. apply (loop_shares m _ i p _ Hsh Hi); try done.
    + intros j Hj. cbn. rewrite or_bit, bool_decide_eq_false_2 by congruence. by rewrite orb_false_r.
    + intros _. right. rewrite Hd. cbn. rewrite andb_false_r. cbn. lia.
  - intros [= <-]. apply Hown; unfold bit_ok, dozes, headed in *; cbn; rewrite ?Epc; cbn; [done| |by right].
    destruct (Nat.eqb_spec (http_backlog m) 0); [lia|]. by intros [? _].
  - intros [= <-]. apply Hown; unfold bit_ok, dozes, headed in *; cbn; rewrite ?Epc; cbn; [done..|].
    intros _. right. destruct a; [done|]. cbn. rewrite andb_false_r. cbn. lia.
  - intros [= <-]. destruct a.
    + apply (loop_shares m _ i p _ Hsh Hi); try done.
      * intros j Hj. cbn. rewrite clear_bit, bool_decide_eq_false_2 by congruence. by rewrite andb_true_r.
      * unfold bit_ok. cbn. by rewrite clear_bit, bool_decide_eq_true_2, andb_false_r.
      * intros _. right. apply Nat.add_le_mono_l, headed_clear; [|done]. intros _. done.
    + apply Hown; unfold bit_ok, dozes, headed in *; cbn; rewrite ?Epc; cbn; [done..|by right].
  - done.
Qed.

Lemma new_machine_shares o : shares (new_machine o).
Proof.
  constructor; cbn; [lia|..].
  - intros i p. rewrite list_lookup_fmap, fmap_Some. intros (k & Hk & ->). unfold bit_ok. cbn. by rewrite Z.bits_0.
  - intros _ i p. rewrite list_lookup_fmap, fmap_Some. by intros (k & Hk & ->).
Qed.

Lemma shares_invariant o m : poll_reachable o m -> shares m.
Proof.
  induction 1 as [|m m' Hr IH Hs]; [apply new_machine_shares|]. pose proof (machine_invariant _ _ Hr).
  destruct Hs; eauto using enters_shares, caller_step_shares, loop_step_shares.
Qed.

(** With no caller inside, the loops on their way are the ones that are awake. *)
Lemma coming_heading m : machine_ok m -> callers m = ∅ -> (coming m <= length (base.filter heading (poll_loops m)))%nat.
Proof.
  intros Hm Hc. assert (Hle : forall i p, poll_loops m !! i = Some p ->
    (headed (idle_loops m) i p <= Nat.b2n (heading p))%nat).
  { intros i p Hp. unfold headed, heading. destruct (room_for (pl_loop p) =? 0)%nat; [done|]. cbn [negb andb].
    destruct (taking (pl_pc p)); [destruct (Z.testbit _ _); cbn; lia|]. destruct (announced (pl_pc p)) eqn:Ea; [|cbn; lia].
    destruct (lo_bit _ _ _ (mo_loops _ Hm _ _ Hp) Ea) as [->|[->|(id & c & Hid & _)]]; [cbn; lia|destruct (Z.testbit _ _); cbn; lia|].
    by rewrite Hc, lookup_empty in Hid. }
  assert (Hsum : forall l i, total (fun _ p => Nat.b2n (heading p)) i l = length (base.filter heading l)).
  { induction l as [|p l IH]; intros i; cbn [total]; [done|]. rewrite filter_cons, IH.
    destruct (heading p); case_decide; naive_solver. }
  rewrite <-(Hsum _ 0%nat). apply total_le; [done|]. intros j p p' Hp Hp'. replace p' with p by congruence. by apply Hle.
Qed.

(** With no caller inside, a loop that sleeps and has room announced itself and
    has not been chosen. *)
Lemma asleep_dozes m i p : machine_ok m -> callers m = ∅ -> poll_loops m !! i = Some p ->
  asleep p -> room (pl_loop p) = true -> dozes (idle_loops m) i p.
Proof.
  intros Hm Hcallers Hp Ha Hr. destruct (mo_loops _ Hm _ _ Hp) as [_ Hbit Hroom _ _].
  destruct Ha as [Hw Ht]. unfold dozes. rewrite Hw in *. destruct (pl_pc p) as [| | | | | | | | | |t a| |]; try done.
  destruct a; [|by destruct Hroom; congruence]. split; [done|].
  destruct (Hbit eq_refl) as [?|[?|(id & c & Hc & _)]]; [done..|]. by rewrite Hcallers, lookup_empty in Hc.
Qed.

Lemma asleep_not_stopped m i p : machine_ok m -> callers m = ∅ -> poll_loops m !! i = Some p -> asleep p ->
  stopped m = false /\ cancellation_pending (pl_loop p) = false.
Proof.
  intros Hm Hcallers Hp [Hw Ht]. destruct (mo_loops _ Hm _ _ Hp) as [_ _ _ Hstop Hcancel].
  assert (Hnone : forall Q, ~ some_caller Q m).
  { intros Q (id & c & Hc & _). by rewrite Hcallers, lookup_empty in Hc. }
  destruct (pl_pc p); try done. split.
  - destruct (stopped m); [|done]. destruct (Hstop eq_refl) as [?|[?|H]]; [done|congruence|by apply Hnone in H].
  - destruct (cancellation_pending (pl_loop p)); [|done].
    destruct (Hcancel eq_refl) as [?|[?|[H|H]]]; [done|congruence|by apply Hnone in H..].
Qed.

Lemma heading_awake p : heading p = true -> room (pl_loop p) = true /\ ~ asleep p.
Proof.
  unfold heading, room, asleep. intros [Hr%negb_true_iff%Nat.eqb_neq Ha]%andb_true_iff.
  split; [apply Nat.ltb_lt; unfold room_for in Hr; lia|]. intros [Hw Ht]. rewrite Hw, andb_false_r, orb_false_r in Ha.
  by destruct (pl_pc p).
Qed.

(** ** Properties *)

(** C16: No wake-up is lost, whatever the interleaving of submissions, loops,
    cancellations and the shutdown.  Between their calls, when no caller is
    inside [submit], [queue_http], [cancel] or [stop_workers]: as long as a
    loop sleeps that has room, there is for every transfer in the queue a loop
    of its own with room that is awake and on its way to [take_http]; queued
    work always has a loop with room that is awake, unless every single loop
    is full; and a loop that is asleep has neither missed a cancellation nor
    the shutdown.  So nothing waits for a poll to time out. *)
Theorem no_wakeup_is_lost o m : poll_reachable o m -> callers m = ∅ ->
  (forall i p, poll_loops m !! i = Some p -> asleep p -> room (pl_loop p) = true ->
     (length (queue m) <= length (base.filter heading (poll_loops m)))%nat) /\
  (queue m <> [] ->
   (exists i p, poll_loops m !! i = Some p /\ room (pl_loop p) = true /\ ~ asleep p) \/
   (forall i p, poll_loops m !! i = Some p -> room (pl_loop p) = false)) /\
  (forall i p, poll_loops m !! i = Some p -> asleep p ->
     stopped m = false /\ cancellation_pending (pl_loop p) = false).
Proof.
  intros Hreach Hcallers. pose proof (machine_invariant _ _ Hreach) as Hm.
  pose proof (fun i p Hp => asleep_not_stopped m i p Hm Hcallers Hp) as Hstop.
  assert (Hmatch : forall i p, poll_loops m !! i = Some p -> asleep p -> room (pl_loop p) = true ->
    (length (queue m) <= length (base.filter heading (poll_loops m)))%nat).
  { intros i p Hp Ha Hr. pose proof (asleep_dozes m i p Hm Hcallers Hp Ha Hr) as Hz.
    pose proof (sh_dozes _ (shares_invariant _ _ Hreach) (proj1 (Hstop i p Hp Ha)) i p Hp Hz) as H.
    pose proof (coming_heading m Hm Hcallers). unfold matched, owing in H. rewrite Hcallers, map_to_list_empty in H.
    cbn in H. lia. }
  split_and!; [done| |done]. intros Hq.
  destruct (decide (Exists (fun p => room (pl_loop p) = true) (poll_loops m))) as [Hex|Hall].
  - left. apply Exists_exists in Hex as (p & [i Hp]%list_elem_of_lookup & Hr).
    destruct (decide (asleep p)) as [Ha|Ha]; [|by exists i, p]. specialize (Hmatch i p Hp Ha Hr).
    destruct (base.filter heading (poll_loops m)) as [|q qs] eqn:E; [destruct (queue m); [done|cbn in Hmatch; lia]|].
    assert (Hin : q ∈ base.filter heading (poll_loops m)) by (rewrite E; by left).
    apply list_elem_of_filter in Hin as [Hh [j Hj]%list_elem_of_lookup]. exists j, q. split; [done|].
    apply heading_awake. by destruct (heading q).
  - right. apply not_Exists_Forall in Hall; [|apply _]. rewrite Forall_lookup in Hall. intros i p Hp.
    apply not_true_iff_false. by apply (Hall i).
Qed.

(** ** Schedules *)

Inductive action := Enter (id : nat) (c : caller) | Run (id : nat) | Turn (i : nat) (env : TurnEnv).

Definition act (a : action) (m : Machine) : option Machine :=
  match a with
  | Enter id c =>
      match callers m !! id, c with
      | None, Pushing (_ :: _) _ | None, Filtering _ | None, Stopping =>
          Some (m <| callers := <[id := c]> (callers m) |>)
      | _, _ => None
      end
  | Run id => caller_step id m
  | Turn i env => loop_step env i m
  end.
Fixpoint run_schedule (acts : list action) (m : Machine) : option Machine :=
  match acts with
  | [] => Some m
  | a :: acts => match act a m with Some m => run_schedule acts m | None => None end
  end.

Lemma schedule_reachable o acts : forall m m', poll_reachable o m -> run_schedule acts m = Some m' ->
  poll_reachable o m'.
Proof.
  induction acts as [|a acts IH]; intros m m' Hm; cbn [run_schedule]; [by intros [= <-]|].
  destruct (act a m) as [m1|] eqn:Ea; [|done]. apply IH. apply (Poll_then _ m); [done|].
  destruct a as [id c| |]; cbn in Ea; [|by econstructor..].
  destruct (callers m !! id) eqn:En; [done|].
  destruct c as [[|t ts] ? | | | | |b | | | | ]; try done; injection Ea as <-; by constructor.
Qed.

Definition one_loop : ClientOptions := ClientOptions_default <| io_threads := 1 |>.
Definition idle_turn : TurnEnv := mkTurnEnv (new_loop one_loop 0) 0 0.
Definition an_http_transfer : Transfer := Transfer_default (Resolved_default <| backend := Http |>).

(** The loop looks at the backlog, the submission stores it and reads the idle
    bits before the loop has set its own: only the loop's second look finds
    the work. *)
Definition crossing : list action :=
  replicate 5 (Turn 0 idle_turn) ++ [Enter 0 (Pushing [an_http_transfer] false); Run 0; Run 0; Run 0; Run 0]
  ++ replicate 2 (Turn 0 idle_turn).
Definition first_loop (m : Machine) : option (loop_pc * bool) :=
  match poll_loops m with p :: _ => Some (pl_pc p, wakeup p) | [] => None end.

Example crossing_is_seen :
  (fun m => (first_loop m, length (queue m), length (map_to_list (callers m)))) <$> run_schedule crossing (new_machine one_loop)
  = Some (Some (Polling 0 true, false), 1%nat, 0%nat).
Proof. vm_compute. reflexivity. Qed.

Definition two_loops : ClientOptions := ClientOptions_default <| io_threads := 2 |>.
(** Two loops sleep when a submission of one transfer comes: the first is woken
    and the second sleeps on. *)
Definition one_of_two : list action :=
  replicate 7 (Turn 0 idle_turn) ++ replicate 7 (Turn 1 idle_turn) ++
  [Enter 0 (Pushing [an_http_transfer] false); Run 0; Run 0; Run 0; Run 0; Run 0; Run 0].
Definition polls (m : Machine) : list (loop_pc * bool * bool) :=
  map (fun p => (pl_pc p, wakeup p, heading p)) (poll_loops m).

Lemma no_wakeup_is_lost_witness :
  match run_schedule one_of_two (new_machine two_loops) with
  | Some m =>
      length (queue m) = 1%nat /\ polls m = [(Polling 200 true, true, true); (Polling 200 true, false, false)] /\
      (length (queue m) <= length (base.filter heading (poll_loops m)))%nat
  | None => False
  end.
Proof.
  destruct (run_schedule one_of_two (new_machine two_loops)) as [m|] eqn:E; [|by vm_compute in E].
  assert (Hs : (fun m => (length (queue m), polls m, length (map_to_list (callers m)), 
      (fun p => (room (pl_loop p), bool_decide (asleep p))) <$> poll_loops m !! 1%nat)) <$>
    run_schedule one_of_two (new_machine two_loops)
    = Some (1%nat, [(Polling 200 true, true, true); (Polling 200 true, false, false)], 0%nat, Some (true, true)))
    by (vm_compute; reflexivity).
  rewrite E in Hs. injection Hs as Hq Hl Hc Hp.
  split; [exact Hq|split; [exact Hl|]]. apply nil_length_inv, map_to_list_empty_iff in Hc.
  apply fmap_Some in Hp as (p & Hp & [= Hr Ha]). symmetry in Hr, Ha. apply bool_decide_eq_true in Ha.
  exact (proj1 (no_wakeup_is_lost two_loops m (schedule_reachable _ _ _ _ (Poll_start _) E) Hc) 1%nat p Hp Ha Hr).
Defined.
