(* ===== verification/Workers.v ===== *)
(** * Workers: the two pools behind the condition variables

    Models the waits of [file_loop] and [credential_loop] of
    [src/src/runtime/engine.cpp] with what notifies them: the critical section
    and the [notify] of [submit], the push of a loop whose credentials were
    refused, the critical section of [cancel], and [stop_workers].  Both pools
    are one model; they differ in what a worker does when the engine stops
    with work queued.  [queue_mutex_] is held from one step to another, so a
    notification may fall between a worker's test and its sleep if nothing
    prevents it; [notify_one] picks any sleeping worker, and a worker may wake
    without cause.  The theorem shows that no notification is lost. *)

From S2P Require Import Prelude Text Uri Types Planner Response Transport Batch Engine System.

(** ** The machine *)

(** [Testing] and [Waiting] hold the mutex: [Waiting] has found nothing to
    do and is about to sleep, which gives the mutex back. *)
Inductive worker :=
| Locking_
| Testing
| Waiting
| Blocked
| Working (t : Transfer)
| Gone.

(** [Inserted], [Removed] and [Published] hold the mutex. *)
Inductive client :=
| Inserting (ts : list Transfer) (front : bool)
| Inserted (count : nat)
| Notifying (count : nat)
| Removing (batch : nat)
| Removed
| Publishing                            (* stop_workers *)
| Published
| NotifyingAll
| Through.

Inductive owner := ByWorker (i : nat) | ByClient (k : nat).
#[export] Instance owner_eq_dec : EqDecision owner.
Proof. solve_decision. Defined.

Record Pool := mkPool {
  work : list Transfer;
  queue_mutex : option owner;
  stop_ : bool;
  workers : list worker;
  clients : list client;
}.
#[export] Instance Pool_eta : Eta Pool := fun r =>
  mkPool (work r) (queue_mutex r) (stop_ r) (workers r) (clients r).

Definition new_pool (size : nat) : Pool := mkPool [] None false (replicate size Locking_) [].

Definition set_worker (i : nat) (w : worker) (p : Pool) : Pool := p <| workers := <[i := w]> (workers p) |>.
Definition set_client (k : nat) (c : client) (p : Pool) : Pool := p <| clients := <[k := c]> (clients p) |>.
Definition locked_by (o : option owner) (p : Pool) : Pool := p <| queue_mutex := o |>.

#[export] Instance blocked_dec (o : option worker) : Decision (o = Some Blocked).
Proof. destruct o as [[]|]; first [by left|by right]. Defined.

Section Pools.
(** Whether a worker leaves at the shutdown before it looks for work:
    [credential_loop] does, [file_loop] first empties its queue. *)
Variable leaves_first : bool.

Definition worker_step (i : nat) (p : Pool) : option Pool :=
  match workers p !! i with
  | Some Locking_ =>
      match queue_mutex p with
      | Some _ => None
      | None => Some (set_worker i Testing (locked_by (Some (ByWorker i)) p))
      end
  | Some Testing =>
      if leaves_first && stop_ p then Some (set_worker i Gone (locked_by None p))
      else match work p with
           | t :: rest => Some (set_worker i (Working t) (locked_by None p <| work := rest |>))
           | [] => Some (if stop_ p then set_worker i Gone (locked_by None p) else set_worker i Waiting p)
           end
  | Some Waiting => Some (set_worker i Blocked (locked_by None p))
  | Some Blocked => Some (set_worker i Locking_ p)            (* a spurious wake-up *)
  | Some (Working _) => Some (set_worker i Locking_ p)
  | Some Gone | None => None
  end.

Definition wake_blocked (w : worker) : worker := match w with Blocked => Locking_ | _ => w end.
Definition notify_all (p : Pool) : Pool := p <| workers := map wake_blocked (workers p) |>.
(** [choice] is the worker the condition variable picks: a sleeping one if
    there is any. *)
Definition notify_one (choice : nat) (p : Pool) : option Pool :=
  match workers p !! choice with
  | Some Blocked => Some (set_worker choice Locking_ p)
  | _ => if existsb (fun w => match w with Blocked => true | _ => false end) (workers p) then None else Some p
  end.

Definition client_step (k choice : nat) (p : Pool) : option Pool :=
  match clients p !! k with
  | Some (Inserting ts front) =>
      match queue_mutex p with
      | Some _ => None
      | None =>
          Some (set_client k (Inserted (length ts))
                  (locked_by (Some (ByClient k)) p <| work := if front then ts ++ work p else work p ++ ts |>))
      end
  | Some (Inserted count) => Some (set_client k (Notifying count) (locked_by None p))
  | Some (Notifying count) =>
      if (length (workers p) <=? count)%nat then Some (set_client k Through (notify_all p))
      else match count with
           | O => Some (set_client k Through p)
           | S count =>
               match notify_one choice p with
               | Some p => Some (set_client k (Notifying count) p)
               | None => None
               end
           end
  | Some (Removing batch) =>
      match queue_mutex p with
      | Some _ => None
      | None =>
          Some (set_client k Removed (locked_by (Some (ByClient k)) p <| work := others batch (work p) |>))
      end
  | Some Removed => Some (set_client k Through (locked_by None p))
  | Some Publishing =>
      match queue_mutex p with
      | Some _ => None
      | None => Some (set_client k Published (locked_by (Some (ByClient k)) p <| stop_ := true |>))
      end
  | Some Published => Some (set_client k NotifyingAll (locked_by None p))
  | Some NotifyingAll => Some (set_client k Through (notify_all p))
  | Some Through | None => None
  end.

Definition comes_with (c : client) : Prop :=
  match c with Inserting _ _ | Removing _ | Publishing => True | _ => False end.

Inductive pool_step : Pool -> Pool -> Prop :=
| Client_enters c p : comes_with c -> pool_step p (p <| clients := clients p ++ [c] |>)
| Client_runs k choice p p' : client_step k choice p = Some p' -> pool_step p p'
| Worker_runs i p p' : worker_step i p = Some p' -> pool_step p p'.

Inductive pool_reachable (size : nat) : Pool -> Prop :=
| Pool_start : pool_reachable size (new_pool size)
| Pool_then p p' : pool_reachable size p -> pool_step p p' -> pool_reachable size p'.

(** ** The invariant *)

(** Workers on their way to the queue, and notifications a client still owes. *)
Definition coming (w : worker) : nat := match w with Locking_ | Testing => 1 | _ => 0 end.
Definition owed (c : client) : nat := match c with Inserted n | Notifying n => n | _ => 0 end.
Fixpoint total {A} (f : A -> nat) (l : list A) : nat :=
  match l with [] => 0 | x :: l => f x + total f l end.

Definition worker_locks (w : worker) : bool := match w with Testing | Waiting => true | _ => false end.
Definition client_locks (c : client) : bool := match c with Inserted _ | Removed | Published => true | _ => false end.
(** A client that will notify every worker of the shutdown. *)
Definition announces (c : client) : Prop := match c with Published | NotifyingAll => True | _ => False end.

Record pool_ok (p : Pool) : Prop := {
  po_workers : forall i w, workers p !! i = Some w -> worker_locks w = true <-> queue_mutex p = Some (ByWorker i);
  po_clients : forall k c, clients p !! k = Some c -> client_locks c = true <-> queue_mutex p = Some (ByClient k);
  po_owner : forall k, queue_mutex p = Some (ByClient k) -> (k < length (clients p))%nat;
  po_waiting : forall i, workers p !! i = Some Waiting -> work p = [] /\ stop_ p = false;
  po_work : forall i, workers p !! i = Some Blocked -> stop_ p = false ->
    (length (work p) <= total coming (workers p) + total owed (clients p))%nat;
  po_stop : forall i, workers p !! i = Some Blocked -> stop_ p = true ->
    exists k c, clients p !! k = Some c /\ announces c;
}.

Lemma total_insert {A} (f : A -> nat) l : forall i x y, l !! i = Some x ->
  (total f (<[i := y]> l) + f x = total f l + f y)%nat.
Proof.
  induction l as [|z l IH]; intros [|i] x y Hi; try done; [injection Hi as ->; cbn; lia|].
  change (<[S i := y]> (z :: l)) with (z :: <[i := y]> l). cbn [total]. specialize (IH i x y Hi). lia.
Qed.

Lemma total_app {A} (f : A -> nat) l k : total f (l ++ k) = (total f l + total f k)%nat.
Proof. induction l as [|x l IH]; cbn; [done|]. rewrite IH. lia. Qed.

Lemma no_blocked_after_all p i : workers (notify_all p) !! i <> Some Blocked.
Proof. cbn. rewrite list_lookup_fmap. destruct (workers p !! i) as [[]|]; done. Qed.

(** A worker moves to [w]; [p1] has the same workers and clients. *)
Lemma worker_moves p p1 i v w :
  pool_ok p -> workers p !! i = Some v -> workers p1 = workers p -> clients p1 = clients p -> stop_ p1 = stop_ p ->
  (worker_locks w = true <-> queue_mutex p1 = Some (ByWorker i)) ->
  (forall o, o <> ByWorker i -> queue_mutex p1 = Some o <-> queue_mutex p = Some o) ->
  (worker_locks v = false -> work p1 = work p) ->
  (w = Waiting -> work p1 = [] /\ stop_ p1 = false) ->
  (stop_ p = false -> (length (work p1) + coming v <= length (work p) + coming w)%nat \/ work p1 = []) ->
  (w = Blocked -> v = Waiting) ->
  pool_ok (set_worker i w p1).
Proof.
  intros Hp Hi Hw Hc Hs Hlock Hother Hwork Hwait Hcount Hblocked.
  constructor; unfold set_worker; cbn; rewrite ?Hw, ?Hc, ?Hs.
  - intros j x. rewrite list_lookup_insert_Some. intros [(<- & <- & _)|[Hne Hj]]; [done|].
    rewrite Hother by congruence. by apply (po_workers _ Hp).
  - intros k c Hk. rewrite Hother by done. by apply (po_clients _ Hp).
  - intros k Hk. apply (po_owner _ Hp). by apply Hother.
  - intros j. rewrite list_lookup_insert_Some. intros [(<- & -> & _)|[Hne Hj]]; [rewrite <-Hs; by apply Hwait|].
    destruct (po_waiting _ Hp _ Hj) as [He Hst]. split; [|done]. rewrite Hwork; [done|].
    destruct (worker_locks v) eqn:Ev; [|done]. apply (po_workers _ Hp _ _ Hi) in Ev.
    assert (Hl : worker_locks Waiting = true) by done. apply (po_workers _ Hp _ _ Hj) in Hl. congruence.
  - intros j Hj Hst. pose proof (total_insert coming (workers p) i v w Hi) as Ht.
    destruct (Hcount Hst) as [Hle| ->]; [|cbn; lia].
    rewrite list_lookup_insert_Some in Hj. destruct Hj as [(<- & -> & _)|[Hne Hj]].
    + pose proof (Hblocked eq_refl); subst v. destruct (po_waiting _ Hp _ Hi) as [He _]. rewrite He in Hle. cbn in *. lia.
    + pose proof (po_work _ Hp _ Hj Hst). lia.
  - intros j Hj Hst. rewrite list_lookup_insert_Some in Hj. destruct Hj as [(<- & -> & _)|[Hne Hj]].
    + pose proof (Hblocked eq_refl); subst v. destruct (po_waiting _ Hp _ Hi). congruence.
    + by apply (po_stop _ Hp j).
Qed.

Lemma worker_step_ok i p p' : pool_ok p -> worker_step i p = Some p' -> pool_ok p'.
Proof.
  intros Hp. unfold worker_step. destruct (workers p !! i) as [w|] eqn:Hi; [|done].
  pose proof (po_workers _ Hp _ _ Hi) as Hl. destruct w as [| | | |t|]; cbn [worker_locks] in Hl.
  - destruct (queue_mutex p) eqn:El; [done|]. intros [= <-]. apply (worker_moves p _ i Locking_); try done.
    + cbn. intros o Ho. rewrite El. naive_solver.
    + by left.
  - pose proof (proj1 Hl eq_refl) as El.
    assert (Hfree : forall q o, o <> ByWorker i -> queue_mutex (locked_by None q) = Some o <-> queue_mutex p = Some o)
      by (cbn; intros q o Ho; rewrite El; naive_solver).
    destruct (leaves_first && stop_ p) eqn:Est; [|destruct (work p) as [|t rest] eqn:Ew; [destruct (stop_ p) eqn:Es|]];
      intros [= <-]; apply (worker_moves p _ i Testing); try done; cbn; rewrite ?Ew, ?El; auto; try naive_solver.
    + apply andb_true_iff in Est as [_ Est]. by rewrite Est.
    + intros _. left. cbn. lia.
  - pose proof (proj1 Hl eq_refl) as El. intros [= <-]. apply (worker_moves p _ i Waiting); try done.
    + cbn. intros o Ho. rewrite El. naive_solver.
    + by left.
  - intros [= <-]. apply (worker_moves p _ i Blocked); try done. left. cbn. lia.
  - intros [= <-]. apply (worker_moves p _ i (Working t)); try done. left. cbn. lia.
  - done.
Qed.

(** A client moves to [d]; [p1] has the same workers and clients. *)
Lemma client_moves p p1 k c d :
  pool_ok p -> clients p !! k = Some c -> workers p1 = workers p -> clients p1 = clients p ->
  (client_locks d = true <-> queue_mutex p1 = Some (ByClient k)) ->
  (forall o, o <> ByClient k -> queue_mutex p1 = Some o <-> queue_mutex p = Some o) ->
  (forall i, queue_mutex p = Some (ByWorker i) -> work p1 = work p /\ stop_ p1 = stop_ p) ->
  (stop_ p1 = false -> stop_ p = false /\ (length (work p1) + owed c <= length (work p) + owed d)%nat) ->
  (stop_ p1 = true -> announces d \/ stop_ p = true /\ ~ announces c) ->
  pool_ok (set_client k d p1).
Proof.
  intros Hp Hk Hw Hc Hlock Hother Hheld Hcount Hstop. pose proof (lookup_lt_Some _ _ _ Hk) as Hlt.
  constructor; unfold set_client; cbn; rewrite ?Hw, ?Hc.
  - intros i w Hi. rewrite Hother by done. by apply (po_workers _ Hp).
  - intros j x. rewrite list_lookup_insert_Some. intros [(<- & <- & _)|[Hne Hj]]; [done|].
    rewrite Hother by congruence. by apply (po_clients _ Hp).
  - intros j Hj. rewrite length_insert. destruct (decide (j = k)) as [->|]; [done|].
    apply (po_owner _ Hp), Hother; congruence.
  - intros i Hi. assert (Hl : worker_locks Waiting = true) by done. apply (po_workers _ Hp _ _ Hi) in Hl.
    destruct (Hheld _ Hl) as [-> ->]. by apply (po_waiting _ Hp i).
  - intros i Hi Hst. destruct (Hcount Hst) as [Hst' Hle]. pose proof (po_work _ Hp _ Hi Hst').
    pose proof (total_insert owed (clients p) k c d Hk). lia.
  - intros i Hi Hst. destruct (Hstop Hst) as [Hd|[Hs Hn]].
    + exists k, d. split; [by apply list_lookup_insert_eq|done].
    + destruct (po_stop _ Hp _ Hi Hs) as (j & x & Hj & Hx). exists j, x. split; [|done].
      rewrite list_lookup_insert_ne; [done|]. intros <-. congruence.
Qed.

Lemma waking_keeps_locks w : worker_locks (wake_blocked w) = worker_locks w.
Proof. by destruct w. Qed.

(** After [notify_all] nobody sleeps, so nothing is owed to a sleeper. *)
Lemma notify_all_ok p k c : pool_ok p -> clients p !! k = Some c -> client_locks c = false ->
  pool_ok (set_client k Through (notify_all p)).
Proof.
  intros Hp Hk Hl. pose proof (po_clients _ Hp _ _ Hk) as Hlock. rewrite Hl in Hlock.
  constructor; unfold set_client; cbn.
  - intros i w. rewrite list_lookup_fmap, fmap_Some. intros (v & Hv & ->). rewrite waking_keeps_locks.
    by apply (po_workers _ Hp).
  - intros j x. rewrite list_lookup_insert_Some. intros [(<- & <- & _)|[Hne Hj]]; [done|by apply (po_clients _ Hp)].
  - rewrite length_insert. apply (po_owner _ Hp).
  - intros i. rewrite list_lookup_fmap, fmap_Some. intros (v & Hv & E). destruct v; try done. by apply (po_waiting _ Hp i).
  - intros i Hi. by apply no_blocked_after_all in Hi.
  - intros i Hi. by apply no_blocked_after_all in Hi.
Qed.

Lemma notify_one_ok p p1 k choice n : pool_ok p -> clients p !! k = Some (Notifying (S n)) ->
  notify_one choice p = Some p1 -> pool_ok (set_client k (Notifying n) p1).
Proof.
  intros Hp Hk. pose proof (po_clients _ Hp _ _ Hk) as Hlock. cbn in Hlock. unfold notify_one.
  destruct (decide (workers p !! choice = Some Blocked)) as [Hi|Hi].
  - rewrite Hi. intros [= <-].
    assert (Hp1 : pool_ok (set_worker choice Locking_ p)).
    { apply (worker_moves p p choice Blocked); try done; [by rewrite (po_workers _ Hp _ _ Hi)|]. intros _. left. cbn. lia. }
    constructor; unfold set_client, set_worker; cbn.
    + apply (po_workers _ Hp1).
    + intros j x. rewrite list_lookup_insert_Some. intros [(<- & <- & _)|[Hne Hj]]; [done|by apply (po_clients _ Hp)].
    + rewrite length_insert. apply (po_owner _ Hp).
    + apply (po_waiting _ Hp1).
    + intros j Hj Hst. pose proof (total_insert coming (workers p) choice Blocked Locking_ Hi).
      pose proof (total_insert owed (clients p) k _ (Notifying n) Hk). pose proof (po_work _ Hp _ Hi Hst).
      cbn in *. lia.
    + intros j Hj Hst. destruct (po_stop _ Hp _ Hi Hst) as (l & x & Hl & Hx). exists l, x. split; [|done].
      rewrite list_lookup_insert_ne; [done|]. intros <-. rewrite Hk in Hl. by injection Hl as <-.
  - destruct (existsb _ (workers p)) eqn:Ex; [by destruct (workers p !! choice) as [[]|]|].
    assert (Hnone : forall i, workers p !! i <> Some Blocked).
    { intros i Hb%list_elem_of_lookup_2%list_elem_of_In. apply not_true_iff_false in Ex. apply Ex, existsb_exists.
      by exists Blocked. }
    intros E. assert (p1 = p) as ->.
    { revert E. destruct (workers p !! choice) as [[]|]; congruence. }
    constructor; unfold set_client; cbn; try apply Hp.
    + intros j x. rewrite list_lookup_insert_Some. intros [(<- & <- & _)|[Hne Hj]]; [done|by apply (po_clients _ Hp)].
    + rewrite length_insert. apply (po_owner _ Hp).
    + intros i Hi'. by apply Hnone in Hi'.
    + intros i Hi'. by apply Hnone in Hi'.
Qed.

Lemma others_shorter b ts : (length (others b ts) <= length ts)%nat.
Proof. apply length_filter. Qed.

Lemma client_step_ok k choice p p' : pool_ok p -> client_step k choice p = Some p' -> pool_ok p'.
Proof.
  intros Hp. unfold client_step. destruct (clients p !! k) as [c|] eqn:Hk; [|done].
  pose proof (po_clients _ Hp _ _ Hk) as Hl. pose proof others_shorter as Hothers.
  assert (Hmoves : forall p1 d, workers p1 = workers p -> clients p1 = clients p -> _) by
    (intros p1 d Hw Hc; exact (client_moves p p1 k c d Hp Hk Hw Hc)).
  destruct c as [ts front|n|n|b| | | | |]; cbn [client_locks] in Hl; [| | | | | | | |done].
  - destruct (queue_mutex p) eqn:El; [done|]. intros [= <-].
    apply Hmoves; try done; cbn; rewrite ?El; lazymatch goal with |- context [length] => idtac | _ => naive_solver end.
    intros Hst. split; [done|]. destruct front; rewrite length_app; lia.
  - pose proof (proj1 Hl eq_refl) as El. intros [= <-]. apply Hmoves; try done; cbn; rewrite ?El; naive_solver.
  - destruct (length (workers p) <=? n)%nat; [intros [= <-]; by eapply notify_all_ok|].
    destruct n as [|n]; [intros [= <-]; apply Hmoves; naive_solver|].
    destruct (notify_one choice p) as [p1|] eqn:En; [|done]. intros [= <-]. by eapply notify_one_ok.
  - destruct (queue_mutex p) eqn:El; [done|]. intros [= <-].
    apply Hmoves; try done; cbn; rewrite ?El; lazymatch goal with |- context [length] => idtac | _ => naive_solver end.
    intros Hst. split; [done|]. specialize (Hothers b (work p)). lia.
  - pose proof (proj1 Hl eq_refl) as El. intros [= <-]. apply Hmoves; try done; cbn; rewrite ?El; naive_solver.
  - destruct (queue_mutex p) eqn:El; [done|]. intros [= <-]. apply Hmoves; try done; cbn; rewrite ?El; naive_solver.
  - pose proof (proj1 Hl eq_refl) as El. intros [= <-]. apply Hmoves; try done; cbn; rewrite ?El; naive_solver.
  - intros [= <-]. by eapply notify_all_ok.
Qed.

Lemma client_enters_ok c p : pool_ok p -> comes_with c -> pool_ok (p <| clients := clients p ++ [c] |>).
Proof.
  intros Hp Hc. constructor; cbn; try apply Hp.
  - intros k x. rewrite lookup_app_Some. intros [Hk|[Hlen Hk]]; [by apply (po_clients _ Hp)|].
    apply list_lookup_singleton_Some in Hk as [_ <-]. split; [by destruct c|].
    intros Hm. apply (po_owner _ Hp) in Hm. lia.
  - intros k Hk. rewrite length_app. apply (po_owner _ Hp) in Hk. lia.
  - intros i Hi Hst. rewrite total_app. pose proof (po_work _ Hp _ Hi Hst). lia.
  - intros i Hi Hst. destruct (po_stop _ Hp _ Hi Hst) as (k & x & Hk & Hx). exists k, x.
    split; [by apply lookup_app_l_Some|done].
Qed.

Lemma pool_invariant size p : pool_reachable size p -> pool_ok p.
Proof.
  induction 1 as [|p p' _ IH Hs].
  - constructor; cbn; try done; intros i; rewrite ?lookup_replicate; try naive_solver.
    intros w [-> _]%lookup_replicate. done.
  - destruct Hs; eauto using client_enters_ok, client_step_ok, worker_step_ok.
Qed.

(** C17: No notification of a worker pool is lost.  Once the clients are through
    with [submit], [cancel] and [stop_workers], a worker sleeps only if at
    least as many workers as there are queued transfers are already on their
    way to the queue, and none sleeps when the engine stops; so no transfer
    waits beside a sleeping worker, and the joins of the shutdown find every
    worker awake. *)
Theorem no_worker_oversleeps size p : pool_reachable size p ->
  (forall k c, clients p !! k = Some c -> c = Through) ->
  forall i, workers p !! i = Some Blocked ->
    stop_ p = false /\ (length (work p) <= total coming (workers p))%nat.
Proof.
  intros Hp%pool_invariant Hthrough i Hi.
  assert (Howed : total owed (clients p) = 0%nat).
  { assert (Forall (eq Through) (clients p)) as Hall by (apply Forall_lookup; intros k c Hk; symmetry; by eapply Hthrough).
    clear Hthrough. induction Hall as [|c l <- _ IH]; [done|exact IH]. }
  destruct (stop_ p) eqn:Est.
  - destruct (po_stop _ Hp _ Hi Est) as (k & c & Hk & Hc). apply Hthrough in Hk. by subst.
  - split; [done|]. pose proof (po_work _ Hp _ Hi Est). lia.
Qed.

(** ** Schedules *)

Inductive pool_action := Arrives (c : client) | Client_turn (k choice : nat) | Worker_turn (i : nat).
Definition pool_act (a : pool_action) (p : Pool) : option Pool :=
  match a with
  | Arrives c =>
      match c with
      | Inserting _ _ | Removing _ | Publishing => Some (p <| clients := clients p ++ [c] |>)
      | _ => None
      end
  | Client_turn k choice => client_step k choice p
  | Worker_turn i => worker_step i p
  end.
Fixpoint run_pool (acts : list pool_action) (p : Pool) : option Pool :=
  match acts with
  | [] => Some p
  | a :: acts => match pool_act a p with Some p => run_pool acts p | None => None end
  end.

Lemma run_pool_reachable size acts : forall p p', pool_reachable size p -> run_pool acts p = Some p' ->
  pool_reachable size p'.
Proof.
  induction acts as [|a acts IH]; intros p p' Hp; cbn [run_pool]; [by intros [= <-]|].
  destruct (pool_act a p) as [q|] eqn:Ea; [|done]. apply IH, (Pool_then size p); [done|].
  destruct a as [c| |]; cbn in Ea; [|by econstructor..].
  destruct c; try done; injection Ea as <-; by constructor.
Qed.
End Pools.

Definition a_file_transfer : Transfer := Transfer_default Resolved_default.
(** Four workers fall asleep; a submission of one transfer wakes the third. *)
Definition one_submission : list pool_action :=
  flat_map (fun i => replicate 3 (Worker_turn i)) (seq 0 4)
  ++ [Arrives (Inserting [a_file_transfer] false); Client_turn 0 0; Client_turn 0 0; Client_turn 0 2; Client_turn 0 0].

Lemma no_worker_oversleeps_witness :
  match run_pool false one_submission (new_pool 4) with
  | Some p => length (work p) = 1%nat /\ workers p !! 3%nat = Some Blocked /\
      stop_ p = false /\ (length (work p) <= total coming (workers p))%nat
  | None => False
  end.
Proof.
  destruct (run_pool false one_submission (new_pool 4)) as [p|] eqn:E; [|by vm_compute in E].
  assert (Hs : (fun p => (length (work p), workers p !! 3%nat, clients p)) <$> run_pool false one_submission (new_pool 4)
    = Some (1%nat, Some Blocked, [Through])) by (vm_compute; reflexivity).
  rewrite E in Hs. injection Hs as Hq Hw Hc.
  split; [exact Hq|split; [exact Hw|]].
  apply (no_worker_oversleeps false 4 p (run_pool_reachable false 4 _ _ _ (Pool_start false 4) E)) with (i := 3%nat);
    [|exact Hw].
  rewrite Hc. intros [|k] c Hk; [by injection Hk as <-|discriminate Hk].
Defined.
