(* ===== verification/Lifecycle.v ===== *)
(** * Lifecycle: how an engine comes up and goes down

    Models the constructor, the destructor and [stop_workers] of
    [src/src/runtime/engine.cpp] as owners of resources: the curl share, the
    multi handles, the threads.  Any call of libcurl, any allocation and any
    [std::thread] may fail; its exception unwinds the constructor, which
    destroys the members built so far, and a thread that can still be joined
    when its object is destroyed terminates the process.  What the threads do
    is in [System], [Wakeup] and [Workers]. *)

From S2P Require Import Prelude Text Uri Types Planner Response Transport Batch Engine System Wakeup Workers.

(** ** Resources *)

Inductive CURLMoption := PIPELINING | MAX_TOTAL_CONNECTIONS | MAX_HOST_CONNECTIONS | MAXCONNECTS.

(** What the constructor gives an [IoLoop]. *)
Record LoopParts := mkLoopParts { lp_bit : Z; lp_limit : nat; lp_options : list (CURLMoption * Z) }.

(** [joinable] says of each thread object whether it still has a thread;
    [multis] counts the open multi handles. *)
Record Resources := mkResources {
  share_open : bool;
  multis : nat;
  io_loops : list LoopParts;
  io_joinable : list bool;
  file_joinable : list bool;
  credential_joinable : list bool;
  resolver_stopped : bool;
  stop_flag : bool;
}.
#[export] Instance Resources_eta : Eta Resources := fun r =>
  mkResources (share_open r) (multis r) (io_loops r) (io_joinable r) (file_joinable r)
    (credential_joinable r) (resolver_stopped r) (stop_flag r).
Definition no_resources : Resources := mkResources false 0 [] [] [] [] false false.

(** ** The constructor as a computation that may throw *)

Definition boot (A : Type) : Type := Resources -> raised A * Resources.
#[export] Instance boot_ret : MRet boot := fun A a r => (Value a, r).
#[export] Instance boot_bind : MBind boot := fun A B f m r =>
  match m r with (Value a, r) => f a r | (Raise e, r) => (Raise e, r) end.
Definition boot_throw {A} (e : exn) : boot A := fun r => (Raise e, r).
Definition modify (f : Resources -> Resources) : boot unit := fun r => (Value tt, f r).
Definition require (ok : bool) (e : exn) : boot unit := if ok then mret tt else boot_throw e.
(** [for] over the elements. *)
Fixpoint each {A} (l : list A) (f : A -> boot unit) : boot unit :=
  match l with [] => mret tt | x :: l => _ ← f x; each l f end.
(** [try { m } catch (...) { handler(); throw; }] *)
Definition rethrowing (m : boot unit) (handler : Resources -> Resources) : boot unit := fun r =>
  match m r with (Value a, r) => (Value a, r) | (Raise e, r) => (Raise e, handler r) end.

Inductive share_call := LockFunction | UnlockFunction | UserData | ShareDns | ShareSslSession.
Inductive allocation :=
| CaSupport | SizePool | LoopVector | LoopObject (i : nat) | LoopHandles (i : nat) | LoopActive (i : nat)
| FileVector | CredentialVector.
Inductive thread_role := Io (i : nat) | FileWorker (i : nat) | CredentialWorker (i : nat).

(** libcurl, the allocator and the system; a result code is 0 for success. *)
Class Startup := {
  curl_global_init : Z; easy_error : Z -> str;
  curl_share_init : bool; curl_share_setopt : share_call -> Z; share_error : Z -> str;
  curl_multi_init : nat -> bool; curl_multi_setopt : nat -> CURLMoption -> Z -> Z; multi_error : Z -> str;
  allocates : allocation -> bool;
  thread_error : thread_role -> option str;     (* what std::system_error says *)
}.

Section Constructor.
Context `{Startup}.
Variable o : ClientOptions.

Definition kFileWorkers : nat := 4.
Definition kCredentialWorkers : nat := 4.

Definition allocate (what : allocation) : boot unit := require (allocates what) Bad_alloc.

Definition initialize_curl : boot unit :=
  require (curl_global_init =? 0) (Std_exception (easy_error curl_global_init)).

Definition require_share_option (call : share_call) : boot unit :=
  require (curl_share_setopt call =? 0) (Std_exception (share_error (curl_share_setopt call))).

Definition open_share : boot unit :=
  _ ← require curl_share_init Bad_alloc;
  _ ← modify (fun r => r <| share_open := true |>);
  each [LockFunction; UnlockFunction; UserData; ShareDns; ShareSslSession] require_share_option.

Definition require_multi_option (i : nat) (option_value : CURLMoption * Z) : boot unit :=
  let result := curl_multi_setopt i option_value.1 option_value.2 in
  require (result =? 0) (Std_exception (multi_error result)).

Definition set_up_multi (i : nat) (options : list (CURLMoption * Z)) : boot unit :=
  _ ← each options (require_multi_option i);
  _ ← allocate (LoopHandles i);
  allocate (LoopActive i).

(** The local [loop] owns its multi handle until it is in [loops_]. *)
Definition build_loop (index : nat) : boot unit :=
  _ ← allocate (LoopObject index);
  let limit := loop_limit o index in
  let options := [(PIPELINING, 2); (MAX_TOTAL_CONNECTIONS, 0); (MAX_HOST_CONNECTIONS, 0);
                  (MAXCONNECTS, Z.of_nat limit)] in
  _ ← require (curl_multi_init index) Bad_alloc;
  _ ← modify (fun r => r <| multis := S (multis r) |>);
  _ ← rethrowing (set_up_multi index options) (fun r => r <| multis := pred (multis r) |>);
  modify (fun r => r <| io_loops := io_loops r ++ [mkLoopParts (loop_bit index) limit options] |>
                     <| io_joinable := io_joinable r ++ [false] |>).

Definition spawn (role : thread_role) (f : Resources -> Resources) : boot unit :=
  match thread_error role with
  | Some what => boot_throw (Std_exception what)
  | None => modify f
  end.

Definition start_threads : boot unit :=
  _ ← each (seq 0 (loop_count o)) (fun i =>
        spawn (Io i) (fun r => r <| io_joinable := <[i := true]> (io_joinable r) |>));
  _ ← allocate FileVector;
  _ ← each (seq 0 kFileWorkers) (fun i =>
        spawn (FileWorker i) (fun r => r <| file_joinable := file_joinable r ++ [true] |>));
  _ ← allocate CredentialVector;
  each (seq 0 kCredentialWorkers) (fun i =>
    spawn (CredentialWorker i) (fun r => r <| credential_joinable := credential_joinable r ++ [true] |>)).

(** [join] on each thread that can be joined: the threads see the flag, which
    is set before, and leave ([Wakeup], [Workers]). *)
Definition join_all (threads : list bool) : list bool := map (fun _ => false) threads.
Definition shut_down (r : Resources) : Resources :=
  let r := r <| resolver_stopped := true |> <| stop_flag := true |> in
  r <| io_joinable := join_all (io_joinable r) |>
    <| file_joinable := join_all (file_joinable r) |>
    <| credential_joinable := join_all (credential_joinable r) |>.

Definition constructor_body : boot unit :=
  _ ← initialize_curl;
  _ ← open_share;
  _ ← allocate CaSupport;
  _ ← allocate SizePool;
  _ ← allocate LoopVector;
  _ ← each (seq 0 (loop_count o)) build_loop;
  rethrowing start_threads shut_down.

(** The members go: [None] is [std::terminate]. *)
Definition destroy_members (r : Resources) : option Resources :=
  if existsb id (io_joinable r ++ file_joinable r ++ credential_joinable r) then None
  else Some (mkResources false (multis r - length (io_loops r)) [] [] [] [] true (stop_flag r)).

Inductive started := Constructed (r : Resources) | Threw (e : exn) (r : Resources) | Terminated.

Definition Engine_new : started :=
  match constructor_body no_resources with
  | (Value _, r) => Constructed r
  | (Raise e, r) => match destroy_members r with Some r => Threw e r | None => Terminated end
  end.

Definition Engine_delete (r : Resources) : option Resources := destroy_members (shut_down r).

(** ** What the constructor builds *)

(** No thread yet, and one multi handle for each loop. *)
Record quiet (r : Resources) : Prop := {
  q_multis : multis r = length (io_loops r);
  q_io : io_joinable r = map (fun _ => false) (io_loops r);
  q_file : file_joinable r = [];
  q_credential : credential_joinable r = [];
  q_running : stop_flag r = false;
}.

Definition loop_parts (index : nat) : LoopParts :=
  mkLoopParts (loop_bit index) (loop_limit o index)
    [(PIPELINING, 2); (MAX_TOTAL_CONNECTIONS, 0); (MAX_HOST_CONNECTIONS, 0);
     (MAXCONNECTS, Z.of_nat (loop_limit o index))].

(** A computation that leaves the resources as they are when it throws. *)
Definition careful (m : boot unit) (f : Resources -> Resources) : Prop :=
  forall r, m r = (Value tt, f r) \/ exists e, m r = (Raise e, r).

Lemma careful_require ok e : careful (require ok e) id.
Proof. intros r. destruct ok; [by left|right; by exists e]. Qed.
Lemma careful_each {A} (l : list A) f : (forall x, careful (f x) id) -> careful (each l f) id.
Proof.
  intros Hf. induction l as [|x l IH]; intros r; cbn [each]; [by left|].
  unfold mbind, boot_bind. destruct (Hf x r) as [->|(e & ->)]; [apply IH|right; by exists e].
Qed.
Lemma careful_then m f n g : careful m id -> careful n g -> f = g -> careful (m ≫= fun _ => n) f.
Proof.
  intros Hm Hn -> r. unfold mbind, boot_bind. destruct (Hm r) as [->|(e & ->)]; [apply Hn|right; by exists e].
Qed.

Lemma set_up_multi_careful i options : careful (set_up_multi i options) id.
Proof.
  eapply careful_then; [apply careful_each; intros x; apply careful_require| |reflexivity].
  eapply careful_then; [apply careful_require|apply careful_require|reflexivity].
Qed.

Lemma build_loop_spec i : careful (build_loop i) (fun r =>
  r <| multis := S (multis r) |> <| io_loops := io_loops r ++ [loop_parts i] |>
    <| io_joinable := io_joinable r ++ [false] |>).
Proof.
  unfold build_loop. eapply careful_then; [apply careful_require| |reflexivity].
  eapply careful_then; [apply careful_require| |reflexivity]. intros r.
  unfold mbind, boot_bind, modify, rethrowing.
  match goal with |- context [set_up_multi i ?l] => destruct (set_up_multi_careful i l (r <| multis := S (multis r) |>)) as [->|(e & ->)] end.
  - by left.
  - right. exists e. by destruct r.
Qed.

(** *** A Hoare triple: what holds after a value, and after an exception *)

Definition triple (P : Resources -> Prop) (m : boot unit) (Q E : Resources -> Prop) : Prop :=
  forall r, P r -> match m r with (Value _, r) => Q r | (Raise _, r) => E r end.

Lemma triple_bind P Q R E m n : triple P m Q E -> triple Q n R E -> triple P (m ≫= fun _ => n) R E.
Proof.
  intros Hm Hn r Hr. unfold mbind, boot_bind. specialize (Hm r Hr). destruct (m r) as [[[]|e] r1]; [by apply Hn|done].
Qed.
Lemma triple_careful (P Q E : Resources -> Prop) m f :
  careful m f -> (forall r, P r -> Q (f r)) -> (forall r, P r -> E r) -> triple P m Q E.
Proof. intros Hm HQ HE r Hr. destruct (Hm r) as [->|(e & ->)]; auto. Qed.
Lemma triple_each (I : nat -> Resources -> Prop) E f : forall n k,
  (forall i, (k <= i < k + n)%nat -> triple (I i) (f i) (I (S i)) E) ->
  triple (I k) (each (seq k n) f) (I (k + n)%nat) E.
Proof.
  induction n as [|n IH]; intros k Hf; cbn [seq each].
  - intros r Hr. cbn. by rewrite Nat.add_0_r.
  - eapply triple_bind; [apply Hf; lia|]. rewrite Nat.add_succ_r, <-Nat.add_succ_l. apply IH. intros i Hi. apply Hf. lia.
Qed.
Lemma triple_rethrowing P Q E E' m handler :
  triple P m Q E -> (forall r, E r -> E' (handler r)) -> triple P (rethrowing m handler) Q E'.
Proof.
  intros Hm HE r Hr. unfold rethrowing. specialize (Hm r Hr). destruct (m r) as [[[]|e] r1]; [done|by apply HE].
Qed.

Lemma spawn_careful role f : careful (spawn role f) f.
Proof. intros r. unfold spawn. destruct (thread_error role); [right; by eexists|by left]. Qed.

(** *** The phases *)

(** [k] loops are built. *)
Definition with_loops (k : nat) (r : Resources) : Prop :=
  quiet r /\ share_open r = true /\ io_loops r = map loop_parts (seq 0 k).

(** All loops are built, and some threads run. *)
Record lively (i f c : nat) (r : Resources) : Prop := {
  lv_multis : multis r = loop_count o;
  lv_share : share_open r = true;
  lv_loops : io_loops r = map loop_parts (seq 0 (loop_count o));
  lv_io : io_joinable r = replicate i true ++ replicate (loop_count o - i) false;
  lv_file : file_joinable r = replicate f true;
  lv_credential : credential_joinable r = replicate c true;
  lv_running : stop_flag r = false;
}.

(** No loop is built. *)
Definition fresh (r : Resources) : Prop := quiet r /\ io_loops r = [].

Lemma open_share_spec : triple fresh open_share (with_loops 0) quiet.
Proof.
  apply (triple_bind _ fresh).
  { apply (triple_careful _ _ _ _ id); [apply careful_require|done|by intros r []]. }
  apply (triple_bind _ (with_loops 0)).
  - intros r [[] Hr]. cbn. split_and!; [by constructor|done|done].
  - apply (triple_careful _ _ _ _ id); [apply careful_each; intros x; apply careful_require|done|by intros r []].
Qed.

Lemma build_loop_step k : triple (with_loops k) (build_loop k) (with_loops (S k)) quiet.
Proof.
  apply (triple_careful _ _ _ _ _ (build_loop_spec k)); [|by intros r []]. intros r ([H1 H2 H3 H4 H5] & Hs & Hl).
  split_and!; [|done|].
  - constructor; cbn; rewrite ?length_app, ?map_app, ?H1, ?H2; cbn; try done. lia.
  - rewrite seq_S, map_app. cbn. by rewrite Hl.
Qed.

Lemma mark_next i n : (i < n)%nat ->
  <[i := true]> (replicate i true ++ replicate (n - i) false) = replicate (S i) true ++ replicate (n - S i) false.
Proof.
  intros Hi. replace (n - i)%nat with (S (n - S i)) by lia.
  rewrite insert_app_r_alt by (rewrite length_replicate; lia). rewrite length_replicate, Nat.sub_diag.
  rewrite (replicate_S_end i true), <-app_assoc. done.
Qed.

Lemma io_thread_step i f c : (i < loop_count o)%nat ->
  triple (lively i f c) (spawn (Io i) (fun r => r <| io_joinable := <[i := true]> (io_joinable r) |>))
    (lively (S i) f c) (lively i f c).
Proof.
  intros Hi. apply (triple_careful _ _ _ _ _ (spawn_careful _ _)); [|done]. intros r [H1 H2 H3 H4 H5 H6 H7].
  constructor; try done. cbn -[replicate]. by rewrite H4, mark_next.
Qed.

(** Some threads run, of any number of workers. *)
Definition some_run (r : Resources) : Prop := exists i f c, lively i f c r.

Lemma weaken_triple (P Q : Resources -> Prop) (E E' : Resources -> Prop) m :
  triple P m Q E -> (forall r, E r -> E' r) -> triple P m Q E'.
Proof. intros Hm HE r Hr. specialize (Hm r Hr). destruct (m r) as [[|] r1]; auto. Qed.

Lemma start_threads_spec :
  triple (lively 0 0 0) start_threads (lively (loop_count o) kFileWorkers kCredentialWorkers) some_run.
Proof.
  apply (triple_bind _ (lively (loop_count o) 0 0)).
  { apply (triple_each (fun i => lively i 0 0)). intros i Hi.
    eapply weaken_triple; [apply io_thread_step; lia|]. intros r Hr. by exists i, 0%nat, 0%nat. }
  apply (triple_bind _ (lively (loop_count o) 0 0)).
  { apply (triple_careful _ _ _ _ id); [apply careful_require|done|]. intros r Hr. by eexists _, _, _. }
  apply (triple_bind _ (lively (loop_count o) kFileWorkers 0)).
  { apply (triple_each (fun f => lively (loop_count o) f 0)). intros f Hf.
    apply (triple_careful _ _ _ _ _ (spawn_careful _ _)); [|intros r Hr; by eexists _, _, _].
    intros r []. constructor; try done. cbn -[replicate]. by rewrite lv_file0, replicate_S_end. }
  apply (triple_bind _ (lively (loop_count o) kFileWorkers 0)).
  { apply (triple_careful _ _ _ _ id); [apply careful_require|done|]. intros r Hr. by eexists _, _, _. }
  apply (triple_each (fun c => lively (loop_count o) kFileWorkers c)). intros c Hc.
  apply (triple_careful _ _ _ _ _ (spawn_careful _ _)); [|intros r Hr; by eexists _, _, _].
  intros r []. constructor; try done. cbn -[replicate]. by rewrite lv_credential0, replicate_S_end.
Qed.

(** Nobody runs and one multi handle for each loop: the members can go. *)
Definition settled (r : Resources) : Prop :=
  multis r = length (io_loops r) /\ existsb id (io_joinable r ++ file_joinable r ++ credential_joinable r) = false.

Lemma none_joinable {A} (l : list A) : existsb id (map (fun _ => false) l) = false.
Proof. induction l as [|x l IH]; [done|exact IH]. Qed.

Lemma lively_settles i f c r : lively i f c r -> settled (shut_down r).
Proof.
  intros []. split; cbn; [by rewrite lv_loops0, length_map, length_seq|].
  unfold join_all. rewrite !existsb_app, !none_joinable. done.
Qed.
Lemma quiet_settled r : quiet r -> settled r.
Proof.
  intros []. split; [done|]. by rewrite q_io0, q_file0, q_credential0, existsb_app, none_joinable.
Qed.

Lemma checked_step (P E : Resources -> Prop) ok e : (forall r, P r -> E r) -> triple P (require ok e) P E.
Proof. intros HE. apply (triple_careful _ _ _ _ id); [apply careful_require|done|exact HE]. Qed.

Lemma map_replicate {A} (x : bool) (l : list A) : map (fun _ => x) l = replicate (length l) x.
Proof. induction l as [|y l IH]; [done|]. cbn. by rewrite IH. Qed.

Lemma constructor_spec :
  triple (eq no_resources) constructor_body (lively (loop_count o) kFileWorkers kCredentialWorkers) settled.
Proof.
  assert (Hq : forall k r, with_loops k r -> settled r) by (intros k r []; by apply quiet_settled).
  apply (triple_bind _ fresh).
  { apply (triple_careful _ _ _ _ id); [apply careful_require| |]; intros r <-; [by repeat constructor|done]. }
  apply (triple_bind _ (with_loops 0)); [eapply weaken_triple; [apply open_share_spec|apply quiet_settled]|].
  do 3 (apply (triple_bind _ (with_loops 0)); [by apply checked_step, Hq|]).
  apply (triple_bind _ (with_loops (loop_count o))).
  { apply (triple_each with_loops). intros i _. eapply weaken_triple; [apply build_loop_step|apply quiet_settled]. }
  apply (triple_rethrowing _ _ some_run); [|intros r (i & f & c & Hr); by eapply lively_settles].
  intros r ([] & Hs & Hl). apply start_threads_spec. constructor; try done.
  - by rewrite q_multis0, Hl, length_map, length_seq.
  - by rewrite q_io0, Hl, map_replicate, length_map, length_seq, Nat.sub_0_r.
Qed.

(** Nothing is left: no share, no handle, no thread. *)
Definition released (r : Resources) : Prop :=
  share_open r = false /\ multis r = 0%nat /\ io_joinable r ++ file_joinable r ++ credential_joinable r = [].

Lemma settled_released r : settled r -> exists r', destroy_members r = Some r' /\ released r'.
Proof.
  intros [Hm Hj]. unfold destroy_members. rewrite Hj. eexists. split; [done|]. split_and!; [done| |done]. cbn. lia.
Qed.

(** C18: An engine comes up whole or not at all.  Whichever call of libcurl,
    allocation or thread fails, the constructor throws and has released the
    share, every multi handle and every thread it had started, and no joinable
    thread is destroyed; otherwise the engine has the loops, limits and wake-up
    bits of the scheduler's and the wake-up protocol's first state, a thread
    for each and the workers of both pools.  The destructor of an engine that
    came up leaves nothing behind. *)
Theorem engine_comes_up_whole m :
  match Engine_new with
  | Constructed r =>
      share_open r = true /\ stop_flag r = false /\
      map lp_limit (io_loops r) = map limit (loops (new_engine o m)) /\
      map lp_bit (io_loops r) = map loop_bit (seq 0 (length (poll_loops (new_machine o)))) /\
      (forall p, p ∈ io_loops r -> (MAXCONNECTS, Z.of_nat (lp_limit p)) ∈ lp_options p /\ 0 < lp_bit p < 2 ^ 64) /\
      io_joinable r = map (fun _ => true) (io_loops r) /\
      length (file_joinable r) = length (workers (new_pool kFileWorkers)) /\
      length (credential_joinable r) = length (workers (new_pool kCredentialWorkers)) /\
      exists r', Engine_delete r = Some r' /\ released r'
  | Threw _ r => released r
  | Terminated => False
  end.
Proof.
  unfold Engine_new. pose proof (constructor_spec no_resources eq_refl) as Hspec.
  destruct (constructor_body no_resources) as [[[]|e] r].
  - pose proof (lively_settles _ _ _ _ Hspec) as Hdown. destruct Hspec as [H1 H2 H3 H4 H5 H6 H7].
    split_and!; try done.
    + rewrite H3. cbn. by rewrite !map_map.
    + rewrite H3. cbn. by rewrite map_map, length_map, length_seq.
    + rewrite H3. intros p (i & -> & Hi)%list_elem_of_fmap. split; [do 3 apply list_elem_of_further; apply list_elem_of_here|].
      apply elem_of_seq in Hi. pose proof (loop_count_bounds o). cbn. unfold loop_bit. rewrite Z.shiftl_1_l. split; [lia|].
      apply Z.pow_lt_mono_r; lia.
    + rewrite H4, H3, map_replicate, length_map, length_seq, Nat.sub_diag. apply app_nil_r.
    + rewrite H5. done.
    + rewrite H6. done.
    + by apply settled_released.
  - by destruct (settled_released r Hspec) as (r' & -> & ?).
Qed.
End Constructor.

(** *** Examples *)

(** A system on which everything works but, for some, one thread. *)
Definition works_until (broken : thread_role -> bool) : Startup := {|
  curl_global_init := 0; easy_error := fun _ => []; curl_share_init := true; curl_share_setopt := fun _ => 0;
  share_error := fun _ => []; curl_multi_init := fun _ => true; curl_multi_setopt := fun _ _ _ => 0;
  multi_error := fun _ => []; allocates := fun _ => true;
  thread_error := fun role => if broken role then Some $"Resource temporarily unavailable" else None;
|}.

(** Six workers run when the third thread of the second pool cannot start. *)
Definition two_loops : ClientOptions := ClientOptions_default <| io_threads := 2 |> <| concurrency := 5 |>.
Example failed_thread_unwinds :
  @Engine_new (works_until (fun role => match role with CredentialWorker 2 => true | _ => false end)) two_loops
  = Threw (Std_exception $"Resource temporarily unavailable") (mkResources false 0 [] [] [] [] true true).
Proof. vm_compute. reflexivity. Qed.
Example two_loops_start :
  match @Engine_new (works_until (fun _ => false)) two_loops with
  | Constructed r => map lp_limit (io_loops r) = [3; 2]%nat /\ map lp_bit (io_loops r) = [1; 2]
  | _ => False
  end.
Proof. by vm_compute. Qed.
