(* ===== verification/Schedule.v ===== *)
(** * Schedule: every interleaving of the workers

    The step relation over the critical sections and worker turns of
    [System.v], the states every schedule can reach from the engine's
    constructor in [src/src/runtime/engine.cpp], and what holds in all of
    them.  A configuration pairs the engine with the history of what its
    consumers asked for and took.  [submit] is one step: nobody else knows the
    batch before it returns. *)

From S2P Require Import Prelude Text Uri Types Planner Response Transport Batch Engine System.

(** ** What no step undoes *)

(** The loops keep their limits, batches stay, their live transfers only
    shrink, and a cancelled one stays cancelled. *)
Definition settles (e e' : EngineState) : Prop :=
  map limit (loops e') = map limit (loops e) /\
  forall id b, batches e !! id = Some b ->
    exists b', batches e' !! id = Some b' /\ live_transfers b' <= live_transfers b /\
      (cancelled b = true -> cancelled b' = true).

#[export] Instance settles_refl : Reflexive settles.
Proof. intros e. split; [done|]. intros id b Hb. by exists b. Qed.

#[export] Instance settles_trans : Transitive settles.
Proof.
  intros e1 e2 e3 [L1 H1] [L2 H2]. split; [by rewrite L2|]. intros id b Hb.
  destruct (H1 id b Hb) as (b2 & Hb2 & ? & ?). destruct (H2 id b2 Hb2) as (b3 & ? & ? & ?).
  exists b3. split_and!; [done|lia|auto].
Qed.

Lemma settles_same e e' : loops e' = loops e -> batches e' = batches e -> settles e e'.
Proof. intros H1 H2. split; [by rewrite H1|]. rewrite H2. intros id b Hb. by exists b. Qed.

Lemma settles_with_loop i f e e' :
  (forall l, limit (f l) = limit l) -> loops e' = alter f i (loops e) -> batches e' = batches e ->
  settles e e'.
Proof.
  intros Hf H1 H2. split; [|rewrite H2; intros id b Hb; by exists b].
  rewrite H1. apply list_eq. intros j. rewrite !list_lookup_fmap.
  destruct (decide (i = j)) as [<-|Hne].
  - rewrite list_lookup_alter_eq. destruct (loops e !! i); [|done]. cbn. by rewrite Hf.
  - by rewrite list_lookup_alter_ne.
Qed.

Lemma settles_batch e e' id b b' :
  loops e' = loops e -> batches e' = <[id := b']> (batches e) -> batches e !! id = Some b ->
  live_transfers b' <= live_transfers b -> (cancelled b = true -> cancelled b' = true) -> settles e e'.
Proof.
  intros H1 H2 Hb Hl Hc. split; [by rewrite H1|]. intros i b0 Hb0. rewrite H2.
  destruct (decide (id = i)) as [<-|Hne].
  - rewrite lookup_insert_eq. exists b'. rewrite Hb in Hb0. by injection Hb0 as <-.
  - rewrite lookup_insert_ne by done. by exists b0.
Qed.

Lemma settles_with_batch id f e :
  (forall b, live_transfers (f b) <= live_transfers b /\ (cancelled b = true -> cancelled (f b) = true)) ->
  settles e (with_batch id f e).
Proof.
  intros Hf. split; [done|]. intros i b Hb. unfold with_batch. cbn.
  destruct (decide (id = i)) as [<-|Hne].
  - rewrite lookup_alter_eq, Hb. exists (f b). by destruct (Hf b).
  - rewrite lookup_alter_ne by done. by exists b.
Qed.

Lemma transfer_finished_live b : live_transfers (transfer_finished b) <= live_transfers b.
Proof. cbn. destruct (0 <? live_transfers b); lia. Qed.

Lemma settles_discard t e : settles e (discard t e).
Proof. apply settles_with_batch. intros b. split; [apply transfer_finished_live|done]. Qed.

Lemma settles_discard_all ts e : settles e (discard_all ts e).
Proof.
  induction ts as [|t ts IH]; [done|]. cbn. fold (discard_all ts e).
  etransitivity; [exact IH|apply settles_discard].
Qed.

Lemma settles_dispose i out e : settles e (dispose i out e).
Proof.
  destruct out as [t status text|t|t|t|t|t|due t|t]; cbn [dispose];
    try (eapply settles_with_loop; [|reflexivity|reflexivity]; done);
    [|apply settles_discard|by apply settles_same|].
  - unfold start_closing. etransitivity; [|by apply settles_with_batch; intros b; split]. by apply settles_same.
  - unfold queue_http. destruct (stop e); [apply settles_discard|by apply settles_same].
Qed.

Lemma settles_close_turn k e : settles e (close_turn k e).
Proof.
  unfold close_turn. destruct (closing e !! k) as [c|]; [|done]. cbv zeta.
  destruct (batches e !! t_batch (cl_transfer c)) as [b|] eqn:Hb; [|done].
  destruct (parts (cl_transfer c)) as [|p ps].
  - apply (settles_batch _ _ (t_batch (cl_transfer c)) b (transfer_finished b)); [done..|apply transfer_finished_live|done].
  - destruct (deliver_part _ _ _ _ _) as [completion m].
    by apply (settles_batch _ _ (t_batch (cl_transfer c)) b (push b completion)).
Qed.

(** ** Steps *)

Definition configuration : Type := History * EngineState.

(** A worker that saw its batch cancelled saw the truth: the flag is never
    reset. *)
Definition honest (e : EngineState) (hands : list Transfer) (j : nat) (seen : bool) : Prop :=
  forall t, hands !! j = Some t -> seen = true -> is_cancelled e t = true.

Section Schedule.
Context `{RequestBuilding}.
Variable options : ClientOptions.

Inductive step : configuration -> configuration -> Prop :=
| step_submit h e id rs plan_options heap e' status :
    batches e !! id = None -> Forall wf_request rs -> plan_options_ok plan_options ->
    submit id rs plan_options heap e = (e', status) ->
    step (h, e) (record_submit h id (if status_is status KARU_OK then map tag rs else []), e')
| step_next h e id timeout :
    next (default karu_batch_default (batches e !! id)) timeout <> None ->
    step (h, e) (record_next h id e, consume_next id timeout e)
| step_take_http h e i : step (h, e) (h, take_http i e)
| step_discard_cancelled h e i : step (h, e) (h, discard_cancelled_http i e)
| step_due_retries h e i now : step (h, e) (h, due_retries i now e)
| step_swap_resolving h e i : step (h, e) (h, swap_resolving i e)
| step_restart_waiting h e i env : step (h, e) (h, restart_waiting options i env e)
| step_start_pending h e i env :
    (forall l, loops e !! i = Some l -> waiting l = []) ->
    step (h, e) (h, start_pending options i env e)
| step_body h e i j data size count code clen :
    step (h, e) (h, callback i j (on_body data size count code clen) e)
| step_header h e i j f g k line size count now :
    step (h, e) (h, callback i j (on_header f g k line size count now) e)
| step_fail_active h e i j text : step (h, e) (h, fail_active i j text e)
| step_message h e i j env : step (h, e) (h, message options i j env e)
| step_take_file h e : step (h, e) (h, take_file e)
| step_take_credential h e : step (h, e) (h, take_credential e)
| step_work_file h e j read_at env :
    honest e (file_hands e) j (file_cancelled env || file_cancelled_end env) ->
    step (h, e) (h, work_file j read_at env e)
| step_work_credential h e j env :
    honest e (credential_hands e) j (cancelled_before env || cancelled_after env) ->
    step (h, e) (h, work_credential options j env e)
| step_close_turn h e k : step (h, e) (h, close_turn k e)
| step_cancel h e id : step (h, e) (h, cancel_mark id e)
| step_cancel_queues h e id :
    batch_cancelled e id = true -> step (h, e) (h, cancel_queues id e)
| step_cancel_http h e id : batch_cancelled e id = true -> step (h, e) (h, cancel_http id e)
| step_cancel_wake h e : step (h, e) (h, cancel_wake e)
| step_stop h e : step (h, e) (h, stop_workers e)
| step_drain_loop h e i : stop e = true -> step (h, e) (h, drain_loop i e)
| step_drain_queues h e : stop e = true -> step (h, e) (h, drain_queues e).

Definition reachable (m : memory) (c : configuration) : Prop :=
  rtc step (no_history, new_engine options m) c.

(** A turn that updates loop [i] and ends as [e'] settles. *)
Ltac loop_settles := eapply settles_with_loop; [|reflexivity|reflexivity]; done.
Ltac then_settles := etransitivity; [|first [apply settles_dispose|apply settles_discard_all]].

Lemma settles_start i out t b e e1 :
  settles e e1 -> settles e (if b : bool then discard t e1 else dispose i out e1).
Proof.
  intros H1. etransitivity; [exact H1|]. destruct b; [apply settles_discard|apply settles_dispose].
Qed.

Lemma settles_submit id rs po heap e :
  batches e !! id = None -> settles e (submit id rs po heap e).1.
Proof.
  intros Hnone. assert (Hnew : forall e' b, loops e' = loops e -> batches e' = <[id := b]> (batches e) ->
    settles e e').
  { intros e' b H1 H2. split; [by rewrite H1|]. intros i b0 Hb0. exists b0. rewrite H2.
    by rewrite lookup_insert_ne by congruence. }
  unfold submit. destruct rs; [by eapply Hnew|].
  destruct (plan_transfers _ _ _ _) as [[plan status] heap']. destruct (negb _); by eapply Hnew.
Qed.

Lemma settles_work_file j read_at env e : settles e (work_file j read_at env e).
Proof.
  unfold work_file. destruct (file_hands e !! j) as [t|]; [|done].
  destruct (batches e !! t_batch t) as [b|] eqn:Hb; [|done].
  pose proof (file_work_ledger read_at env t (e_memory e) b) as (_ & Hl & Hc & _).
  destruct (file_work _ _ _ _ _) as [[out m] b']. cbn in Hl, Hc. then_settles.
  apply (settles_batch _ _ (t_batch t) b b'); try done; [by rewrite Hl|by rewrite Hc].
Qed.

Lemma settles_message i j env e : settles e (message options i j env e).
Proof.
  unfold message. destruct (loops e !! i) as [l|]; [|done]. destruct (active l !! j) as [t|]; [|done].
  destruct (batches e !! t_batch t) as [b|] eqn:Hb; [|done].
  pose proof (on_done_ledger options env t b) as (_ & Hl & Hc & _).
  destruct (on_done options env t b) as [[out b'] inval]. cbn in Hl, Hc. then_settles.
  transitivity (e <| batches := <[t_batch t := b']> (batches e) |>); [|loop_settles].
  apply (settles_batch _ _ (t_batch t) b b'); try done; [by rewrite Hl|by rewrite Hc].
Qed.

Lemma settles_callback i j f e : settles e (callback i j f e).
Proof.
  unfold callback. destruct (loops e !! i) as [l|]; [|done]. destruct (active l !! j) as [t|]; [|done].
  destruct (f t (e_memory e)) as [[u m] n].
  etransitivity; [|by apply settles_with_batch; intros b; split].
  eapply settles_with_loop; [|reflexivity|reflexivity]. done.
Qed.

Lemma settles_consume id timeout e : settles e (consume_next id timeout e).
Proof.
  unfold consume_next. destruct (batches e !! id) as [b|] eqn:Hb; [|done].
  destruct (next b timeout) as [[[st oc] b']|] eqn:E; [|done]. apply next_some in E.
  apply (settles_batch _ _ id b b'); try done.
  - destruct oc as [c|]; [destruct E as (_ & cs & _ & ->)|destruct E as [-> _]]; done.
  - destruct oc as [c|]; [destruct E as (_ & cs & _ & ->)|destruct E as [-> _]]; done.
Qed.

Lemma step_settles c c' : step c c' -> settles c.2 c'.2.
Proof.
  intros Hs. destruct Hs; cbn [snd].
  - pose proof (settles_submit id rs plan_options heap e H0) as Hsub. by rewrite H3 in Hsub.
  - apply settles_consume.
  - unfold take_http. destruct (loops e !! i) as [l|]; [|done]. loop_settles.
  - unfold discard_cancelled_http. destruct (loops e !! i) as [l|]; [|done]. then_settles. loop_settles.
  - loop_settles.
  - loop_settles.
  - unfold restart_waiting. destruct (loops e !! i) as [l|]; [|done]. destruct (waiting l); [done|].
    apply settles_start. loop_settles.
  - unfold start_pending. destruct (loops e !! i) as [l|]; [|done]. destruct (_ <? _)%nat; [|done].
    destruct (pending l); [done|]. apply settles_start. loop_settles.
  - apply settles_callback.
  - apply settles_callback.
  - unfold fail_active. destruct (loops e !! i) as [l|]; [|done]. destruct (active l !! j); [|done].
    then_settles. loop_settles.
  - apply settles_message.
  - unfold take_file. destruct (file_queue e); [done|by apply settles_same].
  - unfold take_credential. destruct (stop e); [done|].
    destruct (credential_queue e); [done|by apply settles_same].
  - apply settles_work_file.
  - unfold work_credential. destruct (credential_hands e !! j); [|done]. then_settles.
    by apply settles_same.
  - apply settles_close_turn.
  - by apply settles_with_batch.
  - then_settles. by apply settles_same.
  - then_settles. by apply settles_same.
  - unfold cancel_wake. split; [|intros k b Hb; by exists b]. cbn. by rewrite map_map.
  - by apply settles_same.
  - unfold drain_loop. destruct (loops e !! i) as [l|]; [|done]. then_settles. loop_settles.
  - then_settles. by apply settles_same.
Qed.

Lemma steps_settle c c' : rtc step c c' -> settles c.2 c'.2.
Proof.
  induction 1 as [|x y z Hs _ IH]; [done|]. etransitivity; [by apply step_settles|exact IH].
Qed.

(** ** The invariant holds on every schedule *)

Lemma step_inv c c' : step c c' -> inv c.1 c.2 -> inv c'.1 c'.2.
Proof.
  intros Hs Hinv. destruct Hs; cbn [fst snd] in *.
  - pose proof (submit_inv h id rs plan_options heap e) as Hsub. rewrite H3 in Hsub. by apply Hsub.
  - by apply consume_next_inv.
  - by apply take_http_inv.
  - by apply discard_cancelled_http_inv.
  - by apply due_retries_inv.
  - by apply swap_resolving_inv.
  - by apply restart_waiting_inv.
  - by apply start_pending_inv.
  - apply callback_inv; [intros; apply on_body_same|done].
  - apply callback_inv; [intros; apply on_header_same|done].
  - by apply fail_active_inv.
  - by apply message_inv.
  - by apply take_file_inv.
  - by apply take_credential_inv.
  - apply work_file_inv; [done|]. intros t Ht Hc. apply (H0 t Ht). by apply orb_true_iff.
  - apply work_credential_inv; [done|]. intros t Ht Hc. apply (H0 t Ht). by apply orb_true_iff.
  - by apply close_turn_inv.
  - by apply cancel_mark_inv.
  - by apply cancel_queues_inv.
  - by apply cancel_http_inv.
  - by apply cancel_wake_inv.
  - by apply stop_inv.
  - by apply drain_loop_inv.
  - by apply drain_queues_inv.
Qed.

Lemma steps_inv c c' : rtc step c c' -> inv c.1 c.2 -> inv c'.1 c'.2.
Proof. induction 1; eauto using step_inv. Qed.

Lemma reachable_inv m c : reachable m c -> inv c.1 c.2.
Proof. intros Hr. apply (steps_inv _ _ Hr), new_engine_inv. Qed.
(** ** The shares of the limit *)

Lemma sum_shares k q r :
  sum_list (map (fun i => q + (if i <? r then 1 else 0))%nat (seq 0 k)) = (k * q + k `min` r)%nat.
Proof.
  set (share := fun i => _). induction k as [|k IH]; [done|].
  rewrite seq_S, map_app, sum_list_with_app, IH, Nat.add_0_l.
  change (sum_list (map share [k])) with (share k + 0)%nat. unfold share.
  rewrite Nat.mul_succ_l. destruct (Nat.ltb_spec k r); lia.
Qed.

Lemma limits_sum m :
  1 <= concurrency options ->
  sum_list (map limit (loops (new_engine options m))) = Z.to_nat (concurrency options).
Proof.
  intros Hc. cbn. rewrite map_map. cbn. unfold loop_limit.
  pose proof (loop_count_bounds options). set (k := loop_count options) in *.
  set (n := Z.to_nat (concurrency options)). rewrite (sum_shares k (n / k) (n mod k)).
  pose proof (Nat.mod_upper_bound n k). pose proof (Nat.div_mod n k). lia.
Qed.

Lemma limits_positive m :
  1 <= concurrency options -> Forall (fun n => 1 <= n)%nat (map limit (loops (new_engine options m))).
Proof.
  intros Hc. cbn. rewrite map_map. cbn. apply Forall_map, Forall_forall. intros i _.
  unfold loop_limit. assert (1 <= Z.to_nat (concurrency options) / loop_count options)%nat; [|lia].
  apply Nat.div_le_lower_bound; [pose proof (loop_count_bounds options); lia|]. unfold loop_count. lia.
Qed.

Lemma sum_le (ls : list IoLoop) :
  Forall loop_ok ls -> (sum_list (map in_flight ls) <= sum_list (map limit ls))%nat.
Proof. induction 1 as [|l ls Hl _ IH]; [done|]. cbn. unfold loop_ok in Hl. lia. Qed.

Lemma no_parts ts : parts_count ts = 0 -> Forall (fun t => parts t = []) ts.
Proof.
  induction ts as [|t ts IH]; [done|]. rewrite parts_count_cons. pose proof (parts_count_nonneg ts). intros Hz.
  constructor; [apply length_zero_iff_nil; lia|apply IH; lia].
Qed.

Lemma some_parts ts : parts_count ts <> 0 -> Exists (fun t => parts t <> []) ts.
Proof.
  induction ts as [|t ts IH]; [done|]. rewrite parts_count_cons. intros Hz.
  destruct (parts t) as [|p ps] eqn:E; [right; apply IH; cbn in Hz; lia|left; by rewrite E].
Qed.

Lemma without_parts_tags ts : Forall (fun t => parts t = []) ts -> tags_of ts = [].
Proof. induction 1 as [|t ts Ht _ IH]; [done|]. unfold tags_of in *. cbn. by rewrite Ht, IH. Qed.

(** A transfer that has still to make its way has a part. *)
Lemma shaped_without_parts ts : Forall well_shaped ts -> Forall (fun t => parts t = []) ts -> ts = [].
Proof.
  intros Hts Hno. destruct ts as [|t ts]; [done|].
  apply Forall_cons_iff in Hts as [(_ & (p & tl & Hp & _) & _) _]. apply Forall_cons_iff in Hno as [Hno _]. congruence.
Qed.

Lemma of_batch_shaped id ts : Forall well_shaped ts -> Forall well_shaped (of_batch id ts).
Proof.
  rewrite !Forall_forall. intros Hts t [_ Ht]%list_elem_of_filter. by apply Hts.
Qed.

(** ** Properties *)

(** C2: on every schedule of workers, callbacks and consumers, each request
    of a batch is accounted for exactly once: until the batch is cancelled or
    the engine stops, the tags submitted are, up to order and with their
    multiplicities, those handed out, those waiting in the queue, and those of
    the parts of transfers still in the system; and the batch's two counters
    are exactly the transfers and parts that remain. *)
Theorem every_request_is_answered_once m h e id b :
  reachable m (h, e) -> batches e !! id = Some b -> cancelled b = false -> stop e = false ->
  tags_asked h id ≡ₚ
    tags_taken h id ++ map c_tag (ready_queue b) ++ tags_of (of_batch id (transfers_of e)) /\
  live_transfers b = Z.of_nat (length (of_batch id (transfers_of e))) /\
  pending_parts b = parts_count (of_batch id (transfers_of e)).
Proof.
  intros Hr Hb Hc Hs. apply reachable_inv in Hr as [Hbooks _ _]. cbn [fst snd] in Hbooks.
  specialize (Hbooks id). rewrite Hb in Hbooks. destruct Hbooks as (H1 & _ & H3).
  by destruct (H3 Hc Hs).
Qed.

(** C8: the end of a batch is neither early nor missed: [next] says END only
    when every request was handed out, and then no queue, loop or worker has
    anything of the batch to do, but for workers that pushed the last
    completion of a transfer and are about to let go of it; and a consumer that
    has to wait waits for a transfer in the system with a part to push. *)
Theorem end_means_everything_delivered m h e id b timeout :
  reachable m (h, e) -> batches e !! id = Some b -> cancelled b = false -> stop e = false ->
  (next b timeout = Some (KARU_END, None, b) ->
     tags_asked h id ≡ₚ tags_taken h id /\ of_batch id (queued e) = [] /\
     Forall (fun t => parts t = []) (of_batch id (transfers_of e))) /\
  (can_return b = false -> Exists (fun t => parts t <> []) (of_batch id (transfers_of e))).
Proof.
  intros Hr Hb Hc Hs. apply reachable_inv in Hr as [Hbooks _ Hshape]. cbn [fst snd] in Hbooks, Hshape.
  specialize (Hbooks id). rewrite Hb in Hbooks. destruct Hbooks as (H1 & _ & H3).
  destruct (H3 Hc Hs) as [Hp Ht]. split.
  - unfold next, can_return. rewrite Hc.
    destruct (ready_queue b) as [|c cs]; cbn [negb orb]; [|done].
    destruct (Z.eqb_spec (pending_parts b) 0) as [E|E]; cbn; [|by destruct (timeout <? 0)].
    intros _. assert (Hno : Forall (fun t => parts t = []) (of_batch id (transfers_of e))) by (apply no_parts; by rewrite <-Hp).
    rewrite (without_parts_tags _ Hno), !app_nil_r in Ht. split_and!; [done| |done].
    apply shaped_without_parts; [by apply of_batch_shaped|].
    unfold transfers_of in Hno. rewrite of_batch_app in Hno. by apply Forall_app in Hno as [? _].
  - unfold can_return. rewrite Hc. intros E. apply some_parts. rewrite <-Hp.
    destruct (ready_queue b), (Z.eqb_spec (pending_parts b) 0); done.
Qed.

(** C10: cancelling is final: from the moment [cancel] can return, no queue,
    loop or worker holds a transfer of the batch, in this state and in every
    later one, so nothing writes to the caller's buffers any more. *)
Theorem cancel_is_final m c id c' :
  reachable m c -> cancel_returns id c.2 = true -> rtc step c c' ->
  of_batch id (transfers_of c'.2) = [] /\ cancel_returns id c'.2 = true.
Proof.
  intros Hr Hcan Hsteps. assert (Hr' : reachable m c') by exact (rtc_trans _ _ _ Hr Hsteps).
  apply reachable_inv in Hr' as [Hbooks _ _]. specialize (Hbooks id).
  destruct (steps_settle _ _ Hsteps) as [_ Hmono].
  unfold cancel_returns in *. destruct (batches c.2 !! id) as [b|] eqn:Hb; [|done].
  apply andb_true_iff in Hcan as [Hc Hl%Z.eqb_eq].
  destruct (Hmono id b Hb) as (b' & Hb' & Hle & Hc'). rewrite Hb' in *.
  destruct Hbooks as (H1 & _). assert (length (of_batch id (transfers_of c'.2)) = 0%nat) as H0 by lia.
  split; [by apply length_zero_iff_nil|]. rewrite Hc' by done. apply Z.eqb_eq. lia.
Qed.

(** C15: the client-wide limit holds on every schedule: there are at most 64
    loops, each with at least one slot, no loop has more transfers in flight
    (active or waiting for a host) than its share, and together they never
    exceed the configured concurrency. *)
Theorem concurrency_is_respected m c :
  reachable m c -> 1 <= concurrency options ->
  (length (loops c.2) <= 64)%nat /\
  Forall (fun l => 1 <= limit l /\ in_flight l <= limit l)%nat (loops c.2) /\
  Z.of_nat (sum_list (map in_flight (loops c.2))) <= concurrency options.
Proof.
  intros Hr Hc. pose proof (reachable_inv _ _ Hr) as [_ Hok _].
  destruct (steps_settle _ _ Hr) as [Hlim _]. cbn [snd] in Hlim.
  pose proof (limits_sum m Hc) as Hsum. pose proof (limits_positive m Hc) as Hpos.
  rewrite <-Hlim in Hsum, Hpos. pose proof (sum_le _ Hok). split_and!; [| |lia].
  - rewrite <-(length_map limit), Hlim, length_map. cbn. rewrite length_map, length_seq.
    apply loop_count_bounds.
  - apply Forall_forall. intros l Hl. rewrite Forall_map, Forall_forall in Hpos.
    rewrite Forall_forall in Hok. split; [by apply Hpos|by apply Hok].
Qed.
End Schedule.

(** ** Witnesses *)

#[local] Existing Instance example_builder.

(** Two adjacent requests of an object and one past the end of the 64-bit
    offsets: one transfer of two parts, and an immediate completion. *)
Definition started : EngineState := new_engine ClientOptions_default no_memory.
Definition submitted : EngineState := (submit 7 example_requests ClientOptions_default [5000] started).1.
Definition submitted_history : History := record_submit no_history 7 (map tag example_requests).
Definition one_taken : configuration :=
  (record_next submitted_history 7 submitted, consume_next 7 0 submitted).

Lemma submitted_reachable : reachable ClientOptions_default no_memory (submitted_history, submitted).
Proof.
  eapply rtc_l; [|apply rtc_refl].
  apply (step_submit _ no_history started 7 example_requests ClientOptions_default [5000] submitted KARU_OK).
  - reflexivity.
  - apply example_requests_wf.
  - by split_and!.
  - vm_compute. reflexivity.
Qed.

Lemma one_taken_reachable : reachable ClientOptions_default no_memory one_taken.
Proof.
  eapply rtc_r; [apply submitted_reachable|]. apply step_next. by vm_compute.
Qed.

(** The same batch from the queue to its end: a loop takes the transfer,
    starts it, sees a 206 response and its message, and the consumer takes the
    completion that is there, and those of the two parts as the loop pushes
    them; the loop has not let go of the transfer yet. *)
Definition a_header (line : str) : EngineState -> EngineState :=
  callback 0 0 (on_header (fun _ => 0) (fun _ => None) (fun _ _ => None) line 1
                  (Z.of_nat (length line)) 0).
Definition responded : EngineState :=
  message ClientOptions_default 0 0 (example_done_env CURLE_OK)
    (callback 0 0 (on_body $"abcdefghijklmnopqrst" 1 20 206 20)
       (a_header $"content-range: bytes 0-19/100" (a_header $"HTTP/1.1 206 Partial Content"
          (start_pending ClientOptions_default 0 example_start_env (take_http 0 submitted))))).
Definition take_next (c : configuration) : configuration :=
  (record_next c.1 7 c.2, consume_next 7 0 c.2).
Definition push_next (c : configuration) : configuration := (c.1, close_turn 0 c.2).
Definition all_taken : configuration :=
  take_next (push_next (take_next (push_next (take_next (submitted_history, responded))))).

Lemma all_taken_reachable : reachable ClientOptions_default no_memory all_taken.
Proof.
  unfold all_taken, responded, a_header.
  do 2 (eapply rtc_r; [|apply step_next; by vm_compute]; eapply rtc_r; [|apply step_close_turn]).
  eapply rtc_r; [|apply step_next; by vm_compute].
  eapply rtc_r; [|apply step_message]. eapply rtc_r; [|apply step_body].
  do 2 (eapply rtc_r; [|apply step_header]).
  eapply rtc_r; [|apply step_start_pending; intros l; vm_compute; by intros [= <-]].
  eapply rtc_r; [apply submitted_reachable|apply step_take_http].
Qed.

Lemma reachable_pair o m c : reachable o m c -> reachable o m (c.1, c.2).
Proof. by destruct c. Qed.

Definition batch_of (c : configuration) : karu_batch := default karu_batch_default (batches c.2 !! 7%nat).

Lemma every_request_is_answered_once_witness :
  tags_asked one_taken.1 7 = [13; 0; U64_MAX] /\ tags_taken one_taken.1 7 = [U64_MAX] /\
  tags_asked one_taken.1 7 ≡ₚ
    tags_taken one_taken.1 7 ++ map c_tag (ready_queue (batch_of one_taken))
    ++ tags_of (of_batch 7 (transfers_of one_taken.2)) /\
  live_transfers (batch_of one_taken) = Z.of_nat (length (of_batch 7 (transfers_of one_taken.2))) /\
  pending_parts (batch_of one_taken) = parts_count (of_batch 7 (transfers_of one_taken.2)).
Proof.
  split; [by vm_compute|]. split; [by vm_compute|].
  apply (every_request_is_answered_once ClientOptions_default no_memory one_taken.1 one_taken.2 7).
  - exact (reachable_pair _ _ _ one_taken_reachable).
  - vm_compute. reflexivity.
  - vm_compute. reflexivity.
  - vm_compute. reflexivity.
Defined.

Lemma end_means_everything_delivered_witness :
  next (batch_of all_taken) (-1) = Some (KARU_END, None, batch_of all_taken) /\
  live_transfers (batch_of all_taken) = 1 /\
  tags_asked all_taken.1 7 ≡ₚ tags_taken all_taken.1 7 /\ of_batch 7 (queued all_taken.2) = [] /\
  Forall (fun t => parts t = []) (of_batch 7 (transfers_of all_taken.2)).
Proof.
  assert (Hend : next (batch_of all_taken) (-1) = Some (KARU_END, None, batch_of all_taken))
    by (vm_compute; reflexivity).
  split; [exact Hend|]. split; [vm_compute; reflexivity|].
  assert (Hb : batches all_taken.2 !! 7%nat = Some (batch_of all_taken)) by (vm_compute; reflexivity).
  assert (Hc : cancelled (batch_of all_taken) = false) by (vm_compute; reflexivity).
  assert (Hs : stop all_taken.2 = false) by (vm_compute; reflexivity).
  exact (proj1 (end_means_everything_delivered ClientOptions_default no_memory all_taken.1 all_taken.2 7
    (batch_of all_taken) (-1) (reachable_pair _ _ _ all_taken_reachable) Hb Hc Hs) Hend).
Defined.

(** A cancelled batch whose transfer was still queued. *)
Definition cancelled_engine : EngineState := cancel_http 7 (cancel_queues 7 (cancel_mark 7 submitted)).
Definition cancelling : configuration := (submitted_history, cancelled_engine).
Definition cancelled_later : configuration := (submitted_history, take_http 0 cancelled_engine).

Lemma cancelling_reachable : reachable ClientOptions_default no_memory cancelling.
Proof.
  eapply rtc_r; [|apply step_cancel_http; vm_compute; reflexivity].
  eapply rtc_r; [|apply step_cancel_queues; vm_compute; reflexivity].
  eapply rtc_r; [apply submitted_reachable|apply step_cancel].
Qed.

Lemma cancel_is_final_witness :
  cancel_returns 7 cancelling.2 = true /\
  of_batch 7 (transfers_of cancelled_later.2) = [] /\ cancel_returns 7 cancelled_later.2 = true.
Proof.
  assert (Hc : cancel_returns 7 cancelling.2 = true) by (vm_compute; reflexivity).
  split; [exact Hc|].
  assert (Hs : rtc (step ClientOptions_default) cancelling cancelled_later)
    by exact (rtc_once _ _ (step_take_http _ submitted_history cancelled_engine 0)).
  exact (cancel_is_final ClientOptions_default no_memory cancelling 7 cancelled_later
           cancelling_reachable Hc Hs).
Defined.

Lemma concurrency_is_respected_witness :
  map limit (loops all_taken.2) = [16; 16; 16; 16]%nat /\
  Z.of_nat (sum_list (map in_flight (loops all_taken.2))) <= 64.
Proof.
  split; [vm_compute; reflexivity|].
  apply (concurrency_is_respected ClientOptions_default no_memory all_taken).
  - exact all_taken_reachable.
  - done.
Defined.
