(* ===== verification/Progress.v ===== *)
(** * Progress: a batch comes to its end

    A measure over the schedules of [Schedule]: what the workers of
    [src/src/runtime/engine.cpp] still have to do.  A transfer counts ten for
    each attempt it may still make, one for each of its parts, and a few more
    for how far it is from its next message.  A turn that does something lowers the measure whatever libcurl,
    the servers, the clock and the credential services answer; everything else
    that happens between two such turns does not raise it, and as long as a
    transfer is left, a turn that does something can be made.  So the workers
    are through with every transfer after finitely many turns. *)

From S2P Require Import Prelude Text Uri Types Planner Response Transport Batch Engine System Schedule.

Section Progress.
Context `{RequestBuilding}.
Variable options : ClientOptions.

(** ** The measure *)

(** Transfers at one place of the system, [stage] away from their message. *)
Definition cost (stage : nat) (t : Transfer) : nat :=
  (10 * Z.to_nat (tries_left options t) + stage + length (parts t))%nat.
Definition load (stage : nat) (ts : list Transfer) : nat := sum_list_with (cost stage) ts.
#[local] Arguments cost : simpl never.
#[local] Arguments load : simpl never.

Definition loop_load (l : IoLoop) : nat :=
  (load 5 (pending l) + load 2 (active l) + load 6 (map snd (retry_queue l))
   + load 3 (resolving l) + load 3 (waiting l))%nat.

(** A transfer that ends: a completion for each part left, and to let go. *)
Definition ending (t : Transfer) : nat := S (length (parts t)).
#[local] Arguments ending : simpl never.
Definition closing_load (cs : list Closing) : nat := sum_list_with (fun c => ending (cl_transfer c)) cs.
#[local] Arguments closing_load : simpl never.

Definition workload (e : EngineState) : nat :=
  (load 8 (file_queue e) + load 8 (credential_queue e) + load 6 (http_queue e)
   + load 7 (file_hands e) + load 7 (credential_hands e) + sum_list_with loop_load (loops e)
   + closing_load (closing e))%nat.

(** ** Turns that do something *)

Definition can_start (l : IoLoop) : Prop :=
  waiting l = [] /\ pending l <> [] /\ (length (active l) + length (resolving l) < limit l)%nat.

(** What a worker does when there is something to do.  A loop admits a queued
    transfer, moves a retry that is due, starts a pending transfer or one whose
    host is known, or sees a message; a file or a credential worker takes a
    transfer or is done with one; a worker that ends a transfer pushes its next
    completion or lets go of it. *)
Inductive productive (e : EngineState) : EngineState -> Prop :=
| turn_take_http i l : loops e !! i = Some l -> room_for l <> 0%nat -> http_queue e <> [] ->
    productive e (take_http i e)
| turn_due_retries i l now : loops e !! i = Some l -> Exists (fun r => r.1 <= now) (retry_queue l) ->
    productive e (due_retries i now e)
| turn_restart i l env t rest : loops e !! i = Some l -> waiting l = t :: rest ->
    host_waiting env = false \/ is_cancelled e t = true ->
    productive e (restart_waiting options i env e)
| turn_start i l env : loops e !! i = Some l -> can_start l -> productive e (start_pending options i env e)
| turn_fail_active i l j text : loops e !! i = Some l -> is_Some (active l !! j) ->
    productive e (fail_active i j text e)
| turn_message i l j env : loops e !! i = Some l -> is_Some (active l !! j) ->
    productive e (message options i j env e)
| turn_take_file : file_queue e <> [] -> productive e (take_file e)
| turn_take_credential : stop e = false -> credential_queue e <> [] -> productive e (take_credential e)
| turn_work_file j read_at env : is_Some (file_hands e !! j) ->
    honest e (file_hands e) j (file_cancelled env || file_cancelled_end env) ->
    productive e (work_file j read_at env e)
| turn_work_credential j env : is_Some (credential_hands e !! j) ->
    honest e (credential_hands e) j (cancelled_before env || cancelled_after env) ->
    productive e (work_credential options j env e)
| turn_close k : is_Some (closing e !! k) -> productive e (close_turn k e).

(** Everything else but a submission and the shutdown: callbacks, consumers,
    cancellations, and turns of a loop that leave a transfer waiting for its
    host. *)
Inductive aside : configuration -> configuration -> Prop :=
| aside_next h e id timeout :
    next (default karu_batch_default (batches e !! id)) timeout <> None ->
    aside (h, e) (record_next h id e, consume_next id timeout e)
| aside_discard_cancelled h e i : aside (h, e) (h, discard_cancelled_http i e)
| aside_swap_resolving h e i : aside (h, e) (h, swap_resolving i e)
| aside_restart_waiting h e i env : aside (h, e) (h, restart_waiting options i env e)
| aside_body h e i j data size count code clen :
    aside (h, e) (h, callback i j (on_body data size count code clen) e)
| aside_header h e i j f g k line size count now :
    aside (h, e) (h, callback i j (on_header f g k line size count now) e)
| aside_cancel h e id : aside (h, e) (h, cancel_mark id e)
| aside_cancel_queues h e id : batch_cancelled e id = true -> aside (h, e) (h, cancel_queues id e)
| aside_cancel_http h e id : batch_cancelled e id = true -> aside (h, e) (h, cancel_http id e)
| aside_cancel_wake h e : aside (h, e) (h, cancel_wake e).

(** One more turn that does something, after anything else. *)
Definition advance (c c' : configuration) : Prop :=
  exists c1, rtc aside c c1 /\ c'.1 = c1.1 /\ productive c1.2 c'.2.

Lemma advance_after h e h1 e1 e' : rtc aside (h, e) (h1, e1) -> productive e1 e' -> advance (h, e) (h1, e').
Proof using Type. intros Ha Ht. by exists (h1, e1). Qed.

Lemma advance_now h e e' : productive e e' -> advance (h, e) (h, e').
Proof using Type. by apply advance_after. Qed.

(** ** The measure of lists *)

Lemma load_app k ts us : load k (ts ++ us) = (load k ts + load k us)%nat.
Proof using Type. apply sum_list_with_app. Qed.

Lemma load_single k t : load k [t] = cost k t.
Proof using Type. unfold load. cbn. lia. Qed.

Lemma load_cons k t ts : load k (t :: ts) = (cost k t + load k ts)%nat.
Proof using Type. done. Qed.

#[local] Instance load_proper k : Proper ((≡ₚ) ==> eq) (load k).
Proof using Type. intros ts us E. unfold load. by rewrite E. Qed.

Lemma load_mono k k' ts : (k <= k')%nat -> (load k ts <= load k' ts)%nat.
Proof using Type. intros Hk. unfold load. induction ts as [|t ts IH]; cbn; [done|]. unfold cost in *. lia. Qed.

Lemma load_more k k' ts : ts <> [] -> (k < k')%nat -> (load k ts < load k' ts)%nat.
Proof using Type.
  intros Hts Hk. destruct ts as [|t ts]; [done|]. pose proof (load_mono k k' ts ltac:(lia)).
  rewrite !load_cons. unfold cost. lia.
Qed.

Lemma load_filter k P `{!forall t : Transfer, Decision (P t)} ts : (load k (base.filter P ts) <= load k ts)%nat.
Proof using Type.
  unfold load. induction ts as [|t ts IH]; [done|]. rewrite filter_cons. destruct (decide (P t)); cbn; lia.
Qed.

Lemma load_delete k j t ts : ts !! j = Some t -> load k ts = (cost k t + load k (delete j ts))%nat.
Proof using Type. intros E. by rewrite (delete_Permutation _ _ _ E) at 1. Qed.

Lemma same_tries_cost k t t' : same_job t t' -> same_tries t t' -> cost k t' = cost k t.
Proof using Type. intros (_ & _ & _ & Hp & _) Ht. unfold cost. by rewrite (same_tries_left options _ _ Ht), Hp. Qed.

Lemma same_job_ending t t' : same_job t t' -> ending t' = ending t.
Proof using Type. intros (_ & _ & _ & Hp & _). unfold ending. by rewrite Hp. Qed.

Lemma load_insert k j t u ts : ts !! j = Some t -> same_job t u -> same_tries t u -> load k (<[j := u]> ts) = load k ts.
Proof using Type.
  intros E Hsame Ht. assert (Hj : (j < length ts)%nat) by by eapply lookup_lt_Some.
  rewrite (load_delete k j u (<[j := u]> ts)) by by apply list_lookup_insert_eq.
  by rewrite delete_insert_same, (same_tries_cost _ _ _ Hsame Ht), <-load_delete.
Qed.




(** ** The measure of a state *)

Lemma workload_with_loop i f e l :
  loops e !! i = Some l -> (workload (with_loop i f e) + loop_load l = workload e + loop_load (f l))%nat.
Proof using Type.
  intros Hl. unfold workload, with_loop. cbn -[alter].
  assert (E : forall ls, ls !! i = Some l ->
    (sum_list_with loop_load (alter f i ls) + loop_load l = sum_list_with loop_load ls + loop_load (f l))%nat).
  { clear. intros ls. revert i. induction ls as [|x ls IH]; intros [|i]; cbn; [done|done|intros [= ->]; lia|].
    intros Hx. specialize (IH _ Hx). lia. }
  specialize (E _ Hl). lia.
Qed.

Lemma workload_no_loop i f e : loops e !! i = None -> workload (with_loop i f e) = workload e.
Proof using Type. intros Hl. unfold workload, with_loop. cbn. by rewrite alter_none. Qed.

(** Batches and memory do not count. *)
Lemma workload_same e e' :
  file_queue e' = file_queue e -> credential_queue e' = credential_queue e -> http_queue e' = http_queue e ->
  file_hands e' = file_hands e -> credential_hands e' = credential_hands e -> loops e' = loops e ->
  closing e' = closing e -> workload e' = workload e.
Proof using Type. unfold workload. by intros -> -> -> -> -> -> ->. Qed.

Lemma workload_discard_all ts e : workload (discard_all ts e) = workload e.
Proof using Type. induction ts as [|t ts IH]; [done|]. cbn. fold (discard_all ts e). by rewrite <-IH. Qed.

(** What an outcome costs at most. *)
Definition outcome_cost (out : outcome) : nat :=
  match out with
  | Finish t _ _ => ending t
  | Discard _ => 0
  | ToResolving t => cost 3 t
  | ToActive t => cost 2 t
  | ToPendingFront t => cost 5 t
  | ToCredentialsFront t => cost 8 t
  | ToRetries _ t | ToHttpQueue t => cost 6 t
  end.

Lemma workload_joins i f e k t :
  (forall l, loop_load (f l) = (loop_load l + cost k t)%nat) -> (workload (with_loop i f e) <= workload e + cost k t)%nat.
Proof using Type.
  intros Hf. destruct (loops e !! i) as [l|] eqn:Hl; [|rewrite workload_no_loop by done; lia].
  pose proof (workload_with_loop i f e l Hl). rewrite Hf in *. lia.
Qed.

Lemma workload_dispose i out e : (workload (dispose i out e) <= workload e + outcome_cost out)%nat.
Proof using Type.
  destruct out as [t status text|t|t|t|t|t|due t|t]; cbn [dispose outcome_cost].
  - unfold start_closing. set (e1 := e <| closing := _ |>). rewrite (workload_same e1) by done.
    unfold workload, closing_load, e1. cbn. rewrite sum_list_with_app. cbn. lia.
  - unfold discard. rewrite (workload_same e) by done. lia.
  - apply workload_joins. intros l. unfold loop_load. cbn. rewrite load_app, load_single. lia.
  - apply workload_joins. intros l. unfold loop_load. cbn. rewrite load_app, load_single. lia.
  - apply workload_joins. intros l. unfold loop_load. cbn. rewrite load_cons. lia.
  - unfold workload. cbn. rewrite load_cons. lia.
  - apply workload_joins. intros l. unfold loop_load. cbn. rewrite map_app, load_app. cbn. rewrite load_single. lia.
  - unfold queue_http. destruct (stop e); [unfold discard; rewrite (workload_same e) by done; lia|].
    unfold workload. cbn. rewrite load_app, load_single. lia.
Qed.

(** ** Turns lower it *)

Lemma start_cost env t prepared : (outcome_cost (start_transfer options env t prepared) <= cost 3 t)%nat.
Proof using Type.
  pose proof (start_transfer_same options env t prepared) as [Hj Ht].
  pose proof (start_transfer_outcome options env t prepared) as Ho.
  destruct (start_transfer _ _ _ _); try done; cbn in *;
    rewrite ?(same_tries_cost _ _ _ Hj Ht), ?(same_job_ending _ _ Hj); unfold cost, ending; lia.
Qed.

(** Once the host is known the transfer does not go back to wait for it. *)
Lemma known_host_starts env t :
  host_waiting env = false -> match start_transfer options env t true with ToResolving _ => False | _ => True end.
Proof using Type.
  intros Hh. unfold start_transfer. destruct (thrown env) as [[]|]; [done..|]. destruct (expired _ _); [done|].
  unfold launch_transfer. rewrite Hh, andb_false_r. destruct (_ && _ && _); [done|]. destruct (negb (easy_ok env)); [done|].
  destruct (configure_error env); [done|]. destruct (add_error env); [done|]. by destruct (negb (inserted env)).
Qed.

Lemma restart_cost env t :
  host_waiting env = false -> (outcome_cost (start_transfer options env t true) < cost 3 t)%nat.
Proof using Type.
  intros Hh. pose proof (start_transfer_same options env t true) as [Hj Ht].
  pose proof (start_transfer_outcome options env t true) as Ho. pose proof (known_host_starts env t Hh) as Hk.
  destruct (start_transfer _ _ _ _); try done; cbn in *;
    rewrite ?(same_tries_cost _ _ _ Hj Ht), ?(same_job_ending _ _ Hj); unfold cost, ending; lia.
Qed.

(** A message ends the transfer or uses up an attempt. *)
Lemma message_cost env t b : (outcome_cost (on_done options env t b).1.1 < cost 2 t)%nat.
Proof using Type.
  pose proof (on_done_same options env t b) as Hs. destruct (on_done _ _ _ _) as [[out b'] inval].
  destruct Hs as [Hj Hs]. pose proof (tries_left_nonneg options t). pose proof (same_job_ending _ _ Hj) as Hp.
  destruct out as [u ? ?|u|u|u|u|u|? u|u]; try done; cbn in *; unfold cost, ending in *; try lia;
    pose proof (tries_left_nonneg options u); lia.
Qed.

Lemma credential_cost env t : (outcome_cost (credential_work options env t) < cost 7 t)%nat.
Proof using Type.
  pose proof (credential_work_same options env t) as [Hj Ht]. pose proof (credential_work_outcome options env t) as Ho.
  destruct (credential_work _ _ _); try done; cbn in *;
    rewrite ?(same_tries_cost _ _ _ Hj Ht), ?(same_job_ending _ _ Hj); unfold cost, ending; lia.
Qed.

(** A transfer leaves its place, and what becomes of it costs less. *)
Lemma dispose_lowers i out e e1 c :
  (workload e1 + c = workload e)%nat -> (outcome_cost out < c)%nat -> (workload (dispose i out e1) < workload e)%nat.
Proof using Type. intros E Ho. pose proof (workload_dispose i out e1). lia. Qed.

Lemma leave_cost i f e l c :
  loops e !! i = Some l -> loop_load l = (loop_load (f l) + c)%nat -> (workload (with_loop i f e) + c = workload e)%nat.
Proof using Type. intros Hl Hf. pose proof (workload_with_loop i f e l Hl). lia. Qed.

Lemma active_load j t l : active l !! j = Some t ->
  loop_load l = (loop_load (l <| active := delete j (active l) |>) + cost 2 t)%nat.
Proof using Type. intros Hj. unfold loop_load. cbn. rewrite (load_delete _ _ _ _ Hj). lia. Qed.

Lemma take_http_lowers i l e :
  loops e !! i = Some l -> room_for l <> 0%nat -> http_queue e <> [] -> (workload (take_http i e) < workload e)%nat.
Proof using Type.
  intros Hl Hroom Hq. unfold take_http. rewrite Hl. set (taken := take (room_for l) (http_queue e)).
  set (e0 := e <| http_queue := _ |>).
  set (f := fun l : IoLoop => _). pose proof (workload_with_loop i f e0 l Hl) as E.
  assert (Hf : (loop_load (f l) = loop_load l + load 5 taken)%nat).
  { unfold loop_load, f. cbn. rewrite load_app. fold taken. lia. }
  assert (E0 : (workload e0 + load 6 taken = workload e)%nat).
  { unfold workload, e0, taken. cbn. rewrite <-(take_drop (room_for l) (http_queue e)) at 3. rewrite load_app. lia. }
  assert (load 5 taken < load 6 taken)%nat.
  { apply load_more; [|lia]. unfold taken. by destruct (room_for l), (http_queue e). }
  lia.
Qed.

Lemma due_retries_load (P : Z * Transfer -> Prop) `{!forall r, Decision (P r)} (rs : list (Z * Transfer)) :
  Exists P rs ->
  (load 5 (map snd (base.filter P rs)) + load 6 (map snd (base.filter (fun r => ~ P r) rs)) < load 6 (map snd rs))%nat.
Proof using Type.
  assert (E : (load 6 (map snd (base.filter P rs)) + load 6 (map snd (base.filter (fun r => ~ P r) rs)) = load 6 (map snd rs))%nat).
  { induction rs as [|r rs IH]; [done|]. rewrite !filter_cons. destruct (decide (P r)), (decide (~ P r)); try done;
      cbn [map]; rewrite !load_cons; lia. }
  intros Hx. enough (load 5 (map snd (base.filter P rs)) < load 6 (map snd (base.filter P rs)))%nat by lia.
  apply load_more; [|lia]. intros Hnil%map_eq_nil. apply Exists_exists in Hx as (r & Hr & HP).
  assert (Hin : r ∈ base.filter P rs) by by apply list_elem_of_filter. by rewrite Hnil in Hin; apply elem_of_nil in Hin.
Qed.

(** A transfer of the system has its batch. *)
Lemma has_batch h e t : inv h e -> t ∈ transfers_of e -> is_Some (batches e !! t_batch t).
Proof using Type.
  intros [Hb _ _] (us & vs & E)%list_elem_of_split. apply (books_batch h e t (us ++ vs)).
  apply (books_perm h e (transfers_of e)); [|done]. rewrite E. by rewrite Permutation_middle.
Qed.

Lemma in_loop e i l t : loops e !! i = Some l -> t ∈ loop_transfers l -> t ∈ transfers_of e.
Proof using Type.
  intros Hl Ht. destruct (transfers_with_loop _ _ _ Hl) as (rest & E & _). rewrite E. apply elem_of_app. by left.
Qed.

Lemma message_lowers h i l j env e :
  inv h e -> loops e !! i = Some l -> is_Some (active l !! j) -> (workload (message options i j env e) < workload e)%nat.
Proof using Type.
  intros Hinv Hl [t Hj]. unfold message. rewrite Hl, Hj.
  destruct (has_batch h e t Hinv) as [b Hb].
  { apply (in_loop e i l); [done|]. unfold loop_transfers. rewrite !elem_of_app. right. left. by eapply list_elem_of_lookup_2. }
  rewrite Hb. pose proof (message_cost env t b) as Hc. destruct (on_done options env t b) as [[out b'] inval].
  eapply dispose_lowers; [|exact Hc]. set (e0 := e <| batches := _ |>). change (workload e) with (workload e0).
  by apply (leave_cost _ _ _ l); [|apply active_load].
Qed.

Lemma work_file_lowers h j read_at env e :
  inv h e -> is_Some (file_hands e !! j) -> (workload (work_file j read_at env e) < workload e)%nat.
Proof using Type.
  intros Hinv [t Hj]. unfold work_file. rewrite Hj.
  destruct (has_batch h e t Hinv) as [b Hb].
  { unfold transfers_of, queued. rewrite !elem_of_app. left. do 3 right. left. by eapply list_elem_of_lookup_2. }
  rewrite Hb. pose proof (file_work_outcome read_at env t (e_memory e) b) as [Hsame Ho].
  destruct (file_work _ _ _ _ _) as [[out m] b']. apply (dispose_lowers _ _ _ _ (cost 7 t)).
  - unfold workload. cbn. rewrite (load_delete 7 _ _ _ Hj). lia.
  - cbn in Ho, Hsame. pose proof (same_job_ending _ _ Hsame) as Hp.
    destruct out; try done; cbn in *; unfold cost, ending in *; lia.
Qed.

Lemma closing_sum_delete cs k c : cs !! k = Some c ->
  closing_load cs = (ending (cl_transfer c) + closing_load (delete k cs))%nat.
Proof using Type. intros Hk. unfold closing_load. by rewrite (delete_Permutation _ _ _ Hk) at 1. Qed.

Lemma close_lowers h k e : inv h e -> is_Some (closing e !! k) -> (workload (close_turn k e) < workload e)%nat.
Proof using Type.
  intros Hinv [c Hk]. destruct (has_batch h e (cl_transfer c) Hinv) as [b Hb].
  { rewrite (closing_split _ _ _ Hk). by left. }
  unfold close_turn. rewrite Hk. cbv zeta. rewrite Hb. pose proof (closing_sum_delete _ _ _ Hk) as E.
  destruct (parts (cl_transfer c)) as [|p ps] eqn:Hp.
  - unfold workload. cbn. rewrite E. unfold ending. lia.
  - destruct (deliver_part _ _ _ _ _) as [completion m]. unfold workload. cbn -[closing_load].
    rewrite E. unfold closing_load at 1. rewrite (closing_insert _ _ _ _ Hk). unfold closing_load, ending. cbn. rewrite Hp. cbn. lia.
Qed.

Lemma turn_lowers h e e' : inv h e -> productive e e' -> (workload e' < workload e)%nat.
Proof using Type.
  intros Hinv. destruct 1 as [i l Hl Hroom Hq|i l now Hl Hdue|i l env t rest Hl Hw Hhost|i l env Hl (Hw & Hp & Hslot)
    |i l j text Hl [t Hj]|i l j env Hl [t Hj]|Hq|Hs Hq|j read_at env [t Hj] _|j env [t Hj] _|k Hk].
  - by apply (take_http_lowers i l).
  - unfold due_retries. pose proof (due_retries_load _ _ Hdue).
    set (f := fun l : IoLoop => _). pose proof (workload_with_loop i f e l Hl) as E.
    assert (Hf : (loop_load (f l) < loop_load l)%nat) by (unfold loop_load, f; cbn; rewrite load_app; lia). lia.
  - unfold restart_waiting. rewrite Hl, Hw. set (f := fun l : IoLoop => _).
    assert (E : (workload (with_loop i f e) + cost 3 t = workload e)%nat).
    { apply (leave_cost _ _ _ l); [done|]. unfold loop_load, f. cbn. rewrite Hw, load_cons. lia. }
    change (is_cancelled (with_loop i f e) t) with (is_cancelled e t).
    destruct (is_cancelled e t) eqn:Ec; [apply (dispose_lowers i (Discard t) _ _ _ E); cbn; unfold cost; lia|].
    destruct Hhost as [Hhost|]; [|done]. apply (dispose_lowers _ _ _ _ _ E), restart_cost, Hhost.
  - unfold start_pending. rewrite Hl, (proj2 (Nat.ltb_lt _ _) Hslot). destruct (pending l) as [|t rest] eqn:Ep; [done|].
    set (f := fun l : IoLoop => _). assert (E : (workload (with_loop i f e) + cost 5 t = workload e)%nat).
    { apply (leave_cost _ _ _ l); [done|]. unfold loop_load, f. cbn. rewrite Ep, load_cons. lia. }
    destruct (is_cancelled _ t); [apply (dispose_lowers i (Discard t) _ _ _ E); cbn; unfold cost; lia|].
    apply (dispose_lowers _ _ _ _ _ E). pose proof (start_cost env t false). unfold cost in *. lia.
  - unfold fail_active. rewrite Hl, Hj.
    eapply dispose_lowers; [by apply (leave_cost _ _ _ l); [|by apply active_load]|]. cbn. unfold cost, ending. lia.
  - apply (message_lowers h i l); [done|done|by eexists].
  - unfold take_file. destruct (file_queue e) as [|t rest] eqn:E; [done|]. unfold workload. cbn.
    rewrite E, load_app, load_single, load_cons. unfold cost. lia.
  - unfold take_credential. rewrite Hs. destruct (credential_queue e) as [|t rest] eqn:E; [done|]. unfold workload. cbn.
    rewrite E, load_app, load_single, load_cons. unfold cost. lia.
  - apply (work_file_lowers h); [done|by eexists].
  - unfold work_credential. rewrite Hj. eapply dispose_lowers; [|apply credential_cost].
    unfold workload, closing_load. cbn. rewrite (load_delete _ _ _ _ Hj). lia.
  - by apply (close_lowers h).
Qed.

(** ** Nothing else raises it *)

Lemma load_filter_snd k (P : Z * Transfer -> Prop) `{!forall r, Decision (P r)} rs :
  (load k (map snd (base.filter P rs)) <= load k (map snd rs))%nat.
Proof using Type.
  induction rs as [|r rs IH]; [done|]. rewrite filter_cons. destruct (decide (P r)); cbn [map]; rewrite !load_cons; lia.
Qed.

Lemma with_loop_keeps i f e :
  (forall l, (loop_load (f l) <= loop_load l)%nat) -> (workload (with_loop i f e) <= workload e)%nat.
Proof using Type.
  intros Hf. destruct (loops e !! i) as [l|] eqn:Hl; [|by rewrite workload_no_loop].
  pose proof (workload_with_loop i f e l Hl). specialize (Hf l). lia.
Qed.

Lemma discard_cancelled_keeps i e : (workload (discard_cancelled_http i e) <= workload e)%nat.
Proof using Type.
  unfold discard_cancelled_http. destruct (loops e !! i) as [l|] eqn:Hl; [|done]. rewrite workload_discard_all.
  set (f := fun l : IoLoop => _). apply with_loop_keeps. intros l'. unfold loop_load, f. cbn.
  pose proof (load_filter 5 (fun t => negb (is_cancelled e t)) (pending l')).
  pose proof (load_filter 2 (fun t => negb (is_cancelled e t)) (active l')).
  pose proof (load_filter 3 (fun t => negb (is_cancelled e t)) (resolving l')).
  pose proof (load_filter_snd 6 (fun r => negb (is_cancelled e r.2)) (retry_queue l')).
  unfold keep_live. lia.
Qed.

Lemma callback_keeps i j f e :
  (forall t m, same_job t (f t m).1.1 /\ same_tries t (f t m).1.1) -> (workload (callback i j f e) <= workload e)%nat.
Proof using Type.
  intros Hf. unfold callback. destruct (loops e !! i) as [l|] eqn:Hl; [|done].
  destruct (active l !! j) as [t|] eqn:Hj; [|done]. destruct (Hf t (e_memory e)) as [Hsame Htries].
  destruct (f t (e_memory e)) as [[u m] n]. cbn in Hsame, Htries. set (g := fun l : IoLoop => _). set (e0 := e <| e_memory := m |>).
  rewrite (workload_same (with_loop i g e0)) by done. pose proof (workload_with_loop i g e0 l Hl) as E.
  assert (Hg : loop_load (g l) = loop_load l) by (unfold loop_load, g; cbn; by rewrite (load_insert 2 _ _ _ _ Hj Hsame Htries)).
  change (workload e) with (workload e0). lia.
Qed.

Lemma restart_keeps i env e : (workload (restart_waiting options i env e) <= workload e)%nat.
Proof using Type.
  unfold restart_waiting. destruct (loops e !! i) as [l|] eqn:Hl; [|done]. destruct (waiting l) as [|t rest] eqn:Hw; [done|].
  set (f := fun l : IoLoop => _). assert (E : (workload (with_loop i f e) + cost 3 t = workload e)%nat).
  { apply (leave_cost _ _ _ l); [done|]. unfold loop_load, f. cbn. rewrite Hw, load_cons. lia. }
  destruct (is_cancelled _ t); [unfold discard; rewrite (workload_same (with_loop i f e)) by done; lia|].
  pose proof (workload_dispose i (start_transfer options env t true) (with_loop i f e)). pose proof (start_cost env t true). lia.
Qed.

Lemma aside_keeps c c' : aside c c' -> (workload c'.2 <= workload c.2)%nat.
Proof using Type.
  destruct 1; cbn [fst snd].
  - unfold consume_next. destruct (batches e !! id) as [b|]; [|done]. destruct (next b timeout) as [[[? ?] ?]|]; [|done].
    by rewrite (workload_same e).
  - apply discard_cancelled_keeps.
  - apply with_loop_keeps. intros l. unfold loop_load. cbn. rewrite load_app. unfold load. cbn. lia.
  - apply restart_keeps.
  - apply callback_keeps. intros t m. apply write_callback_same.
  - apply callback_keeps. intros t m. apply header_callback_same.
  - unfold cancel_mark. by rewrite (workload_same e).
  - unfold cancel_queues. rewrite workload_discard_all. unfold workload, others. cbn.
    pose proof (load_filter 8 (fun t => t_batch t <> id) (file_queue e)).
    pose proof (load_filter 8 (fun t => t_batch t <> id) (credential_queue e)). lia.
  - unfold cancel_http. rewrite workload_discard_all. unfold workload, others. cbn.
    pose proof (load_filter 6 (fun t => t_batch t <> id) (http_queue e)). lia.
  - unfold cancel_wake, workload. cbn. enough (E : forall ls,
      sum_list_with loop_load (map (fun l => l <| cancellation_pending := true |>) ls) = sum_list_with loop_load ls) by (rewrite E; lia).
    induction ls as [|l ls IH]; [done|]. cbn. by rewrite IH.
Qed.

(** ** These are steps of the schedule, and the engine keeps running *)

Lemma aside_step c c' : aside c c' -> step options c c'.
Proof using Type. destruct 1; by constructor. Qed.

Lemma turn_step h e e' : productive e e' -> step options (h, e) (h, e').
Proof using Type.
  destruct 1 as [| | |i l env Hl (Hw & _)| | | | | | |]; try by constructor.
  constructor. intros l' Hl'. rewrite Hl in Hl'. by injection Hl' as <-.
Qed.

Lemma stop_discard_all ts e : stop (discard_all ts e) = stop e.
Proof using Type. induction ts as [|t ts IH]; [done|]. exact IH. Qed.

Lemma stop_dispose i out e : stop (dispose i out e) = stop e.
Proof using Type.
  destruct out as [t ? ?|t|t|t|t|t|? t|t]; cbn [dispose]; try done.
  - unfold queue_http. by destruct (stop e) eqn:Es.
Qed.

Lemma stop_callback i j f e : stop (callback i j f e) = stop e.
Proof using Type.
  unfold callback. destruct (loops e !! i); [|done]. destruct (active _ !! j); [|done]. by destruct (f _ _) as [[? ?] ?].
Qed.

Lemma stop_restart i env e : stop (restart_waiting options i env e) = stop e.
Proof using Type.
  unfold restart_waiting. destruct (loops e !! i); [|done]. destruct (waiting _); [done|].
  destruct (is_cancelled _ _); [done|]. by rewrite stop_dispose.
Qed.

Lemma stop_aside c c' : aside c c' -> stop c'.2 = stop c.2.
Proof using Type.
  destruct 1; cbn [fst snd]; try done; rewrite ?stop_discard_all, ?stop_callback, ?stop_restart; try done.
  - unfold consume_next. destruct (batches e !! id); [|done]. by destruct (next _ _) as [[[? ?] ?]|].
  - unfold discard_cancelled_http. destruct (loops e !! i); [|done]. by rewrite stop_discard_all.
  - unfold cancel_queues. by rewrite stop_discard_all.
  - unfold cancel_http. by rewrite stop_discard_all.
Qed.

#[local] Ltac cases :=
  repeat match goal with |- context [match ?x with _ => _ end] => destruct x eqn:?; try done end.

Lemma stop_turn e e' : productive e e' -> stop e' = stop e.
Proof using Type.
  destruct 1; try done; try apply stop_restart;
    unfold take_http, start_pending, fail_active, message, take_file, take_credential, work_file, work_credential,
      close_turn; cases; by rewrite stop_dispose.
Qed.

(** ** As long as a transfer is left, something can be done *)

Lemma someone_can_start e h i l t :
  inv h e -> loops e !! i = Some l -> (1 <= limit l)%nat -> t ∈ loop_transfers l ->
  exists c e', rtc aside (h, e) c /\ c.1 = h /\ productive c.2 e'.
Proof using Type.
  intros Hinv Hl Hlim Ht.
  assert (Hhere : forall e', productive e e' -> exists c e', rtc aside (h, e) c /\ c.1 = h /\ productive c.2 e').
  { intros e' Hturn. exists (h, e), e'. done. }
  destruct (active l) as [|u us] eqn:Ea.
  2: { apply (Hhere (message options i 0 (example_done_env CURLE_OK) e)), (turn_message _ _ l); [done|]. rewrite Ea. by eexists. }
  destruct (waiting l) as [|u us] eqn:Ew.
  2: { apply (Hhere (restart_waiting options i example_start_env e)), (turn_restart _ _ l _ u us); [done..|by left]. }
  destruct (resolving l) as [|u us] eqn:Er.
  2: { eexists (h, swap_resolving i e), _. split; [apply rtc_once; constructor|]. split; [done|].
    eapply (turn_restart _ i _ example_start_env u us); [by apply with_loop_lookup|cbn; by rewrite Ew, Er|by left]. }
  destruct (pending l) as [|u us] eqn:Ep.
  2: { apply (Hhere (start_pending options i example_start_env e)), (turn_start _ _ l); [done|].
    split_and!; [done|by rewrite Ep|rewrite Ea, Er; cbn; lia]. }
  destruct (retry_queue l) as [|[due u] us] eqn:Eq.
  2: { apply (Hhere (due_retries i due e)), (turn_due_retries _ _ l); [done|]. rewrite Eq. apply Exists_cons_hd. cbn. lia. }
  unfold loop_transfers in Ht. rewrite Ea, Ew, Er, Ep, Eq in Ht. by apply elem_of_nil in Ht.
Qed.

(** The loops have nothing: the queues and the hands of the workers. *)
Lemma someone_can_take e h :
  inv h e -> stop e = false -> List.concat (map loop_transfers (loops e)) = [] ->
  (exists l, loops e !! 0%nat = Some l /\ (1 <= limit l)%nat) -> transfers_of e <> [] ->
  exists e', productive e e'.
Proof using Type.
  intros Hinv Hrun Hnone (l & Hl & Hlim) Hsome.
  destruct (closing e) as [|c cs] eqn:Ecl; [|eexists; apply (turn_close _ 0); rewrite Ecl; by eexists].
  destruct (file_queue e) as [|t ts] eqn:Ef; [|eexists; apply turn_take_file; by rewrite Ef].
  destruct (credential_queue e) as [|t ts] eqn:Ec; [|eexists; apply turn_take_credential; by rewrite ?Ec].
  destruct (file_hands e) as [|t ts] eqn:Efh.
  2: { eexists. apply (turn_work_file _ 0 (fun _ _ => Err []) {| file_cancelled := false; file_alloc := [];
         open_error := None; file_cancelled_at := fun _ => false; file_cancelled_end := false |}); rewrite Efh; [by eexists|done]. }
  destruct (credential_hands e) as [|t ts] eqn:Ech.
  2: { eexists. apply (turn_work_credential _ 0 {| cancelled_before := false; cancelled_after := false;
         now_lookup := 0; now_resolved := 0; cred_thrown := None |}); rewrite Ech; [by eexists|done]. }
  assert (Hempty : loop_transfers l = []).
  { destruct (loop_transfers l) as [|t ts] eqn:E; [done|]. destruct (loops_split _ _ _ Hl) as (rest & H1 & _).
    rewrite E, Hnone in H1. by apply Permutation_nil_l in H1. }
  unfold loop_transfers in Hempty. apply app_eq_nil in Hempty as [Hp Hempty].
  apply app_eq_nil in Hempty as [Ha Hempty]. apply app_eq_nil in Hempty as [_ [Hr _]%app_eq_nil].
  eexists. apply (turn_take_http _ 0 l); [done| |].
  - unfold room_for. rewrite Hp, Ha, Hr. cbn. lia.
  - intros Hq. apply Hsome. unfold transfers_of, queued. by rewrite Ef, Ec, Efh, Ech, Hq, Hnone, Ecl.
Qed.

(** Every loop of a reachable engine has a slot, and there is a loop. *)
Lemma reachable_loops m c :
  reachable options m c -> 1 <= concurrency options ->
  (forall i l, loops c.2 !! i = Some l -> (1 <= limit l)%nat) /\ exists l, loops c.2 !! 0%nat = Some l.
Proof using Type.
  intros Hr Hc. destruct (steps_settle _ _ _ Hr) as [Hlim _]. cbn [snd] in Hlim.
  pose proof (limits_positive options m Hc) as Hpos. rewrite <-Hlim in Hpos. split.
  - intros i l Hl. rewrite Forall_map, Forall_forall in Hpos. by apply Hpos; eapply list_elem_of_lookup_2.
  - apply (f_equal length) in Hlim. cbn in Hlim. rewrite !length_map, length_seq in Hlim.
    pose proof (loop_count_bounds options). apply lookup_lt_is_Some. lia.
Qed.

Lemma work_is_possible m c :
  reachable options m c -> stop c.2 = false -> 1 <= concurrency options -> transfers_of c.2 <> [] ->
  exists c', advance c c'.
Proof using Type.
  intros Hr Hrun Hc Hsome. pose proof (reachable_inv _ _ _ Hr) as Hinv.
  destruct (reachable_loops _ _ Hr Hc) as [Hlim [l0 Hl0]]. destruct c as [h e]. cbn [fst snd] in *.
  assert (Hlift : (exists c e', rtc aside (h, e) c /\ c.1 = h /\ productive c.2 e') -> exists c', advance (h, e) c').
  { intros (c & e' & Ha & <- & Ht). exists (c.1, e'), c. done. }
  destruct (List.concat (map loop_transfers (loops e))) as [|t ts] eqn:E.
  - destruct (someone_can_take e h Hinv Hrun E) as [e' Ht]; [eauto|done|]. exists (h, e'), (h, e). done.
  - assert (Hin : t ∈ List.concat (map loop_transfers (loops e))) by (rewrite E; by left).
    apply list_elem_of_In, in_concat in Hin as (us & (l & <- & Hl%list_elem_of_In)%in_map_iff & Ht%list_elem_of_In).
    apply list_elem_of_lookup in Hl as [i Hl]. apply Hlift. by apply (someone_can_start e h i l t); eauto.
Qed.

(** ** Putting turns together *)

Lemma asides_keep c c' : rtc aside c c' ->
  rtc (step options) c c' /\ (workload c'.2 <= workload c.2)%nat /\ stop c'.2 = stop c.2.
Proof using Type.
  induction 1 as [c|c c1 c2 Ha _ (IH1 & IH2 & IH3)]; [done|].
  pose proof (aside_keeps _ _ Ha). pose proof (stop_aside _ _ Ha).
  split_and!; [eapply rtc_l; [by apply aside_step|done]|lia|congruence].
Qed.

Lemma advance_lowers m c c' : reachable options m c -> advance c c' ->
  reachable options m c' /\ (workload c'.2 < workload c.2)%nat /\ stop c'.2 = stop c.2.
Proof using Type.
  intros Hr ([h1 e1] & Ha & E & Ht). destruct c' as [h' e']. cbn [fst snd] in *. subst h'.
  destruct (asides_keep _ _ Ha) as (Hs & Hle & Hstop). cbn [snd] in Hle, Hstop.
  assert (Hr1 : reachable options m (h1, e1)) by exact (rtc_trans _ _ _ Hr Hs).
  split_and!.
  - eapply rtc_r; [exact Hr1|by apply turn_step].
  - pose proof (turn_lowers h1 e1 e' (reachable_inv _ _ _ Hr1) Ht). lia.
  - by rewrite (stop_turn _ _ Ht).
Qed.

Lemma advances_lower m n c c' : reachable options m c -> nsteps advance n c c' ->
  reachable options m c' /\ (workload c'.2 + n <= workload c.2)%nat /\ stop c'.2 = stop c.2.
Proof using Type.
  intros Hr Hn. revert Hr. induction Hn as [c|n c c1 c2 Ha _ IH]; intros Hr; [split_and!; [done|lia|done]|].
  destruct (advance_lowers _ _ _ Hr Ha) as (Hr1 & Hlt & Hs1). destruct (IH Hr1) as (Hr2 & Hle & Hs2).
  split_and!; [done|lia|congruence].
Qed.

(** Without a transfer in the system, the books say that all is answered. *)
Lemma empty_is_answered h e id b :
  inv h e -> stop e = false -> transfers_of e = [] -> batches e !! id = Some b ->
  live_transfers b = 0 /\
  (cancelled b = false -> pending_parts b = 0 /\ tags_asked h id ≡ₚ tags_taken h id ++ map c_tag (ready_queue b)).
Proof using Type.
  intros [Hb _ _] Hs He Hid. specialize (Hb id). rewrite Hid, He in Hb. destruct Hb as (H1 & _ & H3).
  split; [exact H1|]. intros Hc. destruct (H3 Hc Hs) as [Hp Ht]. cbn in Hp, Ht. rewrite app_nil_r in Ht. done.
Qed.

(** ** Property *)

(** C9: every batch comes to its end: while the engine runs, its workers can
    make only as many turns that do something as the measure of the work counts,
    whatever libcurl, the servers, the clock and the credential services answer
    and whatever callbacks, cancellations and consumers come in between; until
    then there is always such a turn to make (for a transfer that waits for its
    host once the resolver answered, as it does within bounded time), and in the
    end no transfer is left, a cancelled batch can be let go of, and every
    request of any other batch is handed out or waits in the batch's queue. *)
Theorem every_batch_comes_to_its_end m c n c' :
  reachable options m c -> stop c.2 = false -> 1 <= concurrency options -> nsteps advance n c c' ->
  (n <= workload c.2)%nat /\
  ((exists c'', advance c' c'') \/
   transfers_of c'.2 = [] /\
   forall id b, batches c'.2 !! id = Some b ->
     live_transfers b = 0 /\
     (cancelled b = false -> pending_parts b = 0 /\
        tags_asked c'.1 id ≡ₚ tags_taken c'.1 id ++ map c_tag (ready_queue b))).
Proof using Type.
  intros Hr Hrun Hc Hn. destruct (advances_lower _ _ _ _ Hr Hn) as (Hr' & Hle & Hs). rewrite Hrun in Hs.
  split; [lia|]. destruct (transfers_of c'.2) as [|t ts] eqn:E.
  - right. split; [done|]. intros id b Hb. by apply (empty_is_answered c'.1 c'.2); [by eapply reachable_inv|..].
  - left. apply (work_is_possible m); [done|done|done|by rewrite E].
Qed.
End Progress.

(** ** Witness *)

#[local] Existing Instance example_builder.

(** The batch of [submitted] from the queue to its end: the loop takes the
    transfer, starts it, sees its message after the callbacks of a response,
    pushes the completions of its two parts and lets go of it. *)
Definition launched : EngineState := start_pending ClientOptions_default 0 example_start_env (take_http 0 submitted).
Definition status_line : str := $"HTTP/1.1 206 Partial Content".
Definition content_range_line : str := $"content-range: bytes 0-19/100".
Definition filled : EngineState :=
  callback 0 0 (on_body $"abcdefghijklmnopqrst" 1 20 206 20) (a_header content_range_line (a_header status_line launched)).

Definition ended : EngineState := message ClientOptions_default 0 0 (example_done_env CURLE_OK) filled.

Definition pushed : EngineState := close_turn 0 ended.
Definition pushed_both : EngineState := close_turn 0 pushed.
Definition let_go : EngineState := close_turn 0 pushed_both.

Lemma headed line e : aside ClientOptions_default (submitted_history, e) (submitted_history, a_header line e).
Proof. apply aside_header. Qed.

Lemma callbacks_of_launched : rtc (aside ClientOptions_default) (submitted_history, launched) (submitted_history, filled).
Proof.
  eapply rtc_l; [exact (headed status_line launched)|]. eapply rtc_l; [exact (headed content_range_line _)|].
  apply rtc_once. exact (aside_body _ submitted_history _ 0 0 $"abcdefghijklmnopqrst" 1 20 206 20).
Qed.

Lemma submitted_taken : advance ClientOptions_default (submitted_history, submitted) (submitted_history, take_http 0 submitted).
Proof.
  apply advance_now, (turn_take_http _ submitted 0 (new_loop ClientOptions_default 0)); [vm_compute; reflexivity|vm_compute; discriminate..].
Qed.

Lemma taken_launched : advance ClientOptions_default (submitted_history, take_http 0 submitted) (submitted_history, launched).
Proof.
  apply advance_now. unfold launched. eapply turn_start; [vm_compute; reflexivity|].
  split; [vm_compute; reflexivity|]. split; [vm_compute; discriminate|vm_compute; lia].
Qed.

Lemma launched_ended : advance ClientOptions_default (submitted_history, launched) (submitted_history, ended).
Proof.
  apply (advance_after _ _ _ _ filled _ callbacks_of_launched).
  unfold ended. eapply turn_message; [vm_compute; reflexivity|eexists; vm_compute; reflexivity].
Qed.

Lemma close_advances e : is_Some (closing e !! 0%nat) ->
  advance ClientOptions_default (submitted_history, e) (submitted_history, close_turn 0 e).
Proof. intros Hk. by apply advance_now, turn_close. Qed.

Lemma ended_pushed : advance ClientOptions_default (submitted_history, ended) (submitted_history, pushed).
Proof. apply close_advances. eexists. vm_compute. reflexivity. Qed.

Lemma pushed_twice : advance ClientOptions_default (submitted_history, pushed) (submitted_history, pushed_both).
Proof. apply close_advances. eexists. vm_compute. reflexivity. Qed.

Lemma pushed_let_go : advance ClientOptions_default (submitted_history, pushed_both) (submitted_history, let_go).
Proof. apply close_advances. eexists. vm_compute. reflexivity. Qed.

Lemma submitted_ends : nsteps (advance ClientOptions_default) 6 (submitted_history, submitted) (submitted_history, let_go).
Proof.
  refine (nsteps_l _ _ _ _ _ submitted_taken (nsteps_l _ _ _ _ _ taken_launched (nsteps_l _ _ _ _ _ launched_ended _))).
  exact (nsteps_l _ _ _ _ _ ended_pushed (nsteps_l _ _ _ _ _ pushed_twice (nsteps_once _ _ pushed_let_go))).
Qed.

Lemma every_batch_comes_to_its_end_witness :
  workload ClientOptions_default submitted = 98%nat /\ transfers_of let_go = [] /\
  (6 <= workload ClientOptions_default submitted)%nat.
Proof.
  split; [vm_compute; reflexivity|]. split; [vm_compute; reflexivity|].
  exact (proj1 (every_batch_comes_to_its_end ClientOptions_default no_memory (submitted_history, submitted) 6
    (submitted_history, let_go) submitted_reachable ltac:(vm_compute; reflexivity) ltac:(done) submitted_ends)).
Defined.
