(* ===== verification/Places.v ===== *)
(** * Places: what holds of a transfer wherever it is

    The handlers of [src/src/runtime/engine.cpp] and the callbacks of
    [src/src/runtime/transport.cpp], seen from the bytes they are to deliver.
    A transfer is queued for a file worker, at rest before its next attempt,
    prepared and waiting for its host, in an attempt, or ending with some of
    its completions still to be pushed; [holds] says for each
    of these places what its fields and the memory of its buffers satisfy, and
    the lemmas show that every handler hands its transfer on in the state the
    next place needs.  What the servers and the file system answer is honest
    ([honest_body], [reads_object]): the bytes they send are the object's. *)

From S2P Require Import Prelude Text Uri Types Planner Response Transport Batch Engine.

Section Places.
Context `{RequestBuilding}.
Variable options : ClientOptions.

(** The bytes of the objects and of the local files. *)
Variable obj : Backend -> str -> object_bytes.
Definition object_of (l : Locator) : object_bytes := obj (backend l) (canonical_uri l).

(** ** The data of a transfer *)

(** What was received is in place, and an attempt that follows has bytes left
    to ask for. *)
Record loaded (t : Transfer) (m : memory) : Prop := {
  ld_shape : well_shaped t;
  ld_apart : StronglySorted apart (parts t);
  ld_scratch : scratch t = None;
  ld_resumed : 0 <= resumed t <= received t;
  ld_received : received t <= t_length t;
  ld_partial : resumed t < t_length t;
  ld_delivered : delivered (object_of (t_locator t)) t m;
}.

(** A transfer that can end, with whatever status, or is at it. *)
Record finishable (t : Transfer) (m : memory) : Prop := {
  fi_shape : deliverable t;
  fi_apart : StronglySorted apart (parts t);
  fi_received : 0 <= received t <= t_length t;
  fi_staged : staged (object_of (t_locator t)) t m;
}.

(** Outside [file_work] no transfer has a staging area. *)
Definition ends (t : Transfer) (m : memory) : Prop := finishable t m /\ scratch t = None.

(** The memory a transfer needs: the buffers of its parts and its staging
    area. *)
Definition staging (t : Transfer) : list Part :=
  match scratch t with
  | Some s => [{| relative_offset := 0; p_length := t_length t; p_buffer := s; p_tag := 0; owned_buffer := 0 |}]
  | None => []
  end.
Definition spaces (t : Transfer) : list Part := parts t ++ staging t.

Lemma spaces_parts t : scratch t = None -> spaces t = parts t.
Proof using Type. intros Hs. unfold spaces, staging. by rewrite Hs, app_nil_r. Qed.

(** The same transfer with the same bytes. *)
Definition same_data (t t' : Transfer) : Prop :=
  same_job t t' /\ received t' = received t /\ resumed t' = resumed t /\ scratch t' = scratch t.

(** The same transfer after an attempt: bytes are kept for the next one or
    given up. *)
Definition retains (t t' : Transfer) : Prop :=
  same_job t t' /\ sink t' = sink t /\ received t' = received t /\ scratch t' = scratch t /\
  (resumed t' = resumed t \/ resumed t' = 0 \/ resumed t' = received t /\ received t < t_length t).

#[export] Instance same_data_refl : Reflexive same_data.
Proof using Type. by repeat split. Qed.
#[export] Instance same_data_trans : Transitive same_data.
Proof using Type. unfold same_data, same_job. intros t1 t2 t3. intuition congruence. Qed.

#[export] Instance retains_refl : Reflexive retains.
Proof using Type. intros t. unfold retains. split_and!; [done..|by left]. Qed.
#[export] Instance retains_trans : Transitive retains.
Proof using Type. unfold retains, same_job. intros t1 t2 t3. intuition (congruence || lia). Qed.

(** Other fields do not matter. *)
Lemma retains_same t t' : same_data t t' -> sink t' = sink t -> retains t t'.
Proof using Type. intros (Hj & H1 & H2 & H3) Hk. split_and!; [done..|by left]. Qed.

Lemma same_job_shaped t t' : same_job t t' -> well_shaped t -> well_shaped t'.
Proof using Type. intros (_ & _ & _ & H1 & H2 & H3 & H4). unfold well_shaped. by rewrite H1, H2, H3, H4. Qed.

Lemma delivered_less o t t' m :
  parts t' = parts t -> t_offset t' = t_offset t -> received t' <= received t ->
  delivered o t m -> delivered o t' m.
Proof using Type. intros H1 H2 H3 Hd p i. rewrite H1, H2. intros Hp Hi Hx. apply Hd; [done|done|lia]. Qed.

Lemma loaded_same t t' m : same_data t t' -> loaded t m -> loaded t' m.
Proof using Type.
  intros (Hj & H1 & H2 & H3) [? ? ? ? ? ? Hd]. pose proof Hj as (_ & J2 & _ & J4 & J5 & J6 & _).
  constructor; rewrite ?J4, ?J6, ?H1, ?H2, ?H3; try done; [by eapply same_job_shaped|].
  rewrite J2. apply (delivered_less _ t); [done|done|lia|done].
Qed.

Lemma loaded_retains t t' m : retains t t' -> loaded t m -> loaded t' m.
Proof using Type.
  intros (Hj & _ & H1 & H2 & H3) [? ? ? ? ? ? Hd]. pose proof Hj as (_ & J2 & _ & J4 & J5 & J6 & _).
  constructor; rewrite ?J4, ?J6, ?H1, ?H2; try done; [by eapply same_job_shaped|lia|lia|].
  rewrite J2. apply (delivered_less _ t); [done|done|lia|done].
Qed.

Lemma loaded_ends t m : loaded t m -> ends t m.
Proof using Type.
  intros [? ? Hs ? ? ? Hd]. split; [|done]. constructor; [by apply well_shaped_deliverable|done|lia|].
  unfold staged. by rewrite Hs.
Qed.

(** ** The places *)

Inductive place := AtFile | AtRest | AtReady | AtActive | AtClosing.

(** A body that [write_callback] does not take. *)
Definition unusable (t : Transfer) : bool :=
  is_2xx (http_status t) &&
  (transformed (encoding t) || version_changed t
   || ((http_status t =? 206) && negb (valid_content_range t)) || range_fallback_rejected t).

(** It answered 0 to the first bytes of such a body, and libcurl ends the
    attempt. *)
Definition stopped (t : Transfer) : bool := checked_status t && unusable t.

(** The position in the object of the next byte of the body. *)
Definition next_byte (t : Transfer) : Z := t_offset t + received t - skip t.

Record in_attempt (t : Transfer) (m : memory) : Prop := {
  at_begin : checked_status t = false -> attempt_begins (object_of (t_locator t)) t m;
  at_body : checked_status t = true -> http_status t < 300 -> stopped t = false ->
    streaming (object_of (t_locator t)) t m (next_byte t);
}.

Definition holds (pl : place) (t : Transfer) (m : memory) : Prop :=
  match pl with
  | AtFile => loaded t m /\ backend (t_locator t) = File /\ sink t = 0 /\ received t = 0 /\
              Forall (fun p => p_buffer p <> 0) (parts t)
  | AtRest => loaded t m /\ sink_ok t
  | AtReady => loaded t m /\ sink_ok t /\ ready t
  | AtActive => loaded t m /\ sink_ok t /\ ready t /\ in_attempt t m
  | AtClosing => finishable t m
  end.

(** Where an outcome puts its transfer. *)
Definition fits (out : outcome) (m : memory) : Prop :=
  match out with
  | Finish t _ _ => ends t m
  | Discard _ => True
  | ToResolving t => holds AtReady t m
  | ToActive t => holds AtActive t m
  | ToPendingFront t | ToCredentialsFront t | ToRetries _ t | ToHttpQueue t => holds AtRest t m
  end.

(** Memory changes elsewhere do not matter. *)
Definition keeps_buffers (t : Transfer) (m m' : memory) : Prop :=
  forall p a, p ∈ spaces t -> in_buffer p a -> m' a = m a.

Lemma delivered_frame o t m m' : keeps_buffers t m m' -> delivered o t m -> delivered o t m'.
Proof using Type.
  intros Hk Hd p i Hp Hi Hx. rewrite (Hk p); [by apply Hd|apply elem_of_app; by left|]. unfold in_buffer. lia.
Qed.

Lemma staged_frame o t m m' : received t <= t_length t -> keeps_buffers t m m' -> staged o t m -> staged o t m'.
Proof using Type.
  intros Hr Hk. unfold staged. destruct (scratch t) as [s|] eqn:E; [|by apply delivered_frame].
  intros [Hm Hp]. split; [|done]. intros x Hx. rewrite <-(Hm x) by done.
  assert (Hin : {| relative_offset := 0; p_length := t_length t; p_buffer := s; p_tag := 0; owned_buffer := 0 |} ∈ spaces t).
  { unfold spaces, staging. rewrite E. apply elem_of_app. right. by left. }
  apply (Hk _ _ Hin). unfold in_buffer. cbn. lia.
Qed.

Lemma in_attempt_frame t m m' : keeps_buffers t m m' -> in_attempt t m -> in_attempt t m'.
Proof using Type.
  intros Hk [Hb Hs]. constructor.
  - intros Hc. destruct (Hb Hc). constructor; [done|by eapply delivered_frame|done..].
  - intros Hc Hst Hno. destruct (Hs Hc Hst Hno). constructor; [done|by eapply delivered_frame|done..].
Qed.

Lemma loaded_frame t m m' : keeps_buffers t m m' -> loaded t m -> loaded t m'.
Proof using Type. intros Hk [? ? ? ? ? ? Hd]. constructor; try done. by eapply delivered_frame. Qed.

Lemma holds_frame pl t m m' : keeps_buffers t m m' -> holds pl t m -> holds pl t m'.
Proof using Type.
  intros Hk. destruct pl; cbn [holds].
  - intros [Hl Hp]. split; [by eapply loaded_frame|done].
  - intros [Hl Hp]. split; [by eapply loaded_frame|done].
  - intros [Hl Hp]. split; [by eapply loaded_frame|done].
  - intros (Hl & ? & ? & ?). split_and!; [by eapply loaded_frame|done|done|by eapply in_attempt_frame].
  - intros [? ? Hr Hs]. constructor; [done..|]. by apply (staged_frame _ _ m); [apply Hr| |].
Qed.

Lemma rest_ends t m : holds AtRest t m -> ends t m.
Proof using Type. intros [Hl _]. by apply loaded_ends. Qed.
Lemma ready_ends t m : holds AtReady t m -> ends t m.
Proof using Type. intros [Hl _]. by apply loaded_ends. Qed.
Lemma active_rest t m : holds AtActive t m -> holds AtRest t m.
Proof using Type. by intros (Hl & Hs & _). Qed.

Lemma sink_ok_retains t t' : retains t t' -> sink_ok t -> sink_ok t'.
Proof using Type.
  intros ((_ & J2 & _ & J4 & _ & _ & J7) & Hs & _). unfold sink_ok. by rewrite J2, J4, J7, Hs.
Qed.

Lemma rest_retains t t' m : retains t t' -> holds AtRest t m -> holds AtRest t' m.
Proof using Type. intros Hr [Hl Hs]. split; [by eapply loaded_retains|by eapply sink_ok_retains]. Qed.

Lemma rest_same t t' m : same_data t t' -> sink t' = sink t -> holds AtRest t m -> holds AtRest t' m.
Proof using Type. intros Hd Hk. by apply rest_retains, retains_same. Qed.

(** ** Header lines and body bytes *)

(** The fields the body callbacks go by. *)
Definition same_progress (t t' : Transfer) : Prop :=
  keeps_parts t t' /\ t_locator t' = t_locator t /\ scratch t' = scratch t /\ received t' = received t /\
  resumed t' = resumed t /\ scatter_cursor t' = scatter_cursor t /\ skip t' = skip t /\
  satisfied t' = satisfied t /\ checked_status t' = checked_status t.

Lemma loaded_bytes t t' m :
  keeps_parts t t' -> t_locator t' = t_locator t -> scratch t' = scratch t ->
  received t' = received t -> resumed t' = resumed t -> loaded t m -> loaded t' m.
Proof using Type.
  intros (K1 & K2 & K3 & K4 & K5) H1 H2 H3 H4 [? ? ? ? ? ? Hd].
  constructor; rewrite ?K1, ?K3, ?H2, ?H3, ?H4; try done.
  - unfold well_shaped. by rewrite K1, K2, K3, K4.
  - rewrite H1. apply (delivered_less _ t); [done|done|lia|done].
Qed.

Lemma sink_ok_keeps t t' : keeps_parts t t' -> t_locator t' = t_locator t -> sink_ok t -> sink_ok t'.
Proof using Type. intros (K1 & _ & _ & K4 & K5) H1. unfold sink_ok. by rewrite K1, K4, K5, H1. Qed.

Lemma attempt_begins_same o t t' m : same_progress t t' -> attempt_begins o t m -> attempt_begins o t' m.
Proof using Type.
  intros (Hk & _ & _ & H3 & H4 & H5 & H6 & H7 & H8) [? ? ? ? ? ? ?].
  constructor; rewrite ?H3, ?H4, ?H5, ?H6, ?H7, ?H8; try done.
  - by apply (writable_same t).
  - by apply (delivered_same o t).
Qed.

Lemma streaming_same o t t' m pos :
  same_progress t t' -> http_status t' = http_status t -> streaming o t m pos -> streaming o t' m pos.
Proof using Type.
  intros (Hk & _ & _ & H3 & H4 & H5 & H6 & H7 & H8) H9 [? ? ? ? ? Hpos]. pose proof Hk as (_ & K2 & K3 & _).
  constructor; rewrite ?H3, ?H4, ?H6, ?H7, ?H8, ?H9, ?K2, ?K3; try done.
  - by apply (writable_same t).
  - by apply (delivered_same o t).
Qed.

(** The position of a body is where the transfer stands. *)
Lemma streaming_here o t m pos : streaming o t m pos -> streaming o t m (next_byte t).
Proof using Type.
  intros [? ? ? ? ? Hpos]. constructor; try done. destruct (satisfied t); [done|]. unfold next_byte. lia.
Qed.

Lemma next_byte_same t t' : same_progress t t' -> next_byte t' = next_byte t.
Proof using Type. intros ((_ & K2 & _) & _ & _ & H3 & _ & _ & H6 & _). unfold next_byte. by rewrite K2, H3, H6. Qed.

(** A change of the other fields while the attempt goes on. *)
Lemma ready_same t t' m : same_progress t t' -> holds AtReady t m -> holds AtReady t' m.
Proof using Type.
  intros (Hk & H1 & H2 & H3 & H4 & _) (Hl & Hs & Hr).
  split; [by apply (loaded_bytes t)|]. split; [by apply (sink_ok_keeps t)|by apply (keeps_parts_ready t)].
Qed.

Lemma active_same t t' m :
  same_progress t t' -> http_status t' = http_status t -> stopped t = false -> holds AtActive t m -> holds AtActive t' m.
Proof using Type.
  intros Hp H9 Hst (Hl & Hs & Hr & [Hb Hbody]). pose proof Hp as (Hk & H1 & H2 & H3 & H4 & _ & _ & _ & H8).
  split; [by apply (loaded_bytes t)|]. split_and!; [by apply (sink_ok_keeps t)|by apply (keeps_parts_ready t)|].
  constructor; rewrite H8, ?H9, H1.
  - intros Hc. apply (attempt_begins_same _ t); auto.
  - intros Hc Hlt _. rewrite (next_byte_same t t' Hp). apply (streaming_same _ t); auto.
Qed.

(** A new response starts the attempt's bytes again. *)
Lemma reset_begins t m :
  holds AtReady t m ->
  let t' := reset_response t in attempt_begins (object_of (t_locator t')) t' m /\ holds AtReady t' m.
Proof using Type.
  intros ([Hsh Hap Hsc Hres Hrec Hpart Hd] & Hs & Hr).
  assert (Hd' : delivered (object_of (t_locator t)) (reset_response t) m)
    by (apply (delivered_less _ t); [done|done|cbn; lia|done]).
  assert (Hr' : ready (reset_response t)) by by apply (keeps_parts_ready t).
  split; [constructor; try done; constructor; [done|constructor|cbn; lia..]|].
  split; [constructor; try done; cbn; lia|]. split; [|done]. by apply (sink_ok_keeps t).
Qed.

Lemma active_begins t m :
  holds AtReady t m -> attempt_begins (object_of (t_locator t)) t m -> holds AtActive t m.
Proof using Type.
  intros (Hl & Hs & Hr) Ha. split_and!; [done..|]. constructor; [done|]. intros Hc. by rewrite (a_checked _ _ _ Ha) in Hc.
Qed.

Lemma header_callback_holds f g k t line size count now m :
  holds AtActive t m -> stopped t = false ->
  holds AtActive (header_callback f g k t line size count now).2 m.
Proof using Type.
  intros Hh Hst. pose proof (fun t' Hp Hs => active_same t t' m Hp Hs Hst Hh) as Hsame. unfold header_callback.
  destruct (callback_size size count); [|done].
  destruct (starts_with line _).
  { destruct Hh as (Hl & Hs & Hr & _). destruct (reset_begins t m) as [Hb Ha]; [done|]. cbn [snd].
    revert Hb Ha. generalize (reset_response t) as u. intros u Hb Ha.
    assert (Hp : same_progress u (u <| http_status := response_status line |>)) by by repeat split.
    apply active_begins; [by apply (ready_same u)|by apply (attempt_begins_same _ u)]. }
  destruct (_ && _); [by apply Hsame|]. destruct (header_name_is line $"content-range:").
  { destruct (parse_content_range _ _) as [[] r]; by apply Hsame. }
  do 2 (destruct (header_name_is line _); [by apply Hsame|]).
  destruct (header_name_is line $"etag:"); [destruct (_ && _); by apply Hsame|]. by apply Hsame.
Qed.

(** A call of [write_callback] as libcurl makes it for an honest server: not
    after a call that ended the attempt; the size is that of the data; the body
    of a success status is the object's, from where the response says it starts
    and then on without a gap.  A server answers a request for a range with 200
    or 206 or with a status that is no success. *)
Record honest_body (t : Transfer) (data : str) (size count code : Z) : Prop := {
  hb_size : callback_size size count = Some (Z.of_nat (length data));
  hb_running : stopped t = false;
  hb_status : checked_status t = false -> code = 200 \/ code = 206 \/ 300 <= code;
  hb_first : checked_status t = false -> code < 300 ->
    body_at (object_of (t_locator t)) (body_start t code) data;
  hb_next : checked_status t = true -> http_status t < 300 ->
    body_at (object_of (t_locator t)) (next_byte t) data;
}.

Lemma begin_body_unusable t code clen t' : begin_body t code clen = (false, t') -> unusable t' = true.
Proof using Type.
  unfold begin_body. generalize (t <| checked_status := true |> <| http_status := code |>) as t1. intros t1.
  unfold unusable. destruct (is_2xx (http_status t1) && transformed (encoding t1)) eqn:E1.
  { intros [= <-]. by apply andb_true_iff in E1 as [-> ->]. }
  destruct (is_2xx (http_status t1) && contradicts_pin t1) eqn:E2.
  { intros [= <-]. apply andb_true_iff in E2 as [E2 _]. set (u := t1 <| version_changed := true |>).
    change (http_status u) with (http_status t1). change (version_changed u) with true. by rewrite E2, orb_true_r. }
  destruct ((http_status t1 =? 206) && negb (valid_content_range t1)) eqn:E3.
  { intros [= <-]. rewrite E3. apply andb_true_iff in E3 as [->%Z.eqb_eq _]. by rewrite orb_true_r. }
  clear E1 E2 E3. set (t2 := if _ && _ then _ else t1). clearbody t2. destruct (_ && _ && _) eqn:E4; [|done]. intros [= <-].
  apply andb_true_iff in E4 as [[E4%Z.eqb_eq _]%andb_true_iff _]. set (u := t2 <| range_fallback_rejected := true |>).
  change (http_status u) with (http_status t2). change (range_fallback_rejected u) with true.
  by rewrite E4, orb_true_r.
Qed.

(** The first call for a body keeps the bytes that were kept, or none. *)
Lemma begin_body_data t code clen :
  let t' := (begin_body t code clen).2 in
  keeps_parts t t' /\ t_locator t' = t_locator t /\ scratch t' = scratch t /\ checked_status t' = true /\
  http_status t' = code /\
  (received t' = received t /\ resumed t' = resumed t \/ received t' = 0 /\ resumed t' = 0).
Proof using Type.
  unfold begin_body. set (t1 := t <| checked_status := true |> <| http_status := code |>).
  assert (H1 : keeps_parts t t1 /\ t_locator t1 = t_locator t /\ scratch t1 = scratch t /\
    checked_status t1 = true /\ http_status t1 = code /\ received t1 = received t /\ resumed t1 = resumed t)
    by by split_and!.
  clearbody t1. destruct H1 as (Hk & L1 & L2 & L3 & L4 & L5 & L6). destruct (_ && transformed _).
  { split_and!; try done. by left. }
  destruct (_ && contradicts_pin _); [split_and!; try done; by left|].
  destruct (_ && negb (valid_content_range _)); [split_and!; try done; by left|].
  set (t2 := if _ && _ then _ else t1).
  assert (H2 : keeps_parts t t2 /\ t_locator t2 = t_locator t /\ scratch t2 = scratch t /\
    checked_status t2 = true /\ http_status t2 = code /\
    (received t2 = received t /\ resumed t2 = resumed t \/ received t2 = 0 /\ resumed t2 = 0)).
  { subst t2. destruct (_ && _); (split_and!; [done..|]); [by right|by left]. }
  clearbody t2. destruct (_ && _ && _); [done|].
  set (t3 := if _ && _ then _ else t2).
  assert (H3 : keeps_parts t t3 /\ t_locator t3 = t_locator t /\ scratch t3 = scratch t /\
    checked_status t3 = true /\ http_status t3 = code /\
    (received t3 = received t /\ resumed t3 = resumed t \/ received t3 = 0 /\ resumed t3 = 0)).
  { subst t3. by destruct (_ && _). }
  by clearbody t3.
Qed.

Lemma begin_body_stops t code clen t' : begin_body t code clen = (false, t') -> stopped t' = true.
Proof using Type.
  intros E. unfold stopped. rewrite (begin_body_unusable _ _ _ _ E), andb_true_r.
  pose proof (begin_body_data t code clen) as (_ & _ & _ & Hc & _). by rewrite E in Hc.
Qed.

(** No callback touches a staging area. *)
Lemma write_payload_scratch t m data n : scratch (write_payload t m data n).1.2 = scratch t.
Proof using Type.
  unfold write_payload. set (t1 := t <| skip := _ |>). destruct (_ =? 0); [done|].
  set (s := if _ <? _ then store_payload _ _ _ else _).
  assert (H1 : scratch s.1 = scratch t1).
  { subst s. case_match; [|done]. unfold store_payload. by destruct (negb (scattered t1)). }
  destruct s as [t2 m2]. cbn [fst] in H1. destruct (_ =? _); [|done]. by destruct (drains _ _).
Qed.

Lemma write_callback_scratch t m data size count code clen :
  scratch (w_transfer (write_callback t m data size count code clen)) = scratch t.
Proof using Type.
  unfold write_callback. destruct (callback_size size count); [|done]. destruct (satisfied t); [done|].
  set (s := if negb _ then begin_body _ _ _ else _).
  assert (H1 : scratch s.2 = scratch t) by (subst s; destruct (negb _); [apply begin_body_data|done]).
  destruct s as [go t1]. cbn [snd] in H1. destruct (negb go); [done|].
  destruct (_ && _); [done|]. destruct (300 <=? _); [by destruct (_ <? _)|].
  pose proof (write_payload_scratch t1 m data z) as H2.
  destruct (write_payload t1 m data z) as [[r t2] m2]. cbn [fst snd] in H2 |- *. by transitivity (scratch t1).
Qed.

(** An attempt whose body is of no use: the memory is left alone. *)
Lemma active_useless t t' m :
  keeps_parts t t' -> t_locator t' = t_locator t -> scratch t' = scratch t ->
  (received t' = received t /\ resumed t' = resumed t \/ received t' = 0 /\ resumed t' = 0) ->
  checked_status t' = true -> (300 <= http_status t' \/ stopped t' = true) ->
  holds AtReady t m -> holds AtActive t' m.
Proof using Type.
  intros Hk L1 L2 Hd Hc Hst (Hl & Hs & Hr). pose proof Hk as (K1 & K2 & K3 & _).
  assert (Hr' : ready t') by by apply (keeps_parts_ready t).
  split; [|split_and!; [by apply (sink_ok_keeps t)|done|]].
  - destruct Hd as [[D1 D2]|[D1 D2]]; [by apply (loaded_bytes t)|]. destruct Hl.
    constructor; rewrite ?D1, ?D2, ?K3, ?L2; try done; [apply Hr'|by rewrite K1|lia|lia|].
    apply delivered_nothing; [apply Hr'|done].
  - constructor; [by rewrite Hc|]. intros _ ? Hno. destruct Hst; [lia|congruence].
Qed.

Lemma active_streams t t' m pos :
  keeps_parts t t' -> t_locator t' = t_locator t -> scratch t' = scratch t ->
  sink_ok t -> scratch t = None -> streaming (object_of (t_locator t)) t' m pos -> holds AtActive t' m.
Proof using Type.
  intros Hk L1 L2 Hs Hsc Hst. pose proof Hst as [[Hr _ ? ? ?] Hd Hck _ _ _]. pose proof Hr as [Hsh Hap _].
  split_and!; [|by apply (sink_ok_keeps t)|done|].
  - constructor; try done; [by rewrite L2|by rewrite L1].
  - constructor; [by rewrite Hck|]. intros _ _ _. rewrite L1. by eapply streaming_here.
Qed.

(** The rest of [write_callback] for an error status: the body is kept for the
    message, or thrown away before a redirect. *)
Lemma error_body_holds t t1 m data n :
  keeps_parts t t1 -> t_locator t1 = t_locator t -> scratch t1 = scratch t ->
  (received t1 = received t /\ resumed t1 = resumed t \/ received t1 = 0 /\ resumed t1 = 0) ->
  checked_status t1 = true -> 300 <= http_status t1 -> holds AtReady t m ->
  let t2 := t1 <| http_buffers := Some ((buffers_of t1) <| error_body :=
              capture_error_body (error_body (buffers_of t1)) data |>) |> in
  holds AtActive t1 m /\ holds AtActive t2 m /\
  holds AtActive (t2 <| error_body_received := error_body_received t2 + n |>) m.
Proof using Type.
  intros Hk L1 L2 Hd Hc Hst Hh. split_and!; (eapply active_useless; [..|exact Hh]; try done; by left).
Qed.

Lemma error_callback_holds t m data size count code clen n :
  holds AtReady t m -> callback_size size count = Some n -> satisfied t = false ->
  (checked_status t = true /\ 300 <= http_status t \/ checked_status t = false /\ 300 <= code) ->
  let r := write_callback t m data size count code clen in
  holds AtActive (w_transfer r) (w_memory r) /\ w_memory r = m.
Proof using Type.
  intros Hh Hsize Hsat Hcase. unfold write_callback. rewrite Hsize, Hsat.
  set (s := if negb _ then _ else _).
  assert (Hs : s.1 = true /\ keeps_parts t s.2 /\ t_locator s.2 = t_locator t /\ scratch s.2 = scratch t /\
    (received s.2 = received t /\ resumed s.2 = resumed t \/ received s.2 = 0 /\ resumed s.2 = 0) /\
    checked_status s.2 = true /\ 300 <= http_status s.2).
  { subst s. destruct Hcase as [[Hc Hst]|[Hc Hst]]; rewrite Hc; cbn [negb].
    - split_and!; try done. by left.
    - pose proof (begin_body_data t code clen) as (Hk & L1 & L2 & L3 & L4 & L5).
      destruct (begin_body t code clen) as [go u] eqn:Eb. cbn [fst snd] in *. rewrite L4.
      split_and!; try done. destruct go; [done|]. apply begin_body_unusable in Eb. unfold unusable in Eb.
      rewrite L4 in Eb. unfold is_2xx in Eb. destruct (Z.ltb_spec code 300); [lia|].
      by rewrite andb_false_r in Eb. }
  clearbody s. destruct s as [go t1]. cbn [fst snd] in Hs. destruct Hs as (-> & Hk & L1 & L2 & L5 & L3 & L4).
  cbn [negb]. pose proof (error_body_holds t t1 m data n Hk L1 L2 L5 L3 L4 Hh) as (H1 & H2 & H3).
  destruct (is_3xx _ && _); [done|]. rewrite (proj2 (Z.leb_le _ _)) by done. by destruct (_ <? n).
Qed.

(** The first bytes of a body that is to be kept. *)
Lemma first_callback_holds t m data size count code clen :
  holds AtReady t m -> attempt_begins (object_of (t_locator t)) t m ->
  callback_size size count = Some (Z.of_nat (length data)) -> code = 200 \/ code = 206 ->
  body_at (object_of (t_locator t)) (body_start t code) data ->
  let r := write_callback t m data size count code clen in
  holds AtActive (w_transfer r) (w_memory r) /\ frame t m (w_memory r).
Proof using Type.
  intros Hh Hb Hsize Hcode Hdata. pose proof Hh as (Hl & Hs & Hr). unfold write_callback.
  rewrite Hsize, (a_satisfied _ _ _ Hb), (a_checked _ _ _ Hb). cbn [negb].
  pose proof (begin_body_spec _ t m code clen Hb Hcode) as Hspec.
  pose proof (begin_body_data t code clen) as (Hk & L1 & L2 & L3 & L4 & L5).
  destruct (begin_body t code clen) as [go t1] eqn:Eb. cbn [fst snd] in *.
  destruct Hspec as (_ & _ & Hsat & _ & Hstr). destruct go; cbn [negb].
  - specialize (Hstr eq_refl). rewrite L4.
    assert (is_3xx code = false /\ (300 <=? code) = false) as [-> ->] by (destruct Hcode as [-> | ->]; done).
    cbn [andb]. pose proof (write_payload_spec _ t1 m data _ Hstr Hsat Hdata) as Hp. cbv zeta in Hp.
    pose proof (write_payload_same t1 m data (Z.of_nat (length data))) as [(_ & J2 & _) _].
    pose proof (write_payload_scratch t1 m data (Z.of_nat (length data))) as Hsc.
    destruct (write_payload t1 m data _) as [[r t2] m2]. cbn [fst snd w_transfer w_memory] in *.
    destruct Hp as (_ & Hs2 & Hf & Hk2 & _). split.
    + eapply (active_streams t); [by eapply keeps_parts_trans|congruence|congruence|done|apply Hl|exact Hs2].
    + intros a Ha. apply Hf. by destruct Hk as (-> & _).
  - cbn [w_transfer w_memory]. split; [|apply frame_refl].
    apply (active_useless t); try done. right. by eapply begin_body_stops.
Qed.

(** Every honest call leaves the bytes it stored where they belong. *)
Lemma write_callback_holds t m data size count code clen :
  holds AtActive t m -> honest_body t data size count code ->
  let r := write_callback t m data size count code clen in
  holds AtActive (w_transfer r) (w_memory r) /\ frame t m (w_memory r).
Proof using Type.
  intros Hh [Hsize Hrun Hst Hfirst Hnext]. pose proof Hh as (Hl & Hs & Hr & [Hb Hbody]).
  assert (Hrest : holds AtReady t m) by done.
  destruct (satisfied t) eqn:Esat.
  { unfold write_callback. rewrite Hsize, Esat. split; [done|apply frame_refl]. }
  assert (Herr : (checked_status t = true /\ 300 <= http_status t \/ checked_status t = false /\ 300 <= code) ->
    let r := write_callback t m data size count code clen in
    holds AtActive (w_transfer r) (w_memory r) /\ frame t m (w_memory r)).
  { intros Hc. destruct (error_callback_holds t m data size count code clen _ Hrest Hsize Esat Hc) as [H1 H2].
    split; [done|]. intros a _. by rewrite H2. }
  destruct (checked_status t) eqn:Eck.
  - destruct (Z.lt_ge_cases (http_status t) 300) as [Hlt|Hge]; [|apply Herr; by left].
    pose proof (write_callback_streaming _ t m data size count code clen _ (Hbody eq_refl Hlt Hrun)
      (Hnext eq_refl Hlt) Hsize) as (_ & Hs2 & Hf & Hk). split; [|done].
    pose proof (write_callback_same t m data size count code clen) as [(_ & J2 & _) _].
    eapply (active_streams t); [done|done|apply write_callback_scratch|done|apply Hl|exact Hs2].
  - destruct (Hst eq_refl) as [Hcode|[Hcode|Hcode]]; [| |apply Herr; by right].
    all: apply first_callback_holds; [done|by apply Hb|done|auto|apply Hfirst; [done|lia]].
Qed.

(** ** The handlers *)

(** [ensure_sink] of an HTTP transfer: no staging area. *)
Lemma ensure_sink_rest heap t m :
  holds AtRest t m ->
  let '(ok, t', _) := ensure_sink heap t in ok = true /\ holds AtReady t' m /\ same_data t t'.
Proof using Type.
  intros [Hl Hs]. pose proof (ensure_sink_ready heap t (ld_shape _ _ Hl) (ld_apart _ _ Hl) Hs) as Hok.
  pose proof (ensure_sink_same heap t) as (Hj & H1 & H2 & _).
  assert (Hsc : scratch (ensure_sink heap t).1.2 = scratch t).
  { unfold ensure_sink. destruct Hs as (Hb & _). destruct (negb (sink t =? 0)); [done|].
    destruct (negb (scattered t)); [done|]. by rewrite bool_decide_false. }
  destruct (ensure_sink heap t) as [[ok t'] heap']. cbn [fst snd] in *. destruct Hok as (-> & Hr & Hs').
  assert (Hd : same_data t t') by done. split_and!; [done| |done]. split; [by eapply loaded_same|done].
Qed.

(** What [start_transfer] changes besides: the request, the deadline. *)
Lemma ready_fields t t' m :
  same_data t t' -> sink t' = sink t -> holds AtReady t m -> holds AtReady t' m.
Proof using Type.
  intros Hd Hk (Hl & Hs & Hr). pose proof Hd as ((_ & J2 & _ & J4 & J5 & J6 & J7) & _).
  assert (keeps_parts t t') as Hp by done. split; [by eapply loaded_same|].
  split; [by apply (sink_ok_keeps t)|by apply (keeps_parts_ready t)].
Qed.

Lemma prepare_transfer_holds env t m :
  holds AtRest t m ->
  match prepare_transfer options env t with
  | inl out => exists u status text, out = Finish u status text /\ ends u m
  | inr u => holds AtReady u m
  end.
Proof using Type.
  intros Hh. unfold prepare_transfer. set (t1 := t <| deadline := _ |>).
  assert (H1 : holds AtRest t1 m) by by apply (rest_same t).
  assert (Hend : forall u st text, ends u m ->
    exists v status text', Finish u st text = Finish v status text' /\ ends v m).
  { intros u st text Hu. by exists u, st, text. }
  clearbody t1. destruct (expired _ (deadline t1)); [by apply Hend, rest_ends|].
  pose proof (ensure_sink_rest (alloc env) t1 m H1) as Hsink.
  destruct (ensure_sink (alloc env) t1) as [[ok t2] heap]. destruct Hsink as (-> & H2 & _). cbn [negb].
  set (t3 := if str_eqb (region_hint t2) [] then _ else t2).
  assert (H3 : holds AtReady t3 m) by (subst t3; destruct (str_eqb _ _); [by apply (ready_fields t2)|done]).
  clearbody t3. destruct (has_cloud_provider _ && _); [by apply Hend, ready_ends|].
  destruct (if has_cloud_provider _ then _ else _) as [r|e]; [|by apply Hend, ready_ends].
  destruct (expired _ _); [by apply Hend, ready_ends|].
  destruct (negb _); by apply (ready_fields t3).
Qed.

Lemma launch_transfer_fits env t m : holds AtReady t m -> fits (launch_transfer options env t) m.
Proof using Type.
  intros Hh. pose proof (ready_ends _ _ Hh) as Hf. unfold launch_transfer.
  destruct (_ && host_waiting env); [exact Hh|]. destruct (_ && _ && _); [exact Hf|].
  destruct (negb (easy_ok env)); [exact Hf|].
  set (t1 := t <| easy := true |> <| http_buffers := Some HttpBuffers_default |>).
  assert (H1 : holds AtReady t1 m) by by apply (ready_fields t). clearbody t1.
  destruct (configure_error env); [exact (ready_ends _ _ H1)|].
  destruct (reset_begins t1 m H1) as [Hb Hr].
  revert Hb Hr. unfold configure_transfer. generalize (reset_response t1) as u. intros u Hb Hr.
  match goal with |- context [ToActive ?w] => set (v := w) end.
  assert (Hp : same_progress u v) by by repeat split.
  assert (Hv : holds AtReady v m) by by apply (ready_same u). clearbody v.
  destruct (add_error env); [exact (ready_ends _ _ Hv)|].
  destruct (negb (inserted env)); [exact (ready_ends _ _ Hv)|]. cbn [fits].
  apply active_begins; [done|]. pose proof Hp as (_ & -> & _). by apply (attempt_begins_same _ u).
Qed.

Lemma start_transfer_fits env t (prepared : bool) m :
  holds (if prepared then AtReady else AtRest) t m -> fits (start_transfer options env t prepared) m.
Proof using Type.
  intros Hh. assert (Hf : ends t m) by (destruct prepared; [by apply ready_ends|by apply rest_ends]).
  unfold start_transfer.
  destruct (thrown env) as [[]|]; [exact Hf..|]. destruct prepared.
  - destruct (expired _ _); [exact Hf|by apply launch_transfer_fits].
  - pose proof (prepare_transfer_holds env t m Hh) as Hp.
    destruct (prepare_transfer options env t) as [out|u]; [|by apply launch_transfer_fits].
    by destruct Hp as (u & st & text & -> & ?).
Qed.

Lemma plan_resume_retains t : retains t (plan_resume t).
Proof using Type.
  unfold plan_resume, retains. destruct (negb _ && _); [split_and!; [done..|by right; left]|].
  destruct (_ || _); [split_and!; [done..|by right; left]|].
  destruct (negb _ || _ || _) eqn:E; [split_and!; [done..|by left]|].
  apply orb_false_iff in E as [_ E%Z.leb_gt].
  destruct (_ && _); [destruct (str_eqb _ _)|]; (split_and!; [done..|]); [by right; left|by right; right..].
Qed.

Lemma retry_or_fail_fits env t b m : holds AtRest t m -> fits (retry_or_fail options env t b).1 m.
Proof using Type.
  intros Hh. unfold retry_or_fail. set (t1 := if unreachable (result env) then _ else t).
  assert (H1 : retains t t1) by (subst t1; destruct (unreachable _); by apply retains_same).
  clearbody t1. destruct (_ && _ && _).
  - set (t2 := t1 <| attempt := attempt t1 + 1 |>).
    assert (H2 : retains t1 t2) by by apply retains_same.
    pose proof (plan_resume_retains t2) as H3. revert H3. generalize (plan_resume t2) as t3. intros t3 H3.
    assert (H4 : holds AtRest (recycle_handle t3) m).
    { apply (rest_retains t); [|done]. transitivity t1; [done|]. transitivity t2; [done|].
      transitivity t3; [done|]. by apply retains_same. }
    destruct (negb _); [exact (rest_ends _ _ H4)|exact H4].
  - apply rest_ends, (rest_retains t); [|done]. etransitivity; [exact H1|].
    by apply retains_same.
Qed.

(** A message: the transfer ends with the bytes it has, or goes back for
    another attempt with those it keeps. *)
Lemma on_done_fits env t b m : holds AtRest t m -> fits (on_done options env t b).1.1 m.
Proof using Type.
  intros Hh. unfold on_done. set (t1 := if http_status t =? 0 then _ else t).
  assert (H1 : holds AtRest t1 m).
  { subst t1. destruct (_ =? 0); by apply (rest_same t). }
  clearbody t1. clear t Hh. generalize (count_message env t1 b) as b1. intros b1.
  destruct (succeeded t1 _); [by apply rest_ends, (rest_same t1)|].
  destruct (expired _ _); [by apply rest_ends, (rest_same t1)|].
  set (t2 := if _ && _ then _ else t1).
  assert (H2 : holds AtRest t2 m) by (subst t2; destruct (_ && _); [by apply (rest_same t1)|done]).
  clearbody t2. destruct (negb (region_retried t2) && _ && _ && _); [by apply (rest_same t2)|].
  destruct (negb (credentials_retried t2) && _); [by apply (rest_same t2)|].
  pose proof (retry_or_fail_fits env t2 b1 m H2). by destruct (retry_or_fail options env t2 b1).
Qed.

Lemma credential_work_fits env t m : holds AtRest t m -> fits (credential_work options env t) m.
Proof using Type.
  intros Hh. unfold credential_work. destruct (cancelled_before env); [done|].
  set (t1 := t <| deadline := _ |>).
  assert (H1 : holds AtRest t1 m) by by apply (rest_same t).
  clearbody t1. pose proof (rest_ends _ _ H1) as Hf.
  destruct (cred_thrown env) as [[]|]; [exact Hf..|]. destruct (rb_resolve_credentials _); [|exact Hf].
  destruct (cancelled_after env); [done|]. destruct (expired _ _); [exact Hf|].
  by apply (rest_same t1).
Qed.

(** *** Local files *)

(** What [pread] returns without an error is what the file holds there. *)
Definition reads_object (read_at : Z -> Z -> expected str str) (file : object_bytes) : Prop :=
  forall n off bytes, 0 < n -> 0 <= off -> read_at n off = Ok bytes ->
    Z.of_nat (length bytes) <= n /\ body_at file off bytes.

(** The bytes of a file, as far as they are read, at the sink. *)
Definition at_sink (file : object_bytes) (t : Transfer) (m : memory) : Prop :=
  forall x, 0 <= x < received t -> m (sink t + x) = file (t_offset t + x).

Lemma read_loop_sound read_at file fuel c : forall t m,
  reads_object read_at file -> 0 <= t_offset t -> 0 <= received t <= t_length t -> at_sink file t m ->
  let '(t', m', _) := read_loop read_at fuel c t m in
  t' = t <| received := received t' |> /\ 0 <= received t' <= t_length t /\ at_sink file t' m' /\
  (forall a, a < sink t \/ sink t + t_length t <= a -> m' a = m a).
Proof using Type.
  induction fuel as [|fuel IH]; intros t m Hf Ho Hr Hm; cbn [read_loop]; [by destruct t|].
  destruct (Z.ltb_spec (received t) (t_length t)) as [Hlt|Hge]; cbn [andb]; [|by destruct t].
  destruct (negb (c (received t))); [|by destruct t].
  destruct (read_at _ _) as [bytes|e] eqn:E; [|by destruct t].
  apply Hf in E as [Hle Hbody]; [|lia..]. set (n := Z.of_nat (length bytes)) in *.
  destruct (Z.eqb_spec n 0); [by destruct t|].
  specialize (IH (t <| received := received t + n |>) (memcpy m (sink t + received t) bytes)).
  destruct (read_loop _ _ _ _ _) as [[t' m'] f]. destruct IH as (E & H1 & H2 & H3); [done|done|cbn; lia| |].
  - intros x Hx. cbn in Hx |- *. destruct (Z.lt_ge_cases x (received t)).
    + rewrite memcpy_out by lia. apply Hm. lia.
    + replace (sink t + x) with (sink t + received t + (x - received t)) by lia.
      rewrite memcpy_in, Hbody by lia. f_equal. lia.
  - split_and!; [exact E|apply H1|apply H1|exact H2|]. intros a Ha. rewrite H3 by done. apply memcpy_out. cbn in Ha. lia.
Qed.

(** [ensure_sink] of a local read: the buffer of the only part, or a staging
    area from the allocator. *)
Definition has_sink (heap : list Z) (t : Transfer) : Prop :=
  received t = 0 /\
  match scratch t with
  | None => exists p, parts t = [p] /\ sink t = p_buffer p
  | Some s => sink t = s /\ s <> 0 /\ s ∈ heap
  end.

(** The area [s] of the allocator overlaps no buffer of [t]. *)
Definition area_apart (t : Transfer) (s : Z) : Prop :=
  s <> 0 -> Forall (fun p => p_buffer p + p_length p <= s \/ s + t_length t <= p_buffer p) (parts t).

Lemma ensure_sink_file heap t m :
  holds AtFile t m ->
  let '(ok, t', _) := ensure_sink heap t in
  same_job t t' /\ if ok : bool then has_sink heap t' else t' = t.
Proof using Type.
  intros [[Hsh _ Hsc _ _ _ _] (Hb & Hsink & Hrec & _)]. pose proof (ensure_sink_same heap t) as [Hj _]. revert Hj.
  unfold ensure_sink. rewrite Hsink. cbn [Z.eqb negb]. destruct (scattered t) eqn:Esc; cbn [negb].
  - rewrite bool_decide_true by done. cbn [negb]. destruct (SIZE_MAX <? t_length t); [done|].
    destruct heap as [|s heap]; [done|]. destruct (Z.eqb_spec s 0); [done|]. intros Hj. split; [done|].
    split; [done|]. cbn. split_and!; [done|done|apply list_elem_of_here].
  - intros Hj. split; [done|]. split; [done|]. cbn. rewrite Hsc.
    destruct Hsh as (_ & _ & _ & _ & _ & _ & _ & Hone). pose proof (proj1 Hone Esc) as H1.
    destruct (parts t) as [|p [|]]; [done| |done]. by exists p.
Qed.

(** The area a local read writes to. *)
Definition read_area (heap : list Z) (t : Transfer) (a : Z) : Prop :=
  Exists (fun p => in_buffer p a) (parts t) \/ Exists (fun s => s <> 0 /\ s <= a < s + t_length t) heap.

Lemma sink_in_area heap t a :
  well_shaped t -> has_sink heap t -> sink t <= a < sink t + t_length t -> read_area heap t a.
Proof using Type.
  intros Hsh [_ Hk] Ha. unfold read_area. rewrite !Exists_exists. destruct (scratch t) as [s|].
  - destruct Hk as (Hs & H0 & Hin). right. exists s. rewrite Hs in Ha. done.
  - destruct Hk as (p & Hp & Hs). destruct (single_part t p Hsh Hp) as [_ Hl]. left. exists p.
    unfold in_buffer. rewrite Hp, Hl, <-Hs. split; [apply list_elem_of_here|done].
Qed.

Lemma sink_finishable heap t t' m :
  well_shaped t -> StronglySorted apart (parts t) -> Forall (area_apart t) heap -> has_sink heap t ->
  t' = t <| received := received t' |> -> 0 <= received t' <= t_length t ->
  at_sink (object_of (t_locator t)) t' m -> finishable t' m.
Proof using Type.
  intros Hsh Hap Hheap [_ Hk] -> Hr Hm. cbn [received] in Hr.
  constructor; [exact (well_shaped_deliverable t Hsh)|done|done|].
  unfold staged. cbn [scratch]. change (scratch (t <| received := received t' |>)) with (scratch t).
  destruct (scratch t) as [s|].
  - destruct Hk as (Hs & H0 & Hin). rewrite Forall_forall in Hheap. split; [|by apply (Hheap s)].
    intros x Hx. rewrite <-Hs. by apply Hm.
  - destruct Hk as (p & Hp & Hs). destruct (single_part t p Hsh Hp) as [H1 H2].
    intros q i Hq Hi Hx. cbn in Hq, Hi, Hx |- *. rewrite Hp in Hq. apply list_elem_of_singleton in Hq as ->.
    rewrite H1 in *. rewrite Z.add_0_r, <-Hs. apply Hm. cbn. lia.
Qed.

(** What a file worker leaves: a transfer that can end, and the staging area,
    if there is one, is from the allocator. *)
Definition file_fits (heap : list Z) (out : outcome) (m : memory) : Prop :=
  match out with
  | Finish t _ _ => finishable t m /\ (forall s, scratch t = Some s -> s <> 0 /\ s ∈ heap)
  | _ => True
  end.

Lemma file_work_fits read_at env t m b :
  holds AtFile t m -> reads_object read_at (object_of (t_locator t)) -> Forall (area_apart t) (file_alloc env) ->
  let '(out, m', _) := file_work read_at env t m b in
  file_fits (file_alloc env) out m' /\ (forall a, ~ read_area (file_alloc env) t a -> m' a = m a).
Proof using Type.
  intros Hh Hf Hheap. pose proof Hh as [[Hsh Hap Hsc _ _ _ _] _].
  assert (Hfin : finishable t m /\ (forall s, scratch t = Some s -> s <> 0 /\ s ∈ file_alloc env)).
  { split; [by apply loaded_ends, Hh|]. intros s. by rewrite Hsc. }
  unfold file_work. destruct (file_cancelled env); [done|].
  pose proof (ensure_sink_file (file_alloc env) t m Hh) as Hs.
  destruct (ensure_sink (file_alloc env) t) as [[ok t1] heap]. destruct Hs as [Hj Hok].
  destruct ok; cbn [negb]; [|subst t1; done]. pose proof Hj as (J1 & J2 & J3 & J4 & J5 & J6 & J7).
  assert (Hsh1 : well_shaped t1) by by eapply same_job_shaped.
  assert (Hap1 : StronglySorted apart (parts t1)) by by rewrite J4.
  assert (Hheap1 : Forall (area_apart t1) (file_alloc env)).
  { eapply Forall_impl; [exact Hheap|]. unfold area_apart. by rewrite J4, J6. }
  rewrite <-J2 in Hf. pose proof Hok as [Hrec Hsink]. pose proof Hsh1 as (_ & _ & _ & _ & Ho & Hl & _).
  assert (Harea : forall s, scratch t1 = Some s -> s <> 0 /\ s ∈ file_alloc env).
  { intros s Es. rewrite Es in Hsink. by destruct Hsink as (_ & ? & ?). }
  destruct (open_error env).
  - split; [|done]. split; [|done]. eapply (sink_finishable _ t1); try done; [by destruct t1|lia|]. intros x Hx. lia.
  - pose proof (read_loop_sound read_at (object_of (t_locator t1)) (Z.to_nat (t_length t1)) (file_cancelled_at env) t1 m Hf Ho
      ltac:(lia) ltac:(intros x Hx; lia)) as Hread.
    destruct (read_loop _ _ _ t1 m) as [[t2 m2] f]. destruct Hread as (E & H1 & H2 & H3).
    assert (Hout : forall a, ~ read_area (file_alloc env) t a -> m2 a = m a).
    { intros a Ha. apply H3. destruct (decide (sink t1 <= a < sink t1 + t_length t1)) as [Hin|]; [|lia].
      destruct Ha. apply (sink_in_area _ t1 a Hsh1 Hok) in Hin. unfold read_area in *. by rewrite <-J4, <-J6. }
    assert (Hf2 : finishable t2 m2 /\ (forall s, scratch t2 = Some s -> s <> 0 /\ s ∈ file_alloc env)).
    { split; [by eapply (sink_finishable _ t1)|]. rewrite E. exact Harea. }
    destruct (file_cancelled_end env); [done|]. by destruct f.
Qed.

(** ** Requests and their answers *)

(** What a completion says about the request it answers, and what its buffer
    then holds: the request's tag; the caller's buffer, or one the completion
    owns; all the bytes when it is a success; and as many bytes of the object
    from the request's first one as it counts. *)
Record fulfils (r : Request) (c : Completion) (m : memory) : Prop := {
  an_tag : c_tag c = tag r;
  an_buffer : if buffer r =? 0 then c_owned_buffer c = c_buffer c
              else c_buffer c = buffer r /\ c_owned_buffer c = 0;
  an_size : 0 <= got c <= length_ r;
  an_full : c_status c = KARU_OK -> got c = length_ r;
  an_bytes : forall i, 0 <= i < got c -> m (c_buffer c + i) = object_of (locator r) (abs_offset r + i);
}.

(** The bytes a completion hands out. *)
Definition in_answer (c : Completion) (a : Z) : Prop := c_buffer c <= a < c_buffer c + got c.

Lemma answers_frame r c m m' :
  (forall a, in_answer c a -> m' a = m a) -> fulfils r c m -> fulfils r c m'.
Proof using Type.
  intros Hf [? ? ? ? Hb]. constructor; try done. intros i Hi. rewrite Hf; [by apply Hb|]. unfold in_answer. lia.
Qed.

(** Every part of the transfer reads for one of the requests. *)
Definition serves_some (rs : list Request) (t : Transfer) : Prop :=
  Forall (fun p => exists r, r ∈ rs /\ serves t r p) (parts t).

Lemma serves_some_job rs t t' : same_job t t' -> serves_some rs t -> serves_some rs t'.
Proof using Type.
  intros (_ & J2 & J3 & J4 & J5 & J6 & _). unfold serves_some, serves. by rewrite J2, J3, J4, J5, J6.
Qed.

Lemma completes_answers t m p c r :
  serves t r p -> 1 <= p_length p -> completes (object_of (t_locator t)) t m p c -> fulfils r c m.
Proof using Type.
  intros (S1 & S2 & S3 & S4 & S5 & S6 & S7 & S8 & S9 & S10) Hp (C1 & C2 & C3 & C4 & C5).
  assert (Hgot : 0 <= got c <= p_length p /\ (c_status c = KARU_OK -> got c = p_length p)).
  { unfold part_end in C4. destruct (Z.leb_spec (relative_offset p + p_length p) (received t)); destruct C4 as [-> ->]; [lia|].
    split; [lia|done]. }
  constructor; rewrite ?C1, ?C2, ?C3, <-?S5; try done; try apply Hgot.
  intros i Hi. rewrite C5, <-S6 by done. unfold object_of. by rewrite S1, S2.
Qed.

(** A completion of a failed transfer counts no bytes. *)
Definition fails (t : Transfer) (status : karu_status) (p : Part) (c : Completion) : Prop :=
  c_tag c = p_tag p /\ c_buffer c = p_buffer p /\ c_owned_buffer c = owned_buffer p /\
  c_status c = status /\ got c = 0.

Lemma fails_answers t status m p c r :
  serves t r p -> 1 <= p_length p -> status <> KARU_OK -> fails t status p c -> fulfils r c m.
Proof using Type.
  intros (S1 & S2 & S3 & S4 & S5 & S6 & S7 & S8 & S9 & S10) Hp Hst (C1 & C2 & C3 & C4 & C5).
  constructor; rewrite ?C1, ?C2, ?C3, ?C4, ?C5, <-?S5; try done; try lia.
Qed.

(** Whatever the status, the completion that is pushed for the first part that
    is left answers a request, inside its buffer, and the transfer can go on
    ending with the others. *)
Lemma deliver_answers rs t p ps status text m :
  finishable t m -> serves_some rs t -> parts t = p :: ps ->
  let '(c, m') := deliver_part t status text m p in
  (exists r, r ∈ rs /\ fulfils r c m') /\ (forall a, in_answer c a -> in_buffer p a) /\
  (forall a, ~ in_buffer p a -> m' a = m a) /\ finishable (t <| parts := ps |>) m'.
Proof using Type.
  intros [Hd Hap Hr Hst] Hs Hp.
  assert (Hin : p ∈ parts t) by (rewrite Hp; by left).
  assert (Hrest : deliverable (t <| parts := ps |>) /\ StronglySorted apart ps).
  { rewrite Hp in Hap. apply StronglySorted_inv in Hap as [Hap _]. destruct Hd as (Hin' & Hd).
    rewrite Hp in Hin'. by apply Forall_cons_iff in Hin' as [_ Hin']. }
  assert (Hless : forall m', staged (object_of (t_locator t)) t m' -> finishable (t <| parts := ps |>) m').
  { intros m' Hm. destruct Hrest. constructor; [done..|]. revert Hm. unfold staged. cbn. destruct (scratch t) as [s|].
    - rewrite Hp. by intros [? [_ ?]%Forall_cons_iff].
    - intros Hm q i Hq. apply Hm. rewrite Hp. by right. }
  pose proof Hd as (Hbounds & _). rewrite Forall_forall in Hbounds. specialize (Hbounds p Hin). unfold part_end in Hbounds.
  unfold serves_some in Hs. rewrite Forall_forall in Hs. destruct (Hs p Hin) as (r & Hr' & Hserve).
  destruct (decide (status = KARU_OK)) as [->|Hne].
  - pose proof (deliver_part_ok _ t m p text Hd Hr Hst Hin) as Hdp. destruct (deliver_part _ _ _ _ _) as [c m'].
    destruct Hdp as (Hc & Hf & Hst'). split_and!; [exists r; split; [done|eapply completes_answers; [done|lia|done]]| |done|by apply Hless].
    intros a. destruct Hc as (_ & C2 & _ & C4 & _). unfold in_answer, in_buffer, part_end in *.
    destruct (Z.leb_spec (relative_offset p + p_length p) (received t)); destruct C4 as [_ C4]; lia.
  - unfold deliver_part. rewrite bool_decide_false by done. split_and!; [|cbn; unfold in_answer, in_buffer; cbn; lia|done|by apply Hless].
    exists r. split; [done|]. apply (fails_answers t status _ p); [done|lia|done|by split_and!].
Qed.

(** ** A new plan *)

Definition all_parts (ts : list Transfer) : list Part := List.concat (map parts ts).

Definition first_place (t : Transfer) : place :=
  if bool_decide (backend (t_locator t) = File) then AtFile else AtRest.

Lemma transfer_of_holds batch o t vs m :
  transfer_of batch o t vs -> StronglySorted sorts_before vs -> StronglySorted apart (parts t) ->
  holds (first_place t) t m /\ t_batch t = batch.
Proof using Type.
  intros Ht Hs Hap. pose proof (transfer_of_well_shaped _ _ _ _ Ht Hs) as Hsh.
  destruct (transfer_of_serves _ _ _ _ Ht) as [Hserve _].
  assert (Hbuf : Forall (fun p => p_buffer p <> 0) (parts t)).
  { apply Forall_forall. intros p (r & _ & Hr)%(Forall2_elem_of_r _ _ _ _ Hserve). apply Hr. }
  clear Hserve. destruct Ht as (head & mg & l & _ & _ & _ & _ & E).
  assert (H0 : scratch t = None /\ resumed t = 0 /\ received t = 0 /\ sink t = 0 /\ t_batch t = batch)
    by by rewrite E.
  clear E. destruct H0 as (E1 & E2 & E3 & E4 & E5). split; [|done].
  pose proof Hsh as (_ & _ & _ & _ & Ho & Hl & Hmax & Hone).
  assert (Hld : loaded t m).
  { constructor; rewrite ?E2, ?E3; try done; [lia|lia|]. by apply delivered_nothing. }
  unfold first_place. case_bool_decide as Hb; [done|]. split; [done|]. split_and!; [done|done|].
  intros Esc. apply Hone in Esc. destruct (parts t) as [|p [|]]; [done| |done].
  exists p. apply Forall_cons_iff in Hbuf as [? _]. auto.
Qed.

Lemma refuses_answers c r m : wf_request r -> refuses c r -> fulfils r c m /\ got c = 0.
Proof using Type.
  intros (_ & Hl & _) (_ & H1 & H2 & H3 & H4 & H5). split; [|done]. constructor; rewrite ?H2, ?H3, ?H4, ?H5; try done; try lia.
  - destruct (Z.eqb_spec (buffer r) 0); [lia|done].
  - by destruct (_ && _).
Qed.

Lemma plan_transfers_holds batch rs o heap p heap' m :
  Forall wf_request rs -> plan_options_ok o ->
  plan_transfers batch rs o heap = (p, KARU_OK, heap') -> StronglySorted apart (all_parts (transfers p)) ->
  Forall (fun t => holds (first_place t) t m /\ t_batch t = batch /\ serves_some rs t) (transfers p) /\
  Forall (fun c => (exists r, r ∈ rs /\ fulfils r c m) /\ got c = 0) (immediate p).
Proof using Type.
  intros Hrs Ho Hp Hap.
  destruct (plan_transfers_groups _ _ _ _ _ _ Hrs Ho Hp) as (refused & groups & H1 & H2 & H3 & Hs). split.
  - unfold all_parts in Hap. apply StronglySorted_concat in Hs, Hap. rewrite Forall_forall in Hs.
    rewrite Forall_forall in Hap. apply Forall_forall.
    intros t Ht. destruct (Forall2_elem_of_l _ _ _ _ H3 Ht) as (vs & Hvs & Htvs).
    destruct (transfer_of_holds batch o t vs m Htvs) as [Hh Hb]; [by apply Hs| |].
    { apply Hap. by apply list_elem_of_fmap_2. }
    split_and!; [done|done|]. destruct (transfer_of_serves _ _ _ _ Htvs) as [Hserve _].
    apply Forall_forall. intros q (r & Hr & Hq)%(Forall2_elem_of_r _ _ _ _ Hserve). exists r. split; [|done].
    rewrite H1. apply elem_of_app. right. rewrite concat_map. apply list_elem_of_In, in_concat. exists (map request vs).
    split; [by apply list_elem_of_In, list_elem_of_fmap_2|by apply list_elem_of_In].
  - apply Forall_forall. intros c (r & Hr & Hc)%(Forall2_elem_of_l _ _ _ _ H2).
    assert (Hin : r ∈ rs) by (rewrite H1; apply elem_of_app; by left).
    rewrite Forall_forall in Hrs. destruct (refuses_answers c r m (Hrs r Hin) Hc). eauto.
Qed.

End Places.
