(* ===== verification/Answers.v ===== *)
(** * Answers: what a consumer is handed is what it asked for

    The bytes of the whole engine of [src/src/runtime/engine.cpp], on every
    schedule: wherever a transfer is, what it received is in place ([Places]);
    the buffers and staging areas of the transfers and of the answers that wait for their
    consumer do not overlap; so whatever a worker writes for one transfer
    leaves all others alone, and an answer still holds the object's bytes when
    [next] hands it out.  The steps are those of [Schedule], with what the
    servers, the file system and the allocator answer taken to be honest. *)

From S2P Require Import Prelude Text Uri Types Planner Response Transport Batch Engine System Schedule Places.

Section Answers.
Context `{RequestBuilding}.
Variable options : ClientOptions.
Variable obj : Backend -> str -> object_bytes.

(** ** Where the transfers are, with what holds of them there *)

Definition placed_loop (l : IoLoop) : list (place * Transfer) :=
  map (pair AtRest) (pending l) ++ map (pair AtActive) (active l)
  ++ map (pair AtRest) (map snd (retry_queue l)) ++ map (pair AtReady) (resolving l)
  ++ map (pair AtReady) (waiting l).

Definition placed (e : EngineState) : list (place * Transfer) :=
  map (pair AtFile) (file_queue e) ++ map (pair AtRest) (credential_queue e)
  ++ map (pair AtRest) (http_queue e) ++ map (pair AtFile) (file_hands e)
  ++ map (pair AtRest) (credential_hands e) ++ List.concat (map placed_loop (loops e))
  ++ map (fun c => (AtClosing, cl_transfer c)) (closing e).

Lemma map_snd_pair (pl : place) (ts : list Transfer) : map snd (map (pair pl) ts) = ts.
Proof using Type. rewrite map_map. apply map_id. Qed.

Lemma placed_transfers e : map snd (placed e) = transfers_of e.
Proof using Type.
  unfold placed, transfers_of, queued. rewrite !map_app, !map_snd_pair, concat_map, !map_map, <-!app_assoc. do 5 f_equal.
  apply (f_equal2 app); [|done]. f_equal. apply map_ext. intros l. unfold placed_loop, loop_transfers.
  by rewrite !map_app, !map_snd_pair.
Qed.

(** ** Buffers that do not overlap, and answers that hold *)

(** The requests of every batch. *)
Abbreviation asks := (gmap nat (list Request)).
Definition asks_of (G : asks) (id : nat) : list Request := default [] (G !! id).

(** An address that a transfer or an answer still needs. *)
Definition in_parts (ps : list Part) (a : Z) : Prop := Exists (fun p => in_buffer p a) ps.
Definition in_answers (bs : gmap nat karu_batch) (a : Z) : Prop :=
  exists id b c, bs !! id = Some b /\ c ∈ ready_queue b /\ in_answer c a.

Definition all_spaces (ts : list Transfer) : list Part := List.concat (map spaces ts).
Definition parts_in (ps : list (place * Transfer)) : list Part := all_spaces (map snd ps).

(** The transfers [ps], the batches [bs] and memory. *)
Record sound (G : asks) (ps : list (place * Transfer)) (bs : gmap nat karu_batch) (m : memory) : Prop := {
  so_holds : Forall (fun x => holds obj x.1 x.2 m) ps;
  so_serves : Forall (fun x => serves_some (asks_of G (t_batch x.2)) x.2) ps;
  so_apart : StronglySorted apart (parts_in ps);
  so_answers : forall id b c, bs !! id = Some b -> c ∈ ready_queue b ->
    exists r, r ∈ asks_of G id /\ fulfils obj r c m;
  so_clear : forall a, in_answers bs a -> ~ in_parts (parts_in ps) a;
  so_new : forall id, bs !! id = None -> asks_of G id = [];
}.

(** The same while a worker holds [t] outside every queue. *)
Record held (G : asks) (t : Transfer) (ps : list (place * Transfer)) (bs : gmap nat karu_batch)
    (m : memory) : Prop := {
  hd_sound : sound G ps bs m;
  hd_serves : serves_some (asks_of G (t_batch t)) t;
  hd_apart : StronglySorted apart (spaces t ++ parts_in ps);
  hd_clear : forall a, in_answers bs a -> ~ in_parts (spaces t) a;
}.

#[local] Instance apart_symmetric : Symmetric apart.
Proof using Type. unfold apart. intros p q. lia. Qed.

Lemma parts_in_cons pl t ps : parts_in ((pl, t) :: ps) = spaces t ++ parts_in ps.
Proof using Type. done. Qed.

Lemma parts_in_app ps qs : parts_in (ps ++ qs) = parts_in ps ++ parts_in qs.
Proof using Type. unfold parts_in, all_spaces. by rewrite !map_app, concat_app. Qed.

Lemma parts_in_perm ps qs : ps ≡ₚ qs -> parts_in ps ≡ₚ parts_in qs.
Proof using Type.
  induction 1 as [|[pl t] ps qs _ IH|[pl t] [pl' t'] ps|? ? ? _ IH1 _ IH2]; rewrite ?parts_in_cons; [done|by rewrite IH| |by rewrite IH1].
  solve_Permutation.
Qed.

Lemma in_parts_app ps qs a : in_parts (ps ++ qs) a <-> in_parts ps a \/ in_parts qs a.
Proof using Type. apply Exists_app. Qed.

Lemma in_parts_perm ps qs a : ps ≡ₚ qs -> in_parts ps a -> in_parts qs a.
Proof using Type. intros Hp. unfold in_parts. rewrite !Exists_exists. intros (p & Hin & ?). exists p. by rewrite <-Hp. Qed.

Lemma sound_perm G ps qs bs m : ps ≡ₚ qs -> sound G ps bs m -> sound G qs bs m.
Proof using Type.
  intros Hp [H1 H2 H3 H4 H5 H6]. pose proof (parts_in_perm _ _ Hp) as Hpp.
  constructor; [by rewrite <-Hp..| |done| |done].
  - exact (StronglySorted_perm _ _ _ Hpp H3).
  - intros a Ha Hin. apply (H5 a Ha). by apply (in_parts_perm (parts_in qs)).
Qed.

Lemma sound_purge G ps qs bs m : sound G (ps ++ qs) bs m -> sound G qs bs m.
Proof using Type.
  intros [[_ H1]%Forall_app [_ H2]%Forall_app H3 H4 H5 H6]. rewrite parts_in_app in H3.
  apply StronglySorted_app in H3 as (_ & _ & H3). constructor; [done..| |done].
  intros a Ha Hin. apply (H5 a Ha). rewrite parts_in_app. apply in_parts_app. by right.
Qed.

Lemma sound_less G ps qs bs m : qs ⊆+ ps -> sound G ps bs m -> sound G qs bs m.
Proof using Type.
  intros (ks & Hk)%submseteq_Permutation Hs. apply (sound_purge G ks). apply (sound_perm G ps); [|done].
  by rewrite Hk, Permutation_app_comm.
Qed.

(** Queues of answers that only got shorter. *)
Definition fewer (b b' : karu_batch) : Prop := forall c, c ∈ ready_queue b' -> c ∈ ready_queue b.
Definition fewer_answers (bs bs' : gmap nat karu_batch) : Prop :=
  forall id, option_Forall2 fewer (bs !! id) (bs' !! id).

Lemma fewer_some bs bs' id b' :
  fewer_answers bs bs' -> bs' !! id = Some b' -> exists b, bs !! id = Some b /\ fewer b b'.
Proof using Type. intros Hf Hb. specialize (Hf id). rewrite Hb in Hf. inversion Hf; subst. by eexists. Qed.

Lemma in_answers_fewer bs bs' a : fewer_answers bs bs' -> in_answers bs' a -> in_answers bs a.
Proof using Type.
  intros Hf (id & b' & c & Hb & Hc & Ha). destruct (fewer_some _ _ _ _ Hf Hb) as (b & Hb0 & Hsub).
  exists id, b, c. auto.
Qed.

Lemma sound_fewer G ps bs bs' m : fewer_answers bs bs' -> sound G ps bs m -> sound G ps bs' m.
Proof using Type.
  intros Hf [H1 H2 H3 H4 H5 H6]. constructor; [done..| | |].
  - intros id b' c Hb Hc. destruct (fewer_some _ _ _ _ Hf Hb) as (b & Hb0 & Hsub). eauto.
  - intros a Ha. by apply H5, (in_answers_fewer bs bs').
  - intros id Hid. apply H6. specialize (Hf id). rewrite Hid in Hf. by inversion Hf.
Qed.

Lemma held_fewer G t ps bs bs' m : fewer_answers bs bs' -> held G t ps bs m -> held G t ps bs' m.
Proof using Type.
  intros Hf [H1 H2 H3 H4]. constructor; [by apply (sound_fewer G ps bs)|done..|].
  intros a Ha. by apply H4, (in_answers_fewer bs bs').
Qed.

Lemma fewer_insert bs id b b' : bs !! id = Some b -> fewer b b' -> fewer_answers bs (<[id := b']> bs).
Proof using Type.
  intros Hb Hsub i. destruct (decide (id = i)) as [<-|Hne].
  - rewrite lookup_insert_eq, Hb. by constructor.
  - rewrite lookup_insert_ne by done. destruct (bs !! i); constructor. by intros c.
Qed.

Lemma fewer_alter bs id f :
  (forall b, ready_queue (f b) = ready_queue b) -> fewer_answers bs (alter f id bs).
Proof using Type.
  intros Hf i. destruct (decide (id = i)) as [<-|Hne].
  - rewrite lookup_alter_eq. destruct (bs !! id); constructor. intros c. by rewrite Hf.
  - rewrite lookup_alter_ne by done. destruct (bs !! i); constructor. by intros c.
Qed.

(** ** A worker takes a transfer and gives it back *)

Lemma sound_take G pl t ps bs m :
  sound G ((pl, t) :: ps) bs m -> holds obj pl t m /\ held G t ps bs m.
Proof using Type.
  intros Hs. pose proof Hs as [[H1 _]%Forall_cons_iff [H2 _]%Forall_cons_iff H3 H4 H5 H6]. split; [done|].
  constructor; [by apply (sound_purge G [(pl, t)])|done|done|].
  intros a Ha Hin. apply (H5 a Ha). rewrite parts_in_cons. apply in_parts_app. by left.
Qed.

Lemma sound_put G pl t ps bs m :
  held G t ps bs m -> holds obj pl t m -> sound G ((pl, t) :: ps) bs m.
Proof using Type.
  intros [[H1 H2 H3 H4 H5 H6] Hs Ha Hc] Hh. constructor; [by constructor|by constructor|done|done| |done].
  intros a Ha'. rewrite parts_in_cons, in_parts_app. intros [Hin|Hin]; [by apply (Hc a)|by apply (H5 a)].
Qed.

Lemma sublist_sorted (ps qs : list Part) : ps `sublist_of` qs -> StronglySorted apart qs -> StronglySorted apart ps.
Proof using Type.
  induction 1 as [|p ps qs Hsub IH|p ps qs Hsub IH]; intros Hq; [done| |]; apply StronglySorted_inv in Hq as [Hq Hp].
  - constructor; [by apply IH|]. rewrite Forall_forall in *. intros q Hin. apply Hp. by eapply elem_of_sublist.
  - by apply IH.
Qed.

(** A worker that needs less memory for the same job. *)
Lemma held_less G t t' ps bs m :
  t_batch t' = t_batch t -> serves_some (asks_of G (t_batch t)) t' -> spaces t' `sublist_of` spaces t ->
  held G t ps bs m -> held G t' ps bs m.
Proof using Type.
  intros Hb Hserves Hsub [H1 H2 H3 H4]. constructor; [done|by rewrite Hb| |].
  - apply StronglySorted_app in H3 as (H3 & Ha & Hps). apply StronglySorted_app. split_and!; [|by eapply sublist_sorted|done].
    intros p q Hp. apply H3. by eapply elem_of_sublist.
  - intros a Ha Hin. apply (H4 a Ha). unfold in_parts in *. rewrite Exists_exists in *.
    destruct Hin as (p & Hp & Hpa). exists p. split; [by eapply elem_of_sublist|done].
Qed.

Lemma held_job G t t' ps bs m : same_job t t' -> scratch t' = None -> held G t ps bs m -> held G t' ps bs m.
Proof using Type.
  intros Hj Hsc Hh. pose proof Hj as (J1 & _ & _ & J4 & _). apply (held_less G t); [done| | |done].
  - apply (serves_some_job _ t); [done|apply Hh].
  - rewrite (spaces_parts t') by done. rewrite J4. unfold spaces. apply sublist_inserts_r. done.
Qed.

(** Memory that nobody else needs. *)
Lemma held_memory G t ps bs m m' :
  held G t ps bs m -> (forall a, in_parts (parts_in ps) a \/ in_answers bs a -> m' a = m a) ->
  held G t ps bs m'.
Proof using Type.
  intros [[H1 H2 H3 H4 H5 H6] Hs Ha Hc] Hm. constructor; [|done..]. constructor; [|done..| |done|done].
  - apply Forall_forall. intros [pl u] Hu. rewrite Forall_forall in H1. apply (holds_frame obj _ _ m); [|by apply H1].
    intros p a Hp Hin. apply Hm. left. apply Exists_exists. exists p. split; [|done].
    apply list_elem_of_In, in_concat. exists (spaces u). split; [|by apply list_elem_of_In].
    apply list_elem_of_In, list_elem_of_fmap_2. exact (list_elem_of_fmap_2 snd _ _ Hu).
  - intros id b c Hb Hcb. destruct (H4 id b c Hb Hcb) as (r & Hr & Hans). exists r. split; [done|].
    apply (answers_frame obj r c m); [|done]. intros a Ha'. apply Hm. right. by exists id, b, c.
Qed.

Lemma held_elsewhere G t ps bs m a :
  held G t ps bs m -> in_parts (parts_in ps) a \/ in_answers bs a -> ~ in_parts (spaces t) a.
Proof using Type.
  intros [_ _ Ha Hc] [Hin|Hin]; [|by apply Hc]. unfold in_parts in *. rewrite Exists_exists in *.
  destruct Hin as (q & Hq & Hqa). intros (p & Hp & Hpa). apply (apart_not_in p q a); [|done..].
  eapply StronglySorted_app_1_elem_of; [exact Ha|done|done].
Qed.

Lemma held_frame G t ps bs m m' : held G t ps bs m -> frame t m m' -> held G t ps bs m'.
Proof using Type.
  intros Hh Hf. apply (held_memory G t ps bs m); [done|]. intros a Ha. apply Hf.
  apply Forall_Exists_neg. intros Hin. apply (held_elsewhere G t ps bs m a Hh Ha). apply in_parts_app. by left.
Qed.

(** An answer joins the queue of its batch. *)
Lemma sound_answer G ps bs m id b b' c :
  sound G ps bs m -> bs !! id = Some b -> ready_queue b' = ready_queue b ++ [c] ->
  (exists r, r ∈ asks_of G id /\ fulfils obj r c m) -> (forall a, in_answer c a -> ~ in_parts (parts_in ps) a) ->
  sound G ps (<[id := b']> bs) m.
Proof using Type.
  intros [H1 H2 H3 H4 H5 H6] Hb Hq Hc Hclear. constructor; [done..| | |].
  - intros i b0 c0. destruct (decide (id = i)) as [<-|Hne].
    + rewrite lookup_insert_eq. intros [= <-]. rewrite Hq.
      intros [Hin|Hin%list_elem_of_singleton]%elem_of_app; [by eapply H4|by subst c0].
    + rewrite lookup_insert_ne by done. apply H4.
  - intros a (i & b0 & c0 & Hb0 & Hc0 & Hac). revert Hb0. destruct (decide (id = i)) as [<-|Hne].
    + rewrite lookup_insert_eq. intros [= <-]. rewrite Hq in Hc0.
      apply elem_of_app in Hc0 as [Hin| ->%list_elem_of_singleton]; [|by apply Hclear]. apply H5. by exists id, b, c0.
    + rewrite lookup_insert_ne by done. intros Hb0. apply H5. by exists i, b0, c0.
  - intros i. destruct (decide (id = i)) as [<-|Hne]; [by rewrite lookup_insert_eq|].
    rewrite lookup_insert_ne by done. apply H6.
Qed.

(** The next completion of a transfer that ends is pushed. *)
Lemma sound_deliver G t p rest status text ps bs m b :
  held G t ps bs m -> finishable obj t m -> parts t = p :: rest -> bs !! t_batch t = Some b ->
  let '(c, m') := deliver_part t status text m p in
  sound G ((AtClosing, t <| parts := rest |>) :: ps) (<[t_batch t := push b c]> bs) m'.
Proof using Type.
  intros Hh Hf Hp Hb. pose proof (deliver_answers obj _ t p rest status text m Hf (hd_serves _ _ _ _ _ Hh) Hp) as Hd.
  destruct (deliver_part t status text m p) as [c m']. destruct Hd as (Hc & Hin & Hm & Hf').
  assert (Hpart : forall a, in_buffer p a -> in_parts (spaces t) a).
  { intros a Ha. unfold spaces. rewrite Hp. apply Exists_cons_hd, Ha. }
  assert (Hh' : held G t ps bs m').
  { apply (held_memory G t ps bs m); [done|]. intros a Ha. apply Hm. intros Hpa.
    by apply (held_elsewhere G t ps bs m a Hh Ha), Hpart. }
  set (t' := t <| parts := rest |>) in *.
  assert (Hsp : spaces t = p :: spaces t') by (unfold spaces; by rewrite Hp).
  assert (Hs : sound G ((AtClosing, t') :: ps) bs m').
  { apply sound_put; [|exact Hf']. apply (held_less G t); [done| |rewrite Hsp; by apply sublist_cons|done].
    pose proof (hd_serves _ _ _ _ _ Hh) as Hs. unfold serves_some in *. rewrite Hp in Hs. by apply Forall_cons_iff in Hs as [_ Hs]. }
  apply (sound_answer G _ bs m' _ b _ c); [done|done|done|done|]. intros a Ha. apply Hin in Ha.
  rewrite parts_in_cons. pose proof (hd_apart _ _ _ _ _ Hh) as Hap. rewrite Hsp in Hap. cbn in Hap.
  apply StronglySorted_inv in Hap as [_ Hap]. rewrite Forall_forall in Hap. unfold in_parts. rewrite Exists_exists.
  intros (q & Hq & Hqa). by apply (apart_not_in p q a (Hap q Hq)).
Qed.

(** ** The engine *)

Definition sound_engine (G : asks) (e : EngineState) : Prop := sound G (placed e) (batches e) (e_memory e).
Definition held_engine (G : asks) (t : Transfer) (e : EngineState) : Prop :=
  held G t (placed e) (batches e) (e_memory e).

Lemma placed_with_loop e i l :
  loops e !! i = Some l ->
  exists rest, placed e ≡ₚ placed_loop l ++ rest /\
    forall f, placed (with_loop i f e) ≡ₚ placed_loop (f l) ++ rest.
Proof using Type.
  intros Hl.
  assert (Hsplit : exists rest, List.concat (map placed_loop (loops e)) ≡ₚ placed_loop l ++ rest /\
    forall f, List.concat (map placed_loop (alter f i (loops e))) ≡ₚ placed_loop (f l) ++ rest).
  { revert i Hl. induction (loops e) as [|l0 ls IH]; intros [|i]; cbn; [done|done| |].
    - intros [= ->]. by eexists.
    - intros Hl. destruct (IH i Hl) as (rest & H1 & H2). exists (placed_loop l0 ++ rest).
      split; [|intros f]; rewrite ?H1, ?H2; by rewrite Permutation_app_swap_app. }
  destruct Hsplit as (rest & H1 & H2). unfold placed.
  exists (map (pair AtFile) (file_queue e) ++ map (pair AtRest) (credential_queue e)
    ++ map (pair AtRest) (http_queue e) ++ map (pair AtFile) (file_hands e)
    ++ map (pair AtRest) (credential_hands e) ++ rest ++ map (fun c => (AtClosing, cl_transfer c)) (closing e)).
  split; [rewrite H1|intros f; cbn; rewrite H2]; by solve_Permutation.
Qed.

Lemma with_loop_none i f e : loops e !! i = None -> with_loop i f e = e.
Proof using Type. intros Hl. unfold with_loop. rewrite alter_none by done. by destruct e. Qed.

(** A loop moves its transfers around, drops some, or takes one in. *)
Lemma sound_with_loop G i f e :
  (forall l, placed_loop (f l) ⊆+ placed_loop l) -> sound_engine G e -> sound_engine G (with_loop i f e).
Proof using Type.
  intros Hf Hs. destruct (loops e !! i) as [l|] eqn:Hl; [|by rewrite with_loop_none].
  destruct (placed_with_loop e i l Hl) as (rest & H1 & H2). unfold sound_engine.
  apply (sound_less G (placed e)); [|done]. rewrite H1, H2. apply submseteq_app; [apply Hf|done].
Qed.

Lemma join_loop_sound G i f e pl t :
  (forall l, placed_loop (f l) ≡ₚ (pl, t) :: placed_loop l) ->
  held_engine G t e -> holds obj pl t (e_memory e) -> sound_engine G (with_loop i f e).
Proof using Type.
  intros Hf Hh Hp. destruct (loops e !! i) as [l|] eqn:Hl; [|rewrite with_loop_none by done; apply Hh].
  destruct (placed_with_loop e i l Hl) as (rest & H1 & H2). unfold sound_engine.
  apply (sound_perm G ((pl, t) :: placed e)); [by rewrite H2, Hf, H1|]. by apply sound_put.
Qed.

Lemma leave_loop_sound G i f e l pl t :
  loops e !! i = Some l -> placed_loop l ≡ₚ (pl, t) :: placed_loop (f l) -> sound_engine G e ->
  holds obj pl t (e_memory e) /\ held_engine G t (with_loop i f e).
Proof using Type.
  intros Hl Hp Hs. destruct (placed_with_loop e i l Hl) as (rest & H1 & H2). apply sound_take.
  apply (sound_perm G (placed e)); [|done]. by rewrite H1, H2, Hp.
Qed.

Lemma sound_discard G t e : sound_engine G e -> sound_engine G (discard t e).
Proof using Type. apply sound_fewer, fewer_alter. done. Qed.

Lemma sound_discard_all G ts e : sound_engine G e -> sound_engine G (discard_all ts e).
Proof using Type.
  intros Hs. induction ts as [|t ts IH]; [done|]. cbn. fold (discard_all ts e). by apply sound_discard.
Qed.

(** A transfer that ends. *)
Lemma sound_start_closing G t status text e :
  held_engine G t e -> finishable obj t (e_memory e) -> sound_engine G (start_closing t status text e).
Proof using Type.
  intros Hh Hf. apply (sound_fewer G _ (batches e)); [by apply fewer_alter|].
  apply (sound_perm G ((AtClosing, t) :: placed e)); [|by apply sound_put].
  unfold placed. cbn. rewrite map_app. cbn. solve_Permutation.
Qed.

Lemma sound_close_turn G k e : sound_engine G e -> sound_engine G (close_turn k e).
Proof using Type.
  intros Hs. unfold close_turn. destruct (closing e !! k) as [c|] eqn:Hk; [|done]. cbv zeta. set (t := cl_transfer c).
  destruct (batches e !! t_batch t) as [b|] eqn:Hb; [|done].
  set (others := placed (e <| closing := delete k (closing e) |>)).
  assert (Hperm : placed e ≡ₚ (AtClosing, t) :: others).
  { unfold placed, others. cbn. rewrite (delete_Permutation _ _ _ Hk) at 1. cbn. solve_Permutation. }
  apply (sound_perm _ _ _ _ _ Hperm) in Hs. destruct (sound_take _ _ _ _ _ _ Hs) as [Hf Hh].
  destruct (parts t) as [|p ps] eqn:Hp.
  - apply (sound_fewer G _ (batches e)); [apply (fewer_insert _ _ b); [done|by intros x]|]. apply Hh.
  - pose proof (sound_deliver G t p ps (cl_status c) (cl_text c) _ _ _ b Hh Hf Hp Hb) as Hd.
    destruct (deliver_part _ _ _ _ _) as [completion m]. revert Hd. apply sound_perm.
    unfold placed, others. cbn. rewrite (closing_insert _ _ _ _ Hk). cbn. solve_Permutation.
Qed.

Lemma fits_scratch out m : fits obj out m ->
  match out with Discard _ => True | _ => scratch (outcome_transfer out) = None end.
Proof using Type.
  destruct out; cbn [fits outcome_transfer]; try (by intros [_ ?]); try done; intros (Hl & _); apply Hl.
Qed.

(** A worker disposes of the transfer it took. *)
Lemma sound_dispose G i out e u :
  held_engine G u e -> same_job u (outcome_transfer out) -> fits obj out (e_memory e) -> sound_engine G (dispose i out e).
Proof using Type.
  intros Hu Hj Hf. pose proof (fits_scratch _ _ Hf) as Hsc.
  destruct out as [t status text|t|t|t|t|t|due t|t]; cbn [dispose outcome_transfer fits] in *.
  2: by apply sound_discard, Hu.
  all: pose proof (held_job _ _ _ _ _ _ Hj Hsc Hu) as Hh; clear Hu Hj u; change (held_engine G t e) in Hh.
  - apply sound_start_closing; [done|apply Hf].
  - eapply join_loop_sound; [|done..]. intros l. unfold placed_loop. cbn. rewrite !map_app. cbn. solve_Permutation.
  - eapply join_loop_sound; [|done..]. intros l. unfold placed_loop. cbn. rewrite !map_app. cbn. solve_Permutation.
  - eapply join_loop_sound; [|done..]. intros l. unfold placed_loop. cbn. solve_Permutation.
  - apply (sound_perm G ((AtRest, t) :: placed e)); [|by apply sound_put]. unfold placed. cbn. solve_Permutation.
  - eapply join_loop_sound; [|done..]. intros l. unfold placed_loop. cbn. rewrite !map_app. cbn. solve_Permutation.
  - unfold queue_http. destruct (stop e); [apply sound_discard, Hh|].
    apply (sound_perm G ((AtRest, t) :: placed e)); [|by apply sound_put]. unfold placed. cbn. rewrite !map_app. cbn.
    solve_Permutation.
Qed.

(** *** The turns of an I/O loop *)

Lemma sound_take_http G i e : sound_engine G e -> sound_engine G (take_http i e).
Proof using Type.
  intros Hs. unfold take_http. destruct (loops e !! i) as [l|] eqn:Hi; [|done].
  set (e1 := e <| http_queue := _ |>). assert (Hi1 : loops e1 !! i = Some l) by done.
  destruct (placed_with_loop e1 i l Hi1) as (rest & H1 & H2).
  apply (sound_perm G (placed e)); [|done]. rewrite H2.
  assert (Hq : placed e ≡ₚ map (pair AtRest) (take (room_for l) (http_queue e)) ++ placed e1).
  { unfold placed, e1. cbn. rewrite <-(take_drop (room_for l) (http_queue e)) at 1. rewrite map_app. solve_Permutation. }
  rewrite Hq, H1. unfold placed_loop. cbn. rewrite !map_app. solve_Permutation.
Qed.

Lemma sound_due_retries G i now e : sound_engine G e -> sound_engine G (due_retries i now e).
Proof using Type.
  apply sound_with_loop. intros l. apply Permutation_submseteq. unfold placed_loop. cbn.
  rewrite (filter_partition_dec (fun r => r.1 <= now) (retry_queue l)) at 3. rewrite !map_app. solve_Permutation.
Qed.

Lemma sound_swap_resolving G i e : sound_engine G e -> sound_engine G (swap_resolving i e).
Proof using Type.
  apply sound_with_loop. intros l. apply Permutation_submseteq. unfold placed_loop. cbn. rewrite !map_app. solve_Permutation.
Qed.

Lemma keep_less {A} (f : A -> place * Transfer) (P : A -> bool) xs :
  map f (base.filter (fun x => P x) xs) ⊆+ map f xs.
Proof using Type. apply fmap_submseteq, sublist_submseteq, sublist_filter. Qed.

Lemma sound_discard_cancelled G i e : sound_engine G e -> sound_engine G (discard_cancelled_http i e).
Proof using Type.
  intros Hs. unfold discard_cancelled_http. destruct (loops e !! i) as [l|]; [|done].
  apply sound_discard_all, sound_with_loop; [|done]. intros k. unfold placed_loop. cbn. rewrite !map_map.
  repeat apply submseteq_app; try done; apply keep_less.
Qed.

Lemma sound_start G i env (prepared : bool) e t :
  held_engine G t e -> holds obj (if prepared then AtReady else AtRest) t (e_memory e) ->
  sound_engine G (if is_cancelled e t then discard t e else dispose i (start_transfer options env t prepared) e).
Proof using Type.
  intros Hh Hp. destruct (is_cancelled e t); [apply sound_discard, Hh|].
  pose proof (start_transfer_same options env t prepared) as [Hj _].
  by apply (sound_dispose G i _ e t); [| |apply start_transfer_fits].
Qed.

Lemma sound_restart_waiting G i env e : sound_engine G e -> sound_engine G (restart_waiting options i env e).
Proof using Type.
  intros Hs. unfold restart_waiting. destruct (loops e !! i) as [l|] eqn:Hi; [|done].
  destruct (waiting l) as [|t rest] eqn:Hw; [done|]. set (f := fun l : IoLoop => _).
  destruct (leave_loop_sound G i f e l AtReady t Hi) as [Hp Hh]; [|done|by apply (sound_start G i env true)].
  unfold f, placed_loop. cbn. rewrite Hw. cbn. solve_Permutation.
Qed.

Lemma sound_start_pending G i env e : sound_engine G e -> sound_engine G (start_pending options i env e).
Proof using Type.
  intros Hs. unfold start_pending. destruct (loops e !! i) as [l|] eqn:Hi; [|done].
  destruct (_ <? _)%nat; [|done]. destruct (pending l) as [|t rest] eqn:Hw; [done|]. set (f := fun l : IoLoop => _).
  destruct (leave_loop_sound G i f e l AtRest t Hi) as [Hp Hh]; [|done|by apply (sound_start G i env false)].
  unfold f, placed_loop. cbn. rewrite Hw. cbn. solve_Permutation.
Qed.

(** The active transfer at [j] leaves its loop. *)
Lemma leave_active_sound G i j e l t :
  loops e !! i = Some l -> active l !! j = Some t -> sound_engine G e ->
  holds obj AtActive t (e_memory e) /\ held_engine G t (with_loop i (fun l => l <| active := delete j (active l) |>) e).
Proof using Type.
  intros Hi Hj. apply (leave_loop_sound G i _ e l AtActive t Hi). unfold placed_loop. cbn.
  rewrite (delete_Permutation _ _ _ Hj) at 1. cbn. solve_Permutation.
Qed.

(** A callback: the transfer stays where it is. *)
Lemma sound_callback G i j f e :
  (forall l t, loops e !! i = Some l -> active l !! j = Some t -> holds obj AtActive t (e_memory e) ->
     let '(u, m, _) := f t (e_memory e) in
     same_job t u /\ holds obj AtActive u m /\ frame t (e_memory e) m) ->
  sound_engine G e -> sound_engine G (callback i j f e).
Proof using Type.
  intros Hf Hs. unfold callback. destruct (loops e !! i) as [l|] eqn:Hi; [|done].
  destruct (active l !! j) as [t|] eqn:Hj; [|done].
  destruct (leave_active_sound G i j e l t Hi Hj Hs) as [Hp Hh]. specialize (Hf l t eq_refl Hj Hp).
  destruct (f t (e_memory e)) as [[u m] n]. destruct Hf as (Hsame & Hu & Hfr).
  apply (sound_fewer G _ (batches e)); [by apply fewer_alter|].
  pose proof (held_job _ _ _ _ _ _ Hsame (ld_scratch _ _ _ (proj1 Hu)) (held_frame _ _ _ _ _ _ Hh Hfr)) as Hh2.
  refine (sound_perm G _ _ _ _ _ (sound_put G AtActive u _ _ m Hh2 Hu)).
  destruct (placed_with_loop e i l Hi) as (rest & _ & H2).
  transitivity (placed (with_loop i (fun l => l <| active := <[j:=u]> (active l) |>) e)); [|done].
  rewrite !H2.
  unfold placed_loop. cbn.
  assert (Hju : <[j:=u]> (active l) !! j = Some u) by (apply list_lookup_insert_eq; by eapply lookup_lt_Some).
  rewrite (delete_Permutation _ _ _ Hju), delete_insert_same. cbn. solve_Permutation.
Qed.

Lemma sound_body G i j data size count code clen e :
  (forall l t, loops e !! i = Some l -> active l !! j = Some t -> honest_body obj t data size count code) ->
  sound_engine G e -> sound_engine G (callback i j (on_body data size count code clen) e).
Proof using Type.
  intros Hb. apply sound_callback. intros l t Hl Ht Hp. cbn -[holds].
  pose proof (write_callback_holds obj t (e_memory e) data size count code clen Hp (Hb l t Hl Ht)) as [Hh Hf].
  split_and!; [apply write_callback_same|done|done].
Qed.

Lemma sound_header G i j f g k line size count now e :
  (forall l t, loops e !! i = Some l -> active l !! j = Some t -> stopped t = false) ->
  sound_engine G e -> sound_engine G (callback i j (on_header f g k line size count now) e).
Proof using Type.
  intros Hb. apply sound_callback. intros l t Hl Ht Hp. cbn -[holds].
  split_and!; [apply header_callback_same|apply header_callback_holds; eauto|apply frame_refl].
Qed.

Lemma sound_fail_active G i j text e : sound_engine G e -> sound_engine G (fail_active i j text e).
Proof using Type.
  intros Hs. unfold fail_active. destruct (loops e !! i) as [l|] eqn:Hi; [|done].
  destruct (active l !! j) as [t|] eqn:Hj; [|done]. destruct (leave_active_sound G i j e l t Hi Hj Hs) as [Hp Hh].
  by apply (sound_dispose G i _ _ t); [| |apply rest_ends, active_rest].
Qed.

Lemma sound_message G i j env e : sound_engine G e -> sound_engine G (message options i j env e).
Proof using Type.
  intros Hs. unfold message. destruct (loops e !! i) as [l|] eqn:Hi; [|done].
  destruct (active l !! j) as [t|] eqn:Hj; [|done]. destruct (batches e !! t_batch t) as [b|] eqn:Hb; [|done].
  destruct (leave_active_sound G i j e l t Hi Hj Hs) as [Hp Hh].
  pose proof (on_done_same options env t b) as Hsame. pose proof (on_done_ledger options env t b) as (_ & _ & _ & Hq).
  pose proof (on_done_fits options obj env t b (e_memory e) (active_rest obj _ _ Hp)) as Hf.
  destruct (on_done options env t b) as [[out b'] inval]. destruct Hsame as [Hsame _]. cbn [fst snd] in *.
  apply (sound_dispose G i _ _ t); [|done|exact Hf].
  apply (held_fewer G t _ (batches e)); [|exact Hh]. apply (fewer_insert _ _ b); [done|]. intros c. by rewrite Hq.
Qed.

(** *** The worker pools *)

Lemma sound_take_file G e : sound_engine G e -> sound_engine G (take_file e).
Proof using Type.
  unfold take_file. destruct (file_queue e) as [|t rest] eqn:Hq; [done|]. apply sound_perm.
  unfold placed. cbn. rewrite Hq, map_app. cbn. solve_Permutation.
Qed.

Lemma sound_take_credential G e : sound_engine G e -> sound_engine G (take_credential e).
Proof using Type.
  unfold take_credential. destruct (stop e); [done|]. destruct (credential_queue e) as [|t rest] eqn:Hq; [done|].
  apply sound_perm. unfold placed. cbn. rewrite Hq, map_app. cbn. solve_Permutation.
Qed.

Lemma sound_work_credential G j env e : sound_engine G e -> sound_engine G (work_credential options j env e).
Proof using Type.
  intros Hs. unfold work_credential. destruct (credential_hands e !! j) as [t|] eqn:Hj; [|done].
  pose proof (credential_work_same options env t) as [Hsame _].
  set (e1 := e <| credential_hands := _ |>).
  destruct (sound_take G AtRest t (placed e1) (batches e) (e_memory e)) as [Hp Hh].
  { apply (sound_perm G (placed e)); [|done]. unfold placed, e1. cbn.
    rewrite (delete_Permutation _ _ _ Hj) at 1. cbn. solve_Permutation. }
  by apply (sound_dispose G 0 _ _ t); [| |apply credential_work_fits].
Qed.

(** The memory in use: the buffers and staging areas of the transfers, and the
    buffers of the answers. *)
Definition in_use (e : EngineState) (a : Z) : Prop :=
  in_parts (all_spaces (transfers_of e)) a \/ in_answers (batches e) a.

Lemma in_use_placed e a : in_use e a <-> in_parts (parts_in (placed e)) a \/ in_answers (batches e) a.
Proof using Type. unfold in_use, parts_in. by rewrite placed_transfers. Qed.

(** The allocator gives out [n] bytes nobody uses. *)
Definition fresh_area (e : EngineState) (n s : Z) : Prop :=
  s <> 0 -> forall a, in_use e a -> ~ (s <= a < s + n).

Lemma fresh_area_apart e t s :
  well_shaped t -> (forall a, in_parts (parts t) a -> in_use e a) -> fresh_area e (t_length t) s -> area_apart t s.
Proof using Type.
  intros (_ & _ & Hin & _ & _ & Hl & _) Huse Hf H0. apply Forall_forall. intros p Hp.
  rewrite Forall_forall in Hin. specialize (Hin p Hp). specialize (Hf H0 (Z.max (p_buffer p) s)).
  destruct (decide (p_buffer p + p_length p <= s)) as [|H1]; [by left|].
  destruct (decide (s + t_length t <= p_buffer p)) as [|H2]; [by right|]. exfalso. apply Hf; [|lia].
  apply Huse, Exists_exists. exists p. split; [done|]. unfold in_buffer. lia.
Qed.

Lemma disjoint_apart p q :
  1 <= p_length p -> 1 <= p_length q -> (forall a, in_buffer p a -> ~ in_buffer q a) -> apart p q.
Proof using Type.
  intros Hp Hq Hd. specialize (Hd (Z.max (p_buffer p) (p_buffer q))). unfold apart, in_buffer in *. lia.
Qed.

(** What a transfer that is somewhere needs is not empty. *)
Lemma spaces_lengths pl t m p : holds obj pl t m -> p ∈ spaces t -> 1 <= p_length p.
Proof using Type.
  intros Hh. assert (Hf : finishable obj t m).
  { destruct pl; [apply loaded_ends, Hh..|exact Hh]. }
  destruct Hf as [(Hin & _ & Hl & _) _ _ _]. rewrite Forall_forall in Hin.
  intros [Hp|Hp]%elem_of_app; [by apply Hin|]. unfold staging in Hp. destruct (scratch t) as [s|]; [|by apply elem_of_nil in Hp].
  apply list_elem_of_singleton in Hp as ->. cbn. lia.
Qed.

Lemma holds_lengths (xs : list (place * Transfer)) m p :
  Forall (fun x => holds obj x.1 x.2 m) xs -> p ∈ parts_in xs -> 1 <= p_length p.
Proof using Type.
  intros Hxs Hp. apply list_elem_of_In, in_concat in Hp as (ps & Hps & Hp%list_elem_of_In).
  apply list_elem_of_In, list_elem_of_fmap in Hps as (t & -> & Ht). apply list_elem_of_fmap in Ht as (x & -> & Hx).
  rewrite Forall_forall in Hxs. exact (spaces_lengths _ _ _ _ (Hxs x Hx) Hp).
Qed.

(** A worker takes a fresh area from the allocator for its transfer. *)
Lemma held_area G e t u ps :
  placed e ≡ₚ (AtFile, t) :: ps -> sound_engine G e -> same_job t u ->
  (forall s, scratch u = Some s -> s <> 0 /\ fresh_area e (t_length t) s) ->
  held G u ps (batches e) (e_memory e).
Proof using Type.
  intros Hperm Hs Hj Harea. apply (sound_perm _ _ _ _ _ Hperm) in Hs.
  pose proof (so_holds _ _ _ _ Hs) as Hall. destruct (sound_take _ _ _ _ _ _ Hs) as [Hp Hh].
  destruct (scratch u) as [s|] eqn:Esc; [|by apply (held_job G t)]. destruct (Harea s eq_refl) as [H0 Hfresh].
  pose proof Hj as (J1 & _ & _ & J4 & _ & J6 & _). pose proof (ld_scratch _ _ _ (proj1 Hp)) as Hsc.
  pose proof (ld_shape _ _ _ (proj1 Hp)) as (_ & _ & _ & _ & _ & Hl & _).
  assert (Huse : forall q a, q ∈ spaces t ++ parts_in ps -> in_buffer q a -> in_use e a).
  { intros q a Hq Ha. apply in_use_placed. left.
    apply (in_parts_perm _ _ a (Permutation_sym (parts_in_perm _ _ Hperm))). rewrite parts_in_cons. apply Exists_exists. eauto. }
  set (area := {| relative_offset := 0; p_length := t_length t; p_buffer := s; p_tag := 0; owned_buffer := 0 |}).
  assert (Hsp : spaces u ≡ₚ area :: spaces t).
  { unfold spaces, staging. rewrite Esc, Hsc, J4, J6. fold area. rewrite app_nil_r. by rewrite Permutation_app_comm. }
  destruct Hh as [H1 H2 H3 H4]. constructor; [done| | |].
  - rewrite J1. by apply (serves_some_job _ t).
  - apply (StronglySorted_perm apart (area :: spaces t ++ parts_in ps)); [by rewrite Hsp|].
    constructor; [done|]. apply Forall_forall. intros q Hq. apply disjoint_apart.
    + cbn. lia.
    + apply (holds_lengths _ _ q Hall). by rewrite parts_in_cons.
    + intros a Ha Hqa. apply (Hfresh H0 a); [by apply (Huse q)|exact Ha].
  - intros a Ha. unfold in_parts. rewrite Hsp, Exists_cons. intros [Hin|Hin]; [|by apply (H4 a)].
    apply (Hfresh H0 a); [by right|exact Hin].
Qed.

Lemma sound_work_file G j read_at env e :
  (forall t, file_hands e !! j = Some t ->
     reads_object read_at (object_of obj (t_locator t)) /\ Forall (fresh_area e (t_length t)) (file_alloc env)) ->
  sound_engine G e -> sound_engine G (work_file j read_at env e).
Proof using Type.
  intros Hhonest Hs. unfold work_file. destruct (file_hands e !! j) as [t|] eqn:Hj; [|done].
  destruct (Hhonest t eq_refl) as [Hread Hfresh]. destruct (batches e !! t_batch t) as [b|] eqn:Hb; [|done].
  set (e1 := e <| file_hands := delete j (file_hands e) |>).
  assert (Hperm : placed e ≡ₚ (AtFile, t) :: placed e1).
  { unfold placed, e1. cbn. rewrite (delete_Permutation _ _ _ Hj) at 1. cbn. solve_Permutation. }
  destruct (sound_take G AtFile t (placed e1) (batches e) (e_memory e)) as [Hp Hh].
  { by apply (sound_perm G (placed e)). }
  assert (Huse : forall a, in_parts (spaces t) a \/ in_parts (parts_in (placed e1)) a \/ in_answers (batches e) a ->
    in_use e a).
  { intros a Ha. apply in_use_placed. destruct Ha as [Ha|[Ha|Ha]]; [left|left|by right];
      apply (in_parts_perm _ _ a (Permutation_sym (parts_in_perm _ _ Hperm))); rewrite parts_in_cons, in_parts_app; auto. }
  assert (Hap : Forall (area_apart t) (file_alloc env)).
  { eapply Forall_impl; [exact Hfresh|]. intros s. apply fresh_area_apart; [apply Hp|].
    intros a Ha. apply Huse. left. apply in_parts_app. by left. }
  pose proof (file_work_outcome read_at env t (e_memory e) b) as [Hsame Hkind].
  pose proof (file_work_ledger read_at env t (e_memory e) b) as (_ & _ & _ & Hq).
  pose proof (file_work_fits obj read_at env t (e_memory e) b Hp Hread Hap) as Hw.
  destruct (file_work _ _ _ _ _) as [[out m] b']. destruct Hw as [Hfits Hout]. cbn [fst snd] in *.
  assert (Hkeep : forall u, same_job t u -> (forall s, scratch u = Some s -> s <> 0 /\ s ∈ file_alloc env) ->
    held G u (placed e1) (<[t_batch t := b']> (batches e)) m).
  { intros u Hju Hu. apply (held_fewer G u _ (batches e)); [apply (fewer_insert _ _ b); [done|intros c; by rewrite Hq]|].
    apply (held_memory G u _ _ (e_memory e)).
    - apply (held_area G e t u _ Hperm Hs Hju). intros s Es. destruct (Hu s Es) as [H0 Hin]. split; [done|].
      rewrite Forall_forall in Hfresh. by apply Hfresh.
    - intros a Ha. apply Hout. intros [Hin|(s & Hs0 & H0 & Hin)%Exists_exists].
      + apply (held_elsewhere _ _ _ _ _ a Hh Ha). apply in_parts_app. by left.
      + rewrite Forall_forall in Hfresh. apply (Hfresh s Hs0 H0 a); [auto|done]. }
  destruct out as [u status text|u|u|u|u|u|due u|u]; cbn [outcome_transfer file_fits dispose] in *; try done.
  - destruct Hfits as [Hfin Hscr]. apply sound_start_closing; [|done]. by apply Hkeep.
  - apply sound_discard. by apply (Hkeep t); [|intros s; rewrite (ld_scratch _ _ _ (proj1 Hp))].
Qed.

(** *** Cancelling and shutting down *)

Lemma less_others id pl ts : map (pair (pl : place)) (others id ts) ⊆+ map (pair pl) ts.
Proof using Type. apply fmap_submseteq, sublist_submseteq, sublist_filter. Qed.

Lemma sound_cancel_queues G id e : sound_engine G e -> sound_engine G (cancel_queues id e).
Proof using Type.
  intros Hs. apply sound_discard_all. apply (sound_less G (placed e)); [|done]. unfold placed. cbn.
  repeat apply submseteq_app; try done; apply less_others.
Qed.

Lemma sound_cancel_http G id e : sound_engine G e -> sound_engine G (cancel_http id e).
Proof using Type.
  intros Hs. apply sound_discard_all. apply (sound_less G (placed e)); [|done]. unfold placed. cbn.
  repeat apply submseteq_app; try done; apply less_others.
Qed.

Lemma sound_cancel_wake G e : sound_engine G e -> sound_engine G (cancel_wake e).
Proof using Type. apply sound_perm. unfold placed, cancel_wake. cbn. by rewrite map_map. Qed.

Lemma sound_drain_loop G i e : sound_engine G e -> sound_engine G (drain_loop i e).
Proof using Type.
  intros Hs. unfold drain_loop. destruct (loops e !! i) as [l|]; [|done].
  apply sound_discard_all, sound_with_loop; [|done]. intros k. unfold placed_loop. cbn.
  by do 4 apply submseteq_inserts_l.
Qed.

Lemma sound_drain_queues G e : sound_engine G e -> sound_engine G (drain_queues e).
Proof using Type.
  intros Hs. apply sound_discard_all. apply (sound_less G (placed e)); [|done]. unfold placed. cbn.
  by do 3 apply submseteq_inserts_l.
Qed.

(** *** Consumers *)

Lemma sound_consume G id timeout e : sound_engine G e -> sound_engine G (consume_next id timeout e).
Proof using Type.
  intros Hs. unfold consume_next. destruct (batches e !! id) as [b|] eqn:Hb; [|done].
  destruct (next b timeout) as [[[st oc] b']|] eqn:E; [|done]. apply next_some in E.
  apply (sound_fewer G _ (batches e)); [|exact Hs]. apply (fewer_insert _ _ b); [done|].
  destruct oc as [c|]; [destruct E as (_ & cs & Hq & ->)|destruct E as [-> _]; by intros c'].
  intros c' Hc. rewrite Hq. by right.
Qed.

(** ** A new batch *)

(** The destinations of a plan: the caller's buffers and those the allocator
    gave do not overlap each other or a buffer in use. *)
Definition fresh_buffers (e : EngineState) (id : nat) (rs : list Request) (plan_options : ClientOptions)
    (heap : list Z) : Prop :=
  let '(plan, status, _) := plan_transfers id rs plan_options heap in
  status = KARU_OK ->
  StronglySorted apart (all_parts (transfers plan)) /\
  (forall a, in_use e a -> ~ in_parts (all_parts (transfers plan)) a).

Definition settled (t : Transfer) : place * Transfer := (first_place t, t).

Lemma map_snd_settled ts : map snd (map settled ts) = ts.
Proof using Type. rewrite map_map. apply map_id. Qed.

Lemma settled_kinds ts :
  map settled ts ≡ₚ map (pair AtFile) (base.filter (fun t => is_file t) ts)
    ++ map (pair AtRest) (base.filter (fun t => needs_lookup t) ts)
    ++ map (pair AtRest) (base.filter (fun t => is_ready t) ts).
Proof using Type.
  rewrite (kinds_partition ts) at 1. rewrite !map_app. unfold settled, first_place.
  repeat apply Permutation_app; apply Permutation_refl'; apply map_ext_in; intros t Ht%list_elem_of_In;
    apply list_elem_of_filter in Ht as [Ht _]; unfold needs_lookup, is_ready, is_file in Ht; by case_bool_decide.
Qed.

(** What a new batch [id] for the requests [rs] brings: transfers [ts] that
    serve them, with buffers of their own, and answers without bytes. *)
Record brings (e : EngineState) (id : nat) (rs : list Request) (ts : list Transfer) (b : karu_batch) : Prop := {
  br_holds t : t ∈ ts -> holds obj (first_place t) t (e_memory e);
  br_serves t : t ∈ ts -> t_batch t = id /\ serves_some rs t;
  br_apart : StronglySorted apart (all_parts ts);
  br_fresh a : in_use e a -> ~ in_parts (all_parts ts) a;
  br_answers c : c ∈ ready_queue b -> (exists r, r ∈ rs /\ fulfils obj r c (e_memory e)) /\ got c = 0;
}.

Lemma asks_grow G ps bs m id rs i :
  sound G ps bs m -> bs !! id = None -> asks_of G i ⊆ asks_of (<[id := rs]> G) i.
Proof using Type.
  intros Hs Hnone. pose proof (so_new _ _ _ _ Hs id Hnone) as Hid. unfold asks_of in *.
  destruct (decide (id = i)) as [<-|Hne]; [|by rewrite lookup_insert_ne]. rewrite Hid. apply list_subseteq_nil.
Qed.

Lemma asks_new G id rs : asks_of (<[id := rs]> G) id = rs.
Proof using Type. unfold asks_of. by rewrite lookup_insert_eq. Qed.

Lemma serves_some_more rs rs' t : rs ⊆ rs' -> serves_some rs t -> serves_some rs' t.
Proof using Type.
  intros Hsub Hs. eapply Forall_impl; [exact Hs|]. intros p (r & Hr & Hp). exists r. split; [by apply Hsub|done].
Qed.

(** The transfers of a new batch join the engine. *)
Lemma sound_new_batch G id rs ts b e :
  batches e !! id = None -> brings e id rs ts b -> sound_engine G e ->
  sound (<[id := rs]> G) (map settled ts ++ placed e) (<[id := b]> (batches e)) (e_memory e).
Proof using Type.
  intros Hnone [B1 B2 B3 B4 B5] Hs. pose proof (fun i => asks_grow G _ _ _ id rs i Hs Hnone) as Hold.
  destruct Hs as [H1 H2 H3 H4 H5 H6].
  assert (Hholds : Forall (fun x => holds obj x.1 x.2 (e_memory e)) (map settled ts ++ placed e)).
  { apply Forall_app. split; [|done]. by apply Forall_map, Forall_forall. }
  assert (Hparts : parts_in (map settled ts ++ placed e) = all_parts ts ++ parts_in (placed e)).
  { rewrite parts_in_app. f_equal. unfold parts_in, all_spaces, all_parts. rewrite map_snd_settled. f_equal.
    apply map_ext_in. intros t Ht%list_elem_of_In. apply spaces_parts. specialize (B1 t Ht). unfold first_place in B1.
    by destruct (bool_decide _); apply B1. }
  pose proof (fun p => holds_lengths _ _ p Hholds) as Hlen. rewrite Hparts in Hlen.
  constructor; rewrite ?Hparts; [exact Hholds| | | | |].
  - apply Forall_app. split.
    + apply Forall_map, Forall_forall. intros t Ht. destruct (B2 t Ht) as [Hb Hserve]. cbn. by rewrite Hb, asks_new.
    + eapply Forall_impl; [exact H2|]. intros [pl t]. by apply serves_some_more.
  - apply StronglySorted_app. split_and!; [|done|done]. intros p q Hpin Hqin.
    apply disjoint_apart; [apply Hlen, elem_of_app; by left|apply Hlen, elem_of_app; by right|].
    intros a Ha Hqa. apply (B4 a); [apply in_use_placed; left|]; apply Exists_exists; eauto.
  - intros i b0 c. destruct (decide (id = i)) as [<-|Hne].
    + rewrite lookup_insert_eq. intros [= <-] Hc. rewrite asks_new. by apply B5.
    + rewrite lookup_insert_ne by done. intros Hb0 Hc. destruct (H4 i b0 c Hb0 Hc) as (r & Hr & ?).
      exists r. split; [by apply Hold|done].
  - intros a (i & b0 & c & Hb0 & Hc & Ha). revert Hb0. destruct (decide (id = i)) as [<-|Hne].
    + rewrite lookup_insert_eq. intros [= <-]. destruct (B5 c Hc) as [_ Hg]. unfold in_answer in Ha. lia.
    + rewrite lookup_insert_ne by done. intros Hb0. rewrite in_parts_app.
      assert (Hin : in_answers (batches e) a) by by exists i, b0, c.
      intros [Hp1|Hp1]; [|by apply (H5 a)]. apply (B4 a); [by right|done].
  - intros i. unfold asks_of. destruct (decide (id = i)) as [<-|Hne]; [by rewrite lookup_insert_eq|].
    rewrite !lookup_insert_ne by done. apply H6.
Qed.

Lemma sound_submit G id rs o heap e :
  batches e !! id = None -> Forall wf_request rs -> plan_options_ok o -> fresh_buffers e id rs o heap ->
  sound_engine G e -> sound_engine (<[id := rs]> G) (submit id rs o heap e).1.
Proof using Type.
  intros Hnone Hrs Ho Hfresh Hs.
  assert (Hempty : forall rs', sound_engine (<[id := rs']> G) (e <| batches := <[id := karu_batch_default]> (batches e) |>)).
  { intros rs'. apply (sound_new_batch G id rs' [] karu_batch_default e); [done| |done].
    constructor; [by intros t ?%not_elem_of_nil..|constructor|by intros a _ ?%Exists_nil|by intros c ?%not_elem_of_nil]. }
  unfold submit, fresh_buffers in *. destruct rs as [|r rs']; [by apply Hempty|]. set (rs := r :: rs') in *.
  destruct (plan_transfers id rs o heap) as [[plan status] heap'] eqn:Ep.
  case_bool_decide as Hst; cbn [negb]; [subst status|by apply Hempty]. destruct (Hfresh eq_refl) as [Hap Hnew].
  destruct (plan_transfers_holds obj id rs o heap plan heap' (e_memory e) Hrs Ho Ep Hap) as [Hts Himm].
  rewrite Forall_forall in Hts. rewrite Forall_forall in Himm. set (b := add n_requested_bytes _ _).
  destruct (push_all (immediate plan) b) as (_ & _ & _ & Hq).
  { cbn. pose proof (parts_count_nonneg (transfers plan)). lia. }
  assert (Hb : brings e id rs (transfers plan) (fold_left push (immediate plan) b)).
  { constructor; [by intros; apply Hts..|done|done|]. intros c. rewrite Hq. intros Hc. by apply Himm. }
  pose proof (sound_new_batch G id rs _ _ e Hnone Hb Hs) as Hnewbatch. revert Hnewbatch. apply sound_perm.
  rewrite settled_kinds. unfold placed. cbn. rewrite !map_app. solve_Permutation.
Qed.

(** ** Honest schedules *)

(** The transfer that libcurl calls back for. *)
Definition active_at (e : EngineState) (i j : nat) : option Transfer :=
  match loops e !! i with Some l => active l !! j | None => None end.

Lemma active_at_some e i j l t : loops e !! i = Some l -> active l !! j = Some t -> active_at e i j = Some t.
Proof using Type. intros Hl Hj. unfold active_at. by rewrite Hl. Qed.

(** The steps in which nobody tells the engine about bytes. *)
Inductive quiet (e : EngineState) : EngineState -> Prop :=
| quiet_next id timeout : quiet e (consume_next id timeout e)
| quiet_take_http i : quiet e (take_http i e)
| quiet_discard_cancelled i : quiet e (discard_cancelled_http i e)
| quiet_due_retries i now : quiet e (due_retries i now e)
| quiet_swap_resolving i : quiet e (swap_resolving i e)
| quiet_restart_waiting i env : quiet e (restart_waiting options i env e)
| quiet_start_pending i env : quiet e (start_pending options i env e)
| quiet_fail_active i j text : quiet e (fail_active i j text e)
| quiet_message i j env : quiet e (message options i j env e)
| quiet_take_file : quiet e (take_file e)
| quiet_take_credential : quiet e (take_credential e)
| quiet_work_credential j env : quiet e (work_credential options j env e)
| quiet_close_turn k : quiet e (close_turn k e)
| quiet_cancel id : quiet e (cancel_mark id e)
| quiet_cancel_queues id : quiet e (cancel_queues id e)
| quiet_cancel_http id : quiet e (cancel_http id e)
| quiet_cancel_wake : quiet e (cancel_wake e)
| quiet_stop : quiet e (stop_workers e)
| quiet_drain_loop i : quiet e (drain_loop i e)
| quiet_drain_queues : quiet e (drain_queues e).

(** The others, with honest answers: a batch comes with buffers that nobody
    uses; libcurl calls back for an attempt that is not over, with bytes of the
    object; a file holds what it holds, and the allocator gives fresh memory. *)
Inductive honest_step : asks * EngineState -> asks * EngineState -> Prop :=
| honest_submit G e id rs plan_options heap :
    batches e !! id = None -> Forall wf_request rs -> plan_options_ok plan_options ->
    fresh_buffers e id rs plan_options heap ->
    honest_step (G, e) (<[id := rs]> G, (submit id rs plan_options heap e).1)
| honest_call_body G e i j data size count code clen :
    (forall t, active_at e i j = Some t -> honest_body obj t data size count code) ->
    honest_step (G, e) (G, callback i j (on_body data size count code clen) e)
| honest_call_header G e i j f g k line size count now :
    (forall t, active_at e i j = Some t -> stopped t = false) ->
    honest_step (G, e) (G, callback i j (on_header f g k line size count now) e)
| honest_read_file G e j read_at env :
    (forall t, file_hands e !! j = Some t ->
       reads_object read_at (object_of obj (t_locator t)) /\ Forall (fresh_area e (t_length t)) (file_alloc env)) ->
    honest_step (G, e) (G, work_file j read_at env e)
| honest_quiet G e e' : quiet e e' -> honest_step (G, e) (G, e').

(** No step of [Schedule] is left out. *)
Lemma step_kinds c c' :
  step options c c' ->
  (exists id rs o heap, batches c.2 !! id = None /\ Forall wf_request rs /\ plan_options_ok o /\
     c'.2 = (submit id rs o heap c.2).1) \/
  (exists i j data size count code clen, c'.2 = callback i j (on_body data size count code clen) c.2) \/
  (exists i j f g k line size count now, c'.2 = callback i j (on_header f g k line size count now) c.2) \/
  (exists j read_at env, c'.2 = work_file j read_at env c.2) \/ quiet c.2 c'.2.
Proof using Type.
  destruct 1 as [? ? id rs o heap ? ? ? ? ? E| | | | | | | |? ? i j data size count code clen
    |? ? i j f g k line size count now| | | | |? ? j read_at env| | | | | | | | |]; cbn [fst snd].
  - left. exists id, rs, o, heap. by rewrite E.
  - do 4 right. apply quiet_next.
  - do 4 right. apply quiet_take_http.
  - do 4 right. apply quiet_discard_cancelled.
  - do 4 right. apply quiet_due_retries.
  - do 4 right. apply quiet_swap_resolving.
  - do 4 right. apply quiet_restart_waiting.
  - do 4 right. apply quiet_start_pending.
  - right. left. by exists i, j, data, size, count, code, clen.
  - do 2 right. left. by exists i, j, f, g, k, line, size, count, now.
  - do 4 right. apply quiet_fail_active.
  - do 4 right. apply quiet_message.
  - do 4 right. apply quiet_take_file.
  - do 4 right. apply quiet_take_credential.
  - do 3 right. left. by exists j, read_at, env.
  - do 4 right. apply quiet_work_credential.
  - do 4 right. apply quiet_close_turn.
  - do 4 right. apply quiet_cancel.
  - do 4 right. apply quiet_cancel_queues.
  - do 4 right. apply quiet_cancel_http.
  - do 4 right. apply quiet_cancel_wake.
  - do 4 right. apply quiet_stop.
  - do 4 right. apply quiet_drain_loop.
  - do 4 right. apply quiet_drain_queues.
Qed.

Lemma quiet_sound G e e' : quiet e e' -> sound_engine G e -> sound_engine G e'.
Proof using Type.
  destruct 1; [apply sound_consume|apply sound_take_http|apply sound_discard_cancelled|apply sound_due_retries
    |apply sound_swap_resolving|apply sound_restart_waiting|apply sound_start_pending|apply sound_fail_active
    |apply sound_message|apply sound_take_file|apply sound_take_credential|apply sound_work_credential
    |apply sound_close_turn|apply sound_fewer, fewer_alter; done|apply sound_cancel_queues|apply sound_cancel_http
    |apply sound_cancel_wake|done|apply sound_drain_loop|apply sound_drain_queues].
Qed.

Lemma honest_sound s s' : honest_step s s' -> sound_engine s.1 s.2 -> sound_engine s'.1 s'.2.
Proof using Type.
  destruct 1 as [| | | |G e e' Hq]; cbn [fst snd].
  - by apply sound_submit.
  - apply sound_body. eauto using active_at_some.
  - apply sound_header. eauto using active_at_some.
  - by apply sound_work_file.
  - by apply quiet_sound.
Qed.

Lemma new_engine_sound m : sound_engine ∅ (new_engine options m).
Proof using Type.
  assert (Hp : placed (new_engine options m) = []).
  { apply (fmap_nil_inv snd).
    change (map snd (placed (new_engine options m)) = []). rewrite placed_transfers.
    unfold transfers_of, queued, new_engine. cbn. rewrite app_nil_r. generalize (seq 0 (loop_count options)) as ks.
    induction ks as [|i ks IH]; [done|]. cbn. exact IH. }
  unfold sound_engine. rewrite Hp. cbn [batches new_engine].
  constructor; [constructor|constructor|constructor| | |].
  - intros id b c Hb. by rewrite lookup_empty in Hb.
  - intros a (id & b & c & Hb & _). by rewrite lookup_empty in Hb.
  - intros id _. unfold asks_of. by rewrite lookup_empty.
Qed.

Lemma honest_run_sound m s :
  rtc honest_step (∅, new_engine options m) s -> sound_engine s.1 s.2.
Proof using Type.
  intros Hr. assert (Hgen : forall s0 s1, rtc honest_step s0 s1 -> sound_engine s0.1 s0.2 -> sound_engine s1.1 s1.2).
  { induction 1 as [|x y z Hxy _ IH]; [done|]. intros Hx. by apply IH, (honest_sound x). }
  by apply (Hgen _ _ Hr), new_engine_sound.
Qed.

Lemma next_fulfils m G e id b timeout c b' :
  rtc honest_step (∅, new_engine options m) (G, e) ->
  batches e !! id = Some b -> next b timeout = Some (KARU_OK, Some c, b') ->
  exists r, r ∈ asks_of G id /\ fulfils obj r c (e_memory e).
Proof using Type.
  intros Hr Hb Hn. pose proof (honest_run_sound m _ Hr) as Hs. apply next_some in Hn as (_ & cs & Hq & _).
  apply (so_answers _ _ _ _ Hs id b c Hb). rewrite Hq. by left.
Qed.

(** A batch of one read, as a download submits its chunks: what [next_law] of
    [DownloadSpec] asks of the engine holds on every honest schedule. *)
Lemma single_read_delivers m G e id b timeout c b' r :
  rtc honest_step (∅, new_engine options m) (G, e) -> asks_of G id = [r] -> buffer r <> 0 ->
  batches e !! id = Some b -> next b timeout = Some (KARU_OK, Some c, b') -> c_status c = KARU_OK ->
  c_tag c = tag r /\ c_buffer c = buffer r /\ got c = length_ r /\
  (forall i, 0 <= i < length_ r ->
     e_memory e (buffer r + i) = object_of obj (locator r) (window_offset (locator r) + offset r + i)).
Proof using Type.
  intros Hr Ha Hbuf Hb Hn Hst. destruct (next_fulfils m G e id b timeout c b' Hr Hb Hn) as (r' & Hin & [F1 F2 _ F4 F5]).
  rewrite Ha in Hin. apply list_elem_of_singleton in Hin as ->. rewrite (proj2 (Z.eqb_neq _ _) Hbuf) in F2.
  destruct F2 as [F2 _]. specialize (F4 Hst). split_and!; [done..|]. rewrite <-F2, <-F4. exact F5.
Qed.

(** C1: an answer is the object. On every schedule of workers, callbacks,
    retries, cancellations and consumers, against servers and files that send
    the bytes of their objects, however they are cut, and with buffers that do
    not overlap, every completion that [next] hands out answers a request of
    its batch: it carries the request's tag and buffer, counts all its bytes
    when it is a success, and as many bytes of the buffer as it counts are the
    object's, from the request's first one on, when the consumer gets them. *)
Theorem answers_hold_the_object m G e id b timeout c b' :
  rtc honest_step (∅, new_engine options m) (G, e) ->
  batches e !! id = Some b -> next b timeout = Some (KARU_OK, Some c, b') ->
  exists r, r ∈ asks_of G id /\ fulfils obj r c (e_memory e).
Proof using Type. exact (next_fulfils m G e id b timeout c b'). Qed.

End Answers.

(** ** Witness *)

#[local] Existing Instance example_builder.

(** The object of the schedule in [Schedule]: a server that holds the twenty
    letters answers with 206 and all of them at once. *)
Definition letters : str := $"abcdefghijklmnopqrst".
Definition lettered (b : Backend) (uri : str) : object_bytes := fun i => nth (Z.to_nat i) letters "000"%char.

Definition asked_for : gmap nat (list Request) := <[7%nat := example_requests]> ∅.
Definition in_progress : EngineState :=
  start_pending ClientOptions_default 0 example_start_env (take_http 0 submitted).
Definition with_status : EngineState := a_header $"HTTP/1.1 206 Partial Content" in_progress.
Definition with_headers : EngineState := a_header $"content-range: bytes 0-19/100" with_status.
Definition with_body : EngineState := callback 0 0 (on_body letters 1 20 206 20) with_headers.

Lemma submitted_fresh : fresh_buffers started 7 example_requests ClientOptions_default [5000].
Proof.
  unfold fresh_buffers. destruct (plan_transfers 7 example_requests ClientOptions_default [5000]) as [[plan status] h] eqn:E.
  intros _. assert (Hp : all_parts (transfers plan) = all_parts (transfers (plan_transfers 7 example_requests
    ClientOptions_default [5000]).1.1)) by by rewrite E.
  assert (Hbufs : map (fun p => (p_buffer p, p_length p)) (all_parts (transfers plan)) = [(5000, 10); (1013, 7)])
    by (rewrite Hp; vm_compute; reflexivity).
  clear E Hp. destruct (all_parts (transfers plan)) as [|p [|q [|]]]; [done..| |done]. injection Hbufs as H1 H2 H3 H4.
  split.
  - constructor; [by constructor; constructor|]. apply Forall_singleton. unfold apart. lia.
  - intros a [Hin|(id & b & c & Hb & _)]; [|unfold started in Hb; cbn [batches new_engine] in Hb; by rewrite lookup_empty in Hb].
    assert (Ht : transfers_of started = []) by (vm_compute; reflexivity). rewrite Ht in Hin. by apply Exists_nil in Hin.
Qed.

(** What the examples know about the transfer in progress. *)
Lemma active_now e (P : Transfer -> bool) t :
  P <$> active_at e 0 0 = Some true -> active_at e 0 0 = Some t -> P t = true.
Proof. intros H Ht. rewrite Ht in H. by injection H. Qed.

Definition awaits_letters (t : Transfer) : bool :=
  negb (stopped t) && negb (checked_status t) && (body_start t 206 =? 0).

Lemma letters_body (t : Transfer) :
  active_at with_headers 0 0 = Some t -> honest_body lettered t letters 1 20 206.
Proof.
  intros Ht. assert (Hn : awaits_letters <$> active_at with_headers 0 0 = Some true) by (vm_compute; reflexivity).
  pose proof (active_now with_headers awaits_letters t Hn Ht) as Ha. clear Ht Hn. unfold awaits_letters in Ha.
  apply andb_true_iff in Ha as [[Hs%negb_true_iff Hc%negb_true_iff]%andb_true_iff Hb%Z.eqb_eq].
  constructor; [done|done|by auto| |by rewrite Hc]. intros _ _. rewrite Hb. by intros i Hi.
Qed.

Lemma still_running e t :
  negb ∘ stopped <$> active_at e 0 0 = Some true -> active_at e 0 0 = Some t -> stopped t = false.
Proof. intros He Ht. apply negb_true_iff. exact (active_now e (negb ∘ stopped) t He Ht). Qed.

Abbreviation goes e e' := (honest_step ClientOptions_default lettered (asked_for, e) (asked_for, e')) (only parsing).

Lemma goes_submit : honest_step ClientOptions_default lettered (∅, started) (asked_for, submitted).
Proof.
  apply (honest_submit ClientOptions_default lettered ∅ started 7 example_requests ClientOptions_default [5000]).
  - reflexivity.
  - apply example_requests_wf.
  - by split_and!.
  - apply submitted_fresh.
Qed.

Lemma goes_taken : goes submitted (take_http 0 submitted).
Proof. exact (honest_quiet _ _ asked_for submitted _ (quiet_take_http _ submitted 0)). Qed.

Lemma goes_started : goes (take_http 0 submitted) in_progress.
Proof. exact (honest_quiet _ _ asked_for (take_http 0 submitted) _ (quiet_start_pending _ (take_http 0 submitted) 0 example_start_env)). Qed.

Lemma goes_status : goes in_progress with_status.
Proof.
  assert (H : negb ∘ stopped <$> active_at in_progress 0 0 = Some true) by (vm_compute; reflexivity).
  exact (honest_call_header ClientOptions_default lettered asked_for in_progress 0 0 _ _ _ _ _ _ _ (fun t => still_running in_progress t H)).
Qed.

Lemma goes_headers : goes with_status with_headers.
Proof.
  assert (H : negb ∘ stopped <$> active_at with_status 0 0 = Some true) by (vm_compute; reflexivity).
  exact (honest_call_header ClientOptions_default lettered asked_for with_status 0 0 _ _ _ _ _ _ _ (fun t => still_running with_status t H)).
Qed.

Lemma goes_body : goes with_headers with_body.
Proof. exact (honest_call_body ClientOptions_default lettered asked_for with_headers 0 0 letters 1 20 206 20 letters_body). Qed.

Definition finished : EngineState := message ClientOptions_default 0 0 (example_done_env CURLE_OK) with_body.
Lemma goes_done : goes with_body finished.
Proof.
  exact (honest_quiet _ _ asked_for with_body _ (quiet_message ClientOptions_default with_body 0 0 (example_done_env CURLE_OK))).
Qed.

(** The loop pushes the completion of the first part. *)
Definition one_pushed : EngineState := close_turn 0 finished.
Lemma goes_pushed : goes finished one_pushed.
Proof. exact (honest_quiet _ _ asked_for finished _ (quiet_close_turn _ finished 0)). Qed.

(** The first answer is that of the refused request; the consumer takes it. *)
Definition first_taken : EngineState := consume_next 7 0 one_pushed.
Lemma goes_first : goes one_pushed first_taken.
Proof. exact (honest_quiet _ _ asked_for one_pushed _ (quiet_next _ one_pushed 7 0)). Qed.

Lemma honest_run : rtc (honest_step ClientOptions_default lettered) (∅, started) (asked_for, first_taken).
Proof.
  refine (rtc_l _ _ _ _ goes_submit _). refine (rtc_l _ _ _ _ goes_taken _). refine (rtc_l _ _ _ _ goes_started _).
  refine (rtc_l _ _ _ _ goes_status _). refine (rtc_l _ _ _ _ goes_headers _). refine (rtc_l _ _ _ _ goes_body _).
  refine (rtc_l _ _ _ _ goes_done _). refine (rtc_l _ _ _ _ goes_pushed _). exact (rtc_once _ _ goes_first).
Qed.

(** The ten letters from the first one, in the buffer the library allocated. *)
Definition ten_letters : Completion :=
  {| c_tag := 0; c_status := KARU_OK; got := 10; c_buffer := 5000; c_owned_buffer := 5000; detail := [] |}.
Definition batch_first : karu_batch := default karu_batch_default (batches first_taken !! 7%nat).
Definition batch_second : karu_batch := default karu_batch_default (batches (consume_next 7 0 first_taken) !! 7%nat).

Lemma answers_hold_the_object_witness :
  mem_read (e_memory first_taken) 5000 10 = $"abcdefghij" /\
  exists r, r ∈ asks_of asked_for 7 /\ fulfils lettered r ten_letters (e_memory first_taken).
Proof.
  split; [vm_compute; reflexivity|].
  assert (Hb : batches first_taken !! 7%nat = Some batch_first) by (vm_compute; reflexivity).
  assert (Hn : next batch_first 0 = Some (KARU_OK, Some ten_letters, batch_second)) by (vm_compute; reflexivity).
  exact (answers_hold_the_object ClientOptions_default lettered no_memory asked_for first_taken 7 batch_first 0
    ten_letters batch_second honest_run Hb Hn).
Defined.
