(* ===== verification/Config.v ===== *)
(** * Config: options, their layers, and the frozen snapshot

    Models [src/src/config.cpp], [src/src/config.hpp] and the option tables of
    [src/src/config_options.hpp], as compiled for Linux on a 64-bit machine.
    The environment and the file system are arguments, as is the version
    string, which the build defines.  An [unordered_map] is a [gmap]; the code
    only looks keys up. *)

From S2P Require Import Prelude Text Uri Types Planner.

(** ** Text helpers *)

Definition uppercase (input : str) : str := map to_upper input.
Definition lower_text (value : str) : str := map to_lower value.

Fixpoint skip_spaces (s : str) : str :=
  match s with
  | c :: s' => if is_space c then skip_spaces s' else s
  | [] => []
  end.
Definition trim_text (value : str) : str := rev (skip_spaces (rev (skip_spaces value))).

(** [parse_integer] for an integer type with range [lo, hi]. *)
Definition parse_integer (lo hi : Z) (name text : str) (minimum maximum : Z) : expected str Z :=
  match from_chars_all lo hi text with
  | Some value =>
      if (value <? minimum) || (maximum <? value) then
        Err (concat [Text name; Text $" must be an integer in ["; Integer minimum; Text $", ";
                     Integer maximum; Text $"]"])
      else Ok value
  | None =>
      Err (concat [Text name; Text $" must be an integer in ["; Integer minimum; Text $", ";
                   Integer maximum; Text $"]"])
  end.

Abbreviation parse_int := (parse_integer (- INT_MAX - 1) INT_MAX).
Abbreviation parse_long := (parse_integer (- I64_MAX - 1) I64_MAX).
Abbreviation parse_u64 := (parse_integer 0 U64_MAX).

(** ** Names *)

Definition canonical_option_name (name : str) : str :=
  let result := uppercase name in
  if str_eqb result $"AWS_ENDPOINT_URL" || str_eqb result $"AWS_ENDPOINT_URL_S3"
  then $"AWS_S3_ENDPOINT"
  else if str_eqb result $"AWS_DEFAULT_PROFILE" then $"AWS_PROFILE"
  else if str_eqb result $"AWS_DEFAULT_REGION" then $"AWS_REGION"
  else if str_eqb result $"KARU_MAX_RETRIES" then $"KARU_MAX_ATTEMPTS"
  else if str_eqb result $"HUGGING_FACE_HUB_TOKEN" then $"HF_TOKEN"
  else if str_eqb result $"CURL_CA_BUNDLE" || str_eqb result $"SSL_CERT_FILE"
  then $"KARU_HTTP_CA_BUNDLE"
  else if str_eqb result $"SOURCE_PROXY_URL" then $"SOURCE_ENDPOINT"
  else result.

Definition canonical_vsi_path (path : str) : str :=
  let convert prefix vsi := vsi ++ drop (length prefix) path in
  if starts_with path $"s3://" then convert $"s3://" $"/vsis3/"
  else if starts_with path $"gs://" then convert $"gs://" $"/vsigs/"
  else if starts_with path $"az://" then convert $"az://" $"/vsiaz/"
  else if starts_with path $"abfs://" then convert $"abfs://" $"/vsiadls/"
  else if starts_with path $"hf://" then convert $"hf://" $"/vsihf/"
  else if starts_with path $"source://" then convert $"source://" $"/vsisource/"
  else path.

Definition path_prefix_matches (path prefix : str) : bool :=
  starts_with path prefix
  && ((length path =? length prefix)%nat || ends_with prefix $"/"
      || match path !! length prefix with Some c => Ascii.eqb c "/" | None => false end).

Definition option_is_true (value : str) : bool :=
  let equals expected_ := str_eqb (map to_lower value) (map to_lower expected_) in
  equals $"yes" || equals $"true" || equals $"on" || str_eqb value $"1".

Definition CORE : list str :=
  [ $"KARU_CONCURRENCY"; $"KARU_IO_THREADS"; $"KARU_COALESCE_GAP"; $"KARU_COALESCE_LIMIT";
    $"KARU_COALESCE_PARTS"; $"KARU_COALESCE_AMPLIFICATION"; $"KARU_RANGE_FALLBACK_LIMIT";
    $"KARU_MAX_ATTEMPTS"; $"KARU_MAX_RETRIES"; $"KARU_REQUEST_TIMEOUT"; $"KARU_CONNECT_TIMEOUT";
    $"KARU_LOW_SPEED_TIME"; $"KARU_LOW_SPEED_LIMIT" ].
Definition S3_OPTIONS : list str :=
  [ $"AWS_NO_SIGN_REQUEST"; $"AWS_ACCESS_KEY_ID"; $"AWS_SECRET_ACCESS_KEY"; $"AWS_SESSION_TOKEN";
    $"AWS_REGION"; $"AWS_DEFAULT_REGION"; $"AWS_PROFILE"; $"AWS_DEFAULT_PROFILE";
    $"AWS_SHARED_CREDENTIALS_FILE"; $"AWS_CONFIG_FILE"; $"AWS_S3_ENDPOINT"; $"AWS_ENDPOINT_URL_S3";
    $"AWS_ENDPOINT_URL"; $"AWS_HTTPS"; $"AWS_VIRTUAL_HOSTING"; $"AWS_REQUEST_PAYER"; $"AWS_ROLE_ARN";
    $"AWS_STS_ENDPOINT"; $"AWS_WEB_IDENTITY_TOKEN_FILE"; $"AWS_ROLE_SESSION_NAME";
    $"AWS_CONTAINER_CREDENTIALS_RELATIVE_URI"; $"AWS_CONTAINER_CREDENTIALS_FULL_URI";
    $"AWS_CONTAINER_AUTHORIZATION_TOKEN"; $"AWS_CONTAINER_AUTHORIZATION_TOKEN_FILE";
    $"AWS_EC2_METADATA_DISABLED"; $"AWS_METADATA_SERVICE_TIMEOUT" ].
Definition GCS_OPTIONS : list str :=
  [ $"GCS_NO_SIGN_REQUEST"; $"GCS_HMAC_ACCESS_KEY_ID"; $"GCS_HMAC_SECRET_ACCESS_KEY";
    $"GCS_ACCESS_TOKEN"; $"GCS_REFRESH_TOKEN"; $"GCS_CLIENT_ID"; $"GCS_CLIENT_SECRET";
    $"GCS_PRIVATE_KEY"; $"GCS_PRIVATE_KEY_FILE"; $"GCS_CLIENT_EMAIL"; $"GCS_SCOPE";
    $"GCS_USER_PROJECT"; $"GCS_ENDPOINT"; $"GCS_METADATA_ENDPOINT"; $"GCS_METADATA_DISABLED";
    $"GOOGLE_APPLICATION_CREDENTIALS"; $"CLOUDSDK_CONFIG" ].
Definition AZURE_OPTIONS : list str :=
  [ $"AZURE_NO_SIGN_REQUEST"; $"AZURE_STORAGE_CONNECTION_STRING"; $"AZURE_STORAGE_ACCOUNT";
    $"AZURE_STORAGE_ACCESS_KEY"; $"AZURE_STORAGE_SAS_TOKEN"; $"AZURE_STORAGE_ACCESS_TOKEN";
    $"AZURE_STORAGE_ENDPOINT"; $"AZURE_TENANT_ID"; $"AZURE_CLIENT_ID"; $"AZURE_CLIENT_SECRET";
    $"AZURE_FEDERATED_TOKEN_FILE"; $"AZURE_AUTHORITY_HOST"; $"AZURE_STORAGE_SCOPE";
    $"AZURE_STORAGE_RESOURCE"; $"AZURE_IMDS_OBJECT_ID"; $"AZURE_IMDS_CLIENT_ID";
    $"AZURE_IMDS_MSI_RES_ID"; $"IDENTITY_ENDPOINT"; $"IDENTITY_HEADER"; $"IMDS_ENDPOINT" ].
Definition HUGGING_FACE_OPTIONS : list str :=
  [ $"HF_ENDPOINT"; $"HF_TOKEN"; $"HF_TOKEN_PATH"; $"HF_HOME"; $"HUGGING_FACE_HUB_TOKEN" ].
Definition SOURCE_OPTIONS : list str :=
  [ $"SOURCE_NO_SIGN_REQUEST"; $"SOURCE_ACCESS_KEY_ID"; $"SOURCE_SECRET_ACCESS_KEY";
    $"SOURCE_SESSION_TOKEN"; $"SOURCE_PROFILE"; $"SOURCE_SHARED_CREDENTIALS_FILE";
    $"SOURCE_CONFIG_FILE"; $"SOURCE_REGION"; $"SOURCE_ENDPOINT"; $"SOURCE_PROXY_URL" ].
Definition HTTP_OPTIONS : list str :=
  [ $"KARU_HTTP_HEADERS"; $"KARU_HTTP_VERSION"; $"KARU_HTTP_CA_BUNDLE"; $"CURL_CA_BUNDLE";
    $"SSL_CERT_FILE"; $"KARU_HTTP_CA_PATH"; $"KARU_HTTP_PROXY"; $"KARU_HTTP_PROXY_CREDENTIALS";
    $"KARU_HTTP_USER_AGENT" ].

(** The order [for_each_environment] visits. *)
Definition environment_names : list str :=
  CORE ++ S3_OPTIONS ++ GCS_OPTIONS ++ AZURE_OPTIONS ++ HUGGING_FACE_OPTIONS ++ SOURCE_OPTIONS
  ++ HTTP_OPTIONS.

Definition known_option (canonical : str) : bool :=
  existsb (fun candidate => str_eqb (canonical_option_name candidate) canonical) environment_names.

Definition valid_boolean (value : str) : bool :=
  let normalized := uppercase value in
  existsb (str_eqb normalized)
    [ $"YES"; $"NO"; $"TRUE"; $"FALSE"; $"ON"; $"OFF"; $"1"; $"0" ].

Definition valid_http_version (value : str) : bool :=
  let normalized := uppercase value in
  existsb (str_eqb normalized) [ $"AUTO"; $"1.1"; $"2"; $"2TLS"; $"2PRIOR_KNOWLEDGE" ].

(** ** Configured headers *)

Record ConfiguredHeader := mkConfiguredHeader {
  ch_name : str; ch_lowercase_name : str; ch_value : str; malformed : bool;
}.
#[export] Instance ConfiguredHeader_eta : Eta ConfiguredHeader := fun r =>
  mkConfiguredHeader (ch_name r) (ch_lowercase_name r) (ch_value r) (malformed r).

Definition line_ends : str := ["013"%char; "010"%char].

(** The loop of [parse_configured_headers] from [start]; each turn moves
    forward, so the length of the text is enough fuel. *)
Fixpoint parse_headers_from (fuel : nat) (text : str) (start : nat) : list ConfiguredHeader :=
  match fuel with
  | O => []
  | S fuel =>
      if (start <? length text)%nat then
        let end_ := find_first_of text line_ends start in
        let line := trim_text (take_to ((fun e => e - start)%nat <$> end_) (drop start text)) in
        let continue :=
          match end_ with
          | None => []
          | Some e => match find_first_not_of text line_ends e with
                      | None => []
                      | Some start => parse_headers_from fuel text start
                      end
          end in
        match line with
        | [] => continue
        | _ =>
            match find_char line ":" with
            | None | Some O => [mkConfiguredHeader [] [] [] true]
            | Some colon =>
                let name := trim_text (take colon line) in
                mkConfiguredHeader name (lower_text name) (trim_text (drop (colon + 1) line)) false
                  :: continue
            end
        end
      else []
  end.
Definition parse_configured_headers (text : str) : list ConfiguredHeader :=
  parse_headers_from (length text) text 0.

(** ** The builder and the snapshot *)

Abbreviation OptionMap := (gmap str str) (only parsing).

Record PathOptions := mkPathOptions { po_prefix : str; po_values : OptionMap }.
#[export] Instance PathOptions_eta : Eta PathOptions := fun r =>
  mkPathOptions (po_prefix r) (po_values r).

(** [karu_credentials_kind]; a C caller may pass any number. *)
Abbreviation KARU_CREDENTIALS_AWS := 1 (only parsing).
Abbreviation KARU_CREDENTIALS_GCS := 2 (only parsing).
Abbreviation KARU_CREDENTIALS_AZURE := 3 (only parsing).
Abbreviation KARU_CREDENTIALS_SOURCE := 4 (only parsing).

(** A callback, its data and its destructor are addresses. *)
Record CredentialCallback := mkCallback { cb_function : Z; cb_user_data : Z; cb_release : Z }.

Record ConfigBuilder := mkBuilder {
  b_environment : OptionMap; b_explicit : OptionMap; b_paths : list PathOptions;
  b_providers : gmap Z CredentialCallback; b_home : str; b_cache : str; b_app_data : str;
  b_system_ca : str; b_discover : bool;
}.
#[export] Instance ConfigBuilder_eta : Eta ConfigBuilder := fun r =>
  mkBuilder (b_environment r) (b_explicit r) (b_paths r) (b_providers r) (b_home r) (b_cache r)
    (b_app_data r) (b_system_ca r) (b_discover r).

Record ConfigSnapshot := mkSnapshot {
  environment_ : OptionMap; explicit_ : OptionMap; paths_ : list PathOptions;
  providers_ : gmap Z CredentialCallback; home_directory_ : str; cache_directory_ : str;
  app_data_directory_ : str; system_ca_bundle_ : str; discover_default_credentials_ : bool;
  client_ : ClientOptions; http_ : HttpRequestOptions;
  configured_headers_ : list ConfiguredHeader; has_configured_headers_ : bool;
}.
#[export] Instance ConfigSnapshot_eta : Eta ConfigSnapshot := fun r =>
  mkSnapshot (environment_ r) (explicit_ r) (paths_ r) (providers_ r) (home_directory_ r)
    (cache_directory_ r) (app_data_directory_ r) (system_ca_bundle_ r)
    (discover_default_credentials_ r) (client_ r) (http_ r) (configured_headers_ r)
    (has_configured_headers_ r).

(** ** Reading options *)

Definition has_value (values : OptionMap) (name : str) : bool := bool_decide (is_Some (values !! name)).

(** The rule with the longest prefix that matches and sets the option; the
    first one when several are as long. *)
Fixpoint best_rule (path name : str) (rules : list PathOptions) (best : option PathOptions)
    : option PathOptions :=
  match rules with
  | [] => best
  | candidate :: rules =>
      let best :=
        if negb (path_prefix_matches path (po_prefix candidate))
           || negb (has_value (po_values candidate) name) then best
        else match best with
             | None => Some candidate
             | Some b => if (length (po_prefix b) <? length (po_prefix candidate))%nat
                         then Some candidate else best
             end in
      best_rule path name rules best
  end.

Definition option_ (c : ConfigSnapshot) (path name fallback : str) : str :=
  let canonical_name := canonical_option_name name in
  let canonical_path := canonical_vsi_path path in
  match best_rule canonical_path canonical_name (paths_ c) None with
  | Some best => default [] (po_values best !! canonical_name)   (* at *)
  | None =>
      match explicit_ c !! canonical_name with
      | Some value => value
      | None => match environment_ c !! canonical_name with
                | Some value => value
                | None => fallback
                end
      end
  end.

Definition missing_sentinel : str := "000"%char :: $"missing".

Definition has_option (c : ConfigSnapshot) (path name : str) : bool :=
  negb (str_eqb (option_ c path name missing_sentinel) missing_sentinel).

Definition provider (c : ConfigSnapshot) (kind : Z) : option CredentialCallback := providers_ c !! kind.

(** One turn of the loop of [scope_key]. *)
Definition scope_entry (c : ConfigSnapshot) (canonical_path raw_name : str) : str :=
  let name := canonical_option_name raw_name in
  name ++ $"="
  ++ match best_rule canonical_path name (paths_ c) None with
     | Some best => po_prefix best
     | None => if has_value (explicit_ c) name then $"explicit"
               else if has_value (environment_ c) name then $"environment" else $"default"
     end
  ++ ["010"%char].
Definition scope_key (c : ConfigSnapshot) (path : str) (names : list str) : str :=
  List.concat (map (scope_entry c (canonical_vsi_path path)) names).

Definition expand_user_path (c : ConfigSnapshot) (path : str) : str :=
  match home_directory_ c with
  | [] => path
  | home =>
      if str_eqb path $"~" then home
      else if negb (starts_with path $"~/") && negb (starts_with path ["~"%char; "092"%char]) then path
      else home ++ drop 1 path
  end.

Definition default_aws_path (c : ConfigSnapshot) (suffix : str) : str :=
  match home_directory_ c with [] => [] | home => home ++ $"/.aws/" ++ suffix end.

Definition default_gcloud_adc_path (c : ConfigSnapshot) : str :=
  match home_directory_ c with
  | [] => []
  | home => home ++ $"/.config/gcloud/application_default_credentials.json"
  end.

Definition append_local_path (base suffix : str) : str :=
  let base :=
    match last base with
    | Some c => if Ascii.eqb c "/" || Ascii.eqb c "092" then base else base ++ $"/"
    | None => base
    end in
  base ++ suffix.

Definition hugging_face_token_path (c : ConfigSnapshot) (path : str) : str :=
  match option_ c path $"HF_TOKEN_PATH" [] with
  | [] =>
      match option_ c path $"HF_HOME" [] with
      | [] =>
          if negb (discover_default_credentials_ c) then []
          else match cache_directory_ c with
               | [] => match home_directory_ c with
                       | [] => []
                       | home => home ++ $"/.cache/huggingface/token"
                       end
               | cache => append_local_path (expand_user_path c cache) $"huggingface/token"
               end
      | home => append_local_path (expand_user_path c home) $"token"
      end
  | configured => expand_user_path c configured
  end.

(** ** Validation *)

Definition BOOLEAN_OPTIONS : list str :=
  [ $"AWS_NO_SIGN_REQUEST"; $"AWS_HTTPS"; $"AWS_VIRTUAL_HOSTING"; $"AWS_EC2_METADATA_DISABLED";
    $"GCS_NO_SIGN_REQUEST"; $"GCS_METADATA_DISABLED"; $"AZURE_NO_SIGN_REQUEST";
    $"SOURCE_NO_SIGN_REQUEST" ].

Fixpoint validate_booleans (values : OptionMap) (names : list str) : expected str unit :=
  match names with
  | [] => Ok tt
  | name :: names =>
      match values !! name with
      | Some value => if negb (valid_boolean value)
                      then Err (name ++ $" must be YES/NO, TRUE/FALSE, ON/OFF, or 1/0")
                      else validate_booleans values names
      | None => validate_booleans values names
      end
  end.

Definition validate_values (values : OptionMap) : expected str unit :=
  _ ← validate_booleans values BOOLEAN_OPTIONS;
  _ ← match values !! $"AWS_METADATA_SERVICE_TIMEOUT" with
      | Some value => _ ← parse_long $"AWS_METADATA_SERVICE_TIMEOUT" value 1 60; Ok tt
      | None => Ok tt
      end;
  _ ← match values !! $"AWS_REQUEST_PAYER" with
      | Some value => if negb (str_eqb (uppercase value) $"REQUESTER")
                      then Err $"AWS_REQUEST_PAYER must be 'requester'" else Ok tt
      | None => Ok tt
      end;
  match values !! $"KARU_HTTP_VERSION" with
  | Some value => if negb (valid_http_version value)
                  then Err $"KARU_HTTP_VERSION must be AUTO, 1.1, 2TLS, 2, or 2PRIOR_KNOWLEDGE"
                  else Ok tt
  | None => Ok tt
  end.

Fixpoint validate_rules (rules : list PathOptions) : expected str unit :=
  match rules with
  | [] => Ok tt
  | rule :: rules =>
      match validate_values (po_values rule) with
      | Ok _ => validate_rules rules
      | Err e => Err (po_prefix rule ++ $": " ++ e)
      end
  end.

Section Builder.
(** [KARU_VERSION_STRING], defined by the build. *)
Variable version_string : str.

Definition compute_http_options (c : ConfigSnapshot) : HttpRequestOptions :=
  let path := [] in
  let version := uppercase (option_ c path $"KARU_HTTP_VERSION" $"1.1") in
  let result := HttpRequestOptions_default in
  let result :=
    if str_eqb version $"AUTO" then result <| Types.version := Automatic |>
    else if str_eqb version $"2" || str_eqb version $"2TLS" then result <| Types.version := Http2Tls |>
    else if str_eqb version $"2PRIOR_KNOWLEDGE" then result <| Types.version := Http2PriorKnowledge |>
    else result in
  let result := result <| ca_bundle := option_ c path $"KARU_HTTP_CA_BUNDLE" [] |>
                       <| ca_path := option_ c path $"KARU_HTTP_CA_PATH" [] |> in
  let result :=
    if negb (has_option c path $"KARU_HTTP_CA_BUNDLE") && negb (has_option c path $"KARU_HTTP_CA_PATH")
    then result <| ca_bundle := system_ca_bundle_ c |>
                <| system_ca_bundle := negb (str_eqb (system_ca_bundle_ c) []) |>
    else result in
  result <| proxy := option_ c path $"KARU_HTTP_PROXY" [] |>
         <| proxy_user_password := option_ c path $"KARU_HTTP_PROXY_CREDENTIALS" [] |>
         <| user_agent := option_ c path $"KARU_HTTP_USER_AGENT" ($"karu/" ++ version_string) |>.

(** [freeze], up to [result.client_]. *)
Definition freeze_client (global : str -> str -> str) : expected str ClientOptions :=
  concurrency ← parse_int $"KARU_CONCURRENCY" (global $"KARU_CONCURRENCY" $"64") 1 4096;
  io_threads ← parse_int $"KARU_IO_THREADS" (global $"KARU_IO_THREADS" $"4") 1 64;
  gap ← parse_u64 $"KARU_COALESCE_GAP" (global $"KARU_COALESCE_GAP" $"1048576") 0 U64_MAX;
  coalesce_limit ← parse_u64 $"KARU_COALESCE_LIMIT" (global $"KARU_COALESCE_LIMIT" $"67108864") 1
                     U64_MAX;
  coalesce_parts ← parse_u64 $"KARU_COALESCE_PARTS" (global $"KARU_COALESCE_PARTS" $"1024") 1 1048576;
  coalesce_amplification ← parse_u64 $"KARU_COALESCE_AMPLIFICATION"
                             (global $"KARU_COALESCE_AMPLIFICATION" $"16") 1 1048576;
  range_fallback_limit ← parse_u64 $"KARU_RANGE_FALLBACK_LIMIT"
                           (global $"KARU_RANGE_FALLBACK_LIMIT" $"8388608") 0 U64_MAX;
  attempts ← parse_int $"KARU_MAX_ATTEMPTS" (global $"KARU_MAX_ATTEMPTS" $"8") 1 16;
  request_timeout ← parse_long $"KARU_REQUEST_TIMEOUT" (global $"KARU_REQUEST_TIMEOUT" $"120") 0 86400;
  connect ← parse_long $"KARU_CONNECT_TIMEOUT" (global $"KARU_CONNECT_TIMEOUT" $"30") 1 3600;
  low_time ← parse_long $"KARU_LOW_SPEED_TIME" (global $"KARU_LOW_SPEED_TIME" $"60") 0 3600;
  low_limit ← parse_long $"KARU_LOW_SPEED_LIMIT" (global $"KARU_LOW_SPEED_LIMIT" $"1024") 0 I64_MAX;
  Ok {| Types.concurrency := concurrency; Types.io_threads := io_threads; coalesce_gap := gap;
        Types.coalesce_limit := coalesce_limit; Types.coalesce_parts := coalesce_parts;
        Types.coalesce_amplification := coalesce_amplification;
        Types.range_fallback_limit := range_fallback_limit; max_attempts := attempts;
        request_timeout_seconds := request_timeout; connect_timeout_seconds := connect;
        low_speed_time_seconds := low_time; low_speed_limit := low_limit |}.

Definition freeze (b : ConfigBuilder) : expected str ConfigSnapshot :=
  let result :=
    {| environment_ := b_environment b; explicit_ := b_explicit b; paths_ := b_paths b;
       providers_ := b_providers b; home_directory_ := b_home b; cache_directory_ := b_cache b;
       app_data_directory_ := b_app_data b; system_ca_bundle_ := b_system_ca b;
       discover_default_credentials_ := b_discover b; client_ := ClientOptions_default;
       http_ := HttpRequestOptions_default <| user_agent := $"karu/" ++ version_string |>;
       configured_headers_ := []; has_configured_headers_ := false |} in
  _ ← validate_values (environment_ result);
  _ ← validate_values (explicit_ result);
  _ ← validate_rules (paths_ result);
  client ← freeze_client (fun name fallback => option_ result [] name fallback);
  let result := result <| client_ := client |> in
  let result := result <| http_ := compute_http_options result |> in
  let headers := option_ result [] $"KARU_HTTP_HEADERS" [] in
  Ok (result <| has_configured_headers_ := negb (str_eqb headers []) |>
             <| configured_headers_ := parse_configured_headers headers |>).
End Builder.

(** ** Setting options *)

Section Environment.
Variable getenv : str -> option str.
Variable is_regular_file : str -> bool.

Definition ca_candidates : list str :=
  [ $"/etc/ssl/certs/ca-certificates.crt"; $"/etc/pki/tls/certs/ca-bundle.crt";
    $"/etc/ssl/ca-bundle.pem"; $"/etc/pki/tls/cacert.pem";
    $"/etc/pki/ca-trust/extracted/pem/tls-ca-bundle.pem"; $"/etc/ssl/cert.pem" ].
Definition find_system_ca_bundle : str := default [] (List.find is_regular_file ca_candidates).

(** The value of a variable that is set and not empty. *)
Definition getenv_set (name : str) : option str :=
  match getenv name with Some [] | None => None | Some value => Some value end.

(** [try_emplace]: the first spelling wins. *)
Fixpoint read_environment (names : list str) (m : OptionMap) : OptionMap :=
  match names with
  | [] => m
  | name :: names =>
      match getenv_set name with
      | Some value =>
          read_environment names
            (match m !! canonical_option_name name with
             | Some _ => m
             | None => <[canonical_option_name name := value]> m
             end)
      | None => read_environment names m
      end
  end.

Definition new_builder (include_environment : bool) : ConfigBuilder :=
  let b := {| b_environment := ∅; b_explicit := ∅; b_paths := []; b_providers := ∅; b_home := [];
              b_cache := []; b_app_data := []; b_system_ca := []; b_discover := include_environment |} in
  if negb include_environment then b
  else b <| b_system_ca := find_system_ca_bundle |>
         <| b_environment := read_environment environment_names ∅ |>
         <| b_cache := default [] (getenv_set $"XDG_CACHE_HOME") |>
         <| b_home := default [] (getenv $"HOME") |>.
End Environment.

(** A null [value] removes the option. *)
Definition set_value (values : OptionMap) (name : str) (value : option str) : OptionMap :=
  match value with Some v => <[name := v]> values | None => delete name values end.

Definition set (b : ConfigBuilder) (name : str) (value : option str) : expected str ConfigBuilder :=
  match name with
  | [] => Err $"option name is empty"
  | _ =>
      let canonical := canonical_option_name name in
      if negb (known_option canonical) then Err ($"unknown Karu option '" ++ name ++ $"'")
      else Ok (b <| b_explicit := set_value (b_explicit b) canonical value |>)
  end.

(** The rule of a prefix is updated in place, or appended. *)
Fixpoint set_rule (rules : list PathOptions) (prefix name : str) (value : option str)
    : list PathOptions :=
  match rules with
  | [] => [mkPathOptions prefix (set_value ∅ name value)]
  | rule :: rules =>
      if str_eqb (po_prefix rule) prefix
      then (rule <| po_values := set_value (po_values rule) name value |>) :: rules
      else rule :: set_rule rules prefix name value
  end.

Definition set_path (b : ConfigBuilder) (prefix name : str) (value : option str)
    : expected str ConfigBuilder :=
  match prefix, name with
  | [], _ => Err $"path-specific option has an empty prefix"
  | _, [] => Err $"option name is empty"
  | _, _ =>
      let canonical_prefix := canonical_vsi_path prefix in
      let canonical_name := canonical_option_name name in
      if negb (known_option canonical_name) then Err ($"unknown Karu option '" ++ name ++ $"'")
      else if starts_with canonical_name $"KARU_" then
        Err (canonical_name ++ $" is client-wide and cannot be path-specific")
      else Ok (b <| b_paths := set_rule (b_paths b) canonical_prefix canonical_name value |>)
  end.

(** Null pointers are 0. *)
Definition set_provider (b : ConfigBuilder) (kind callback data destroy : Z)
    : expected str ConfigBuilder :=
  if (kind <? KARU_CREDENTIALS_AWS) || (KARU_CREDENTIALS_SOURCE <? kind) then
    Err $"unknown credentials kind"
  else if callback =? 0 then
    if negb (data =? 0) || negb (destroy =? 0) then
      Err $"clearing a credentials provider requires null user_data and release"
    else Ok (b <| b_providers := delete kind (b_providers b) |>)
  else Ok (b <| b_providers := <[kind := mkCallback callback data destroy]> (b_providers b) |>).

(** ** Bounds *)

Lemma parse_integer_ok lo hi name text mn mx v :
  parse_integer lo hi name text mn mx = Ok v -> mn <= v <= mx.
Proof.
  unfold parse_integer. destruct (from_chars_all lo hi text) as [w|]; [|done].
  destruct (_ || _) eqn:E; [done|]. intros [= <-]. lia.
Qed.

(** The ranges the rest of the client relies on. *)
Record client_options_ok (o : ClientOptions) : Prop := {
  ok_concurrency : 1 <= concurrency o <= 4096;
  ok_io_threads : 1 <= io_threads o <= 64;
  ok_gap : is_u64 (coalesce_gap o);
  ok_limit : 1 <= coalesce_limit o <= U64_MAX;
  ok_parts : 1 <= coalesce_parts o <= 1048576;
  ok_amplification : 1 <= coalesce_amplification o <= 1048576;
  ok_fallback : is_u64 (range_fallback_limit o);
  ok_attempts : 1 <= max_attempts o <= 16;
  ok_request_timeout : 0 <= request_timeout_seconds o <= 86400;
  ok_connect : 1 <= connect_timeout_seconds o <= 3600;
  ok_low_time : 0 <= low_speed_time_seconds o <= 3600;
  ok_low_limit : 0 <= low_speed_limit o <= I64_MAX;
}.

Lemma freeze_client_ok global o : freeze_client global = Ok o -> client_options_ok o.
Proof.
  unfold freeze_client. intros H.
  do 12 (apply expected_bind_ok in H as (? & ?%parse_integer_ok & H)).
  injection H as <-. by constructor.
Qed.

Lemma freeze_spec v b c :
  freeze v b = Ok c ->
  environment_ c = b_environment b /\ explicit_ c = b_explicit b /\ paths_ c = b_paths b /\
  providers_ c = b_providers b /\
  client_options_ok (client_ c) /\ validate_values (environment_ c) = Ok tt /\
  validate_values (explicit_ c) = Ok tt /\ validate_rules (paths_ c) = Ok tt /\
  freeze_client (fun name fallback => option_ c [] name fallback) = Ok (client_ c) /\
  configured_headers_ c = parse_configured_headers (option_ c [] $"KARU_HTTP_HEADERS" []) /\
  has_configured_headers_ c = negb (str_eqb (option_ c [] $"KARU_HTTP_HEADERS" []) []) /\
  http_ c = compute_http_options v c.
Proof.
  unfold freeze. set (r := mkSnapshot _ _ _ _ _ _ _ _ _ _ _ _ _). intros H.
  apply expected_bind_ok in H as ([] & H1 & H). apply expected_bind_ok in H as ([] & H2 & H).
  apply expected_bind_ok in H as ([] & H3 & H). apply expected_bind_ok in H as (o & H4 & H).
  injection H as <-. split_and!; try done. by eapply freeze_client_ok.
Qed.

(** ** Which rule wins *)

Definition sets (path name : str) (r : PathOptions) : Prop :=
  path_prefix_matches path (po_prefix r) = true /\ is_Some (po_values r !! name).

#[local] Instance sets_dec path name r : Decision (sets path name r).
Proof. unfold sets. apply _. Defined.

Definition prefix_length (r : PathOptions) : nat := length (po_prefix r).

Lemma best_rule_step path name r rules best :
  best_rule path name (r :: rules) best =
  best_rule path name rules
    (if decide (sets path name r)
     then match best with
          | Some b => if (prefix_length b <? prefix_length r)%nat then Some r else best
          | None => Some r
          end
     else best).
Proof.
  cbn [best_rule]. unfold has_value, sets, prefix_length. destruct (decide _) as [[-> Hv]|Hn].
  - rewrite bool_decide_true by done. done.
  - destruct (path_prefix_matches _ _); [|done]. rewrite bool_decide_false; [done|].
    intros Hv. by apply Hn.
Qed.

Lemma best_rule_spec path name rules : forall best,
  match best_rule path name rules best with
  | Some r =>
      (best = Some r /\ Forall (fun q => sets path name q -> prefix_length q <= prefix_length r)%nat rules) \/
      (exists a b, rules = a ++ r :: b /\ sets path name r /\
         (forall q, best = Some q -> prefix_length q < prefix_length r)%nat /\
         Forall (fun q => sets path name q -> prefix_length q < prefix_length r)%nat a /\
         Forall (fun q => sets path name q -> prefix_length q <= prefix_length r)%nat b)
  | None => best = None /\ Forall (fun q => ~ sets path name q) rules
  end.
Proof.
  induction rules as [|r rules IH]; intros best.
  - cbn. destruct best as [q|]; [left; by split|by split].
  - rewrite best_rule_step. set (best' := if decide _ then _ else _). specialize (IH best').
    destruct (best_rule path name rules best') as [w|].
    + destruct IH as [[Hb Hall]|(a & b & -> & Hw & Hlt & Ha & Hb)].
      * subst best'. destruct (decide (sets path name r)) as [Hr|Hr].
        -- destruct best as [q|].
           ++ destruct (Nat.ltb_spec (prefix_length q) (prefix_length r)); injection Hb as ->.
              ** right. exists [], rules. split_and!; try done. by intros ? [= <-].
              ** left. split; [done|]. by constructor.
           ++ injection Hb as ->. right. exists [], rules. by split_and!.
        -- left. split; [done|]. by constructor.
      * right. exists (r :: a), b. subst best'. split_and!; try done.
        -- intros q ->. destruct (decide (sets path name r)); [|by apply Hlt].
           destruct (Nat.ltb_spec (prefix_length q) (prefix_length r)); [|by apply Hlt].
           specialize (Hlt _ eq_refl). lia.
        -- constructor; [|done]. intros Hr. rewrite decide_True in Hlt by done.
           destruct best as [q|]; [|by apply Hlt].
           destruct (Nat.ltb_spec (prefix_length q) (prefix_length r)); [by apply Hlt|].
           specialize (Hlt _ eq_refl). lia.
    + destruct IH as [Hnone Hall]. subst best'. destruct (decide (sets path name r)) as [Hr|Hr].
      * destruct best as [q|]; [|done]. by destruct (_ <? _)%nat.
      * split; [done|]. by constructor.
Qed.

(** ** Path prefixes end at a segment boundary *)

Lemma ends_with_slash q : ends_with q $"/" = true <-> exists q', q = q' ++ $"/".
Proof.
  unfold ends_with. cbn. destruct q as [|c q _] using rev_ind.
  - cbn. split; [done|]. intros (q' & E). by destruct q'.
  - rewrite rev_app_distr. cbn. rewrite andb_true_r, Ascii.eqb_eq. split.
    + intros <-. by exists q.
    + intros (q' & E). apply app_inj_tail in E as [_ E]. done.
Qed.

Lemma path_prefix_matches_spec p q :
  path_prefix_matches p q = true <->
  exists r, p = q ++ r /\ (r = [] \/ (exists q', q = q' ++ $"/") \/ exists r', r = "/"%char :: r').
Proof.
  unfold path_prefix_matches. rewrite andb_true_iff, starts_with_spec, !orb_true_iff, ends_with_slash.
  split.
  - intros [(r & ->) Hr]. exists r. split; [done|].
    rewrite length_app, lookup_app_r, Nat.sub_diag in Hr by lia.
    destruct Hr as [[E%Nat.eqb_eq|?]|Hr]; [|by right; left|].
    + left. apply length_zero_iff_nil. lia.
    + right. right. destruct r as [|c r]; [done|]. cbn in Hr. apply Ascii.eqb_eq in Hr as ->. by eexists.
  - intros (r & -> & Hr). split; [by eexists|]. rewrite length_app, lookup_app_r, Nat.sub_diag by lia.
    destruct Hr as [->|[?|(r' & ->)]]; [|by left; right|by right].
    left. left. apply Nat.eqb_eq. cbn. lia.
Qed.

(** ** Trimming *)

Definition no_line_end (c : ascii) : Prop := char_in line_ends c = false.

Lemma skip_spaces_suffix s : exists l, s = l ++ skip_spaces s /\ Forall (fun c => is_space c = true) l.
Proof.
  induction s as [|c s (l & Hs & Hl)]; cbn; [by exists []|].
  destruct (is_space c) eqn:E; [|by exists []].
  exists (c :: l). split; [by rewrite Hs at 1|by constructor].
Qed.

Lemma skip_spaces_head s c r : skip_spaces s = c :: r -> is_space c = false.
Proof.
  induction s as [|d s IH]; cbn; [done|]. destruct (is_space d) eqn:E; [done|]. by intros [= -> _].
Qed.

Lemma skip_spaces_nonspace c s : is_space c = false -> skip_spaces (c :: s) = c :: s.
Proof. cbn. by intros ->. Qed.

(** A text is its trimmed text between spaces. *)
Lemma trim_text_spec s :
  exists a b, s = a ++ trim_text s ++ b /\ Forall (fun c => is_space c = true) a /\
              Forall (fun c => is_space c = true) b.
Proof.
  destruct (skip_spaces_suffix s) as (a & Hs & Ha).
  destruct (skip_spaces_suffix (rev (skip_spaces s))) as (b & Hb & Hb').
  exists a, (rev b). split_and!; [|done|by apply Forall_rev]. unfold trim_text.
  rewrite <-rev_app_distr, <-Hb, rev_involutive. done.
Qed.

Lemma trim_text_forall (P : ascii -> Prop) s : Forall P s -> Forall P (trim_text s).
Proof.
  intros H. destruct (trim_text_spec s) as (a & b & Hs & _ & _). rewrite Hs in H.
  by apply Forall_app in H as [_ [H _]%Forall_app].
Qed.

Lemma trim_text_head s c r : trim_text s = c :: r -> is_space c = false.
Proof.
  unfold trim_text. intros E. destruct (skip_spaces s) as [|d t] eqn:Es; [done|].
  destruct (skip_spaces_suffix (rev (d :: t))) as (b & Hb & _).
  apply (f_equal (@rev ascii)) in Hb. rewrite rev_involutive, rev_app_distr, E in Hb.
  injection Hb as -> _. by apply (skip_spaces_head s c t).
Qed.

(** Text that neither starts nor ends with a space. *)
Definition trimmed (s : str) : Prop :=
  (forall c r, s = c :: r -> is_space c = false) /\ (forall c r, s = r ++ [c] -> is_space c = false).

Lemma trim_trimmed s : trimmed s -> trim_text s = s.
Proof.
  intros [Hh Ht]. unfold trim_text.
  assert (Hskip : skip_spaces s = s).
  { destruct s as [|c s]; [done|]. apply skip_spaces_nonspace. by eapply Hh. }
  rewrite Hskip. clear Hskip Hh. destruct s as [|c s _] using rev_ind; [done|]. rewrite rev_app_distr. cbn [rev app].
  rewrite skip_spaces_nonspace by by eapply Ht.
  change (c :: rev s) with ([c] ++ rev s). by rewrite rev_app_distr, rev_involutive.
Qed.

Lemma trim_text_spaces a s b :
  Forall (fun c => is_space c = true) a -> Forall (fun c => is_space c = true) b -> trimmed s ->
  trim_text (a ++ s ++ b) = s.
Proof.
  intros Ha Hb Hs. assert (Hskip : forall l r, Forall (fun c => is_space c = true) l ->
    skip_spaces (l ++ r) = skip_spaces r).
  { induction 1 as [|c l Hc _ IH]; [done|]. cbn. by rewrite Hc. }
  unfold trim_text. rewrite Hskip by done.
  pose proof (trim_trimmed s Hs) as Ht. destruct s as [|c r].
  - cbn. replace (skip_spaces b) with (@nil ascii); [done|].
    rewrite <-(app_nil_r b), Hskip by done. done.
  - assert (Hc : is_space c = false) by exact (proj1 Hs c r eq_refl). cbn [app].
    rewrite skip_spaces_nonspace by done. rewrite app_comm_cons, rev_app_distr.
    rewrite Hskip by by apply Forall_rev.
    unfold trim_text in Ht. by rewrite skip_spaces_nonspace in Ht.
Qed.

(** ** What [parse_configured_headers] yields *)

Lemma take_to_no_line_end text start :
  Forall no_line_end (take_to ((fun e => e - start)%nat <$> find_first_of text line_ends start)
                        (drop start text)).
Proof.
  unfold find_first_of, find_if_from. destruct (find_if (char_in line_ends) (drop start text)) as [i|] eqn:E.
  - cbn. apply find_if_Some in E as (l & c & r & -> & <- & _ & Hl).
    replace (start + length l - start)%nat with (length l) by lia.
    by rewrite take_app_length.
  - cbn. by apply find_if_None in E.
Qed.

(** What a header that is not malformed looks like. *)
Record clean_header (h : ConfiguredHeader) : Prop := {
  clean_name_set : ch_name h <> [];
  clean_name_line : Forall no_line_end (ch_name h);
  clean_name_colon : ":"%char ∉ ch_name h;
  clean_value_line : Forall no_line_end (ch_value h);
  clean_lower : ch_lowercase_name h = lower_text (ch_name h);
}.

Lemma parse_headers_from_clean fuel text start h :
  h ∈ parse_headers_from fuel text start -> malformed h = false -> clean_header h.
Proof.
  revert start. induction fuel as [|fuel IH]; intros start; cbn [parse_headers_from].
  { by intros ?%elem_of_nil. }
  destruct (start <? length text)%nat; [|by intros ?%elem_of_nil].
  pose proof (trim_text_forall _ _ (take_to_no_line_end text start)) as Hline.
  set (line := trim_text _) in *.
  set (continue := match find_first_of text line_ends start with Some _ => _ | None => _ end).
  assert (Hcont : h ∈ continue -> malformed h = false -> clean_header h).
  { subst continue. destruct (find_first_of text line_ends start); [|by intros ?%elem_of_nil].
    destruct (find_first_not_of text line_ends _); [apply IH|by intros ?%elem_of_nil]. }
  assert (Hhead : forall c r, line = c :: r -> is_space c = false) by (intros c r; apply trim_text_head).
  clearbody line continue. destruct line as [|c0 r0]; [done|]. set (line := c0 :: r0) in *.
  assert (Hbad : h ∈ [mkConfiguredHeader [] [] [] true] -> malformed h = false -> clean_header h).
  { intros ->%list_elem_of_singleton. done. }
  destruct (find_char line ":") as [[|colon]|] eqn:Ec; [done| |done].
  intros [->|Hh]%elem_of_cons; [|by apply Hcont]. intros _.
  apply find_char_Some in Ec as (l & r & Hl & Hlen & Hnc).
  assert (Htake : take (S colon) line = l) by (rewrite Hl, <-Hlen; apply take_app_length).
  assert (Hdrop : drop (S colon + 1) line = r) by (rewrite Hl, <-Hlen; apply drop_past).
  rewrite Htake, Hdrop. rewrite Hl in Hline. apply Forall_app in Hline as [Hll [_ Hlr]%Forall_cons_iff].
  constructor; cbn.
  - destruct l as [|c l]; [done|]. intros Hnil.
    destruct (trim_text_spec (c :: l)) as (a & b & Hs & Ha & Hb). rewrite Hnil in Hs. cbn in Hs.
    assert (is_space c = true) as Hsp.
    { assert (Forall (fun x => is_space x = true) (c :: l)) as H by (rewrite Hs; by apply Forall_app).
      by apply Forall_cons_iff in H as [? _]. }
    rewrite (Hhead c (l ++ ":"%char :: r)) in Hsp; [done|]. exact Hl.
  - by apply trim_text_forall.
  - intros Hin. apply Hnc. destruct (trim_text_spec l) as (a & b & -> & _).
    apply elem_of_app. right. apply elem_of_app. by left.
  - by apply trim_text_forall.
  - done.
Qed.

(** ** Environment *)

Lemma read_environment_keeps getenv names m n v :
  m !! n = Some v -> read_environment getenv names m !! n = Some v.
Proof.
  revert m. induction names as [|x names IH]; intros m Hm; cbn; [done|].
  destruct (getenv_set getenv x) as [w|]; [|by apply IH]. apply IH.
  destruct (m !! canonical_option_name x) eqn:E; [done|].
  rewrite lookup_insert_ne; [done|]. intros <-. by rewrite Hm in E.
Qed.

(** The first spelling of an option that is set decides. *)
Lemma read_environment_spec getenv names m n :
  m !! n = None ->
  read_environment getenv names m !! n =
  match List.find (fun x => str_eqb (canonical_option_name x) n
                            && bool_decide (is_Some (getenv_set getenv x))) names with
  | Some x => getenv_set getenv x
  | None => None
  end.
Proof.
  revert m. induction names as [|x names IH]; intros m Hm; cbn [read_environment List.find]; [done|].
  destruct (getenv_set getenv x) as [w|] eqn:Ex; cycle 1.
  { rewrite andb_false_r. by apply IH. }
  rewrite andb_true_r. unfold str_eqb at 1. case_bool_decide as Hn.
  - subst n. rewrite Ex. apply read_environment_keeps. rewrite Hm. by rewrite lookup_insert_eq.
  - apply IH. destruct (m !! canonical_option_name x); [done|]. by rewrite lookup_insert_ne.
Qed.

(** ** Properties *)

(** A snapshot only exists with usable numbers: whatever the environment
    and the caller set, [freeze] refuses unless every numeric option is an
    integer in its documented range, so the planner's and the engine's
    assumptions hold, and unless the values of every layer are valid. *)
Theorem frozen_options_are_bounded v b c :
  freeze v b = Ok c ->
  client_options_ok (client_ c) /\ plan_options_ok (client_ c) /\
  validate_values (environment_ c) = Ok tt /\ validate_values (explicit_ c) = Ok tt /\
  Forall (fun r => validate_values (po_values r) = Ok tt) (paths_ c).
Proof.
  intros (_ & _ & _ & _ & Hok & H1 & H2 & H3 & _)%freeze_spec. split_and!; try done.
  - destruct Hok as [_ _ H4 _ H5 H6 _ _ _ _ _ _]. unfold plan_options_ok. unfold is_u64 in H4. lia.
  - revert H3. generalize (paths_ c) as rules.
    induction rules as [|r rules IH]; cbn [validate_rules]; [constructor|].
    destruct (validate_values (po_values r)) as [[]|] eqn:E; [|done]. intros H. by constructor; [|apply IH].
Qed.

(** The value of an option is decided by its layers alone: the path rule
    with the longest matching prefix that sets it (the first such rule when
    several are as long) wins over the value set for the client, that over the
    environment, and that over the caller's default. *)
Theorem option_precedence c path name fallback :
  let P := canonical_vsi_path path in
  let N := canonical_option_name name in
  (exists a r b value, paths_ c = a ++ r :: b /\ sets P N r /\ po_values r !! N = Some value /\
     option_ c path name fallback = value /\
     Forall (fun q => sets P N q -> (prefix_length q < prefix_length r)%nat) a /\
     Forall (fun q => sets P N q -> (prefix_length q <= prefix_length r)%nat) b) \/
  (Forall (fun q => ~ sets P N q) (paths_ c) /\
   option_ c path name fallback =
     default fallback (match explicit_ c !! N with Some v => Some v | None => environment_ c !! N end)).
Proof.
  intros P N. unfold option_. pose proof (best_rule_spec P N (paths_ c) None) as H.
  change (canonical_option_name name) with N. change (canonical_vsi_path path) with P.
  destruct (best_rule P N (paths_ c) None) as [r|].
  - left. destruct H as [[? _]|(a & b & Hp & Hr & _ & Ha & Hb)]; [done|].
    destruct Hr as [Hm [value Hv]]. exists a, r, b, value. rewrite Hv. split_and!; try done.
  - right. destruct H as [_ H]. split; [done|].
    destruct (explicit_ c !! N); [done|]. by destruct (environment_ c !! N).
Qed.

(** What is set is what is read: an option set on the builder is the one
    the snapshot answers, under every spelling of its name and for every path
    no rule covers, whatever the environment says, and no other option
    changes. *)
Theorem set_options_are_read v b name value b' c alias path fallback :
  set b name (Some value) = Ok b' -> freeze v b' = Ok c ->
  Forall (fun r => ~ sets (canonical_vsi_path path) (canonical_option_name alias) r) (paths_ c) ->
  if decide (canonical_option_name alias = canonical_option_name name)
  then option_ c path alias fallback = value
  else option_ c path alias fallback =
         default fallback (match b_explicit b !! canonical_option_name alias with
                           | Some w => Some w
                           | None => b_environment b !! canonical_option_name alias
                           end).
Proof.
  intros Hset (He & Hx & _)%freeze_spec Hrules.
  assert (Hb : b' = b <| b_explicit := <[canonical_option_name name := value]> (b_explicit b) |>).
  { unfold set in Hset. destruct name; [done|]. destruct (negb _); [done|]. by injection Hset as <-. }
  subst b'. cbn in He, Hx. unfold option_.
  pose proof (best_rule_spec (canonical_vsi_path path) (canonical_option_name alias) (paths_ c) None) as H.
  destruct (best_rule _ _ _ _) as [r|].
  { destruct H as [[? _]|(a & d & Hp & Hr & _)]; [done|]. exfalso.
    rewrite Hp in Hrules. apply Forall_app in Hrules as [_ [Hn _]%Forall_cons_iff]. by apply Hn. }
  rewrite He, Hx. destruct (decide _) as [->|Hne]; [by rewrite lookup_insert_eq|].
  rewrite lookup_insert_ne by done. destruct (b_explicit b !! _); [done|]. by destruct (b_environment b !! _).
Qed.

(** A path prefix covers itself and what lies below it, never a part of a
    segment: [/vsis3/data] does not match [/vsis3/database]. *)
Theorem prefix_matches_segments p q :
  path_prefix_matches p q = true <->
  exists r, p = q ++ r /\ (r = [] \/ (exists q', q = q' ++ $"/") \/ exists r', r = "/"%char :: r').
Proof. exact (path_prefix_matches_spec p q). Qed.

(** A configured header cannot smuggle another one: every header parsed
    from [KARU_HTTP_HEADERS] and not reported as malformed has a nonempty name
    without a colon, and neither its name nor its value holds a line end. *)
Theorem configured_headers_are_clean v b c h :
  freeze v b = Ok c -> h ∈ configured_headers_ c -> malformed h = false -> clean_header h.
Proof.
  intros (_ & _ & _ & _ & _ & _ & _ & _ & _ & Hh & _)%freeze_spec. rewrite Hh.
  apply parse_headers_from_clean.
Qed.

(** *** Witnesses *)

Definition example_env (name : str) : option str :=
  if str_eqb name $"AWS_DEFAULT_REGION" then Some $"eu-west-1"
  else if str_eqb name $"KARU_HTTP_HEADERS"
  then Some ($"X-Team: maps" ++ line_ends ++ $"x-app : karu ")
  else None.

Definition example_builder : ConfigBuilder := new_builder example_env (fun _ => false) true.

Example defaults_freeze :
  client_ <$> (match freeze $"1.0" (new_builder (fun _ => None) (fun _ => false) false) with
               | Ok c => Some c | Err _ => None end) = Some ClientOptions_default.
Proof. vm_compute. reflexivity. Qed.

Definition empty_snapshot : ConfigSnapshot :=
  mkSnapshot ∅ ∅ [] ∅ [] [] [] [] false ClientOptions_default HttpRequestOptions_default [] false.
Definition freeze_or_empty (b : ConfigBuilder) : ConfigSnapshot :=
  match freeze $"1.0" b with Ok c => c | Err _ => empty_snapshot end.

Definition example_snapshot : ConfigSnapshot := Eval vm_compute in freeze_or_empty example_builder.
Lemma example_freezes : freeze $"1.0" example_builder = Ok example_snapshot.
Proof. vm_compute. reflexivity. Qed.

Lemma frozen_options_are_bounded_witness :
  freeze $"1.0" example_builder = Ok example_snapshot /\ client_options_ok (client_ example_snapshot).
Proof.
  split; [exact example_freezes|].
  exact (proj1 (frozen_options_are_bounded $"1.0" example_builder example_snapshot example_freezes)).
Defined.

Definition in_us_west : ConfigBuilder :=
  example_builder <| b_explicit := <[$"AWS_REGION" := $"us-west-2"]> ∅ |>.
Definition us_west_snapshot : ConfigSnapshot := Eval vm_compute in freeze_or_empty in_us_west.
Lemma us_west_set : set example_builder $"aws_region" (Some $"us-west-2") = Ok in_us_west.
Proof. vm_compute. reflexivity. Qed.
Lemma us_west_freezes : freeze $"1.0" in_us_west = Ok us_west_snapshot.
Proof. vm_compute. reflexivity. Qed.

Lemma set_options_are_read_witness :
  option_ us_west_snapshot $"s3://bucket/key" $"AWS_DEFAULT_REGION" [] = $"us-west-2" /\
  option_ us_west_snapshot $"s3://bucket/key" $"AWS_PROFILE" $"none" = $"none".
Proof.
  pose proof (fun alias => set_options_are_read $"1.0" example_builder $"aws_region" $"us-west-2"
    in_us_west us_west_snapshot alias $"s3://bucket/key" [] us_west_set us_west_freezes
    (Forall_nil_2 _)) as H1.
  pose proof (fun alias => set_options_are_read $"1.0" example_builder $"aws_region" $"us-west-2"
    in_us_west us_west_snapshot alias $"s3://bucket/key" $"none" us_west_set us_west_freezes
    (Forall_nil_2 _)) as H2.
  split.
  - specialize (H1 $"AWS_DEFAULT_REGION"). rewrite decide_True in H1 by by vm_compute. exact H1.
  - specialize (H2 $"AWS_PROFILE"). rewrite decide_False in H2 by by vm_compute.
    rewrite H2. vm_compute. reflexivity.
Defined.

Lemma configured_headers_are_clean_witness :
  map ch_name (configured_headers_ example_snapshot) = [ $"X-Team"; $"x-app"] /\
  Forall clean_header (configured_headers_ example_snapshot).
Proof.
  split; [reflexivity|]. apply Forall_forall. intros h Hin.
  apply (configured_headers_are_clean $"1.0" example_builder example_snapshot h example_freezes Hin).
  cbn in Hin. by repeat (apply elem_of_cons in Hin as [->|Hin]); [..|apply elem_of_nil in Hin].
Defined.
