(* ===== verification/Backends.v ===== *)
(** * Backends: from an object to a signed request

    Models [src/src/backends/url.cpp], [crypto.cpp], [s3_signing.cpp],
    [s3.cpp], [source.cpp], [gcs.cpp], [azure.cpp], [http.cpp] and
    [hugging_face.cpp] of the same directory, and the header helpers and the
    reading of text files of [backends/credentials.cpp].  OpenSSL's primitives
    ([Crypto] looks below two of them), [strftime] on UTC and the file system
    are a class of parameters; the thread-local cache of the signing key is an
    explicit state.  The theorems show that the parts of an accepted URL give
    it back and that an S3 signature covers the request it is sent with. *)

From S2P Require Import Prelude Text Uri Types Planner Config.

(** ** What the code calls outside [src/] *)

Class Platform := {
  EVP_sha256 : str -> option str;            (* a digest, None when OpenSSL fails *)
  HMAC_sha1 : str -> str -> option str;      (* key, message *)
  EVP_EncodeBlock : str -> str;
  EVP_DecodeBlock : str -> option str;       (* None for a negative answer *)
  strftime_utc : Z -> str -> str;            (* time, format *)
  fs_exists : str -> expected str bool;      (* std::filesystem::exists, or the error's message *)
  (* An opened file stream: the bytes its reads give and whether they end at
     the end of the file; None when it cannot be opened. *)
  ifstream : str -> option (str * bool);
}.

Abbreviation Result A := (expected RequestError A) (only parsing).
Definition config_error (text : str) : RequestError :=
  {| err_status := KARU_ERR_CONFIG; err_message := text |}.
Definition credentials_error (text : str) : RequestError :=
  {| err_status := KARU_ERR_CREDENTIALS; err_message := text |}.

Abbreviation Header := (str * str)%type (only parsing).

(** ** Text files, of [credentials.cpp] *)

Definition path_exists `{Platform} (path purpose : str) : Result bool :=
  match fs_exists path with
  | Err message =>
      Err (credentials_error (purpose ++ $": cannot inspect '" ++ path ++ $"': " ++ message))
  | Ok exists_ => Ok exists_
  end.

Definition file_limit : nat := Z.to_nat (Z.shiftl 1 20).
Definition buffer_size : nat := Z.to_nat 4096.

(** The loop: each read fills the buffer but the last; the length of the file
    is enough fuel. *)
Fixpoint read_stream (fuel : nat) (purpose stream contents : str) : Result str :=
  match fuel with
  | O => Ok contents
  | S fuel =>
      let read := take buffer_size stream in
      if (file_limit - length contents <? length read)%nat
      then Err (credentials_error (purpose ++ $": file exceeds 1 MiB"))
      else if (length read <? buffer_size)%nat then Ok (contents ++ read)
      else read_stream fuel purpose (drop buffer_size stream) (contents ++ read)
  end.

Definition read_text_file `{Platform} (path purpose : str) : Result str :=
  match ifstream path with
  | None => Err (credentials_error (purpose ++ $": cannot open '" ++ path ++ $"'"))
  | Some (stream, at_eof) =>
      contents ← read_stream (S (length stream)) purpose stream [];
      if negb at_eof then Err (credentials_error (purpose ++ $": cannot read '" ++ path ++ $"'"))
      else Ok contents
  end.

(** The whole file, if it has at most 1 MiB. *)
Lemma read_stream_spec purpose fuel : forall stream contents,
  (length contents <= file_limit)%nat -> (length stream < fuel)%nat ->
  read_stream fuel purpose stream contents =
  if (length contents + length stream <=? file_limit)%nat then Ok (contents ++ stream)
  else Err (credentials_error (purpose ++ $": file exceeds 1 MiB")).
Proof.
  assert (0 < buffer_size)%nat by (unfold buffer_size; lia).
  induction fuel as [|fuel IH]; intros stream contents Hc Hf; [lia|]. cbn [read_stream].
  rewrite length_take. set (size := buffer_size) in *. clearbody size.
  destruct (Nat.ltb_spec (file_limit - length contents) (size `min` length stream)) as [Hbig|Hfit].
  { by rewrite (proj2 (Nat.leb_gt _ _)) by lia. }
  destruct (Nat.ltb_spec (size `min` length stream) size) as [Hlast|Hmore].
  { rewrite (proj2 (Nat.leb_le _ _)) by lia. by rewrite take_ge by lia. }
  rewrite IH; [|rewrite length_app, length_take; lia|rewrite length_drop; lia].
  rewrite length_app, length_take, length_drop, <-app_assoc, take_drop.
  replace (length contents + size `min` length stream + (length stream - size))%nat
    with (length contents + length stream)%nat by lia. done.
Qed.

Lemma read_text_file_spec `{Platform} path purpose contents :
  read_text_file path purpose = Ok contents <->
  ifstream path = Some (contents, true) /\ (length contents <= file_limit)%nat.
Proof.
  unfold read_text_file. destruct (ifstream path) as [[stream at_eof]|]; [|naive_solver].
  rewrite read_stream_spec by (cbn; lia). cbn [length app Nat.add].
  destruct (Nat.leb_spec (length stream) file_limit); cbn [mbind expected_bind]; [|naive_solver lia].
  destruct at_eof; naive_solver.
Qed.

(** ** [url.cpp] *)

Definition trim (value : str) : str :=
  match find_if (fun c => negb (is_space c)) value with
  | None => []
  | Some first =>
      match find_if (fun c => negb (is_space c)) (rev value) with
      | None => []
      | Some n => substr value first (length value - n - first)
      end
  end.

Definition lower (value : str) : str := map to_lower value.

Fixpoint strip_slashes (fuel : nat) (value : str) : str :=
  match fuel with
  | O => value
  | S fuel =>
      if (1 <? length value)%nat && ends_with value $"/"
      then strip_slashes fuel (take (length value - 1) value) else value
  end.
Definition without_trailing_slash (value : str) : str := strip_slashes (length value) value.

Definition starts_with_scheme (endpoint : str) : bool :=
  let normalized := lower (take 8 endpoint) in
  starts_with normalized $"http://" || starts_with normalized $"https://".

Definition http_endpoint (endpoint option : str) (use_https : bool) : Result str :=
  if starts_with_scheme endpoint then Ok endpoint
  else if contains endpoint $"://" then Err (config_error (option ++ $" must use HTTP or HTTPS"))
  else Ok ((if use_https then $"https://" else $"http://") ++ endpoint).

Record UrlParts := mkUrlParts { scheme : str; authority : str; u_path : str; query : str }.
#[export] Instance UrlParts_eta : Eta UrlParts := fun r =>
  mkUrlParts (scheme r) (authority r) (u_path r) (query r).

Definition split_url (url : str) : Result UrlParts :=
  match find_str url $"://" with
  | None => Err (config_error $"endpoint has no URL scheme")
  | Some marker =>
      let authority_start := (marker + 3)%nat in
      let path_start := find_first_of url $"/?" authority_start in
      let scheme := lower (take marker url) in
      if negb (str_eqb scheme $"http") && negb (str_eqb scheme $"https") then
        Err (config_error $"endpoint must use HTTP or HTTPS")
      else
        let authority :=
          substr url authority_start
            (match path_start with
             | None => length url - authority_start
             | Some p => p - authority_start
             end) in
        if str_eqb authority [] then Err (config_error $"endpoint has no authority")
        else if negb (bool_decide (find_char authority "@" = None)) then
          Err (config_error $"endpoint must not contain user information")
        else if negb (bool_decide (find_if_from (Ascii.eqb "#") url authority_start = None)) then
          Err (config_error $"endpoint must not contain a fragment")
        else
          match path_start with
          | None => Ok (mkUrlParts scheme authority $"/" [])
          | Some p =>
              let query := find_if_from (Ascii.eqb "?") url p in
              let path := match query with
                          | None => drop p url
                          | Some q => substr url p (q - p)
                          end in
              let path := match path with
                          | [] => $"/"
                          | c :: _ => if Ascii.eqb c "?" then $"/" else path
                          end in
              Ok (mkUrlParts scheme authority path
                    (match query with None => [] | Some q => drop (q + 1) url end))
          end
  end.

Definition append_object (endpoint container key : str) : str :=
  without_trailing_slash endpoint ++ $"/" ++ container ++ $"/" ++ encode_path key.

Definition hex_upper (n : nat) : ascii := nth n $"0123456789ABCDEF" "0"%char.

Definition form_char (c : ascii) : str :=
  if is_alnum c || char_in $"-_.~" c then [c]
  else ["%"%char; hex_upper (nat_of_ascii c / 16); hex_upper (nat_of_ascii c mod 16)].
Definition form_encode (text : str) : str := flat_map form_char text.

(** ** Ranges and headers ([credentials.cpp]) *)

Definition range_header (first length : Z) : str :=
  concat [Text $"bytes="; Integer first; Text $"-"; Integer (wrap64 (wrap64 (first + length) - 1))].
Definition suffix_range_header (length : Z) : str := concat [Text $"bytes=-"; Integer length].

Definition has_any (s set : str) : bool := negb (bool_decide (find_first_of s set 0 = None)).

Definition valid_generated (h : Header) : bool :=
  negb (str_eqb h.1 [] || has_any h.1 (":"%char :: line_ends) || has_any h.2 line_ends).

Definition protected_name (normalized : str) : bool :=
  str_eqb normalized $"authorization" || str_eqb normalized $"date" || str_eqb normalized $"if-match"
  || starts_with normalized $"x-amz-" || starts_with normalized $"x-goog-"
  || starts_with normalized $"x-ms-".

Fixpoint append_configured (configured : list ConfiguredHeader) (headers : list Header)
    (protect_authentication : bool) : Result (list Header) :=
  match configured with
  | [] => Ok headers
  | h :: configured =>
      if malformed h then Err (config_error $"KARU_HTTP_HEADERS contains a malformed header")
      else
        let normalized := ch_lowercase_name h in
        let duplicate := existsb (fun current => str_eqb (lower current.1) normalized) headers in
        if str_eqb normalized $"host" || str_eqb normalized $"range" || duplicate
           || (protect_authentication && protected_name normalized)
        then Err (config_error ($"KARU_HTTP_HEADERS cannot override Karu-managed header '"
                                ++ ch_name h ++ $"'"))
        else append_configured configured (headers ++ [(ch_name h, ch_value h)]) protect_authentication
  end.

Definition add_configured_headers (c : ConfigSnapshot) (headers : list Header)
    (protect_authentication : bool) : Result (list Header) :=
  if forallb valid_generated headers
  then append_configured (configured_headers_ c) headers protect_authentication
  else Err (config_error $"a generated HTTP header is invalid").

(** [PreparedRequest]'s constructor. *)
Definition new_request (url : str) (headers : list Header) : PreparedRequest :=
  {| req_url := url; req_headers := headers; req_range := []; req_http := HttpRequestOptions_default;
     routing_region := [] |}.
Definition without_redirects (r : PreparedRequest) : PreparedRequest :=
  r <| req_http := (req_http r) <| follow_redirects := false |> |>.

Definition if_match_header (if_match : str) : list Header :=
  if str_eqb if_match [] then [] else [($"If-Match", if_match)].

(** ** Plain HTTP and Hugging Face *)

Definition prepare_http (c : ConfigSnapshot) (object : Resolved) (if_match : str)
    : Result PreparedRequest :=
  headers ← add_configured_headers c (if_match_header if_match) false;
  Ok (new_request (target object) headers).

Section Providers.
Context `{Platform}.

Definition hugging_face_token (c : ConfigSnapshot) (path : str) : Result str :=
  match option_ c path $"HF_TOKEN" [] with
  | [] =>
      match hugging_face_token_path c path with
      | [] => Ok []
      | token_path =>
          exists_ ← path_exists token_path $"Hugging Face token";
          if negb exists_ then Ok []
          else contents ← read_text_file token_path $"Hugging Face token"; Ok (trim contents)
      end
  | token => Ok token
  end.

Definition prepare_hugging_face (c : ConfigSnapshot) (object : Resolved) (if_match : str)
    : Result PreparedRequest :=
  let path := canonical_uri object in
  let endpoint := without_trailing_slash (option_ c path $"HF_ENDPOINT" $"https://huggingface.co") in
  normalized ← http_endpoint endpoint $"HF_ENDPOINT" true;
  let endpoint := without_trailing_slash normalized in
  parts ← split_url endpoint;
  if negb (str_eqb (query parts) []) then Err (config_error $"HF_ENDPOINT cannot contain a query")
  else
    token ← hugging_face_token c path;
    let headers := (if str_eqb token [] then [] else [($"Authorization", $"Bearer " ++ token)])
                   ++ if_match_header if_match in
    headers ← add_configured_headers c headers true;
    Ok (new_request (endpoint ++ target object) headers).

(** ** [crypto.cpp] *)

Definition xor_byte (n : nat) (c : ascii) : ascii := ascii_of_nat (Nat.lxor (nat_of_ascii c) n).
Definition kSha256Block : nat := 64.
Definition hmac_failed : RequestError := credentials_error $"OpenSSL HMAC failed".

(** The key in one block: its digest when it is longer, padded with zeros. *)
Definition hmac_block (key : str) : option str :=
  let pad s := s ++ repeat "000"%char (kSha256Block - length s) in
  if (kSha256Block <? length key)%nat then pad <$> EVP_sha256 key else Some (pad key).

Definition hmac_sha256 (key value : str) : Result str :=
  match (block ← hmac_block key;
         inner ← EVP_sha256 (map (xor_byte 54) block ++ value);
         EVP_sha256 (map (xor_byte 92) block ++ inner)) with
  | Some result => Ok result
  | None => Err hmac_failed
  end.

Definition sha256 (value : str) : Result str :=
  match EVP_sha256 value with
  | Some digest => Ok digest
  | None => Err (credentials_error $"OpenSSL SHA256 failed")
  end.

(** [hmac] with [EVP_sha1]. *)
Definition hmac (key value : str) : Result str :=
  if INT_MAX <? Z.of_nat (length key) then Err (credentials_error $"HMAC parameters are not supported")
  else match HMAC_sha1 key value with
       | Some result => Ok result
       | None => Err hmac_failed
       end.

Definition base64 (bytes : str) : str := match bytes with [] => [] | _ => EVP_EncodeBlock bytes end.

Definition rfc7231_date (now : Z) : str := strftime_utc now $"%a, %d %b %Y %H:%M:%S GMT".

(** ** [s3_signing.cpp] *)

Definition virtual_host_url (endpoint : UrlParts) (bucket key : str) : str :=
  scheme endpoint ++ $"://" ++ bucket ++ $"." ++ authority endpoint
  ++ (if str_eqb (u_path endpoint) $"/" then $"/" else without_trailing_slash (u_path endpoint) ++ $"/")
  ++ encode_path key.

Definition signed_host (url : UrlParts) : str :=
  let default_port := if str_eqb (scheme url) $"https" then $":443" else $":80" in
  if ends_with (authority url) default_port
  then take (length (authority url) - length default_port) (authority url)
  else authority url.

Definition hex_lower (n : nat) : ascii := nth n $"0123456789abcdef" "0"%char.
Definition hex (bytes : str) : str :=
  flat_map (fun c => [hex_lower (nat_of_ascii c / 16); hex_lower (nat_of_ascii c mod 16)]) bytes.

Record SigningKeyCache := mkKeyCache {
  k_secret : str; k_date : str; k_region : str; k_key : str; k_valid : bool;
}.
#[export] Instance SigningKeyCache_eta : Eta SigningKeyCache := fun r =>
  mkKeyCache (k_secret r) (k_date r) (k_region r) (k_key r) (k_valid r).
Definition empty_key_cache : SigningKeyCache := mkKeyCache [] [] [] [] false.

(** The four HMACs. *)
Definition derive_key (secret date region : str) : Result str :=
  date_key ← hmac_sha256 ($"AWS4" ++ secret) date;
  region_key ← hmac_sha256 date_key region;
  service_key ← hmac_sha256 region_key $"s3";
  hmac_sha256 service_key $"aws4_request".

Definition signing_key (cache : SigningKeyCache) (secret date region : str)
    : Result str * SigningKeyCache :=
  if k_valid cache && str_eqb (k_secret cache) secret && str_eqb (k_date cache) date
     && str_eqb (k_region cache) region
  then (Ok (k_key cache), cache)
  else match derive_key secret date region with
       | Ok key => (Ok key, mkKeyCache secret date region key true)
       | Err e => (Err e, cache)
       end.

Definition valid_aws_region (region : str) : bool :=
  negb (str_eqb region []) && forallb (fun c => is_alnum c || Ascii.eqb c "-") region.

Record S3GetRequest := mkS3Get {
  s3_endpoint : str; endpoint_option : str; bucket : str; s3_key : str; region : str;
  virtual_hosting : bool; request_payer : str;
}.
#[export] Instance S3GetRequest_eta : Eta S3GetRequest := fun r =>
  mkS3Get (s3_endpoint r) (endpoint_option r) (bucket r) (s3_key r) (region r) (virtual_hosting r)
    (request_payer r).

(** [std::ranges::sort] by name; the names are distinct. *)
Fixpoint insert_header (h : Header) (l : list Header) : list Header :=
  match l with
  | [] => [h]
  | g :: l' => if str_ltb g.1 h.1 then g :: insert_header h l' else h :: l
  end.
Definition sort_headers (l : list Header) : list Header := foldr insert_header [] l.

Definition signed_headers_of (target : S3GetRequest) (credentials : ProviderCredentials)
    (host range timestamp if_match : str) : list Header :=
  sort_headers
    ([($"host", host); ($"range", range); ($"x-amz-content-sha256", $"UNSIGNED-PAYLOAD");
      ($"x-amz-date", timestamp)]
     ++ (if str_eqb if_match [] then [] else [($"if-match", if_match)])
     ++ (if str_eqb (session_token credentials) [] then []
         else [($"x-amz-security-token", session_token credentials)])
     ++ (if str_eqb (lower (request_payer target)) $"requester"
         then [($"x-amz-request-payer", $"requester")] else [])).

Definition NL : str := ["010"%char].

Definition canonical_headers (hs : list Header) : str :=
  flat_map (fun h => lower h.1 ++ $":" ++ trim h.2 ++ NL) hs.
Fixpoint signed_names (hs : list Header) : str :=
  match hs with
  | [] => []
  | [h] => lower h.1
  | h :: hs => lower h.1 ++ $";" ++ signed_names hs
  end.

Definition canonical_request_of (url : UrlParts) (hs : list Header) : str :=
  $"GET" ++ NL ++ u_path url ++ NL ++ query url ++ NL ++ canonical_headers hs ++ NL
  ++ signed_names hs ++ NL ++ $"UNSIGNED-PAYLOAD".

(** The signed request, once the URL is known. *)
Definition sign_s3_get (cache : SigningKeyCache) (target : S3GetRequest) (url : str)
    (credentials : ProviderCredentials) (range if_match : str) (signing_time : Z)
    : Result PreparedRequest * SigningKeyCache :=
  match split_url url with
  | Err e => (Err e, cache)
  | Ok url_parts =>
      let timestamp := strftime_utc signing_time $"%Y%m%dT%H%M%SZ" in
      let date := take 8 timestamp in
      let hs := signed_headers_of target credentials (signed_host url_parts) range timestamp if_match in
      let scope := date ++ $"/" ++ region target ++ $"/s3/aws4_request" in
      match sha256 (canonical_request_of url_parts hs) with
      | Err e => (Err e, cache)
      | Ok request_hash =>
          let string_to_sign :=
            $"AWS4-HMAC-SHA256" ++ NL ++ timestamp ++ NL ++ scope ++ NL ++ hex request_hash in
          let '(key, cache) := signing_key cache (secret_access_key credentials) date (region target) in
          (key ← key;
           signed_request ← hmac_sha256 key string_to_sign;
           let headers :=
             base.filter (fun h => h.1 <> $"host" /\ h.1 <> $"range") hs
             ++ [($"Authorization",
                  $"AWS4-HMAC-SHA256 Credential=" ++ access_key_id credentials ++ $"/" ++ scope
                  ++ $", SignedHeaders=" ++ signed_names hs ++ $", Signature=" ++ hex signed_request)] in
           Ok (without_redirects (new_request url headers)), cache)
      end
  end.

Definition prepare_s3_get (cache : SigningKeyCache) (target : S3GetRequest)
    (credentials : option ProviderCredentials) (range if_match : str) (signing_time : Z)
    : Result PreparedRequest * SigningKeyCache :=
  match split_url (s3_endpoint target) with
  | Err e => (Err e, cache)
  | Ok endpoint =>
      if negb (str_eqb (query endpoint) []) then
        (Err (config_error (endpoint_option target ++ $" cannot contain a query")), cache)
      else
        let url := if virtual_hosting target
                   then virtual_host_url endpoint (bucket target) (s3_key target)
                   else append_object (s3_endpoint target) (bucket target) (s3_key target) in
        match credentials with
        | None => (Ok (new_request url (if_match_header if_match)), cache)
        | Some credentials => sign_s3_get cache target url credentials range if_match signing_time
        end
  end.

(** ** [s3.cpp] and [source.cpp] *)

(** [RequestContext] *)
Record RequestContext := mkContext {
  rc_config : ConfigSnapshot; rc_object : Resolved; rc_credentials : option ProviderCredentials;
  rc_range : str; rc_region_hint : str; rc_if_match : str; rc_signing_time : Z;
}.

Definition credential_region_of (c : option ProviderCredentials) : str :=
  match c with None => [] | Some c => cred_region c end.
Definition or_default (value fallback : str) : str := if str_eqb value [] then fallback else value.

(** The credentials [prepare_aws] signs with; an anonymous request has none. *)
Definition aws_credentials (r : RequestContext) : Result (option ProviderCredentials) :=
  let path := canonical_uri (rc_object r) in
  if option_is_true (option_ (rc_config r) path $"AWS_NO_SIGN_REQUEST" $"NO") then Ok None
  else
    let configured :=
      match rc_credentials r with
      | Some c => c
      | None =>
          ProviderCredentials_default
            <| access_key_id := option_ (rc_config r) path $"AWS_ACCESS_KEY_ID" [] |>
            <| secret_access_key := option_ (rc_config r) path $"AWS_SECRET_ACCESS_KEY" [] |>
            <| session_token := option_ (rc_config r) path $"AWS_SESSION_TOKEN" [] |>
      end in
    if str_eqb (access_key_id configured) [] || str_eqb (secret_access_key configured) [] then
      Err (credentials_error
             (path ++ $": no AWS credentials; set AWS_ACCESS_KEY_ID and AWS_SECRET_ACCESS_KEY, install a custom provider, or set AWS_NO_SIGN_REQUEST=YES for a public object"))
    else Ok (Some configured).

Definition prepare_aws (cache : SigningKeyCache) (r : RequestContext)
    : Result PreparedRequest * SigningKeyCache :=
  let path := canonical_uri (rc_object r) in
  let option_at := option_ (rc_config r) path in
  let region :=
    match rc_region_hint r with
    | [] => option_at $"AWS_REGION" (or_default (credential_region_of (rc_credentials r)) $"us-east-1")
    | hint => hint
    end in
  if negb (valid_aws_region region) then
    (Err (config_error (path ++ $": AWS region contains invalid characters")), cache)
  else
    let endpoint := option_at $"AWS_S3_ENDPOINT" [] in
    let default_endpoint := str_eqb endpoint [] in
    let endpoint := if default_endpoint then $"s3." ++ region ++ $".amazonaws.com" else endpoint in
    match http_endpoint endpoint $"AWS_S3_ENDPOINT" (option_is_true (option_at $"AWS_HTTPS" $"YES")) with
    | Err e => (Err e, cache)
    | Ok endpoint =>
        match aws_credentials r with
        | Err e => (Err e, cache)
        | Ok credentials =>
            let virtual_hosting_default :=
              default_endpoint && bool_decide (find_char (container (rc_object r)) "." = None) in
            let target :=
              {| s3_endpoint := endpoint; endpoint_option := $"AWS_S3_ENDPOINT";
                 bucket := container (rc_object r); s3_key := key (rc_object r);
                 region := region;
                 virtual_hosting :=
                   option_is_true (option_at $"AWS_VIRTUAL_HOSTING"
                                     (if virtual_hosting_default then $"YES" else $"NO"));
                 request_payer := option_at $"AWS_REQUEST_PAYER" [] |} in
            let '(prepared, cache) :=
              prepare_s3_get cache target credentials (rc_range r) (rc_if_match r) (rc_signing_time r) in
            (prepared ← prepared; Ok (prepared <| routing_region := region |>), cache)
        end
    end.

Definition prepare_source (cache : SigningKeyCache) (r : RequestContext)
    : Result PreparedRequest * SigningKeyCache :=
  let path := canonical_uri (rc_object r) in
  let option_at := option_ (rc_config r) path in
  match http_endpoint (option_at $"SOURCE_ENDPOINT" $"https://data.source.coop") $"SOURCE_ENDPOINT" true with
  | Err e => (Err e, cache)
  | Ok endpoint =>
      let region := option_at $"SOURCE_REGION"
                      (or_default (credential_region_of (rc_credentials r)) $"us-east-1") in
      if negb (valid_aws_region region) then
        (Err (config_error (path ++ $": Source region contains invalid characters")), cache)
      else if match rc_credentials r with
              | Some c => str_eqb (access_key_id c) [] || str_eqb (secret_access_key c) []
              | None => false
              end then
        (Err (credentials_error (path ++ $": Source credentials require an access key and secret")), cache)
      else
        let target :=
          {| s3_endpoint := endpoint; endpoint_option := $"SOURCE_ENDPOINT";
             bucket := container (rc_object r); s3_key := key (rc_object r); region := region;
             virtual_hosting := false; request_payer := [] |} in
        prepare_s3_get cache target (rc_credentials r) (rc_range r) (rc_if_match r) (rc_signing_time r)
  end.

(** ** [gcs.cpp] *)

Definition gcs_credentials (r : RequestContext) : ProviderCredentials :=
  let option_at name := option_ (rc_config r) (canonical_uri (rc_object r)) name [] in
  match rc_credentials r with
  | Some custom => custom
  | None =>
      ProviderCredentials_default
        <| access_key_id := option_at $"GCS_HMAC_ACCESS_KEY_ID" |>
        <| secret_access_key := option_at $"GCS_HMAC_SECRET_ACCESS_KEY" |>
        <| bearer_token := option_at $"GCS_ACCESS_TOKEN" |>
  end.

Definition gcs_string_to_sign (object : Resolved) (date user_project : str) : str :=
  $"GET" ++ NL ++ NL ++ NL ++ date ++ NL
  ++ (if str_eqb user_project [] then [] else $"x-goog-user-project:" ++ user_project ++ NL)
  ++ $"/" ++ container object ++ $"/" ++ encode_path (key object).

Definition prepare_gcs (r : RequestContext) : Result PreparedRequest :=
  let object := rc_object r in
  let path := canonical_uri object in
  let option_at := option_ (rc_config r) path in
  endpoint ← http_endpoint (option_at $"GCS_ENDPOINT" $"https://storage.googleapis.com")
               $"GCS_ENDPOINT" true;
  parts ← split_url endpoint;
  if negb (str_eqb (query parts) []) then Err (config_error $"GCS_ENDPOINT cannot contain a query")
  else
    let url := append_object endpoint (container object) (key object) in
    let user_project := option_at $"GCS_USER_PROJECT" [] in
    let headers :=
      [($"Accept-Encoding", $"gzip")] ++ if_match_header (rc_if_match r)
      ++ (if str_eqb user_project [] then [] else [($"x-goog-user-project", user_project)]) in
    if option_is_true (option_at $"GCS_NO_SIGN_REQUEST" $"NO") then Ok (new_request url headers)
    else
      let credentials := gcs_credentials r in
      if negb (str_eqb (bearer_token credentials) []) then
        Ok (without_redirects (new_request url
              (headers ++ [($"Authorization", $"Bearer " ++ bearer_token credentials)])))
      else if negb (str_eqb (access_key_id credentials) [])
              && negb (str_eqb (secret_access_key credentials) []) then
        let date := rfc7231_date (rc_signing_time r) in
        signature ← hmac (secret_access_key credentials) (gcs_string_to_sign object date user_project);
        Ok (without_redirects (new_request url
              (headers ++ [($"Date", date);
                           ($"Authorization", $"GOOG1 " ++ access_key_id credentials ++ $":"
                                              ++ base64 signature)])))
      else
        Err (credentials_error
               (path ++ $": no GCS credentials; set GCS_ACCESS_TOKEN, configure GCS_HMAC_ACCESS_KEY_ID/GCS_HMAC_SECRET_ACCESS_KEY, install a custom provider, or set GCS_NO_SIGN_REQUEST=YES")).

(** ** [azure.cpp] *)

Definition SERVICE_VERSION : str := $"2023-11-03".

(** The loop of [parse_connection_string]; [emplace] keeps the first value.
    Each turn passes one separator, so one more than the length is enough. *)
Fixpoint parse_items (fuel : nat) (connection : str) (start : nat) (m : OptionMap) : OptionMap :=
  match fuel with
  | O => m
  | S fuel =>
      if (start <=? length connection)%nat then
        let end_ := find_if_from (Ascii.eqb ";") connection start in
        let item := take_to ((fun e => e - start)%nat <$> end_) (drop start connection) in
        let m :=
          match find_char item "=" with
          | Some equals =>
              let name := lower (take equals item) in
              match m !! name with Some _ => m | None => <[name := drop (equals + 1) item]> m end
          | None => m
          end in
        match end_ with
        | None => m
        | Some e => parse_items fuel connection (e + 1) m
        end
      else m
  end.
Definition parse_connection_string (connection : str) : OptionMap :=
  parse_items (S (length connection)) connection 0 ∅.

Definition decode_base64 (value context : str) : Result str :=
  let value := base.filter (fun c => is_space c = false) value in
  let failed := Err (credentials_error (context ++ $" is not base64")) in
  if str_eqb value [] || negb (length value mod 4 =? 0)%nat then failed
  else match EVP_DecodeBlock value with
       | None => failed
       | Some decoded =>
           let n := length decoded in
           Ok (take (if ends_with value $"==" then n - 2
                     else if ends_with value $"=" then n - 1 else n)%nat decoded)
       end.

Definition azure_credentials (r : RequestContext) (connection_value : str -> str) : ProviderCredentials :=
  let option_at := option_ (rc_config r) (canonical_uri (rc_object r)) in
  let c := default ProviderCredentials_default (rc_credentials r) in
  c <| account_name := or_default (account_name c)
                         (option_at $"AZURE_STORAGE_ACCOUNT" (connection_value $"accountname")) |>
    <| secret_access_key := or_default (secret_access_key c)
                              (option_at $"AZURE_STORAGE_ACCESS_KEY" (connection_value $"accountkey")) |>
    <| sas_token := or_default (sas_token c)
                      (option_at $"AZURE_STORAGE_SAS_TOKEN" (connection_value $"sharedaccesssignature")) |>
    <| bearer_token := or_default (bearer_token c) (option_at $"AZURE_STORAGE_ACCESS_TOKEN" []) |>.

Definition azure_endpoint (r : RequestContext) (credentials : ProviderCredentials)
    (connection_value : str -> str) : Result str :=
  let object := rc_object r in
  let path := canonical_uri object in
  let endpoint := or_default (option_ (rc_config r) path $"AZURE_STORAGE_ENDPOINT" [])
                    (connection_value (if azure_dfs object then $"dfsendpoint" else $"blobendpoint")) in
  if str_eqb endpoint [] then
    if str_eqb (account_name credentials) [] then
      Err (config_error (path ++ $": Azure needs AZURE_STORAGE_ACCOUNT or an explicit endpoint"))
    else
      let suffix := or_default (connection_value $"endpointsuffix") $"core.windows.net" in
      let protocol := or_default (lower (connection_value $"defaultendpointsprotocol")) $"https" in
      if negb (str_eqb protocol $"http") && negb (str_eqb protocol $"https") then
        Err (config_error $"Azure DefaultEndpointsProtocol must be http or https")
      else Ok (protocol ++ $"://" ++ account_name credentials
               ++ (if azure_dfs object then $".dfs." else $".blob.") ++ suffix)
  else http_endpoint endpoint $"AZURE_STORAGE_ENDPOINT" true.

Fixpoint strip_query_marks (sas : str) : str :=
  match sas with
  | c :: rest => if Ascii.eqb c "?" || Ascii.eqb c "&" then strip_query_marks rest else sas
  | [] => []
  end.

Definition azure_string_to_sign (account date range if_match u_path : str) : str :=
  $"GET" ++ NL
  ++ flat_map (fun value => value ++ NL)
       [[]; []; []; []; []; []; []; if_match; []; []; range]
  ++ $"x-ms-date:" ++ date ++ NL ++ $"x-ms-version:" ++ SERVICE_VERSION ++ NL
  ++ $"/" ++ account ++ u_path.

Definition prepare_azure (r : RequestContext) : Result PreparedRequest :=
  let object := rc_object r in
  let path := canonical_uri object in
  let option_at := option_ (rc_config r) path in
  let connection := parse_connection_string (option_at $"AZURE_STORAGE_CONNECTION_STRING" []) in
  let connection_value name := default [] (connection !! name) in
  let credentials := azure_credentials r connection_value in
  endpoint ← azure_endpoint r credentials connection_value;
  parts ← split_url endpoint;
  if negb (str_eqb (query parts) []) then
    Err (config_error $"AZURE_STORAGE_ENDPOINT cannot contain a query")
  else
    let url := append_object endpoint (container object) (key object) in
    let headers := if_match_header (rc_if_match r) ++ [($"x-ms-version", SERVICE_VERSION)] in
    if option_is_true (option_at $"AZURE_NO_SIGN_REQUEST" $"NO") then Ok (new_request url headers)
    else if negb (str_eqb (sas_token credentials) []) then
      let mark := if bool_decide (find_char url "?" = None) then $"?" else $"&" in
      Ok (without_redirects (new_request (url ++ mark ++ strip_query_marks (sas_token credentials)) headers))
    else if negb (str_eqb (bearer_token credentials) []) then
      Ok (without_redirects (new_request url
            (headers ++ [($"Authorization", $"Bearer " ++ bearer_token credentials)])))
    else if str_eqb (account_name credentials) [] || str_eqb (secret_access_key credentials) [] then
      Err (credentials_error
             (path ++ $": no Azure credentials; configure a SAS, access token or account key, install a custom provider, or set AZURE_NO_SIGN_REQUEST=YES"))
    else
      decoded_key ← decode_base64 (secret_access_key credentials) $"AZURE_STORAGE_ACCESS_KEY";
      let date := rfc7231_date (rc_signing_time r) in
      url_parts ← split_url url;
      signature ← hmac_sha256 decoded_key
                    (azure_string_to_sign (account_name credentials) date (rc_range r) (rc_if_match r)
                       (u_path url_parts));
      Ok (without_redirects (new_request url
            (headers ++ [($"x-ms-date", date);
                         ($"Authorization", $"SharedKey " ++ account_name credentials ++ $":"
                                            ++ base64 signature)]))).
End Providers.

(** ** Facts on strings *)

Lemma find_str_Some s pat i : find_str s pat = Some i -> s = take i s ++ pat ++ drop (i + length pat) s.
Proof.
  revert i. induction s as [|c s IH]; intros i; cbn [find_str].
  - destruct (starts_with [] pat) eqn:E; [|done]. intros [= <-]. apply starts_with_drop in E. exact E.
  - destruct (starts_with (c :: s) pat) eqn:E.
    + intros [= <-]. apply starts_with_drop in E. exact E.
    + destruct (find_str s pat) as [j|] eqn:Ej; [|done]. intros [= <-].
      cbn [take app Nat.add drop]. f_equal. by apply IH.
Qed.

Lemma find_if_from_Some f s pos i :
  find_if_from f s pos = Some i ->
  exists l c r, drop pos s = l ++ c :: r /\ i = (pos + length l)%nat /\ f c = true /\
    Forall (fun x => f x = false) l.
Proof.
  unfold find_if_from. destruct (find_if f (drop pos s)) as [j|] eqn:E; [|done]. intros [= <-].
  apply find_if_Some in E as (l & c & r & ? & <- & ? & ?). by exists l, c, r.
Qed.

Lemma find_if_from_None f s pos :
  find_if_from f s pos = None -> Forall (fun x => f x = false) (drop pos s).
Proof.
  unfold find_if_from. destruct (find_if f (drop pos s)) eqn:E; [done|]. intros _. by apply find_if_None.
Qed.

Lemma char_in_spec set c : char_in set c = false <-> c ∉ set.
Proof.
  unfold char_in. induction set as [|d set IH]; cbn.
  - split; [by intros _ ?%elem_of_nil|done].
  - rewrite orb_false_iff, IH, Ascii.eqb_neq, not_elem_of_cons. done.
Qed.

Lemma forall_not_char c s : Forall (fun x => Ascii.eqb c x = false) s <-> c ∉ s.
Proof. rewrite <-find_char_None. unfold find_char. by rewrite find_if_None. Qed.

(** ** [split_url] *)

Definition or_slash (path : str) : str := match path with [] => $"/" | _ => path end.

(** The text of a URL and its parts. *)
Record url_reads (url : str) (p : UrlParts) (s path_text query_text : str) : Prop := {
  ur_text : url = s ++ $"://" ++ authority p ++ path_text ++ query_text;
  ur_scheme : lower s = scheme p;
  ur_http : scheme p = $"http" \/ scheme p = $"https";
  ur_authority : authority p <> [] /\ "@"%char ∉ authority p /\ "/"%char ∉ authority p /\
                 "?"%char ∉ authority p;
  ur_path : u_path p = or_slash path_text;
  ur_path_text : "?"%char ∉ path_text /\ (path_text = [] \/ exists r, path_text = "/"%char :: r);
  ur_query : query_text = [] /\ query p = [] \/ query_text = "?"%char :: query p;
  ur_fragment : "#"%char ∉ authority p ++ path_text ++ query_text;
}.

(** The end of a URL, from its path on. *)
Lemma split_path_query rest q path :
  (rest = [] \/ exists r, rest = "/"%char :: r \/ rest = "?"%char :: r) ->
  (match find_char rest "?" with
   | None => path = rest /\ q = []
   | Some i => path = take i rest /\ q = drop (i + 1) rest
   end) ->
  "?"%char ∉ path /\ (path = [] \/ exists r, path = "/"%char :: r) /\
  exists query_text, rest = path ++ query_text /\ (query_text = [] /\ q = [] \/ query_text = "?"%char :: q).
Proof.
  intros Hrest. destruct (find_char rest "?") as [i|] eqn:E.
  - apply find_char_Some in E as (l & r & -> & <- & Hl). intros [-> ->].
    rewrite take_app_length, drop_past. split_and!; [done| |].
    + destruct l as [|c l]; [by left|right]. destruct Hrest as [?|(r' & [E|E])]; [done| |];
        injection E as -> _; [by exists l|].
      contradict Hl. apply list_elem_of_here.
    + exists ("?"%char :: r). split; [done|by right].
  - apply find_char_None in E. intros [-> ->]. split_and!; [done| |].
    + destruct Hrest as [?|(r' & [-> | ->])]; [by left|right; by eexists|].
      contradict E. apply list_elem_of_here.
    + exists []. rewrite app_nil_r. split; [done|by left].
Qed.

Lemma or_slash_code path :
  (path = [] \/ exists r, path = "/"%char :: r) ->
  match path with [] => $"/" | c :: _ => if Ascii.eqb c "?" then $"/" else path end = or_slash path.
Proof. by intros [->|(r & ->)]. Qed.

(** ** Sorted headers *)

Definition name_le (g h : Header) : Prop := str_ltb h.1 g.1 = false.

Lemma name_le_trans f g h : name_le f g -> name_le g h -> name_le f h.
Proof.
  unfold name_le. intros H1 H2. destruct (str_ltb h.1 f.1) eqn:E; [|done].
  destruct (str_ltb_total f.1 g.1) as [Hfg|[Hfg|Hfg]].
  - by rewrite (str_ltb_trans _ _ _ E Hfg) in H2.
  - by rewrite Hfg in H1.
  - rewrite Hfg in E. by rewrite E in H2.
Qed.

Lemma insert_header_in h l x : x ∈ insert_header h l <-> x = h \/ x ∈ l.
Proof.
  induction l as [|g l IH]; cbn [insert_header]; [by rewrite elem_of_cons|].
  destruct (str_ltb g.1 h.1); rewrite !elem_of_cons, ?IH; tauto.
Qed.

Lemma insert_header_sorted h l : StronglySorted name_le l -> StronglySorted name_le (insert_header h l).
Proof.
  induction 1 as [|g l Hl IH Hg]; cbn [insert_header]; [by repeat constructor|].
  destruct (str_ltb g.1 h.1) eqn:E.
  - constructor; [done|]. rewrite Forall_forall in *. intros x [->|Hx]%insert_header_in; [|by apply Hg].
    unfold name_le. destruct (str_ltb h.1 g.1) eqn:E2; [|done].
    pose proof (str_ltb_trans _ _ _ E E2) as E3. by rewrite str_ltb_irrefl in E3.
  - constructor; [by constructor|]. constructor; [done|].
    eapply Forall_impl; [exact Hg|]. intros x Hx. by apply (name_le_trans h g x).
Qed.

Lemma sort_headers_in l x : x ∈ sort_headers l <-> x ∈ l.
Proof.
  induction l as [|h l IH]; [done|]. cbn [sort_headers foldr]. fold (sort_headers l).
  rewrite insert_header_in, IH, elem_of_cons. done.
Qed.

Lemma sort_headers_sorted l : StronglySorted name_le (sort_headers l).
Proof. induction l as [|h l IH]; [constructor|]. by apply insert_header_sorted. Qed.

(** ** Properties *)

(** Where [split_url] ends the authority: before the first [/] or [?]. *)
Lemma authority_cut url k tail :
  tail = drop k url ->
  let path_start := find_first_of url $"/?" k in
  let auth := take (match path_start with None => length url - k | Some i => i - k end)%nat tail in
  exists rest, tail = auth ++ rest /\ Forall (fun c => char_in $"/?" c = false) auth /\
    (rest = [] \/ exists r, rest = "/"%char :: r \/ rest = "?"%char :: r) /\
    match path_start with
    | None => rest = []
    | Some i => drop i url = rest /\ rest <> []
    end.
Proof.
  intros Ht. cbv zeta. destruct (find_first_of url $"/?" k) as [i|] eqn:Ep.
  - apply find_if_from_Some in Ep as (l & c & r & Hd & -> & Hc & Hl). rewrite <-Ht in Hd.
    replace (k + length l - k)%nat with (length l) by lia.
    rewrite Hd, take_app_length. exists (c :: r). split_and!; try done.
    + right. exists r. unfold char_in in Hc. cbn in Hc. rewrite orb_false_r, orb_true_iff, !Ascii.eqb_eq in Hc.
      destruct Hc as [-> | ->]; auto.
    + rewrite <-drop_drop, <-Ht. by rewrite Hd, drop_app_length.
  - apply find_if_from_None in Ep. rewrite <-Ht in Ep. exists [].
    rewrite take_ge by (rewrite Ht, length_drop; lia). rewrite app_nil_r. auto.
Qed.

(** Taking a URL apart loses nothing and admits only plain endpoints: the
    parts of an accepted URL give its text back, its scheme is HTTP or HTTPS
    in lowercase, its authority is nonempty and ends before the path and the
    query, and neither user information nor a fragment is accepted. *)
Theorem split_url_parts url p :
  split_url url = Ok p -> exists s path_text query_text, url_reads url p s path_text query_text.
Proof.
  unfold split_url. destruct (find_str url $"://") as [marker|] eqn:Em; [|done].
  apply find_str_Some in Em. change (length $"://") with 3%nat in Em.
  set (s := take marker url) in *. set (tail := drop (marker + 3) url) in *.
  destruct (negb (str_eqb (lower s) _) && _) eqn:Es; [done|].
  assert (Hhttp : lower s = $"http" \/ lower s = $"https").
  { apply andb_false_iff in Es as [Hs%negb_false_iff%str_eqb_eq|Hs%negb_false_iff%str_eqb_eq]; auto. }
  clear Es. unfold substr. fold tail. set (path_start := find_first_of url $"/?" (marker + 3)).
  set (auth := take _ tail).
  destruct (authority_cut url (marker + 3) tail eq_refl) as (rest & Htail & Hauth & Hhead & Hp).
  fold path_start in Htail, Hauth, Hp. fold auth in Htail, Hauth.
  destruct (str_eqb auth []) eqn:Ea; [done|].
  case_bool_decide as Hat; cbn [negb]; [|done]. apply find_char_None in Hat.
  case_bool_decide as Hfrag; cbn [negb]; [|done]. apply find_if_from_None in Hfrag. fold tail in Hfrag.
  assert (Hno : auth <> [] /\ "@"%char ∉ auth /\ "/"%char ∉ auth /\ "?"%char ∉ auth).
  { split_and!; [intros E; by rewrite E in Ea|done| |];
      intros Hin; rewrite Forall_forall in Hauth; by specialize (Hauth _ Hin). }
  clearbody auth path_start. rewrite Htail in Hfrag. apply forall_not_char in Hfrag.
  destruct path_start as [i|].
  2: { subst rest. intros [= <-]. exists s, [], []. rewrite app_nil_r in *.
       constructor; cbn; try done; [by rewrite app_nil_r, Em at 1; rewrite Htail, ?app_nil_r| |by left|].
       - split; [by intros ?%elem_of_nil|by left].
       - by rewrite app_nil_r. }
  destruct Hp as [Hdrop Hne].
  set (q := find_if_from (Ascii.eqb "?") url i). set (path := match q with None => _ | Some _ => _ end).
  set (qt := match q with None => [] | Some _ => _ end).
  assert (Hpq : match find_char rest "?" with
                | None => path = rest /\ qt = []
                | Some j => path = take j rest /\ qt = drop (j + 1) rest
                end).
  { subst path qt q. unfold find_if_from. rewrite Hdrop. fold (find_char rest "?").
    destruct (find_char rest "?") as [j|]; cbn; [|done]. rewrite Nat.add_sub_swap, Nat.sub_diag by lia.
    split; [done|]. rewrite <-Nat.add_assoc, <-drop_drop. by rewrite Hdrop. }
  clearbody path qt. destruct (split_path_query rest qt path Hhead Hpq) as (P1 & P2 & query_text & P3 & P4).
  rewrite or_slash_code by done. intros [= <-]. exists s, path, query_text.
  constructor; cbn; try done; [|by rewrite <-P3]. by rewrite <-P3, <-Htail.
Qed.

Lemma split_url_parts_witness :
  exists p, split_url $"HTTPS://host:8443/a/b?v=1" = Ok p /\
    p = mkUrlParts $"https" $"host:8443" $"/a/b" $"v=1" /\
    exists s path_text query_text, url_reads $"HTTPS://host:8443/a/b?v=1" p s path_text query_text.
Proof.
  exists (mkUrlParts $"https" $"host:8443" $"/a/b" $"v=1"). split; [reflexivity|]. split; [done|].
  exact (split_url_parts $"HTTPS://host:8443/a/b?v=1" (mkUrlParts $"https" $"host:8443" $"/a/b" $"v=1")
           eq_refl).
Defined.

Lemma form_char_decodes c s : percent_decode (form_char c ++ s) = c :: percent_decode s.
Proof.
  unfold form_char. destruct (_ || _) eqn:E.
  - apply percent_decode_cons.
    assert (implb (is_alnum c || char_in $"-_.~" c) (negb (Ascii.eqb c "%")) = true) as H.
    { clear E. revert c. apply forall_ascii. vm_compute. reflexivity. }
    rewrite E in H. by apply negb_true_iff.
  - cbn [app percent_decode]. rewrite Ascii.eqb_refl. f_equal. apply hex_pair.
Qed.

Lemma form_char_plain c :
  Forall (fun d => d <> "&"%char /\ d <> "="%char /\ d <> "+"%char /\ d <> " "%char) (form_char c).
Proof.
  assert (forallb (fun d => negb (char_in $"&=+ " d)) (form_char c) = true) as H.
  { revert c. apply forall_ascii. vm_compute. reflexivity. }
  apply Forall_forall. intros d Hd. rewrite forallb_forall in H.
  specialize (H d (proj1 (list_elem_of_In _ _) Hd)). apply negb_true_iff, char_in_spec in H.
  cbn in H. rewrite !not_elem_of_cons in H. tauto.
Qed.

(** Form encoding loses nothing and leaves only unreserved characters and
    percent signs, so an encoded value can add no field to a form. *)
Theorem form_encode_roundtrip text :
  percent_decode (form_encode text) = text /\
  Forall (fun c => c <> "&"%char /\ c <> "="%char /\ c <> "+"%char /\ c <> " "%char) (form_encode text).
Proof.
  unfold form_encode. induction text as [|c text [IH1 IH2]]; cbn [flat_map]; [split; [done|constructor]|].
  split; [by rewrite form_char_decodes, IH1|]. apply Forall_app. split; [apply form_char_plain|done].
Qed.

Section Signing.
Context {PF : Platform}.

(** The cached key is the one its inputs derive. *)
Definition coherent (cache : SigningKeyCache) : Prop :=
  k_valid cache = true -> derive_key (k_secret cache) (k_date cache) (k_region cache) = Ok (k_key cache).

Lemma signing_key_derives cache secret date region :
  coherent cache ->
  (signing_key cache secret date region).1 = derive_key secret date region /\
  coherent (signing_key cache secret date region).2.
Proof.
  intros Hc. unfold signing_key. destruct (_ && _) eqn:E.
  - apply andb_true_iff in E as [[[E1 E2%str_eqb_eq]%andb_true_iff E3%str_eqb_eq]%andb_true_iff E4%str_eqb_eq].
    cbn. by rewrite <-(Hc E1), E2, E3, E4.
  - destruct (derive_key secret date region) eqn:Ed; split; try done. intros _. exact Ed.
Qed.

(** The per-thread cache of the signing key is invisible: whatever was
    signed before, the key is the one the secret, the date and the region
    derive, and the cache stays coherent. *)
Theorem signing_key_cache_transparent cache (uses : list (str * str * str)) secret date region :
  coherent cache ->
  let after := fold_left (fun c u => (signing_key c u.1.1 u.1.2 u.2).2) uses cache in
  (signing_key after secret date region).1 = derive_key secret date region /\
  coherent (signing_key after secret date region).2.
Proof.
  revert cache. induction uses as [|u uses IH]; intros cache Hc; cbn [fold_left].
  - by apply signing_key_derives.
  - apply IH. by apply signing_key_derives.
Qed.

(** C31: an S3 signature covers the request that is sent: a signed request
    carries, next to its Authorization header, only headers of the signed
    list; that list is sorted and holds the host of the request's URL, the
    range and the precondition; the signature is the HMAC, under the key the
    secret derives, of the string that names the hash of the canonical
    request, and the request may not be redirected. *)
Theorem s3_signature_covers_request cache target c range pin t r :
  coherent cache -> (prepare_s3_get cache target (Some c) range pin t).1 = Ok r ->
  exists parts hs key digest signature,
    let timestamp := strftime_utc t $"%Y%m%dT%H%M%SZ" in
    let scope := take 8 timestamp ++ $"/" ++ region target ++ $"/s3/aws4_request" in
    split_url (req_url r) = Ok parts /\ StronglySorted name_le hs /\
    ($"host", signed_host parts) ∈ hs /\ ($"range", range) ∈ hs /\
    (pin <> [] -> ($"if-match", pin) ∈ hs) /\
    derive_key (secret_access_key c) (take 8 timestamp) (region target) = Ok key /\
    sha256 (canonical_request_of parts hs) = Ok digest /\
    hmac_sha256 key ($"AWS4-HMAC-SHA256" ++ NL ++ timestamp ++ NL ++ scope ++ NL ++ hex digest)
      = Ok signature /\
    (exists sent, req_headers r = sent ++ [($"Authorization",
        $"AWS4-HMAC-SHA256 Credential=" ++ access_key_id c ++ $"/" ++ scope
        ++ $", SignedHeaders=" ++ signed_names hs ++ $", Signature=" ++ hex signature)] /\
      forall h, h ∈ sent <-> h ∈ hs /\ h.1 <> $"host" /\ h.1 <> $"range") /\
    follow_redirects (req_http r) = false.
Proof.
  intros Hco. unfold prepare_s3_get. destruct (split_url (s3_endpoint target)) as [endpoint|]; [|done].
  destruct (negb _); [done|]. set (url := if virtual_hosting target then _ else _).
  unfold sign_s3_get. destruct (split_url url) as [parts|] eqn:Eu; [|done].
  set (hs := signed_headers_of _ _ _ _ _ _).
  destruct (sha256 (canonical_request_of parts hs)) as [digest|] eqn:Ed; [|done].
  match goal with |- context [signing_key cache ?s ?d ?g] =>
    pose proof (proj1 (signing_key_derives cache s d g Hco)) as Hkey;
    destruct (signing_key cache s d g) as [key cache'] end.
  cbn [fst] in *. intros (k & -> & (sig & Hsig & [= <-])%expected_bind_ok)%expected_bind_ok.
  exists parts, hs, k, digest, sig. cbn [req_url without_redirects new_request].
  split_and!; try done.
  - apply sort_headers_sorted.
  - apply sort_headers_in, elem_of_app. left. apply list_elem_of_here.
  - apply sort_headers_in, elem_of_app. left. apply list_elem_of_further, list_elem_of_here.
  - intros Hpin. apply sort_headers_in, elem_of_app. right. apply elem_of_app. left.
    unfold str_eqb. rewrite bool_decide_false by done. apply list_elem_of_here.
  - eexists. split; [reflexivity|]. intros h. rewrite list_elem_of_filter. tauto.
Qed.
End Signing.

(** *** Witnesses *)

Lemma empty_coherent `{Platform} : coherent empty_key_cache.
Proof. done. Qed.

Definition toy_platform : Platform := {|
  EVP_sha256 s := Some (take 4 (rev s)); HMAC_sha1 k s := Some (take 4 (rev s));
  EVP_EncodeBlock s := s; EVP_DecodeBlock s := Some s; strftime_utc t f := $"20240102T030405Z";
  fs_exists p := Ok false; ifstream p := None;
|}.

Lemma signing_key_cache_transparent_witness :
  (@signing_key toy_platform
     (fold_left (fun c u => (@signing_key toy_platform c u.1.1 u.1.2 u.2).2)
        [($"s", $"20240102", $"eu-west-1")] empty_key_cache) $"s" $"20240102" $"us-east-1").1
  = @derive_key toy_platform $"s" $"20240102" $"us-east-1".
Proof.
  exact (proj1 (@signing_key_cache_transparent toy_platform empty_key_cache
    [($"s", $"20240102", $"eu-west-1")] $"s" $"20240102" $"us-east-1" empty_coherent)).
Defined.

Definition toy_target : S3GetRequest :=
  mkS3Get $"https://s3.us-east-1.amazonaws.com" $"AWS_S3_ENDPOINT" $"b" $"k" $"us-east-1" true [].
Definition toy_keys : ProviderCredentials :=
  ProviderCredentials_default <| access_key_id := $"AKID" |> <| secret_access_key := $"secret" |>.
Definition toy_request : PreparedRequest :=
  match (@prepare_s3_get toy_platform empty_key_cache toy_target (Some toy_keys) $"bytes=0-9"
           (["034"%char] ++ $"v1" ++ ["034"%char]) 0).1 with
  | Ok r => r
  | Err _ => new_request [] []
  end.

Lemma toy_request_prepared :
  (@prepare_s3_get toy_platform empty_key_cache toy_target (Some toy_keys) $"bytes=0-9"
     (["034"%char] ++ $"v1" ++ ["034"%char]) 0).1 = Ok toy_request.
Proof. vm_compute. reflexivity. Qed.

Lemma s3_signature_covers_request_witness :
  req_url toy_request = $"https://b.s3.us-east-1.amazonaws.com/k" /\
  exists parts (hs : list Header), split_url (req_url toy_request) = Ok parts /\
    ($"host", signed_host parts) ∈ hs /\ ($"range", $"bytes=0-9") ∈ hs.
Proof.
  split; [vm_compute; reflexivity|].
  destruct (@s3_signature_covers_request toy_platform empty_key_cache toy_target toy_keys $"bytes=0-9"
    (["034"%char] ++ $"v1" ++ ["034"%char]) 0 toy_request empty_coherent toy_request_prepared)
    as (parts & hs & key & digest & sig & H1 & _ & H2 & H3 & _).
  exists parts, hs. exact (conj H1 (conj H2 H3)).
Defined.
