(* ===== verification/Crypto.v ===== *)
(** * Crypto: digests over OpenSSL's context

    Models [src/src/backends/crypto.cpp] below the level of [Backends]: the
    digest context every thread keeps and uses again, [digest_parts] that feeds
    it a message in parts, and the buffers [hmac_sha256] works in and wipes.
    The context is the class [DigestContext]; what OpenSSL documents of it is
    the class [DigestLaws], where the view [absorbed] is the message fed since
    the last successful initialization, if there was one.  The theorem shows
    that the keyed digest is RFC 2104's whatever the context went through
    before, and that no key material stays in the buffers; the lemmas after it
    connect both functions with those of [Backends]. *)

From S2P Require Import Prelude Text Uri Types Planner Config Backends.

(** ** The context *)

(** [EVP_DigestInit_ex2], [EVP_DigestUpdate] and [EVP_DigestFinal_ex], each
    with whether it returned 1; the last one writes a digest. *)
Class DigestContext (C : Type) := {
  evp_init : C -> bool * C;
  evp_update : str -> C -> bool * C;
  evp_final : C -> bool * str * C;
}.

(** SHA-256 by its length, and what the calls promise. *)
Class DigestLaws (C : Type) `{!DigestContext C} := {
  SHA256 : str -> str;
  absorbed : C -> option str;
  SHA256_length s : length (SHA256 s) = 32%nat;
  init_law c c' : evp_init c = (true, c') -> absorbed c' = Some [];
  update_law c c' m part : absorbed c = Some m -> evp_update part c = (true, c') ->
    absorbed c' = Some (m ++ part);
  final_law c c' m written : absorbed c = Some m -> evp_final c = (true, written, c') -> written = SHA256 m;
}.

Definition zeros (n : nat) : str := repeat "000"%char n.

(** [memcpy] to the start of an array, and [OPENSSL_cleanse]. *)
Definition overlay (bytes array : str) : str := bytes ++ drop (length bytes) array.
Definition cleanse (array : str) : str := zeros (length array).

(** What is left in the local arrays when [hmac_sha256] returns. *)
Record Scratch := mkScratch { sc_block : str; sc_pad : str; sc_inner : str; sc_hashed : str }.

Section Digests.
Context {C : Type} `{!DigestContext C}.
(** Whether [EVP_MD_fetch] found SHA-256. *)
Variable sha256_method : bool.

Fixpoint update_parts (parts : list str) (context : C) : bool * C :=
  match parts with
  | [] => (true, context)
  | part :: parts =>
      let '(ok, context) := evp_update part context in
      if ok then update_parts parts context else (false, context)
  end.

(** The thread's context is [None] when it could not be made. *)
Definition digest_parts (context : option C) (parts : list str) (out : str) : bool * str * option C :=
  match context with
  | Some context =>
      if negb sha256_method then (false, out, Some context) else
      let '(ok, context) := evp_init context in
      if negb ok then (false, out, Some context) else
      let '(ok, context) := update_parts parts context in
      if negb ok then (false, out, Some context) else
      let '(ok, written, context) := evp_final context in
      (ok && (length written =? length out)%nat, overlay written out, Some context)
  | None => (false, out, None)
  end.

Definition digest_sha256 (context : option C) (value : str) : Result str * option C :=
  let '(ok, digest, context) := digest_parts context [value] (zeros 32) in
  (if ok then Ok digest else Err (credentials_error $"OpenSSL SHA256 failed"), context).

(** One of the two rounds: the block under a pad, then the message. *)
Definition padded_round (ok : bool) (n : nat) (block message pad : str) (context : option C)
    : bool * str * str * option C :=
  if ok then
    let pad := map (xor_byte n) block in
    let '(ok, digest, context) := digest_parts context [pad; message] (zeros 32) in
    (ok, pad, digest, context)
  else (false, pad, zeros 32, context).

Definition digest_hmac_sha256 (context : option C) (key value : str) : Result str * Scratch * option C :=
  let '(ok, block, hashed, context) :=
    if (kSha256Block <? length key)%nat then
      let '(ok, hashed, context) := digest_parts context [key] (zeros 32) in
      (ok, overlay hashed (zeros kSha256Block), cleanse hashed, context)
    else (true, overlay key (zeros kSha256Block), [], context) in
  let '(ok, pad, inner, context) := padded_round ok 54 block value (zeros kSha256Block) context in
  let '(ok, pad, result, context) := padded_round ok 92 block inner pad context in
  (if ok then Ok result else Err hmac_failed,
   mkScratch (cleanse block) (cleanse pad) (cleanse inner) hashed, context).

(** ** What it is meant to compute *)

(** RFC 2104 for a hash with blocks of 64 bytes. *)
Definition hmac_reference (H : str -> str) (key message : str) : str :=
  let key := if (kSha256Block <? length key)%nat then H key else key in
  let block := key ++ zeros (kSha256Block - length key) in
  H (map (xor_byte 92) block ++ H (map (xor_byte 54) block ++ message)).

(** No byte of the arrays is other than zero. *)
Definition wiped (s : Scratch) : Prop :=
  forall a c, a ∈ [sc_block s; sc_pad s; sc_inner s; sc_hashed s] -> c ∈ a -> c = "000"%char.

Context `{!DigestLaws C}.

(** OpenSSL refuses nothing. *)
Record reliable : Prop := {
  rl_method : sha256_method = true;
  rl_init c : (evp_init c).1 = true;
  rl_update c m part : absorbed c = Some m -> (evp_update part c).1 = true;
  rl_final c m : absorbed c = Some m -> (evp_final c).1.1 = true;
}.

(** ** Lemmas *)

Lemma update_parts_absorbs parts c m ok c' :
  absorbed c = Some m -> update_parts parts c = (ok, c') ->
  (ok = true -> absorbed c' = Some (m ++ List.concat parts)) /\ (reliable -> ok = true).
Proof using Type.
  revert c m. induction parts as [|part parts IH]; intros c m Hm; cbn [update_parts List.concat].
  - intros [= <- <-]. by rewrite app_nil_r.
  - destruct (evp_update part c) as [ok1 c1] eqn:E. destruct ok1; intros Hu.
    + rewrite app_assoc. by apply (IH c1); [apply (update_law c)|].
    + injection Hu as <- <-. split; [done|]. intros Hr. by rewrite <-(rl_update Hr c m part), E.
Qed.

(** A digest is that of the parts put together, whatever the context held. *)
Lemma digest_parts_spec context parts ok out context' :
  digest_parts context parts (zeros 32) = (ok, out, context') ->
  (ok = true -> out = SHA256 (List.concat parts)) /\ (reliable -> is_Some context -> ok = true) /\
  (is_Some context -> is_Some context').
Proof using Type.
  unfold digest_parts. destruct context as [c|]; [|intros [= <- _ <-]; split_and!; try done; by intros _ [? ?]].
  destruct sha256_method eqn:Em; cbn [negb].
  2:{ intros [= <- _ <-]. split_and!; try done. intros Hr _. by rewrite <-(rl_method Hr). }
  destruct (evp_init c) as [ok1 c1] eqn:E1. destruct ok1; cbn [negb].
  2:{ intros [= <- _ <-]. split_and!; try done. intros Hr _. by rewrite <-(rl_init Hr c), E1. }
  pose proof (init_law _ _ E1) as H1. destruct (update_parts parts c1) as [ok2 c2] eqn:E2.
  destruct (update_parts_absorbs _ _ _ _ _ H1 E2) as [H2 H2'].
  destruct ok2; cbn [negb]; [specialize (H2 eq_refl)|intros [= <- _ <-]; split_and!; try done; by intros Hr; rewrite H2'].
  destruct (evp_final c2) as [[ok3 written] c3] eqn:E3. intros [= <- <- <-]. split_and!; [| |done].
  - intros [-> Hlen%Nat.eqb_eq]%andb_true_iff. unfold overlay.
    rewrite drop_ge by (rewrite Hlen; done). rewrite app_nil_r. by apply (final_law c2 c3).
  - intros Hr _. pose proof (rl_final Hr _ _ H2) as Hok. rewrite E3 in Hok. cbn in Hok. subst ok3.
    by rewrite (final_law _ _ _ _ H2 E3), SHA256_length.
Qed.

Lemma zeros_are_zero n c : c ∈ zeros n -> c = "000"%char.
Proof using Type. intros H. apply list_elem_of_In, repeat_spec in H. done. Qed.

Lemma padded_round_spec ok n block message pad context ok' pad' digest context' :
  padded_round ok n block message pad context = (ok', pad', digest, context') ->
  (ok' = true -> ok = true /\ digest = SHA256 (map (xor_byte n) block ++ message)) /\
  (reliable -> is_Some context -> ok = true -> ok' = true) /\ (is_Some context -> is_Some context').
Proof using Type.
  unfold padded_round. destruct ok; [|by intros [= <- _ _ <-]].
  destruct (digest_parts _ _ _) as [[ok1 d1] c1] eqn:E. intros [= <- _ <- <-].
  destruct (digest_parts_spec _ _ _ _ _ E) as (H1 & H2 & H3). cbn [List.concat] in H1. rewrite app_nil_r in H1. auto.
Qed.

(** The key in a block of 64 bytes. *)
Lemma overlay_key key : (length key <= kSha256Block)%nat ->
  overlay key (zeros kSha256Block) = key ++ zeros (kSha256Block - length key).
Proof using Type.
  intros Hl. unfold overlay, zeros. f_equal.
  replace kSha256Block with (length key + (kSha256Block - length key))%nat at 1 by lia.
  rewrite repeat_app. rewrite <-(repeat_length "000"%char (length key)) at 1. by rewrite drop_app_length.
Qed.

(** The keyed digest a request is signed with is the HMAC of RFC 2104 over
    SHA-256, for every key length and whatever the thread's context went
    through in earlier calls, failed ones included; it is refused only when a
    call of OpenSSL fails, and on every path the arrays that held the key, its
    digest and the padded blocks are zero when the function returns. *)
Theorem digest_hmac_sha256_spec context key value r scratch context' :
  digest_hmac_sha256 context key value = (r, scratch, context') ->
  wiped scratch /\
  match r with
  | Ok digest => digest = hmac_reference SHA256 key value
  | Err e => e = hmac_failed /\ ~ (reliable /\ is_Some context)
  end.
Proof using Type.
  unfold digest_hmac_sha256.
  set (start := if (_ <? _)%nat then _ else _).
  assert (Hstart : exists ok block hashed c0, start = (ok, block, cleanse hashed, c0) /\
    (ok = true -> block = (if (kSha256Block <? length key)%nat then SHA256 key else key)
        ++ zeros (kSha256Block - length (if (kSha256Block <? length key)%nat then SHA256 key else key))) /\
    (reliable -> is_Some context -> ok = true) /\ (is_Some context -> is_Some c0)).
  { subst start. destruct (Nat.ltb_spec kSha256Block (length key)) as [Hlt|Hle].
    - destruct (digest_parts _ _ _) as [[ok0 h0] c0] eqn:E0. eexists _, _, h0, _. split; [done|].
      destruct (digest_parts_spec _ _ _ _ _ E0) as (H1 & H2 & H3). cbn [List.concat] in H1. rewrite app_nil_r in H1.
      split_and!; [|done|done]. intros Hok. rewrite (H1 Hok). apply overlay_key. rewrite SHA256_length. unfold kSha256Block. lia.
    - eexists _, _, [], _. split; [done|]. split_and!; [|done|done]. intros _. by apply overlay_key. }
  destruct Hstart as (ok & block & hashed & c0 & -> & Hblock & Hok & Hc0).
  destruct (padded_round ok 54 _ _ _ _) as [[[ok1 pad1] inner] c1] eqn:E1.
  destruct (padded_round ok1 92 _ _ _ _) as [[[ok2 pad2] result] c2] eqn:E2. intros [= <- <- _].
  destruct (padded_round_spec _ _ _ _ _ _ _ _ _ _ E1) as (A1 & A2 & A3).
  destruct (padded_round_spec _ _ _ _ _ _ _ _ _ _ E2) as (B1 & B2 & B3). split.
  - intros a c Ha Hc. cbn in Ha. unfold cleanse in Ha. set_unfold in Ha.
    destruct_or? Ha; try done; subst a; by eapply zeros_are_zero.
  - destruct ok2.
    + destruct (B1 eq_refl) as [-> ->]. destruct (A1 eq_refl) as [-> ->]. by rewrite (Hblock eq_refl).
    + split; [done|]. intros [Hr Hc]. discriminate (B2 Hr (A3 (Hc0 Hc)) (A2 Hr (Hc0 Hc) (Hok Hr Hc))).
Qed.

(** ** The abstraction [Backends] signs with *)

(** What is computed on a context is what [Backends] computes with SHA-256 as
    its digest. *)
Lemma hmac_reference_agrees `{!Platform} key value :
  (forall s, EVP_sha256 s = Some (SHA256 s)) ->
  hmac_sha256 key value = Ok (hmac_reference SHA256 key value).
Proof using Type.
  intros Hd. unfold hmac_sha256, hmac_block, hmac_reference, zeros.
  destruct (Nat.ltb_spec kSha256Block (length key)); rewrite ?Hd; cbn; rewrite !Hd; cbn; by rewrite !Hd.
Qed.

Lemma digest_sha256_spec context value r context' :
  digest_sha256 context value = (r, context') ->
  match r with
  | Ok digest => digest = SHA256 value
  | Err _ => ~ (reliable /\ is_Some context)
  end.
Proof using Type.
  unfold digest_sha256. destruct (digest_parts _ _ _) as [[ok d] c] eqn:E. intros [= <- _].
  destruct (digest_parts_spec _ _ _ _ _ E) as (H1 & H2 & _). cbn [List.concat] in H1. rewrite app_nil_r in H1.
  destruct ok; [auto|]. intros [Hr Hc]. discriminate (H2 Hr Hc).
Qed.
End Digests.

(** ** A context to run *)

(** A message is kept whole; the digest is its end, made 32 bytes long.  The
    first update of a context whose flag is set fails and clears the flag. *)
Definition toy_digest (s : str) : str := take 32 (rev s ++ zeros 32).
#[local] Instance toy_context : DigestContext (bool * str) := {
  evp_init c := (true, (c.1, []));
  evp_update part c := if c.1 then (false, (false, c.2)) else (true, (false, c.2 ++ part));
  evp_final c := (true, toy_digest c.2, c);
}.
#[local] Instance toy_laws : DigestLaws (bool * str).
Proof.
  refine {| SHA256 := toy_digest; absorbed c := Some c.2 |}.
  - intros s. unfold toy_digest, zeros. rewrite length_take, length_app, repeat_length. lia.
  - by intros c c' [= <-].
  - intros [[] c] c' m part; cbn; [done|]. by intros [= <-] [= <-].
  - intros [b c] c' m written; cbn. by intros [= <-] [= <- _].
Defined.

Definition long_key : str := repeat "k"%char 70.

(** A key longer than a block, on a context another message was fed to. *)
Example long_key_is_hashed :
  (digest_hmac_sha256 true (Some (false, $"left over")) long_key $"message").1.1
  = Ok (hmac_reference toy_digest long_key $"message").
Proof. vm_compute. reflexivity. Qed.

(** The first call fails, the next one on the same context is right. *)
Example context_recovers :
  let '(r, _, c) := digest_hmac_sha256 true (Some (true, [])) $"key" $"message" in
  r = Err hmac_failed /\
  (digest_hmac_sha256 true c $"key" $"message").1.1 = Ok (hmac_reference toy_digest $"key" $"message").
Proof. vm_compute. split; reflexivity. Qed.
