(* ===== verification/Credentials.v ===== *)
(** * Credentials: what the credential loaders share

    Models the JSON and INI readers of [src/src/backends/credentials.cpp] and
    the JSON writer of [gcs_credentials.cpp]; the rest of the file is in
    [CredentialRequest].  The theorems show that the readers give back what a
    writer of their format wrote. *)

From S2P Require Import Prelude Text Uri Types Planner Response CurlSetup Config Backends.

(** ** JSON *)

Definition QUOTE : ascii := "034".
Definition BACKSLASH : ascii := "\".

(** The character an escape stands for. *)
Definition unescape (escaped : ascii) : option ascii :=
  if Ascii.eqb escaped QUOTE || Ascii.eqb escaped BACKSLASH || Ascii.eqb escaped "/" then Some escaped
  else if Ascii.eqb escaped "b" then Some "008"%char
  else if Ascii.eqb escaped "f" then Some "012"%char
  else if Ascii.eqb escaped "n" then Some "010"%char
  else if Ascii.eqb escaped "r" then Some "013"%char
  else if Ascii.eqb escaped "t" then Some "009"%char
  else None.

(** The text of a string, after its opening quote. *)
Fixpoint json_text (s result : str) : option str :=
  match s with
  | [] => None
  | c :: s =>
      if Ascii.eqb c QUOTE then Some result
      else if negb (Ascii.eqb c BACKSLASH) then json_text s (result ++ [c])
      else
        match s with
        | [] => None
        | escaped :: s =>
            match unescape escaped with Some c => json_text s (result ++ [c]) | None => None end
        end
  end.

Definition needle_of (name : str) : str := QUOTE :: name ++ [QUOTE].

(** The search from a position on: [json] is what is left.  A turn consumes
    the needle, so the length is enough fuel. *)
Fixpoint json_string_from (fuel : nat) (json needle : str) : option str :=
  match fuel with
  | O => None
  | S fuel =>
      match find_str json needle with
      | None => None
      | Some position =>
          let rest := drop (position + length needle) json in
          match skip_spaces rest with
          | ":"%char :: value =>
              match skip_spaces value with
              | c :: text => if Ascii.eqb c QUOTE then json_text text [] else None
              | [] => None
              end
          | _ => json_string_from fuel rest needle
          end
      end
  end.

Definition json_string (json name : str) : option str :=
  json_string_from (S (length json)) json (needle_of name).

Definition json_integer (json name : str) : option Z :=
  match (quoted ← json_string json name; from_chars_all (- I64_MAX - 1) I64_MAX quoted) with
  | Some value => Some value
  | None =>
      found ← find_str json (needle_of name);
      let rest := drop (found + length (needle_of name)) json in
      colon ← find_char rest ":";
      fst <$> from_chars (- I64_MAX - 1) I64_MAX (skip_spaces (drop (colon + 1) rest))
  end.

(** [json_escape] of [gcs_credentials.cpp]. *)
Definition escape_char (c : ascii) : str :=
  if Ascii.eqb c QUOTE then [BACKSLASH; QUOTE]
  else if Ascii.eqb c BACKSLASH then [BACKSLASH; BACKSLASH]
  else if Ascii.eqb c "010" then [BACKSLASH; "n"%char]
  else if Ascii.eqb c "013" then [BACKSLASH; "r"%char]
  else if Ascii.eqb c "009" then [BACKSLASH; "t"%char]
  else [c].
Definition json_escape (value : str) : str := flat_map escape_char value.

(** ** INI files *)

Abbreviation IniSection := (gmap str str) (only parsing).
Abbreviation IniFile := (gmap str (gmap str str)) (only parsing).

(** The lines [std::getline] gives; [line] is the one being read. *)
Fixpoint lines_from (contents line : str) : list str :=
  match contents with
  | [] => if str_eqb line [] then [] else [line]
  | c :: contents =>
      if Ascii.eqb c "010" then line :: lines_from contents [] else lines_from contents (line ++ [c])
  end.
Definition lines (contents : str) : list str := lines_from contents [].

Definition ini_line (state : IniFile * str) (line : str) : IniFile * str :=
  let '(result, section) := state in
  let line := trim line in
  match line with
  | [] => state
  | c :: _ =>
      if Ascii.eqb c "#" || Ascii.eqb c ";" then state
      else if Ascii.eqb c "[" && ends_with line $"]" then
        (result, trim (substr line 1 (length line - 2)))
      else
        match find_first_of line $"=:" 0 with
        | None => state
        | Some separator =>
            if str_eqb section [] then state
            else
              let values := default ∅ (result !! section) in
              (<[section := <[lower (trim (take separator line)) := trim (drop (separator + 1) line)]> values]>
                 result, section)
        end
  end.

Definition parse_ini (contents : str) : IniFile := (fold_left ini_line (lines contents) (∅, [])).1.

Definition read_ini `{Platform} (path purpose : str) : Result IniFile :=
  contents ← read_text_file path purpose; Ok (parse_ini contents).

(** ** The JSON reader gives back what a JSON writer wrote *)

Lemma json_text_app s : forall result, json_text s result = (fun t => result ++ t) <$> json_text s [].
Proof.
  induction s as [s IH] using (induction_ltof1 _ (@length ascii)). unfold ltof in IH.
  intros result. destruct s as [|c s]; cbn [json_text]; [done|].
  destruct (Ascii.eqb c QUOTE); [cbn; by rewrite app_nil_r|].
  assert (Hrec : forall d t, (length t < length (c :: s))%nat ->
    json_text t (result ++ [d]) = (fun u => result ++ u) <$> json_text t ([] ++ [d])).
  { intros d t Ht. rewrite (IH t Ht (result ++ [d])), (IH t Ht ([] ++ [d])).
    destruct (json_text t []); cbn; [|done]. by rewrite <-app_assoc. }
  destruct (negb (Ascii.eqb c BACKSLASH)); [apply Hrec; cbn; lia|].
  destruct s as [|e s]; [done|]. destruct (unescape e); [|done]. apply Hrec. cbn. lia.
Qed.

(** A character that is escaped is read back; one that is not is plain. *)
Lemma json_text_char c s result :
  json_text (escape_char c ++ s) result = json_text s (result ++ [c]).
Proof.
  unfold escape_char. destruct (Ascii.eqb_spec c QUOTE) as [->|Hq]; [done|].
  destruct (Ascii.eqb_spec c BACKSLASH) as [->|Hb]; [done|].
  destruct (Ascii.eqb_spec c "010") as [->|_]; [done|]. destruct (Ascii.eqb_spec c "013") as [->|_]; [done|].
  destruct (Ascii.eqb_spec c "009") as [->|_]; [done|]. cbn [app json_text].
  by rewrite (proj2 (Ascii.eqb_neq _ _) Hq), (proj2 (Ascii.eqb_neq _ _) Hb).
Qed.

Lemma json_text_escaped value rest : json_text (json_escape value ++ QUOTE :: rest) [] = Some value.
Proof.
  enough (H : forall result, json_text (json_escape value ++ QUOTE :: rest) result = Some (result ++ value))
    by apply H.
  induction value as [|c value IH]; intros result; cbn [json_escape flat_map app]; [cbn; by rewrite app_nil_r|].
  rewrite <-app_assoc, json_text_char. unfold json_escape in IH. by rewrite IH, <-app_assoc.
Qed.

Lemma escape_cases c :
  (escape_char c = [c] /\ c <> QUOTE /\ c <> BACKSLASH) \/ exists d, escape_char c = [BACKSLASH; d].
Proof.
  unfold escape_char. destruct (Ascii.eqb_spec c QUOTE) as [->|Hq]; [right; by eexists|].
  destruct (Ascii.eqb_spec c BACKSLASH) as [->|Hb]; [right; by eexists|].
  destruct (Ascii.eqb c "010"); [right; by eexists|]. destruct (Ascii.eqb c "013"); [right; by eexists|].
  destruct (Ascii.eqb c "009"); [right; by eexists|by left].
Qed.

(** A key is made of characters that need no escape and have no role in an
    object. *)
Definition key_char (c : ascii) : Prop := escape_char c = [c] /\ char_in $":,}" c = false.
Definition plain_key (name : str) : Prop := name <> [] /\ Forall key_char name.

Lemma key_char_not c : key_char c -> c <> QUOTE /\ c <> BACKSLASH /\ c <> ":"%char /\ c <> ","%char /\ c <> "}"%char.
Proof. intros [He Hc%char_in_false]. split_and!; [by intros ->..| | |]; set_solver. Qed.

(** The needle is where the name is whole. *)
Lemma starts_with_escaped name value rest : Forall key_char name ->
  starts_with (json_escape value ++ QUOTE :: rest) (name ++ [QUOTE]) = str_eqb value name.
Proof.
  revert value. induction name as [|a name IH]; intros value Hname.
  - destruct value as [|c value]; [done|]. cbn [json_escape flat_map].
    destruct (escape_cases c) as [(-> & Hq & _)|[d ->]]; cbn; [|done].
    rewrite (proj2 (Ascii.eqb_neq _ _)) by congruence. done.
  - apply Forall_cons_iff in Hname as [Ha Hname]. pose proof (key_char_not _ Ha) as (Hq & Hb & _).
    destruct value as [|c value]; [cbn; by rewrite (proj2 (Ascii.eqb_neq _ _)) by congruence|].
    assert (str_eqb (c :: value) (a :: name) = Ascii.eqb a c && str_eqb value name) as ->.
    { unfold str_eqb. destruct (Ascii.eqb_spec a c) as [->|]; repeat case_bool_decide; naive_solver. }
    rewrite <-IH by done. cbn [json_escape flat_map]. fold (json_escape value).
    destruct (escape_cases c) as [(-> & _)|[d Hd]]; [done|]. rewrite Hd. cbn.
    rewrite !(proj2 (Ascii.eqb_neq a _)); [done|intros ->; by destruct Ha as [Ha _]; rewrite Hd in Ha|congruence].
Qed.

Lemma skip_spaces_app w c s : Forall (fun c => is_space c = true) w -> is_space c = false ->
  skip_spaces (w ++ c :: s) = c :: s.
Proof. intros Hw Hc. induction Hw as [|d w Hd _ IH]; cbn; [by rewrite Hc|by rewrite Hd]. Qed.

(** ** The search *)

Section Search.
Variable name : str.
Hypothesis name_ok : plain_key name.

Abbreviation needle := (needle_of name).

Lemma find_needle_skip c s : c <> QUOTE -> find_str (c :: s) needle = S <$> find_str s needle.
Proof. intros Hc. cbn. by rewrite (proj2 (Ascii.eqb_neq _ _)) by congruence. Qed.

Lemma json_string_fuel f1 : forall f2 json, (length json < f1)%nat -> (length json < f2)%nat ->
  json_string_from f1 json needle = json_string_from f2 json needle.
Proof.
  induction f1 as [|f1 IH]; intros f2 json H1 H2; [lia|]. destruct f2 as [|f2]; [lia|]. cbn [json_string_from].
  destruct (find_str json needle) as [i|] eqn:Ei; [|done].
  apply find_str_length in Ei. assert (0 < length needle)%nat by (cbn; lia).
  rewrite (IH f2 (drop (i + length needle) json)) by (rewrite length_drop; lia). done.
Qed.

Abbreviation scan s := (json_string s name).

(** What is done after a needle. *)
Definition after (rest : str) : option str :=
  match skip_spaces rest with
  | ":"%char :: value =>
      match skip_spaces value with
      | c :: text => if Ascii.eqb c QUOTE then json_text text [] else None
      | [] => None
      end
  | _ => scan rest
  end.

Lemma scan_unfold s :
  scan s = match find_str s needle with None => None | Some i => after (drop (i + length needle) s) end.
Proof.
  unfold json_string at 1. cbn [json_string_from]. destruct (find_str s needle) as [i|] eqn:Ei; [|done].
  apply find_str_length in Ei. assert (0 < length needle)%nat by (cbn; lia). unfold after, json_string.
  rewrite (json_string_fuel (length s) (S (length (drop (i + length needle) s)))) by (rewrite length_drop; lia).
  done.
Qed.

Lemma scan_skip c s : c <> QUOTE -> scan (c :: s) = scan s.
Proof. intros Hc. rewrite !scan_unfold, find_needle_skip by done. by destruct (find_str s needle). Qed.

Lemma scan_skip_all w s : Forall (fun c => c <> QUOTE) w -> scan (w ++ s) = scan s.
Proof. induction 1; [done|]. cbn [app]. by rewrite scan_skip. Qed.

Lemma scan_quote s :
  scan (QUOTE :: s) = if starts_with s (name ++ [QUOTE]) then after (drop (length needle) (QUOTE :: s)) else scan s.
Proof.
  rewrite scan_unfold. cbn [find_str]. change (starts_with (QUOTE :: s) needle) with (starts_with s (name ++ [QUOTE])).
  destruct (starts_with s (name ++ [QUOTE])); [done|]. rewrite scan_unfold. by destruct (find_str s needle).
Qed.

(** No key ends where an object's structure goes on. *)
Lemma not_a_key w c s : Forall (fun c => c <> QUOTE) w -> char_in $":,}" c = true ->
  starts_with (w ++ c :: s) (name ++ [QUOTE]) = false.
Proof using name_ok.
  intros Hw Hc. destruct name_ok as [_ Hn]. assert (c <> QUOTE) by (by intros ->).
  clear name_ok. revert w Hw. induction Hn as [|a n [_ Ha] _ IH]; intros w Hw.
  - destruct Hw as [|d w Hd _]; cbn; by rewrite (proj2 (Ascii.eqb_neq _ _)) by congruence.
  - destruct Hw as [|d w Hd Hw]; cbn; [by rewrite (proj2 (Ascii.eqb_neq _ _)) by congruence|].
    by rewrite IH, andb_false_r.
Qed.

(** A value, whatever it holds, is passed over with the space after it. *)
Lemma scan_value gap sep rest value : Forall (fun c => is_space c = true) gap -> char_in $",}" sep = true ->
  scan (json_escape value ++ QUOTE :: gap ++ sep :: rest) = scan rest /\
  scan (QUOTE :: json_escape value ++ QUOTE :: gap ++ sep :: rest) = scan rest.
Proof using name_ok.
  intros Hgap Hsep. assert (Hs : sep <> QUOTE /\ is_space sep = false /\ sep <> ":"%char /\ char_in $":,}" sep = true).
  { assert (sep = ","%char \/ sep = "}"%char) as [-> | ->] by (cbn in Hsep; destruct (Ascii.eqb_spec sep ","), (Ascii.eqb_spec sep "}"); naive_solver).
    - done. - done. }
  destruct Hs as (Hq & Hsp & Hcol & Hch).
  assert (Hng : Forall (fun c => c <> QUOTE) gap) by (eapply Forall_impl; [exact Hgap|by intros c Hc ->]).
  assert (Hscan : scan (gap ++ sep :: rest) = scan rest) by (by rewrite scan_skip_all, scan_skip).
  assert (Hafter : after (gap ++ sep :: rest) = scan rest).
  { unfold after. rewrite skip_spaces_app by done. rewrite Hscan.
    destruct sep as [[] [] [] [] [] [] [] []]; done. }
  assert (Hend : scan (QUOTE :: gap ++ sep :: rest) = scan rest) by (by rewrite scan_quote, not_a_key).
  induction value as [|c value [IH1 IH2]].
  - split; [exact Hend|]. cbn [json_escape flat_map app]. rewrite scan_quote.
    replace (starts_with (QUOTE :: gap ++ sep :: rest) (name ++ [QUOTE])) with false; [done|].
    destruct name_ok as [Hne Hn]. destruct name as [|a n]; [done|]. cbn.
    apply Forall_cons_iff in Hn as [Ha _]. apply key_char_not in Ha as [Ha _].
    by rewrite (proj2 (Ascii.eqb_neq _ _)) by congruence.
  - assert (H1 : scan (json_escape (c :: value) ++ QUOTE :: gap ++ sep :: rest) = scan rest).
    { cbn [json_escape flat_map]. fold (json_escape value). rewrite <-app_assoc.
      destruct (escape_cases c) as [(-> & Hc & _)|[d Hd]]; [by cbn [app]; rewrite scan_skip|].
      rewrite Hd. cbn [app]. rewrite scan_skip by done.
      destruct (decide (d = QUOTE)) as [->|]; [done|]. by rewrite scan_skip. }
    split; [exact H1|]. rewrite scan_quote, starts_with_escaped by apply name_ok.
    destruct (str_eqb (c :: value) name) eqn:E; [|exact H1]. apply str_eqb_eq in E.
    assert (Hesc : json_escape (c :: value) = name).
    { rewrite E. destruct name_ok as [_ Hn]. clear -Hn. induction Hn as [|a n [Ha _] _ IH]; [done|].
      cbn [json_escape flat_map]. fold (json_escape n). by rewrite Ha, IH. }
    rewrite Hesc. unfold needle_of. rewrite <-Hafter. f_equal.
    cbn [length drop]. rewrite length_app. rewrite <-drop_drop. by rewrite drop_app_length.
Qed.
End Search.

(** *** A writer of objects of strings *)

(** Strings, and the values that hold none: numbers, [true], [false], [null]
    and arrays of these. *)
Inductive json_value := JString (text : str) | JScalar (text : str).
Definition value_ok (v : json_value) : Prop :=
  match v with JString _ => True | JScalar text => text <> [] /\ Forall (fun c => c <> QUOTE) text end.

(** The white space around the tokens of one member: before the name, before
    and after the colon, after the value. *)
Record gaps := mkGaps { g_name : str; g_colon : str; g_value : str; g_end : str }.
Definition all_space (w : str) : Prop := Forall (fun c => is_space c = true) w.
Definition gaps_ok (g : gaps) : Prop := all_space (g_name g) /\ all_space (g_colon g) /\ all_space (g_value g) /\ all_space (g_end g).

Record member := mkMember { m_gaps : gaps; m_name : str; m_value : json_value }.
Definition member_ok (m : member) : Prop :=
  gaps_ok (m_gaps m) /\ Forall key_char (m_name m) /\ value_ok (m_value m).

Definition json_text_of (v : json_value) : str :=
  match v with JString text => QUOTE :: json_escape text ++ [QUOTE] | JScalar text => text end.
Definition json_member (m : member) : str :=
  let g := m_gaps m in
  g_name g ++ QUOTE :: m_name m ++ QUOTE :: g_colon g ++ ":"%char :: g_value g ++ json_text_of (m_value m) ++ g_end g.
Fixpoint json_members (ms : list member) : str :=
  match ms with
  | [] => []
  | [m] => json_member m
  | m :: ms => json_member m ++ ","%char :: json_members ms
  end.
(** An object with white space before it, after its brace and after it. *)
Definition json_object (lead inner : str) (ms : list member) (tail : str) : str :=
  lead ++ "{"%char :: inner ++ json_members ms ++ "}"%char :: tail.

(** The string of the first member of a name, if it is one. *)
Fixpoint first_string (ms : list member) (name : str) : option str :=
  match ms with
  | [] => None
  | m :: ms =>
      if str_eqb (m_name m) name then match m_value m with JString text => Some text | JScalar _ => None end
      else first_string ms name
  end.

Lemma blank_no_quote w : all_space w -> Forall (fun c => c <> QUOTE) w.
Proof. intros Hw. eapply Forall_impl; [exact Hw|]. by intros c Hc ->. Qed.

Lemma key_escape n : Forall key_char n -> json_escape n = n.
Proof.
  induction 1 as [|a n [Ha _] _ IH]; [done|]. cbn [json_escape flat_map]. fold (json_escape n). by rewrite Ha, IH.
Qed.

Lemma skip_spaces_no_quote w sep rest : Forall (fun c => c <> QUOTE) w -> is_space sep = false -> sep <> QUOTE ->
  exists c t, skip_spaces (w ++ sep :: rest) = c :: t /\ c <> QUOTE.
Proof.
  intros Hw Hs Hq. induction Hw as [|d w Hd _ IH]; cbn; [rewrite Hs; by eexists _, _|].
  destruct (is_space d); [exact IH|by eexists _, _].
Qed.

Lemma separator sep : char_in $",}" sep = true -> sep <> QUOTE /\ is_space sep = false /\ char_in $":,}" sep = true.
Proof.
  intros H. assert (sep = ","%char \/ sep = "}"%char) as [-> | ->]; [|done..].
  cbn in H. destruct (Ascii.eqb_spec sep ","), (Ascii.eqb_spec sep "}"); naive_solver.
Qed.

(** What is read where the name of a member was found. *)
Lemma after_name name g_colon g_value v rest_gap sep rest :
  all_space g_colon -> all_space g_value -> all_space rest_gap -> value_ok v -> char_in $",}" sep = true ->
  after name (g_colon ++ ":"%char :: g_value ++ json_text_of v ++ rest_gap ++ sep :: rest)
  = match v with JString text => Some text | JScalar _ => None end.
Proof.
  intros Hc Hv Hg Hok Hsep. unfold after. rewrite skip_spaces_app by done. destruct v as [text|text]; cbn [json_text_of].
  - cbn [app]. rewrite skip_spaces_app by done. cbn. rewrite <-!app_assoc. cbn [app]. apply json_text_escaped.
  - destruct (separator _ Hsep) as (Hq & Hsp & _). destruct Hok as [_ Hno]. rewrite !app_assoc.
    destruct (skip_spaces_no_quote ((g_value ++ text) ++ rest_gap) sep rest) as (c & t & -> & Hne); [|done..|].
    + rewrite !Forall_app. auto using blank_no_quote.
    + by rewrite (proj2 (Ascii.eqb_neq _ _) Hne).
Qed.

Lemma scan_member name m sep rest : plain_key name -> member_ok m -> char_in $",}" sep = true ->
  json_string (json_member m ++ sep :: rest) name
  = if str_eqb (m_name m) name then match m_value m with JString text => Some text | JScalar _ => None end
    else json_string rest name.
Proof.
  intros Hname ((Hg1 & Hg2 & Hg3 & Hg4) & Hn & Hv) Hsep. unfold json_member. cbv zeta.
  destruct m as [[g1 g2 g3 g4] n v]. cbn [m_gaps m_name m_value g_name g_colon g_value g_end] in *.
  rewrite <-app_assoc, scan_skip_all by (by apply blank_no_quote). cbn [app]. rewrite scan_quote.
  rewrite <-!app_assoc. cbn [app]. rewrite <-!app_assoc. cbn [app]. rewrite <-!app_assoc.
  rewrite <-(key_escape n) at 1 by done. rewrite starts_with_escaped by apply Hname.
  destruct (str_eqb n name) eqn:E.
  - apply str_eqb_eq in E as ->. unfold needle_of. cbn [length drop]. rewrite length_app, <-drop_drop, drop_app_length.
    cbn [length drop]. rewrite drop_0. by apply after_name.
  - destruct (separator _ Hsep) as (Hq & Hsp & _).
    rewrite scan_skip_all by (eapply Forall_impl; [exact Hn|by intros c (? & _)%key_char_not]).
    rewrite scan_quote. rewrite not_a_key by (done || by apply blank_no_quote).
    rewrite scan_skip_all by (by apply blank_no_quote). rewrite scan_skip by done.
    rewrite scan_skip_all by (by apply blank_no_quote). destruct v as [text|text]; cbn [json_text_of].
    + cbn [app]. rewrite <-app_assoc. cbn [app]. by apply scan_value.
    + rewrite !scan_skip_all by (apply Hv || by apply blank_no_quote). by apply scan_skip.
Qed.

Lemma json_object_reads lead inner ms tail name : all_space lead -> all_space inner -> all_space tail -> plain_key name ->
  Forall member_ok ms -> json_string (json_object lead inner ms tail) name = first_string ms name.
Proof.
  intros Hl Hi Ht Hname Hms. unfold json_object.
  rewrite scan_skip_all, scan_skip, scan_skip_all by (done || by apply blank_no_quote).
  assert (Hend : json_string tail name = None).
  { rewrite <-(app_nil_r tail), scan_skip_all by (by apply blank_no_quote). reflexivity. }
  destruct Hms as [|m ms Hm Hms]; [cbn [json_members app first_string]; by rewrite scan_skip|].
  revert m Hm. induction Hms as [|m' ms Hm' Hms IH]; intros m Hm; cbn [first_string].
  - cbn [json_members]. by rewrite scan_member, Hend.
  - change (json_members (m :: m' :: ms)) with (json_member m ++ ","%char :: json_members (m' :: ms)).
    rewrite <-app_assoc. cbn [app]. rewrite scan_member by done. by rewrite IH.
Qed.

(** ** The INI reader gives back what a writer wrote *)

Lemma trim_text_last s u d : trim_text s = u ++ [d] -> is_space d = false.
Proof.
  unfold trim_text. intros E%(f_equal (@rev ascii)). rewrite rev_involutive, rev_app_distr in E.
  exact (skip_spaces_head _ _ _ E).
Qed.

Lemma trim_is_trim_text s : trim s = trim_text s.
Proof.
  destruct (trim_text_spec s) as (a & b & Hs & Ha & Hb).
  assert (Hno : forall l, Forall (fun c => is_space c = true) l -> Forall (fun c => negb (is_space c) = false) l).
  { intros l Hl. eapply Forall_impl; [exact Hl|]. cbn. by intros c ->. }
  unfold trim. destruct (trim_text s) as [|c t] eqn:Et.
  - rewrite (proj2 (find_if_None _ s)); [done|]. rewrite Hs. by apply Hno, Forall_app.
  - assert (Hc : negb (is_space c) = true) by (by rewrite (trim_text_head s c t)).
    destruct (exists_last (l := c :: t)) as (u & d & Eu); [done|].
    assert (Hd : negb (is_space d) = true) by (by rewrite (trim_text_last s u d) by congruence).
    assert (H1 : find_if (fun c => negb (is_space c)) s = Some (length a))
      by (rewrite Hs; cbn [app]; apply find_if_app; auto).
    assert (H2 : find_if (fun c => negb (is_space c)) (rev s) = Some (length b)).
    { rewrite Hs, Eu, !rev_app_distr. cbn [rev app]. rewrite <-app_assoc. cbn [app].
      rewrite find_if_app; [by rewrite length_rev|by apply Hno, Forall_rev|done]. }
    rewrite H1, H2. rewrite Hs. unfold substr. rewrite drop_app_length, !length_app.
    replace (length a + (length (c :: t) + length b) - length b - length a)%nat with (length (c :: t)) by lia.
    apply take_app_length.
Qed.

(** A file as a writer lays it out. *)
Definition LF : ascii := "010".
Definition ini_value (entry : str * str) : str := entry.1 ++ $" = " ++ entry.2 ++ [LF].
Definition ini_section (section : str * list (str * str)) : str :=
  $"[" ++ section.1 ++ $"]" ++ [LF] ++ flat_map ini_value section.2.
Definition write_ini (file : list (str * list (str * str))) : str := flat_map ini_section file.

(** What it means: a name is not case sensitive, the last value counts. *)
Definition add_value (section : str) (m : IniFile) (entry : str * str) : IniFile :=
  <[section := <[lower entry.1 := entry.2]> (default ∅ (m !! section))]> m.
Definition ini_file (file : list (str * list (str * str))) : IniFile :=
  fold_left (fun m section => fold_left (add_value section.1) section.2 m) file ∅.

Definition no_newline (s : str) : Prop := LF ∉ s.
Record ini_entry_ok (entry : str * str) : Prop := {
  ie_name : trimmed entry.1 /\ entry.1 <> [] /\ no_newline entry.1;
  ie_start : forall c r, entry.1 = c :: r -> char_in $"#;[" c = false;
  ie_plain : Forall (fun c => char_in $"=:" c = false) entry.1;
  ie_value : trimmed entry.2 /\ no_newline entry.2;
}.
Record ini_section_ok (section : str * list (str * str)) : Prop := {
  is_name : trimmed section.1 /\ section.1 <> [] /\ no_newline section.1;
  is_entries : Forall ini_entry_ok section.2;
}.

Lemma lines_app l rest : forall line, no_newline l -> lines_from (l ++ LF :: rest) line = (line ++ l) :: lines rest.
Proof.
  unfold lines. induction l as [|c l IH]; intros line Hl; cbn [app lines_from].
  - cbn. by rewrite app_nil_r.
  - apply not_elem_of_cons in Hl as [Hc Hl]. rewrite (proj2 (Ascii.eqb_neq c _)) by (intros ->; by apply Hc).
    rewrite IH by done. by rewrite <-app_assoc.
Qed.

Lemma trimmed_head_trim c r tail : is_space c = false -> exists r', trim ((c :: r) ++ tail) = c :: r'.
Proof.
  intros Hc. rewrite trim_is_trim_text. destruct (trim_text_spec ((c :: r) ++ tail)) as (a & b & Hs & Ha & Hb).
  destruct a as [|d a].
  - cbn [app] in Hs. destruct (trim_text (c :: r ++ tail)) as [|e t] eqn:Et.
    + cbn in Hs. rewrite <-Hs in Hb. apply Forall_cons_iff in Hb as [Hb _]. cbv beta in Hb. congruence.
    + cbn [app] in Hs. injection Hs as <- _. cbn [app]. rewrite Et. by eexists.
  - cbn [app] in Hs. injection Hs as <- _. apply Forall_cons_iff in Ha as [Ha _]. cbv beta in Ha. congruence.
Qed.

Lemma trimmed_ends a b c d s : a :: s = c :: b -> (exists u, a :: s = u ++ [d]) ->
  is_space c = false -> is_space d = false -> trimmed (a :: s).
Proof.
  intros [= -> _] [u Hu] Hc Hd. split; [by intros ? ? [= <- _]|].
  intros e r Hr. rewrite Hu in Hr. by apply app_inj_tail in Hr as [_ <-].
Qed.

Lemma trim_trimmed' s : trimmed s -> trim s = s.
Proof. rewrite trim_is_trim_text. apply trim_trimmed. Qed.

Lemma ini_line_section m before name : trimmed name ->
  ini_line (m, before) ($"[" ++ name ++ $"]") = (m, name).
Proof.
  intros Hn. unfold ini_line. cbn [String.list_ascii_of_string app].
  rewrite trim_trimmed'. 2:{ by apply (trimmed_ends _ (name ++ $"]") "[" "]"); [|exists ("["%char :: name)|..]. }
  cbn [Ascii.eqb Bool.eqb andb orb].
  replace (ends_with ("["%char :: name ++ ["]"%char]) ["]"%char]) with true
    by (unfold ends_with; cbn [rev]; rewrite rev_app_distr; done).
  cbn [andb]. unfold substr. cbn [length drop]. rewrite length_app, drop_0. cbn [length].
  replace (S (length name + 1) - 2)%nat with (length name) by lia. rewrite take_app_length.
  by rewrite trim_trimmed'.
Qed.

(** A trimmed line of an entry, with what its value is read from. *)
Lemma trim_entry k v : trimmed k -> k <> [] -> trimmed v ->
  exists tail, trim (k ++ $" = " ++ v) = k ++ $" =" ++ tail /\ trim tail = v.
Proof.
  intros Hk Hne Hv. destruct k as [|a k]; [done|]. assert (Ha : is_space a = false) by exact (proj1 Hk a k eq_refl).
  rewrite trim_is_trim_text. destruct (decide (v = [])) as [->|Hv0].
  - exists []. split; [|done].
    replace ((a :: k) ++ $" = " ++ []) with ([] ++ ((a :: k) ++ $" =") ++ $" ") by (rewrite app_nil_r, <-app_assoc; done).
    rewrite trim_text_spaces; [by rewrite app_nil_r|constructor|by repeat constructor|].
    apply (trimmed_ends a (k ++ $" =") a "="); [done| |done|done]. exists ((a :: k) ++ $" ").
    by rewrite <-app_assoc.
  - exists ($" " ++ v). split.
    + rewrite trim_trimmed; [done|]. destruct (exists_last Hv0) as (u & d & ->).
      apply (trimmed_ends a (k ++ $" = " ++ u ++ [d]) a d); [done| |done|exact (proj2 Hv d u eq_refl)].
      exists ((a :: k) ++ $" = " ++ u). by rewrite <-!app_assoc.
    + rewrite trim_is_trim_text. rewrite <-(app_nil_r v) at 1. by apply trim_text_spaces; [repeat constructor|constructor|].
Qed.

Lemma ini_line_entry m section entry : section <> [] -> ini_entry_ok entry ->
  ini_line (m, section) (entry.1 ++ $" = " ++ entry.2) = (add_value section m entry, section).
Proof.
  intros Hs [(Hk & Hne & _) Hstart Hplain [Hv _]]. destruct entry as [k v]. cbn [fst snd] in *.
  destruct (trim_entry k v Hk Hne Hv) as (tail & Ht & Hval). unfold ini_line. rewrite Ht.
  assert (Hsep : find_first_of (k ++ $" =" ++ tail) $"=:" 0 = Some (length k + 1)%nat).
  { unfold find_first_of, find_if_from. rewrite drop_0.
    change (k ++ $" =" ++ tail) with (k ++ [" "%char] ++ "="%char :: tail). rewrite app_assoc.
    rewrite find_if_app; [cbn; by rewrite length_app|apply Forall_app; split; [exact Hplain|by repeat constructor]|done]. }
  rewrite Hsep. destruct k as [|c k]; [done|]. cbn [app].
  pose proof (Hstart c k eq_refl) as Hc%char_in_false.
  rewrite !(proj2 (Ascii.eqb_neq c _)) by set_solver. cbn [orb andb].
  assert (str_eqb section [] = false) as -> by (by apply bool_decide_eq_false).
  assert (Htake : take (length (c :: k) + 1) ((c :: k) ++ $" =" ++ tail) = (c :: k) ++ $" ").
  { change ((c :: k) ++ $" =" ++ tail) with ((c :: k) ++ [" "%char] ++ "="%char :: tail).
    rewrite app_assoc, take_app_le by (rewrite length_app; cbn; lia). by rewrite take_ge by (rewrite length_app; cbn; lia). }
  assert (Hdrop : drop (length (c :: k) + 1 + 1) ((c :: k) ++ $" =" ++ tail) = tail).
  { rewrite <-!drop_drop, drop_app_length. done. }
  cbn [app] in Htake, Hdrop. cbn [app]. rewrite Htake, Hdrop, Hval. unfold add_value. cbn [fst snd].
  replace (trim (c :: k ++ $" ")) with (c :: k); [done|].
  rewrite trim_is_trim_text. symmetry. change (c :: k ++ $" ") with ([] ++ (c :: k) ++ $" ").
  by apply trim_text_spaces; [constructor|repeat constructor|].
Qed.

Lemma parse_entries section rest entries : section <> [] -> Forall ini_entry_ok entries -> forall m,
  fold_left ini_line (lines (flat_map ini_value entries ++ rest)) (m, section)
  = fold_left ini_line (lines rest) (fold_left (add_value section) entries m, section).
Proof.
  intros Hs. induction 1 as [|[k v] entries He _ IH]; intros m; [done|]. cbn [flat_map].
  unfold ini_value at 1. cbn [fst snd]. rewrite <-!app_assoc. cbn [app].
  replace (k ++ $" = " ++ v ++ LF :: flat_map ini_value entries ++ rest)
    with ((k ++ $" = " ++ v) ++ LF :: flat_map ini_value entries ++ rest) by (by rewrite <-!app_assoc).
  unfold lines at 1. rewrite lines_app.
  - cbn [app fold_left]. pose proof (ini_line_entry m section (k, v) Hs He) as Hl. cbn [fst snd] in Hl.
    rewrite Hl. apply IH.
  - destruct He as [(_ & _ & H1) _ _ [_ H2]]. unfold no_newline in *. cbn [fst snd] in *. rewrite !not_elem_of_app.
    split_and!; [done|by_decide|done].
Qed.

Lemma parse_sections file : Forall ini_section_ok file -> forall m before,
  (fold_left ini_line (lines (write_ini file)) (m, before)).1
  = fold_left (fun m section => fold_left (add_value section.1) section.2 m) file m.
Proof.
  induction 1 as [|[name entries] file [[Hn [Hne Hl]] He] _ IH]; intros m before; [done|].
  cbn [write_ini flat_map fold_left fst snd] in *. fold (write_ini file). unfold ini_section at 1. cbn [fst snd].
  replace (($"[" ++ name ++ $"]" ++ [LF] ++ flat_map ini_value entries) ++ write_ini file)
    with (($"[" ++ name ++ $"]") ++ LF :: flat_map ini_value entries ++ write_ini file) by (by rewrite <-!app_assoc).
  unfold lines at 1. rewrite lines_app.
  - cbn [app fold_left]. change ([] ++ ?x) with x. rewrite ini_line_section by done.
    rewrite parse_entries by done. apply IH.
  - unfold no_newline in *. rewrite !not_elem_of_app. split_and!; [by_decide|done|by_decide].
Qed.

(** ** Properties *)

(** C36: the JSON reader finds what a JSON writer wrote: in an object of
    strings and scalars (numbers, booleans, null), with any white space at each
    of the places JSON allows it, and whatever the strings hold (quotes,
    backslashes, line ends, even the text of another member), a name gives the
    string of its first member, and none when that member is no string or when
    there is no such member.  The names, the one looked for and those of the
    object, are of characters that need no escape other than colon, comma and
    closing brace, and the name looked for is not empty; all the names the
    library asks for are of that kind. *)
Theorem json_string_reads_objects lead inner ms tail name :
  all_space lead -> all_space inner -> all_space tail -> plain_key name -> Forall member_ok ms ->
  json_string (json_object lead inner ms tail) name = first_string ms name.
Proof. intros. by apply json_object_reads. Qed.

(** The INI reader finds what was written: of a file of sections with
    their entries, each on its line, every section holds its entries under
    their lower-case names, the last value of a repeated name counts, and
    there is nothing else. *)
Theorem ini_roundtrip file :
  Forall ini_section_ok file -> parse_ini (write_ini file) = ini_file file.
Proof. intros Hf. by apply parse_sections. Qed.

(** *** Witnesses *)

(** An object as a pretty printer lays it out. *)
Definition pretty (name : str) (v : json_value) : member :=
  mkMember (mkGaps ([LF] ++ $"  ") [] $" " []) name v.
Definition example_members : list member :=
  [pretty $"type" (JString $"service_account"); pretty $"note" (JString (QUOTE :: $"key" ++ [QUOTE] ++ $": 1"));
   pretty $"private_key" (JString ($"-----BEGIN" ++ [LF] ++ $"A\B")); pretty $"expires_in" (JScalar $"3600");
   mkMember (mkGaps ([LF] ++ $"  ") [] $" " [LF]) $"key" (JString $"last")].
Definition example_json : str := json_object [] [] example_members [LF].

Definition quoted (s : str) : str := QUOTE :: s ++ [QUOTE].
Example example_json_text :
  json_object [] [] [mkMember (mkGaps [] [] $" " []) $"a" (JString $"b")] [] = $"{" ++ quoted $"a" ++ $": " ++ quoted $"b" ++ $"}".
Proof. reflexivity. Qed.

Lemma key_chars name : forallb (fun c => bool_decide (escape_char c = [c]) && negb (char_in $":,}" c)) name = true ->
  Forall key_char name.
Proof.
  intros H. apply Forall_forall. intros c Hc. rewrite forallb_forall in H. apply list_elem_of_In, H in Hc.
  apply andb_true_iff in Hc as [H1%bool_decide_eq_true H2%negb_true_iff]. by split.
Qed.

Lemma json_string_reads_objects_witness :
  json_string example_json $"key" = Some $"last" /\
  json_string example_json $"token" = None /\ json_string example_json $"expires_in" = None /\
  json_string example_json $"private_key" = Some ($"-----BEGIN" ++ [LF] ++ $"A\B").
Proof.
  assert (Hblank : forall w, forallb is_space w = true -> all_space w)
    by (intros w H; apply Forall_forall; intros c Hc; rewrite forallb_forall in H; by apply H, list_elem_of_In).
  assert (Hms : Forall member_ok example_members).
  { repeat apply Forall_cons_2; try apply Forall_nil_2;
      (split; [unfold gaps_ok; split_and!; apply Hblank; vm_compute; reflexivity
              |split; [apply key_chars; vm_compute; reflexivity|]]);
      try exact I; split; [done|]; repeat constructor; done. }
  assert (Hk : forall name, name <> [] -> forallb (fun c => bool_decide (escape_char c = [c]) && negb (char_in $":,}" c)) name = true ->
    plain_key name) by (intros name H1 H2; split; [exact H1|by apply key_chars]).
  assert (H0 : all_space []) by apply (Hblank [] eq_refl). assert (H1 : all_space [LF]) by apply (Hblank [LF] eq_refl).
  split_and!.
  - exact (json_string_reads_objects [] [] example_members [LF] $"key" H0 H0 H1 (Hk $"key" ltac:(done) eq_refl) Hms).
  - exact (json_string_reads_objects [] [] example_members [LF] $"token" H0 H0 H1 (Hk $"token" ltac:(done) eq_refl) Hms).
  - exact (json_string_reads_objects [] [] example_members [LF] $"expires_in" H0 H0 H1
      (Hk $"expires_in" ltac:(done) eq_refl) Hms).
  - exact (json_string_reads_objects [] [] example_members [LF] $"private_key" H0 H0 H1
      (Hk $"private_key" ltac:(done) eq_refl) Hms).
Defined.

Definition example_ini : list (str * list (str * str)) :=
  [($"default", [($"Region", $"us-east-1"); ($"region", $"eu-west-1")]);
   ($"profile dev", [($"aws_access_key_id", $"AKIA"); ($"credential_process", $"/bin/get key=1")])].

Lemma ini_example_ok : Forall ini_section_ok example_ini.
Proof.
  assert (Htrim : forall s, (match s with [] => true | c :: _ => negb (is_space c) end &&
      match rev s with [] => true | c :: _ => negb (is_space c) end) = true -> trimmed s).
  { intros s [H1 H2]%andb_true_iff. split; intros c r ->; [by apply negb_true_iff|].
    rewrite rev_app_distr in H2. by apply negb_true_iff. }
  repeat first [apply Forall_cons_iff; split | apply Forall_nil; exact I];
    repeat (split || constructor); cbn [fst snd];
    try (apply Htrim; vm_compute; reflexivity); try done; try by_decide;
    by intros ? ? [= <- _].
Qed.

Lemma ini_roundtrip_witness :
  parse_ini (write_ini example_ini) !! $"default" = Some {[ $"region" := $"eu-west-1" ]} /\
  (parse_ini (write_ini example_ini) !! $"profile dev") ≫= (fun values => values !! $"credential_process")
    = Some $"/bin/get key=1".
Proof. rewrite (ini_roundtrip example_ini ini_example_ok). split; vm_compute; reflexivity. Defined.

(** A string with a [\u] escape, which JSON allows everywhere, is taken for a
    missing one. *)
Example unicode_escape_hides_a_string :
  json_string (QUOTE :: $"private_key" ++ [QUOTE] ++ $":" ++ [QUOTE] ++ $"MII\u003d" ++ [QUOTE]) $"private_key" = None.
Proof. vm_compute. reflexivity. Qed.

(** The first field of a name counts even inside another value: here the type
    of a nested object. *)
Example nested_field_comes_first :
  json_string ($"{" ++ quoted $"credential_source" ++ $":{" ++ quoted $"type" ++ $":" ++ quoted $"json" ++ $"},"
               ++ quoted $"type" ++ $":" ++ quoted $"external_account" ++ $"}") $"type" = Some $"json".
Proof. vm_compute. reflexivity. Qed.
