(* ===== verification/CredentialRequest.v ===== *)
(** * CredentialRequest: what a credential loader asks the outside

    Models the request to a credential endpoint, the OAuth exchange, the dates,
    what is known of the running libcurl and its certificates, and a user's
    credential callback of [src/src/backends/credentials.cpp].  A loader runs in the monad [Loader]:
    it may fail, and its state [World] is what it did so far: the requests it
    made, how often it read the clock, the commands it ran.  The network
    answers a request from the requests before it.  The theorem shows what a
    credential request sends. *)

From S2P Require Import Prelude Text Uri Types Planner Response CurlSetup Process Config Backends Credentials.

(** ** The loader monad *)

Record World := mkWorld { requests : list easy_handle; clock_reads : nat; commands : list str }.
#[export] Instance World_eta : Eta World := fun w => mkWorld (requests w) (clock_reads w) (commands w).
Definition new_world : World := mkWorld [] 0 [].

Definition Loader (A : Type) : Type := World -> expected RequestError A * World.
#[export] Instance loader_ret : MRet Loader := fun A a w => (Ok a, w).
#[export] Instance loader_bind : MBind Loader := fun A B f m w =>
  match m w with (Ok a, w) => f a w | (Err e, w) => (Err e, w) end.
Definition lift {A} (r : expected RequestError A) : Loader A := fun w => (r, w).
Definition throw {A} (status : karu_status) (text : str) : Loader A :=
  lift (Err {| err_status := status; err_message := text |}).
(** A result that is looked at, not propagated. *)
Definition attempt {A} (m : Loader A) : Loader (expected RequestError A) := fun w =>
  let '(r, w) := m w in (Ok r, w).

Lemma loader_bind_ok {A B} (m : Loader A) (f : A -> Loader B) w b w' :
  (m ≫= f) w = (Ok b, w') <-> exists a w1, m w = (Ok a, w1) /\ f a w1 = (Ok b, w').
Proof. unfold mbind, loader_bind. destruct (m w) as [[a|e] w1]; naive_solver. Qed.

Lemma loader_bind_cases {A B} (m : Loader A) (f : A -> Loader B) w r w' :
  (m ≫= f) w = (r, w') ->
  (exists e, m w = (Err e, w') /\ r = Err e) \/ exists a w1, m w = (Ok a, w1) /\ f a w1 = (r, w').
Proof. unfold mbind, loader_bind. destruct (m w) as [[a|e] w1]; naive_solver. Qed.

(** *** What a loader yields when it succeeds *)

Definition yields {A} (m : Loader A) (P : A -> Prop) : Prop := forall w a w', m w = (Ok a, w') -> P a.

Lemma yields_ret {A} (a : A) (P : A -> Prop) : P a -> yields (mret a) P.
Proof. by intros Ha w b w' [= <- _]. Qed.
Lemma yields_throw {A} status text (P : A -> Prop) : yields (throw status text) P.
Proof. by intros w b w' [=]. Qed.
Lemma yields_lift {A} r (P : A -> Prop) : (forall a, r = Ok a -> P a) -> yields (lift r) P.
Proof. intros Hr w a w' [= E _]. by apply Hr. Qed.
Lemma yields_bind {A B} (m : Loader A) (f : A -> Loader B) (Q : A -> Prop) P :
  yields m Q -> (forall a, Q a -> yields (f a) P) -> yields (m ≫= f) P.
Proof. intros Hm Hf w b w' (a & w1 & E1 & E2)%loader_bind_ok. eapply Hf; [by eapply Hm|exact E2]. Qed.
Lemma yields_then {A B} (m : Loader A) (f : A -> Loader B) P :
  (forall a, yields (f a) P) -> yields (m ≫= f) P.
Proof. intros Hf. by apply (yields_bind m f (fun _ => True)). Qed.

#[export] Hint Resolve yields_throw yields_ret : karu.

(** ** The outside *)

(** One transfer of [curl_easy_perform]: the calls of the write function (its
    data with the two counts), the code when none was refused, the status, and
    what the error buffer holds. *)
Record CredentialExchange := mkCredentialExchange {
  ce_calls : list (str * Z * Z); ce_code : CURLcode; ce_status : Z; ce_error : str;
}.

Class Outside := {
  curl_setopt : easy_handle -> CURLoption -> OptValue -> CURLcode;
  curl_strerror : CURLcode -> str;
  curl_support : CurlCaSupport;
  curl_init : nat -> bool;                (* for the n-th request *)
  slist_heap : nat -> list bool;
  network : list easy_handle -> easy_handle -> CredentialExchange;
  clock : nat -> Z;                       (* the n-th reading of std::time *)
  run : str -> Z -> Z -> expected str CommandResult;   (* os::run_command, or the error's message *)
  tm : Type;
  get_time : str -> str -> option tm;     (* text, format *)
  timegm : tm -> Z;
}.

Record HttpResponse := mkHttpResponse { hr_status : Z; hr_body : str }.
Definition is_success (response : HttpResponse) : bool :=
  (200 <=? hr_status response) && (hr_status response <? 300).

(** ** [credential_request] *)

(** [collect_body]: how many bytes it took, and the body. *)
Definition collect_body (data : str) (size count : Z) (result : str) : Z * str :=
  match callback_size size count with
  | None => (0, result)
  | Some length_ =>
      let limit := Z.shiftl 1 20 in
      if limit - Z.min (Z.of_nat (length result)) limit <? length_ then (0, result)
      else (length_, result ++ data)
  end.

(** libcurl stops at a call that did not take its data. *)
Fixpoint collect (calls : list (str * Z * Z)) (result : str) : bool * str :=
  match calls with
  | [] => (true, result)
  | (data, size, count) :: calls =>
      let '(n, result) := collect_body data size count result in
      if n =? Z.of_nat (length data) then collect calls result else (false, result)
  end.

Fixpoint credential_headers (lines : list str) (headers : list Header) (heap : list bool)
    : expected RequestError (list str) :=
  match headers with
  | [] => Ok lines
  | (name, value) :: headers =>
      if bad_header name value then Err (credentials_error $"credential header is invalid")
      else if negb (hd true heap) then
        Err {| err_status := KARU_ERR_NOMEM; err_message := $"cannot build credential headers" |}
      else credential_headers (lines ++ [c_str (name ++ $": " ++ value)]) headers (tl heap)
  end.

Section Requests.
Context `{Outside}.

Definition time_now : Loader Z := fun w =>
  (Ok (clock (clock_reads w)), w <| clock_reads := S (clock_reads w) |>).

Definition set_credential_option (o : CURLoption) (v : OptValue) : setup := fun h =>
  let code := curl_setopt h o v in
  if curl_ok code then (Ok tt, h ++ [(o, v)])
  else (Err ($"credential endpoint setup: " ++ curl_strerror code), h).
Fixpoint set_credential_options (calls : list (CURLoption * OptValue)) : setup :=
  match calls with
  | [] => setup_done
  | (o, v) :: calls => and_then (set_credential_option o v) (set_credential_options calls)
  end.
Definition credential_string (o : CURLoption) (value : str) : setup :=
  if str_eqb value [] then setup_done else set_credential_option o (CString (c_str value)).

Definition body_settings (method body : str) : setup :=
  let data := [(POSTFIELDS, Bytes body); (POSTFIELDSIZE, Long (Z.of_nat (length body)))] in
  if I64_MAX <? Z.of_nat (length body) then fun h => (Err $"credential request body is too large", h)
  else if str_eqb method $"POST" then set_credential_options ((POST, Long 1) :: data)
  else if negb (str_eqb method $"GET") then
    and_then (set_credential_option CUSTOMREQUEST (CString (c_str method)))
      (if str_eqb body [] then setup_done else set_credential_options data)
  else setup_done.

Fixpoint all_steps (steps : list setup) : setup :=
  match steps with [] => setup_done | s :: steps => and_then s (all_steps steps) end.

Definition credential_settings (method url body : str) (lines : list str) (timeout_seconds : Z)
    (options : HttpRequestOptions) : setup :=
  all_steps
    [set_credential_options
       [(URL, CString (c_str url)); (NOSIGNAL, Long 1); (CONNECTTIMEOUT, Long timeout_seconds);
        (TIMEOUT, Long (timeout_seconds * 2)); (WRITEFUNCTION, Address Callback_collect_body);
        (WRITEDATA, Address The_body); (ERRORBUFFER, Address The_error_buffer);
        (HTTP_VERSION, Long (curl_http_version (version options)))];
     credential_string CAINFO (ca_bundle options);
     credential_string CAPATH (ca_path options);
     match ca_default_to_clear options curl_support with
     | ca_directory => set_credential_option CAPATH NullString
     | ca_default_bundle => set_credential_option CAINFO NullString
     | ca_none => setup_done
     end;
     credential_string PROXY (proxy options);
     credential_string PROXYUSERPWD (proxy_user_password options);
     credential_string USERAGENT (user_agent options);
     set_credential_option PROTOCOLS_STR (CString $"http,https");
     (if bool_decide (lines = []) then setup_done else set_credential_option HTTPHEADER (Slist lines));
     body_settings method body].

Definition credential_request (method url body : str) (headers : list Header) (timeout_seconds : Z)
    (options : HttpRequestOptions) : Loader HttpResponse := fun w =>
  let n := length (requests w) in
  if negb (curl_init n) then
    (Err {| err_status := KARU_ERR_NOMEM; err_message := $"curl_easy_init failed" |}, w)
  else
    match credential_headers [] headers (slist_heap n) with
    | Err e => (Err e, w)
    | Ok lines =>
        match credential_settings method url body lines timeout_seconds options [] with
        | (Err text, _) => (Err (credentials_error text), w)
        | (Ok _, easy) =>
            let x := network (requests w) easy in
            let w := w <| requests := requests w ++ [easy] |> in
            let '(taken, body) := collect (ce_calls x) [] in
            let code := if taken then ce_code x else CURLE_WRITE_ERROR in
            if curl_ok code then (Ok (mkHttpResponse (ce_status x) body), w)
            else
              (Err (credentials_error ($"credential endpoint: " ++
                 (if str_eqb (ce_error x) [] then curl_strerror code else ce_error x))), w)
        end
    end.

(** ** [oauth_token] *)

Definition with_bearer (token : str) (expires : Z) : ProviderCredentials :=
  ProviderCredentials_default <| bearer_token := token |> <| expires_at := expires |>.

Definition oauth_token (url form : str) (extra_headers : list Header) (options : HttpRequestOptions)
    : Loader ProviderCredentials :=
  response ← credential_request $"POST" url form
               (extra_headers ++ [($"Content-Type", $"application/x-www-form-urlencoded")]) 5 options;
  if negb (is_success response) then
    throw KARU_ERR_CREDENTIALS
      (concat [Text $"credential endpoint returned HTTP "; Integer (hr_status response)])
  else
    match json_string (hr_body response) $"access_token" with
    | None | Some [] => throw KARU_ERR_CREDENTIALS $"credential response has no access_token"
    | Some token =>
        now ← time_now;
        let lifetime := default 3600 (json_integer (hr_body response) $"expires_in") in
        mret (with_bearer token (now + Z.max lifetime 60))
    end.

(** ** Dates *)

Definition date_utc `{Platform} (now : Z) (format : str) : str := strftime_utc now format.

Definition iso8601_epoch (text : str) : Z :=
  match get_time (take 19 text) $"%Y-%m-%dT%H:%M:%S" with
  | None => 0
  | Some utc => timegm utc
  end.
End Requests.

(** ** [has_hashed_certificates] *)

(** An entry of the directory: its name, whether it is a regular file (None
    when that cannot be told), and the subject hash of the certificate it
    holds, if it can be opened and read. *)
Record CertificateEntry := mkCertificateEntry { ct_name : str; ct_regular : option bool; ct_hash : option Z }.

Definition is_xdigit (c : ascii) : bool :=
  is_digit c || ((97 <=? nat_of_ascii c)%nat && (nat_of_ascii c <=? 102)%nat)
  || ((65 <=? nat_of_ascii c)%nat && (nat_of_ascii c <=? 70)%nat).
Definition hex_number (s : str) : Z := fold_left (fun n c => 16 * n + Z.of_nat (hex_value (to_upper c))) s 0.

Definition hashed_name (name : str) : bool :=
  (length name =? 10)%nat && bool_decide (drop 8 name = $".0") && forallb is_xdigit (take 8 name).

(** [None]: no directory is configured. *)
Definition has_hashed_certificates (directory : option (list CertificateEntry)) : bool :=
  match directory with
  | None => false
  | Some entries =>
      existsb (fun entry =>
        hashed_name (ct_name entry)
        && bool_decide (ct_regular entry = Some true)
        && bool_decide (ct_hash entry = Some (hex_number (take 8 (ct_name entry))))) entries
  end.

(** What [curl_version_info] answers, as far as it is read. *)
Record curl_version_info_data := mkVersionInfo {
  version_num : Z; ssl_version : option str; capath : option str; cainfo : option str;
}.

(** The file system is what [is_regular_file] says of a path and the entries of
    a directory. *)
Definition running_curl_ca_support (info : option curl_version_info_data)
    (is_regular_file : str -> bool) (directory : str -> list CertificateEntry) : CurlCaSupport :=
  match info with
  | None => Build_CurlCaSupport 0 [] false false false
  | Some info =>
      Build_CurlCaSupport (version_num info) (default [] (ssl_version info)) (bool_decide (is_Some (capath info)))
        (match cainfo info with Some file => is_regular_file file | None => false end)
        (match capath info with Some path => has_hashed_certificates (Some (directory path)) | None => false end)
  end.

(** The bundle curl was built with is given up only for a directory that holds
    a certificate under the name its subject hashes to. *)
Lemma bundle_gives_way_to_directory o info is_regular_file directory :
  ca_default_to_clear o (running_curl_ca_support info is_regular_file directory) = ca_default_bundle ->
  exists i path entry, info = Some i /\ capath i = Some path /\ entry ∈ directory path /\
    hashed_name (ct_name entry) = true /\ ct_regular entry = Some true /\
    ct_hash entry = Some (hex_number (take 8 (ct_name entry))).
Proof.
  unfold ca_default_to_clear. destruct (_ || _); [done|].
  destruct (hashed_ca_directory _) eqn:E; [intros _|rewrite andb_false_r; by destruct (_ && _)].
  destruct info as [i|]; [|done]. cbn in E. destruct (capath i) as [path|] eqn:Ep; [|done].
  apply existsb_exists in E as (entry & Hin & [[Hname Hregular]%andb_true_iff Hhash]%andb_true_iff).
  apply list_elem_of_In in Hin. apply bool_decide_eq_true in Hregular, Hhash. by exists i, path, entry.
Qed.

(** ** [copy_callback_credentials] *)

(** [karu_credentials]: a string is a null pointer or a text. *)
Record karu_credentials := mkKaruCredentials {
  kc_access_key_id : option str; kc_secret_access_key : option str; kc_session_token : option str;
  kc_bearer_token : option str; kc_sas_token : option str; kc_account_name : option str;
  kc_cache_prefix : option str; kc_expires_at : Z;
}.

(** Negative codes are the errors. *)
Definition is_error (status : karu_status) : bool :=
  match status with KARU_OK | KARU_END | KARU_TIMEOUT => false | _ => true end.

Definition copy_callback_credentials (callback : str -> karu_status * karu_credentials) (path : str)
    : expected RequestError ProviderCredentials :=
  let '(status, raw) := callback (c_str path) in
  if negb (bool_decide (status = KARU_OK)) then
    Err {| err_status := if is_error status then status else KARU_ERR_CREDENTIALS;
           err_message := concat [Text path; Text $": custom credential provider returned ";
                                  Text (karu_status_string status)] |}
  else
    let copy value := default [] value in
    Ok (mkProviderCredentials (copy (kc_access_key_id raw)) (copy (kc_secret_access_key raw))
          (copy (kc_session_token raw)) (copy (kc_bearer_token raw)) (copy (kc_sas_token raw))
          (copy (kc_account_name raw)) [] (copy (kc_cache_prefix raw)) (kc_expires_at raw)).

(** ** What a request sends *)

Section RequestSpec.
Context `{Outside}.

Lemma adds_credential_option o v : adds (set_credential_option o v) [(o, v)].
Proof. intros h h'. unfold set_credential_option. by destruct (curl_ok _); intros [= <-]. Qed.

Lemma adds_credential_options calls : adds (set_credential_options calls) calls.
Proof.
  induction calls as [|[o v] calls IH]; cbn [set_credential_options]; [exact adds_done|].
  exact (adds_then _ _ [_] _ (adds_credential_option o v) IH).
Qed.

Definition string_setting (o : CURLoption) (value : str) : easy_handle :=
  if str_eqb value [] then [] else [(o, CString (c_str value))].

Lemma adds_credential_string o value : adds (credential_string o value) (string_setting o value).
Proof.
  unfold credential_string, string_setting. destruct (str_eqb value []); [exact adds_done|apply adds_credential_option].
Qed.

(** The settings of the method and the body. *)
Definition method_settings (method body : str) : easy_handle :=
  let data := [(POSTFIELDS, Bytes body); (POSTFIELDSIZE, Long (Z.of_nat (length body)))] in
  if str_eqb method $"POST" then (POST, Long 1) :: data
  else if negb (str_eqb method $"GET") then
    (CUSTOMREQUEST, CString (c_str method)) :: (if str_eqb body [] then [] else data)
  else [].

Lemma adds_body method body : adds (body_settings method body) (method_settings method body).
Proof.
  unfold body_settings, method_settings. destruct (_ <? _); [by intros h h' [=]|].
  destruct (str_eqb method $"POST"); [apply adds_credential_options|].
  destruct (negb _); [|exact adds_done].
  refine (adds_then _ _ [_] _ (adds_credential_option _ _) _).
  destruct (str_eqb body []); [exact adds_done|apply adds_credential_options].
Qed.

(** The settings of a request, in order. *)
Definition request_settings (method url body : str) (lines : list str) (timeout : Z) (o : HttpRequestOptions)
    : list easy_handle :=
  [[(URL, CString (c_str url)); (NOSIGNAL, Long 1); (CONNECTTIMEOUT, Long timeout);
    (TIMEOUT, Long (timeout * 2)); (WRITEFUNCTION, Address Callback_collect_body);
    (WRITEDATA, Address The_body); (ERRORBUFFER, Address The_error_buffer);
    (HTTP_VERSION, Long (curl_http_version (version o)))];
   string_setting CAINFO (ca_bundle o); string_setting CAPATH (ca_path o);
   match ca_default_to_clear o curl_support with
   | ca_directory => [(CAPATH, NullString)] | ca_default_bundle => [(CAINFO, NullString)] | ca_none => []
   end;
   string_setting PROXY (proxy o); string_setting PROXYUSERPWD (proxy_user_password o);
   string_setting USERAGENT (user_agent o); [(PROTOCOLS_STR, CString $"http,https")];
   (if bool_decide (lines = []) then [] else [(HTTPHEADER, Slist lines)]); method_settings method body].

Lemma adds_steps steps calls : Forall2 adds steps calls -> adds (all_steps steps) (List.concat calls).
Proof. induction 1; cbn; [exact adds_done|by apply adds_then]. Qed.

Lemma adds_request method url body lines timeout o :
  adds (credential_settings method url body lines timeout o)
       (List.concat (request_settings method url body lines timeout o)).
Proof.
  unfold credential_settings, request_settings. apply adds_steps.
  repeat (apply List.Forall2_cons || apply List.Forall2_nil); try first [apply adds_credential_string | apply adds_credential_options | apply adds_credential_option | apply adds_body].
  - destruct (ca_default_to_clear o curl_support); [exact adds_done|apply adds_credential_option..].
  - case_bool_decide; [exact adds_done|apply adds_credential_option].
Qed.

Lemma setting_concat_none calls o : Forall (fun h => setting h o = None) calls -> setting (List.concat calls) o = None.
Proof. induction 1 as [|h calls Hh _ IH]; [done|]. cbn. by rewrite setting_app, IH. Qed.

Lemma setting_string o p value : p <> o -> setting (string_setting p value) o = None.
Proof. intros Hp. unfold string_setting. destruct (str_eqb value []); [done|]. cbn. by rewrite bool_decide_false. Qed.

Lemma setting_method method body o : match o with POST | POSTFIELDS | POSTFIELDSIZE | CUSTOMREQUEST => False | _ => True end ->
  setting (method_settings method body) o = None.
Proof.
  intros Ho. unfold method_settings. destruct (str_eqb method $"POST"); [by destruct o|].
  destruct (negb _); [|done]. destruct (str_eqb body []); by destruct o.
Qed.

(** What the settings before the headers and the body say of an option. *)
Ltac settings_of :=
  unfold request_settings; cbn [List.concat]; rewrite !setting_app, !setting_string, setting_method by done;
  destruct (ca_default_to_clear _ curl_support); case_bool_decide; reflexivity.

Lemma request_url method url body lines timeout o :
  setting (List.concat (request_settings method url body lines timeout o)) URL = Some (CString (c_str url)).
Proof. settings_of. Qed.
Lemma request_follows_no_redirect method url body lines timeout o :
  setting (List.concat (request_settings method url body lines timeout o)) FOLLOWLOCATION = None.
Proof. settings_of. Qed.
Lemma request_protocols method url body lines timeout o :
  setting (List.concat (request_settings method url body lines timeout o)) PROTOCOLS_STR = Some (CString $"http,https").
Proof. settings_of. Qed.
Lemma request_headers method url body lines timeout o :
  setting (List.concat (request_settings method url body lines timeout o)) HTTPHEADER
  = if bool_decide (lines = []) then None else Some (Slist lines).
Proof. settings_of. Qed.
Lemma request_body method url body lines timeout o :
  setting (List.concat (request_settings method url body lines timeout o)) POSTFIELDS
  = if str_eqb method $"POST" || (negb (str_eqb method $"GET") && negb (str_eqb body [])) then Some (Bytes body) else None.
Proof.
  unfold request_settings. cbn [List.concat]. rewrite !setting_app, !setting_string by done.
  assert (setting (method_settings method body) POSTFIELDS =
    if str_eqb method $"POST" || (negb (str_eqb method $"GET") && negb (str_eqb body [])) then Some (Bytes body) else None) as ->.
  { unfold method_settings. destruct (str_eqb method $"POST"); [done|]. destruct (str_eqb method $"GET"); [done|].
    by destruct (str_eqb body []). }
  destruct (_ || _); [done|]. destruct (ca_default_to_clear _ curl_support); case_bool_decide; reflexivity.
Qed.

Lemma credential_headers_ok headers : forall lines heap lines',
  credential_headers lines headers heap = Ok lines' ->
  lines' = lines ++ map header_line headers /\ Forall (fun h => bad_header h.1 h.2 = false) headers.
Proof.
  induction headers as [|[name value] headers IH]; intros lines heap lines'; cbn [credential_headers].
  - intros [= <-]. by rewrite app_nil_r.
  - destruct (bad_header name value) eqn:E; [done|]. destruct (negb _); [done|].
    intros (-> & Hv)%IH. split; [by rewrite <-app_assoc|by constructor].
Qed.

Lemma collect_bounded calls : forall body taken body',
  Forall (fun call => callback_size call.1.2 call.2 = Some (Z.of_nat (length call.1.1))) calls ->
  Z.of_nat (length body) <= Z.shiftl 1 20 ->
  collect calls body = (taken, body') -> Z.of_nat (length body') <= Z.shiftl 1 20.
Proof.
  induction calls as [|[[data size] count] calls IH]; intros body taken body' Hc Hb; cbn [collect]; [by intros [= _ <-]|].
  apply Forall_cons_iff in Hc as [Hd Hc]. cbn [fst snd] in Hd. unfold collect_body. rewrite Hd.
  rewrite Z.min_l by done. destruct (Z.ltb_spec (Z.shiftl 1 20 - Z.of_nat (length body)) (Z.of_nat (length data))).
  - destruct (0 =? _); [by apply IH|by intros [= _ <-]].
  - rewrite Z.eqb_refl. apply IH; [done|]. rewrite length_app. lia.
Qed.

(** A call of libcurl hands over as many bytes as it says. *)
Definition whole_calls (x : CredentialExchange) : Prop :=
  Forall (fun call => callback_size call.1.2 call.2 = Some (Z.of_nat (length call.1.1))) (ce_calls x).

(** What a request leaves, and the handle it was made with. *)
Definition sent (method url body : str) (headers : list Header) (easy : easy_handle) : Prop :=
  setting easy URL = Some (CString (c_str url)) /\
  setting easy PROTOCOLS_STR = Some (CString $"http,https") /\
  setting easy FOLLOWLOCATION = None /\
  setting easy HTTPHEADER = (if bool_decide (headers = []) then None else Some (Slist (map header_line headers))) /\
  Forall (fun h => bad_header h.1 h.2 = false /\ one_line (header_line h)) headers /\
  setting easy POSTFIELDS = if str_eqb method $"POST" || (negb (str_eqb method $"GET") && negb (str_eqb body []))
                            then Some (Bytes body) else None.

Lemma credential_request_spec method url body headers timeout options w r w' :
  credential_request method url body headers timeout options w = (r, w') ->
  clock_reads w' = clock_reads w /\ commands w' = commands w /\
  ((requests w' = requests w /\ is_ok r = false) \/
   exists easy, requests w' = requests w ++ [easy] /\ sent method url body headers easy /\
     forall response, r = Ok response ->
       exists taken, collect (ce_calls (network (requests w) easy)) [] = (taken, hr_body response)).
Proof.
  unfold credential_request.
  destruct (negb _); [intros [= <- <-]; split_and!; [done..|by left]|].
  destruct (credential_headers _ _ _) as [lines|e] eqn:Eh; [|intros [= <- <-]; split_and!; [done..|by left]].
  destruct (credential_settings _ _ _ _ _ _ []) as [[[]|text] easy] eqn:Es;
    [|intros [= <- <-]; split_and!; [done..|by left]].
  destruct (collect _ _) as [taken body'] eqn:Ec. intros E.
  assert (Hw : requests w' = requests w ++ [easy] /\ clock_reads w' = clock_reads w /\ commands w' = commands w)
    by (revert E; destruct (curl_ok _); by intros [= _ <-]).
  assert (Hr : forall response, r = Ok response -> hr_body response = body')
    by (revert E; destruct (curl_ok _); intros [= <- _]; by intros ? [= <-]).
  destruct Hw as (Hw & -> & ->). split_and!; [done..|right]. exists easy. split; [done|].
  split; [|intros response Hok; exists taken; by rewrite (Hr _ Hok)].
  apply adds_request in Es. cbn [app] in Es. apply credential_headers_ok in Eh as [-> Hbad]. cbn [app] in Es.
  unfold sent. rewrite Es, request_url, request_protocols, request_follows_no_redirect, request_headers, request_body.
  split_and!; try done; [by destruct headers|].
  eapply Forall_impl; [exact Hbad|]. intros [name value] Hb. split; [done|]. by apply good_header_one_line.
Qed.

(** C35: a credential request goes where it is told and nowhere else: it makes
    at most one transfer, to the given URL and over HTTP or HTTPS only,
    without following redirects, with the given headers, each on one line, and
    with the body only in a POST or a method of its own; and the body of a
    response is at most 1 MiB. *)
Theorem credential_request_is_confined method url body headers timeout options w r w' :
  (forall past easy, whole_calls (network past easy)) ->
  credential_request method url body headers timeout options w = (r, w') ->
  clock_reads w' = clock_reads w /\ commands w' = commands w /\
  (forall response, r = Ok response -> Z.of_nat (length (hr_body response)) <= Z.shiftl 1 20) /\
  ((requests w' = requests w /\ is_ok r = false) \/
   exists easy, requests w' = requests w ++ [easy] /\ sent method url body headers easy).
Proof.
  intros Hwhole E. destruct (credential_request_spec _ _ _ _ _ _ _ _ _ E) as (H1 & H2 & Hcase).
  split_and!; [done..| |destruct Hcase as [?|(easy & ? & ? & _)]; [by left|right; by exists easy]].
  intros response ->. destruct Hcase as [[_ ?]|(easy & _ & _ & Hb)]; [done|].
  destruct (Hb _ eq_refl) as (taken & Hc). by eapply collect_bounded; [apply Hwhole| |exact Hc].
Qed.
End RequestSpec.

(** *** Witness *)

(** A service that answers every request with temporary keys, in two pieces. *)
Definition service_member (name value : str) : member :=
  mkMember (mkGaps [] [] $" " []) name (JString value).
Definition service_body : str :=
  json_object [] [] [service_member $"AccessKeyId" $"AKIA"; service_member $"SecretAccessKey" $"secret";
                     service_member $"Token" $"token"; service_member $"Expiration" $"2030-01-01T00:00:00Z"] [].
Definition example_outside : Outside := {|
  curl_setopt := accepting; curl_strerror := fun _ => $"failed"; curl_support := example_support;
  curl_init := fun _ => true; slist_heap := fun _ => [];
  network := fun _ _ =>
    mkCredentialExchange [(take 20 service_body, 1, 20);
                          (drop 20 service_body, 1, Z.of_nat (length (drop 20 service_body)))] CURLE_OK 200 [];
  clock := fun n => 1000 + Z.of_nat n; run := fun _ _ _ => Err $"no such file";
  tm := unit; get_time := fun _ _ => Some tt; timegm := fun _ => 5000;
|}.

Lemma credential_request_is_confined_witness :
  exists response w', @credential_request example_outside $"POST" $"https://host/token" $"a=b" [($"A", $"1")] 5
      HttpRequestOptions_default new_world = (Ok response, w') /\
    hr_body response = service_body /\ length (requests w') = 1%nat.
Proof.
  assert (Hwhole : forall past easy, whole_calls (@network example_outside past easy))
    by (intros past easy; repeat constructor; vm_compute; reflexivity).
  assert (exists response w', @credential_request example_outside $"POST" $"https://host/token" $"a=b" [($"A", $"1")] 5
      HttpRequestOptions_default new_world = (Ok response, w') /\ hr_body response = service_body)
    as (response & w' & E & Hb) by (eexists _, _; split; vm_compute; reflexivity).
  exists response, w'. split; [exact E|]. split; [exact Hb|].
  destruct (@credential_request_is_confined example_outside $"POST" $"https://host/token" $"a=b" [($"A", $"1")] 5
    HttpRequestOptions_default new_world (Ok response) w' Hwhole E) as (_ & _ & _ & [[_ Hno]|(easy & Hr & _)]).
  - discriminate Hno.
  - rewrite Hr. reflexivity.
Defined.
