(* ===== verification/Loaders.v ===== *)
(** * Loaders: where the credentials of a provider come from

    Models [src/src/backends/aws_profile.cpp], [s3_credentials.cpp] and
    [source_credentials.cpp]: the loaders of AWS keys with their sources in
    order ([TokenLoaders] has those of Azure and Google).  They run in the
    monad of [CredentialRequest].  The theorems show that
    a loader never returns half a key pair or an expired token it was told the
    age of, that configured keys are used as they are, and where a container's
    credentials may be asked for. *)

From S2P Require Import Prelude Text Uri Types Planner Response CurlSetup Process Config Backends Credentials CredentialRequest.

Section Loaders.
Context `{Platform} `{Outside}.

(** ** [aws_profile.cpp] *)

Definition run_credential_process (command label : str) (timeout_seconds : Z) : Loader str := fun w =>
  let w := w <| commands := commands w ++ [command] |> in
  match run command (Z.shiftl 1 20) (timeout_seconds * 1000) with
  | Err message =>
      (Err (credentials_error (label ++ $" credential_process could not start: " ++ message)), w)
  | Ok result =>
      if timed_out result then
        (Err {| err_status := KARU_TIMEOUT;
                err_message := label ++ $" credential_process exceeded the request timeout" |}, w)
      else if output_limit_exceeded result then
        (Err (credentials_error (label ++ $" credential_process returned more than 1 MiB")), w)
      else if negb (exit_code result =? 0) then
        (Err (credentials_error (label ++ $" credential_process exited with status "
                                 ++ to_string (exit_code result))), w)
      else (Ok (output result), w)
  end.

Record AwsProfile := mkAwsProfile { values : gmap str str; found : bool }.
#[local] Instance AwsProfile_eta : Eta AwsProfile := fun p => mkAwsProfile (values p) (found p).
Definition value (p : AwsProfile) (name : str) : str := default [] (values p !! name).

(** Add a section of a file to a profile: its values come first. *)
Definition add_section (p : AwsProfile) (file : IniFile) (section : str) : AwsProfile :=
  match file !! section with
  | Some entries => mkAwsProfile (entries ∪ values p) true
  | None => p
  end.

(** One of the two files: an option that names a missing file is an error. *)
Definition read_profile_file (config : ConfigSnapshot) (path option file purpose missing section : str)
    (exists_ : bool) (p : AwsProfile) : expected RequestError AwsProfile :=
  if has_option config path option && negb exists_ then
    Err (credentials_error (missing ++ file ++ $"'"))
  else if exists_ then ini ← read_ini file purpose; Ok (add_section p ini section)
  else Ok p.

Definition read_aws_profile (config : ConfigSnapshot) (path profile config_file_option
    credentials_file_option label : str) : expected RequestError AwsProfile :=
  let config_path := expand_user_path config
    (option_ config path config_file_option (default_aws_path config $"config")) in
  let credentials_path := expand_user_path config
    (option_ config path credentials_file_option (default_aws_path config $"credentials")) in
  config_exists ← path_exists config_path (label ++ $" config file");
  credentials_exists ← path_exists credentials_path (label ++ $" shared credentials file");
  p ← read_profile_file config path config_file_option config_path (label ++ $" config")
        (label ++ $" config file does not exist: '")
        (if str_eqb profile $"default" then $"default" else $"profile " ++ profile)
        config_exists (mkAwsProfile ∅ false);
  read_profile_file config path credentials_file_option credentials_path (label ++ $" shared credentials")
    (label ++ $" shared credentials file does not exist: '") profile credentials_exists p.

Definition json_or (json name fallback : str) : str := default fallback (json_string json name).

Definition aws_json_credentials (json : str) : ProviderCredentials :=
  ProviderCredentials_default
    <| access_key_id := json_or json $"AccessKeyId" [] |>
    <| secret_access_key := json_or json $"SecretAccessKey" [] |>
    <| session_token := json_or json $"Token" (json_or json $"SessionToken" []) |>
    <| expires_at := match json_string json $"Expiration" with
                     | Some expiration => iso8601_epoch expiration | None => 0 end |>.

Definition is_set (s : str) : bool := negb (str_eqb s []).
(** A key without its secret, or a secret without its key. *)
Definition half_pair (c : ProviderCredentials) : bool :=
  (is_set (access_key_id c) || is_set (secret_access_key c))
  && negb (is_set (access_key_id c) && is_set (secret_access_key c)).

Definition credentials_from_aws_profile (p : AwsProfile) (label : str) (timeout_seconds : Z)
    : Loader ProviderCredentials :=
  if is_set (value p $"sso_session") || is_set (value p $"sso_start_url") then
    throw KARU_ERR_CREDENTIALS (label ++ $" IAM Identity Center profiles require a custom credential provider")
  else if is_set (value p $"role_arn") || is_set (value p $"source_profile")
          || is_set (value p $"web_identity_token_file") then
    throw KARU_ERR_CREDENTIALS (label ++ $" AssumeRole profiles require a custom credential provider")
  else if is_set (value p $"credential_process") then
    text ← run_credential_process (value p $"credential_process") label timeout_seconds;
    let result := aws_json_credentials text in
    if negb (is_set (access_key_id result) && is_set (secret_access_key result)) then
      throw KARU_ERR_CREDENTIALS (label ++ $" credential_process response is incomplete")
    else mret (result <| cred_region := value p $"region" |>)
  else
    let result := ProviderCredentials_default
      <| access_key_id := value p $"aws_access_key_id" |>
      <| secret_access_key := value p $"aws_secret_access_key" |>
      <| session_token := value p $"aws_session_token" |>
      <| cred_region := value p $"region" |> in
    if half_pair result then
      throw KARU_ERR_CREDENTIALS (label ++ $" profile access key and secret must be set together")
    else mret result.

(** ** [s3_credentials.cpp] *)

(** The host of an authority; None when the bracketed part is malformed. *)
Definition authority_host (authority : str) : option str :=
  if starts_with authority $"[" then
    closing ← find_char authority "]";
    if match authority !! (closing + 1)%nat with Some c => negb (Ascii.eqb c ":") | None => false end then None
    else Some (substr authority 1 (closing - 1))
  else Some (take_to (find_char authority ":") authority).

Definition local_hosts : list str := [$"127.0.0.1"; $"::1"; $"localhost"; $"169.254.170.2"].

Definition safe_container_endpoint (url : str) : bool :=
  match split_url url with
  | Err _ => false
  | Ok parts =>
      let s := lower (scheme parts) in
      if str_eqb s $"https" then true
      else if negb (str_eqb s $"http") || contains (authority parts) $"@" then false
      else match authority_host (authority parts) with
           | None => false
           | Some host => bool_decide (lower host ∈ local_hosts)
           end
  end.

Definition xml_value (xml name : str) : option str :=
  let open_ := $"<" ++ name ++ $">" in
  first ← find_str xml open_;
  let start := (first + length open_)%nat in
  end_ ← find_str_from xml ($"</" ++ name ++ $">") start;
  Some (substr xml start (end_ - start)).

(** Keys that are all there and have not expired; the clock is read only when
    they are all there. *)
Definition whole_and_fresh (c : ProviderCredentials) : Loader bool :=
  if negb (is_set (access_key_id c) && is_set (secret_access_key c) && is_set (session_token c))
  then mret false
  else now ← time_now; mret (now <? expires_at c).

Definition aws_web_identity (role token_file session_name endpoint : str) (http : HttpRequestOptions)
    : Loader ProviderCredentials :=
  token ← lift (read_text_file token_file $"AWS web identity token");
  session ← (if is_set session_name then mret session_name
             else now ← time_now; mret ($"karu-" ++ to_string now));
  let form := $"Action=AssumeRoleWithWebIdentity&Version=2011-06-15&RoleArn=" ++ form_encode role
              ++ $"&RoleSessionName=" ++ form_encode session
              ++ $"&WebIdentityToken=" ++ form_encode (trim token) in
  response ← credential_request $"POST" endpoint form
               [($"Content-Type", $"application/x-www-form-urlencoded")] 5 http;
  if negb (is_success response) then
    throw KARU_ERR_CREDENTIALS
      (concat [Text $"AWS web identity exchange returned HTTP "; Integer (hr_status response)])
  else
    let text name := default [] (xml_value (hr_body response) name) in
    let result := ProviderCredentials_default
      <| access_key_id := text $"AccessKeyId" |> <| secret_access_key := text $"SecretAccessKey" |>
      <| session_token := text $"SessionToken" |> <| expires_at := iso8601_epoch (text $"Expiration") |> in
    whole ← whole_and_fresh result;
    if negb whole then throw KARU_ERR_CREDENTIALS $"AWS web identity response is incomplete"
    else mret result.

Definition container_credentials (config : ConfigSnapshot) (path container_url : str)
    : Loader ProviderCredentials :=
  if negb (safe_container_endpoint container_url) then
    throw KARU_ERR_CREDENTIALS
      $"AWS_CONTAINER_CREDENTIALS_FULL_URI must use HTTPS or a loopback/ECS host"
  else
    let given := option_ config path $"AWS_CONTAINER_AUTHORIZATION_TOKEN" [] in
    let token_file := expand_user_path config
      (option_ config path $"AWS_CONTAINER_AUTHORIZATION_TOKEN_FILE" []) in
    authorization ← (if negb (is_set given) && is_set token_file then
                       loaded ← lift (read_text_file token_file $"AWS container authorization token");
                       mret (trim loaded)
                     else mret given);
    let headers := if is_set authorization then [($"Authorization", authorization)] else [] in
    response ← credential_request $"GET" container_url [] headers 2 (http_ config);
    if negb (is_success response) then
      throw KARU_ERR_CREDENTIALS $"AWS container credentials request failed"
    else
      let result := aws_json_credentials (hr_body response) in
      whole ← whole_and_fresh result;
      if negb whole then throw KARU_ERR_CREDENTIALS $"AWS container credentials are incomplete"
      else mret result.

Definition imds : str := $"http://169.254.169.254/latest/".
Definition imds_roles : str := imds ++ $"meta-data/iam/security-credentials/".

(** A successful response, or nothing. *)
Definition success_of (r : expected RequestError HttpResponse) : option HttpResponse :=
  match r with Ok response => if is_success response then Some response else None | Err _ => None end.

(** The instance metadata service: what goes wrong gives no credentials. *)
Definition instance_credentials (config : ConfigSnapshot) (timeout : Z) : Loader (option ProviderCredentials) :=
  token ← attempt (credential_request $"PUT" (imds ++ $"api/token") []
                     [($"X-aws-ec2-metadata-token-ttl-seconds", $"21600")] timeout (http_ config));
  match success_of token with
  | None => mret None
  | Some token =>
      let headers := [($"X-aws-ec2-metadata-token", trim (hr_body token))] in
      role ← attempt (credential_request $"GET" imds_roles [] headers timeout (http_ config));
      match success_of role with
      | None => mret None
      | Some role =>
          response ← attempt (credential_request $"GET" (imds_roles ++ form_encode (trim (hr_body role))) []
                                headers timeout (http_ config));
          match success_of response with
          | None => mret None
          | Some response =>
              let result := aws_json_credentials (hr_body response) in
              whole ← whole_and_fresh result;
              mret (if whole : bool then Some result else None)
          end
      end
  end.

(** After the profile: the container's credentials, then the instance's. *)
Definition ambient_aws_credentials (config : ConfigSnapshot) (path : str) : Loader ProviderCredentials :=
  let full := option_ config path $"AWS_CONTAINER_CREDENTIALS_FULL_URI" [] in
  let relative := option_ config path $"AWS_CONTAINER_CREDENTIALS_RELATIVE_URI" [] in
  let container_url :=
    if is_set full then full else if is_set relative then $"http://169.254.170.2" ++ relative else [] in
  if is_set container_url then container_credentials config path container_url
  else
    match from_chars_all (- I64_MAX - 1) I64_MAX (option_ config path $"AWS_METADATA_SERVICE_TIMEOUT" $"1") with
    | None => throw KARU_ERR_CONFIG $"AWS_METADATA_SERVICE_TIMEOUT must be in [1, 60]"
    | Some timeout =>
        if (timeout <? 1) || (60 <? timeout) then
          throw KARU_ERR_CONFIG $"AWS_METADATA_SERVICE_TIMEOUT must be in [1, 60]"
        else
          let setting := has_option config path $"AWS_EC2_METADATA_DISABLED" in
          let disabled := option_is_true (option_ config path $"AWS_EC2_METADATA_DISABLED" $"NO") in
          if negb disabled && (discover_default_credentials_ config || setting) then
            found ← instance_credentials config timeout; mret (default ProviderCredentials_default found)
          else mret ProviderCredentials_default
    end.

(** The keys an option triple gives, if it gives any. *)
Definition direct_keys (config : ConfigSnapshot) (path key secret token message : str)
    : expected RequestError (option ProviderCredentials) :=
  let direct := ProviderCredentials_default
    <| access_key_id := option_ config path key [] |> <| secret_access_key := option_ config path secret [] |>
    <| session_token := option_ config path token [] |> in
  if half_pair direct then Err (credentials_error (path ++ message))
  else Ok (if is_set (access_key_id direct) then Some direct else None).

Definition load_aws_credentials (config : ConfigSnapshot) (path : str) : Loader ProviderCredentials :=
  direct ← lift (direct_keys config path $"AWS_ACCESS_KEY_ID" $"AWS_SECRET_ACCESS_KEY" $"AWS_SESSION_TOKEN"
                   $": AWS access key and secret must be set together");
  match direct with
  | Some direct => mret direct
  | None =>
      let profile := option_ config path $"AWS_PROFILE" $"default" in
      p ← lift (read_aws_profile config path profile $"AWS_CONFIG_FILE" $"AWS_SHARED_CREDENTIALS_FILE" $"AWS");
      if has_option config path $"AWS_PROFILE" && negb (found p) then
        throw KARU_ERR_CREDENTIALS ($"AWS profile '" ++ profile ++ $"' was not found")
      else
        let role := option_ config path $"AWS_ROLE_ARN" (value p $"role_arn") in
        let web_token := expand_user_path config
          (option_ config path $"AWS_WEB_IDENTITY_TOKEN_FILE" (value p $"web_identity_token_file")) in
        if is_set role && is_set web_token then
          credentials ← aws_web_identity role web_token
            (option_ config path $"AWS_ROLE_SESSION_NAME" (value p $"role_session_name"))
            (option_ config path $"AWS_STS_ENDPOINT" $"https://sts.amazonaws.com/") (http_ config);
          mret (credentials <| cred_region := value p $"region" |>)
        else if is_set role then
          throw KARU_ERR_CREDENTIALS
            ($"AWS chained AssumeRole profiles require a custom credential provider; "
             ++ $"credential_process and web identity profiles are supported natively")
        else
          c ← credentials_from_aws_profile p $"AWS" (request_timeout_seconds (client_ config));
          if is_set (access_key_id c) then mret c else ambient_aws_credentials config path
  end.

(** ** [source_credentials.cpp] *)

Definition load_source_credentials (config : ConfigSnapshot) (path : str) : Loader ProviderCredentials :=
  direct ← lift (direct_keys config path $"SOURCE_ACCESS_KEY_ID" $"SOURCE_SECRET_ACCESS_KEY"
                   $"SOURCE_SESSION_TOKEN" $": Source access key and secret must be set together");
  match direct with
  | Some direct => mret direct
  | None =>
      let profile_name := option_ config path $"SOURCE_PROFILE" $"source-coop" in
      p ← lift (read_aws_profile config path profile_name $"SOURCE_CONFIG_FILE"
                  $"SOURCE_SHARED_CREDENTIALS_FILE" $"Source");
      if negb (found p) then
        throw KARU_ERR_CREDENTIALS (path ++ $": Source profile '" ++ profile_name ++ $"' was not found")
      else
        c ← credentials_from_aws_profile p $"Source" (request_timeout_seconds (client_ config));
        if negb (is_set (access_key_id c) && is_set (secret_access_key c)) then
          throw KARU_ERR_CREDENTIALS
            (path ++ $": Source profile '" ++ profile_name ++ $"' did not provide credentials")
        else mret c
  end.
End Loaders.

(** ** What a loader returns *)

Section LoaderSpec.
Context `{Platform} `{Outside}.

Definition whole_pair (c : ProviderCredentials) : Prop := half_pair c = false.
Definition both_keys (c : ProviderCredentials) : bool := is_set (access_key_id c) && is_set (secret_access_key c).

Lemma both_keys_whole c : both_keys c = true -> whole_pair c.
Proof. unfold both_keys, whole_pair, half_pair. intros ->. by rewrite andb_false_r. Qed.

Lemma direct_keys_spec config path key secret token message r :
  direct_keys config path key secret token message = Ok r ->
  match r with
  | Some c => both_keys c = true /\ access_key_id c = option_ config path key []
              /\ secret_access_key c = option_ config path secret []
              /\ session_token c = option_ config path token []
  | None => option_ config path key [] = [] /\ option_ config path secret [] = []
  end.
Proof.
  unfold direct_keys, half_pair, is_set, both_keys, is_set, str_eqb. cbn.
  repeat case_bool_decide; cbn; intros [= <-]; cbn; split_and!; try done; repeat rewrite bool_decide_false by done; done.
Qed.

Lemma profile_credentials_whole p label timeout :
  yields (credentials_from_aws_profile p label timeout) whole_pair.
Proof.
  unfold credentials_from_aws_profile. destruct (_ || _); [apply yields_throw|]. destruct (_ || _); [apply yields_throw|].
  destruct (is_set _).
  - apply yields_then. intros text. cbv zeta. set (c := aws_json_credentials text).
    destruct (both_keys c) eqn:E; unfold both_keys in E; rewrite E; cbn [negb]; [|apply yields_throw].
    apply yields_ret. exact (both_keys_whole c E).
  - cbv zeta. set (c := ProviderCredentials_default <| access_key_id := _ |> <| secret_access_key := _ |> <| session_token := _ |> <| cred_region := _ |>).
    destruct (half_pair c) eqn:E; [apply yields_throw|by apply yields_ret].
Qed.

(** [whole_and_fresh] says yes only to three keys and a date to come. *)
Definition temporary (c : ProviderCredentials) : Prop :=
  both_keys c = true /\ is_set (session_token c) = true /\ exists n, clock n < expires_at c.

Lemma whole_and_fresh_spec c : yields (whole_and_fresh c) (fun whole => whole = true -> temporary c).
Proof.
  unfold whole_and_fresh, temporary, both_keys.
  destruct (is_set (access_key_id c) && is_set (secret_access_key c)) eqn:E; cbn [andb negb]; [|by apply yields_ret].
  destruct (is_set (session_token c)); cbn [negb]; [|by apply yields_ret].
  intros w whole w' (now & w1 & [= <- _] & [= <- _])%loader_bind_ok. intros Hlt%Z.ltb_lt. split_and!; [done..|by eexists].
Qed.

Lemma whole_and_fresh_asks_nothing c w r w' : whole_and_fresh c w = (r, w') -> requests w' = requests w.
Proof. unfold whole_and_fresh. destruct (negb _); by intros [= _ <-]. Qed.

Lemma web_identity_whole role token_file session endpoint http :
  yields (aws_web_identity role token_file session endpoint http) temporary.
Proof.
  unfold aws_web_identity. apply yields_then. intros token. apply yields_then. intros name. apply yields_then. intros response.
  destruct (negb _); [apply yields_throw|]. cbv zeta. set (c := ProviderCredentials_default <| access_key_id := _ |> <| secret_access_key := _ |> <| session_token := _ |> <| expires_at := _ |>).
  eapply yields_bind; [apply (whole_and_fresh_spec c)|]. intros [] Hw; cbn [negb]; [|apply yields_throw].
  apply yields_ret. by apply Hw.
Qed.

Lemma container_whole config path url : yields (container_credentials config path url) temporary.
Proof.
  unfold container_credentials. destruct (negb _); [apply yields_throw|]. apply yields_then. intros authorization.
  apply yields_then. intros response. destruct (negb _); [apply yields_throw|].
  eapply yields_bind; [apply whole_and_fresh_spec|]. intros [] Hw; cbn [negb]; [|apply yields_throw].
  apply yields_ret. by apply Hw.
Qed.

Lemma instance_whole config timeout :
  yields (instance_credentials config timeout) (fun c => forall c', c = Some c' -> temporary c').
Proof.
  unfold instance_credentials. apply yields_then. intros token. destruct (success_of token); [|by apply yields_ret].
  apply yields_then. intros role. destruct (success_of role); [|by apply yields_ret].
  apply yields_then. intros response. destruct (success_of response); [|by apply yields_ret].
  eapply yields_bind; [apply whole_and_fresh_spec|]. intros [] Hw; apply yields_ret; [intros c' [= <-]; by apply Hw|done].
Qed.

Lemma ambient_whole config path : yields (ambient_aws_credentials config path) whole_pair.
Proof.
  unfold ambient_aws_credentials. cbv zeta. destruct (is_set _).
  { intros w c w' E. apply both_keys_whole. by eapply container_whole in E as [? _]. }
  destruct (from_chars_all _ _ _) as [timeout|]; [|apply yields_throw]. destruct (_ || _); [apply yields_throw|].
  destruct (_ && _); [|by apply yields_ret]. eapply yields_bind; [apply instance_whole|].
  intros [c|] Hc; apply yields_ret; [|done]. by apply both_keys_whole, (Hc c).
Qed.

Lemma aws_whole config path : yields (load_aws_credentials config path) whole_pair.
Proof.
  unfold load_aws_credentials. eapply yields_bind.
  { apply yields_lift. intros r Hr. exact (direct_keys_spec _ _ _ _ _ _ _ Hr). }
  intros [direct|] Hd; [apply yields_ret, both_keys_whole, Hd|].
  apply yields_then. intros p. destruct (_ && _); [apply yields_throw|]. cbv zeta. destruct (_ && _).
  - eapply yields_bind; [apply web_identity_whole|]. intros c [Hc _]. apply yields_ret.
    exact (both_keys_whole c Hc).
  - destruct (is_set _); [apply yields_throw|]. eapply yields_bind; [apply profile_credentials_whole|].
    intros c Hc. destruct (is_set _); [by apply yields_ret|apply ambient_whole].
Qed.

Lemma source_whole config path : yields (load_source_credentials config path) (fun c => both_keys c = true).
Proof.
  unfold load_source_credentials. eapply yields_bind.
  { apply yields_lift. intros r Hr. exact (direct_keys_spec _ _ _ _ _ _ _ Hr). }
  intros [direct|] Hd; [apply yields_ret, Hd|]. apply yields_then. intros p.
  destruct (negb _); [apply yields_throw|]. apply yields_then. intros c.
  destruct (is_set (access_key_id c) && is_set (secret_access_key c)) eqn:E; cbn [negb]; [by apply yields_ret|apply yields_throw].
Qed.

(** ** Where a container's credentials come from *)

(** An authority on this machine or of the container service. *)
Definition local_authority (a : str) : Prop :=
  "@"%char ∉ a /\ exists host port, lower host ∈ local_hosts /\ (port = [] \/ exists p, port = ":"%char :: p) /\
    (a = host ++ port \/ a = $"[" ++ host ++ $"]" ++ port).

Lemma authority_host_spec a host : authority_host a = Some host ->
  exists port, (port = [] \/ exists p, port = ":"%char :: p) /\ (a = host ++ port \/ a = $"[" ++ host ++ $"]" ++ port).
Proof.
  unfold authority_host. destruct (starts_with a $"[") eqn:Eb.
  - apply starts_with_drop in Eb. destruct (find_char a "]") as [closing|] eqn:Ec; [|done]. cbn [mbind option_bind].
    apply find_char_Some in Ec as (l & r & -> & <- & Hl).
    destruct l as [|b l]; [cbn in Eb; discriminate|]. assert (b = "["%char) as -> by (cbn in Eb; by injection Eb).
    rewrite lookup_app_r by lia. replace (length ("["%char :: l) + 1 - length ("["%char :: l))%nat with 1%nat by lia.
    cbn [lookup list_lookup].
    assert (Hh : substr (("["%char :: l) ++ "]"%char :: r) 1 (length ("["%char :: l) - 1) = l).
    { replace (length ("["%char :: l) - 1)%nat with (length l) by (cbn; lia). unfold substr. cbn [app drop].
      rewrite drop_0. apply take_app_length. }
    rewrite Hh. destruct r as [|c r]; cbn.
    + intros [= <-]. exists []. split; [by left|by right].
    + destruct (Ascii.eqb_spec c ":") as [->|]; cbn; [|done]. intros [= <-]. exists (":"%char :: r).
      split; [right; by eexists|by right].
  - intros [= <-]. destruct (find_char a ":") as [colon|] eqn:Ec; cbn [take_to].
    + apply find_char_Some in Ec as (l & r & -> & <- & Hl). exists (":"%char :: r). rewrite take_app_length.
      split; [right; by eexists|by left].
    + exists []. split; [by left|left; by rewrite app_nil_r].
Qed.

Lemma not_contains_char s c : contains s [c] = false -> c ∉ s.
Proof.
  unfold contains. rewrite bool_decide_eq_false. intros Hno Hin. apply Hno.
  apply list_elem_of_split in Hin as (l & r & ->). clear Hno. induction l as [|d l IH].
  - exists 0%nat. cbn. by rewrite Ascii.eqb_refl.
  - destruct IH as [i Hi]. cbn [app find_str]. destruct (starts_with _ _); [by eexists|]. rewrite Hi. by eexists.
Qed.

Lemma safe_endpoint_spec url : safe_container_endpoint url = true ->
  exists p, split_url url = Ok p /\ (lower (scheme p) = $"https" \/ (lower (scheme p) = $"http" /\ local_authority (authority p))).
Proof.
  unfold safe_container_endpoint. destruct (split_url url) as [p|]; [|done]. intros E. exists p. split; [done|].
  destruct (str_eqb (lower (scheme p)) $"https") eqn:Es; [left; by apply str_eqb_eq|right].
  destruct (negb _ || _) eqn:Eh; [done|]. apply orb_false_iff in Eh as [Eh%negb_false_iff%str_eqb_eq Hat].
  split; [done|]. split; [by apply not_contains_char|].
  destruct (authority_host (authority p)) as [host|] eqn:Ea; [|done]. apply bool_decide_eq_true in E.
  destruct (authority_host_spec _ _ Ea) as (port & Hp & Hcase). by exists host, port.
Qed.
End LoaderSpec.

(** ** Properties *)

Section LoaderProperties.
Context `{Platform} `{Outside}.
Variable config : ConfigSnapshot.
Variable path : str.

(** C32: no half credentials: whatever the files, the commands, the endpoints
    and the clock answer, the keys an AWS loader returns are a pair or none at
    all (then the request is anonymous or another provider's), and the Source
    loader's are always a pair. *)
Theorem loaded_keys_are_whole w c w' :
  (load_aws_credentials config path w = (Ok c, w') ->
   access_key_id c = [] <-> secret_access_key c = []) /\
  (load_source_credentials config path w = (Ok c, w') ->
   access_key_id c <> [] /\ secret_access_key c <> []).
Proof.
  split; intros E.
  - apply aws_whole in E. unfold whole_pair, half_pair, is_set, str_eqb in E. by repeat case_bool_decide.
  - apply source_whole in E. unfold both_keys, is_set, str_eqb in E. by repeat case_bool_decide.
Qed.

(** Configured keys come first and alone: when an access key or a secret
    is configured, the loader returns exactly the configured values, or
    refuses half a pair, without reading a file, the clock or the network and
    without running a command. *)
Theorem configured_keys_come_first w :
  let option name := option_ config path name [] in
  let used key secret token message :=
    if is_set (option key) && is_set (option secret) then
      Ok (ProviderCredentials_default <| access_key_id := option key |>
            <| secret_access_key := option secret |> <| session_token := option token |>)
    else Err (credentials_error (path ++ message)) in
  (option $"AWS_ACCESS_KEY_ID" <> [] \/ option $"AWS_SECRET_ACCESS_KEY" <> [] ->
   load_aws_credentials config path w =
     (used $"AWS_ACCESS_KEY_ID" $"AWS_SECRET_ACCESS_KEY" $"AWS_SESSION_TOKEN"
        $": AWS access key and secret must be set together", w)) /\
  (option $"SOURCE_ACCESS_KEY_ID" <> [] \/ option $"SOURCE_SECRET_ACCESS_KEY" <> [] ->
   load_source_credentials config path w =
     (used $"SOURCE_ACCESS_KEY_ID" $"SOURCE_SECRET_ACCESS_KEY" $"SOURCE_SESSION_TOKEN"
        $": Source access key and secret must be set together", w)).
Proof.
  cbv zeta. split; intros Hset.
  - unfold load_aws_credentials, mbind, loader_bind, lift, direct_keys, half_pair, is_set, str_eqb. cbn [access_key_id secret_access_key update].
    cbn. repeat case_bool_decide; cbn; try done; tauto.
  - unfold load_source_credentials, mbind, loader_bind, lift, direct_keys, half_pair, is_set, str_eqb.
    cbn. repeat case_bool_decide; cbn; try done; tauto.
Qed.

(** C33: container credentials are asked for over HTTPS, or of this machine or
    the container service: the loader makes at most one request, to the given
    URL and without following redirects, and only when the URL's scheme is
    HTTPS or its host is one of the four local ones, with no user information;
    what it returns is a pair with its session token that had not expired. *)
Theorem container_credentials_stay_local url w r w' :
  container_credentials config path url w = (r, w') ->
  (forall c, r = Ok c -> both_keys c = true /\ session_token c <> [] /\ exists n, clock n < expires_at c) /\
  (requests w' = requests w \/
   exists easy p, requests w' = requests w ++ [easy] /\
     setting easy URL = Some (CString (c_str url)) /\ setting easy FOLLOWLOCATION = None /\
     split_url url = Ok p /\
     (lower (scheme p) = $"https" \/ (lower (scheme p) = $"http" /\ local_authority (authority p)))).
Proof.
  intros E. split.
  { intros c ->. apply container_whole in E as (H1 & H2 & H3). unfold is_set, str_eqb in H2. by case_bool_decide. }
  unfold container_credentials in E. destruct (safe_container_endpoint url) eqn:Es; cbn [negb] in E; [|left; by injection E as _ <-].
  apply safe_endpoint_spec in Es as (p & Hp & Hs).
  apply loader_bind_cases in E as [(e & E & _)|(authorization & w1 & E1 & E)].
  { left. destruct (_ && _); [|by injection E as [=]].
    apply loader_bind_cases in E as [(? & E & _)|(? & ? & _ & E)]; [by injection E as _ <-|discriminate E]. }
  assert (w1 = w) as ->.
  { destruct (_ && _); [|by injection E1 as _ <-].
    apply loader_bind_cases in E1 as [(? & E1 & _)|(? & ? & E1 & E2)]; [by injection E1 as _ <-|].
    injection E1 as _ <-. by injection E2 as _ <-. }
  assert (Hone : forall resp w2, credential_request $"GET" url [] (if is_set authorization then [($"Authorization", authorization)] else []) 2 (http_ config) w = (resp, w2) ->
    requests w2 = requests w \/ exists easy, requests w2 = requests w ++ [easy] /\
      setting easy URL = Some (CString (c_str url)) /\ setting easy FOLLOWLOCATION = None).
  { intros resp w2 (_ & _ & [[? _]|(easy & ? & (? & _ & ? & _) & _)])%credential_request_spec; [by left|right]. by exists easy. }
  assert (Hend : exists resp w2, credential_request $"GET" url [] (if is_set authorization then [($"Authorization", authorization)] else []) 2 (http_ config) w = (resp, w2) /\ requests w' = requests w2).
  { apply loader_bind_cases in E as [(e & E & _)|(response & w2 & E2 & E)]; [by exists (Err e), w'|].
    exists (Ok response), w2. split; [exact E2|].
    destruct (negb (is_success response)); [by injection E as _ <-|]. revert E.
    intros [(e & E3 & _)|(whole & w3 & E3 & E4)]%loader_bind_cases; [by eapply whole_and_fresh_asks_nothing|].
    apply whole_and_fresh_asks_nothing in E3. rewrite <-E3. destruct (negb whole); by injection E4 as _ <-. }
  destruct Hend as (resp & w2 & E2 & Hw). rewrite Hw. destruct (Hone _ _ E2) as [?|(easy & ? & ? & ?)]; [by left|right].
  by exists easy, p.
Qed.
End LoaderProperties.

(** *** Witnesses *)

#[local] Existing Instance toy_platform.
#[local] Existing Instance example_outside.

Definition with_options (options : list (str * str)) : ConfigSnapshot :=
  empty_snapshot <| explicit_ := list_to_map options |>.
Definition container_config : ConfigSnapshot :=
  with_options [($"AWS_CONTAINER_CREDENTIALS_FULL_URI", $"http://localhost:8080/keys");
                ($"SOURCE_ACCESS_KEY_ID", $"SKID"); ($"SOURCE_SECRET_ACCESS_KEY", $"shh")].
Definition half_config : ConfigSnapshot := with_options [($"AWS_ACCESS_KEY_ID", $"AKID")].

Lemma loaded_keys_are_whole_witness :
  exists c w', load_aws_credentials container_config $"s3://b/k" new_world = (Ok c, w') /\
    access_key_id c = $"AKIA" /\ secret_access_key c <> [] /\ length (requests w') = 1%nat.
Proof.
  assert (exists c w', load_aws_credentials container_config $"s3://b/k" new_world = (Ok c, w') /\
    access_key_id c = $"AKIA" /\ length (requests w') = 1%nat) as (c & w' & E & Hk & Hr)
    by (eexists _, _; split; [vm_compute; reflexivity|split; reflexivity]).
  exists c, w'. split; [exact E|]. split; [exact Hk|]. split; [|exact Hr].
  destruct (loaded_keys_are_whole container_config $"s3://b/k" new_world c w') as [Haws _].
  intros Hs. apply (Haws E) in Hs. rewrite Hk in Hs. discriminate Hs.
Defined.

Lemma configured_keys_come_first_witness :
  load_source_credentials container_config $"source://a/b" new_world
    = (Ok (ProviderCredentials_default <| access_key_id := $"SKID" |> <| secret_access_key := $"shh" |>), new_world) /\
  load_aws_credentials half_config $"s3://b/k" new_world
    = (Err (credentials_error $"s3://b/k: AWS access key and secret must be set together"), new_world).
Proof.
  split.
  - destruct (configured_keys_come_first container_config $"source://a/b" new_world) as [_ Hs].
    rewrite Hs; [vm_compute; reflexivity|left; vm_compute; discriminate].
  - destruct (configured_keys_come_first half_config $"s3://b/k" new_world) as [Ha _].
    rewrite Ha; [vm_compute; reflexivity|left; vm_compute; discriminate].
Defined.

Lemma container_credentials_stay_local_witness :
  (exists c w', container_credentials container_config $"s3://b/k" $"http://[::1]:80/keys" new_world = (Ok c, w') /\
    both_keys c = true) /\
  forall w r w', container_credentials container_config $"s3://b/k" $"http://localhost.evil.org/keys" w = (r, w') ->
    requests w' = requests w.
Proof.
  split.
  - assert (exists c w', container_credentials container_config $"s3://b/k" $"http://[::1]:80/keys" new_world = (Ok c, w'))
      as (c & w' & E) by (eexists _, _; vm_compute; reflexivity).
    exists c, w'. split; [exact E|].
    exact (proj1 (proj1 (container_credentials_stay_local container_config $"s3://b/k" $"http://[::1]:80/keys" new_world
      (Ok c) w' E) c eq_refl)).
  - intros w r w' E. injection E as _ <-. reflexivity.
Defined.
