(* ===== verification/TokenLoaders.v ===== *)
(** * TokenLoaders: the loaders that exchange tokens

    Models [src/src/backends/azure_credentials.cpp] and
    [gcs_credentials.cpp], in the monad of [CredentialRequest].  OpenSSL's
    reading of a private key and its signature are an argument.  The theorems
    show when a loader asks the outside at all, and that an assertion signed
    for a service account is the text that was meant. *)

From S2P Require Import Prelude Text Uri Types Planner Response CurlSetup Process Config Backends Credentials CredentialRequest Loaders.

(** What signing with OpenSSL comes to: the step that fails, or the bytes. *)
Inductive RsaAnswer :=
| NoKeyReader | InvalidKey | NoSigner | CannotInitialize | CannotSize | CannotSign | Signature (bytes : str).

Section TokenLoaders.
Context `{Platform} `{Outside}.
(** Private key and message. *)
Variable rsa_answer : str -> str -> RsaAnswer.

(** ** [azure_credentials.cpp] *)

(** The application/x-www-form-urlencoded grant of a service principal. *)
Definition azure_grant (secret assertion : str) (federated : bool) : str :=
  if federated then
    $"&client_assertion_type=urn%3Aietf%3Aparams%3Aoauth%3Aclient-assertion-type%3Ajwt-bearer"
    ++ $"&client_assertion=" ++ form_encode assertion
  else $"&client_secret=" ++ form_encode secret.

Definition azure_service_principal (config : ConfigSnapshot) (path tenant client secret federated_file : str)
    : Loader ProviderCredentials :=
  assertion ← (if is_set federated_file then
                 loaded ← lift (read_text_file federated_file $"Azure federated token"); mret (trim loaded)
               else mret []);
  let grant := azure_grant secret assertion (is_set federated_file) in
  let authority := without_trailing_slash
    (option_ config path $"AZURE_AUTHORITY_HOST" $"https://login.microsoftonline.com") in
  let scope := option_ config path $"AZURE_STORAGE_SCOPE" $"https://storage.azure.com/.default" in
  oauth_token (authority ++ $"/" ++ form_encode tenant ++ $"/oauth2/v2.0/token")
    ($"client_id=" ++ form_encode client ++ grant ++ $"&scope=" ++ form_encode scope
     ++ $"&grant_type=client_credentials") [] (http_ config).

Record IdentitySelector := mkSelector { is_object : str; is_client : str; is_resource : str }.
Definition selector_count (s : IdentitySelector) : nat :=
  length (List.filter is_set [is_object s; is_client s; is_resource s]).
Definition add_identity_selector (s : IdentitySelector) (url : str) : str :=
  if is_set (is_object s) then url ++ $"&object_id=" ++ form_encode (is_object s)
  else if is_set (is_client s) then url ++ $"&client_id=" ++ form_encode (is_client s)
  else if is_set (is_resource s) then url ++ $"&msi_res_id=" ++ form_encode (is_resource s)
  else url.

(** An endpoint with its first parameters. *)
Definition with_query (endpoint parameters : str) : str :=
  endpoint ++ (if contains endpoint $"?" then $"&" else $"?") ++ parameters.

(** A managed identity's answer: a token, or none; the clock is read whether
    or not the answer has an expiry. *)
Definition managed_identity (response : HttpResponse) : Loader ProviderCredentials :=
  now ← time_now;
  mret (with_bearer (json_or (hr_body response) $"access_token" [])
          (default (now + 3600) (json_integer (hr_body response) $"expires_on"))).

Definition app_service_identity (config : ConfigSnapshot) (path endpoint resource : str) (s : IdentitySelector)
    : Loader ProviderCredentials :=
  let url := add_identity_selector s
    (with_query endpoint ($"api-version=2019-08-01&resource=" ++ form_encode resource)) in
  let identity_header := option_ config path $"IDENTITY_HEADER" [] in
  let headers := if is_set identity_header then [($"X-IDENTITY-HEADER", identity_header)] else [] in
  response ← credential_request $"GET" url [] headers 2 (http_ config);
  if negb (is_success response) then
    throw KARU_ERR_CREDENTIALS
      (concat [Text $"Azure App Service identity returned HTTP "; Integer (hr_status response)])
  else
    result ← managed_identity response;
    if is_set (bearer_token result) then mret result
    else throw KARU_ERR_CREDENTIALS $"Azure App Service identity response has no access token".

(** A response of a metadata service: its failure counts only when the
    service's endpoint is configured. *)
Definition metadata_response (configured : bool) (message : str) (m : Loader HttpResponse)
    : Loader (option HttpResponse) :=
  response ← attempt m;
  match response with
  | Err e => if configured then lift (Err e) else mret None
  | Ok response =>
      if is_success response then mret (Some response)
      else if configured then throw KARU_ERR_CREDENTIALS (concat [Text message; Integer (hr_status response)])
      else mret None
  end.

Definition azure_instance_identity (config : ConfigSnapshot) (path resource : str) (s : IdentitySelector)
    (direct : ProviderCredentials) : Loader ProviderCredentials :=
  let configured := has_option config path $"IMDS_ENDPOINT" in
  let endpoint := option_ config path $"IMDS_ENDPOINT" $"http://169.254.169.254/metadata/identity/oauth2/token" in
  let url := add_identity_selector s
    (with_query endpoint ($"api-version=2018-02-01&resource=" ++ form_encode resource)) in
  response ← metadata_response configured $"Azure managed identity endpoint returned HTTP "
               (credential_request $"GET" url [] [($"Metadata", $"true")] 1 (http_ config));
  match response with
  | None => mret direct
  | Some response =>
      result ← managed_identity response;
      if is_set (bearer_token result) then mret result
      else if configured then
        throw KARU_ERR_CREDENTIALS $"Azure managed identity endpoint response has no access token"
      else mret direct
  end.

Definition azure_direct (config : ConfigSnapshot) (path : str) : ProviderCredentials :=
  ProviderCredentials_default
    <| account_name := option_ config path $"AZURE_STORAGE_ACCOUNT" [] |>
    <| secret_access_key := option_ config path $"AZURE_STORAGE_ACCESS_KEY" [] |>
    <| sas_token := option_ config path $"AZURE_STORAGE_SAS_TOKEN" [] |>
    <| bearer_token := option_ config path $"AZURE_STORAGE_ACCESS_TOKEN" [] |>.

Definition load_azure_credentials (config : ConfigSnapshot) (path : str) : Loader ProviderCredentials :=
  let direct := azure_direct config path in
  if has_option config path $"AZURE_STORAGE_CONNECTION_STRING"
     || is_set (sas_token direct) || is_set (bearer_token direct) || is_set (secret_access_key direct)
  then mret direct
  else
    let tenant := option_ config path $"AZURE_TENANT_ID" [] in
    let client := option_ config path $"AZURE_CLIENT_ID" [] in
    let secret := option_ config path $"AZURE_CLIENT_SECRET" [] in
    let federated_file := expand_user_path config (option_ config path $"AZURE_FEDERATED_TOKEN_FILE" []) in
    if is_set tenant && is_set client && (is_set secret || is_set federated_file) then
      azure_service_principal config path tenant client secret federated_file
    else
      let resource := option_ config path $"AZURE_STORAGE_RESOURCE" $"https://storage.azure.com/" in
      let s := mkSelector (option_ config path $"AZURE_IMDS_OBJECT_ID" [])
                 (option_ config path $"AZURE_IMDS_CLIENT_ID" client)
                 (option_ config path $"AZURE_IMDS_MSI_RES_ID" []) in
      if (1 <? selector_count s)%nat then
        throw KARU_ERR_CONFIG
          $"set only one Azure managed-identity selector: object ID, client ID, or resource ID"
      else
        let identity_endpoint := option_ config path $"IDENTITY_ENDPOINT" [] in
        if is_set identity_endpoint then app_service_identity config path identity_endpoint resource s
        else if negb (discover_default_credentials_ config) && negb (has_option config path $"IMDS_ENDPOINT")
        then mret direct
        else azure_instance_identity config path resource s direct.

(** ** [gcs_credentials.cpp] *)

(** Every backslash and n becomes a line end; carriage returns go. *)
Fixpoint unescape_newlines (s : str) : str :=
  match s with
  | [] => []
  | c :: s' =>
      match s' with
      | d :: rest =>
          if Ascii.eqb c BACKSLASH && Ascii.eqb d "n" then LF :: unescape_newlines rest
          else c :: unescape_newlines s'
      | [] => [c]
      end
  end.
Definition normalize_pem (s : str) : str :=
  List.filter (fun c => negb (Ascii.eqb c "013")) (unescape_newlines s).

Fixpoint strip_padding (fuel : nat) (s : str) : str :=
  match fuel with
  | O => s
  | S fuel => if ends_with s $"=" then strip_padding fuel (removelast s) else s
  end.
Definition base64url (bytes : str) : str :=
  let result := map (fun c => if Ascii.eqb c "+" then "-"%char else if Ascii.eqb c "/" then "_"%char else c)
                  (base64 bytes) in
  strip_padding (length result) result.

Definition rsa_sha256 (private_key message : str) : expected RequestError str :=
  match rsa_answer private_key message with
  | NoKeyReader => Err {| err_status := KARU_ERR_NOMEM; err_message := $"cannot allocate key reader" |}
  | InvalidKey => Err (credentials_error $"service account private_key is invalid")
  | NoSigner => Err {| err_status := KARU_ERR_NOMEM; err_message := $"cannot allocate signer" |}
  | CannotInitialize => Err (credentials_error $"cannot initialize service account signature")
  | CannotSize => Err (credentials_error $"cannot size service account signature")
  | CannotSign => Err (credentials_error $"cannot sign service account assertion")
  | Signature bytes => Ok (base64url bytes)
  end.

Definition quote (s : str) : str := QUOTE :: s ++ [QUOTE].
Definition jwt_header : str :=
  $"{" ++ quote $"alg" ++ $":" ++ quote $"RS256" ++ $"," ++ quote $"typ" ++ $":" ++ quote $"JWT" ++ $"}".
Definition jwt_claims (email scope token_uri : str) (now : Z) : str :=
  $"{" ++ quote $"iss" ++ $":" ++ quote (json_escape email) ++ $"," ++ quote $"scope" ++ $":"
  ++ quote (json_escape scope) ++ $"," ++ quote $"aud" ++ $":" ++ quote (json_escape token_uri)
  ++ $"," ++ quote $"iat" ++ $":" ++ to_string now ++ $"," ++ quote $"exp" ++ $":" ++ to_string (now + 3600) ++ $"}".

Definition gcs_scope (config : ConfigSnapshot) (path : str) : str :=
  option_ config path $"GCS_SCOPE" $"https://www.googleapis.com/auth/devstorage.read_only".
Definition google_token_uri : str := $"https://oauth2.googleapis.com/token".

Definition gcs_service_account_values (email private_key token_uri scope : str) (options : HttpRequestOptions)
    : Loader ProviderCredentials :=
  if negb (is_set email && is_set private_key) then
    throw KARU_ERR_CREDENTIALS $"GCS service_account JSON is incomplete"
  else
    now ← time_now;
    let unsigned_assertion := base64url jwt_header ++ $"." ++ base64url (jwt_claims email scope token_uri now) in
    signature ← lift (rsa_sha256 private_key unsigned_assertion);
    oauth_token token_uri
      ($"grant_type=urn%3Aietf%3Aparams%3Aoauth%3Agrant-type%3Ajwt-bearer&assertion="
       ++ form_encode (unsigned_assertion ++ $"." ++ signature)) [] options.

Definition gcs_service_account (json : str) (config : ConfigSnapshot) (path : str) : Loader ProviderCredentials :=
  match json_string json $"client_email", json_string json $"private_key" with
  | Some email, Some private_key =>
      gcs_service_account_values email (normalize_pem private_key)
        (json_or json $"token_uri" google_token_uri) (gcs_scope config path) (http_ config)
  | _, _ => throw KARU_ERR_CREDENTIALS $"GCS service_account JSON is incomplete"
  end.

Definition gcs_authorized_user (json : str) (config : ConfigSnapshot) (path : str) : Loader ProviderCredentials :=
  let client_id := option_ config path $"GCS_CLIENT_ID" (json_or json $"client_id" []) in
  let client_secret := option_ config path $"GCS_CLIENT_SECRET" (json_or json $"client_secret" []) in
  let refresh_token := option_ config path $"GCS_REFRESH_TOKEN" (json_or json $"refresh_token" []) in
  let token_uri := json_or json $"token_uri" google_token_uri in
  if negb (is_set client_id && is_set client_secret && is_set refresh_token) then
    throw KARU_ERR_CREDENTIALS $"GCS authorized_user credentials are incomplete"
  else
    oauth_token token_uri
      ($"client_id=" ++ form_encode client_id ++ $"&client_secret=" ++ form_encode client_secret
       ++ $"&refresh_token=" ++ form_encode refresh_token ++ $"&grant_type=refresh_token") [] (http_ config).

(** The subject token of an external account: from a file or an endpoint, and
    out of a field of it when one is named. *)
Definition external_subject (json : str) (config : ConfigSnapshot) (subject_file subject_url : option str)
    : Loader str :=
  match subject_file with
  | Some file =>
      loaded ← lift (read_text_file (expand_user_path config file) $"GCS external account subject token");
      mret (trim loaded)
  | None =>
      loaded ← credential_request $"GET" (default [] subject_url) [] [] 5 (http_ config);
      if is_success loaded then mret (trim (hr_body loaded))
      else throw KARU_ERR_CREDENTIALS $"GCS external account subject endpoint failed"
  end.

Definition subject_field (json subject : str) : expected RequestError str :=
  let field := json_or json $"subject_token_field_name" [] in
  if is_set field then
    match json_string subject field with
    | None | Some [] =>
        Err (credentials_error $"GCS external account response has no configured subject token field")
    | Some extracted => Ok extracted
    end
  else Ok subject.

(** Impersonate a service account with an exchanged token. *)
Definition gcs_impersonate (url scope token : str) (http : HttpRequestOptions) : Loader ProviderCredentials :=
  response ← credential_request $"POST" url
    ($"{" ++ quote $"scope" ++ $":[" ++ quote (json_escape scope) ++ $"]," ++ quote $"lifetime" ++ $":"
     ++ quote $"3600s" ++ $"}")
    [($"Authorization", $"Bearer " ++ token); ($"Content-Type", $"application/json")] 5 http;
  if negb (is_success response) then
    throw KARU_ERR_CREDENTIALS $"GCS service account impersonation failed"
  else
    let result := with_bearer (json_or (hr_body response) $"accessToken" [])
                    (iso8601_epoch (json_or (hr_body response) $"expireTime" [])) in
    if negb (is_set (bearer_token result)) then
      throw KARU_ERR_CREDENTIALS $"GCS impersonation response has no token"
    else
      now ← time_now;
      if expires_at result <=? now then throw KARU_ERR_CREDENTIALS $"GCS impersonation response has no token"
      else mret result.

Definition gcs_external_account (json : str) (config : ConfigSnapshot) (path : str) : Loader ProviderCredentials :=
  let token_url := json_or json $"token_url" $"https://sts.googleapis.com/v1/token" in
  let subject_file := json_string json $"file" in
  let subject_url := json_string json $"url" in
  let scope := gcs_scope config path in
  match json_string json $"audience", json_string json $"subject_token_type" with
  | Some audience, Some subject_type =>
      if bool_decide (subject_file = None) && bool_decide (subject_url = None) then
        throw KARU_ERR_CREDENTIALS $"GCS external_account credential_source is incomplete"
      else
        token ← external_subject json config subject_file subject_url;
        subject ← lift (subject_field json token);
        exchanged ← oauth_token token_url
          ($"audience=" ++ form_encode audience
           ++ $"&grant_type=urn%3Aietf%3Aparams%3Aoauth%3Agrant-type%3Atoken-exchange"
           ++ $"&requested_token_type=urn%3Aietf%3Aparams%3Aoauth%3Atoken-type%3Aaccess_token"
           ++ $"&scope=" ++ form_encode scope ++ $"&subject_token_type=" ++ form_encode subject_type
           ++ $"&subject_token=" ++ form_encode subject) [] (http_ config);
        match json_string json $"service_account_impersonation_url" with
        | None | Some [] => mret exchanged
        | Some impersonation => gcs_impersonate impersonation scope (bearer_token exchanged) (http_ config)
        end
  | _, _ => throw KARU_ERR_CREDENTIALS $"GCS external_account credential_source is incomplete"
  end.

(** The file of application default credentials, if there is one. *)
Definition adc_file (config : ConfigSnapshot) (path : str) : expected RequestError str :=
  let explicit := expand_user_path config (option_ config path $"GOOGLE_APPLICATION_CREDENTIALS" []) in
  if is_set explicit then Ok explicit
  else
    let cloud_config := expand_user_path config (option_ config path $"CLOUDSDK_CONFIG" []) in
    let candidate :=
      if is_set cloud_config then without_trailing_slash cloud_config ++ $"/application_default_credentials.json"
      else default_gcloud_adc_path config in
    if is_set candidate then
      exists_ ← path_exists candidate $"Google application credentials";
      Ok (if exists_ : bool then candidate else [])
    else Ok [].

Definition gcs_adc (config : ConfigSnapshot) (path adc_path : str) : Loader ProviderCredentials :=
  json ← lift (read_text_file adc_path $"Google application credentials");
  let type_ := json_or json $"type" [] in
  if str_eqb type_ $"service_account" then gcs_service_account json config path
  else if str_eqb type_ $"authorized_user" then gcs_authorized_user json config path
  else if str_eqb type_ $"external_account" then gcs_external_account json config path
  else throw KARU_ERR_CREDENTIALS ($"GOOGLE_APPLICATION_CREDENTIALS has unsupported type '" ++ type_ ++ $"'").

(** A key and an address given as options. *)
Definition gcs_configured_account (config : ConfigSnapshot) (path private_key private_key_file email : str)
    : Loader ProviderCredentials :=
  if is_set private_key && is_set private_key_file then
    throw KARU_ERR_CREDENTIALS $"set only one of GCS_PRIVATE_KEY and GCS_PRIVATE_KEY_FILE"
  else
    key ← (if negb (is_set private_key) && is_set private_key_file
           then lift (read_text_file private_key_file $"GCS OAuth private key") else mret private_key);
    if negb (is_set key && is_set email) then
      throw KARU_ERR_CREDENTIALS $"GCS_CLIENT_EMAIL and a GCS private key must be set together"
    else gcs_service_account_values email (normalize_pem key) google_token_uri (gcs_scope config path) (http_ config).

Definition gcs_metadata (config : ConfigSnapshot) (path : str) : Loader ProviderCredentials :=
  let configured := has_option config path $"GCS_METADATA_ENDPOINT" in
  let endpoint := option_ config path $"GCS_METADATA_ENDPOINT"
    ($"http://metadata.google.internal/computeMetadata/v1/instance/service-accounts/" ++ $"default/token") in
  response ← metadata_response configured $"GCS credential endpoint returned HTTP "
               (credential_request $"GET" endpoint [] [($"Metadata-Flavor", $"Google")] 1 (http_ config));
  match response with
  | None => mret ProviderCredentials_default
  | Some response =>
      now ← time_now;
      let result := with_bearer (json_or (hr_body response) $"access_token" [])
                      (now + default 3600 (json_integer (hr_body response) $"expires_in")) in
      if is_set (bearer_token result) then mret result
      else if configured then
        throw KARU_ERR_CREDENTIALS $"GCS credential endpoint response has no access token"
      else mret ProviderCredentials_default
  end.

Definition gcs_direct (config : ConfigSnapshot) (path : str) : ProviderCredentials :=
  ProviderCredentials_default
    <| bearer_token := option_ config path $"GCS_ACCESS_TOKEN" [] |>
    <| access_key_id := option_ config path $"GCS_HMAC_ACCESS_KEY_ID" [] |>
    <| secret_access_key := option_ config path $"GCS_HMAC_SECRET_ACCESS_KEY" [] |>.

Definition load_gcs_credentials (config : ConfigSnapshot) (path : str) : Loader ProviderCredentials :=
  let direct := gcs_direct config path in
  if is_set (bearer_token direct) then mret direct
  else if half_pair direct then
    throw KARU_ERR_CREDENTIALS (path ++ $": GCS HMAC access key and secret must be set together")
  else if is_set (access_key_id direct) then mret direct
  else if is_set (option_ config path $"GCS_REFRESH_TOKEN" []) then gcs_authorized_user $"{}" config path
  else
    adc_path ← lift (adc_file config path);
    if is_set adc_path then gcs_adc config path adc_path
    else
      let private_key := option_ config path $"GCS_PRIVATE_KEY" [] in
      let private_key_file := expand_user_path config (option_ config path $"GCS_PRIVATE_KEY_FILE" []) in
      let email := option_ config path $"GCS_CLIENT_EMAIL" [] in
      if is_set private_key || is_set private_key_file || is_set email then
        gcs_configured_account config path private_key private_key_file email
      else
        let metadata_configured := has_option config path $"GCS_METADATA_ENDPOINT"
                                   || has_option config path $"GCS_METADATA_DISABLED" in
        if (discover_default_credentials_ config || metadata_configured)
           && negb (option_is_true (option_ config path $"GCS_METADATA_DISABLED" $"NO"))
        then gcs_metadata config path else mret ProviderCredentials_default.
End TokenLoaders.

(** ** Properties *)

Section TokenProperties.
Context `{Platform} `{Outside}.
Variable rsa_answer : str -> str -> RsaAnswer.
Variable config : ConfigSnapshot.
Variable path : str.

(** C34: ambient credentials are an opt-in: with default discovery off and no
    option of the service, nothing is asked of an instance's metadata service:
    the AWS loader past its profile, the Azure loader and the Google loader
    end without a request, a command or a reading of the clock when no other
    source is configured. *)
Theorem discovery_is_opt_in w :
  discover_default_credentials_ config = false ->
  let unset name := has_option config path name = false in
  let empty name := option_ config path name [] = [] in
  (unset $"AWS_EC2_METADATA_DISABLED" -> empty $"AWS_CONTAINER_CREDENTIALS_FULL_URI" ->
   empty $"AWS_CONTAINER_CREDENTIALS_RELATIVE_URI" -> (ambient_aws_credentials config path w).2 = w) /\
  (unset $"IMDS_ENDPOINT" -> empty $"IDENTITY_ENDPOINT" -> empty $"AZURE_TENANT_ID" ->
   (load_azure_credentials config path w).2 = w) /\
  (unset $"GCS_METADATA_ENDPOINT" -> unset $"GCS_METADATA_DISABLED" -> empty $"GCS_REFRESH_TOKEN" ->
   adc_file config path = Ok [] -> empty $"GCS_PRIVATE_KEY" -> empty $"GCS_CLIENT_EMAIL" ->
   expand_user_path config (option_ config path $"GCS_PRIVATE_KEY_FILE" []) = [] ->
   (load_gcs_credentials rsa_answer config path w).2 = w).
Proof.
  intros Hd unset empty. subst unset empty. cbv beta. split_and!.
  - intros H1 H2 H3. unfold ambient_aws_credentials. rewrite H1, H2, H3, Hd. cbn [is_set str_eqb bool_decide negb].
    destruct (from_chars_all _ _ _); [|done]. destruct (_ || _); [done|]. by rewrite andb_false_r.
  - intros H1 H2 H3. unfold load_azure_credentials. cbv zeta. rewrite H1, H2, H3, Hd.
    destruct (_ || _); [done|]. cbn [is_set str_eqb negb andb]. by destruct (_ <? _)%nat.
  - intros H1 H2 H3 H4 H5 H6 H7. unfold load_gcs_credentials. cbv zeta. rewrite H1, H2, H3, H4, H5, H6, H7, Hd.
    destruct (is_set _); [done|]. destruct (half_pair _); [done|]. by destruct (is_set _).
Qed.

(** The assertion of a service account says what was meant: a JSON reader
    finds in its claims exactly the account, the scope and the audience it was
    made for, whatever characters they hold. *)
Theorem jwt_claims_read_back email scope token_uri now :
  let claims := jwt_claims email scope token_uri now in
  json_string claims $"iss" = Some email /\ json_string claims $"scope" = Some scope /\
  json_string claims $"aud" = Some token_uri.
Proof.
  intros claims.
  assert (Hkeys : plain_key $"iss" /\ plain_key $"scope" /\ plain_key $"aud")
    by (split_and!; (split; [done|apply key_chars; vm_compute; reflexivity])).
  destruct Hkeys as (H1 & H2 & H3).
  set (rest := quote $"iat" ++ $":" ++ to_string now ++ $"," ++ quote $"exp" ++ $":" ++ to_string (now + 3600) ++ $"}").
  set (plain := fun n v : str => mkMember (mkGaps [] [] [] []) n (JString v)).
  assert (claims = "{"%char :: json_member (plain $"iss" email) ++ ","%char :: json_member (plain $"scope" scope)
    ++ ","%char :: json_member (plain $"aud" token_uri) ++ ","%char :: rest) as ->.
  { subst claims rest. unfold jwt_claims, json_member, plain, quote.
    cbn [m_gaps m_name m_value g_name g_colon g_value g_end json_text_of String.list_ascii_of_string app].
    repeat first [rewrite <-app_assoc|progress cbn [app]]. done. }
  assert (Hf : forall name n v more, plain_key name -> plain_key n ->
    json_string (json_member (plain n v) ++ ","%char :: more) name = if str_eqb n name then Some v else json_string more name).
  { intros name n v more Hname [_ Hn]. rewrite scan_member; [done|done| |done]. by repeat (split || constructor). }
  split_and!; rewrite scan_skip by done; rewrite !Hf by done; reflexivity.
Qed.
End TokenProperties.

(** *** Witness *)

Lemma discovery_is_opt_in_witness :
  (@load_azure_credentials toy_platform example_outside empty_snapshot $"az://c/k" new_world).2 = new_world /\
  (@load_gcs_credentials toy_platform example_outside (fun _ _ => InvalidKey) empty_snapshot $"gs://b/k" new_world).2
    = new_world.
Proof.
  destruct (@discovery_is_opt_in toy_platform example_outside (fun _ _ => InvalidKey) empty_snapshot $"az://c/k" new_world eq_refl)
    as (_ & Hazure & _).
  destruct (@discovery_is_opt_in toy_platform example_outside (fun _ _ => InvalidKey) empty_snapshot $"gs://b/k" new_world eq_refl)
    as (_ & _ & Hgcs).
  split; [apply Hazure; reflexivity|apply Hgcs; reflexivity].
Defined.

(** With discovery on, the same configuration asks the metadata service. *)
Example discovery_asks :
  length (requests (@load_gcs_credentials toy_platform example_outside (fun _ _ => InvalidKey)
    (empty_snapshot <| discover_default_credentials_ := true |>) $"gs://b/k" new_world).2) = 1%nat.
Proof. vm_compute. reflexivity. Qed.

(** An expiry near the last 64-bit second overflows when it is added to the
    clock. *)
Example lifetime_overflows :
  I64_MAX < 1000 + Z.max (default 3600 (json_integer (QUOTE :: $"expires_in" ++ QUOTE :: $":9223372036854775807") $"expires_in")) 60.
Proof. vm_compute. reflexivity. Qed.
