(* ===== verification/CredentialCache.v ===== *)
(** * CredentialCache: reuse, single flight and invalidation

    Models [src/src/credential_cache.cpp] and [copy_callback_credentials] of
    [backends/credentials.cpp].  A lookup is two critical sections around the
    load, which runs without the lock: [*_begin] answers from the cache, joins
    the lookup of another thread, or starts one; [*_finish] stores and
    publishes its result.  Flights live in a table and are named by their
    index; the map [flights_] says which one is current for a key.  What a
    load answers is an argument. *)

From S2P Require Import Prelude Text Uri Types Planner Config Backends.

(** ** State *)

Abbreviation Loaded := (expected RequestError ProviderCredentials) (only parsing).

Record Entry := mkEntry { credentials_ : ProviderCredentials; refresh_at : Z }.
Record Flight := mkFlight { invalidated : bool; result_ : option Loaded }.
#[export] Instance Flight_eta : Eta Flight := fun r => mkFlight (invalidated r) (result_ r).

(** [Flight::done] *)
Definition done_ (f : Flight) : bool := match result_ f with Some _ => true | None => false end.

Record CredentialCache := mkCache {
  entries_ : gmap str Entry; flights_ : gmap str nat; table : list Flight;
}.
#[export] Instance CredentialCache_eta : Eta CredentialCache := fun r =>
  mkCache (entries_ r) (flights_ r) (table r).
Definition empty_cache : CredentialCache := mkCache ∅ ∅ [].

(** What a lookup does after its first critical section. *)
Inductive lookup_step :=
| Hit (c : ProviderCredentials)
| Join (flight : nat)
| Load (flight : nat).

(** ** Keys and times *)

Definition kStaticCredentialTtlSeconds : Z := 60.

Definition credential_family (source : str) (kind : Z) : str :=
  source ++ NL ++ to_string kind ++ NL.
Definition credential_key (family scope : str) : str := family ++ scope.

(** The credential options of each provider, in the order of its table. *)
Definition S3_CREDENTIAL_OPTIONS : list str :=
  [ $"AWS_ACCESS_KEY_ID"; $"AWS_SECRET_ACCESS_KEY"; $"AWS_SESSION_TOKEN"; $"AWS_PROFILE";
    $"AWS_SHARED_CREDENTIALS_FILE"; $"AWS_CONFIG_FILE"; $"AWS_ROLE_ARN"; $"AWS_STS_ENDPOINT";
    $"AWS_WEB_IDENTITY_TOKEN_FILE"; $"AWS_ROLE_SESSION_NAME";
    $"AWS_CONTAINER_CREDENTIALS_RELATIVE_URI"; $"AWS_CONTAINER_CREDENTIALS_FULL_URI";
    $"AWS_CONTAINER_AUTHORIZATION_TOKEN"; $"AWS_CONTAINER_AUTHORIZATION_TOKEN_FILE";
    $"AWS_EC2_METADATA_DISABLED"; $"AWS_METADATA_SERVICE_TIMEOUT" ].
Definition GCS_CREDENTIAL_OPTIONS : list str :=
  [ $"GCS_HMAC_ACCESS_KEY_ID"; $"GCS_HMAC_SECRET_ACCESS_KEY"; $"GCS_ACCESS_TOKEN";
    $"GCS_REFRESH_TOKEN"; $"GCS_CLIENT_ID"; $"GCS_CLIENT_SECRET"; $"GCS_PRIVATE_KEY";
    $"GCS_PRIVATE_KEY_FILE"; $"GCS_CLIENT_EMAIL"; $"GCS_SCOPE"; $"GOOGLE_APPLICATION_CREDENTIALS";
    $"CLOUDSDK_CONFIG"; $"GCS_METADATA_DISABLED"; $"GCS_METADATA_ENDPOINT" ].
Definition AZURE_CREDENTIAL_OPTIONS : list str :=
  [ $"AZURE_STORAGE_CONNECTION_STRING"; $"AZURE_STORAGE_ACCOUNT"; $"AZURE_STORAGE_ACCESS_KEY";
    $"AZURE_STORAGE_SAS_TOKEN"; $"AZURE_STORAGE_ACCESS_TOKEN"; $"AZURE_TENANT_ID"; $"AZURE_CLIENT_ID";
    $"AZURE_CLIENT_SECRET"; $"AZURE_FEDERATED_TOKEN_FILE"; $"AZURE_AUTHORITY_HOST";
    $"AZURE_STORAGE_SCOPE"; $"AZURE_STORAGE_RESOURCE"; $"AZURE_IMDS_OBJECT_ID";
    $"AZURE_IMDS_CLIENT_ID"; $"AZURE_IMDS_MSI_RES_ID"; $"IDENTITY_ENDPOINT"; $"IDENTITY_HEADER";
    $"IMDS_ENDPOINT" ].
Definition SOURCE_CREDENTIAL_OPTIONS : list str :=
  [ $"SOURCE_ACCESS_KEY_ID"; $"SOURCE_SECRET_ACCESS_KEY"; $"SOURCE_SESSION_TOKEN"; $"SOURCE_PROFILE";
    $"SOURCE_SHARED_CREDENTIALS_FILE"; $"SOURCE_CONFIG_FILE" ].

(** [CloudProvider], without the two functions. *)
Record CloudProvider := mkProvider {
  cp_backend : Backend; credentials_kind : Z; no_sign_option : str; anonymous_by_default : bool;
  credential_options : list str;
}.
Definition cloud_provider (b : Backend) : option CloudProvider :=
  match b with
  | S3 => Some (mkProvider S3 KARU_CREDENTIALS_AWS $"AWS_NO_SIGN_REQUEST" false S3_CREDENTIAL_OPTIONS)
  | Gcs => Some (mkProvider Gcs KARU_CREDENTIALS_GCS $"GCS_NO_SIGN_REQUEST" false GCS_CREDENTIAL_OPTIONS)
  | Azure => Some (mkProvider Azure KARU_CREDENTIALS_AZURE $"AZURE_NO_SIGN_REQUEST" false
                     AZURE_CREDENTIAL_OPTIONS)
  | Source => Some (mkProvider Source KARU_CREDENTIALS_SOURCE $"SOURCE_NO_SIGN_REQUEST" true
                      SOURCE_CREDENTIAL_OPTIONS)
  | File | Http | HuggingFace => None
  end.

Definition native_credential_key (c : ConfigSnapshot) (p : CloudProvider) (path : str) : str :=
  credential_key (credential_family $"native" (credentials_kind p))
    (scope_key c path (credential_options p)).

Definition refresh_time (c : ProviderCredentials) (now : Z) (refresh_static : bool) : Z :=
  if expires_at c =? 0 then
    if refresh_static then now + kStaticCredentialTtlSeconds else I64_MAX
  else if expires_at c <=? now then now
  else
    let lifetime := expires_at c - now in
    let margin := Z.max 1 (Z.min (lifetime / 10) 60) in
    Z.max (now + 1) (expires_at c - margin).

Definition reusable (e : Entry) (now : Z) : bool :=
  (now <? refresh_at e) && ((expires_at (credentials_ e) =? 0) || (now <? expires_at (credentials_ e))).

(** ** The two critical sections every lookup shares *)

Definition join_or_load (cache : CredentialCache) (key : str) : lookup_step * CredentialCache :=
  match flights_ cache !! key with
  | Some f => (Join f, cache)
  | None =>
      let f := length (table cache) in
      (Load f, cache <| flights_ := <[key := f]> (flights_ cache) |>
                     <| table := table cache ++ [mkFlight false None] |>)
  end.

(** [flights_.find(key)], erased when it is still this flight. *)
Definition land (flights : gmap str nat) (key : str) (f : nat) : gmap str nat :=
  if decide (flights !! key = Some f) then delete key flights else flights.

(** Store the entry, if any and unless the flight was invalidated, and
    publish the result. *)
Definition publish (cache : CredentialCache) (flight_key : str) (f : nat) (loaded : Loaded)
    (entry : option (str * Entry)) : CredentialCache :=
  match table cache !! f with
  | Some flight =>
      cache <| entries_ := match entry with
                           | Some (k, e) => if invalidated flight then entries_ cache
                                            else <[k := e]> (entries_ cache)
                           | None => entries_ cache
                           end |>
            <| table := <[f := flight <| result_ := Some loaded |>]> (table cache) |>
            <| flights_ := land (flights_ cache) flight_key f |>
  | None => cache
  end.

(** An expired answer is an error. *)
Definition refuse_expired (text : str) (now : Z) (loaded : Loaded) : Loaded :=
  match loaded with
  | Ok c => if negb (expires_at c =? 0) && (expires_at c <=? now)
            then Err (credentials_error text) else loaded
  | Err _ => loaded
  end.

(** ** Custom providers *)

(** One turn of [find_reusable]. *)
Definition better (path family : str) (now : Z) (best : option Entry) (k : str) (e : Entry)
    : option Entry :=
  if starts_with k family && path_prefix_matches path (cache_prefix (credentials_ e)) && reusable e now
  then match best with
       | None => Some e
       | Some b => if (length (cache_prefix (credentials_ b)) <? length (cache_prefix (credentials_ e)))%nat
                   then Some e else best
       end
  else best.
Definition find_reusable (cache : CredentialCache) (path family : str) (now : Z) : option Entry :=
  fold_left (fun best ke => better path family now best ke.1 ke.2) (map_to_list (entries_ cache)) None.

Definition custom_begin (cache : CredentialCache) (kind : Z) (path : str) (now : Z)
    : lookup_step * CredentialCache :=
  let family := credential_family $"custom" kind in
  match find_reusable cache path family now with
  | Some e => (Hit (credentials_ e), cache)
  | None => join_or_load cache (credential_key family path)
  end.

(** The load of a custom provider: [callback] is what the user's function
    answers for the path, after [copy_callback_credentials]. *)
Definition custom_load (callback : str -> Loaded) (path : str) : Loaded :=
  match callback path with
  | Ok value =>
      if negb (str_eqb (cache_prefix value) []) then
        let value := value <| cache_prefix := canonical_vsi_path (cache_prefix value) |> in
        if negb (path_prefix_matches path (cache_prefix value)) then
          Err (credentials_error
                 $"custom credential cache_prefix does not contain the requested path")
        else Ok value
      else Ok value
  | Err e => Err e
  end.

Definition custom_finish (cache : CredentialCache) (kind : Z) (path : str) (f : nat) (loaded : Loaded)
    (loaded_at : Z) : CredentialCache :=
  let family := credential_family $"custom" kind in
  let refreshed := refuse_expired $"custom credential provider returned expired credentials" loaded_at
                     loaded in
  publish cache (credential_key family path) f refreshed
    (match refreshed with
     | Ok c => if str_eqb (cache_prefix c) [] then None
               else Some (credential_key family (cache_prefix c),
                          mkEntry c (refresh_time c loaded_at false))
     | Err _ => None
     end).

(** ** Native providers *)

Definition native_begin (cache : CredentialCache) (key : str) (now : Z) : lookup_step * CredentialCache :=
  match entries_ cache !! key with
  | Some e => if reusable e now then (Hit (credentials_ e), cache) else join_or_load cache key
  | None => join_or_load cache key
  end.

Definition present (c : ProviderCredentials) : bool :=
  negb (str_eqb (access_key_id c) []) || negb (str_eqb (secret_access_key c) [])
  || negb (str_eqb (session_token c) []) || negb (str_eqb (bearer_token c) [])
  || negb (str_eqb (sas_token c) []).

Definition native_finish (cache : CredentialCache) (key : str) (f : nat) (loaded : Loaded)
    (loaded_at : Z) : CredentialCache :=
  let loaded := refuse_expired $"credential provider returned expired credentials" loaded_at loaded in
  publish cache key f loaded
    (match loaded with
     | Ok c => if present c then Some (key, mkEntry c (refresh_time c loaded_at true)) else None
     | Err _ => None
     end).

(** ** [invalidate] *)

Definition mark_invalidated (cache : CredentialCache) (key : str) : CredentialCache :=
  match flights_ cache !! key with
  | Some f => cache <| table := alter (fun x => x <| invalidated := true |>) f (table cache) |>
                    <| flights_ := delete key (flights_ cache) |>
  | None => cache
  end.

Definition invalidate (cache : CredentialCache) (c : ConfigSnapshot) (p : CloudProvider) (path : str)
    (custom : bool) : CredentialCache :=
  if negb custom then
    let key := native_credential_key c p path in
    mark_invalidated (cache <| entries_ := delete key (entries_ cache) |>) key
  else
    let family := credential_family $"custom" (credentials_kind p) in
    let cache := mark_invalidated cache (credential_key family path) in
    cache <| entries_ :=
      base.filter (fun ke => negb (starts_with ke.1 family
                                   && path_prefix_matches path (cache_prefix (credentials_ ke.2))))
        (entries_ cache) |>.

(** ** What a hit promises *)

Definition fresh_at (now : Z) (c : ProviderCredentials) : Prop := expires_at c = 0 \/ now < expires_at c.

Lemma reusable_fresh e now : reusable e now = true -> now < refresh_at e /\ fresh_at now (credentials_ e).
Proof.
  unfold reusable, fresh_at. intros [H1 [H2|H2]%orb_true_iff]%andb_true_iff; lia.
Qed.

(** Entries [find_reusable] may answer with. *)
Definition candidate (path family : str) (now : Z) (k : str) (e : Entry) : Prop :=
  starts_with k family = true /\ path_prefix_matches path (cache_prefix (credentials_ e)) = true /\
  reusable e now = true.

Lemma better_spec path family now best k e :
  better path family now best k e = best /\
    (candidate path family now k e ->
     exists b, best = Some b /\ (length (cache_prefix (credentials_ e)) <= length (cache_prefix (credentials_ b)))%nat) \/
  better path family now best k e = Some e /\ candidate path family now k e /\
    (forall b, best = Some b -> (length (cache_prefix (credentials_ b)) <= length (cache_prefix (credentials_ e)))%nat).
Proof.
  unfold better, candidate. destruct (starts_with k family); cbn [andb]; [|left; split; [done|by intros [? _]]].
  destruct (path_prefix_matches _ _); cbn [andb]; [|left; split; [done|by intros (_ & ? & _)]].
  destruct (reusable e now); cbn [andb]; [|left; split; [done|by intros (_ & _ & ?)]].
  destruct best as [b|]; [|right; by split_and!].
  destruct (Nat.ltb_spec (length (cache_prefix (credentials_ b))) (length (cache_prefix (credentials_ e)))).
  - right. split_and!; try done. intros ? [= <-]. lia.
  - left. split; [done|]. intros _. by exists b.
Qed.

Lemma find_reusable_fold path family now l : forall best r,
  fold_left (fun best ke => better path family now best ke.1 ke.2) l best = Some r ->
  (best = Some r \/ exists k, (k, r) ∈ l /\ candidate path family now k r) /\
  (forall b, best = Some b -> (length (cache_prefix (credentials_ b)) <= length (cache_prefix (credentials_ r)))%nat) /\
  Forall (fun ke => candidate path family now ke.1 ke.2 ->
    (length (cache_prefix (credentials_ ke.2)) <= length (cache_prefix (credentials_ r)))%nat) l.
Proof.
  induction l as [|[k e] l IH]; intros best r; cbn [fold_left fst snd].
  - intros ->. split_and!; [by left| |constructor]. by intros b [= <-].
  - intros H. destruct (IH _ _ H) as (H1 & H2 & H3).
    destruct (better_spec path family now best k e) as [[E Hk]|(E & Hk & Hb)]; rewrite E in *.
    + split_and!; [|done|].
      * destruct H1 as [?|(k' & ? & ?)]; [by left|right]. exists k'. split; [by apply list_elem_of_further|done].
      * constructor; [|done]. cbn. intros Hc. destruct (Hk Hc) as (b & -> & ?).
        specialize (H2 b eq_refl). lia.
    + specialize (H2 e eq_refl). split_and!.
      * destruct H1 as [[= ->]|(k' & ? & ?)]; right.
        -- exists k. split; [apply list_elem_of_here|done].
        -- exists k'. split; [by apply list_elem_of_further|done].
      * intros b Hb'. specialize (Hb b Hb'). lia.
      * constructor; [|done]. cbn. intros _. done.
Qed.

Lemma find_reusable_spec cache path family now r :
  find_reusable cache path family now = Some r ->
  exists k, entries_ cache !! k = Some r /\ candidate path family now k r /\
    forall k' e, entries_ cache !! k' = Some e -> candidate path family now k' e ->
      (length (cache_prefix (credentials_ e)) <= length (cache_prefix (credentials_ r)))%nat.
Proof.
  intros H. destruct (find_reusable_fold _ _ _ _ _ _ H) as ([?|(k & Hk & Hc)] & _ & Hall); [done|].
  exists k. split_and!; [by apply elem_of_map_to_list|done|]. intros k' e He Hc'.
  rewrite Forall_forall in Hall. apply (Hall (k', e)); [by apply elem_of_map_to_list|done].
Qed.

(** ** The calls *)

(** A call of [CredentialCache::native] or [::custom]. *)
Inductive Lookup := Native (p : CloudProvider) (path : str) | Custom (p : CloudProvider) (path : str).
Definition lookup_provider (l : Lookup) : CloudProvider := match l with Native p _ | Custom p _ => p end.
Definition lookup_path (l : Lookup) : str := match l with Native _ path | Custom _ path => path end.

(** The threads of a client: the cache and the lookup of each flight. *)
Definition lookups : Type := CredentialCache * list Lookup.
Definition begun (l : Lookup) (st : lookup_step) (owners : list Lookup) : list Lookup :=
  match st with Load _ => owners ++ [l] | Hit _ | Join _ => owners end.

Lemma join_or_load_no_hit cache key c cache' : join_or_load cache key <> (Hit c, cache').
Proof. unfold join_or_load. by destruct (flights_ cache !! key). Qed.

Section Runs.
Variable config : ConfigSnapshot.

Definition flight_key (l : Lookup) : str :=
  match l with
  | Native p path => native_credential_key config p path
  | Custom p path => credential_key (credential_family $"custom" (credentials_kind p)) path
  end.
Definition lookup_begin (l : Lookup) (c : CredentialCache) (now : Z) : lookup_step * CredentialCache :=
  match l with
  | Native p path => native_begin c (native_credential_key config p path) now
  | Custom p path => custom_begin c (credentials_kind p) path now
  end.
Definition lookup_finish (l : Lookup) (c : CredentialCache) (f : nat) (loaded : Loaded) (now : Z)
    : CredentialCache :=
  match l with
  | Native p path => native_finish c (native_credential_key config p path) f loaded now
  | Custom p path => custom_finish c (credentials_kind p) path f loaded now
  end.
Definition lookup_invalidate (l : Lookup) (c : CredentialCache) : CredentialCache :=
  match l with
  | Native p path => invalidate c config p path false
  | Custom p path => invalidate c config p path true
  end.

(** ** Flights *)

(** Native and custom lookups, their completions, with whatever was loaded,
    and invalidations, in any order. *)
Inductive cache_step : lookups -> lookups -> Prop :=
| cache_begin c owners l now st c' :
    lookup_begin l c now = (st, c') -> cache_step (c, owners) (c', begun l st owners)
| cache_finish c owners f l flight loaded now :
    owners !! f = Some l -> table c !! f = Some flight -> done_ flight = false ->
    cache_step (c, owners) (lookup_finish l c f loaded now, owners)
| cache_invalidate c owners l : cache_step (c, owners) (lookup_invalidate l c, owners).

(** Flight [f] works for [key], and its result is still wanted. *)
Definition current (s : lookups) (key : str) (f : nat) : Prop :=
  flight_key <$> s.2 !! f = Some key /\
  exists flight, table s.1 !! f = Some flight /\ done_ flight = false /\ invalidated flight = false.

Record flights_ok (s : lookups) : Prop := {
  fo_length : length s.2 = length (table s.1);
  fo_current : forall key f, flights_ s.1 !! key = Some f <-> current s key f;
}.

(** A lookup answers from the cache or goes on by its key. *)
Lemma lookup_begin_cases l c now st c' : lookup_begin l c now = (st, c') ->
  (exists creds, st = Hit creds /\ c' = c) \/ join_or_load c (flight_key l) = (st, c').
Proof.
  destruct l as [p path|p path]; cbn [lookup_begin flight_key].
  - unfold native_begin. destruct (entries_ c !! _) as [e|]; [|by right].
    destruct (reusable e now); [|by right]. intros [= <- <-]. left. by eexists.
  - unfold custom_begin. destruct (find_reusable _ _ _ _) as [e|]; [|by right].
    intros [= <- <-]. left. by eexists.
Qed.

(** What a completion publishes: under the key of its flight, and the entry it
    may store carries the result. *)
Lemma lookup_finish_publish l c f loaded now : exists loaded' entry,
  lookup_finish l c f loaded now = publish c (flight_key l) f loaded' entry /\
  forall k e, entry = Some (k, e) -> loaded' = Ok (credentials_ e) /\
    match l with
    | Native _ _ => k = flight_key l
    | Custom p _ => k = credential_key (credential_family $"custom" (credentials_kind p)) (cache_prefix (credentials_ e))
    end.
Proof.
  destruct l as [p path|p path]; eexists _, _; split; try reflexivity; intros k e.
  - destruct (refuse_expired _ _ _) as [creds|]; [|done]. destruct (present creds); [|done]. by intros [= <- <-].
  - destruct (refuse_expired _ _ _) as [creds|]; [|done]. destruct (str_eqb _ _); [done|]. by intros [= <- <-].
Qed.

Lemma flights_ok_begin c owners l now st c' :
  flights_ok (c, owners) -> lookup_begin l c now = (st, c') -> flights_ok (c', begun l st owners).
Proof.
  intros Hok [(creds & -> & ->)|Hj]%lookup_begin_cases; [done|]. revert Hj.
  set (key := flight_key l). unfold join_or_load. pose proof Hok as [Hl Hc]. cbn in Hl.
  destruct (flights_ c !! key) as [f|] eqn:Ef; intros [= <- <-]; [done|].
  constructor; cbn [fst snd begun].
  - cbn. rewrite !length_app, Hl. done.
  - intros k f. unfold current. cbn. assert (Hcur := Hc k f). unfold current in Hcur. cbn in Hcur.
    destruct (Nat.lt_trichotomy f (length (table c))) as [Hlt|[->|Hgt]].
    + rewrite !lookup_app_l by lia. rewrite <-Hcur.
      destruct (decide (k = key)) as [->|Hne]; [|by rewrite lookup_insert_ne].
      rewrite lookup_insert_eq, Ef. split; [intros [= ?]; lia|done].
    + rewrite lookup_app_r, lookup_app_r by lia. rewrite Hl, Nat.sub_diag. cbn. fold key. split.
      * intros Hk. destruct (decide (k = key)) as [->|Hne]; [split; [done|by eexists]|].
        rewrite lookup_insert_ne in Hk by done. apply Hcur in Hk as [_ (fl & Ht & _)].
        apply lookup_lt_Some in Ht. lia.
      * intros [[= <-] _]. apply lookup_insert_eq.
    + assert (E1 : (owners ++ [l]) !! f = None) by (apply lookup_ge_None; rewrite length_app; cbn; lia).
      rewrite E1. cbn. split; [|by intros [? _]]. intros Hk.
      destruct (decide (k = key)) as [->|Hne]; [rewrite lookup_insert_eq in Hk; injection Hk; lia|].
      rewrite lookup_insert_ne in Hk by done. apply Hcur in Hk as [_ (fl & Ht & _)]. apply lookup_lt_Some in Ht. lia.
Qed.

Lemma publish_table cache k f loaded entry flight :
  table cache !! f = Some flight ->
  table (publish cache k f loaded entry) = <[f := flight <| result_ := Some loaded |>]> (table cache) /\
  flights_ (publish cache k f loaded entry) = land (flights_ cache) k f /\
  entries_ (publish cache k f loaded entry) =
    (if invalidated flight then entries_ cache
     else match entry with Some (n, e) => <[n := e]> (entries_ cache) | None => entries_ cache end).
Proof.
  intros Hf. unfold publish. rewrite Hf. cbn. split_and!; try done.
  destruct entry as [[n e]|]; by destruct (invalidated flight).
Qed.

Lemma flights_ok_publish c owners key f loaded entry flight :
  flights_ok (c, owners) -> flight_key <$> owners !! f = Some key -> table c !! f = Some flight ->
  flights_ok (publish c key f loaded entry, owners).
Proof.
  intros [Hl Hc] Ho Ht. cbn in Hl. destruct (publish_table c key f loaded entry flight Ht) as (T & F & _).
  constructor; cbn [fst snd]; [by rewrite T, length_insert|]. intros k g.
  unfold current. cbn [fst snd]. rewrite T, F. unfold land.
  assert (Hlt : (f < length (table c))%nat) by by eapply lookup_lt_Some.
  destruct (decide (f = g)) as [<-|Hfg].
  - rewrite list_lookup_insert_eq by done. split.
    + intros Hk. exfalso. assert (k = key) as ->.
      { destruct (decide (flights_ c !! key = Some f)).
        - apply lookup_delete_Some in Hk as [_ Hk]. apply Hc in Hk as [Hk _]. cbn in Hk. congruence.
        - apply Hc in Hk as [Hk _]. cbn in Hk. congruence. }
      destruct (decide (flights_ c !! key = Some f)); [|done]. by rewrite lookup_delete_eq in Hk.
    + intros [_ (fl & [= <-] & Hd & _)]. done.
  - rewrite list_lookup_insert_ne by done. fold (current (c, owners) k g).
    assert (Hcur := Hc k g). unfold current in Hcur. cbn in Hcur. rewrite <-Hcur.
    destruct (decide (flights_ c !! key = Some f)) as [Hkey|]; [|done].
    destruct (decide (k = key)) as [->|Hne]; [|by rewrite lookup_delete_ne].
    rewrite lookup_delete_eq, Hkey. split; [done|]. intros [= ?]. done.
Qed.

Lemma flights_ok_invalidate c owners key :
  flights_ok (c, owners) -> flights_ok (mark_invalidated c key, owners).
Proof.
  intros Hok. pose proof Hok as [Hl Hc]. cbn in Hl. unfold mark_invalidated.
  destruct (flights_ c !! key) as [f|] eqn:Ef; [|done].
  constructor; cbn [fst snd]; [cbn; by rewrite length_alter|]. intros k g. unfold current. cbn.
  assert (Hcur := Hc k g). unfold current in Hcur. cbn in Hcur.
  destruct (decide (f = g)) as [<-|Hfg].
  - rewrite list_lookup_alter_eq. split.
    + intros [Hne Hk]%lookup_delete_Some. apply Hc in Ef as [Ef _]. apply Hc in Hk as [Hk _].
      cbn in Ef, Hk. congruence.
    + intros [_ (fl & Hfl & _ & Hi)]. destruct (table c !! f); [|done]. by injection Hfl as <-.
  - rewrite list_lookup_alter_ne by done. rewrite <-Hcur.
    destruct (decide (k = key)) as [->|Hne]; [|by rewrite lookup_delete_ne].
    rewrite lookup_delete_eq, Ef. split; [done|]. intros [= ?]. done.
Qed.

(** The entries an invalidation of the credentials of [l] removes. *)
Definition rejected (l : Lookup) (k : str) (e : Entry) : bool :=
  match l with
  | Native p path => str_eqb k (native_credential_key config p path)
  | Custom p path => starts_with k (credential_family $"custom" (credentials_kind p))
                     && path_prefix_matches path (cache_prefix (credentials_ e))
  end.

Lemma lookup_invalidate_shape l c : exists entries',
  lookup_invalidate l c = (mark_invalidated c (flight_key l)) <| entries_ := entries' |> /\
  forall k e, entries' !! k = Some e <-> entries_ c !! k = Some e /\ rejected l k e = false.
Proof.
  destruct l as [p path|p path]; cbn [lookup_invalidate rejected flight_key]; unfold invalidate; cbn [negb].
  - exists (delete (native_credential_key config p path) (entries_ c)). split.
    + unfold mark_invalidated. cbn. by destruct (flights_ c !! _).
    + intros k e. rewrite lookup_delete_Some. unfold str_eqb. case_bool_decide; naive_solver.
  - eexists. split; [reflexivity|]. intros k e. rewrite map_lookup_filter_Some. cbn [fst snd].
    unfold mark_invalidated. destruct (flights_ c !! _); cbn; destruct (_ && _); cbn; naive_solver.
Qed.

Lemma cache_step_ok s s' : cache_step s s' -> flights_ok s -> flights_ok s'.
Proof.
  intros Hs Hok. destruct Hs as [c owners l now st c' Hb|c owners f l flight loaded now Ho Ht Hd|c owners l].
  - by eapply flights_ok_begin.
  - destruct (lookup_finish_publish l c f loaded now) as (loaded' & entry & -> & _).
    eapply flights_ok_publish; [done|by rewrite Ho|done].
  - destruct (lookup_invalidate_shape l c) as (entries' & -> & _).
    destruct (flights_ok_invalidate _ _ (flight_key l) Hok) as [H1 H2]. by constructor.
Qed.

Lemma cache_steps_ok s s' : rtc cache_step s s' -> flights_ok s -> flights_ok s'.
Proof. induction 1; eauto using cache_step_ok. Qed.

Lemma empty_cache_ok : flights_ok (empty_cache, []).
Proof. constructor; [done|]. intros key f. unfold current. cbn. rewrite lookup_empty. naive_solver. Qed.

(** ** Invalidation *)

Definition is_custom (l : Lookup) : bool := match l with Custom _ _ => true | Native _ _ => false end.

(** Every entry that was rejected with [l] is the result of a flight that
    started at or after [n] or, for a custom provider, of the flight of
    another path. *)
Definition refilled_since (n : nat) (l : Lookup) (s : lookups) : Prop :=
  forall k e, entries_ s.1 !! k = Some e -> rejected l k e = true ->
    exists f flight l', s.2 !! f = Some l' /\ table s.1 !! f = Some flight /\
      result_ flight = Some (Ok (credentials_ e)) /\
      ((n <= f)%nat \/ is_custom l = true /\ flight_key l' <> flight_key l).

(** No flight of [key] before [n] can still store its result. *)
Definition settled_before (n : nat) (key : str) (s : lookups) : Prop :=
  forall f, (f < n)%nat -> ~ current s key f.

Lemma lookup_begin_entries l c now st c' : lookup_begin l c now = (st, c') ->
  entries_ c' = entries_ c /\ exists t, table c' = table c ++ t.
Proof.
  intros [(creds & -> & ->)|Hj]%lookup_begin_cases; [split; [done|]; exists []; by rewrite app_nil_r|].
  revert Hj. unfold join_or_load. destruct (flights_ c !! _); intros [= <- <-]; cbn.
  - split; [done|]. exists []. by rewrite app_nil_r.
  - split; [done|]. by eexists.
Qed.

(** What every step keeps, after an invalidation before flight [n]. *)
Definition since (n : nat) (l : Lookup) (s : lookups) : Prop :=
  (n <= length s.2)%nat /\ refilled_since n l s /\ settled_before n (flight_key l) s.

Lemma since_begin n l0 c owners l now st c' :
  flights_ok (c, owners) -> lookup_begin l c now = (st, c') -> since n l0 (c, owners) ->
  since n l0 (c', begun l st owners).
Proof.
  intros Hok Hb (Hn & He & Hp). pose proof (fo_length _ Hok) as Hlen. cbn [fst snd] in *.
  destruct (lookup_begin_entries _ _ _ _ _ Hb) as (E & t & T).
  assert (exists o, begun l st owners = owners ++ o) as (o & ->)
    by (destruct st; [exists []|exists []|by exists [l]]; by rewrite app_nil_r).
  split_and!; [cbn [snd]; rewrite length_app; lia| |].
  - intros k e. cbn [fst snd]. rewrite E. intros Hk Hr. destruct (He k e Hk Hr) as (g & fl & l' & Hg & Hfl & ? & ?).
    exists g, fl, l'. cbn in Hg, Hfl. rewrite T. split_and!; [by apply lookup_app_l_Some|by apply lookup_app_l_Some|done..].
  - intros g Hg [Hg1 (fl & Hg2 & Hg3)]. cbn in Hg1, Hg2. apply (Hp g Hg). split; cbn.
    + by rewrite lookup_app_l in Hg1 by lia.
    + exists fl. by rewrite T, lookup_app_l in Hg2 by lia.
Qed.

(** Native and custom keys differ in their first character. *)
Lemma native_key_first p path : head (native_credential_key config p path) = Some "n"%char.
Proof. done. Qed.

(** What a flight stores is rejected with its own key, or it is a custom entry. *)
Lemma stored_rejected l l0 k e :
  match l with
  | Native _ _ => k = flight_key l
  | Custom p _ => k = credential_key (credential_family $"custom" (credentials_kind p)) (cache_prefix (credentials_ e))
  end -> rejected l0 k e = true -> is_custom l0 = true \/ flight_key l = flight_key l0.
Proof.
  destruct l0 as [p0 path0|p0 path0]; cbn [rejected is_custom]; [|by left]. intros Hk Hr%str_eqb_eq. right.
  destruct l as [p path|p path]; [by rewrite <-Hk, Hr|]. rewrite Hr in Hk.
  apply (f_equal head) in Hk. by rewrite native_key_first in Hk.
Qed.

Lemma since_finish n l0 c owners f l flight loaded now :
  owners !! f = Some l -> table c !! f = Some flight -> done_ flight = false ->
  since n l0 (c, owners) -> since n l0 (lookup_finish l c f loaded now, owners).
Proof.
  intros Ho Ht Hd (Hn & He & Hp). cbn [fst snd] in *.
  destruct (lookup_finish_publish l c f loaded now) as (loaded' & entry & -> & Hentry).
  destruct (publish_table c (flight_key l) f loaded' entry flight Ht) as (T & _ & E).
  assert (Hlt : (f < length (table c))%nat) by by eapply lookup_lt_Some.
  split_and!; [done| |].
  - intros k e. cbn [fst snd]. rewrite E, T. intros Hk Hr.
    assert (Hold : entries_ c !! k = Some e -> exists g fl l', owners !! g = Some l' /\
      <[f := flight <| result_ := Some loaded' |>]> (table c) !! g = Some fl /\
      result_ fl = Some (Ok (credentials_ e)) /\ ((n <= g)%nat \/ is_custom l0 = true /\ flight_key l' <> flight_key l0)).
    { intros Hk'. destruct (He k e Hk' Hr) as (g & fl & l' & Hg & Hfl & Hres & Hor). cbn in Hg, Hfl.
      exists g, fl, l'. split_and!; try done. rewrite list_lookup_insert_ne; [done|]. intros <-.
      rewrite Ht in Hfl. injection Hfl as <-. unfold done_ in Hd. by rewrite Hres in Hd. }
    destruct (invalidated flight) eqn:Ei; [by apply Hold|]. destruct entry as [[k1 e1]|]; [|by apply Hold].
    destruct (Hentry k1 e1 eq_refl) as [-> Hk1].
    destruct (decide (k1 = k)) as [->|Hne]; [|rewrite lookup_insert_ne in Hk by done; by apply Hold].
    rewrite lookup_insert_eq in Hk. injection Hk as ->. exists f, (flight <| result_ := Some (Ok (credentials_ e)) |>), l.
    split_and!; [done|by apply list_lookup_insert_eq|done|]. destruct (Nat.lt_ge_cases f n) as [Hf|]; [right|by left].
    assert (Hne : flight_key l <> flight_key l0).
    { intros Heq. apply (Hp f Hf). split; cbn; [by rewrite Ho; cbn; rewrite Heq|]. by exists flight. }
    by destruct (stored_rejected l l0 k e Hk1 Hr).
  - intros g Hg [Hg1 (fl & Hg2 & Hg3 & Hg4)]. cbn in Hg1, Hg2. rewrite T in Hg2.
    destruct (decide (f = g)) as [<-|Hfg].
    + rewrite list_lookup_insert_eq in Hg2 by done. by injection Hg2 as <-.
    + rewrite list_lookup_insert_ne in Hg2 by done. apply (Hp g Hg). split; [done|]. by exists fl.
Qed.

(** Marking a flight leaves the results in place and validates none. *)
Lemma mark_invalidated_table c k :
  (forall g fl, table (mark_invalidated c k) !! g = Some fl ->
     exists fl0, table c !! g = Some fl0 /\ result_ fl = result_ fl0 /\
       (invalidated fl = false -> invalidated fl0 = false)) /\
  (forall g fl, table c !! g = Some fl ->
     exists fl', table (mark_invalidated c k) !! g = Some fl' /\ result_ fl' = result_ fl).
Proof.
  unfold mark_invalidated. destruct (flights_ c !! k) as [f|]; [|split; by eexists]. cbn.
  split; intros g fl; (destruct (decide (f = g)) as [<-|Hne];
    [rewrite list_lookup_alter_eq|rewrite list_lookup_alter_ne by done; by eexists]).
  - destruct (table c !! f) as [fl0|]; [|done]. intros [= <-]. by exists fl0.
  - intros ->. by eexists.
Qed.

Lemma since_invalidate n l0 c owners l :
  since n l0 (c, owners) -> since n l0 (lookup_invalidate l c, owners).
Proof.
  intros (Hn & He & Hp). destruct (lookup_invalidate_shape l c) as (entries' & -> & Hentries).
  destruct (mark_invalidated_table c (flight_key l)) as [Htab Htab']. split_and!; [done| |].
  - intros k e. cbn [fst snd]. intros [Hk _]%Hentries Hr.
    destruct (He k e Hk Hr) as (g & fl & l' & Hg & Hfl & Hres & ?). destruct (Htab' _ _ Hfl) as (fl' & ? & Hr').
    exists g, fl', l'. by rewrite Hr'.
  - intros g Hg [Hg1 (fl & Hg2 & Hg3 & Hg4)]. destruct (Htab _ _ Hg2) as (fl0 & ? & Hr & Hi).
    apply (Hp g Hg). split; [done|]. exists fl0. unfold done_ in *. rewrite <-Hr. auto.
Qed.

Lemma step_since n l s s' : cache_step s s' -> flights_ok s -> since n l s -> since n l s'.
Proof. intros [] Hok; [by eapply since_begin|by eapply since_finish|by apply since_invalidate]. Qed.

Lemma invalidated_settles c owners l :
  flights_ok (c, owners) -> since (length owners) l (lookup_invalidate l c, owners).
Proof.
  intros Hok. assert (Hok2 : flights_ok (lookup_invalidate l c, owners)) by (eapply cache_step_ok; [constructor|done]).
  destruct (lookup_invalidate_shape l c) as (entries' & E & Hentries). rewrite E in *. split_and!; [done| |].
  - intros k e [_ Hk]%Hentries Hr. congruence.
  - intros f _ Hc. apply (fo_current _ Hok2) in Hc. cbn in Hc. unfold mark_invalidated in Hc.
    destruct (flights_ c !! flight_key l) eqn:Ef; cbn in Hc; [by rewrite lookup_delete_eq in Hc|congruence].
Qed.

Lemma steps_since n l s s' : rtc cache_step s s' -> flights_ok s -> since n l s -> flights_ok s' /\ since n l s'.
Proof.
  induction 1 as [s|s1 s2 s3 Hs _ IH]; [done|]. intros Hok Hl.
  apply IH; [by eapply cache_step_ok|by eapply step_since].
Qed.
End Runs.

(** ** Properties *)

(** The cache never answers with credentials that expired: a hit is an
    entry whose refresh time and expiration lie in the future; a custom entry
    is one of the same provider whose scope covers the path, and the narrowest
    such scope. *)
Theorem hits_are_fresh cache now c :
  (forall key cache', native_begin cache key now = (Hit c, cache') ->
     cache' = cache /\ fresh_at now c /\ exists at_, entries_ cache !! key = Some (mkEntry c at_) /\ now < at_) /\
  (forall kind path cache', custom_begin cache kind path now = (Hit c, cache') ->
     cache' = cache /\ fresh_at now c /\ path_prefix_matches path (cache_prefix c) = true /\
     exists key at_, entries_ cache !! key = Some (mkEntry c at_) /\
       starts_with key (credential_family $"custom" kind) = true /\ now < at_ /\
       forall k e, entries_ cache !! k = Some e ->
         candidate path (credential_family $"custom" kind) now k e ->
         (length (cache_prefix (credentials_ e)) <= length (cache_prefix c))%nat).
Proof.
  split.
  - intros key cache'. unfold native_begin.
    destruct (entries_ cache !! key) as [[c0 at_]|]; [|by intros ?%join_or_load_no_hit].
    destruct (reusable _ now) eqn:Er; [|by intros ?%join_or_load_no_hit].
    intros [= <- <-]. apply reusable_fresh in Er as [? ?]. split_and!; [done|done|]. by exists at_.
  - intros kind path cache'. unfold custom_begin.
    destruct (find_reusable cache path _ now) as [[c0 at_]|] eqn:Ef; [|by intros ?%join_or_load_no_hit].
    intros [= <- <-]. apply find_reusable_spec in Ef as (k & Hk & (Hs & Hp & Hr) & Hbest).
    apply reusable_fresh in Hr as [? ?]. split_and!; [done|done|done|]. by exists k, at_.
Qed.

(** C27: one lookup per key: whatever native and custom lookups, completions
    and invalidations interleave, at most one unfinished flight of a key (the
    scope key of a native lookup, the path of a custom one) can still store
    its result; it is the one other threads join, none is joined that has
    finished or was invalidated, and a lookup starts a flight only when its
    key has none. *)
Theorem one_flight_per_key config s l :
  rtc (cache_step config) (empty_cache, []) s ->
  (forall f g, current config s (flight_key config l) f -> current config s (flight_key config l) g -> f = g) /\
  (forall now f cache', lookup_begin config l s.1 now = (Join f, cache') -> current config s (flight_key config l) f) /\
  (forall now f cache', lookup_begin config l s.1 now = (Load f, cache') ->
     (forall g, ~ current config s (flight_key config l) g) /\
     current config (cache', begun l (Load f) s.2) (flight_key config l) f).
Proof.
  intros Hs. pose proof (cache_steps_ok _ _ _ Hs (empty_cache_ok config)) as Hok. destruct (Hok) as [Hlen Hc]. split_and!.
  - intros f g Hf%Hc Hg%Hc. congruence.
  - intros now f cache' [(? & [=] & _)|Hj]%lookup_begin_cases. revert Hj. unfold join_or_load.
    destruct (flights_ s.1 !! _) eqn:E; intros [= <- _]. by apply Hc.
  - intros now f cache' Hb. destruct s as [c owners].
    pose proof (flights_ok_begin config c owners l now (Load f) cache' Hok Hb) as [_ Hc'].
    apply lookup_begin_cases in Hb as [(? & [=] & _)|Hj]. revert Hj Hc'. unfold join_or_load. cbn [fst].
    destruct (flights_ c !! _) eqn:E; intros [= <- <-] Hc'. split.
    + intros g Hg%Hc. cbn in Hg. congruence.
    + apply Hc'. cbn. apply lookup_insert_eq.
Qed.

(** C26: rejected credentials do not come back by themselves.  Once the
    credentials of a lookup are invalidated, on every later schedule of native
    and custom lookups, completions and invalidations, an entry the
    invalidation would have removed (that of the native key, or a custom one
    whose scope covers the path) is the result of a lookup that started after
    the invalidation, even when an older one was still under way; the only
    exception is the custom lookup of another path that was under way, whose
    answer chose a scope that covers this path too.  No later lookup of the
    same key joins an older flight. *)
Theorem invalidated_credentials_stay_out config c owners l s :
  rtc (cache_step config) (empty_cache, []) (c, owners) ->
  rtc (cache_step config) (lookup_invalidate config l c, owners) s ->
  (forall k e, entries_ s.1 !! k = Some e -> rejected config l k e = true ->
     exists f flight l', s.2 !! f = Some l' /\ table s.1 !! f = Some flight /\
       result_ flight = Some (Ok (credentials_ e)) /\
       ((length owners <= f)%nat \/ is_custom l = true /\ flight_key config l' <> flight_key config l)) /\
  (forall now f cache', lookup_begin config l s.1 now = (Join f, cache') -> (length owners <= f)%nat).
Proof.
  intros H1 H2. pose proof (cache_steps_ok _ _ _ H1 (empty_cache_ok config)) as Hok.
  destruct (steps_since config (length owners) l _ _ H2
    (cache_step_ok _ _ _ (cache_invalidate config c owners l) Hok) (invalidated_settles _ _ _ l Hok))
    as (Hok' & _ & Hent & Hset).
  split; [exact Hent|]. intros now f cache' [(? & [=] & _)|Hj]%lookup_begin_cases. revert Hj. unfold join_or_load.
  destruct (flights_ s.1 !! _) eqn:E; intros [= <- _]. apply (fo_current _ _ Hok') in E.
  destruct (Nat.lt_ge_cases n (length owners)) as [Hlt|]; [|done]. by apply Hset in E.
Qed.

(** Credentials are renewed before they expire and not all the time: the
    refresh time of credentials with an expiration in the future lies strictly
    after now, at most a minute before the expiration and, unless only a
    second is left, before it; credentials without one are kept for a minute
    (native) or until they are invalidated (custom). *)
Theorem refresh_time_bounds c now refresh_static :
  (now < expires_at c -> expires_at c <> 0 ->
   let at_ := refresh_time c now refresh_static in
   now < at_ <= expires_at c /\ expires_at c - at_ <= 60 /\ (now + 1 < expires_at c -> at_ < expires_at c)) /\
  (expires_at c = 0 -> refresh_time c now refresh_static = if refresh_static then now + 60 else I64_MAX).
Proof.
  unfold refresh_time. split.
  - intros Hlt Hne. rewrite (proj2 (Z.eqb_neq _ _)) by done. rewrite (proj2 (Z.leb_gt _ _)) by done.
    cbn zeta. pose proof (Z.div_mod (expires_at c - now) 10). lia.
  - intros ->. by destruct refresh_static.
Qed.

(** *** Witnesses *)

Definition example_provider : CloudProvider := mkProvider S3 KARU_CREDENTIALS_AWS [] false [].
Definition example_lookup : Lookup := Native example_provider $"/vsis3/b/x".
Definition example_key : str := Eval vm_compute in flight_key empty_snapshot example_lookup.
Definition example_creds (id : str) (until : Z) : ProviderCredentials :=
  ProviderCredentials_default <| access_key_id := id |> <| expires_at := until |>.

(** A native lookup and a custom one are under way when the native one's
    credentials are invalidated; another native one starts, and all finish. *)
Definition other_lookup : Lookup := Custom example_provider $"/vsis3/b/x".
Definition scoped_creds : ProviderCredentials := (example_creds $"callback" 1000) <| cache_prefix := $"/vsis3/b" |>.
Definition one_loading : CredentialCache := (lookup_begin empty_snapshot example_lookup empty_cache 0).2.
Definition both_loading : CredentialCache := (lookup_begin empty_snapshot other_lookup one_loading 0).2.
Definition one_invalidated : CredentialCache := lookup_invalidate empty_snapshot example_lookup both_loading.
Definition three_loading : CredentialCache := (lookup_begin empty_snapshot example_lookup one_invalidated 5).2.
Definition first_done : CredentialCache :=
  lookup_finish empty_snapshot example_lookup three_loading 0 (Ok (example_creds $"old" 1000)) 10.
Definition second_done : CredentialCache :=
  lookup_finish empty_snapshot other_lookup first_done 1 (Ok scoped_creds) 10.
Definition all_done : CredentialCache :=
  lookup_finish empty_snapshot example_lookup second_done 2 (Ok (example_creds $"new" 1000)) 11.
Definition two_owners : list Lookup := [example_lookup; other_lookup].
Definition three_owners : list Lookup := [example_lookup; other_lookup; example_lookup].

Lemma both_loading_reachable : rtc (cache_step empty_snapshot) (empty_cache, []) (both_loading, two_owners).
Proof.
  eapply rtc_l; [exact (cache_begin empty_snapshot empty_cache [] example_lookup 0 (Load 0) one_loading eq_refl)|].
  apply rtc_once.
  exact (cache_begin empty_snapshot one_loading [example_lookup] other_lookup 0 (Load 1) both_loading eq_refl).
Qed.

Lemma all_done_follows : rtc (cache_step empty_snapshot) (one_invalidated, two_owners) (all_done, three_owners).
Proof.
  eapply rtc_l.
  { exact (cache_begin empty_snapshot one_invalidated two_owners example_lookup 5 (Load 2) three_loading eq_refl). }
  eapply rtc_l.
  { apply (cache_finish empty_snapshot three_loading three_owners 0 example_lookup (mkFlight true None)); by vm_compute. }
  eapply rtc_l.
  { apply (cache_finish empty_snapshot first_done three_owners 1 other_lookup (mkFlight false None)); by vm_compute. }
  apply rtc_once.
  apply (cache_finish empty_snapshot second_done three_owners 2 example_lookup (mkFlight false None)); by vm_compute.
Qed.

Example old_result_dropped : entries_ first_done !! example_key = None.
Proof. vm_compute. reflexivity. Qed.

Lemma invalidated_credentials_stay_out_witness :
  (credentials_ <$> entries_ all_done !! example_key) = Some (example_creds $"new" 1000) /\
  refilled_since empty_snapshot 2 example_lookup (all_done, three_owners).
Proof.
  split; [vm_compute; reflexivity|].
  exact (proj1 (invalidated_credentials_stay_out empty_snapshot both_loading two_owners example_lookup
    (all_done, three_owners) both_loading_reachable all_done_follows)).
Defined.

Lemma hits_are_fresh_witness :
  fresh_at 20 (example_creds $"new" 1000) /\
  exists at_, entries_ all_done !! example_key = Some (mkEntry (example_creds $"new" 1000) at_) /\ 20 < at_.
Proof.
  assert (H : native_begin all_done example_key 20 = (Hit (example_creds $"new" 1000), all_done))
    by (vm_compute; reflexivity).
  exact (proj2 (proj1 (hits_are_fresh all_done 20 (example_creds $"new" 1000)) example_key all_done H)).
Defined.

Lemma one_flight_per_key_witness :
  current empty_snapshot (both_loading, two_owners) (flight_key empty_snapshot other_lookup) 1 /\
  forall g, current empty_snapshot (both_loading, two_owners) (flight_key empty_snapshot other_lookup) g -> g = 1%nat.
Proof.
  assert (H0 : current empty_snapshot (both_loading, two_owners) (flight_key empty_snapshot other_lookup) 1)
    by (split; [done|by exists (mkFlight false None)]).
  split; [exact H0|]. intros g Hg.
  exact (proj1 (one_flight_per_key empty_snapshot (both_loading, two_owners) other_lookup both_loading_reachable)
    g 1%nat Hg H0).
Defined.

Lemma refresh_time_bounds_witness :
  100 < refresh_time (example_creds [] 1000) 100 true <= 1000 /\
  1000 - refresh_time (example_creds [] 1000) 100 true <= 60.
Proof.
  destruct (proj1 (refresh_time_bounds (example_creds [] 1000) 100 true)) as (H1 & H2 & _); [cbn; lia..|].
  exact (conj H1 H2).
Defined.

(** Custom lookups differ: an invalidation marks the flight of the exact path
    only, so the flight of a sibling path, started before, stores its entry
    afterwards, and the rejected scope answers again. *)
Example sibling_flight_refills :
  let x := $"/vsis3/b/x" in
  let y := $"/vsis3/b/y" in
  let old := (example_creds $"old" 1000) <| cache_prefix := $"/vsis3/b" |> in
  let aws := mkProvider S3 KARU_CREDENTIALS_AWS [] false [] in
  let c := (custom_begin empty_cache KARU_CREDENTIALS_AWS y 0).2 in
  let c := invalidate c empty_snapshot aws x true in
  let c := custom_finish c KARU_CREDENTIALS_AWS y 0 (custom_load (fun _ => Ok old) y) 10 in
  (custom_begin c KARU_CREDENTIALS_AWS x 11).1 = Hit old.
Proof. vm_compute. reflexivity. Qed.
