(* ===== verification/RequestBuilder.v ===== *)
(** * RequestBuilder: the request of one attempt

    Models [src/src/request_builder.cpp]: which credentials an object needs,
    and the URL, headers, range and HTTP options of a request.  It implements
    the interface [RequestBuilding] the engine uses and discharges its laws.
    The credential cache answers the lookups ([CredentialCache.v]); here its
    answers, like the clock and the thread's signing key, are parameters. *)

From S2P Require Import Prelude Text Uri Types Planner Response Transport Batch Engine Config Backends CredentialCache.

(** [apply_http_options] *)
Definition apply_http_options (c : ConfigSnapshot) (request : PreparedRequest) : PreparedRequest :=
  let follow := follow_redirects (req_http request) in
  request <| req_http := (http_ c) <| follow_redirects := follow |>
                                   <| same_origin_redirects_only := has_configured_headers_ c |> |>.

Definition range_overflows : RequestError :=
  {| err_status := KARU_ERR_RANGE; err_message := $"HTTP range overflows" |}.
Definition unsupported_backend : RequestError :=
  {| err_status := KARU_ERR_UNSUPPORTED; err_message := $"unsupported request backend" |}.

Definition bad_range (first length : Z) : bool := (length =? 0) || (U64_MAX - (length - 1) <? first).

Section Builder.
Context {PF : Platform}.
Variable config : ConfigSnapshot.
(** What [CredentialCache::custom] and [::native] answer. *)
Variable custom_credentials : Z -> str -> Loaded.
Variable native_credentials : CloudProvider -> str -> Loaded.
Variable now : Z.

Definition credentials_configured (p : CloudProvider) (path : str) : bool :=
  let custom := match provider config (credentials_kind p) with Some _ => true | None => false end in
  if anonymous_by_default p && negb custom
  then existsb (has_option config path) (credential_options p) else custom.

Definition no_sign (p : CloudProvider) (path : str) : bool :=
  if has_option config path (no_sign_option p)
  then option_is_true (option_ config path (no_sign_option p) [])
  else anonymous_by_default p && negb (credentials_configured p path).

Definition resolve_credentials (l : Locator) : expected RequestError (option ProviderCredentials) :=
  let path := canonical_uri l in
  if bool_decide (backend l = Http) || bool_decide (backend l = HuggingFace) then Ok None
  else match cloud_provider (backend l) with
       | None => Err unsupported_backend
       | Some p =>
           if no_sign p path then Ok None
           else
             loaded ← match provider config (credentials_kind p) with
                      | Some _ => custom_credentials (credentials_kind p) path
                      | None => native_credentials p path
                      end;
             Ok (Some loaded)
       end.

(** [provider->prepare_request] *)
Definition prepare_request (cache : SigningKeyCache) (r : RequestContext)
    : expected RequestError PreparedRequest * SigningKeyCache :=
  match backend (rc_object r) with
  | S3 => prepare_aws cache r
  | Source => prepare_source cache r
  | Gcs => (prepare_gcs r, cache)
  | Azure => (prepare_azure r, cache)
  | File | Http | HuggingFace => (Err unsupported_backend, cache)
  end.

Definition materialize_range (cache : SigningKeyCache) (l : Locator)
    (credentials : option ProviderCredentials) (range region_hint if_match : str)
    : expected RequestError PreparedRequest * SigningKeyCache :=
  if bool_decide (backend l = Http) || bool_decide (backend l = HuggingFace) then
    (prepared ← (if bool_decide (backend l = Http) then prepare_http config l if_match
                 else prepare_hugging_face config l if_match);
     Ok (apply_http_options config (prepared <| req_range := range |>)), cache)
  else match cloud_provider (backend l) with
       | None => (Err unsupported_backend, cache)
       | Some _ =>
           let '(prepared, cache) :=
             prepare_request cache (mkContext config l credentials range region_hint if_match now) in
           (prepared ← prepared;
            headers ← add_configured_headers config (req_headers prepared) true;
            Ok (apply_http_options config
                  (prepared <| req_headers := headers |> <| req_range := range |>)), cache)
       end.

Definition materialize (cache : SigningKeyCache) (l : Locator)
    (credentials : option ProviderCredentials) (first length : Z) (region_hint if_match : str)
    : expected RequestError PreparedRequest * SigningKeyCache :=
  if bad_range first length then (Err range_overflows, cache)
  else materialize_range cache l credentials (range_header first length) region_hint if_match.

Definition prepare (cache : SigningKeyCache) (l : Locator) (first length : Z)
    (region_hint if_match : str) : expected RequestError PreparedRequest * SigningKeyCache :=
  if bad_range first length then (Err range_overflows, cache)
  else match resolve_credentials l with
       | Err e => (Err e, cache)
       | Ok credentials => materialize cache l credentials first length region_hint if_match
       end.

Definition prepare_suffix (cache : SigningKeyCache) (l : Locator) (length : Z)
    (region_hint if_match : str) : expected RequestError PreparedRequest * SigningKeyCache :=
  if length =? 0 then
    (Err {| err_status := KARU_ERR_RANGE; err_message := $"empty suffix range" |}, cache)
  else match resolve_credentials l with
       | Err e => (Err e, cache)
       | Ok credentials =>
           materialize_range cache l credentials (suffix_range_header length) region_hint if_match
       end.

(** [invalidate_credentials] on the client's cache. *)
Definition invalidate_credentials (cache : CredentialCache) (l : Locator) : CredentialCache :=
  match cloud_provider (backend l) with
  | None => cache
  | Some p =>
      let custom := match provider config (credentials_kind p) with Some _ => true | None => false end in
      invalidate cache config p (canonical_uri l) custom
  end.

(** ** The range *)

Lemma materialize_range_sets cache l credentials range hint pin r :
  (materialize_range cache l credentials range hint pin).1 = Ok r -> req_range r = range.
Proof.
  unfold materialize_range. destruct (_ || _).
  - cbn [fst]. intros (p & _ & [= <-])%expected_bind_ok. done.
  - destruct (cloud_provider _); [|done]. destruct (prepare_request _ _) as [prepared cache'].
    cbn [fst]. intros (p & _ & (hs & _ & [= <-])%expected_bind_ok)%expected_bind_ok. done.
Qed.

Lemma range_header_asks r first length :
  req_range r = range_header first length -> asks_range r first length.
Proof.
  intros E. unfold asks_range. rewrite E. unfold range_header. do 3 f_equal. f_equal. f_equal.
  unfold wrap64. by rewrite Zminus_mod_idemp_l.
Qed.

Lemma bad_range_false first length :
  bad_range first length = false -> is_u64 length -> 1 <= length /\ first + length - 1 <= U64_MAX.
Proof. unfold bad_range, is_u64. intros [H1 H2]%orb_false_iff ?. lia. Qed.

(** The engine's interface, for a client whose thread holds [cache]. *)
Definition builder (cache : SigningKeyCache) : RequestBuilding := {|
  rb_prepare l first length hint pin := (prepare cache l first length hint pin).1;
  rb_materialize l c first length hint pin := (materialize cache l c first length hint pin).1;
  rb_resolve_credentials l := resolve_credentials l;
|}.

Lemma builder_laws cache : @RequestLaws (builder cache).
Proof.
  assert (Hm : forall l c first length hint pin r,
    (materialize cache l c first length hint pin).1 = Ok r -> asks_range r first length).
  { intros l c first length hint pin r. unfold materialize. destruct (bad_range _ _); [done|].
    intros Hr%materialize_range_sets. by apply range_header_asks. }
  constructor; cbn; [|exact Hm]. intros l first length hint pin r. unfold prepare.
  destruct (bad_range _ _); [done|]. destruct (resolve_credentials l); [|done]. apply Hm.
Qed.

End Builder.

(** ** Headers *)

Section Headers.
Context {PF : Platform}.

Definition managed (h : str * str) : Prop := lower h.1 = $"host" \/ lower h.1 = $"range".
Definition authorizes (h : str * str) : Prop :=
  lower h.1 = $"authorization" \/ lower h.1 = $"x-amz-security-token".

(** What a provider's request must satisfy before the configured headers are
    added. *)
Definition sober (p : PreparedRequest) : Prop :=
  Forall (fun h => ~ managed h) (req_headers p) /\
  (follow_redirects (req_http p) = true -> Forall (fun h => ~ authorizes h) (req_headers p)).

Lemma if_match_header_plain pin : Forall (fun h => ~ managed h /\ ~ authorizes h) (if_match_header pin).
Proof.
  unfold if_match_header. destruct (str_eqb pin []); [constructor|]. apply Forall_singleton.
  split; by intros [?|?].
Qed.

Lemma sober_open url hs :
  Forall (fun h => ~ managed h /\ ~ authorizes h) hs -> sober (new_request url hs).
Proof. intros H. split; [|intros _]; (eapply Forall_impl; [exact H|]; cbn; tauto). Qed.

Lemma sober_closed url hs :
  Forall (fun h => ~ managed h) hs -> sober (without_redirects (new_request url hs)).
Proof. intros H. by split. Qed.

Lemma plain_not_managed hs :
  Forall (fun h => ~ managed h /\ ~ authorizes h) hs -> Forall (fun h => ~ managed h) hs.
Proof. intros H. eapply Forall_impl; [exact H|]. cbn. tauto. Qed.

Lemma insert_header_perm h l : insert_header h l ≡ₚ h :: l.
Proof.
  induction l as [|g l IH]; [done|]. cbn [insert_header]. destruct (str_ltb g.1 h.1); [|done].
  rewrite IH. apply perm_swap.
Qed.

Lemma sort_headers_perm l : sort_headers l ≡ₚ l.
Proof. induction l as [|h l IH]; [done|]. cbn [sort_headers foldr]. fold (sort_headers l). by rewrite insert_header_perm, IH. Qed.

(** The headers S3 signs carry lowercase names. *)
Lemma signed_headers_lower target creds host range timestamp pin :
  Forall (fun h => lower h.1 = h.1) (signed_headers_of target creds host range timestamp pin).
Proof.
  unfold signed_headers_of. rewrite sort_headers_perm. rewrite !Forall_app.
  split_and!; [by repeat (apply Forall_cons_iff; split)| | |];
    [destruct (str_eqb pin [])|destruct (str_eqb (session_token creds) [])|
     destruct (str_eqb (lower (request_payer target)) _)]; by repeat (apply Forall_cons_iff; split).
Qed.

Lemma prepare_s3_get_sober cache target creds range pin t p :
  (prepare_s3_get cache target creds range pin t).1 = Ok p -> sober p.
Proof.
  unfold prepare_s3_get. destruct (split_url _) as [endpoint|]; [|done].
  destruct (negb _); [done|]. destruct creds as [c|]; cbn [fst].
  2: { intros [= <-]. apply sober_open, if_match_header_plain. }
  unfold sign_s3_get. destruct (split_url _) as [parts|]; [|done].
  destruct (sha256 _) as [digest|]; [|done].
  destruct (signing_key _ _ _ _) as [key cache']. cbn [fst].
  intros (k & _ & (sig & _ & [= <-])%expected_bind_ok)%expected_bind_ok.
  apply sober_closed. apply Forall_app. split.
  - apply Forall_forall. intros h [[H1 H2] Hin]%list_elem_of_filter.
    pose proof (signed_headers_lower target c (signed_host parts) range
      (strftime_utc t $"%Y%m%dT%H%M%SZ") pin) as Hl.
    rewrite Forall_forall in Hl. unfold managed. rewrite (Hl h Hin). tauto.
  - apply Forall_singleton. by intros [?|?].
Qed.

Lemma prepare_aws_sober cache r p : (prepare_aws cache r).1 = Ok p -> sober p.
Proof.
  unfold prepare_aws. destruct (negb _); [done|]. destruct (http_endpoint _ _ _); [|done].
  destruct (aws_credentials r); [|done]. set (target := {| s3_endpoint := _ |}).
  pose proof (prepare_s3_get_sober cache target value0 (rc_range r) (rc_if_match r) (rc_signing_time r)) as H1.
  destruct (prepare_s3_get _ _ _ _ _ _) as [prepared cache']. cbn [fst] in *.
  intros (q & -> & [= <-])%expected_bind_ok. exact (H1 q eq_refl).
Qed.

Lemma prepare_source_sober cache r p : (prepare_source cache r).1 = Ok p -> sober p.
Proof.
  unfold prepare_source. destruct (http_endpoint _ _ _); [|done]. destruct (negb _); [done|].
  destruct (match rc_credentials r with Some _ => _ | None => _ end); [done|].
  apply prepare_s3_get_sober.
Qed.

Lemma prepare_gcs_sober r p : prepare_gcs r = Ok p -> sober p.
Proof.
  unfold prepare_gcs. intros (e & _ & (u & _ & H2)%expected_bind_ok)%expected_bind_ok. revert H2.
  destruct (negb _); [done|]. set (hs := [($"Accept-Encoding", $"gzip")] ++ _).
  assert (Hhs : Forall (fun h => ~ managed h /\ ~ authorizes h) hs).
  { subst hs. rewrite !Forall_app. split_and!; [|apply if_match_header_plain|].
    - apply Forall_singleton. split; by intros [?|?].
    - destruct (str_eqb _ []); [constructor|]. apply Forall_singleton. split; by intros [?|?]. }
  clearbody hs. pose proof (plain_not_managed _ Hhs) as Hm.
  destruct (option_is_true _); [intros [= <-]; by apply sober_open|].
  destruct (negb _).
  { intros [= <-]. apply sober_closed, Forall_app. split; [done|]. apply Forall_singleton. by intros [?|?]. }
  destruct (_ && _); [|done]. intros (sig & _ & [= <-])%expected_bind_ok.
  apply sober_closed, Forall_app. split; [done|].
  apply Forall_cons_iff. split; [by intros [?|?]|]. apply Forall_singleton. by intros [?|?].
Qed.

Lemma prepare_azure_sober r p : prepare_azure r = Ok p -> sober p.
Proof.
  unfold prepare_azure. intros (e & _ & (u & _ & H2)%expected_bind_ok)%expected_bind_ok. revert H2.
  destruct (negb _); [done|]. set (hs := if_match_header _ ++ _).
  assert (Hhs : Forall (fun h => ~ managed h /\ ~ authorizes h) hs).
  { subst hs. rewrite Forall_app. split; [apply if_match_header_plain|].
    apply Forall_singleton. split; by intros [?|?]. }
  clearbody hs. pose proof (plain_not_managed _ Hhs) as Hm.
  destruct (option_is_true _); [intros [= <-]; by apply sober_open|].
  destruct (negb _); [intros [= <-]; by apply sober_closed|]. destruct (negb _).
  { intros [= <-]. apply sober_closed, Forall_app. split; [done|]. apply Forall_singleton. by intros [?|?]. }
  destruct (_ || _); [done|].
  intros (k & _ & (parts & _ & (sig & _ & [= <-])%expected_bind_ok)%expected_bind_ok)%expected_bind_ok.
  apply sober_closed, Forall_app. split; [done|].
  apply Forall_cons_iff. split; [by intros [?|?]|]. apply Forall_singleton. by intros [?|?].
Qed.

Lemma prepare_request_sober cache r p : (prepare_request cache r).1 = Ok p -> sober p.
Proof.
  unfold prepare_request. destruct (backend (rc_object r)); cbn [fst]; try done;
    [apply prepare_aws_sober|apply prepare_gcs_sober|apply prepare_azure_sober|apply prepare_source_sober].
Qed.
End Headers.

(** ** Configured headers *)

Definition safe_header (h : str * str) : Prop :=
  h.1 <> [] /\ ":"%char ∉ h.1 /\ Forall no_line_end h.1 /\ Forall no_line_end h.2.

Lemma has_any_false s set : has_any s set = false -> Forall (fun c => char_in set c = false) s.
Proof.
  unfold has_any, find_first_of, find_if_from. intros Hf%negb_false_iff%bool_decide_eq_true.
  rewrite drop_0 in Hf. destruct (find_if (char_in set) s) eqn:E; [done|]. by apply find_if_None.
Qed.

Lemma valid_generated_safe h : valid_generated h = true -> safe_header h.
Proof.
  unfold valid_generated. intros [[H1 H2%has_any_false]%orb_false_iff H3%has_any_false]%negb_true_iff%orb_false_iff.
  split_and!; [by intros E; rewrite E in H1| | |done].
  - intros Hin. rewrite Forall_forall in H2. by specialize (H2 _ Hin).
  - eapply Forall_impl; [exact H2|]. intros c Hc. unfold no_line_end, char_in in *. cbn in *.
    by apply orb_false_iff in Hc as [_ ?].
Qed.

(** What [add_configured_headers] adds. *)
Lemma append_configured_spec configured protect : forall headers hs,
  append_configured configured headers protect = Ok hs ->
  hs = headers ++ map (fun h => (ch_name h, ch_value h)) configured /\
  Forall (fun h => malformed h = false /\ ch_lowercase_name h <> $"host" /\
                   ch_lowercase_name h <> $"range" /\
                   (protect = true -> protected_name (ch_lowercase_name h) = false) /\
                   Forall (fun g => lower g.1 <> ch_lowercase_name h) headers) configured.
Proof.
  induction configured as [|h configured IH]; intros headers hs; cbn [append_configured].
  - intros [= <-]. by rewrite app_nil_r.
  - destruct (malformed h) eqn:Em; [done|]. destruct (_ || _) eqn:E; [done|]. intros H.
    apply orb_false_iff in E as [[[E1 E2]%orb_false_iff E3]%orb_false_iff E4].
    destruct (IH _ _ H) as [-> Hall]. split; [cbn; by rewrite <-app_assoc|].
    constructor.
    + split_and!; try done.
      * intros Eh. rewrite Eh in E1. by rewrite str_eqb_refl in E1.
      * intros Eh. rewrite Eh in E2. by rewrite str_eqb_refl in E2.
      * intros ->. exact E4.
      * apply Forall_forall. intros g Hg Hl.
        assert (existsb (fun current => str_eqb (lower current.1) (ch_lowercase_name h)) headers = true)
          as Hex; [|by rewrite Hex in E3].
        apply existsb_exists. exists g. split; [by apply list_elem_of_In|]. apply str_eqb_eq, Hl.
    + eapply Forall_impl; [exact Hall|]. cbn. intros g (? & ? & ? & ? & Hg).
      apply Forall_app in Hg as [? _]. by split_and!.
Qed.

Section Configured.
Context {PF : Platform}.
Variable config : ConfigSnapshot.

(** The snapshot's headers are clean when the builder froze it. *)
Definition headers_clean : Prop :=
  Forall (fun h => malformed h = false -> clean_header h) (configured_headers_ config).

Lemma add_configured_safe headers protect hs :
  headers_clean -> Forall (fun h => ~ managed h) headers ->
  add_configured_headers config headers protect = Ok hs ->
  Forall safe_header hs /\ Forall (fun h => ~ managed h) hs /\
  (protect = true -> Forall (fun h => ~ authorizes h) headers -> Forall (fun h => ~ authorizes h) hs).
Proof.
  unfold add_configured_headers, headers_clean. intros Hclean Hm.
  destruct (forallb valid_generated headers) eqn:Ev; [|done].
  intros [-> Hall]%append_configured_spec.
  assert (Hc : Forall (fun h => safe_header (ch_name h, ch_value h) /\
      ~ managed (ch_name h, ch_value h) /\
      (protect = true -> ~ authorizes (ch_name h, ch_value h))) (configured_headers_ config)).
  { rewrite Forall_forall in Hclean, Hall |- *. intros h Hin.
    destruct (Hall h Hin) as (Hmal & Hh & Hr & Hp & _). destruct (Hclean h Hin Hmal) as [C1 C2 C3 C4 C5].
    assert (Hlow : lower (ch_name h) = ch_lowercase_name h) by (by rewrite C5).
    unfold managed, authorizes, safe_header. cbn [fst snd]. rewrite Hlow. split_and!; try done; [tauto|]. intros Hpr [Ha|Ha]; specialize (Hp Hpr);
      rewrite Ha in Hp; by vm_compute in Hp. }
  rewrite !Forall_app, !Forall_map. split_and!.
  - apply Forall_forall. intros h Hin. apply valid_generated_safe.
    rewrite forallb_forall in Ev. by apply Ev, list_elem_of_In.
  - eapply Forall_impl; [exact Hc|]. cbn. tauto.
  - done.
  - eapply Forall_impl; [exact Hc|]. cbn. tauto.
  - intros Hp Ha. split; [done|].
    eapply Forall_impl; [exact Hc|]. cbn. tauto.
Qed.

Lemma frozen_headers_clean v b : freeze v b = Ok config -> headers_clean.
Proof.
  intros (_ & _ & _ & _ & _ & _ & _ & _ & _ & Hh & _)%freeze_spec. unfold headers_clean. rewrite Hh.
  apply Forall_forall. intros h Hin Hm. by eapply parse_headers_from_clean.
Qed.

Lemma materialize_range_headers now cache l creds range hint pin r :
  headers_clean -> (materialize_range config now cache l creds range hint pin).1 = Ok r ->
  Forall safe_header (req_headers r) /\ Forall (fun h => ~ managed h) (req_headers r) /\
  (is_Some (cloud_provider (backend l)) -> follow_redirects (req_http r) = true ->
   Forall (fun h => ~ authorizes h) (req_headers r)) /\
  same_origin_redirects_only (req_http r) = has_configured_headers_ config.
Proof.
  intros Hclean. unfold materialize_range. destruct (_ || _) eqn:Eb.
  - cbn [fst]. intros (p & Hp & [= <-])%expected_bind_ok. cbn.
    assert (Hh : exists gen protect, Forall (fun h => ~ managed h) gen /\
      add_configured_headers config gen protect = Ok (req_headers p)).
    { destruct (bool_decide (backend l = Http)).
      - unfold prepare_http in Hp. apply expected_bind_ok in Hp as (hs & Hhs & [= <-]). cbn.
        eexists _, _. split; [|exact Hhs]. apply plain_not_managed, if_match_header_plain.
      - unfold prepare_hugging_face in Hp. apply expected_bind_ok in Hp as (e & _ & Hp).
        apply expected_bind_ok in Hp as (parts & _ & Hp). destruct (negb _); [done|].
        apply expected_bind_ok in Hp as (token & _ & Hp).
        apply expected_bind_ok in Hp as (hs & Hhs & [= <-]). cbn.
        eexists _, _. split; [|exact Hhs]. apply Forall_app. split.
        + destruct (str_eqb token []); [constructor|]. apply Forall_singleton. by intros [?|?].
        + apply plain_not_managed, if_match_header_plain. }
    destruct Hh as (gen & protect & Hgen & Hadd).
    destruct (add_configured_safe gen protect _ Hclean Hgen Hadd) as (H1 & H2 & _).
    split_and!; [done|done| |done]. intros [cp Hcp] _. exfalso.
    apply orb_true_iff in Eb as [Eb%bool_decide_eq_true|Eb%bool_decide_eq_true];
      rewrite Eb in Hcp; done.
  - destruct (cloud_provider _) as [cp|]; [|done].
    set (ctx := mkContext _ _ _ _ _ _ _).
    pose proof (prepare_request_sober cache ctx) as Hsober.
    destruct (prepare_request cache ctx) as [prepared cache']. cbn [fst] in *.
    intros (p & -> & (hs & Hhs & [= <-])%expected_bind_ok)%expected_bind_ok.
    destruct (Hsober p eq_refl) as [S1 S2].
    destruct (add_configured_safe _ _ _ Hclean S1 Hhs) as (H1 & H2 & H3). cbn.
    split_and!; [done|done| |done]. intros _ Hf. apply H3; [done|by apply S2].
Qed.

(** ** Properties *)

(** A request asks for exactly the bytes it is for: a prepared request
    carries the Range header of the bytes it was asked for, which do not pass
    the last 64-bit offset; any other range is refused, without looking for
    credentials. *)
Theorem prepared_request_asks_the_range custom native now cache l first length hint pin :
  is_u64 first -> is_u64 length ->
  match (prepare config custom native now cache l first length hint pin).1 with
  | Ok r => 1 <= length /\ first + length - 1 <= U64_MAX /\
            req_range r = concat [Text $"bytes="; Integer first; Text $"-"; Integer (first + length - 1)]
  | Err e => (length = 0 \/ U64_MAX < first + length - 1) -> e = range_overflows
  end.
Proof.
  intros Hf Hl. pose proof (builder_laws config custom native now cache) as [Hlaw _]. cbn in Hlaw.
  specialize (Hlaw l first length hint pin). unfold prepare in *.
  destruct (bad_range first length) eqn:Eb; [done|].
  destruct (bad_range_false _ _ Eb Hl) as [H1 H2]. unfold is_u64 in *.
  destruct (resolve_credentials _ _ _ l); [|intros [?|?]; lia].
  destruct (materialize _ _ _ _ _ _ _ _ _).1; [|intros [?|?]; lia].
  split_and!; [done|done|]. specialize (Hlaw _ eq_refl). unfold asks_range in Hlaw.
  by rewrite wrap64_small in Hlaw by (unfold is_u64; lia).
Qed.

(** C37: no header injection: in every request of a client whose
    configuration was frozen, each header has a nonempty name without a colon
    and no line end in its name or value, none sets Host or Range, and a
    request of a cloud backend that may be redirected carries no
    authorization; configured headers confine redirects to the origin. *)
Theorem request_headers_are_safe v b now cache l creds first length hint pin r :
  freeze v b = Ok config ->
  (materialize config now cache l creds first length hint pin).1 = Ok r ->
  Forall safe_header (req_headers r) /\ Forall (fun h => ~ managed h) (req_headers r) /\
  (is_Some (cloud_provider (backend l)) -> follow_redirects (req_http r) = true ->
   Forall (fun h => ~ authorizes h) (req_headers r)) /\
  same_origin_redirects_only (req_http r) = has_configured_headers_ config.
Proof.
  intros Hfreeze. unfold materialize. destruct (bad_range _ _); [done|].
  apply materialize_range_headers. by eapply frozen_headers_clean.
Qed.
End Configured.

(** The registry and [has_cloud_provider] agree. *)
Lemma has_cloud_provider_spec b : has_cloud_provider b = true <-> is_Some (cloud_provider b).
Proof. destruct b; cbn; split; first [done|by eexists|by intros [? ?]]. Qed.

(** *** Witnesses *)

(** An OpenSSL whose digests are the last bytes of their input. *)
#[export] Instance example_platform : Platform := {|
  EVP_sha256 s := Some (take 32 (s ++ repeat "000"%char 32));
  HMAC_sha1 k s := Some (take 20 (s ++ repeat "000"%char 20));
  EVP_EncodeBlock s := s;
  EVP_DecodeBlock s := Some s;
  strftime_utc t f := $"20240102T030405Z";
  fs_exists p := Ok false;
  ifstream p := None;
|}.

Definition s3_object : Locator :=
  Resolved_default <| backend := S3 |> <| canonical_uri := $"s3://bucket/key" |>
    <| container := $"bucket" |> <| key := $"key" |>.
Definition s3_keys : ProviderCredentials :=
  ProviderCredentials_default <| access_key_id := $"AKID" |> <| secret_access_key := $"secret" |>.

Definition s3_request : PreparedRequest :=
  match (materialize example_snapshot 0 empty_key_cache s3_object (Some s3_keys) 10 5 [] []).1 with
  | Ok r => r
  | Err _ => new_request [] []
  end.

Lemma s3_request_prepared :
  (materialize example_snapshot 0 empty_key_cache s3_object (Some s3_keys) 10 5 [] []).1 = Ok s3_request.
Proof. vm_compute. reflexivity. Qed.

Lemma request_headers_are_safe_witness :
  map fst (req_headers s3_request)
    = [ $"x-amz-content-sha256"; $"x-amz-date"; $"Authorization"; $"X-Team"; $"x-app"] /\
  Forall safe_header (req_headers s3_request).
Proof.
  split; [vm_compute; reflexivity|].
  exact (proj1 (request_headers_are_safe example_snapshot $"1.0" example_builder 0 empty_key_cache
    s3_object (Some s3_keys) 10 5 [] [] s3_request example_freezes s3_request_prepared)).
Defined.

Lemma prepared_request_asks_the_range_witness :
  match (prepare example_snapshot (fun _ _ => Ok s3_keys) (fun _ _ => Ok s3_keys) 0 empty_key_cache
           s3_object 10 5 [] []).1 with
  | Ok r => 1 <= 5 /\ 10 + 5 - 1 <= U64_MAX /\
            req_range r = concat [Text $"bytes="; Integer 10; Text $"-"; Integer (10 + 5 - 1)]
  | Err e => (5 = 0 \/ U64_MAX < 10 + 5 - 1) -> e = range_overflows
  end.
Proof.
  apply (prepared_request_asks_the_range example_snapshot (fun _ _ => Ok s3_keys) (fun _ _ => Ok s3_keys));
    unfold is_u64; lia.
Defined.
