(* ===== verification/CredentialFlow.v ===== *)
(** * CredentialFlow: whose credentials a lookup answers with

    Composes the parts that find credentials: the snapshot's scopes
    ([config.cpp]), the loaders of the providers, and the cache with its
    flights ([credential_cache.cpp]).  [Scopes] shows that two paths with the
    same scope key load the same credentials, the reason why one cache entry
    may serve both.  [Lookups] runs native and custom lookups, completions and
    invalidations in any order, each load being the provider's own, and shows
    that no lookup is answered with the credentials of another scope. *)

From Stdlib Require Import Morphisms.
From S2P Require Import Prelude Text Uri Types Planner Response CurlSetup Process Config Backends Credentials CredentialRequest Loaders TokenLoaders CredentialCache RequestBuilder.

(** ** [CloudProvider::load_credentials] *)

Section Dispatch.
Context `{Platform} `{Outside}.
Variable rsa_answer : str -> str -> RsaAnswer.

Definition load_credentials (config : ConfigSnapshot) (p : CloudProvider) (path : str)
    : Loader ProviderCredentials :=
  match cp_backend p with
  | S3 => load_aws_credentials config path
  | Gcs => load_gcs_credentials rsa_answer config path
  | Azure => load_azure_credentials config path
  | Source => load_source_credentials config path
  | File | Http | HuggingFace => lift (Err unsupported_backend)   (* the registry has no such provider *)
  end.
End Dispatch.

(** ** Builders *)

(** The configurations a program can make. *)
Inductive built : ConfigBuilder -> Prop :=
| built_new getenv is_file environment : built (new_builder getenv is_file environment)
| built_set b name value b' : built b -> Config.set b name value = Ok b' -> built b'
| built_set_path b prefix name value b' : built b -> set_path b prefix name value = Ok b' -> built b'
| built_set_provider b kind callback data destroy b' :
    built b -> set_provider b kind callback data destroy = Ok b' -> built b'.

Lemma set_rule_prefixes rules prefix name value :
  map po_prefix (set_rule rules prefix name value) =
  if decide (prefix ∈ map po_prefix rules) then map po_prefix rules else map po_prefix rules ++ [prefix].
Proof.
  induction rules as [|r rules IH]; cbn [set_rule map].
  { rewrite decide_False; [done|]. by intros ?%not_elem_of_nil. }
  unfold str_eqb. case_bool_decide as E.
  - cbn. rewrite decide_True; [done|]. rewrite E. apply list_elem_of_here.
  - cbn [map]. rewrite IH. destruct (decide (prefix ∈ map po_prefix rules)) as [Hin|Hout].
    + rewrite decide_True; [done|by apply list_elem_of_further].
    + rewrite decide_False; [done|]. by intros [->|?]%elem_of_cons.
Qed.

Lemma built_rules_distinct b : built b -> NoDup (map po_prefix (b_paths b)).
Proof.
  induction 1 as [getenv is_file []|b name value b' _ IH Hs|b prefix name value b' _ IH Hs|b k f d r b' _ IH Hs].
  1-2: constructor.
  - unfold Config.set in Hs. destruct name; [done|]. cbn zeta in Hs.
    destruct (negb _); [done|]. by injection Hs as <-.
  - unfold set_path in Hs. destruct prefix; [done|]. destruct name; [done|]. cbn zeta in Hs.
    destruct (negb _); [done|]. destruct (starts_with _ _); [done|]. injection Hs as <-. cbn [b_paths].
    change (b_paths (_ <| b_paths := ?x |>)) with x. rewrite set_rule_prefixes.
    case_decide as Hin; [done|]. apply NoDup_app. split_and!; [done| |apply NoDup_singleton].
    intros x Hx ->%list_elem_of_singleton. done.
  - unfold set_provider in Hs. destruct (_ || _); [done|]. destruct (f =? 0).
    + destruct (_ || _); [done|]. by injection Hs as <-.
    + by injection Hs as <-.
Qed.

(** ** Scope keys *)

Section Scopes.
Variable config : ConfigSnapshot.

(** Where the value of an option comes from. *)
Definition scope_of (path name : str) : str :=
  match best_rule path name (paths_ config) None with
  | Some best => po_prefix best
  | None => if has_value (explicit_ config) name then $"explicit"
            else if has_value (environment_ config) name then $"environment" else $"default"
  end.

Lemma scope_entry_eq path name :
  scope_entry config path name = canonical_option_name name ++ $"=" ++ scope_of path (canonical_option_name name) ++ [LF].
Proof. done. Qed.

Definition one_line (s : str) : Prop := LF ∉ s.
#[local] Instance one_line_dec s : Decision (one_line s).
Proof. unfold one_line. apply _. Defined.

(** Each prefix has one rule, and none holds a line end. *)
Record rules_ok : Prop := {
  ro_distinct : NoDup (map po_prefix (paths_ config));
  ro_lines : Forall (fun r => one_line (po_prefix r)) (paths_ config);
}.

Lemma best_rule_member path name r :
  best_rule path name (paths_ config) None = Some r ->
  r ∈ paths_ config /\ path_prefix_matches path (po_prefix r) = true.
Proof.
  intros E. pose proof (best_rule_spec path name (paths_ config) None) as H. rewrite E in H.
  destruct H as [[? _]|(a & b & -> & [? _] & _)]; [done|]. split; [|done].
  apply elem_of_app. right. apply list_elem_of_here.
Qed.

Lemma rule_of_prefix r1 r2 : rules_ok -> r1 ∈ paths_ config -> r2 ∈ paths_ config ->
  po_prefix r1 = po_prefix r2 -> r1 = r2.
Proof.
  intros [Hd _] (i & Hi)%list_elem_of_lookup (j & Hj)%list_elem_of_lookup E.
  assert (i = j) as ->; [|congruence].
  eapply NoDup_lookup; [exact Hd| |]; rewrite list_lookup_fmap; [rewrite Hi|rewrite Hj]; cbn; [done|congruence].
Qed.

Lemma scope_one_line path name : rules_ok -> one_line (scope_of path name).
Proof.
  intros [_ Hl]. unfold scope_of. destruct (best_rule _ _ _ _) as [r|] eqn:E.
  - apply best_rule_member in E as [Hr _]. rewrite Forall_forall in Hl. by apply Hl.
  - destruct (has_value _ _); [|destruct (has_value _ _)]; apply (bool_decide_unpack (one_line _)); by vm_compute.
Qed.

(** Paths of the cloud providers. *)
Definition vsi_path (path : str) : Prop := starts_with (canonical_vsi_path path) $"/vsi" = true.

(** A rule that matches such a path is none of the words for the layers. *)
Lemma vsi_rule path name r : starts_with path $"/vsi" = true ->
  best_rule path name (paths_ config) None = Some r -> starts_with $"/" (po_prefix r) = true \/
  starts_with (po_prefix r) $"/" = true.
Proof.
  intros Hv [_ Hm]%best_rule_member. apply path_prefix_matches_spec in Hm as (tail & -> & _).
  destruct (po_prefix r) as [|c rest]; [by left|right].
  unfold starts_with in *. cbn in *. apply andb_true_iff in Hv as [-> _]. done.
Qed.

Lemma scope_decides p1 p2 name fallback :
  rules_ok -> vsi_path p1 -> vsi_path p2 ->
  scope_of (canonical_vsi_path p1) (canonical_option_name name)
    = scope_of (canonical_vsi_path p2) (canonical_option_name name) ->
  option_ config p1 name fallback = option_ config p2 name fallback.
Proof.
  unfold vsi_path, scope_of, option_. intros Hok H1 H2.
  destruct (best_rule (canonical_vsi_path p1) _ _ _) as [r1|] eqn:E1;
    destruct (best_rule (canonical_vsi_path p2) _ _ _) as [r2|] eqn:E2; [| | |done].
  - intros E. apply best_rule_member in E1 as [? _], E2 as [? _]. by rewrite (rule_of_prefix r1 r2).
  - intros E. exfalso. apply vsi_rule in E1; [|done]. rewrite E in E1. revert E1.
    by destruct (has_value _ _); [|destruct (has_value _ _)]; intros [?|?].
  - intros E. exfalso. apply vsi_rule in E2; [|done]. rewrite <-E in E2. revert E2.
    by destruct (has_value _ _); [|destruct (has_value _ _)]; intros [?|?].
Qed.

Lemma one_line_split s1 s2 r1 r2 : one_line s1 -> one_line s2 ->
  s1 ++ LF :: r1 = s2 ++ LF :: r2 -> s1 = s2 /\ r1 = r2.
Proof.
  unfold one_line. revert s2. induction s1 as [|c s1 IH]; intros [|d s2] H1 H2; cbn; intros E;
    injection E as E.
  - done.
  - exfalso. apply H2. rewrite E. apply list_elem_of_here.
  - exfalso. apply H1. rewrite E. apply list_elem_of_here.
  - subst d. destruct (IH s2) as [-> ->]; [| |done|done]; intros Hin.
    + apply H1. by apply list_elem_of_further.
    + apply H2. by apply list_elem_of_further.
Qed.

(** The scope key tells every option of its table apart. *)
Lemma scope_key_decides p1 p2 names : rules_ok -> vsi_path p1 -> vsi_path p2 ->
  scope_key config p1 names = scope_key config p2 names ->
  Forall (fun name => forall fallback, option_ config p1 name fallback = option_ config p2 name fallback) names.
Proof.
  intros Hok H1 H2. unfold scope_key. induction names as [|name names IH]; [constructor|].
  cbn [map List.concat]. rewrite !scope_entry_eq, <-!app_assoc. intros E%app_inv_head%app_inv_head.
  cbn [app] in E. apply one_line_split in E as [E1 E2]; [|by apply scope_one_line..].
  constructor; [|by apply IH]. intros fallback. by apply scope_decides.
Qed.
End Scopes.

(** ** Loads of paths in the same scope *)

(** Results that agree up to the text of an error, which may name the path. *)
Definition same_result {A} (r1 r2 : expected RequestError A) : Prop :=
  match r1, r2 with
  | Ok a, Ok b => a = b
  | Err e, Err f => err_status e = err_status f
  | _, _ => False
  end.
Definition alike {A} : relation (Loader A) := fun m1 m2 =>
  forall w, same_result (m1 w).1 (m2 w).1 /\ (m1 w).2 = (m2 w).2.

#[export] Instance same_result_equivalence A : Equivalence (@same_result A).
Proof.
  split.
  - by intros [].
  - by intros [] [].
  - intros [] [] [] H1 H2; cbn in *; by rewrite ?H1.
Qed.
#[export] Instance alike_equivalence A : Equivalence (@alike A).
Proof.
  split.
  - done.
  - intros m1 m2 H w. destruct (H w). by split.
  - intros m1 m2 m3 H1 H2 w. destruct (H1 w), (H2 w). split; by etrans.
Qed.
#[export] Instance alike_bind A B : Proper (pointwise_relation A alike ==> alike ==> alike) (@mbind Loader _ A B).
Proof.
  intros f1 f2 Hf m1 m2 Hm w. destruct (Hm w) as [H1 H2]. unfold mbind, loader_bind.
  destruct (m1 w) as [[a|e] w1], (m2 w) as [[b|e'] w2]; cbn [fst snd] in *; try done.
  rewrite <-H1, <-H2. apply Hf.
Qed.
Lemma alike_lift {A} (r1 r2 : expected RequestError A) : same_result r1 r2 -> alike (lift r1) (lift r2).
Proof. done. Qed.

(** The options of a table read the same for two paths; rewrite with it. *)
Ltac read_same H :=
  unfold has_option;
  repeat match type of H with
  | Forall (fun name => forall fallback, option_ ?c ?p1 _ _ = _) ?names =>
      match goal with
      | |- context [option_ c p1 ?name ?fallback] =>
          rewrite (proj1 (Forall_forall _ names) H name
                     (bool_decide_unpack (name ∈ names) ltac:(vm_compute; exact I)) fallback)
      end
  end.
(** Two loads of the same shape: step through them together. *)
Ltac step_alike H :=
  cbv beta zeta; read_same H;
  lazymatch goal with
  | |- alike ?m ?n =>
      tryif constr_eq m n then reflexivity else
      lazymatch m with
      | mbind _ _ => apply alike_bind; [intros ?|]; step_alike H
      | lift (match ?x with _ => _ end) => destruct x; step_alike H
      | lift (Err _) => apply alike_lift; reflexivity
      | throw _ _ => apply alike_lift; reflexivity
      | match ?x with _ => _ end => destruct x; step_alike H
      end
  end.

Section SameScope.
Context `{Platform} `{Outside}.
Variable rsa_answer : str -> str -> RsaAnswer.
Variable config : ConfigSnapshot.
Variables p1 p2 : str.

Abbreviation agree names :=
  (Forall (fun name => forall fallback, option_ config p1 name fallback = option_ config p2 name fallback) names).

Lemma azure_alike : agree AZURE_CREDENTIAL_OPTIONS ->
  alike (load_azure_credentials config p1) (load_azure_credentials config p2).
Proof.
  intros Ho. unfold load_azure_credentials, azure_service_principal, app_service_identity,
    azure_instance_identity, azure_direct.
  step_alike Ho.
Qed.

Lemma gcs_alike : agree GCS_CREDENTIAL_OPTIONS ->
  alike (load_gcs_credentials rsa_answer config p1) (load_gcs_credentials rsa_answer config p2).
Proof.
  intros Ho. unfold load_gcs_credentials, gcs_direct, gcs_adc, gcs_configured_account, gcs_metadata, adc_file,
    gcs_service_account, gcs_authorized_user, gcs_external_account, gcs_scope.
  step_alike Ho.
Qed.

Lemma aws_alike : agree S3_CREDENTIAL_OPTIONS ->
  alike (load_aws_credentials config p1) (load_aws_credentials config p2).
Proof.
  intros Ho. unfold load_aws_credentials, direct_keys, read_aws_profile, read_profile_file,
    ambient_aws_credentials, container_credentials.
  step_alike Ho.
Qed.

Lemma source_alike : agree SOURCE_CREDENTIAL_OPTIONS ->
  alike (load_source_credentials config p1) (load_source_credentials config p2).
Proof.
  intros Ho. unfold load_source_credentials, direct_keys, read_aws_profile, read_profile_file.
  step_alike Ho.
Qed.
End SameScope.

(** Two lookups with one native key load the same credentials. *)
Section SameKey.
Context `{Platform} `{Outside}.
Variable rsa_answer : str -> str -> RsaAnswer.
Variable config : ConfigSnapshot.

(** A provider of the registry. *)
Definition registered (p : CloudProvider) : Prop := exists b, cloud_provider b = Some p.

Lemma registered_cases p : registered p ->
  p = default p (cloud_provider S3) \/ p = default p (cloud_provider Gcs) \/
  p = default p (cloud_provider Azure) \/ p = default p (cloud_provider Source).
Proof. intros [[] [= <-]]; cbn; tauto. Qed.

Lemma registered_kind p : registered p -> credentials_kind p ∈ [1; 2; 3; 4].
Proof. intros [[] [= <-]]; cbn; set_solver. Qed.

Lemma same_kind p q : registered p -> registered q -> credentials_kind p = credentials_kind q -> p = q.
Proof. intros [[] [= <-]] [[] [= <-]]; by cbn. Qed.

(** Families differ within their common length. *)
Lemma family_inj s1 s2 k1 k2 x y :
  s1 ∈ [$"native"; $"custom"] -> s2 ∈ [$"native"; $"custom"] -> k1 ∈ [1; 2; 3; 4] -> k2 ∈ [1; 2; 3; 4] ->
  credential_key (credential_family s1 k1) x = credential_key (credential_family s2 k2) y ->
  s1 = s2 /\ k1 = k2 /\ x = y.
Proof.
  unfold credential_key. intros H1 H2 H3 H4 E.
  assert (Hl : forall s k, s ∈ [$"native"; $"custom"] -> k ∈ [1; 2; 3; 4] -> length (credential_family s k) = 9%nat).
  { intros s k Hs Hk. repeat (apply elem_of_cons in Hs as [->|Hs]; [|try by apply not_elem_of_nil in Hs]);
      repeat (apply elem_of_cons in Hk as [->|Hk]; [by vm_compute|]); by apply not_elem_of_nil in Hk. }
  apply app_inj_1 in E as [E ->]; [|by rewrite !Hl].
  assert (Ha : forallb (fun a => forallb (fun b => negb (str_eqb (credential_family a.1 a.2) (credential_family b.1 b.2))
      || (str_eqb a.1 b.1 && (a.2 =? b.2))) (list_prod [$"native"; $"custom"] [1; 2; 3; 4]))
      (list_prod [$"native"; $"custom"] [1; 2; 3; 4]) = true) by (vm_compute; reflexivity).
  rewrite forallb_forall in Ha. specialize (Ha (s1, k1) ltac:(apply in_prod; by apply list_elem_of_In)).
  rewrite forallb_forall in Ha. specialize (Ha (s2, k2) ltac:(apply in_prod; by apply list_elem_of_In)).
  cbn [fst snd] in Ha. rewrite E, str_eqb_refl in Ha. cbn in Ha. apply andb_true_iff in Ha as [Ha Hk].
  apply str_eqb_eq in Ha. apply Z.eqb_eq in Hk. done.
Qed.

Lemma load_alike p p1 p2 : registered p -> rules_ok config -> vsi_path p1 -> vsi_path p2 ->
  scope_key config p1 (credential_options p) = scope_key config p2 (credential_options p) ->
  alike (load_credentials rsa_answer config p p1) (load_credentials rsa_answer config p p2).
Proof.
  intros Hp Hok H1 H2 E%scope_key_decides; [|done..]. revert E. destruct Hp as [[] [= <-]]; cbn; intros E.
  - by apply aws_alike.
  - by apply gcs_alike.
  - by apply azure_alike.
  - by apply source_alike.
Qed.
End SameKey.

(** ** Lookups *)

(** The template [load_credentials] of the cache: what a loader throws is an
    error like any other. *)
Definition guarded_load (load : raised Loaded) : Loaded :=
  match load with
  | Value r => r
  | Raise Bad_alloc =>
      Err {| err_status := KARU_ERR_NOMEM; err_message := $"out of memory loading credentials" |}
  | Raise (Std_exception what) => Err (credentials_error ($"credential provider: " ++ what))
  | Raise Unknown_exception => Err (credentials_error $"credential provider raised an unknown exception")
  end.

Section Lookups.
Context `{Platform} `{Outside}.
Variable rsa_answer : str -> str -> RsaAnswer.
Variable config : ConfigSnapshot.
(** What the user's callback of a kind may answer for a path. *)
Variable callback_answers : Z -> str -> karu_status * karu_credentials -> Prop.

Abbreviation flight_key := (CredentialCache.flight_key config).
Abbreviation lookup_begin := (CredentialCache.lookup_begin config).
Abbreviation lookup_finish := (CredentialCache.lookup_finish config).
Abbreviation lookup_invalidate := (CredentialCache.lookup_invalidate config).

(** What the provider's own loader, or the user's callback, may answer. *)
Definition loads (l : Lookup) (r : Loaded) : Prop :=
  match l with
  | Native p path => exists w w', load_credentials rsa_answer config p path w = (r, w')
  | Custom p path => exists a, callback_answers (credentials_kind p) (c_str path) a /\
                       custom_load (copy_callback_credentials (fun _ => a)) path = r
  end.

Definition lookup_ok (l : Lookup) : Prop := registered (lookup_provider l) /\ vsi_path (lookup_path l).

(** The runs of the cache in which every load is the provider's own. *)
Inductive flow : lookups -> lookups -> Prop :=
| flow_begin c owners l now st c' :
    lookup_ok l -> lookup_begin l c now = (st, c') -> flow (c, owners) (c', begun l st owners)
| flow_finish c owners l f flight load now :
    owners !! f = Some l -> table c !! f = Some flight -> done_ flight = false ->
    (forall r, load = Value r -> loads l r) ->
    flow (c, owners) (lookup_finish l c f (guarded_load load) now, owners)
| flow_invalidate c owners l : flow (c, owners) (lookup_invalidate l c, owners).

(** [l] answers [r] when it begins in [s] and is over by [s']: from the cache,
    or from the flight it joined or started. *)
Inductive answered (s s' : lookups) (l : Lookup) (now : Z) : Loaded -> Prop :=
| answered_hit c cache' : lookup_begin l s.1 now = (Hit c, cache') -> answered s s' l now (Ok c)
| answered_flight st f cache' flight r :
    lookup_begin l s.1 now = (st, cache') -> st = Join f \/ st = Load f ->
    rtc flow (cache', begun l st s.2) s' ->
    table s'.1 !! f = Some flight -> result_ flight = Some r -> answered s s' l now r.

(** Credentials that are [l]'s: its provider's for its path or, from a
    callback, for a scope that contains it. *)
Definition own (l : Lookup) (c : ProviderCredentials) : Prop :=
  match l with
  | Native _ _ => loads l (Ok c)
  | Custom p path => exists path', loads (Custom p path') (Ok c) /\
      (path' = path \/ cache_prefix c <> [] /\ path_prefix_matches path (cache_prefix c) = true)
  end.

(** *** The invariant *)

Definition entry_ok (k : str) (c : ProviderCredentials) : Prop :=
  exists l, lookup_ok l /\ loads l (Ok c) /\
    match l with
    | Native _ _ => k = flight_key l
    | Custom p _ => cache_prefix c <> [] /\
        k = credential_key (credential_family $"custom" (credentials_kind p)) (cache_prefix c)
    end.

Record flow_ok (s : lookups) : Prop := {
  fk_length : length s.2 = length (table s.1);
  fk_owners : Forall lookup_ok s.2;
  fk_flights : forall k f, flights_ s.1 !! k = Some f -> exists l, s.2 !! f = Some l /\ flight_key l = k;
  fk_results : forall f flight l c, table s.1 !! f = Some flight -> s.2 !! f = Some l ->
    result_ flight = Some (Ok c) -> loads l (Ok c);
  fk_entries : forall k e, entries_ s.1 !! k = Some e -> entry_ok k (credentials_ e);
}.

Lemma flow_start : flow_ok (empty_cache, []).
Proof.
  constructor; cbn; first [done|intros ??; by rewrite lookup_empty].
Qed.

(** A flight that begins, or a cache that is only read. *)
Lemma join_or_load_flow c owners l st c' :
  flow_ok (c, owners) -> lookup_ok l -> join_or_load c (flight_key l) = (st, c') ->
  flow_ok (c', begun l st owners).
Proof.
  intros Hok Hl. unfold join_or_load. destruct (flights_ c !! flight_key l) as [f|]; intros [= <- <-]; [done|].
  pose proof (fk_length _ Hok) as Hlen. cbn in Hlen. constructor; cbn [fst snd begun].
  - cbn. rewrite !length_app, Hlen. done.
  - apply Forall_app. split; [apply (fk_owners _ Hok)|by constructor].
  - intros k f. cbn. rewrite lookup_insert_Some. intros [[<- <-]|[_ Hk]].
    + exists l. rewrite lookup_app_r, Hlen, Nat.sub_diag by lia. done.
    + destruct (fk_flights _ Hok _ _ Hk) as (o & Ho & E). exists o. split; [by apply lookup_app_l_Some|done].
  - intros f flight o v. cbn. rewrite lookup_app_Some. intros [Hf|[Hf1 Hf2]] Ho.
    + rewrite lookup_app_l in Ho by (rewrite Hlen; by eapply lookup_lt_Some). by apply (fk_results _ Hok f flight o).
    + by apply list_lookup_singleton_Some in Hf2 as [_ <-].
  - apply (fk_entries _ Hok).
Qed.

Lemma flow_begin_ok c owners l now st c' :
  flow_ok (c, owners) -> lookup_ok l -> lookup_begin l c now = (st, c') -> flow_ok (c', begun l st owners).
Proof.
  intros Hok Hl. destruct l as [p path|p path]; cbn [lookup_begin].
  - unfold native_begin. destruct (entries_ c !! _) as [e|]; [destruct (reusable e now)|].
    + by intros [= <- <-].
    + by apply (join_or_load_flow c owners (Native p path)).
    + by apply (join_or_load_flow c owners (Native p path)).
  - unfold custom_begin. destruct (find_reusable _ _ _ _) as [e|]; [by intros [= <- <-]|].
    by apply (join_or_load_flow c owners (Custom p path)).
Qed.

Lemma refused_stays text now loaded c : refuse_expired text now loaded = Ok c -> loaded = Ok c.
Proof. destruct loaded; cbn; [destruct (_ && _)|]; congruence. Qed.

(** A flight publishes what its lookup may answer. *)
Lemma publish_flow c owners l f flight loaded entry :
  flow_ok (c, owners) -> owners !! f = Some l -> table c !! f = Some flight ->
  (forall v, loaded = Ok v -> loads l (Ok v)) ->
  (forall k e, entry = Some (k, e) -> entry_ok k (credentials_ e)) ->
  flow_ok (publish c (flight_key l) f loaded entry, owners).
Proof.
  intros Hok Ho Hf Hloaded Hentry. destruct (publish_table c (flight_key l) f loaded entry flight Hf) as (T & F & E).
  constructor; cbn [fst snd]; rewrite ?T, ?F, ?E.
  - rewrite length_insert. apply (fk_length _ Hok).
  - apply (fk_owners _ Hok).
  - intros k g. unfold land. destruct (decide _); [|apply (fk_flights _ Hok)].
    intros [_ Hk]%lookup_delete_Some. by apply (fk_flights _ Hok).
  - intros g x o v. rewrite list_lookup_insert_Some. intros [(<- & <- & _)|[Hne Hg]]; [|by apply (fk_results _ Hok)].
    rewrite Ho. intros [= <-]. cbn. intros [= E']. by apply Hloaded.
  - intros k e. destruct (invalidated flight); [apply (fk_entries _ Hok)|].
    destruct entry as [[k' e']|]; [|apply (fk_entries _ Hok)].
    rewrite lookup_insert_Some. intros [[<- <-]|[_ Hk]]; [by apply (Hentry k' e')|by apply (fk_entries _ Hok)].
Qed.

Lemma flow_finish_ok c owners l f flight loaded now :
  flow_ok (c, owners) -> owners !! f = Some l -> table c !! f = Some flight ->
  (forall v, loaded = Ok v -> loads l (Ok v)) ->
  flow_ok (lookup_finish l c f loaded now, owners).
Proof.
  intros Hok Ho Hf Hloaded.
  assert (Hl : lookup_ok l) by (pose proof (fk_owners _ Hok) as Ha; rewrite Forall_lookup in Ha; by eapply Ha).
  destruct l as [p path|p path]; cbn [lookup_finish].
  - unfold native_finish. eapply (publish_flow c owners (Native p path)); [done..| |].
    + intros v Hv%refused_stays. by apply Hloaded.
    + intros k e. destruct (refuse_expired _ _ _) as [v|] eqn:Er; [|done]. destruct (present v); [|done].
      intros [= <- <-]. apply refused_stays in Er. exists (Native p path). cbn [credentials_]. auto.
  - unfold custom_finish. eapply (publish_flow c owners (Custom p path)); [done..| |].
    + intros v Hv%refused_stays. by apply Hloaded.
    + intros k e. destruct (refuse_expired _ _ _) as [v|] eqn:Er; [|done].
      unfold str_eqb. case_bool_decide as Hp; [done|]. intros [= <- <-]. apply refused_stays in Er.
      exists (Custom p path). cbn [credentials_]. auto.
Qed.

Lemma fewer_entries (c : CredentialCache) (owners : list Lookup) (m : gmap str Entry) :
  flow_ok (c, owners) -> m ⊆ entries_ c -> flow_ok (c <| entries_ := m |>, owners).
Proof.
  intros Hok Hm. constructor; cbn; try apply Hok. intros k e Hk. apply (fk_entries _ Hok). cbn.
  by eapply lookup_weaken.
Qed.

Lemma mark_invalidated_flow c owners key : flow_ok (c, owners) -> flow_ok (mark_invalidated c key, owners).
Proof.
  intros Hok. unfold mark_invalidated. destruct (flights_ c !! key) as [f|]; [|done].
  constructor; cbn.
  - rewrite length_alter. apply (fk_length _ Hok).
  - apply (fk_owners _ Hok).
  - intros k g [_ Hk]%lookup_delete_Some. by apply (fk_flights _ Hok).
  - intros g x o v. destruct (decide (f = g)) as [<-|Hne].
    + rewrite list_lookup_alter_eq. intros (y & Hy & ->)%fmap_Some. by apply (fk_results _ Hok f y).
    + rewrite list_lookup_alter_ne by done. by apply (fk_results _ Hok g x).
  - apply (fk_entries _ Hok).
Qed.

Lemma flow_invalidate_ok c owners l : flow_ok (c, owners) -> flow_ok (lookup_invalidate l c, owners).
Proof.
  intros Hok. destruct l as [p path|p path]; cbn [lookup_invalidate]; unfold invalidate; cbn [negb].
  - apply mark_invalidated_flow, fewer_entries; [done|]. apply delete_subseteq.
  - apply (fewer_entries (mark_invalidated c _)); [by apply mark_invalidated_flow|]. apply map_filter_subseteq.
Qed.

Lemma guarded_load_ok load v : guarded_load load = Ok v -> load = Value (Ok v).
Proof. destruct load as [r|[]]; cbn; congruence. Qed.

Lemma flow_step_ok s s' : flow s s' -> flow_ok s -> flow_ok s'.
Proof.
  intros [c owners l now st c' Hl Hb|c owners l f flight load now Ho Hf _ Hload|c owners l] Hok.
  - by eapply flow_begin_ok.
  - eapply flow_finish_ok; [done..|]. intros v ->%guarded_load_ok. by apply Hload.
  - by apply flow_invalidate_ok.
Qed.

Lemma flow_steps_ok s s' : rtc flow s s' -> flow_ok s -> flow_ok s'.
Proof. induction 1; eauto using flow_step_ok. Qed.

(** The lookup of a flight never changes. *)
Lemma flow_keeps_owner s s' f l : rtc flow s s' -> s.2 !! f = Some l -> s'.2 !! f = Some l.
Proof.
  induction 1 as [|s1 s2 s3 Hs _ IH]; [done|]. intros Hf. apply IH.
  destruct Hs as [c owners o now [] c' _ _|c owners o g flight load now|c owners o]; try done.
  by apply lookup_app_l_Some.
Qed.

(** *** Whose credentials *)

Lemma canonical_vsi_path_vsi path : starts_with path $"/vsi" = true -> canonical_vsi_path path = path.
Proof. intros (rest & ->)%starts_with_spec. done. Qed.


Lemma native_keys p q path path' k :
  rules_ok config -> lookup_ok (Native p path) -> lookup_ok (Native q path') ->
  k = flight_key (Native p path) -> k = flight_key (Native q path') ->
  forall c, loads (Native q path') (Ok c) -> loads (Native p path) (Ok c).
Proof.
  intros Hrules [Hp H1] [Hq H2] -> E c (w & w' & Hload). cbn in Hp, Hq, H1, H2.
  unfold flight_key, native_credential_key in E. apply family_inj in E as (_ & Ek & Es);
    [|set_solver|set_solver|by apply registered_kind..].
  apply same_kind in Ek as <-; [|done..].
  destruct (load_alike rsa_answer config p path path' Hp Hrules H1 H2 Es w) as [Hr Hw].
  rewrite Hload in Hr, Hw. cbn in Hr, Hw. exists w, w'. clear Hload.
  destruct (load_credentials rsa_answer config p path w) as [[v|e] w1]; cbn in *; [by subst|done].
Qed.

Lemma same_flight_own l o c :
  rules_ok config -> lookup_ok l -> lookup_ok o -> flight_key o = flight_key l -> loads o (Ok c) -> own l c.
Proof.
  intros Hrules Hl Ho E Hc. destruct l as [p path|p path], o as [q path'|q path'].
  - by apply (native_keys p q path path' (flight_key (Native p path))).
  - exfalso. apply family_inj in E as (E & _); [done|set_solver|set_solver|by apply registered_kind, Ho|by apply registered_kind, Hl].
  - exfalso. apply family_inj in E as (E & _); [done|set_solver|set_solver|by apply registered_kind, Ho|by apply registered_kind, Hl].
  - apply family_inj in E as (_ & Ek & <-); [|set_solver|set_solver|by apply registered_kind, Ho|by apply registered_kind, Hl].
    apply same_kind in Ek as <-; [|apply Ho|apply Hl]. exists path'. auto.
Qed.

Lemma hit_own l cache now c cache' :
  rules_ok config -> lookup_ok l -> (forall k e, entries_ cache !! k = Some e -> entry_ok k (credentials_ e)) ->
  lookup_begin l cache now = (Hit c, cache') -> own l c.
Proof.
  intros Hrules Hl Hentries. destruct l as [p path|p path]; cbn [lookup_begin].
  - unfold native_begin. destruct (entries_ cache !! _) as [e|] eqn:Ee; [|by intros ?%join_or_load_no_hit].
    destruct (reusable e now); [|by intros ?%join_or_load_no_hit]. intros [= <- _].
    destruct (Hentries _ _ Ee) as ([q path'|q path'] & Ho & Hload & Hk).
    + by apply (native_keys p q path path' _ Hrules Hl Ho eq_refl Hk).
    + exfalso. destruct Hk as [_ Hk]. apply family_inj in Hk as (E & _);
        [done|set_solver|set_solver|by apply registered_kind, Hl|by apply registered_kind, Ho].
  - unfold custom_begin. destruct (find_reusable _ _ _ _) as [e|] eqn:Ef; [|by intros ?%join_or_load_no_hit].
    intros [= <- _]. apply find_reusable_spec in Ef as (k & Ek & (Hs & Hm & _) & _).
    apply starts_with_spec in Hs as (rest & ->).
    destruct (Hentries _ _ Ek) as ([q path'|q path'] & Ho & Hload & Hk).
    + exfalso. apply family_inj in Hk as (E & _);
        [done|set_solver|set_solver|by apply registered_kind, Hl|by apply registered_kind, Ho].
    + destruct Hk as [Hne Hk]. apply family_inj in Hk as (_ & Ekind & _);
        [|set_solver|set_solver|by apply registered_kind, Hl|by apply registered_kind, Ho].
      apply same_kind in Ekind as <-; [|apply Hl|apply Ho]. exists path'. auto.
Qed.

Lemma begun_owner l c owners now st c' f :
  flow_ok (c, owners) -> lookup_begin l c now = (st, c') -> st = Join f \/ st = Load f ->
  exists o, begun l st owners !! f = Some o /\ flight_key o = flight_key l.
Proof.
  intros Hok Hb Hst. assert (Hj : join_or_load c (flight_key l) = (st, c')).
  { revert Hb. destruct l as [p path|p path]; cbn [lookup_begin flight_key].
    - unfold native_begin. destruct (entries_ c !! _) as [e|]; [|done]. destruct (reusable e now); [|done].
      intros [= <- <-]. by destruct Hst.
    - unfold custom_begin. destruct (find_reusable _ _ _ _); [|done]. intros [= <- <-]. by destruct Hst. }
  revert Hj. unfold join_or_load. destruct (flights_ c !! flight_key l) as [g|] eqn:Eg; intros [= <- <-].
  - destruct Hst as [[= ->]|[=]]. by apply (fk_flights _ Hok).
  - destruct Hst as [[=]|[= <-]]. exists l. cbn [begun]. pose proof (fk_length _ Hok) as Hlen. cbn in Hlen.
    by rewrite lookup_app_r, Hlen, Nat.sub_diag by lia.
Qed.

Lemma hit_fresh l cache now c cache' : lookup_begin l cache now = (Hit c, cache') -> fresh_at now c.
Proof.
  destruct l as [p path|p path]; cbn [lookup_begin].
  - unfold native_begin. destruct (entries_ cache !! _) as [e|]; [|by intros ?%join_or_load_no_hit].
    destruct (reusable e now) eqn:Er; [|by intros ?%join_or_load_no_hit]. intros [= <- _]. by apply reusable_fresh.
  - unfold custom_begin. destruct (find_reusable _ _ _ _) as [e|] eqn:Ef; [|by intros ?%join_or_load_no_hit].
    intros [= <- _]. apply find_reusable_spec in Ef as (k & _ & (_ & _ & Er) & _). by apply reusable_fresh.
Qed.

(** What a lookup is answered with. *)
Lemma answered_own s s' l now c :
  rules_ok config -> rtc flow (empty_cache, []) s -> lookup_ok l -> answered s s' l now (Ok c) -> own l c.
Proof.
  intros Hrules Hs Hl Ha.
  pose proof (flow_steps_ok _ _ Hs flow_start) as Hok. destruct s as [cache owners].
  inversion Ha as [v cache' Hhit E|st f cache' flight r Hb Hst Hs' Hf Hr E]; subst.
  - eapply hit_own; [done|done|apply (fk_entries _ Hok)|exact Hhit].
  - destruct (begun_owner l cache owners now st cache' f Hok Hb Hst) as (o & Ho & Ek).
    pose proof (flow_begin_ok _ _ _ _ _ _ Hok Hl Hb) as Hok1.
    pose proof (flow_steps_ok _ _ Hs' Hok1) as Hok'. pose proof (flow_keeps_owner _ _ f o Hs' Ho) as Ho'.
    apply (same_flight_own l o); [done|done| |done|by eapply (fk_results _ Hok')].
    pose proof (fk_owners _ Hok') as Hall. rewrite Forall_lookup in Hall. by eapply Hall.
Qed.

(** Credentials stay in their scope.  Whatever lookups, completions and
    invalidations of native and custom credentials interleave, a lookup that is
    answered with credentials, by the cache, by the flight of another thread or
    by its own load, is answered with its own: those its provider's loader
    yields for its very path, or those the callback of its provider gave for
    that path or for a scope that contains it.  Those the cache answers with
    have not expired. *)
Theorem credentials_stay_in_scope s s' l now c :
  rules_ok config -> rtc flow (empty_cache, []) s -> lookup_ok l ->
  answered s s' l now (Ok c) ->
  own l c /\ (forall cache', lookup_begin l s.1 now = (Hit c, cache') -> fresh_at now c).
Proof.
  intros Hrules Hs Hl Ha. split; [by apply (answered_own s s' l now)|by intros cache' ?%hit_fresh].
Qed.

(** *** Signing *)

(** The lookup of [RequestBuilder::resolve_credentials]. *)
Definition request_lookup (l : Locator) (p : CloudProvider) : Lookup :=
  match provider config (credentials_kind p) with
  | Some _ => Custom p (canonical_uri l)
  | None => Native p (canonical_uri l)
  end.

Lemma cloud_backend b p : cloud_provider b = Some p -> b ∈ [S3; Gcs; Azure; Source].
Proof. destruct b; try done; intros _; set_solver. Qed.

(** C23: A request is signed with the credentials of its own object.  In a
    configuration with one rule per path prefix in which no prefix holds a line
    end (without that condition it fails, see [line_ends_collide]): when a URI
    resolves to an object and the cache answers the object's lookup, at any
    point of any schedule, a prepared request is made with credentials only if
    the object's provider signs, and then with those of the object's own path
    or of a scope of the user's callback that contains it; it is made without
    any only for a backend that has none or when signing is off. *)
Theorem requests_use_own_credentials text l custom native s s' now t keys first length hint pin r :
  resolve text = Ok l -> rules_ok config -> rtc flow (empty_cache, []) s ->
  (forall p, cloud_provider (backend l) = Some p ->
     answered s s' (request_lookup l p) now
       (match provider config (credentials_kind p) with
        | Some _ => custom (credentials_kind p) (canonical_uri l)
        | None => native p (canonical_uri l)
        end)) ->
  (prepare config custom native t keys l first length hint pin).1 = Ok r ->
  exists credentials,
    (materialize config t keys l credentials first length hint pin).1 = Ok r /\
    match credentials, cloud_provider (backend l) with
    | Some c, Some p => no_sign config p (canonical_uri l) = false /\ own (request_lookup l p) c
    | None, Some p => no_sign config p (canonical_uri l) = true
    | None, None => backend l = Http \/ backend l = HuggingFace
    | Some _, None => False
    end.
Proof.
  intros Hl Hrules Hs Hanswer. unfold prepare. destruct (bad_range first length); [done|].
  destruct (resolve_credentials config custom native l) as [credentials|e] eqn:E; [|done].
  intros Hr. exists credentials. split; [exact Hr|]. clear Hr. revert E. unfold resolve_credentials.
  destruct (_ || _) eqn:Eb.
  { intros [= <-]. apply orb_true_iff in Eb as [Eb%bool_decide_eq_true|Eb%bool_decide_eq_true]; rewrite Eb; cbn; auto. }
  destruct (cloud_provider (backend l)) as [p|] eqn:Ep; [|done].
  destruct (no_sign config p (canonical_uri l)) eqn:En; [by intros [= <-]|].
  specialize (Hanswer p eq_refl). intros (c & Hc & [= <-])%expected_bind_ok. rewrite Hc in Hanswer.
  split; [done|]. apply (answered_own s s' _ now); [done|done| |done].
  assert (Hok : registered p /\ vsi_path (canonical_uri l)).
  { split; [by exists (backend l)|]. unfold vsi_path.
    pose proof (resolved_cloud_path _ _ _ Hl (cloud_backend _ _ Ep)) as Hv.
    by rewrite (canonical_vsi_path_vsi _ Hv). }
  unfold request_lookup. by destruct (provider config _).
Qed.

(** C24: The scope key is sound.  In a configuration a program can make, when
    no path prefix holds a line end, two paths with the same native key have
    loads that cannot be told apart: from the same world they make the same
    requests, run the same commands and yield the same credentials, or fail
    with the same status. *)
Theorem scope_key_is_sound v b p p1 p2 (w : World) :
  built b -> freeze v b = Ok config -> Forall (fun r => one_line (po_prefix r)) (paths_ config) ->
  registered p -> vsi_path p1 -> vsi_path p2 ->
  native_credential_key config p p1 = native_credential_key config p p2 ->
  let '(r1, w1) := load_credentials rsa_answer config p p1 w in
  let '(r2, w2) := load_credentials rsa_answer config p p2 w in
  w1 = w2 /\ same_result r1 r2.
Proof.
  intros Hb Hfreeze Hlines Hp H1 H2 E.
  assert (Hrules : rules_ok config).
  { constructor; [|done]. pose proof (freeze_spec _ _ _ Hfreeze) as (_ & _ & -> & _). by apply built_rules_distinct. }
  apply family_inj in E as (_ & _ & E); [|set_solver|set_solver|by apply registered_kind..].
  destruct (load_alike rsa_answer config p p1 p2 Hp Hrules H1 H2 E w).
  by destruct (load_credentials _ _ _ p1 w), (load_credentials _ _ _ p2 w).
Qed.
End Lookups.

(** *** Witnesses *)

(** Keys for one bucket. *)
Definition set_paths (calls : list (str * str * str)) (b : ConfigBuilder) : ConfigBuilder :=
  fold_left (fun b call =>
    match set_path b call.1.1 call.1.2 (Some call.2) with Ok b => b | Err _ => b end) calls b.
Lemma set_paths_built calls : forall b, built b -> built (set_paths calls b).
Proof.
  induction calls as [|[[prefix name] value] calls IH]; intros b Hb; [done|]. apply IH.
  cbn [fst snd]. destruct (set_path b prefix name (Some value)) eqn:E; [|done]. by eapply built_set_path.
Qed.

Definition plain_builder : ConfigBuilder := new_builder (fun _ => None) (fun _ => false) false.
Definition scoped_builder : ConfigBuilder :=
  set_paths [($"s3://b", $"AWS_ACCESS_KEY_ID", $"AKIA"); ($"s3://b", $"AWS_SECRET_ACCESS_KEY", $"secret")] plain_builder.
Definition scoped_config : ConfigSnapshot := Eval vm_compute in
  match freeze $"1.0" scoped_builder with Ok c => c | Err _ => empty_snapshot end.
Definition s3_provider : CloudProvider := default (mkProvider File 0 [] false []) (cloud_provider S3).
Definition scoped_keys : ProviderCredentials :=
  ProviderCredentials_default <| access_key_id := $"AKIA" |> <| secret_access_key := $"secret" |>.
Definition scoped_load : str -> Loader ProviderCredentials :=
  @load_credentials toy_platform example_outside (fun _ _ => InvalidKey) scoped_config s3_provider.

Lemma scoped_built : built scoped_builder.
Proof. apply set_paths_built, built_new. Qed.
Lemma scoped_lines : Forall (fun r => one_line (po_prefix r)) (paths_ scoped_config).
Proof. apply (bool_decide_unpack _). by vm_compute. Qed.

Lemma scope_key_is_sound_witness :
  native_credential_key scoped_config s3_provider $"/vsis3/b/x" = native_credential_key scoped_config s3_provider $"s3://b/y/z" /\
  (scoped_load $"/vsis3/b/x" new_world).1 = Ok scoped_keys /\
  let '(r1, w1) := scoped_load $"/vsis3/b/x" new_world in
  let '(r2, w2) := scoped_load $"s3://b/y/z" new_world in
  w1 = w2 /\ same_result r1 r2.
Proof.
  split; [vm_compute; reflexivity|]. split; [vm_compute; reflexivity|].
  exact (@scope_key_is_sound toy_platform example_outside (fun _ _ => InvalidKey) scoped_config
    $"1.0" scoped_builder s3_provider $"/vsis3/b/x" $"s3://b/y/z" new_world scoped_built
    ltac:(vm_compute; reflexivity) scoped_lines ltac:(exists S3; reflexivity)
    ltac:(vm_compute; reflexivity) ltac:(vm_compute; reflexivity) ltac:(vm_compute; reflexivity)).
Defined.

(** A prefix that holds a line end can imitate the scopes of two others: the
    bucket names of two requests with the same key, and yet different keys. *)
Definition forged_builder : ConfigBuilder :=
  set_paths
    [($"s3://", $"AWS_ACCESS_KEY_ID", $"AK0"); ($"s3://", $"AWS_SECRET_ACCESS_KEY", $"S0");
     ($"s3://" ++ [LF] ++ $"AWS_SECRET_ACCESS_KEY=/vsis3/c/", $"AWS_ACCESS_KEY_ID", $"AK1");
     ($"s3://c/" ++ [LF] ++ $"AWS_SECRET_ACCESS_KEY=/vsis3/", $"AWS_SECRET_ACCESS_KEY", $"S2")] plain_builder.
Definition forged_config : ConfigSnapshot := Eval vm_compute in
  match freeze $"1.0" forged_builder with Ok c => c | Err _ => empty_snapshot end.
Definition forged_path_1 : str := $"/vsis3/" ++ [LF] ++ $"AWS_SECRET_ACCESS_KEY=/vsis3/c/x".
Definition forged_path_2 : str := $"/vsis3/c/" ++ [LF] ++ $"AWS_SECRET_ACCESS_KEY=/vsis3/x".
Example line_ends_collide :
  freeze $"1.0" forged_builder = Ok forged_config /\
  native_credential_key forged_config s3_provider forged_path_1
    = native_credential_key forged_config s3_provider forged_path_2 /\
  option_ forged_config forged_path_1 $"AWS_ACCESS_KEY_ID" [] = $"AK1" /\
  option_ forged_config forged_path_2 $"AWS_ACCESS_KEY_ID" [] = $"AK0".
Proof. split_and!; vm_compute; reflexivity. Qed.

(** One lookup loads; the next, for another object of the bucket, hits. *)
Definition first_lookup : Lookup := Native s3_provider $"/vsis3/b/x".
Definition next_lookup : Lookup := Native s3_provider $"/vsis3/b/y".
Definition begun_cache (key : str) : CredentialCache := mkCache ∅ (<[key := 0%nat]> ∅) [mkFlight false None].
Definition loaded_cache (key : str) : CredentialCache := native_finish (begun_cache key) key 0 (Ok scoped_keys) 1.

Lemma first_begins key : native_begin empty_cache key 0 = (Load 0, begun_cache key).
Proof. unfold native_begin, join_or_load, empty_cache. cbn. by rewrite !lookup_empty. Qed.
Lemma next_hits key : native_begin (loaded_cache key) key 5 = (Hit scoped_keys, loaded_cache key).
Proof.
  assert (E : entries_ (loaded_cache key) !! key = Some (mkEntry scoped_keys 61)); [|by unfold native_begin; rewrite E].
  unfold loaded_cache, native_finish. destruct (publish_table (begun_cache key) key 0
    (refuse_expired $"credential provider returned expired credentials" 1 (Ok scoped_keys))
    (Some (key, mkEntry scoped_keys 61)) (mkFlight false None) eq_refl) as (_ & _ & E).
  change (match refuse_expired _ _ _ with Ok _ => _ | Err _ => _ end) with (Some (key, mkEntry scoped_keys 61)).
  rewrite E. cbn. by rewrite lookup_insert_eq.
Qed.

Abbreviation scoped_key := (native_credential_key scoped_config s3_provider $"/vsis3/b/x").
Abbreviation scoped_flow :=
  (@flow toy_platform example_outside (fun _ _ => InvalidKey) scoped_config (fun _ _ _ => False)).

Lemma scoped_lookup_ok path : path ∈ [$"/vsis3/b/x"; $"/vsis3/b/y"] -> lookup_ok (Native s3_provider path).
Proof.
  intros Hp. split; [by exists S3|].
  repeat (apply elem_of_cons in Hp as [->|Hp]; [by vm_compute|]). by apply not_elem_of_nil in Hp.
Qed.

Lemma loaded_reachable : rtc scoped_flow (empty_cache, []) (loaded_cache scoped_key, [first_lookup]).
Proof.
  eapply rtc_l; [|apply rtc_once].
  - exact (flow_begin _ _ _ empty_cache [] first_lookup 0 (Load 0) (begun_cache scoped_key)
             (scoped_lookup_ok _ (list_elem_of_here _ _)) (first_begins scoped_key)).
  - refine (flow_finish _ _ _ (begun_cache scoped_key) [first_lookup] first_lookup 0 (mkFlight false None)
              (Value (Ok scoped_keys)) 1 eq_refl eq_refl eq_refl _).
    intros r [= <-]. exists new_world, new_world. vm_compute. reflexivity.
Qed.

Lemma same_scoped_key : native_credential_key scoped_config s3_provider $"/vsis3/b/y" = scoped_key.
Proof. vm_compute. reflexivity. Qed.

Lemma credentials_stay_in_scope_witness :
  @own toy_platform example_outside (fun _ _ => InvalidKey) scoped_config (fun _ _ _ => False) next_lookup scoped_keys /\
  fresh_at 5 scoped_keys.
Proof.
  assert (Hhit : lookup_begin scoped_config next_lookup (loaded_cache scoped_key) 5
                 = (Hit scoped_keys, loaded_cache scoped_key))
    by (unfold next_lookup, lookup_begin; rewrite same_scoped_key; apply next_hits).
  destruct (@credentials_stay_in_scope toy_platform example_outside (fun _ _ => InvalidKey) scoped_config
    (fun _ _ _ => False) (loaded_cache scoped_key, [first_lookup]) (loaded_cache scoped_key, [first_lookup])
    next_lookup 5 scoped_keys) as [Hown Hfresh].
  - constructor; [exact (built_rules_distinct _ scoped_built)|exact scoped_lines].
  - exact loaded_reachable.
  - apply scoped_lookup_ok, list_elem_of_further, list_elem_of_here.
  - apply answered_hit with (cache' := loaded_cache scoped_key). exact Hhit.
  - split; [exact Hown|exact (Hfresh (loaded_cache scoped_key) Hhit)].
Defined.

(** A signed request for an object of the bucket, with the keys of the cache. *)
Definition bucket_object : Locator :=
  match resolve $"s3://b/y" with Ok l => l | Err _ => Resolved_default end.
Definition signed_request : expected RequestError PreparedRequest :=
  (@prepare toy_platform scoped_config (fun _ _ => Err unsupported_backend) (fun _ _ => Ok scoped_keys) 0
     empty_key_cache bucket_object 10 5 [] []).1.

Lemma bucket_object_resolves : resolve $"s3://b/y" = Ok bucket_object.
Proof. vm_compute. reflexivity. Qed.

Lemma requests_use_own_credentials_witness :
  is_ok signed_request = true /\
  forall r, signed_request = Ok r -> exists credentials,
    (@materialize toy_platform scoped_config 0 empty_key_cache bucket_object credentials 10 5 [] []).1 = Ok r /\
    match credentials with
    | Some c => @own toy_platform example_outside (fun _ _ => InvalidKey) scoped_config (fun _ _ _ => False)
                  (request_lookup scoped_config bucket_object s3_provider) c
    | None => False
    end.
Proof.
  split; [vm_compute; reflexivity|]. intros r Hr.
  assert (Hhit : lookup_begin scoped_config next_lookup (loaded_cache scoped_key) 5
                 = (Hit scoped_keys, loaded_cache scoped_key))
    by (unfold next_lookup, lookup_begin; rewrite same_scoped_key; apply next_hits).
  destruct (@requests_use_own_credentials toy_platform example_outside (fun _ _ => InvalidKey) scoped_config
    (fun _ _ _ => False) $"s3://b/y" bucket_object (fun _ _ => Err unsupported_backend) (fun _ _ => Ok scoped_keys)
    (loaded_cache scoped_key, [first_lookup]) (loaded_cache scoped_key, [first_lookup]) 5 0 empty_key_cache 10 5 [] [] r)
    as (credentials & Hm & Hown).
  - exact bucket_object_resolves.
  - constructor; [exact (built_rules_distinct _ scoped_built)|exact scoped_lines].
  - exact loaded_reachable.
  - intros p Hp. change (Some s3_provider = Some p) in Hp. injection Hp as <-.
    change (@answered toy_platform example_outside (fun _ _ => InvalidKey) scoped_config (fun _ _ _ => False)
      (loaded_cache scoped_key, [first_lookup]) (loaded_cache scoped_key, [first_lookup]) next_lookup 5 (Ok scoped_keys)).
    apply answered_hit with (cache' := loaded_cache scoped_key). exact Hhit.
  - exact Hr.
  - exists credentials. split; [exact Hm|].
    change (cloud_provider (backend bucket_object)) with (Some s3_provider) in Hown.
    destruct credentials as [c|]; [exact (proj2 Hown)|]. vm_compute in Hown. discriminate Hown.
Defined.
