(* ===== verification/EngineReads.v ===== *)
(** * EngineReads: the synchronous reads with their real parts

    Puts together what [Reads] is proved against: [Engine::get_range] of
    [src/src/runtime/engine.cpp] takes a handle of the pool, runs
    [Probe.get_range] with the client's [RequestBuilder], and gives the handle
    back.  Its world is the pool, the thread's signing key and the credential
    cache, and the exchanges the network answers the next calls with.  The
    theorems discharge the contract of [Reads] from honest servers, and the
    promise [Download] relies on for the first bytes of an object. *)

From S2P Require Import Prelude Text Uri Types Planner Response Transport Files CurlSetup Probe ProbeSpec Batch Engine Reads Download DownloadSpec Config Backends CredentialCache RequestBuilder.

Section EngineReads.
Context {PF : Platform}.
Variable config : ConfigSnapshot.
(** What the credential cache answers, in a given state. *)
Variable custom_credentials : CredentialCache -> Z -> str -> Loaded.
Variable native_credentials : CredentialCache -> CloudProvider -> str -> Loaded.
Variable now : Z.

(** ** The request builder of a probe *)

Record Keys := mkKeys { k_signing : SigningKeyCache; k_credentials : CredentialCache }.

#[export] Instance builder_requests : ProbeRequests Keys := {|
  pr_prepare l first length hint pin k :=
    let '(r, signing) := prepare config (custom_credentials (k_credentials k))
                           (native_credentials (k_credentials k)) now (k_signing k) l first length hint pin in
    (r, mkKeys signing (k_credentials k));
  pr_prepare_suffix l length hint pin k :=
    let '(r, signing) := prepare_suffix config (custom_credentials (k_credentials k))
                           (native_credentials (k_credentials k)) now (k_signing k) l length hint pin in
    (r, mkKeys signing (k_credentials k));
  pr_invalidate l k := mkKeys (k_signing k) (invalidate_credentials config (k_credentials k) l);
|}.

(** ** [Engine::get_range] *)

Variable curl_getdate : str -> Z.
Variable url_parts : str -> option (str * str * str).
Variable follow_parts : str -> str -> option (str * str * str).
Variable setopt : easy_handle -> CURLoption -> OptValue -> CURLcode.
Variable curl_easy_strerror : CURLcode -> str.
Variable option_name : CURLoption -> option str.
Variable option_number : CURLoption -> Z.
Variable ca_support : CurlCaSupport.
Variable l : Locator.

(** Call [k] starts at [net_start k], gets a handle if [net_init k], and its
    requests for a range, pinned to a tag or not, meet the exchanges
    [net_turns k], which depend on what each request says. *)
Record Network := {
  net_init : nat -> bool; net_start : nat -> Z; net_turns : nat -> ByteRange -> str -> nat -> ProbeEnv;
}.
Variable network : Network.

Record ReadWorld := mkReadWorld { rw_pool : list easy_handle; rw_keys : Keys; rw_calls : nat }.

Definition no_handle {A} : answer A := failure_of KARU_ERR_NOMEM $"curl_easy_init: out of memory".

#[export] Instance engine_get_range : RangeReader ReadWorld := fun rng destination if_match w m =>
  let k := rw_calls w in
  match take_size_handle (net_init network k) (rw_pool w) with
  | (None, pool) => (no_handle, mkReadWorld pool (rw_keys w) (S k), m)
  | (Some h, pool) =>
      match get_range curl_getdate url_parts follow_parts setopt curl_easy_strerror option_name
              option_number ca_support (client_ config) l rng (sp_data destination) if_match
              (net_start network k) (net_turns network k rng if_match) h (rw_keys w) m with
      | Some (r, keys, m) => (r, mkReadWorld (return_size_handle (client_ config) pool) keys (S k), m)
      | None => (no_handle, w, m)   (* not reached: [get_range_answers] *)
      end
  end.

(** The pool never holds more handles than the client has connections. *)
Lemma pool_is_bounded rng d pin w m r w' m' :
  engine_get_range rng d pin w m = (r, w', m') ->
  Z.of_nat (length (rw_pool w)) <= Z.max 0 (concurrency (client_ config)) ->
  Z.of_nat (length (rw_pool w')) <= Z.max 0 (concurrency (client_ config)).
Proof.
  unfold engine_get_range, take_size_handle. intros E Hle.
  assert (Hlen : forall h rest, rev (rw_pool w) = h :: rest -> (length (rev rest) < length (rw_pool w))%nat).
  { intros h rest Er. apply (f_equal length) in Er. rewrite length_rev in Er. cbn in Er. rewrite length_rev. lia. }
  assert (Hret : forall pool, (length pool <= length (rw_pool w))%nat ->
    Z.of_nat (length (return_size_handle (client_ config) pool)) <= Z.max 0 (concurrency (client_ config))).
  { intros pool Hp. unfold return_size_handle. destruct (Z.ltb_spec (Z.of_nat (length pool)) (concurrency (client_ config)));
      [rewrite length_app; cbn; lia|lia]. }
  destruct (rev (rw_pool w)) as [|h rest] eqn:Er.
  - destruct (net_init _ _); [|injection E as _ <- _; exact Hle].
    destruct (get_range _ _ _ _ _ _ _ _ _ _ _ _ _ _ _ _ _ _) as [[[r0 k0] m0]|]; injection E as _ <- _; [|exact Hle].
    cbn. by apply Hret.
  - destruct (get_range _ _ _ _ _ _ _ _ _ _ _ _ _ _ _ _ _ _) as [[[r0 k0] m0]|]; injection E as _ <- _; [|exact Hle].
    cbn. apply Hret. specialize (Hlen _ _ eq_refl). lia.
Qed.

(** The engine's reader is one call of [Probe.get_range], if a handle can be
    had. *)
Lemma engine_get_range_calls rng d pin w m r w' m' :
  engine_get_range rng d pin w m = (r, w', m') ->
  (m' = m /\ r = no_handle) \/
  exists h keys, get_range curl_getdate url_parts follow_parts setopt curl_easy_strerror option_name
    option_number ca_support (client_ config) l rng (sp_data d) pin (net_start network (rw_calls w))
    (net_turns network (rw_calls w) rng pin) h (rw_keys w) m = Some (r, keys, m').
Proof.
  unfold engine_get_range. destruct (take_size_handle _ _) as [[h|] pool]; [|intros [= <- _ <-]; by left].
  match goal with |- (match ?g with _ => _ end = _) -> _ => assert (is_Some g) as [[[r0 keys] m0] E] by apply get_range_answers; rewrite E end.
  intros [= <- _ <-]. right. by exists h, keys.
Qed.

(** ** Honest servers discharge the contract of [Reads] *)

Section Honest.
Variable obj : object_bytes.
Variable size_ : Z.
Hypothesis size_ok : 0 <= size_ <= U64_MAX.
(** Whatever the pool, the key caches and the memory a call begins with, the
    requests it issues meet honest servers. *)
Hypothesis honest_network : forall k rng d pin keys m, range_fits rng ->
  honest_world obj size_ curl_getdate url_parts follow_parts rng d setopt curl_easy_strerror option_name
    option_number ca_support (client_ config) l pin (net_start network k) (net_turns network k rng pin) keys m.

Lemma refused_range first length hint pin keys :
  bad_range first length = true -> is_ok (pr_prepare l first length hint pin keys).1 = false.
Proof. intros E. cbn. unfold prepare. by rewrite E. Qed.

Lemma engine_reads_object : @reads_object obj size_ ReadWorld engine_get_range.
Proof using size_ok honest_network.
  intros rng d pin w m rep w' m' E Hf Hl Hd.
  apply engine_get_range_calls in E as [[-> ->]|(h & keys & E)]; [by split|].
  destruct (negb (suffix rng) && bad_range (br_first rng) (br_length rng)) eqn:Eb.
  - apply andb_true_iff in Eb as [Hs%negb_true_iff Hb].
    apply get_range_refused in E as [-> Hr]; [|done|intros; by apply refused_range].
    split; [done|]. by intros reply ->.
  - assert (Hfit : range_fits rng).
    { split; [done|]. intros Hs. rewrite Hs in Eb. cbn in Eb.
      destruct (bad_range_false _ _ Eb Hl). unfold is_u64 in *. lia. }
    apply (get_range_serves obj size_ size_ok _ _ _ rng (sp_data d) Hfit) in E as [Hframe Hs];
      [|by apply honest_network].
    split; [|exact Hs]. intros a Ha. apply Hframe. unfold outside in Ha. lia.
Qed.

Hypothesis window : 0 <= window_offset l <= U64_MAX /\ 0 <= window_length l <= U64_MAX /\
  (window_length l <> TO_END -> window_offset l + window_length l <= U64_MAX).

(** C7: the engine's synchronous read of the two ends of an object, with its
    real parts (the pool of handles, the request builder with its signing key
    and its credential cache, the retry loop and the callbacks of the probe,
    the two concurrent requests and the third one), when the requests it
    issues meet servers that are honest, or from a local file whose reads may
    be short, and the window of the locator, when it has an end, does not pass
    2^64 - 1 (see [wrapping_window_reads_the_start]): a success states
    the size of the visible window and both spans hold its first and last
    bytes, as many as exist and were asked for; nothing else in memory changes.
    With an empty tail this is the read a download begins with. *)
Theorem engine_reads_both_ends head tail scratch head_first st w m o st' w' m' file_size open_error read_at :
  (backend l = File -> file_holds_object obj size_ file_size read_at) -> is_u64 (sp_size head) -> is_u64 (sp_size tail) ->
  disjoint head tail -> outside head scratch -> outside tail scratch ->
  @read_ends ReadWorld engine_get_range file_size open_error read_at l head tail scratch head_first st w m
    = (Ok (o, st'), w', m') ->
  let visible := visible_size l size_ in
  o_size o = visible /\
  holds obj m' (sp_data head) (Z.min (sp_size head) visible) (window_offset l) /\
  holds obj m' (sp_data tail) (Z.min (sp_size tail) visible)
    (window_offset l + visible - Z.min (sp_size tail) visible) /\
  (forall a, outside head a -> outside tail a -> a <> scratch -> m' a = m a).
Proof using size_ok honest_network window.
  intros Hb Hh Ht Hd H1 H2 E.
  apply (read_ends_spec obj size_ size_ok engine_reads_object l window head tail scratch Hh Ht
    (conj Hd (conj H1 H2)) file_size open_error read_at Hb) in E as (Hs & [He1 He2] & Hf).
  cbv zeta. split_and!; [exact Hs|exact He1|exact He2|exact Hf].
Qed.
End Honest.
End EngineReads.

(** *** Witness *)

(** A network whose server has the ten bytes of [ten_bytes] and answers the
    request for bytes 3 to 6; any other request cannot connect. *)
Definition no_connection : Exchange :=
  {| x_events := []; x_code := CURLE_COULDNT_CONNECT; x_status := 0; x_length := -1; x_connects := 0;
     x_error := [] |}.
Definition asks_four_bytes (rng : ByteRange) (pin : str) : bool :=
  negb (suffix rng) && (br_first rng =? 3) && (br_length rng =? 4) && str_eqb pin [].
Definition example_network : Network :=
  {| net_init := fun _ => true; net_start := fun _ => 0;
     net_turns := fun _ rng pin =>
       one_exchange (if asks_four_bytes rng pin then example_exchange else no_connection) |}.

Definition from_three : Locator :=
  Resolved_default <| backend := Http |> <| canonical_uri := $"https://host/object" |>
    <| target := $"https://host/object" |> <| window_offset := 3 |> <| window_length := TO_END |>.
Definition example_config : ConfigSnapshot :=
  example_snapshot <| client_ := ClientOptions_default |> <| configured_headers_ := [] |>
    <| has_configured_headers_ := false |>.
Lemma no_connection_conforms rng d options pin request stats m :
  conforms ten_bytes 10 (fun _ => -1) no_parts (fun _ => no_parts) no_connection
    (initial_probe options rng d pin request stats) m.
Proof.
  constructor; [done|by intros [=]|by left|].
  exists (new_response 0). split_and!; [constructor|done|by intros [=]].
Qed.

Abbreviation example_honest_world rng d pin :=
  (@honest_world ten_bytes 10 (fun _ => -1) no_parts (fun _ => no_parts) rng d Keys
     (@builder_requests example_platform example_config (fun _ _ _ => Err unsupported_backend)
        (fun _ _ _ => Err unsupported_backend) 0) accepting (fun _ => []) (fun _ => None) (fun _ => 0)
     example_support (client_ example_config) from_three pin 0).

(** The request for the four bytes, whatever the hint and the keys, lets
    libcurl follow the redirect of the exchange. *)
Lemma four_bytes_are_honest d keys m :
  example_honest_world four_bytes d [] (one_exchange example_exchange) keys m.
Proof.
  intros handle i lp w' m' request _ Hq.
  assert (Hfollow : follow_redirects (req_http request) = true /\ same_origin_redirects_only (req_http request) = false).
  { vm_compute in Hq. by injection Hq as <-. }
  destruct Hfollow as [H1 H2]. exact (example_conforms d request (lp_stats lp) m' H1 H2).
Qed.

Lemma example_network_is_honest k rng d pin keys m : range_fits rng ->
  example_honest_world rng d pin (net_turns example_network k rng pin) keys m.
Proof.
  intros _. cbn [net_turns example_network]. destruct (asks_four_bytes rng pin) eqn:E.
  2: intros handle i lp w' m' request _ _; apply no_connection_conforms.
  assert (rng = four_bytes /\ pin = []) as [-> ->]; [|apply four_bytes_are_honest].
  unfold asks_four_bytes, str_eqb in E. destruct rng as [first length []]; cbn in E; [done|].
  apply andb_true_iff in E as [[?%Z.eqb_eq ?%Z.eqb_eq]%andb_true_iff ?%bool_decide_eq_true]. by subst.
Qed.

Definition first_call : ReadWorld := mkReadWorld [] (mkKeys empty_key_cache empty_cache) 0.

Abbreviation example_read :=
  (@read_ends ReadWorld
     (@engine_get_range example_platform example_config (fun _ _ _ => Err unsupported_backend)
        (fun _ _ _ => Err unsupported_backend) 0 (fun _ => -1) no_parts (fun _ => no_parts) accepting
        (fun _ => []) (fun _ => None) (fun _ => 0) example_support from_three example_network)
     (Err []) None (fun _ _ => Err []) from_three (mkSpan 1000 4) no_span 500 true RangeStats_default
     first_call no_memory).

Lemma from_three_window : 0 <= window_offset from_three <= U64_MAX /\ 0 <= window_length from_three <= U64_MAX /\
  (window_length from_three <> TO_END -> window_offset from_three + window_length from_three <= U64_MAX).
Proof. cbn. split_and!; [lia|lia|lia|lia|done]. Qed.

Lemma example_spans : is_u64 (sp_size (mkSpan 1000 4)) /\ is_u64 (sp_size no_span) /\
  disjoint (mkSpan 1000 4) no_span /\ outside (mkSpan 1000 4) 500 /\ outside no_span 500.
Proof. unfold is_u64, disjoint, outside. cbn. lia. Qed.

(** The first four bytes of what is visible: the read of a download's head. *)
Lemma engine_reads_both_ends_witness :
  exists o st w' m', example_read = (Ok (o, st), w', m') /\ o_size o = 7 /\
    holds ten_bytes m' 1000 4 3.
Proof.
  assert (Hhonest : forall k rng d pin keys m, range_fits rng ->
    example_honest_world rng d pin (net_turns example_network k rng pin) keys m) by exact example_network_is_honest.
  assert (Hsize : 0 <= 10 <= U64_MAX) by lia.
  assert (Hfile : backend from_three = File -> file_holds_object ten_bytes 10 (Err []) (fun _ _ => Err [])) by done.
  destruct example_spans as (Hh & Ht & Hd & H1 & H2).
  pose proof (engine_reads_both_ends (PF := example_platform) example_config
    (fun _ _ _ => Err unsupported_backend) (fun _ _ _ => Err unsupported_backend) 0 (fun _ => -1) no_parts
    (fun _ => no_parts) accepting (fun _ => []) (fun _ => None) (fun _ => 0) example_support from_three
    example_network ten_bytes 10 Hsize Hhonest from_three_window (mkSpan 1000 4) no_span 500 true
    RangeStats_default first_call no_memory) as Hthm.
  assert (exists o st w' m', example_read = (Ok (o, st), w', m')) as (o & st & w' & m' & E)
    by (eexists _, _, _, _; vm_compute; reflexivity).
  exists o, st, w', m'. split; [exact E|].
  destruct (Hthm o st w' m' (Err []) None (fun _ _ => Err []) Hfile Hh Ht Hd H1 H2 E) as (Hs & Hb & _).
  split; [exact Hs|exact Hb].
Defined.
