(* ===== verification/Client.v ===== *)
(** * Client: the C API around the engine

    Models [src/src/karu.cpp] and [src/src/client.hpp].  A pointer argument is
    an option, a public structure is a record with its [struct_size], whose
    fields lie at their offsets on a 64-bit platform; a call answers with its
    status, the thread's error text and what it stored.  An exception of the
    code below the API is a value of [raised].  The theorems show that every
    accepted call hands the planner and the download options it accepts and
    requests it can serve, that a field beyond [struct_size] is neither read
    nor written, and that an engine serves only the process that made it. *)

From S2P Require Import Prelude Text Uri Types Planner Response Transport Files CurlSetup Probe ProbeSpec Batch Engine Reads Download System Config.

(** ** Errors *)

(** The status, the thread's error text, and the result. *)
Definition call (A : Type) : Type := karu_status * str * A.
Definition ok {A} (a : A) : call A := (KARU_OK, clear_error, a).
Definition reject {A} (status : karu_status) (text : list text_part) (a : A) : call A :=
  (status, set_error (concat text), a).

Definition exception_status {A} (name : str) (e : exn) (a : A) : call A :=
  match e with
  | Bad_alloc => reject KARU_ERR_NOMEM [Text name; Text $": out of memory"] a
  | Std_exception what => reject KARU_ERR_INVALID [Text name; Text $": "; Text what] a
  | Unknown_exception => reject KARU_ERR_INVALID [Text name; Text $": unknown C++ exception"] a
  end.

(** [try ... catch (...)] around the body of an entry point. *)
Definition guarded {A} (name : str) (default : A) (body : raised (call A)) : call A :=
  match body with Value r => r | Raise e => exception_status name e default end.

(** A failure the code below has described. *)
Definition described {A} (e : Failure) (a : A) : call A :=
  (f_status e, if str_eqb (f_detail e) [] then clear_error else set_error (f_detail e), a).

(** ** Public structures *)

Abbreviation KARU_TO_END := U64_MAX (only parsing).
Abbreviation KARU_INHERIT := U64_MAX (only parsing).

Record karu_req := mkReq {
  q_locator : option Locator; q_offset : Z; q_length : Z; q_buffer : Z; q_tag : Z;
  q_if_match : option str;
}.

Record karu_submit_options := mkSubmitOptions {
  so_size : Z; so_gap : Z; so_limit : Z; so_parts : Z; so_amplification : Z;
}.

Record karu_download_options := mkDownloadOptions {
  do_size : Z; do_chunk_size : Z; do_parallelism : Z; do_overwrite : Z; do_progress : bool;
}.

Record karu_object_info := mkObjectInfo { oi_struct_size : Z; oi_size : Z; oi_etag : str }.
#[export] Instance karu_object_info_eta : Eta karu_object_info := fun r =>
  mkObjectInfo (oi_struct_size r) (oi_size r) (oi_etag r).

Record karu_download_result := mkDownloadResult {
  dr_struct_size : Z; dr_size : Z; dr_downloaded : Z; dr_received_bytes : Z; dr_retries : Z;
  dr_throttled : Z; dr_new_connections : Z; dr_resumed : Z; dr_credential_refreshes : Z; dr_etag : str;
}.
#[export] Instance karu_download_result_eta : Eta karu_download_result := fun r =>
  mkDownloadResult (dr_struct_size r) (dr_size r) (dr_downloaded r) (dr_received_bytes r) (dr_retries r)
    (dr_throttled r) (dr_new_connections r) (dr_resumed r) (dr_credential_refreshes r) (dr_etag r).

Record karu_batch_stats := mkBatchStats { bs_struct_size : Z; bs_values : BatchCounters }.

(** [offsetof(type, field) + sizeof(field)]: fields of eight bytes after
    [struct_size], but for [overwrite] (an int) and the text [etag]. *)
Definition field_end (index : Z) : Z := 8 * (index + 2).
Definition overwrite_end : Z := 28.
Definition progress_end : Z := 40.
Definition object_etag_end : Z := 272.
Definition result_etag_end : Z := 328.
Definition etag_capacity : Z := 256.

(** ** Conversions *)

(** The requests of a batch, or the text of the first one that is refused. *)
Definition has_line_end (s : str) : bool := existsb (fun c => Ascii.eqb c "013" || Ascii.eqb c "010") s.

Definition convert_request (name : str) (index : Z) (q : karu_req) : expected (list text_part) Request :=
  let refused text := Err [Text name; Text $": request "; Integer index; Text text] in
  match q_locator q with
  | None => refused $" has no locator"
  | Some l =>
      if q_length q =? 0 then refused $" is empty"
      else if q_length q =? KARU_TO_END then refused $" does not have a finite length"
      else if match q_if_match q with Some m => has_line_end m | None => false end then
        refused $" has an invalid ETag"
      else
        Ok {| locator := l; offset := q_offset q; length_ := q_length q; buffer := q_buffer q;
              tag := q_tag q; if_match := default [] (q_if_match q) |}
  end.

Fixpoint convert_from (name : str) (index : Z) (qs : list karu_req)
    : expected (list text_part) (list Request) :=
  match qs with
  | [] => Ok []
  | q :: qs =>
      r ← convert_request name index q;
      rest ← convert_from name (index + 1) qs;
      Ok (r :: rest)
  end.
Definition convert_requests (qs : list karu_req) (name : str) : expected (list text_part) (list Request) :=
  convert_from name 0 qs.

(** The planner's options of one batch. *)
Definition submit_options (defaults : ClientOptions) (overrides : option karu_submit_options)
    (name : str) : expected (list text_part) ClientOptions :=
  match overrides with
  | None => Ok defaults
  | Some o =>
      let available index := field_end index <=? so_size o in
      let given index v := available index && negb (v =? KARU_INHERIT) in
      if so_size o <? field_end 0 then Err [Text name; Text $": submit options structure is too small"]
      else
        let r := if negb (so_gap o =? KARU_INHERIT) then defaults <| coalesce_gap := so_gap o |> else defaults in
        if given 1 (so_limit o) && (so_limit o =? 0) then
          Err [Text name; Text $": coalesce_limit must be at least 1"]
        else
          let r := if given 1 (so_limit o) then r <| coalesce_limit := so_limit o |> else r in
          if given 2 (so_parts o) && ((so_parts o =? 0) || (SIZE_MAX <? so_parts o)) then
            Err [Text name; Text $": coalesce_parts is outside the supported range"]
          else
            let r := if given 2 (so_parts o) then r <| coalesce_parts := so_parts o |> else r in
            if given 3 (so_amplification o) && (so_amplification o =? 0) then
              Err [Text name; Text $": coalesce_amplification must be at least 1"]
            else
              Ok (if given 3 (so_amplification o)
                  then r <| coalesce_amplification := so_amplification o |> else r)
  end.

Definition default_download : DownloadSettings :=
  {| chunk_size := 8 * 2 ^ 20; parallelism := 8; overwrite := false; has_progress := false |}.

(** [SIZE_MAX / chunk_size] is what [parallelism] may be. *)
Definition download_options (options : option karu_download_options) : expected str DownloadSettings :=
  match options with
  | None => Ok default_download
  | Some o =>
      let available bytes := bytes <=? do_size o in
      if do_size o <? field_end 0 then Err $"karu_client_download: download options structure is too small"
      else
        let chunk := do_chunk_size o in
        let slots := if available (field_end 1) then do_parallelism o else parallelism default_download in
        if available overwrite_end && negb (do_overwrite o =? 0) && negb (do_overwrite o =? 1) then
          Err $"karu_client_download: overwrite must be zero or one"
        else
          let replace := available overwrite_end && negb (do_overwrite o =? 0) in
          let progress := available progress_end && do_progress o in
          if (chunk =? 0) || (chunk =? KARU_TO_END) then
            Err $"karu_client_download: chunk_size must be nonzero and finite"
          else if (slots =? 0) || (SIZE_MAX <? slots) then
            Err $"karu_client_download: parallelism is outside the supported range"
          else if (SIZE_MAX <? chunk) || (SIZE_MAX / chunk <? slots) then
            Err $"karu_client_download: chunk_size times parallelism is too large"
          else
            Ok {| chunk_size := chunk; parallelism := slots; overwrite := replace; has_progress := progress |}
  end.

(** A tag that does not fit with its terminator is left out. *)
Definition stored_etag (etag : str) : str := if Z.of_nat (length etag) <? etag_capacity then etag else [].

Definition store_object_info (out : karu_object_info) (size : Z) (etag : str) : karu_object_info :=
  let out := out <| oi_size := size |> in
  if object_etag_end <=? oi_struct_size out then out <| oi_etag := stored_etag etag |> else out.

Definition store_download_result (out : option karu_download_result) (s : DownloadSummary)
    : option karu_download_result :=
  match out with
  | None => None
  | Some out =>
      let store index (value old : Z) := if field_end index <=? dr_struct_size out then value else old in
      Some (mkDownloadResult (dr_struct_size out) (store 0 (s_size s) (dr_size out))
              (store 1 (s_downloaded s) (dr_downloaded out))
              (store 2 (s_received_bytes s) (dr_received_bytes out))
              (store 3 (s_retries s) (dr_retries out))
              (store 4 (s_throttled s) (dr_throttled out))
              (store 5 (s_new_connections s) (dr_new_connections out))
              (store 6 (s_resumed s) (dr_resumed out))
              (store 7 (s_credential_refreshes s) (dr_credential_refreshes out))
              (if result_etag_end <=? dr_struct_size out then stored_etag (s_etag s) else dr_etag out))
  end.

#[export] Instance HttpRequestOptions_eq_dec : EqDecision HttpRequestOptions.
Proof. solve_decision. Defined.
#[export] Instance ClientOptions_eq_dec : EqDecision ClientOptions.
Proof. solve_decision. Defined.
#[export] Instance ConfiguredHeader_eq_dec : EqDecision ConfiguredHeader.
Proof. solve_decision. Defined.
#[export] Instance PathOptions_eq_dec : EqDecision PathOptions.
Proof. solve_decision. Defined.

(** ** The calls *)

Section Calls.
Variable version_string : str.

(** *** Configuration *)

Definition karu_config_create (out : bool) (made : raised ConfigBuilder) : call (option ConfigBuilder) :=
  if negb out then reject KARU_ERR_INVALID [Text $"karu_config_create: null output"] None
  else guarded $"karu_config_create" None
         match made with Value b => Value (ok (Some b)) | Raise e => Raise e end.

Definition karu_config_create_empty (out : bool) (made : raised ConfigBuilder) : call (option ConfigBuilder) :=
  if negb out then reject KARU_ERR_INVALID [Text $"karu_config_create_empty: null output"] None
  else guarded $"karu_config_create_empty" None
         match made with Value b => Value (ok (Some b)) | Raise e => Raise e end.

Definition configured (r : expected str ConfigBuilder) (b : ConfigBuilder) : call ConfigBuilder :=
  match r with
  | Ok b => ok b
  | Err text => reject KARU_ERR_CONFIG [Text text] b
  end.

Definition karu_config_set_option (b : option ConfigBuilder) (name value : option str)
    : call (option ConfigBuilder) :=
  match b, name with
  | Some b, Some name => let '(s, text, b) := configured (set b name value) b in (s, text, Some b)
  | _, _ => reject KARU_ERR_INVALID [Text $"karu_config_set_option: null argument"] b
  end.

Definition karu_config_set_path_option (b : option ConfigBuilder) (prefix name value : option str)
    : call (option ConfigBuilder) :=
  match b, prefix, name with
  | Some b, Some prefix, Some name =>
      let '(s, text, b) := configured (set_path b prefix name value) b in (s, text, Some b)
  | _, _, _ => reject KARU_ERR_INVALID [Text $"karu_config_set_path_option: null argument"] b
  end.

Definition karu_config_set_credentials_provider (b : option ConfigBuilder) (kind provider data release : Z)
    : call (option ConfigBuilder) :=
  match b with
  | Some b => let '(s, text, b) := configured (set_provider b kind provider data release) b in (s, text, Some b)
  | None => reject KARU_ERR_INVALID [Text $"karu_config_set_credentials_provider: null config"] None
  end.

(** *** Locators *)

Definition karu_resolve (uri : option str) (out : bool) : call (option Locator) :=
  match uri with
  | Some uri =>
      if negb out then reject KARU_ERR_INVALID [Text $"karu_resolve: null argument"] None
      else match resolve uri with
           | Ok r => ok (Some r)
           | Err e =>
               reject (match Uri.code e with Uri.Unsupported => KARU_ERR_UNSUPPORTED | _ => KARU_ERR_URI end)
                 [Text (Uri.message e)] None
           end
  | None => reject KARU_ERR_INVALID [Text $"karu_resolve: null argument"] None
  end.

Definition karu_locator_uri (l : option Locator) : str :=
  match l with Some l => canonical_uri l | None => [] end.
Definition karu_locator_is_remote (l : option Locator) : bool :=
  match l with Some l => negb (bool_decide (backend l = File)) | None => false end.
Definition karu_locator_window_offset (l : option Locator) : Z :=
  match l with Some l => window_offset l | None => 0 end.
Definition karu_locator_window_length (l : option Locator) : Z :=
  match l with Some l => window_length l | None => 0 end.

(** *** Clients *)

Definition karu_client_create (b : option ConfigBuilder) (out : bool) : call (option ConfigSnapshot) :=
  match b with
  | Some b =>
      if negb out then reject KARU_ERR_INVALID [Text $"karu_client_create: null argument"] None
      else match freeze version_string b with
           | Ok c => ok (Some c)
           | Err text => reject KARU_ERR_CONFIG [Text text] None
           end
  | None => reject KARU_ERR_INVALID [Text $"karu_client_create: null argument"] None
  end.

(** Two snapshots are equal when their fields are, the callbacks as the shared
    objects they are: [shared] tells for a kind whether both hold the same. *)
Definition same_snapshot (shared : Z -> bool) (a b : ConfigSnapshot) : bool :=
  bool_decide (environment_ a = environment_ b) && bool_decide (explicit_ a = explicit_ b)
  && bool_decide (paths_ a = paths_ b)
  && bool_decide (dom (providers_ a) = dom (providers_ b)) && forallb shared (elements (dom (providers_ a)))
  && bool_decide (home_directory_ a = home_directory_ b) && bool_decide (cache_directory_ a = cache_directory_ b)
  && bool_decide (app_data_directory_ a = app_data_directory_ b)
  && bool_decide (system_ca_bundle_ a = system_ca_bundle_ b)
  && eqb (discover_default_credentials_ a) (discover_default_credentials_ b)
  && bool_decide (client_ a = client_ b) && bool_decide (http_ a = http_ b)
  && bool_decide (configured_headers_ a = configured_headers_ b)
  && eqb (has_configured_headers_ a) (has_configured_headers_ b).

(** What [freeze] gives may be an exception of the allocator. *)
Definition karu_client_matches_config (client : option ConfigSnapshot) (b : option ConfigBuilder) (out : bool)
    (shared : Z -> bool) (raises : option exn) : call (option bool) :=
  match client, b with
  | Some c, Some b =>
      if negb out then reject KARU_ERR_INVALID [Text $"karu_client_matches_config: null argument"] None
      else guarded $"karu_client_matches_config" (Some false)
             match raises with
             | Some ex => Raise ex
             | None =>
                 match freeze version_string b with
                 | Ok snapshot => Value (ok (Some (same_snapshot shared c snapshot)))
                 | Err text => Value (reject KARU_ERR_CONFIG [Text text] (Some false))
                 end
             end
  | _, _ => reject KARU_ERR_INVALID [Text $"karu_client_matches_config: null argument"] None
  end.

Definition karu_client_concurrency (c : option ConfigSnapshot) : Z :=
  match c with Some c => concurrency (client_ c) | None => 0 end.
Definition karu_client_coalesce_gap (c : option ConfigSnapshot) : Z :=
  match c with Some c => coalesce_gap (client_ c) | None => 0 end.
Definition karu_client_max_attempts (c : option ConfigSnapshot) : Z :=
  match c with Some c => max_attempts (client_ c) | None => 0 end.

(** *** Sizes, ends and downloads; [answer_] is what the engine gives. *)

Definition karu_client_size (client : option ConfigSnapshot) (l : option Locator) (out : bool)
    (answer_ : raised (answer Z)) (old : Z) : call Z :=
  match client, l, out with
  | Some _, Some _, true =>
      guarded $"karu_client_size" old
        match answer_ with
        | Value (Ok size) => Value (ok size)
        | Value (Err e) => Value (described e old)
        | Raise e => Raise e
        end
  | _, _, _ => reject KARU_ERR_INVALID [Text $"karu_client_size: null argument"] old
  end.

(** The last part of [karu_client_stat] and [karu_client_read_ends]. *)
Definition store_answer (name : str) (answer_ : raised (answer Object)) (out : karu_object_info)
    : call (option karu_object_info) :=
  guarded name (Some out)
    match answer_ with
    | Value (Ok o) => Value (ok (Some (store_object_info out (o_size o) (o_etag o))))
    | Value (Err e) => Value (described e (Some out))
    | Raise e => Raise e
    end.

Definition karu_client_stat (client : option ConfigSnapshot) (l : option Locator)
    (out : option karu_object_info) (answer_ : raised (answer Object)) : call (option karu_object_info) :=
  match client, l, out with
  | Some _, Some _, Some o =>
      if oi_struct_size o <? field_end 0 then
        reject KARU_ERR_INVALID [Text $"karu_client_stat: struct_size is too small"] out
      else store_answer $"karu_client_stat" answer_ o
  | _, _, _ => reject KARU_ERR_INVALID [Text $"karu_client_stat: null argument"] out
  end.

(** [read] is the engine's [read_ends], of the spans the caller gave. *)
Definition karu_client_read_ends (client : option ConfigSnapshot) (l : option Locator)
    (head head_length tail tail_length : Z) (out : option karu_object_info)
    (read : span -> span -> raised (answer Object)) : call (option karu_object_info) :=
  match client, l, out with
  | Some _, Some _, Some o =>
      if (head =? 0) && (0 <? head_length) || (tail =? 0) && (0 <? tail_length) then
        reject KARU_ERR_INVALID [Text $"karu_client_read_ends: null argument"] out
      else if oi_struct_size o <? field_end 0 then
        reject KARU_ERR_INVALID [Text $"karu_client_read_ends: struct_size is too small"] out
      else if (head_length =? KARU_TO_END) || (tail_length =? KARU_TO_END)
              || (SIZE_MAX <? head_length) || (SIZE_MAX <? tail_length) then
        reject KARU_ERR_INVALID [Text $"karu_client_read_ends: lengths must be finite"] out
      else
        store_answer $"karu_client_read_ends" (read (mkSpan head head_length) (mkSpan tail tail_length)) o
  | _, _, _ => reject KARU_ERR_INVALID [Text $"karu_client_read_ends: null argument"] out
  end.

(** [run] is [download] with the settings the caller gave. *)
Definition karu_client_download (client : option ConfigSnapshot) (l : option Locator)
    (destination : option str) (options : option karu_download_options)
    (out : option karu_download_result)
    (run : str -> DownloadSettings -> raised (answer DownloadSummary)) : call (option karu_download_result) :=
  match client, l, destination with
  | Some _, Some _, Some destination =>
      if str_eqb destination [] then
        reject KARU_ERR_INVALID [Text $"karu_client_download: destination is empty"] out
      else if match out with Some o => dr_struct_size o <? field_end 0 | None => false end then
        reject KARU_ERR_INVALID [Text $"karu_client_download: result structure is too small"] out
      else
        match download_options options with
        | Err text => reject KARU_ERR_INVALID [Text text] out
        | Ok settings =>
            guarded $"karu_client_download" out
              match run destination settings with
              | Value (Ok summary) => Value (ok (store_download_result out summary))
              | Value (Err e) => Value (described e out)
              | Raise e => Raise e
              end
        end
  | _, _, _ => reject KARU_ERR_INVALID [Text $"karu_client_download: null argument"] out
  end.

(** *** Batches *)

(** [client_submit]: [id] is the new batch, [heap] the allocator, [acquired]
    what [acquire_engine] does. *)
Definition client_submit (client : option ConfigSnapshot) (requests : option (list karu_req)) (count : Z)
    (options : option karu_submit_options) (out : bool) (name : str) (id : nat) (heap : list Z)
    (acquired : raised unit) (e : EngineState) : raised (call (option nat)) * EngineState :=
  match client, out, requests with
  | None, _, _ | _, false, _ => (Value (reject KARU_ERR_INVALID [Text name; Text $": null argument"] None), e)
  | Some c, true, _ =>
      if (0 <? count) && match requests with None => true | Some _ => false end then
        (Value (reject KARU_ERR_INVALID [Text name; Text $": null argument"] None), e)
      else
        match convert_requests (default [] requests) name with
        | Err text => (Value (reject KARU_ERR_INVALID text None), e)
        | Ok converted =>
            match submit_options (client_ c) options name with
            | Err text => (Value (reject KARU_ERR_INVALID text None), e)
            | Ok plan_options =>
                match acquired with
                | Raise ex => (Raise ex, e)
                | Value _ =>
                    let '(e', status) := submit id converted plan_options heap e in
                    if negb (status_is status KARU_OK) then (Value (status, clear_error, None), e)
                    else (Value (ok (Some id)), e')
                end
            end
        end
  end.

Definition karu_client_submit (client : option ConfigSnapshot) (requests : option (list karu_req)) (count : Z)
    (out : bool) (id : nat) (heap : list Z) (acquired : raised unit) (e : EngineState)
    : call (option nat) * EngineState :=
  let '(r, e) := client_submit client requests count None out $"karu_client_submit" id heap acquired e in
  (guarded $"karu_client_submit" None r, e).
Definition karu_client_submit_with (client : option ConfigSnapshot) (requests : option (list karu_req)) (count : Z)
    (options : option karu_submit_options) (out : bool) (id : nat) (heap : list Z) (acquired : raised unit)
    (e : EngineState) : call (option nat) * EngineState :=
  let '(r, e) := client_submit client requests count options out $"karu_client_submit_with" id heap acquired e in
  (guarded $"karu_client_submit_with" None r, e).

(** [karu_batch_next]: [inherited] is whether another process submitted the
    batch, [answer_] what the batch's [next] gives. *)
Definition karu_batch_next (batch out : bool) (inherited : bool)
    (answer_ : raised (karu_status * option Completion)) (old : karu_done) : call karu_done :=
  if negb batch || negb out then reject KARU_ERR_INVALID [Text $"karu_batch_next: null argument"] old
  else if inherited then
    reject KARU_ERR_INVALID
      [Text $"karu_batch_next: the batch was submitted by another process; batches do not cross fork()"] old
  else
    guarded $"karu_batch_next" old
      match answer_ with
      | Raise e => Raise e
      | Value (KARU_OK, Some c) =>
          Value (KARU_OK,
                 (if negb (status_is (c_status c) KARU_OK) && negb (str_eqb (detail c) [])
                  then set_error (detail c) else clear_error),
                 mkDone (c_tag c) (c_status c) (got c) (release_buffer c))
      | Value (status, _) => Value (status, clear_error, old)
      end.

(** [karu_batch_get_stats]: only the counters the structure has. *)
Definition copy_stats (size : Z) (from old : BatchCounters) : BatchCounters :=
  let pick index (proj : BatchCounters -> Z) := if field_end index <=? size then proj from else proj old in
  mkBatchCounters (pick 0 n_transfers) (pick 1 n_transfers_finished) (pick 2 n_requested_bytes)
    (pick 3 n_received_bytes) (pick 4 n_retries) (pick 5 n_throttled) (pick 6 n_new_connections)
    (pick 7 n_resumed) (pick 8 n_credential_refreshes).

Definition karu_batch_get_stats (batch : option karu_batch) (out : option karu_batch_stats) (inherited : bool)
    : call (option karu_batch_stats) :=
  match batch, out with
  | Some b, Some o =>
      if inherited then
        reject KARU_ERR_INVALID
          [Text $"karu_batch_get_stats: the batch was submitted by another process; batches do not cross fork()"] out
      else if bs_struct_size o <? field_end 0 then
        reject KARU_ERR_INVALID [Text $"karu_batch_get_stats: struct_size is too small"] out
      else
        ok (Some (mkBatchStats (bs_struct_size o) (copy_stats (bs_struct_size o) (counters b) (bs_values o))))
  | _, _ => reject KARU_ERR_INVALID [Text $"karu_batch_get_stats: null argument"] out
  end.

(** [karu_batch_free]: [cancel] is the engine's. A batch of another process is
    left alone. *)
Definition karu_batch_free {W} (batch inherited : bool) (cancel : W -> W) (w : W) : W :=
  if negb batch || inherited then w else cancel w.

(** [client_fetch] waits for every completion and reports the first failure;
    [answers] are the answers of [next], and [None] is a wait that goes on. *)
Fixpoint fetch_loop (answers : list (karu_status * Completion)) (failure : karu_status) (text : str)
    : option (karu_status * str) :=
  match answers with
  | [] => None
  | (step, c) :: answers =>
      if status_is step KARU_END then Some (failure, text)
      else if negb (status_is step KARU_OK) then Some (step, text)
      else if status_is failure KARU_OK && negb (status_is (c_status c) KARU_OK)
      then fetch_loop answers (c_status c) (detail c)
      else fetch_loop answers failure text
  end.

Fixpoint missing_buffer (index : Z) (qs : list karu_req) : option Z :=
  match qs with
  | [] => None
  | q :: qs => if q_buffer q =? 0 then Some index else missing_buffer (index + 1) qs
  end.

Definition client_fetch (client : option ConfigSnapshot) (requests : option (list karu_req)) (count : Z)
    (options : option karu_submit_options) (name : str) (id : nat) (heap : list Z) (acquired : raised unit)
    (answers : list (karu_status * Completion)) (e : EngineState) : option (raised (call unit)) * EngineState :=
  match client with
  | None => (Some (Value (reject KARU_ERR_INVALID [Text name; Text $": null argument"] tt)), e)
  | Some _ =>
      if (0 <? count) && match requests with None => true | Some _ => false end then
        (Some (Value (reject KARU_ERR_INVALID [Text name; Text $": null argument"] tt)), e)
      else
        match missing_buffer 0 (default [] requests) with
        | Some index =>
            (Some (Value (reject KARU_ERR_INVALID
               [Text name; Text $": request "; Integer index; Text $" has no destination buffer"] tt)), e)
        | None =>
            match client_submit client requests count options true name id heap acquired e with
            | (Value (KARU_OK, _, Some _), e) =>
                (match fetch_loop answers KARU_OK [] with
                 | None => None
                 | Some (status, text) =>
                     Some (Value (status, (if str_eqb text [] then clear_error else set_error text), tt))
                 end, e)
            | (Value (status, text, _), e) => (Some (Value (status, text, tt)), e)
            | (Raise ex, e) => (Some (Raise ex), e)
            end
        end
  end.

(** [None] while a completion is waited for. *)
Definition karu_client_fetch (client : option ConfigSnapshot) (requests : option (list karu_req)) (count : Z)
    (id : nat) (heap : list Z) (acquired : raised unit) (answers : list (karu_status * Completion))
    (e : EngineState) : option (call unit) * EngineState :=
  let '(r, e) := client_fetch client requests count None $"karu_client_fetch" id heap acquired answers e in
  (guarded $"karu_client_fetch" tt <$> r, e).
Definition karu_client_fetch_with (client : option ConfigSnapshot) (requests : option (list karu_req)) (count : Z)
    (options : option karu_submit_options) (id : nat) (heap : list Z) (acquired : raised unit)
    (answers : list (karu_status * Completion)) (e : EngineState) : option (call unit) * EngineState :=
  let '(r, e) := client_fetch client requests count options $"karu_client_fetch_with" id heap acquired answers e in
  (guarded $"karu_client_fetch_with" tt <$> r, e).
End Calls.

(** ** [karu_client::acquire_engine]

    The engine is made on first use and belongs to the process that made it.
    [fork] copies the client with whatever its threads were doing. *)

Record karu_client := mkClient {
  owner_pid : Z;                  (* 0 until an engine exists *)
  mutex_holder : option nat;      (* the thread inside the critical section *)
  engine : option (Z * nat);      (* the process that made it, and which one it is *)
}.
#[export] Instance karu_client_eta : Eta karu_client := fun r =>
  mkClient (owner_pid r) (mutex_holder r) (engine r).
Definition karu_client_default : karu_client := mkClient 0 None None.

(** Where a thread is in [acquire_engine]: [Replacing] has seen another
    process's engine, [Made] has assigned the engine and not yet stored
    [owner_pid]. *)
Inductive acquire_pc := Enter | Replacing | Locking | Locked | Made (e : Z * nat) | Done (e : Z * nat).

(** One step of thread [t] of process [pid]; a fresh engine is number [new].
    [None] while the mutex is held by another thread. *)
Definition acquire_step (pid : Z) (t new : nat) (pc : acquire_pc) (c : karu_client)
    : option (acquire_pc * karu_client) :=
  match pc with
  | Enter =>
      Some (if negb (owner_pid c =? 0) && negb (owner_pid c =? pid) then Replacing else Locking, c)
  | Replacing => Some (Locking, mkClient 0 None None)
  | Locking =>
      match mutex_holder c with
      | Some _ => None
      | None => Some (Locked, c <| mutex_holder := Some t |>)
      end
  | Locked =>
      match engine c with
      | Some e => Some (Done e, c <| mutex_holder := None |>)
      | None => Some (Made (pid, new), c <| engine := Some (pid, new) |>)
      end
  | Made e => Some (Done e, c <| owner_pid := pid |> <| mutex_holder := None |>)
  | Done e => Some (Done e, c)
  end.

(** A call without interference takes at most six steps. *)
Fixpoint acquire_run (fuel : nat) (pid : Z) (t new : nat) (pc : acquire_pc) (c : karu_client)
    : option ((Z * nat) * karu_client) :=
  match fuel with
  | O => None
  | S fuel =>
      match acquire_step pid t new pc c with
      | Some (Done e, c) => Some (e, c)
      | Some (pc, c) => acquire_run fuel pid t new pc c
      | None => None
      end
  end.
Definition acquire_engine (pid : Z) (t new : nat) (c : karu_client) : option ((Z * nat) * karu_client) :=
  acquire_run 6 pid t new Enter c.

(** [~karu_client]: whether the mutex and the engine are destroyed. *)
Definition destroys_engine (pid : Z) (c : karu_client) : bool :=
  negb (negb (owner_pid c =? 0) && negb (owner_pid c =? pid)).

(** ** Interleavings *)

(** The threads of one process with their client. *)
Record Process := mkProcess { ps_pid : Z; ps_client : karu_client; ps_threads : gmap nat acquire_pc }.

Inductive process_step : Process -> Process -> Prop :=
| Call pid c ts t : ts !! t = None -> process_step (mkProcess pid c ts) (mkProcess pid c (<[t := Enter]> ts))
| Run pid c ts t new pc pc' c' :
    ts !! t = Some pc -> acquire_step pid t new pc c = Some (pc', c') ->
    process_step (mkProcess pid c ts) (mkProcess pid c' (<[t := pc']> ts))
| Return pid c ts t e : ts !! t = Some (Done e) -> process_step (mkProcess pid c ts) (mkProcess pid c (delete t ts)).

(** The child of a [fork] has the client and none of the threads inside it. *)
Definition forked (p : Process) (child : Z) : Process := mkProcess child (ps_client p) ∅.

(** Processes that only fork while no thread acquires the engine. *)
Inductive lineage : Process -> Prop :=
| Born pid : pid <> 0 -> lineage (mkProcess pid karu_client_default ∅)
| Stepped p q : lineage p -> process_step p q -> lineage q
| Forked p child : lineage p -> ps_threads p = ∅ -> child <> 0 -> lineage (forked p child).

Record client_ok (p : Process) : Prop := {
  co_pid : ps_pid p <> 0;
  co_engine : forall q id, engine (ps_client p) = Some (q, id) ->
    q = ps_pid p /\ (owner_pid (ps_client p) = ps_pid p \/ exists t e, ps_threads p !! t = Some (Made e)) \/
    owner_pid (ps_client p) = q /\ q <> 0;
  co_inside : forall t pc, ps_threads p !! t = Some pc -> pc <> Enter -> pc <> Replacing ->
    owner_pid (ps_client p) = 0 \/ owner_pid (ps_client p) = ps_pid p;
  co_own : forall t q id, ps_threads p !! t = Some (Made (q, id)) \/ ps_threads p !! t = Some (Done (q, id)) ->
    q = ps_pid p;
}.

(** A thread inside leaves only engines of its own process to be found. *)
Lemma inside_own p t pc q id : client_ok p -> ps_threads p !! t = Some pc -> pc <> Enter -> pc <> Replacing ->
  engine (ps_client p) = Some (q, id) -> q = ps_pid p.
Proof.
  intros Hp Ht H1 H2 He. destruct (co_engine _ Hp _ _ He) as [[-> _]|[Ho Hq]]; [done|].
  destruct (co_inside _ Hp _ _ Ht H1 H2); congruence.
Qed.

(** Moving one thread on, when owner and engine stay as they are. *)
Lemma thread_moves pid c c' ts t pc pc' :
  client_ok (mkProcess pid c ts) -> owner_pid c' = owner_pid c -> engine c' = engine c -> ts !! t = Some pc -> (forall e, pc <> Made e) ->
  (pc' <> Enter -> pc' <> Replacing -> owner_pid c = 0 \/ owner_pid c = pid) ->
  (forall q id, pc' = Made (q, id) \/ pc' = Done (q, id) -> q = pid) ->
  client_ok (mkProcess pid c' (<[t := pc']> ts)).
Proof.
  intros Hp Howner Heng Ht Hmade Hin Hown. constructor; cbn; rewrite ?Howner, ?Heng.
  - apply (co_pid _ Hp).
  - intros q id He. destruct (co_engine _ Hp _ _ He) as [[-> [Ho|(u & e & Hu)]]|Hr]; [by left; auto| |by right].
    left. split; [done|]. right. exists u, e. cbn in Hu. rewrite lookup_insert_ne; [done|].
    intros ->. rewrite Ht in Hu. injection Hu as ->. by apply (Hmade e).
  - intros u x. rewrite lookup_insert_Some. intros [[<- <-]|[_ Hu]]; [done|by apply (co_inside _ Hp u x)].
  - intros u q id. rewrite !lookup_insert_Some.
    intros [[[<- Hx]|[_ Hu]]|[[<- Hx]|[_ Hu]]]; [apply (Hown q id); auto|apply (co_own _ Hp u q id); auto
      |apply (Hown q id); auto|apply (co_own _ Hp u q id); auto].
Qed.

Lemma step_client_ok p q : process_step p q -> client_ok p -> client_ok q.
Proof.
  intros Hs Hp. destruct Hs as [pid c ts t Hn|pid c ts t new pc pc' c' Ht Hstep|pid c ts t e Ht].
  - constructor; cbn.
    + apply (co_pid _ Hp).
    + intros q id He. destruct (co_engine _ Hp _ _ He) as [[-> [Ho|(u & e & Hu)]]|Hr]; [by left; auto| |by right].
      left. split; [done|]. right. exists u, e. cbn in Hu. rewrite lookup_insert_ne; [done|congruence].
    + intros u x. rewrite lookup_insert_Some. intros [[<- <-]|[_ Hu]]; [done|by apply (co_inside _ Hp u x)].
    + intros u q id. rewrite !lookup_insert_Some.
      intros [[[_ [=]]|[_ Hu]]|[[_ [=]]|[_ Hu]]]; apply (co_own _ Hp u q id); auto.
  - pose proof (co_pid _ Hp) as Hpid. cbn in Hpid.
    destruct pc as [| | | |e|e]; cbn in Hstep.
    + injection Hstep as <- <-. apply (thread_moves _ c _ _ _ Enter); [done..| |].
      * intros H1 H2. destruct (Z.eqb_spec (owner_pid c) 0); [by left|].
        destruct (Z.eqb_spec (owner_pid c) pid); [by right|by cbn in H2].
      * intros q id. destruct (_ && _); by intros [?|?].
    + injection Hstep as <- <-. constructor; cbn; [done|done|by left|].
      intros u q id. rewrite !lookup_insert_Some.
      intros [[[_ [=]]|[_ Hu]]|[[_ [=]]|[_ Hu]]]; apply (co_own _ Hp u q id); auto.
    + destruct (mutex_holder c); [done|]. injection Hstep as <- <-.
      apply (thread_moves _ c _ _ _ Locking); try done; [|by intros q id [?|?]].
      intros _ _. by apply (co_inside _ Hp t Locking).
    + pose proof (co_inside _ Hp t Locked Ht) as Hin. destruct (engine c) as [[q0 id0]|] eqn:Ee.
      * injection Hstep as <- <-. pose proof (inside_own _ _ _ _ _ Hp Ht ltac:(done) ltac:(done) Ee) as ->.
        apply (thread_moves _ c _ _ _ Locked); try done; [by intros _ _; apply Hin|by intros q id [?|[= <- _]]].
      * injection Hstep as <- <-. constructor; cbn; [done| | |].
        -- intros q id [= <- <-]. left. split; [done|]. right. exists t, (pid, new). by rewrite lookup_insert_eq.
        -- intros _ _ _ _ _. by apply Hin.
        -- intros u q id. rewrite !lookup_insert_Some.
           intros [[[_ [= <- _]]|[_ Hu]]|[[_ [=]]|[_ Hu]]]; [done|..]; apply (co_own _ Hp u q id); auto.
    + injection Hstep as <- <-. constructor; cbn; [done| |by right|].
      * intros q id He. pose proof (inside_own _ _ _ _ _ Hp Ht ltac:(done) ltac:(done) He). by left; auto.
      * intros u q id. rewrite !lookup_insert_Some.
        intros [[[_ [=]]|[_ Hu]]|[[_ [= ->]]|[_ Hu]]]; [|apply (co_own _ Hp t q id); auto|];
          apply (co_own _ Hp u q id); auto.
    + injection Hstep as <- <-. by rewrite insert_id.
  - constructor; cbn.
    + apply (co_pid _ Hp).
    + intros q id He. destruct (co_engine _ Hp _ _ He) as [[-> [Ho|(u & e' & Hu)]]|Hr]; [by left; auto| |by right].
      left. split; [done|]. right. exists u, e'. cbn in Hu. rewrite lookup_delete_ne; [done|congruence].
    + intros u x. rewrite lookup_delete_Some. intros [_ Hu]. by apply (co_inside _ Hp u x).
    + intros u q id. rewrite !lookup_delete_Some. intros [[_ Hu]|[_ Hu]]; apply (co_own _ Hp u q id); auto.
Qed.

Lemma lineage_ok p : lineage p -> client_ok p.
Proof.
  induction 1 as [pid Hpid|p q _ IH Hs|p child _ IH Hq Hc].
  - constructor; cbn; try done. intros t q id. rewrite !lookup_empty. by intros [?|?].
  - by eapply step_client_ok.
  - constructor; cbn; [done| | |].
    + intros q id He. right. destruct (co_engine _ IH _ _ He) as [[-> [Ho|(t & e & Ht)]]|Hr]; [|by rewrite Hq in Ht|done].
      split; [done|apply IH].
    + intros t pc. by rewrite lookup_empty.
    + intros t q id. rewrite !lookup_empty. by intros [?|?].
Qed.

(** C40: an engine serves only the process that made it: whatever threads call
    the client and whenever the process forks while none of them is acquiring
    the engine, the engine a thread acquires was made by its own process, and
    a process destroys the client's engine only if it made it. *)
Theorem engine_serves_its_maker p :
  lineage p ->
  (forall t q id, ps_threads p !! t = Some (Done (q, id)) -> q = ps_pid p) /\
  (ps_threads p = ∅ -> destroys_engine (ps_pid p) (ps_client p) = true ->
   forall q id, engine (ps_client p) = Some (q, id) -> q = ps_pid p).
Proof.
  intros Hp%lineage_ok. split; [intros t q id Ht; by apply (co_own _ Hp t q id); auto|].
  intros Hq Hd q id He. unfold destroys_engine in Hd.
  destruct (co_engine _ Hp _ _ He) as [[-> _]|[Ho H0]]; [done|]. rewrite Ho in Hd.
  destruct (Z.eqb_spec q 0); [done|]. destruct (Z.eqb_spec q (ps_pid p)); [done|]. done.
Qed.

Lemma engine_serves_its_maker_witness :
  let p := mkProcess 7 (mkClient 7 None (Some (7, 1%nat))) {[ 0%nat := Done (7, 1%nat) ]} in
  lineage p /\ (forall t q id, ps_threads p !! t = Some (Done (q, id)) -> q = 7).
Proof.
  assert (H : lineage (mkProcess 7 (mkClient 7 None (Some (7, 1%nat))) {[ 0%nat := Done (7, 1%nat) ]})).
  { assert (Hp : forall c c' pc pc', acquire_step 7 0 1 pc c = Some (pc', c') ->
      lineage (mkProcess 7 c {[ 0%nat := pc ]}) -> lineage (mkProcess 7 c' {[ 0%nat := pc' ]})).
    { intros c c' pc pc' Hs Hl. rewrite <-(insert_singleton_eq 0%nat pc' pc). eapply Stepped; [exact Hl|].
      eapply Run; [|exact Hs]. by rewrite lookup_singleton_eq. }
    eapply (Hp (mkClient 0 (Some 0%nat) (Some (7, 1%nat))) _ (Made (7, 1%nat))); [vm_compute; reflexivity|].
    eapply (Hp (mkClient 0 (Some 0%nat) None) _ Locked); [vm_compute; reflexivity|].
    eapply (Hp karu_client_default _ Locking); [vm_compute; reflexivity|].
    eapply (Hp karu_client_default _ Enter); [vm_compute; reflexivity|].
    eapply Stepped; [apply (Born 7); done|]. apply (Call 7 karu_client_default ∅ 0%nat). done. }
  split; [exact H|]. exact (proj1 (engine_serves_its_maker _ H)).
Defined.

(** *** Where [fork] and threads defeat the check *)

(** Runs the threads named by a schedule, each with the number of the engine it
    would make; [None] when one of them waits for the mutex. *)
Fixpoint run_threads (schedule : list (nat * nat)) (p : Process) : option Process :=
  match schedule with
  | [] => Some p
  | (t, new) :: schedule =>
      match acquire_step (ps_pid p) t new (default Enter (ps_threads p !! t)) (ps_client p) with
      | Some (pc, c) => run_threads schedule (mkProcess (ps_pid p) c (<[t := pc]> (ps_threads p)))
      | None => None
      end
  end.

(** A process that forks while a thread makes the first engine leaves its
    child a locked mutex and no owner to see it by: every call waits for ever. *)
Example fork_inside_first_acquire_deadlocks :
  match run_threads [(0, 1); (0, 1)]%nat (mkProcess 7 karu_client_default ∅) with
  | Some p => forall t new, acquire_engine 8 t new (ps_client (forked p 8)) = None
  | None => False
  end.
Proof. vm_compute. reflexivity. Qed.

(** Two threads of a child that both see the parent's engine replace it twice:
    one of them keeps an engine the client has forgotten. *)
Example forked_threads_make_two_engines :
  match run_threads [(0, 1); (1, 2); (0, 1); (0, 1); (0, 1); (0, 1); (1, 2); (1, 2); (1, 2); (1, 2); (1, 2)]%nat
          (mkProcess 8 (mkClient 7 None (Some (7, 9%nat))) ∅) with
  | Some p => ps_threads p !! 0%nat = Some (Done (8, 1%nat)) /\ ps_threads p !! 1%nat = Some (Done (8, 2%nat)) /\
      engine (ps_client p) = Some (8, 2%nat)
  | None => False
  end.
Proof. vm_compute. split_and!; reflexivity. Qed.

(** ** Options and structures *)

(** What the types of the C API give. *)
Definition req_ok (q : karu_req) : Prop :=
  is_u64 (q_offset q) /\ is_u64 (q_length q) /\ match q_locator q with Some l => window_ok l | None => True end.
Definition submit_options_ok (o : karu_submit_options) : Prop :=
  is_u64 (so_gap o) /\ is_u64 (so_limit o) /\ is_u64 (so_parts o) /\ is_u64 (so_amplification o).

(** The request a public one stands for. *)
Definition same_request (q : karu_req) (r : Request) : Prop :=
  q_locator q = Some (locator r) /\ offset r = q_offset q /\ length_ r = q_length q /\
  buffer r = q_buffer q /\ tag r = q_tag q /\ if_match r = default [] (q_if_match q) /\
  has_line_end (if_match r) = false.

Lemma convert_request_spec name i q r : req_ok q -> convert_request name i q = Ok r ->
  same_request q r /\ wf_request r.
Proof.
  intros (Ho & Hl & Hw). unfold convert_request. destruct (q_locator q) as [l|] eqn:El; [|done].
  destruct (Z.eqb_spec (q_length q) 0); [done|]. destruct (Z.eqb_spec (q_length q) KARU_TO_END); [done|].
  destruct (q_if_match q) as [m|] eqn:Em; [destruct (has_line_end m) eqn:E; [done|]|];
    intros [= <-]; unfold same_request, wf_request, is_u64 in *; cbn; rewrite El, Em; (split; [done|]);
    split_and!; try done; lia.
Qed.

Lemma convert_from_spec name qs : forall i rs, Forall req_ok qs -> convert_from name i qs = Ok rs ->
  Forall2 same_request qs rs /\ Forall wf_request rs.
Proof.
  induction qs as [|q qs IH]; intros i rs Hq; cbn [convert_from]; [by intros [= <-]|].
  apply Forall_cons_iff in Hq as [Hq Hqs].
  rewrite expected_bind_ok. intros (r & Hr & Hrest). apply expected_bind_ok in Hrest as (rest & Hrest & [= <-]).
  apply convert_request_spec in Hr as [H1 H2]; [|done]. destruct (IH _ _ Hqs Hrest). split; by constructor.
Qed.

Lemma submit_options_spec d o name r : plan_options_ok d ->
  match o with Some o => submit_options_ok o | None => True end ->
  submit_options d o name = Ok r -> plan_options_ok r.
Proof.
  unfold plan_options_ok, submit_options_ok, is_u64. intros Hd Ho. unfold submit_options.
  destruct o as [o|]; [|by intros [= <-]]. destruct (so_size o <? field_end 0); [done|].
  destruct (negb (so_gap o =? KARU_INHERIT)).
  all: destruct ((field_end 1 <=? so_size o) && negb (so_limit o =? KARU_INHERIT)) eqn:E1; cbn [andb];
    [destruct (so_limit o =? 0); [done|]|].
  all: destruct ((field_end 2 <=? so_size o) && negb (so_parts o =? KARU_INHERIT)) eqn:E2; cbn [andb];
    [destruct (Z.eqb_spec (so_parts o) 0); [done|]; destruct (SIZE_MAX <? so_parts o); [done|]|].
  all: destruct ((field_end 3 <=? so_size o) && negb (so_amplification o =? KARU_INHERIT)) eqn:E3; cbn [andb];
    [destruct (Z.eqb_spec (so_amplification o) 0); [done|]|].
  all: intros [= <-]; cbn; lia.
Qed.

(** A batch the API accepts can be planned: when [karu_client_submit]
    passes its arguments on, every request is the one the caller wrote, in
    order, with a locator, a finite length of at least one byte and an ETag on
    one line, and the planner's options keep their bounds whatever the
    overrides are. *)
Theorem accepted_batch_is_plannable c requests count options name id heap acquired e id' text e' :
  plan_options_ok (client_ c) -> Forall req_ok requests ->
  match options with Some o => submit_options_ok o | None => True end ->
  client_submit (Some c) (Some requests) count options true name id heap acquired e
    = (Value (KARU_OK, text, Some id'), e') ->
  exists converted o, Forall2 same_request requests converted /\ Forall wf_request converted /\
    plan_options_ok o /\ submit_options (client_ c) options name = Ok o /\
    submit id converted o heap e = (e', KARU_OK) /\ id' = id.
Proof.
  intros Hc Hreq Hopt. unfold client_submit. rewrite andb_false_r. unfold convert_requests.
  change (default [] (Some requests)) with requests.
  destruct (convert_from name 0 requests) as [converted|] eqn:E1; [|discriminate].
  destruct (submit_options (client_ c) options name) as [o|] eqn:E2; [|discriminate].
  destruct acquired; [|discriminate]. destruct (submit id converted o heap e) as [e1 st] eqn:E3.
  destruct (bool_decide_reflect (st = KARU_OK)) as [->|Hst]; cbn [negb]; [|intros [= Hok]; done]. intros [= _ <- <-].
  apply convert_from_spec in E1 as [H1 H2]; [|done]. apply submit_options_spec in E2; [|done..].
  by exists converted, o.
Qed.

(** A download the API accepts is within its bounds: chunks and slots are
    at least one, and all the slots' buffers together fit in memory. *)
Theorem accepted_download_is_bounded options s :
  match options with Some o => is_u64 (do_chunk_size o) /\ is_u64 (do_parallelism o) | None => True end ->
  download_options options = Ok s ->
  1 <= chunk_size s <= U64_MAX /\ 1 <= parallelism s /\ chunk_size s * parallelism s <= SIZE_MAX.
Proof.
  unfold download_options. destruct options as [o|]; [|intros _ [= <-]; cbn; lia].
  intros [Hc Hp]. unfold is_u64 in *. destruct (do_size o <? field_end 0); [done|].
  destruct (_ && _ && _); [done|].
  set (slots := if field_end 1 <=? do_size o then do_parallelism o else parallelism default_download).
  assert (0 <= slots) by (unfold slots; destruct (_ <=? _); cbn; lia).
  destruct (Z.eqb_spec (do_chunk_size o) 0); [done|]. destruct (Z.eqb_spec (do_chunk_size o) KARU_TO_END); [done|].
  cbn [orb]. destruct (Z.eqb_spec slots 0); [done|]. destruct (Z.ltb_spec SIZE_MAX slots); [done|]. cbn [orb].
  destruct (Z.ltb_spec SIZE_MAX (do_chunk_size o)); [done|].
  destruct (Z.ltb_spec (SIZE_MAX / do_chunk_size o) slots) as [|Hle]; [done|]. cbn [orb]. intros [= <-]. cbn.
  pose proof (Z.mul_div_le SIZE_MAX (do_chunk_size o) ltac:(lia)). nia.
Qed.

(** Two structures a caller with the smaller header cannot tell apart. *)
Definition same_known_submit (a b : karu_submit_options) : Prop :=
  so_size a = so_size b /\
  (field_end 0 <= so_size a -> so_gap a = so_gap b) /\
  (field_end 1 <= so_size a -> so_limit a = so_limit b) /\
  (field_end 2 <= so_size a -> so_parts a = so_parts b) /\
  (field_end 3 <= so_size a -> so_amplification a = so_amplification b).
Definition same_known_download (a b : karu_download_options) : Prop :=
  do_size a = do_size b /\
  (field_end 0 <= do_size a -> do_chunk_size a = do_chunk_size b) /\
  (field_end 1 <= do_size a -> do_parallelism a = do_parallelism b) /\
  (overwrite_end <= do_size a -> do_overwrite a = do_overwrite b) /\
  (progress_end <= do_size a -> do_progress a = do_progress b).

(** The fields of a result that lie beyond its [struct_size]. *)
Definition keeps_unknown (out out' : karu_download_result) : Prop :=
  let n := dr_struct_size out in
  dr_struct_size out' = n /\
  (n < field_end 1 -> dr_downloaded out' = dr_downloaded out) /\
  (n < field_end 2 -> dr_received_bytes out' = dr_received_bytes out) /\
  (n < field_end 3 -> dr_retries out' = dr_retries out) /\
  (n < field_end 4 -> dr_throttled out' = dr_throttled out) /\
  (n < field_end 5 -> dr_new_connections out' = dr_new_connections out) /\
  (n < field_end 6 -> dr_resumed out' = dr_resumed out) /\
  (n < field_end 7 -> dr_credential_refreshes out' = dr_credential_refreshes out) /\
  (n < result_etag_end -> dr_etag out' = dr_etag out).

Lemma submit_options_known d a b name : same_known_submit a b ->
  submit_options d (Some a) name = submit_options d (Some b) name.
Proof.
  intros (Hs & H0 & H1 & H2 & H3). unfold submit_options. rewrite <-Hs.
  destruct (Z.ltb_spec (so_size a) (field_end 0)) as [|L0]; [done|]. rewrite <-(H0 L0).
  destruct (Z.leb_spec (field_end 1) (so_size a)) as [L1|]; [rewrite <-(H1 L1)|];
    (destruct (Z.leb_spec (field_end 2) (so_size a)) as [L2|]; [rewrite <-(H2 L2)|]);
    (destruct (Z.leb_spec (field_end 3) (so_size a)) as [L3|]; [rewrite <-(H3 L3)|]); reflexivity.
Qed.

Lemma download_options_known a b : same_known_download a b ->
  download_options (Some a) = download_options (Some b).
Proof.
  intros (Hs & H0 & H1 & H2 & H3). unfold download_options. rewrite <-Hs.
  destruct (Z.ltb_spec (do_size a) (field_end 0)) as [|L0]; [done|]. rewrite <-(H0 L0).
  destruct (Z.leb_spec (field_end 1) (do_size a)) as [L1|]; [rewrite <-(H1 L1)|];
    (destruct (Z.leb_spec overwrite_end (do_size a)) as [L2|]; [rewrite <-(H2 L2)|]);
    (destruct (Z.leb_spec progress_end (do_size a)) as [L3|]; [rewrite <-(H3 L3)|]); reflexivity.
Qed.

(** A structure is used up to its [struct_size]: options that agree on the
    fields they have mean the same to a submission and to a download, and a
    result, an object's information or the counters of a batch are stored
    without touching a field the caller's structure does not have. *)
Theorem struct_size_is_respected :
  (forall d a b name, same_known_submit a b ->
     submit_options d (Some a) name = submit_options d (Some b) name) /\
  (forall a b, same_known_download a b -> download_options (Some a) = download_options (Some b)) /\
  (forall out s out', store_download_result (Some out) s = Some out' -> keeps_unknown out out') /\
  (forall out size etag, oi_struct_size out < object_etag_end ->
     oi_etag (store_object_info out size etag) = oi_etag out) /\
  (forall size from old index, size < field_end index ->
     forall proj, (index, proj) ∈ [(1, n_transfers_finished); (2, n_requested_bytes); (3, n_received_bytes);
       (4, n_retries); (5, n_throttled); (6, n_new_connections); (7, n_resumed); (8, n_credential_refreshes)] ->
     proj (copy_stats size from old) = proj old).
Proof.
  assert (Hskip : forall k n, n < k -> (k <=? n) = false) by (intros; by apply Z.leb_gt).
  split_and!.
  - exact submit_options_known.
  - exact download_options_known.
  - intros out s out' [= <-]. unfold keeps_unknown. cbn.
    split_and!; [done|..]; intros Hlt; by rewrite (Hskip _ _ Hlt).
  - intros out size etag Hlt. unfold store_object_info. cbn. by rewrite (Hskip _ _ Hlt).
  - intros size from old index Hlt proj Hin. apply Hskip in Hlt.
    repeat (apply elem_of_cons in Hin as [[= -> ->]|Hin]; [cbn; by rewrite Hlt|]). by apply not_elem_of_nil in Hin.
Qed.

Lemma struct_size_is_respected_witness :
  submit_options ClientOptions_default (Some (mkSubmitOptions 16 5 0 0 0)) $"f"
  = submit_options ClientOptions_default (Some (mkSubmitOptions 16 5 1 2 3)) $"f".
Proof.
  apply (proj1 struct_size_is_respected). split_and!; [reflexivity|reflexivity|..]; unfold field_end; cbn; lia.
Defined.

Lemma accepted_download_is_bounded_witness :
  download_options (Some (mkDownloadOptions 24 1024 4 7 true))
    = Ok {| chunk_size := 1024; parallelism := 4; overwrite := false; has_progress := false |} /\
  1024 * 4 <= SIZE_MAX.
Proof.
  split; [vm_compute; reflexivity|].
  refine (proj2 (proj2 (accepted_download_is_bounded (Some (mkDownloadOptions 24 1024 4 7 true))
    {| chunk_size := 1024; parallelism := 4; overwrite := false; has_progress := false |} _ _)));
    [unfold is_u64; cbn; lia|vm_compute; reflexivity].
Defined.

(** The ETag that pinned a download is left out of the result when it has 256
    characters or more, although the download was pinned to it. *)
Example long_etag_left_out :
  let tag := replicate 256 "x"%char in
  dr_etag <$> store_download_result (Some (mkDownloadResult 328 0 0 0 0 0 0 0 0 $"old"))
    (DownloadSummary_default <| s_etag := tag |>) = Some [].
Proof. vm_compute. reflexivity. Qed.

Definition example_config : ConfigSnapshot :=
  mkSnapshot ∅ ∅ [] ∅ [] [] [] [] false ClientOptions_default HttpRequestOptions_default [] false.
Definition example_request : karu_req :=
  mkReq (Some (Resolved_default <| backend := Http |> <| window_length := TO_END |>)) 10 4 1000 7 None.

Lemma accepted_batch_is_plannable_witness :
  exists e', client_submit (Some example_config) (Some [example_request]) 1 None true $"f" 0 [] (Value tt)
      (new_engine ClientOptions_default no_memory) = (Value (KARU_OK, clear_error, Some 0%nat), e') /\
    exists converted o, Forall wf_request converted /\ length converted = 1%nat /\ plan_options_ok o.
Proof.
  assert (exists e', client_submit (Some example_config) (Some [example_request]) 1 None true $"f" 0 [] (Value tt)
    (new_engine ClientOptions_default no_memory) = (Value (KARU_OK, clear_error, Some 0%nat), e')) as (e' & E)
    by (eexists; vm_compute; reflexivity).
  assert (H1 : plan_options_ok (client_ example_config)) by (unfold plan_options_ok; cbn; lia).
  assert (H2 : Forall req_ok [example_request]).
  { repeat constructor; unfold is_u64; cbn; try lia; done. }
  exists e'. split; [exact E|].
  destruct (accepted_batch_is_plannable example_config [example_request] 1 None $"f" 0 [] (Value tt)
    (new_engine ClientOptions_default no_memory) 0 clear_error e' H1 H2 I E)
    as (converted & o & Hs & Hw & Ho & _).
  exists converted, o. split_and!; [exact Hw| |exact Ho]. by apply Forall2_length in Hs.
Defined.

(** ** Fetching *)

(** The status and the text a fetch owes to a list of completions. *)
Definition first_failure (cs : list Completion) : karu_status * str :=
  match base.filter (fun c => c_status c <> KARU_OK) cs with
  | [] => (KARU_OK, [])
  | c :: _ => (c_status c, detail c)
  end.

Lemma fetch_loop_failed cs c tail failure text : failure <> KARU_OK ->
  fetch_loop (map (pair KARU_OK) cs ++ (KARU_END, c) :: tail) failure text = Some (failure, text).
Proof.
  intros Hf. induction cs as [|x cs IH]; [done|]. cbn [map app fetch_loop].
  rewrite (bool_decide_eq_false_2 (failure = KARU_OK)) by done. exact IH.
Qed.

(** A fetch reports the first failure and only after everything ended:
    whatever completions come before the end of the batch, it returns the
    status and the text of the first that failed, and OK exactly when none
    did. *)
Theorem fetch_reports_first_failure cs c tail :
  fetch_loop (map (pair KARU_OK) cs ++ (KARU_END, c) :: tail) KARU_OK [] = Some (first_failure cs) /\
  ((first_failure cs).1 = KARU_OK <-> Forall (fun c => c_status c = KARU_OK) cs).
Proof.
  split.
  - induction cs as [|x cs IH]; [done|]. cbn [map app fetch_loop]. unfold first_failure. rewrite filter_cons.
    destruct (decide (c_status x <> KARU_OK)) as [Hx|Hx].
    + rewrite (bool_decide_eq_false_2 (c_status x = KARU_OK)) by done. cbn. by apply fetch_loop_failed.
    + rewrite (bool_decide_eq_true_2 (c_status x = KARU_OK)) by (by apply dec_stable). exact IH.
  - unfold first_failure. induction cs as [|x cs IH]; [done|]. rewrite filter_cons, Forall_cons_iff.
    destruct (decide (c_status x <> KARU_OK)) as [Hx|Hx]; [by cbn; split; [|intros [? _]]|].
    rewrite IH. split; [by intros ?; split; [apply dec_stable|]|by intros [_ ?]].
Qed.
