(* ===== verification/Facade.v ===== *)
(** * Facade: the C++ interface over the C API

    Models [src/include/karu/karu.hpp]: the classes Config, Object, Batch and
    Client call the C API and turn its status and the thread's error text into
    a [Result].  A text argument is copied and passed as a C string, which ends
    at its first null character.  [make_requests] hands out pointers into the
    vector of conditions it fills, so the vector is modelled with its block of
    memory: growing past its capacity moves it, and a pointer into an older
    block dangles.  The theorems show that what a caller submits is what the
    planner gets, and what a batch answers is what the caller sees. *)

From S2P Require Import Prelude Text Uri Types Planner Response Transport Files CurlSetup Probe ProbeSpec Batch Engine Reads Download System Config Client.

(** ** Results *)

Record Error := mkError { er_status : karu_status; er_message : str }.
Abbreviation Result A := (expected Error A) (only parsing).

(** The thread's error text is the one the call left, read as a C string. *)
Definition current_error (status : karu_status) (text : str) : Error := mkError status (last_error text).

(** A call that succeeds with [KARU_OK] and a value [f] makes of its result. *)
Definition result_of {A B} (c : call A) (f : A -> B) : Result B :=
  let '(status, text, a) := c in
  if status_is status KARU_OK then Ok (f a) else Err (current_error status text).

(** ** Config *)

Section Facade.
Variable version_string : str.

Definition from_environment (made : raised ConfigBuilder) : Result (option ConfigBuilder) :=
  result_of (karu_config_create true made) id.
Definition empty (made : raised ConfigBuilder) : Result (option ConfigBuilder) :=
  result_of (karu_config_create_empty true made) id.

Definition config_set (b : ConfigBuilder) (name value : str) : Result (option ConfigBuilder) :=
  result_of (karu_config_set_option (Some b) (Some (c_str name)) (Some (c_str value))) id.
Definition config_unset (b : ConfigBuilder) (name : str) : Result (option ConfigBuilder) :=
  result_of (karu_config_set_option (Some b) (Some (c_str name)) None) id.
Definition config_set_path (b : ConfigBuilder) (prefix name value : str) : Result (option ConfigBuilder) :=
  result_of (karu_config_set_path_option (Some b) (Some (c_str prefix)) (Some (c_str name)) (Some (c_str value))) id.
Definition config_unset_path (b : ConfigBuilder) (prefix name : str) : Result (option ConfigBuilder) :=
  result_of (karu_config_set_path_option (Some b) (Some (c_str prefix)) (Some (c_str name)) None) id.
Definition set_credentials_provider (b : ConfigBuilder) (kind provider data release : Z)
    : Result (option ConfigBuilder) :=
  result_of (karu_config_set_credentials_provider (Some b) kind provider data release) id.
Definition clear_credentials_provider (b : ConfigBuilder) (kind : Z) : Result (option ConfigBuilder) :=
  set_credentials_provider b kind 0 0 0.

(** ** Object *)

Definition parse (uri : str) : Result (option Locator) := result_of (karu_resolve (Some (c_str uri)) true) id.
Definition uri (o : Locator) : str := c_str (karu_locator_uri (Some o)).
Definition is_remote (o : Locator) : bool := karu_locator_is_remote (Some o).
Definition object_window_offset (o : Locator) : Z := karu_locator_window_offset (Some o).
Definition object_window_length (o : Locator) : Z := karu_locator_window_length (Some o).

(** ** Batch *)

Inductive BatchState := ready_ | end_ | timeout_.
Record BatchEvent := mkBatchEvent {
  be_state : BatchState; be_tag : Z; be_status : karu_status; be_bytes_read : Z; be_message : str;
}.

(** [Batch::next] of what [karu_batch_next] answers. *)
Definition batch_event (c : call karu_done) : Result BatchEvent :=
  let '(status, text, completed) := c in
  match status with
  | KARU_END => Ok (mkBatchEvent end_ 0 KARU_OK 0 [])
  | KARU_TIMEOUT => Ok (mkBatchEvent timeout_ 0 KARU_OK 0 [])
  | KARU_OK =>
      Ok (mkBatchEvent ready_ (done_tag completed) (done_status completed) (done_got completed)
            (if status_is (done_status completed) KARU_OK then [] else last_error text))
  | _ => Err (current_error status text)
  end.
Definition zero_done : karu_done := mkDone 0 KARU_OK 0 0.
Definition batch_next (inherited : bool) (answer_ : raised (karu_status * option Completion)) : Result BatchEvent :=
  batch_event (karu_batch_next true true inherited answer_ zero_done).

Record BatchStats := mkStats {
  st_transfers : Z; st_transfers_finished : Z; st_requested_bytes : Z; st_received_bytes : Z; st_retries : Z;
  st_throttled : Z; st_new_connections : Z; st_resumed : Z; st_credential_refreshes : Z;
}.
(** [sizeof] the structures on a 64-bit platform. *)
Definition sizeof_stats : Z := 80.
Definition sizeof_object_info : Z := 272.
Definition sizeof_download_options : Z := 48.
Definition sizeof_download_result : Z := 328.
Definition sizeof_submit_options : Z := 40.

Definition zero_stats : karu_batch_stats := mkBatchStats sizeof_stats (mkBatchCounters 0 0 0 0 0 0 0 0 0).
Definition stats (b : karu_batch) (inherited : bool) : Result BatchStats :=
  result_of (karu_batch_get_stats (Some b) (Some zero_stats) inherited) (fun counters =>
    let c := bs_values (default zero_stats counters) in
    mkStats (n_transfers c) (n_transfers_finished c) (n_requested_bytes c) (n_received_bytes c) (n_retries c)
      (n_throttled c) (n_new_connections c) (n_resumed c) (n_credential_refreshes c)).

(** ** Client: sizes, ends and downloads *)

Definition create (config : ConfigBuilder) : Result (option ConfigSnapshot) :=
  result_of (karu_client_create version_string (Some config) true) id.
Definition matches (client : ConfigSnapshot) (config : ConfigBuilder) (shared : Z -> bool) (raises : option exn)
    : Result bool :=
  result_of (karu_client_matches_config version_string (Some client) (Some config) true shared raises) (default false).

Definition size (client : ConfigSnapshot) (o : Locator) (answer_ : raised (answer Z)) : Result Z :=
  result_of (karu_client_size (Some client) (Some o) true answer_ 0) id.

Record ObjectInfo := mkInfo { info_size : Z; info_etag : str }.
Definition zero_info : karu_object_info := mkObjectInfo sizeof_object_info 0 [].
Definition object_info_of (out : option karu_object_info) : ObjectInfo :=
  let out := default zero_info out in mkInfo (oi_size out) (c_str (oi_etag out)).

Definition stat (client : ConfigSnapshot) (o : Locator) (answer_ : raised (answer Object)) : Result ObjectInfo :=
  result_of (karu_client_stat (Some client) (Some o) (Some zero_info) answer_) object_info_of.
Definition read_both_ends (client : ConfigSnapshot) (o : Locator) (head tail : span)
    (read : span -> span -> raised (answer Object)) : Result ObjectInfo :=
  result_of (karu_client_read_ends (Some client) (Some o) (sp_data head) (sp_size head) (sp_data tail) (sp_size tail)
               (Some zero_info) read) object_info_of.

Record DownloadOptions := mkDownload {
  d_chunk_size : Z; d_parallelism : Z; d_overwrite : bool; d_progress : bool;
}.
Definition DownloadOptions_default : DownloadOptions := mkDownload (8 * 2 ^ 20) 8 false false.
Definition native_download (options : DownloadOptions) : karu_download_options :=
  mkDownloadOptions sizeof_download_options (d_chunk_size options) (d_parallelism options)
    (if d_overwrite options then 1 else 0) (d_progress options).
Definition zero_download : karu_download_result := mkDownloadResult sizeof_download_result 0 0 0 0 0 0 0 0 [].
Definition download_result_of (out : option karu_download_result) : DownloadSummary :=
  let r := default zero_download out in
  mkSummary (dr_size r) (dr_downloaded r) (dr_received_bytes r) (dr_retries r) (dr_throttled r)
    (dr_new_connections r) (dr_resumed r) (dr_credential_refreshes r) (c_str (dr_etag r)).
Definition download_object (client : ConfigSnapshot) (o : Locator) (destination : str) (options : DownloadOptions)
    (run : str -> DownloadSettings -> raised (answer DownloadSummary)) : Result DownloadSummary :=
  result_of (karu_client_download (Some client) (Some o) (Some (c_str destination))
               (Some (native_download options)) (Some zero_download) run) download_result_of.

Definition client_concurrency (client : ConfigSnapshot) : Z := karu_client_concurrency (Some client).
Definition client_coalesce_gap (client : ConfigSnapshot) : Z := karu_client_coalesce_gap (Some client).
Definition client_max_attempts (client : ConfigSnapshot) : Z := karu_client_max_attempts (Some client).

(** ** Client: positional reads *)

Record Read := mkRead { r_object : option Locator; r_offset : Z; r_destination : span; r_tag : Z; r_if_match : str }.

#[export] Instance Read_eta : Eta Read := fun r =>
  mkRead (r_object r) (r_offset r) (r_destination r) (r_tag r) (r_if_match r).

Record SubmitOptions := mkSubmit {
  o_gap : option Z; o_limit : option Z; o_parts : option Z; o_amplification : option Z;
}.
Definition make_options (o : SubmitOptions) : karu_submit_options :=
  mkSubmitOptions sizeof_submit_options (default KARU_INHERIT (o_gap o)) (default KARU_INHERIT (o_limit o))
    (default KARU_INHERIT (o_parts o)) (default KARU_INHERIT (o_amplification o)).

(** A vector of texts: its elements live in a block of memory, and growing
    past the capacity moves them to another block. *)
Record Strings := mkStrings { block : nat; capacity : nat; items : list str }.
#[export] Instance Strings_eta : Eta Strings := fun v => mkStrings (block v) (capacity v) (items v).
Definition no_strings : Strings := mkStrings 0 0 [].
Definition reserve (n : nat) (v : Strings) : Strings :=
  if (n <=? capacity v)%nat then v else mkStrings (S (block v)) n (items v).
(** The standard leaves open how far a vector grows; it has room after it. *)
Definition emplace_back (s : str) (v : Strings) : Strings :=
  if (length (items v) <? capacity v)%nat then v <| items := items v ++ [s] |>
  else mkStrings (S (block v)) (S (2 * length (items v))) (items v ++ [s]).

(** [conditions.back().c_str()] *)
Record text_pointer := mkPointer { in_block : nat; at_index : nat }.
Definition pointer_to_back (v : Strings) : text_pointer := mkPointer (block v) (length (items v) - 1).
(** The C string a pointer leads to; a pointer into a block that is gone
    leads nowhere. *)
Definition read_pointer (v : Strings) (p : text_pointer) : option str :=
  if (in_block p =? block v)%nat then c_str <$> items v !! at_index p else None.

(** [karu_req] as the facade builds it. *)
Record NativeReq := mkNative {
  nr_locator : Locator; nr_offset : Z; nr_length : Z; nr_buffer : Z; nr_tag : Z; nr_if_match : option text_pointer;
}.

Fixpoint make_requests_from (reads : list Read) (conditions : Strings) (requests : list NativeReq)
    : Result (Strings * list NativeReq) :=
  match reads with
  | [] => Ok (conditions, requests)
  | read :: reads =>
      match r_object read with
      | None => Err (mkError KARU_ERR_INVALID $"read has no object")
      | Some o =>
          if sp_size (r_destination read) =? 0 then
            Err (mkError KARU_ERR_INVALID $"read has an empty destination")
          else
            let conditions := emplace_back (r_if_match read) conditions in
            let condition := if str_eqb (r_if_match read) [] then None else Some (pointer_to_back conditions) in
            make_requests_from reads conditions
              (requests ++ [mkNative o (r_offset read) (sp_size (r_destination read)) (sp_data (r_destination read))
                              (r_tag read) condition])
      end
  end.
Definition make_requests (reads : list Read) : Result (Strings * list NativeReq) :=
  make_requests_from reads (reserve (length reads) no_strings) [].

(** The requests the C API sees; [None] when it would follow a pointer that
    dangles. *)
Definition see_request (conditions : Strings) (n : NativeReq) : option karu_req :=
  match nr_if_match n with
  | None => Some (mkReq (Some (nr_locator n)) (nr_offset n) (nr_length n) (nr_buffer n) (nr_tag n) None)
  | Some p =>
      text ← read_pointer conditions p;
      Some (mkReq (Some (nr_locator n)) (nr_offset n) (nr_length n) (nr_buffer n) (nr_tag n) (Some text))
  end.

(** [None]: undefined behaviour. *)
Definition client_submit_reads (client : ConfigSnapshot) (reads : list Read) (options : SubmitOptions)
    (id : nat) (heap : list Z) (acquired : raised unit) (e : EngineState)
    : option (Result (option nat) * EngineState) :=
  match make_requests reads with
  | Err error => Some (Err error, e)
  | Ok (conditions, native) =>
      requests ← mapM (see_request conditions) native;
      let '(c, e) := karu_client_submit_with (Some client) (Some requests) (Z.of_nat (length requests))
                       (Some (make_options options)) true id heap acquired e in
      Some (result_of c Datatypes.id, e)
  end.

(** [Client::fetch]: the inner [None] is a completion waited for. *)
Definition fetch (client : ConfigSnapshot) (reads : list Read) (options : SubmitOptions) (id : nat) (heap : list Z)
    (acquired : raised unit) (answers : list (karu_status * Completion)) (e : EngineState)
    : option (option (Result unit) * EngineState) :=
  match make_requests reads with
  | Err error => Some (Some (Err error), e)
  | Ok (conditions, native) =>
      requests ← mapM (see_request conditions) native;
      let '(c, e) := karu_client_fetch_with (Some client) (Some requests) (Z.of_nat (length requests))
                       (Some (make_options options)) id heap acquired answers e in
      Some ((fun c => result_of c Datatypes.id) <$> c, e)
  end.

Definition read_into (client : ConfigSnapshot) (o : Locator) (offset : Z) (destination : span) (if_match : str)
    (id : nat) (heap : list Z) (acquired : raised unit) (answers : list (karu_status * Completion)) (e : EngineState)
    : option (Result unit) * EngineState :=
  if sp_size destination =? 0 then (Some (Ok tt), e)
  else
    let request := mkReq (Some o) offset (sp_size destination) (sp_data destination) 0
                     (if str_eqb if_match [] then None else Some (c_str if_match)) in
    let '(c, e) := karu_client_fetch (Some client) (Some [request]) 1 id heap acquired answers e in
    ((fun c => result_of c Datatypes.id) <$> c, e).

(** [Client::read]: [fresh] is the vector the allocator gives. *)
Definition read_vector (client : ConfigSnapshot) (o : Locator) (offset length_ : Z) (if_match : str) (fresh : Z)
    (id : nat) (heap : list Z) (acquired : raised unit) (answers : list (karu_status * Completion)) (e : EngineState)
    : option (Result span) * EngineState :=
  let result := mkSpan fresh length_ in
  let '(completed, e) := read_into client o offset result if_match id heap acquired answers e in
  ((fun completed => match completed with Ok _ => Ok result | Err error => Err error end) <$> completed, e).
End Facade.

(** ** What the facade passes on *)

(** The request a read stands for. *)
Definition plain_request (r : Read) : karu_req :=
  mkReq (r_object r) (r_offset r) (sp_size (r_destination r)) (sp_data (r_destination r)) (r_tag r)
    (if str_eqb (r_if_match r) [] then None else Some (c_str (r_if_match r))).

Definition usable (r : Read) : Prop := r_object r <> None /\ sp_size (r_destination r) <> 0.

(** While there is room, the conditions stay in their block: every pointer
    made on the way leads to its text at the end. *)
Lemma make_requests_from_spec reads : forall c0 ns0 v ns, (length (items c0) + length reads <= capacity c0)%nat ->
  make_requests_from reads c0 ns0 = Ok (v, ns) ->
  block v = block c0 /\ items v = items c0 ++ map r_if_match reads /\ Forall usable reads /\
  exists l, ns = ns0 ++ l /\ mapM (see_request v) l = Some (map plain_request reads).
Proof.
  induction reads as [|r reads IH]; intros c0 ns0 v ns Hcap; cbn [make_requests_from map length] in *.
  { intros [= <- <-]. rewrite app_nil_r. split_and!; [done..|]. exists []. by rewrite app_nil_r. }
  destruct (r_object r) as [o|] eqn:Eo; [|done]. destruct (Z.eqb_spec (sp_size (r_destination r)) 0) as [|Hsize]; [done|].
  unfold emplace_back. rewrite (proj2 (Nat.ltb_lt (length (items c0)) (capacity c0))) by lia.
  intros E. apply IH in E as (Hblock & Hitems & Huse & l & -> & Hl); [|cbn; rewrite length_app; cbn; lia].
  cbn in Hblock, Hitems. rewrite <-app_assoc in Hitems. split_and!; [done..|by constructor; [split; congruence|]|].
  eexists. rewrite <-app_assoc. split; [reflexivity|]. cbn [app mapM]. rewrite Hl.
  unfold see_request, plain_request. rewrite Eo. cbn [nr_if_match nr_locator nr_offset nr_length nr_buffer nr_tag].
  destruct (str_eqb (r_if_match r) []); [done|].
  unfold read_pointer. cbn. rewrite Hblock, Nat.eqb_refl, Hitems, length_app. cbn.
  rewrite lookup_app_r by lia. replace (_ - _)%nat with 0%nat by lia. done.
Qed.

(** Every usable list of reads becomes the requests it stands for, and none
    of the pointers in them dangles. *)
Lemma make_requests_spec reads v ns : make_requests reads = Ok (v, ns) ->
  Forall usable reads /\ mapM (see_request v) ns = Some (map plain_request reads).
Proof.
  unfold make_requests. intros E. apply make_requests_from_spec in E as (_ & _ & Huse & l & -> & Hl); [done|].
  unfold reserve. by destruct (Nat.leb_spec (length reads) (capacity no_strings)).
Qed.

Lemma make_requests_usable reads : forall c0 ns0, Forall usable reads ->
  exists r, make_requests_from reads c0 ns0 = Ok r.
Proof.
  induction reads as [|r reads IH]; intros c0 ns0; cbn; [by eexists|].
  intros [[Ho Hs] Huse]%Forall_cons. destruct (r_object r); [|done].
  rewrite (proj2 (Z.eqb_neq _ _) Hs). by apply IH.
Qed.

(** What the types give. *)
Definition read_ok (r : Read) : Prop :=
  is_u64 (r_offset r) /\ is_u64 (sp_size (r_destination r)) /\
  match r_object r with Some l => window_ok l | None => True end.
Definition options_ok (o : SubmitOptions) : Prop :=
  forall v, v ∈ [o_gap o; o_limit o; o_parts o; o_amplification o] -> forall n, v = Some n -> is_u64 n.

(** The planner's request of a read. *)
Definition same_read (r : Read) (q : Request) : Prop :=
  r_object r = Some (locator q) /\ offset q = r_offset r /\ length_ q = sp_size (r_destination r) /\
  buffer q = sp_data (r_destination r) /\ tag q = r_tag r /\ if_match q = c_str (r_if_match r).

(** A planner setting: what the caller gave, or the client's. *)
Definition chosen (given : option Z) (inherited : Z) : Z :=
  let v := default KARU_INHERIT given in if v =? KARU_INHERIT then inherited else v.
Definition chosen_options (o : SubmitOptions) (d : ClientOptions) : ClientOptions :=
  d <| coalesce_gap := chosen (o_gap o) (coalesce_gap d) |> <| coalesce_limit := chosen (o_limit o) (coalesce_limit d) |>
    <| coalesce_parts := chosen (o_parts o) (coalesce_parts d) |>
    <| coalesce_amplification := chosen (o_amplification o) (coalesce_amplification d) |>.

Lemma make_options_ok o : options_ok o -> submit_options_ok (make_options o).
Proof.
  intros Ho. assert (H : forall v, v ∈ [o_gap o; o_limit o; o_parts o; o_amplification o] -> is_u64 (default KARU_INHERIT v)).
  { intros [n|] Hv; [by apply (Ho _ Hv)|unfold is_u64; cbn; lia]. }
  unfold submit_options_ok, make_options. cbn. split_and!; apply H; rewrite !elem_of_cons; tauto.
Qed.

Lemma make_options_chosen o d name r : submit_options d (Some (make_options o)) name = Ok r -> r = chosen_options o d.
Proof.
  unfold submit_options, chosen_options, chosen, make_options. cbn.
  set (g := default _ (o_gap o)). set (l := default _ (o_limit o)). set (p := default _ (o_parts o)).
  set (a := default _ (o_amplification o)).
  destruct (g =? _), (l =? KARU_INHERIT); cbn [negb andb]; try (destruct (l =? 0); [done|]);
    destruct (p =? KARU_INHERIT); cbn [negb andb]; try (destruct ((p =? 0) || (SIZE_MAX <? p)); [done|]);
    destruct (a =? KARU_INHERIT); cbn [negb andb]; try (destruct (a =? 0); [done|]);
    intros [= <-]; by destruct d.
Qed.

Lemma make_requests_error reads : forall c0 ns0 e, make_requests_from reads c0 ns0 = Err e ->
  er_status e = KARU_ERR_INVALID /\ ~ Forall usable reads.
Proof.
  induction reads as [|r reads IH]; intros c0 ns0 e; cbn [make_requests_from]; [done|].
  rewrite Forall_cons. unfold usable at 1.
  destruct (r_object r); [|intros [= <-]; split; [done|tauto]].
  destruct (Z.eqb_spec (sp_size (r_destination r)) 0); [intros [= <-]; split; [done|tauto]|].
  intros [H1 H2]%IH. split; [done|tauto].
Qed.

Lemma exception_is_no_success {A} name ex (a b : A) text : exception_status name ex a <> (KARU_OK, text, b).
Proof. by destruct ex. Qed.

Lemma same_plain_request r q : same_request (plain_request r) q -> same_read r q.
Proof.
  intros (H1 & H2 & H3 & H4 & H5 & H6 & _). unfold same_read, plain_request in *. cbn in *.
  split_and!; try done. rewrite H6. unfold str_eqb. case_bool_decide as E; [by rewrite E|done].
Qed.

Lemma read_ok_plain r : read_ok r -> req_ok (plain_request r).
Proof. done. Qed.

(** C39: The C++ interface hands the planner what the caller wrote.  [submit]
    never follows a pointer that dangles, whatever the reads; it refuses reads
    without an object or with an empty destination before the engine sees
    anything; and a submission it accepts is, in order, the object, offset,
    length, destination, tag and condition (up to its first null character) of
    every read, planned with the settings given and the client's for those
    left out. *)
Theorem submitted_reads_reach_the_planner c reads options id heap acquired e :
  plan_options_ok (client_ c) -> Forall read_ok reads -> options_ok options ->
  exists r e', client_submit_reads c reads options id heap acquired e = Some (r, e') /\
    (~ Forall usable reads -> (exists text, r = Err (mkError KARU_ERR_INVALID text)) /\ e' = e) /\
    (forall id', r = Ok (Some id') ->
       exists converted, Forall2 same_read reads converted /\ Forall wf_request converted /\
         plan_options_ok (chosen_options options (client_ c)) /\
         submit id converted (chosen_options options (client_ c)) heap e = (e', KARU_OK) /\ id' = id).
Proof.
  intros Hc Hr Ho. unfold client_submit_reads. destruct (make_requests reads) as [[v ns]|error] eqn:Em.
  - apply make_requests_spec in Em as [Huse Hl]. rewrite Hl. cbn [mbind option_bind].
    unfold karu_client_submit_with.
    destruct (client_submit _ _ _ _ _ _ _ _ _ _) as [c' e'] eqn:Es. do 2 eexists. split; [reflexivity|].
    split; [done|]. intros id' Hok.
    assert (Hv : exists text, c' = Value (KARU_OK, text, Some id')).
    { unfold result_of in Hok. destruct c' as [[[st text] o]|ex]; cbn [guarded] in Hok.
      - destruct (bool_decide_reflect (st = KARU_OK)) as [->|]; [|done]. injection Hok as ->. by exists text.
      - destruct (exception_status _ ex None) as [[st text] o] eqn:Eex.
        destruct (bool_decide_reflect (st = KARU_OK)) as [->|]; [|done]. by apply exception_is_no_success in Eex. }
    destruct Hv as [text ->].
    apply accepted_batch_is_plannable in Es as (converted & o & Hsame & Hwf & Hpo & Hopt & Hsub & Hid);
      [|done|by apply Forall_fmap|by apply make_options_ok].
    apply make_options_chosen in Hopt as ->. exists converted. split_and!; try done.
    change (Forall2 same_request (plain_request <$> reads) converted) in Hsame. rewrite Forall2_fmap_l in Hsame. eapply Forall2_impl; [exact Hsame|]. apply same_plain_request.
  - apply make_requests_error in Em as [Hst Huse]. do 2 eexists. split; [reflexivity|].
    split; [|done]. intros _. split; [|done]. exists (er_message error). by destruct error; cbn in Hst; subst.
Qed.

(** ** Witnesses *)

Definition example_read : Read :=
  mkRead (q_locator example_request) 10 (mkSpan 1000 4) 7 ($"etag" ++ ["000"%char] ++ $"rest").
Definition example_gap : SubmitOptions := mkSubmit (Some 5) None None None.

Lemma submitted_reads_reach_the_planner_witness :
  exists e', client_submit_reads example_config [example_read] example_gap 0 [] (Value tt)
      (new_engine ClientOptions_default no_memory) = Some (Ok (Some 0%nat), e') /\
    exists converted, Forall2 same_read [example_read] converted /\ if_match <$> converted = [$"etag"].
Proof.
  assert (exists e', client_submit_reads example_config [example_read] example_gap 0 [] (Value tt)
    (new_engine ClientOptions_default no_memory) = Some (Ok (Some 0%nat), e')) as (e' & E) by (eexists; vm_compute; reflexivity).
  assert (H1 : plan_options_ok (client_ example_config)) by (unfold plan_options_ok; cbn; lia).
  assert (H2 : Forall read_ok [example_read]) by (repeat constructor; unfold is_u64; cbn; try lia; done).
  assert (H3 : options_ok example_gap).
  { intros v Hv n ->. unfold example_gap in Hv. cbn in Hv. apply list_elem_of_In in Hv.
    destruct Hv as [[= <-]|[?|[?|[?|[]]]]]; [unfold is_u64; lia|done..]. }
  exists e'. split; [exact E|].
  destruct (submitted_reads_reach_the_planner example_config [example_read] example_gap 0 [] (Value tt)
    (new_engine ClientOptions_default no_memory) H1 H2 H3) as (r & e1 & E1 & _ & Hok).
  rewrite E in E1. injection E1 as <- <-. destruct (Hok 0%nat eq_refl) as (converted & Hs & _).
  exists converted. split; [exact Hs|]. inversion Hs as [|x y l l' Hxy Hl]; subst. inversion Hl; subst.
  destruct Hxy as (_ & _ & _ & _ & _ & Hm). cbn. rewrite Hm. reflexivity.
Defined.

(** Without the room reserved before, the second condition moves the first one
    and the pointer to it dangles. *)
Example reserving_matters :
  let read name := example_read <| r_if_match := name |> in
  match make_requests_from [read $"a"; read $"b"] no_strings [] with
  | Ok (v, ns) => mapM (see_request v) ns = None
  | Err _ => False
  end.
Proof. vm_compute. reflexivity. Qed.
